(* ===== verification/_CoqProject ===== *)
-Q . S2P
Prelude.v
Common.v
Doubles.v
Avl.v
AvlTree.v
AvlRep.v
AvlFix.v
AvlRemove.v
AvlOffset.v
AvlSpec.v
AvlTheorems.v
HashTable.v
HashRep.v
HashMap.v
HashIndex.v
HashRuns.v
HashTheorems.v
Heap.v
HeapProof.v
HeapMap.v
HeapTheorems.v
ZSet.v
ZSetOrder.v
ZSetRep.v
ZSetOps.v
ZSetQuery.v
ZSetSpec.v
ZSetTheorems.v
DList.v
Buffer.v
Request.v
Reply.v
Numbers.v
Server.v
ServerSpec.v
ServerRep.v
ServerEnt.v
ServerCmd.v
ServerZset.v
ServerTheorems.v
ServerTrace.v
EventLoop.v
ConnSpec.v
Network.v
ConnStream.v
ConnIo.v
LoopRep.v
LoopConn.v
LoopTurn.v
LoopTheorems.v
LoopInputs.v
LoopExamples.v
NetStreams.v
Main.v
ThreadPool.v
Lru.v
ClientIo.v
ClientSession.v
