(* ===== verification/Prelude.v ===== *)
(** * A verification of build-your-own-redis

    The program (src/build-your-own-redis/) is a key-value server with sorted sets and
    expiring keys, and a command-line client for it.  Its parts:

    - server/main.cc: one thread runs an event loop over non-blocking sockets.  It keeps the
      connections ([Conn]), cuts each incoming stream into requests, runs them on the key
      space ([g_data.db]), and writes the replies.  Idle connections are closed by timers
      in a linked list, keys expire by deadlines in a heap.
    - container/: the intrusive containers those use: an AVL tree with ranks (avl), a chained
      hash table with progressive rehashing (hash_table), sorted sets made of both (zset), an
      indexed heap (heap.h), a circular list (list.h), a thread pool that frees large
      sorted sets (thread_pool.h), and an LRU cache that nothing uses yet (lru.h).
    - client/main.cc: sends its arguments as one request and prints the reply.

    ** How the code is modelled

    Code that works on pointers is translated statement by statement into the monad
    [M S A] of this file, a function from a state to a result and a new state, where
    [None] is undefined behaviour or a failed [assert].  An object that others point to
    has an address (a [positive]) in a store (a [gmap]); [ptr] is an optional address.
    The nodes embedded in one object share its address, so that [container_of] is the
    identity, and each kind of node has a store of its own.  Unsigned integers are [Z]
    with [u32] and [u64] written out where the code can wrap; signed 64-bit overflow is a
    fault; a [double] is its 64-bit pattern with the comparisons of IEEE 754.  Bytes are
    [Byte.byte].  A loop that is not structural takes fuel; running out is a fault too,
    so that each theorem that an operation returns shows that the fuel is enough.  [wp]
    is total correctness for this monad.

    ** The files

    - This file: integers, the monad, fields and stores, lenses ([zoom]), lists by a [Z]
      index, the rules of [wp] and the tactics that the other files share.
    - Common: little-endian numbers, [memcmp], the comparison of doubles,
      [str_hash] (container/common.h).  Doubles: those comparisons are those of IEEE 754.
    - Avl (code of avl.h and avl.cc); AvlTree (pure reference trees); AvlRep, AvlFix,
      AvlRemove, AvlOffset (the pointer code implements them); AvlSpec (the interface for
      clients); AvlTheorems.
    - HashTable (code of hash_table.h and hash_table.cc); HashRep, HashMap (the invariant
      of the two tables in migration); HashIndex (the class [NodeIndex]: a map from keys to nodes,
      the interface for the sorted sets and the key space); HashRuns (runs of the operations
      from the constructor); HashTheorems.
    - Heap (code of heap.h, and of [heap_upsert] and [heap_remove] of the server); HeapProof;
      HeapMap (a finite map with a least element); HeapTheorems.
    - ZSet (code of zset.h and zset.cc); ZSetOrder (its comparison of tuples); ZSetRep, ZSetOps, ZSetQuery; ZSetSpec (the
      abstract sorted set); ZSetTheorems.
    - DList: code of list.h and its rules.
    - Buffer: server/buffer.h and the response header of the server.  Request: [parse_req] of the
      server and the buffer of [send_req] of the client.  Reply: [print_response] of
      the client.  Numbers: [str2int] and [str2dbl].
    - Server: the key space and the commands of server/main.cc, on the containers above.
      ServerSpec: the abstract key space ([astate], [spec_request]).  ServerRep,
      ServerEnt, ServerCmd, ServerZset: the invariant and the rules of the commands.
      ServerTheorems and ServerTrace: requests, timers, deferred tasks, and runs of them.
    - EventLoop: the connections and the body of the loop of server/main.cc; what passes over the
      sockets is a log in the state ([el_net]).  ConnSpec, ConnStream, ConnIo: one
      connection.  Network: an abstract server ([net_step]).  LoopRep, LoopConn, LoopTurn: the
      invariant of the loop.  LoopTheorems, LoopExamples, NetStreams: its theorems and
      a computed session.  LoopInputs: what comes in over the sockets.  Main: [main] with its
      set-up and [poll].
    - ThreadPool: thread_pool.h, as interleaved steps.  Lru: lru.h.
    - ClientIo: the rest of client/main.cc.  ClientSession: a run of the client against
      the abstract server.

    ** What is shown

    - The whole server ([LoopTheorems.program_refines], [NetStreams.client_streams],
      [LoopTheorems.loop_never_faults], [LoopTheorems.loop_invariant],
      [Main.server_main_runs]): no reachable turn of the loop faults; [main] ends only by the
      calls of [die] in its set-up, after [poll] and after [fcntl]; what the program
      exchanges with the sockets is a run of an abstract server that has one key space
      and, for each connection, bytes to answer and bytes to send; each client gets
      one response for each of its requests, in order.
    - One connection ([ConnIo.handle_read_pipelines], [ConnStream.stream_split_equiv]):
      pipelined requests are answered in order, and the cuts of the stream do not matter.
    - The key space ([ServerTrace.server_runs_refine], [ServerTheorems.do_request_refines],
      [ServerTheorems.process_ttl_correct], [ServerTheorems.run_task_invisible]): each
      command replies and changes the state as [spec_request] says.
    - The timers ([LoopTheorems.idle_timers_correct], [LoopTheorems.next_timer_correct]).
    - The containers: each operation implements its reference (a tree with its in-order
      sequence, a finite map, a heap of a map, a sorted list of tuples), with the bounds
      that make it fast (the AVL height, the walk of [avl_offset], the load of the hash
      table over all runs of its operations, and the nodes that each of them migrates); the order of the tuples is that of IEEE 754 and
      of the names ([ZSetOrder.zless_order]).
    - The protocol ([Request.parse_req_iff], [Request.send_parse_roundtrip],
      [Reply.print_response_correct], [Buffer.response_end_correct],
      [Numbers.str2int_correct]) and the client ([ClientSession.client_session],
      [ClientSession.client_truncated]).
    - The thread pool ([ThreadPool.pool_tasks_exactly_once], [ThreadPool.pool_no_lost_wakeup],
      [ThreadPool.pool_shutdown_terminates]) and the cache ([Lru.lru_runs_refine]).
    - Faults of the code are theorems too: [Reply.print_response_overread],
      [LoopTheorems.next_timer_correct] (a timeout wrapped to 32 bits), [ThreadPool.pool_size_bounds]
      (no workers), [Lru.lru_zero_capacity].

    ** Bounds and fuel

    - Counters of 32 bits ([AVLNode::cnt]) and the sizes of hash tables bound the theorems
      of the containers; for the server they follow from [cnt_max], fewer than 2^32-2
      requests, and for the loop from fewer than 2^32-2 bytes received.
    - Tree walks take the size of the store as fuel, sift loops the length of the array, the
      rehashing loop its constant work, the parser the announced number of strings, the
      request loop the length of the buffer (a request has at least 4 bytes), the loop
      over the idle timers the number of connections, and [print_response] the length of the
      reply (a nested array takes at least 5 bytes).

    ** Assumptions

    - Memory allocation does not fail, and gives an unused address.
    - [strtod] is a parameter.  The clock is an argument of what reads it.
    - [accept] gives an [int] that is not open; [poll] reports only what it was asked for;
      [write] takes at most what it is given; the clock does not run backwards between
      events ([turn_ok], [event_ok]).  The client's socket is a class with the laws of a
      connected stream socket ([SocketLaws]).
    - A critical section of the thread pool is one step, [notify_one] wakes a waiting
      worker if there is one, and spurious wakeups may happen.  Only the thread that owns
      the pool enqueues, as in the server.  A task of the server frees objects that nothing else
      reaches, and is one step of its model.

    ** Not modelled

    - Output to stderr and stdout beyond what the client prints, and the rendering of
      [printf] conversions.
    - [std::future], [std::bind] and the packaging of tasks; the copy and move members
      that the classes delete; the accessors of iterators in lru.h; [operator[]] and [reserve]
      of the output buffer.
    - The tests of the containers and the programs of example/, which carry no logic of
      the system, and the build files. *)
From Stdlib Require Export ZArith Lia.
From stdpp Require Export prelude gmap sorting.

(** ** Notations *)

Declare Scope cpp_scope.
Delimit Scope cpp_scope with cpp.
#[global] Open Scope Z_scope.
#[global] Open Scope cpp_scope.

(** ** Pointers

    An object that other objects point to has an address of type [loc]; a C++
    pointer to such an object is [ptr], with [None] for [nullptr]. *)
Abbreviation loc := positive (only parsing).
Abbreviation ptr := (option positive) (only parsing).

(** ** Machine integers

    An unsigned w-bit integer is a [Z]; the wrap-around of its arithmetic is
    written out with these functions. *)
Definition u8 (z : Z) : Z := z mod 2 ^ 8.
Definition u32 (z : Z) : Z := z mod 2 ^ 32.
Definition u64 (z : Z) : Z := z mod 2 ^ 64.

(** Conversion to a signed w-bit integer (two's complement). *)
Definition i32 (z : Z) : Z := (z + 2 ^ 31) mod 2 ^ 32 - 2 ^ 31.
Definition i64 (z : Z) : Z := (z + 2 ^ 63) mod 2 ^ 64 - 2 ^ 63.

Definition in_i64 (z : Z) : bool := (- 2 ^ 63 <=? z) && (z <? 2 ^ 63).

Lemma u32_small z : 0 ≤ z < 2 ^ 32 → u32 z = z.
Proof. apply Z.mod_small. Qed.

Lemma u64_small z : 0 ≤ z < 2 ^ 64 → u64 z = z.
Proof. apply Z.mod_small. Qed.

Lemma u32_bounds z : 0 ≤ u32 z < 2 ^ 32.
Proof. apply Z.mod_pos_bound. lia. Qed.

Lemma u64_bounds z : 0 ≤ u64 z < 2 ^ 64.
Proof. apply Z.mod_pos_bound. lia. Qed.

Lemma i64_small z : - 2 ^ 63 ≤ z < 2 ^ 63 → i64 z = z.
Proof. intros. unfold i64. rewrite Z.mod_small; lia. Qed.

(** The value of an [int32_t] survives its detour through [uint32_t]. *)
Lemma i32_u32_i32 z : i32 (u32 (i32 z)) = i32 z.
Proof.
  unfold i32, u32. f_equal. rewrite Zplus_mod_idemp_l.
  replace ((z + 2 ^ 31) mod 2 ^ 32 - 2 ^ 31 + 2 ^ 31) with ((z + 2 ^ 31) mod 2 ^ 32) by lia.
  apply Z.mod_mod. lia.
Qed.

Lemma i32_bounds z : - 2 ^ 31 ≤ i32 z < 2 ^ 31.
Proof. unfold i32. pose proof (Z.mod_pos_bound (z + 2 ^ 31) (2 ^ 32) ltac:(lia)). lia. Qed.

Lemma i32_small z : - 2 ^ 31 ≤ z < 2 ^ 31 → i32 z = z.
Proof. intros. unfold i32. rewrite Z.mod_small; lia. Qed.

Lemma in_i64_true z : in_i64 z = true ↔ - 2 ^ 63 ≤ z < 2 ^ 63.
Proof. unfold in_i64. rewrite andb_true_iff, Z.leb_le, Z.ltb_lt. done. Qed.

(** ** Stateful code that can fault

    [M S A] is a computation on a state of type [S].  [None] is undefined
    behaviour or a failed [assert]: a null or dangling dereference, an index
    out of range, a signed overflow (and a loop that runs out of fuel, which
    the theorems exclude). *)
Definition M (S A : Type) : Type := S → option (A * S).

#[global] Instance M_ret S : MRet (M S) := λ A a s, Some (a, s).
#[global] Instance M_bind S : MBind (M S) := λ A B f m s,
  match m s with Some (a, s') => f a s' | None => None end.
#[global] Instance M_fmap S : FMap (M S) := λ A B f m s,
  match m s with Some (a, s') => Some (f a, s') | None => None end.

Definition fault {S A} : M S A := λ _, None.
Definition get {S} : M S S := λ s, Some (s, s).
Definition put {S} (s : S) : M S unit := λ _, Some (tt, s).

(** [assert(b)] of the C++ code. *)
Definition assert {S} (b : bool) : M S unit := if b then mret tt else fault.

(** Signed 64-bit arithmetic: overflow is undefined behaviour. *)
Definition sint64 {S} (z : Z) : M S Z := if in_i64 z then mret z else fault.

(** Total correctness: [m] returns from [s], and its result satisfies [Q]. *)
Definition wp {S A} (m : M S A) (s : S) (Q : A → S → Prop) : Prop :=
  match m s with Some (a, s') => Q a s' | None => False end.

Section wp.
Context {S : Type}.
Implicit Types s : S.

Lemma wp_ret {A} (a : A) s (Q : A → S → Prop) : Q a s → wp (mret a) s Q.
Proof. done. Qed.

Lemma wp_bind {A B} (m : M S A) (f : A → M S B) s (Q : B → S → Prop) :
  wp m s (λ a s', wp (f a) s' Q) → wp (m ≫= f) s Q.
Proof. unfold wp, mbind, M_bind. by destruct (m s) as [[a s']|]. Qed.

Lemma wp_mono {A} (m : M S A) s (P Q : A → S → Prop) :
  wp m s P → (∀ a s', P a s' → Q a s') → wp m s Q.
Proof. unfold wp. destruct (m s) as [[a s']|]; eauto. Qed.

Lemma wp_run {A} (m : M S A) s (Q : A → S → Prop) :
  wp m s Q ↔ ∃ a s', m s = Some (a, s') ∧ Q a s'.
Proof. unfold wp. destruct (m s) as [[a s']|]; naive_solver. Qed.

Lemma wp_eq {A} (m : M S A) s a s' (Q : A → S → Prop) :
  m s = Some (a, s') → Q a s' → wp m s Q.
Proof. unfold wp. by intros ->. Qed.

Lemma wp_assert (b : bool) s (Q : unit → S → Prop) :
  b = true → Q tt s → wp (assert b) s Q.
Proof. by intros ->. Qed.

Lemma wp_sint64 z s (Q : Z → S → Prop) :
  - 2 ^ 63 ≤ z < 2 ^ 63 → Q z s → wp (sint64 z) s Q.
Proof. intros Hz. unfold sint64. by rewrite (proj2 (in_i64_true z) Hz). Qed.

Lemma wp_get s (Q : S → S → Prop) : Q s s → wp get s Q.
Proof. done. Qed.

Lemma wp_put s s' (Q : unit → S → Prop) : Q tt s' → wp (put s') s Q.
Proof. done. Qed.
End wp.

(** ** Fields, and objects in a store

    A field of a struct is a getter and a setter.  A store maps addresses to
    structs; reading or writing a field through a pointer faults when the
    pointer is null or dangles. *)
Record field (N A : Type) : Type := Field { fget : N → A; fset : A → N → N }.
Arguments Field {N A} _ _.
Arguments fget {N A} _ _.
Arguments fset {N A} _ _ _.

Section store.
Context {N : Type}.
Implicit Types (s : gmap positive N) (p : ptr).

Definition load_obj p : M (gmap positive N) N := λ s,
  match p with
  | Some a => match s !! a with Some n => Some (n, s) | None => None end
  | None => None
  end.

Definition store_obj p (n : N) : M (gmap positive N) unit := λ s,
  match p with
  | Some a =>
      match s !! a with Some _ => Some (tt, <[a:=n]> s) | None => None end
  | None => None
  end.

Definition load {A} (f : field N A) p : M (gmap positive N) A := λ s,
  match p with
  | Some a =>
      match s !! a with Some n => Some (fget f n, s) | None => None end
  | None => None
  end.

Definition store {A} (f : field N A) p (v : A) : M (gmap positive N) unit := λ s,
  match p with
  | Some a =>
      match s !! a with
      | Some n => Some (tt, <[a:=fset f v n]> s)
      | None => None
      end
  | None => None
  end.

Lemma wp_load {A} (f : field N A) a n s (Q : A → gmap positive N → Prop) :
  s !! a = Some n → Q (fget f n) s → wp (load f (Some a)) s Q.
Proof. unfold wp, load. by intros ->. Qed.

Lemma wp_store {A} (f : field N A) a (v : A) n s (Q : unit → gmap positive N → Prop) :
  s !! a = Some n → Q tt (<[a:=fset f v n]> s) → wp (store f (Some a) v) s Q.
Proof. unfold wp, store. by intros ->. Qed.

Lemma wp_load_obj a n s (Q : N → gmap positive N → Prop) :
  s !! a = Some n → Q n s → wp (load_obj (Some a)) s Q.
Proof. unfold wp, load_obj. by intros ->. Qed.

Lemma wp_store_obj a n n' s (Q : unit → gmap positive N → Prop) :
  s !! a = Some n → Q tt (<[a:=n']> s) → wp (store_obj (Some a) n') s Q.
Proof. unfold wp, store_obj. by intros ->. Qed.
End store.

Notation "p ->> f" := (load f p) (at level 55, f at level 9) : cpp_scope.
Notation "p ->> f <<- v" := (store f p v)
  (at level 55, f at level 9, v at level 54) : cpp_scope.

(** ** Frames

    [same_except X s s']: the stores agree outside the addresses [X]. *)
Definition same_except {N} (X : list positive) (s s' : gmap positive N) : Prop :=
  ∀ b, b ∉ X → s' !! b = s !! b.

Section same_except.
Context {N : Type}.
Implicit Types (s : gmap positive N) (X Y : list positive).

Lemma same_except_refl X s : same_except X s s.
Proof. done. Qed.

Lemma same_except_trans X s s' s'' :
  same_except X s s' → same_except X s' s'' → same_except X s s''.
Proof. intros H1 H2 b Hb. by rewrite H2, H1. Qed.

Lemma same_except_insert X s s' a n :
  a ∈ X → same_except X s s' → same_except X s (<[a:=n]> s').
Proof. intros Ha H b Hb. rewrite lookup_insert_ne by set_solver. auto. Qed.

Lemma same_except_mono X Y s s' :
  X ⊆ Y → same_except X s s' → same_except Y s s'.
Proof. intros HXY H b Hb. apply H. set_solver. Qed.

#[export] Instance same_except_proper :
  Proper ((≡ₚ) ==> (=) ==> (=) ==> iff) (@same_except N).
Proof.
  intros X Y HXY s1 s2 -> s3 s4 ->. unfold same_except.
  by setoid_rewrite HXY.
Qed.

Lemma same_except_dom X s s' :
  same_except X s s' → (∀ a, a ∈ X → is_Some (s !! a) ↔ is_Some (s' !! a)) →
  dom s' = dom s.
Proof.
  intros H HX. apply set_eq. intros a. rewrite !elem_of_dom.
  destruct (decide (a ∈ X)) as [Ha|Ha]; [by rewrite HX|by rewrite H].
Qed.
End same_except.

(** A list of distinct allocated addresses is no longer than the store. *)
Lemma length_le_size {N} (s : gmap positive N) (l : list positive) :
  NoDup l → (∀ a, a ∈ l → is_Some (s !! a)) → (length l ≤ size s)%nat.
Proof.
  intros Hnd Hl. rewrite <- size_dom, <- (size_list_to_set (C:=gset positive) l) by done.
  apply subseteq_size. intros a Ha. apply elem_of_list_to_set in Ha.
  apply elem_of_dom. auto.
Qed.

(** ** Lists without duplicates *)

Lemma NoDup_middle {A} (l1 l2 : list A) a :
  NoDup (l1 ++ a :: l2) ↔ a ∉ l1 ++ l2 ∧ NoDup (l1 ++ l2).
Proof. rewrite <- NoDup_cons. by rewrite Permutation_middle. Qed.

(** The place of an element in a duplicate-free list is unique. *)
Lemma NoDup_middle_inv {A} (l1 l2 k1 k2 : list A) a :
  NoDup (l1 ++ a :: l2) → l1 ++ a :: l2 = k1 ++ a :: k2 → l1 = k1 ∧ l2 = k2.
Proof.
  intros Hnd E. pose proof Hnd as Hnd'. rewrite E in Hnd'.
  apply NoDup_middle in Hnd as [Hl _]. apply NoDup_middle in Hnd' as [Hk _].
  rewrite not_elem_of_app in Hl, Hk.
  apply not_elem_of_app_cons_inv_l in E; tauto.
Qed.

(** ** Operations that neither allocate nor free

    Every store goes to an allocated address, so the domain of the store does not
    change; [keeps_dom] proves it by walking the program. *)
Class KeepsDom {N A} (m : M (gmap positive N) A) : Prop :=
  keeps_dom s a s' : m s = Some (a, s') → dom s' = dom s.

Section keeps_dom.
Context {N : Type}.

#[export] Instance kd_ret {A} (a : A) : KeepsDom (N:=N) (mret a).
Proof. intros s a' s' [= <- <-]. done. Qed.

#[export] Instance kd_fault {A} : KeepsDom (N:=N) (A:=A) fault.
Proof. intros s a s' [=]. Qed.

#[export] Instance kd_get : KeepsDom (N:=N) get.
Proof. intros s a s' [= <- <-]. done. Qed.

#[export] Instance kd_assert b : KeepsDom (N:=N) (assert b).
Proof. destruct b; apply _. Qed.

#[export] Instance kd_bind {A B} (m : M (gmap positive N) A) (k : A → M (gmap positive N) B) :
  KeepsDom m → (∀ a, KeepsDom (k a)) → KeepsDom (m ≫= k).
Proof.
  intros Hm Hk s b s'. unfold mbind, M_bind. destruct (m s) as [[a s1]|] eqn:E; [|done].
  intros E'. rewrite (Hk a _ _ _ E'). by apply Hm in E.
Qed.

#[export] Instance kd_load {A} (f : field N A) p : KeepsDom (load f p).
Proof. intros s a s'. unfold load. repeat case_match; naive_solver. Qed.

#[export] Instance kd_load_obj p : KeepsDom (N:=N) (load_obj p).
Proof. intros s a s'. unfold load_obj. repeat case_match; naive_solver. Qed.

#[export] Instance kd_store {A} (f : field N A) p v : KeepsDom (store f p v).
Proof.
  intros s a s'. unfold store. destruct p as [b|]; [|done]. destruct (s !! b) eqn:E; [|done].
  intros [= <- <-]. apply dom_insert_lookup_L. by eexists.
Qed.

#[export] Instance kd_store_obj p (n : N) : KeepsDom (store_obj p n).
Proof.
  intros s a s'. unfold store_obj. destruct p as [b|]; [|done]. destruct (s !! b) eqn:E; [|done].
  intros [= <- <-]. apply dom_insert_lookup_L. by eexists.
Qed.

#[export] Instance kd_if {A} (b : bool) (m1 m2 : M (gmap positive N) A) :
  KeepsDom m1 → KeepsDom m2 → KeepsDom (if b then m1 else m2).
Proof. by destruct b. Qed.

#[export] Instance kd_decide {A} (P : Prop) (b : Decision P) (m1 m2 : M (gmap positive N) A) :
  KeepsDom m1 → KeepsDom m2 → KeepsDom (if b then m1 else m2).
Proof. by destruct b. Qed.

#[export] Instance kd_option {A B} (o : option A) (k : A → M (gmap positive N) B) m :
  (∀ a, KeepsDom (k a)) → KeepsDom m →
  KeepsDom (match o with Some a => k a | None => m end).
Proof. by destruct o. Qed.

Lemma wp_keeps_dom {A} (m : M (gmap positive N) A) `{!KeepsDom m} s (Q : A → gmap positive N → Prop) :
  wp m s Q → wp m s (λ a s', Q a s' ∧ dom s' = dom s).
Proof. unfold wp. destruct (m s) as [[a s']|] eqn:E; [|done]. by apply keeps_dom in E. Qed.
End keeps_dom.

(** ** Indexing a list with an integer *)
Definition lookupZ {A} (l : list A) (i : Z) : option A :=
  if i <? 0 then None else l !! Z.to_nat i.

Section lookupZ.
Context {A : Type}.
Implicit Types (l : list A) (i : Z).

Lemma lookupZ_nat l (n : nat) : lookupZ l (Z.of_nat n) = l !! n.
Proof. unfold lookupZ. destruct (Z.ltb_spec (Z.of_nat n) 0); [lia|]. by rewrite Nat2Z.id. Qed.

Lemma lookupZ_app_l l k i :
  i < Z.of_nat (length l) → lookupZ (l ++ k) i = lookupZ l i.
Proof.
  intros Hi. unfold lookupZ. destruct (Z.ltb_spec i 0); [done|].
  apply lookup_app_l. lia.
Qed.

Lemma lookupZ_app_r l k i :
  Z.of_nat (length l) ≤ i → lookupZ (l ++ k) i = lookupZ k (i - Z.of_nat (length l)).
Proof.
  intros Hi. unfold lookupZ. destruct (Z.ltb_spec i 0); [lia|].
  destruct (Z.ltb_spec (i - Z.of_nat (length l)) 0); [lia|].
  rewrite lookup_app_r by lia. f_equal. lia.
Qed.

Lemma lookupZ_cons_S x l i : 0 < i → lookupZ (x :: l) i = lookupZ l (i - 1).
Proof. intros Hi. apply (lookupZ_app_r [x] l i). simpl. lia. Qed.

Lemma lookupZ_out l i : i < 0 ∨ Z.of_nat (length l) ≤ i → lookupZ l i = None.
Proof.
  intros Hi. unfold lookupZ. destruct (Z.ltb_spec i 0); [done|].
  apply lookup_ge_None. lia.
Qed.

Lemma lookupZ_is_Some l i :
  is_Some (lookupZ l i) ↔ 0 ≤ i < Z.of_nat (length l).
Proof.
  unfold lookupZ. destruct (Z.ltb_spec i 0).
  - rewrite is_Some_alt. lia.
  - rewrite lookup_lt_is_Some. lia.
Qed.
End lookupZ.

(** ** Running a component's operation on a part of a larger state *)
Definition zoom {S T A} (f : field S T) (m : M T A) : M S A := λ s,
  match m (fget f s) with
  | Some (a, t) => Some (a, fset f t s)
  | None => None
  end.

Lemma wp_zoom {S T A} (f : field S T) (m : M T A) s (Q : A → S → Prop) :
  wp m (fget f s) (λ a t, Q a (fset f t s)) → wp (zoom f m) s Q.
Proof. unfold wp, zoom. by destruct (m (fget f s)) as [[a t]|]. Qed.

(** Operations on the same part, one after the other, are one operation on it. *)
Class LensLaws {S T} (f : field S T) : Prop := {
  fget_fset t s : fget f (fset f t s) = t;
  fset_fset t t' s : fset f t (fset f t' s) = fset f t s;
}.

Lemma wp_zoom_seq {S T A B} (f : field S T) `{!LensLaws f}
    (m : M T A) (k : A → M T B) s (Q : B → S → Prop) :
  wp (zoom f (m ≫= k)) s Q → wp (zoom f m ≫= λ a, zoom f (k a)) s Q.
Proof.
  unfold wp, zoom, mbind, M_bind. destruct (m (fget f s)) as [[a t]|]; [|done].
  rewrite fget_fset. destruct (k a t) as [[b t']|]; [|done]. by rewrite fset_fset.
Qed.

Lemma wp_zoom_seq_then {S T A B C} (f : field S T) `{!LensLaws f}
    (m : M T A) (k : A → M T B) (j : B → M S C) s (Q : C → S → Prop) :
  wp (zoom f (m ≫= k) ≫= j) s Q → wp (zoom f m ≫= λ a, zoom f (k a) ≫= j) s Q.
Proof.
  unfold wp, zoom, mbind, M_bind. destruct (m (fget f s)) as [[a t]|]; [|done].
  rewrite fget_fset. destruct (k a t) as [[b t']|]; [|done]. by rewrite fset_fset.
Qed.

(** ** Automation *)
Create HintDb cpp.
#[export] Hint Resolve u32_bounds u64_bounds : cpp.
#[export] Hint Resolve same_except_refl same_except_trans : cpp.

(** One step of symbolic execution of a monadic program. *)
Ltac wp_step :=
  cbv beta;
  lazymatch goal with
  | |- wp (mbind _ _) _ _ => apply wp_bind
  | |- wp (mret _) _ _ => apply wp_ret
  | |- wp (assert _) _ _ => apply wp_assert
  | |- wp (sint64 _) _ _ => apply wp_sint64
  | |- wp get _ _ => apply wp_get
  | |- wp (put _) _ _ => apply wp_put
  | |- wp (load _ _) _ _ => eapply wp_load
  | |- wp (store _ _ _) _ _ => eapply wp_store
  | |- wp (load_obj _) _ _ => eapply wp_load_obj
  | |- wp (store_obj _ _) _ _ => eapply wp_store_obj
  end.

(** Turns boolean tests of the code into the propositions they decide. *)
Ltac zbool :=
  repeat match goal with
  | H : context [?a =? ?b] |- _ => destruct (Z.eqb_spec a b)
  | |- context [?a =? ?b] => destruct (Z.eqb_spec a b)
  | H : context [?a <? ?b] |- _ => destruct (Z.ltb_spec a b)
  | |- context [?a <? ?b] => destruct (Z.ltb_spec a b)
  | H : context [?a <=? ?b] |- _ => destruct (Z.leb_spec a b)
  | |- context [?a <=? ?b] => destruct (Z.leb_spec a b)
  end.

(** Closes a goal that is [H] up to equal arguments, which become subgoals. *)
Ltac eqapply H :=
  let h := type of H in
  match goal with
  | |- ?g => cut (h = g); [let E := fresh in intros E; rewrite <- E; exact H | f_equal]
  end.
