(* ===== verification/Common.v ===== *)
(** Bytes, little-endian numbers, [memcmp], the [double] comparisons, and
    [str_hash] of container/common.h. *)
From Stdlib.Strings Require Export Byte.
From Stdlib.Strings Require String.
Export String.StringSyntax.
From S2P Require Import Prelude.

Abbreviation byte := Byte.byte (only parsing).
Abbreviation bytes := (list Byte.byte) (only parsing).

#[export] Instance byte_eq_dec : EqDecision Byte.byte := Byte.byte_eq_dec.

#[export] Program Instance byte_countable : Countable Byte.byte :=
  inj_countable Byte.to_N Byte.of_N _.
Next Obligation. apply Byte.of_to_N. Qed.

(** String literals. *)
Definition str (s : String.string) : list Byte.byte := String.list_byte_of_string s.
Arguments str s%_string_scope.

(** The number a byte stands for, and the byte of a number modulo 256. *)
Definition byteZ (b : Byte.byte) : Z := Z.of_N (Byte.to_N b).

Definition Zbyte (z : Z) : Byte.byte :=
  default Byte.x00 (Byte.of_N (Z.to_N (u8 z))).

Lemma byteZ_bounds b : 0 ≤ byteZ b < 256.
Proof. unfold byteZ. pose proof (Byte.to_N_bounded b). lia. Qed.

Lemma Zbyte_byteZ b : Zbyte (byteZ b) = b.
Proof.
  pose proof (byteZ_bounds b) as Hb. unfold Zbyte, u8. rewrite Z.mod_small by lia.
  unfold byteZ. by rewrite N2Z.id, Byte.of_to_N.
Qed.

Lemma byteZ_Zbyte z : byteZ (Zbyte z) = u8 z.
Proof.
  unfold Zbyte. assert (0 ≤ u8 z < 256) as Hz by (apply Z.mod_pos_bound; lia).
  destruct (Byte.of_N (Z.to_N (u8 z))) as [b|] eqn:E; simpl.
  - apply Byte.to_of_N in E. unfold byteZ. rewrite E. lia.
  - apply Byte.of_N_None_iff in E. lia.
Qed.

Lemma byteZ_inj b c : byteZ b = byteZ c → b = c.
Proof. intros E. by rewrite <- (Zbyte_byteZ b), E, Zbyte_byteZ. Qed.

(** ** Little-endian numbers, as [memcpy] lays them out *)
Fixpoint le_bytes (n : nat) (z : Z) : bytes :=
  match n with
  | O => []
  | S n => Zbyte z :: le_bytes n (z / 256)
  end.

Fixpoint le_num (l : bytes) : Z :=
  match l with
  | [] => 0
  | b :: l => byteZ b + 256 * le_num l
  end.

Lemma le_bytes_length n z : length (le_bytes n z) = n.
Proof. revert z. induction n as [|n IH]; intros z; simpl; [done|]. by rewrite IH. Qed.

Lemma le_num_bytes n z : le_num (le_bytes n z) = z mod 256 ^ Z.of_nat n.
Proof.
  revert z. induction n as [|n IH]; intros z; [by rewrite Z.mod_1_r|].
  cbn [le_bytes le_num]. rewrite IH, byteZ_Zbyte. unfold u8.
  rewrite Nat2Z.inj_succ, Z.pow_succ_r by lia.
  rewrite Z.rem_mul_r by (try apply Z.pow_nonzero; lia). change (2 ^ 8) with 256. lia.
Qed.

Lemma le_num_bounds l : 0 ≤ le_num l < 256 ^ Z.of_nat (length l).
Proof.
  induction l as [|b l IH]; [simpl; lia|]. cbn [le_num length].
  rewrite Nat2Z.inj_succ, Z.pow_succ_r by lia. pose proof (byteZ_bounds b). lia.
Qed.

Lemma le_bytes_num l : le_bytes (length l) (le_num l) = l.
Proof.
  induction l as [|b l IH]; [done|]. cbn [le_num length le_bytes]. pose proof (byteZ_bounds b).
  f_equal.
  - apply byteZ_inj. rewrite byteZ_Zbyte. unfold u8. change (2 ^ 8) with 256.
    rewrite (Z.mul_comm 256), Z_mod_plus_full. apply Z.mod_small. lia.
  - rewrite Z.add_comm, Z.mul_comm, Z.div_add_l, Z.div_small by lia. by rewrite Z.add_0_r.
Qed.

Lemma le_bytes_mod n z : le_bytes n (z mod 256 ^ Z.of_nat n) = le_bytes n z.
Proof. rewrite <- le_num_bytes, <- (le_bytes_length n z) at 1. apply le_bytes_num. Qed.

Lemma le_bytes_u32 z : le_bytes 4 (u32 z) = le_bytes 4 z.
Proof. apply (le_bytes_mod 4 z). Qed.

(** ** [memcmp]: the sign of the first difference *)
Fixpoint memcmp (a b : bytes) (n : nat) : Z :=
  match n, a, b with
  | S n, x :: a, y :: b =>
      if byteZ x =? byteZ y then memcmp a b n else byteZ x - byteZ y
  | _, _, _ => 0
  end.

(** ** [double], as its 64 bits

    The order of two doubles that are not NaN is the order of their sign and
    magnitude. *)
Definition dbl_nan (d : Z) : bool := 0x7FF0000000000000 <? Z.land d (Z.ones 63).

Definition dbl_rank (d : Z) : Z :=
  if Z.testbit d 63 then - Z.land d (Z.ones 63) else Z.land d (Z.ones 63).

Definition dbl_eq (a b : Z) : bool :=
  negb (dbl_nan a) && negb (dbl_nan b) && (dbl_rank a =? dbl_rank b).

Definition dbl_lt (a b : Z) : bool :=
  negb (dbl_nan a) && negb (dbl_nan b) && (dbl_rank a <? dbl_rank b).

(** ** [str_hash] *)
Definition str_hash (data : bytes) : Z :=
  foldl (λ h b, u32 (u32 (h + byteZ b) * 0x01000193)) 0x811C9DC5 data.

(** The 32-bit FNV-1a hash, which the comment above [str_hash] refers to. *)
Definition fnv1a (data : bytes) : Z :=
  foldl (λ h b, u32 (Z.lxor h (byteZ b) * 0x01000193)) 0x811C9DC5 data.

(** The hash of a key always fits in 32 bits (only the low half of the
    [uint64_t] hash code is used), and it is not the FNV hash it is called. *)
Theorem str_hash_32 data :
  0 ≤ str_hash data < 2 ^ 32 ∧ str_hash [Byte.x61] ≠ fnv1a [Byte.x61].
Proof.
  split; [|by vm_compute]. unfold str_hash.
  cut (∀ h, 0 ≤ h < 2 ^ 32 →
    0 ≤ foldl (λ h b, u32 (u32 (h + byteZ b) * 0x01000193)) h data < 2 ^ 32); [intros H; apply H; lia|].
  induction data as [|b l IH]; intros h Hh; [done|]. simpl. apply IH, u32_bounds.
Qed.

(** *** Facts on the comparisons *)

Lemma dbl_eq_rank a b :
  dbl_nan a = false → dbl_nan b = false → dbl_eq a b = (dbl_rank a =? dbl_rank b).
Proof. intros Ha Hb. unfold dbl_eq. by rewrite Ha, Hb. Qed.

Lemma dbl_lt_rank a b :
  dbl_nan a = false → dbl_nan b = false → dbl_lt a b = (dbl_rank a <? dbl_rank b).
Proof. intros Ha Hb. unfold dbl_lt. by rewrite Ha, Hb. Qed.

(** The order of byte strings that [memcmp] and the lengths define. *)
Definition bytes_lt (a b : bytes) : bool :=
  let rv := memcmp a b (Nat.min (length a) (length b)) in
  if negb (rv =? 0) then rv <? 0 else Z.of_nat (length a) <? Z.of_nat (length b).

Lemma bytes_lt_nil b : bytes_lt [] b = bool_decide (b ≠ []).
Proof. destruct b; [done|]. by rewrite bool_decide_true. Qed.

Lemma bytes_lt_cons x a y b :
  bytes_lt (x :: a) (y :: b) = (byteZ x <? byteZ y) || (byteZ x =? byteZ y) && bytes_lt a b.
Proof.
  unfold bytes_lt. cbn [length Nat.min memcmp].
  destruct (Z.eqb_spec (byteZ x) (byteZ y)) as [E|Hne].
  - rewrite E, Z.ltb_irrefl. simpl. destruct (negb _); [done|]. zbool; lia || done.
  - destruct (Z.eqb_spec (byteZ x - byteZ y) 0); [lia|]. simpl. rewrite orb_false_r. zbool; lia || done.
Qed.

Lemma bytes_lt_irrefl a : bytes_lt a a = false.
Proof.
  induction a as [|x a IH]; [done|]. by rewrite bytes_lt_cons, IH, Z.ltb_irrefl, andb_false_r.
Qed.

Lemma bytes_lt_trans a b c : bytes_lt a b = true → bytes_lt b c = true → bytes_lt a c = true.
Proof.
  revert b c. induction a as [|x a IH]; intros [|y b] [|z c]; try done.
  rewrite !bytes_lt_cons, !orb_true_iff, !andb_true_iff, !Z.ltb_lt, !Z.eqb_eq.
  intros [?|[E1 ?]] [?|[E2 ?]]; [left; lia..|right; split; [lia|eauto]].
Qed.

Lemma bytes_lt_total a b : bytes_lt a b = false → bytes_lt b a = false → a = b.
Proof.
  revert b. induction a as [|x a IH]; intros [|y b]; try done.
  rewrite !bytes_lt_cons, !orb_false_iff, !andb_false_iff, !Z.ltb_ge, !Z.eqb_neq.
  intros [? Ha] [? Hb]. assert (byteZ x = byteZ y) as E by lia.
  apply byteZ_inj in E as ->. f_equal. apply IH; [by destruct Ha|by destruct Hb].
Qed.
