(* ===== verification/Doubles.v ===== *)
(** The comparisons of [double] that the development uses, on 64-bit patterns, are those of
    IEEE 754 as the Standard Library specifies them ([SFltb] and [SFeqb] of SpecFloat). *)
From Stdlib Require Import SpecFloat.
From S2P Require Import Prelude Common.

(** The exponent 0x7FF without a mantissa. *)
Definition dbl_inf : Z := 0x7FF0000000000000.

(** The number of a sign and the lower 63 bits: an exponent of 11 bits and a mantissa of 52. *)
Definition sf_of (s : bool) (x : Z) : spec_float :=
  let e := x / 2 ^ 52 in
  let m := x mod 2 ^ 52 in
  if e =? 2047 then if m =? 0 then S754_infinity s else S754_nan
  else if e =? 0 then if m =? 0 then S754_zero s else S754_finite s (Z.to_pos m) (-1074)
  else S754_finite s (Z.to_pos (m + 2 ^ 52)) (e - 1075).

Definition dbl_sf (d : Z) : spec_float := sf_of (Z.testbit d 63) (Z.land d (Z.ones 63)).

Section doubles.
Implicit Types (s t : bool) (x y : Z).

Lemma magnitude x : 0 ≤ x → x = 2 ^ 52 * (x / 2 ^ 52) + x mod 2 ^ 52 ∧ 0 ≤ x mod 2 ^ 52 < 2 ^ 52 ∧ 0 ≤ x / 2 ^ 52.
Proof.
  intros Hx. split_and!; [apply Z.div_mod; lia|apply Z.mod_pos_bound; lia..|]. apply Z.div_pos; lia.
Qed.

(** The kinds of numbers. *)
Lemma sf_of_zero s : sf_of s 0 = S754_zero s.
Proof. done. Qed.
Lemma sf_of_inf s : sf_of s dbl_inf = S754_infinity s.
Proof. done. Qed.
Lemma sf_of_nan s x : dbl_inf < x < 2 ^ 63 → sf_of s x = S754_nan.
Proof.
  unfold dbl_inf. intros Hx. destruct (magnitude x) as (E & Hm & He); [lia|]. unfold sf_of.
  destruct (Z.eqb_spec (x / 2 ^ 52) 2047); [|lia]. destruct (Z.eqb_spec (x mod 2 ^ 52) 0); [lia|done].
Qed.

(** A finite number other than 0: mantissa and exponent. *)
Definition sf_mant x : Z := if x / 2 ^ 52 =? 0 then x mod 2 ^ 52 else x mod 2 ^ 52 + 2 ^ 52.
Definition sf_exp x : Z := if x / 2 ^ 52 =? 0 then -1074 else x / 2 ^ 52 - 1075.

Lemma sf_of_finite s x :
  0 < x < dbl_inf → 0 < sf_mant x ∧ sf_of s x = S754_finite s (Z.to_pos (sf_mant x)) (sf_exp x).
Proof.
  unfold dbl_inf. intros Hx. destruct (magnitude x) as (E & Hm & He); [lia|]. unfold sf_of, sf_mant, sf_exp.
  destruct (Z.eqb_spec (x / 2 ^ 52) 2047); [lia|]. destruct (Z.eqb_spec (x / 2 ^ 52) 0); [|by split; [lia|]].
  destruct (Z.eqb_spec (x mod 2 ^ 52) 0); [lia|]. by split; [lia|].
Qed.

(** Exponent first, then mantissa, is the order of the magnitudes. *)
Lemma sf_compare_finite x y :
  0 < x < dbl_inf → 0 < y < dbl_inf →
  match sf_exp x ?= sf_exp y with
  | Lt => Lt
  | Gt => Gt
  | Eq => Pos.compare_cont Eq (Z.to_pos (sf_mant x)) (Z.to_pos (sf_mant y))
  end = (x ?= y).
Proof.
  intros Hx Hy. pose proof (proj1 (sf_of_finite false x Hx)) as Hmx. pose proof (proj1 (sf_of_finite false y Hy)) as Hmy.
  change (Pos.compare_cont Eq ?p ?q) with (Z.pos p ?= Z.pos q). rewrite !Z2Pos.id by done.
  destruct (magnitude x) as (Ex & Hx1 & Hx2); [lia|]. destruct (magnitude y) as (Ey & Hy1 & Hy2); [lia|].
  destruct (Z.compare_spec (sf_exp x) (sf_exp y)) as [He|He|He], (Z.compare_spec x y); try done;
    try destruct (Z.compare_spec (sf_mant x) (sf_mant y)); try done; exfalso; unfold sf_mant, sf_exp in *;
    destruct (Z.eqb_spec (x / 2 ^ 52) 0), (Z.eqb_spec (y / 2 ^ 52) 0); nia.
Qed.

(** The kinds, for case analysis. *)
Variant kind (s : bool) (x : Z) : spec_float → Prop :=
| kind_zero : x = 0 → kind s x (S754_zero s)
| kind_finite : 0 < x < dbl_inf → kind s x (S754_finite s (Z.to_pos (sf_mant x)) (sf_exp x))
| kind_inf : x = dbl_inf → kind s x (S754_infinity s)
| kind_nan : dbl_inf < x → kind s x S754_nan.

Lemma sf_of_kind s x : 0 ≤ x < 2 ^ 63 → kind s x (sf_of s x).
Proof.
  intros Hx. destruct (decide (x = 0)) as [->|]; [by constructor|].
  destruct (decide (x = dbl_inf)) as [->|]; [by constructor|].
  destruct (decide (dbl_inf < x)); [rewrite sf_of_nan by lia; by constructor|].
  destruct (sf_of_finite s x) as [_ ->]; [lia|]. constructor. lia.
Qed.

(** The comparison of two numbers that are not NaN is that of their ranks. *)
Lemma sf_compare_rank s t x y :
  0 ≤ x ≤ dbl_inf → 0 ≤ y ≤ dbl_inf →
  SFcompare (sf_of s x) (sf_of t y) = Some ((if s then - x else x) ?= (if t then - y else y)).
Proof.
  intros Hx Hy. assert (dbl_inf < 2 ^ 63) by done. assert (0 < dbl_inf) by done.
  destruct (sf_of_kind s x) as [-> |Hfx| -> |]; [lia|..|lia]; (destruct (sf_of_kind t y) as [-> |Hfy| -> |]; [lia|..|lia]).
  all: try (cbn [SFcompare]; f_equal; destruct s, t; symmetry;
    first [done|apply Z.compare_lt_iff; lia|apply Z.compare_gt_iff; lia|apply Z.compare_eq_iff; lia]).
  cbn [SFcompare]. f_equal. pose proof (sf_compare_finite x y Hfx Hfy) as Hc.
  destruct s, t; [|symmetry; apply Z.compare_lt_iff; lia|symmetry; apply Z.compare_gt_iff; lia|exact Hc].
  rewrite Z.compare_opp, (Z.compare_antisym x y), <- Hc. by destruct (sf_exp x ?= sf_exp y).
Qed.

Lemma dbl_magnitude d : 0 ≤ Z.land d (Z.ones 63) < 2 ^ 63.
Proof. rewrite Z.land_ones by lia. apply Z.mod_pos_bound. lia. Qed.

Lemma dbl_compare a b :
  SFcompare (dbl_sf a) (dbl_sf b) =
    if dbl_nan a || dbl_nan b then None else Some (dbl_rank a ?= dbl_rank b).
Proof.
  unfold dbl_sf, dbl_nan, dbl_rank. change 0x7FF0000000000000 with dbl_inf.
  pose proof (dbl_magnitude a). pose proof (dbl_magnitude b).
  destruct (Z.ltb_spec dbl_inf (Z.land a (Z.ones 63))) as [Ha|Ha].
  { by rewrite sf_of_nan by lia. }
  destruct (Z.ltb_spec dbl_inf (Z.land b (Z.ones 63))) as [Hb|Hb].
  { rewrite (sf_of_nan (Z.testbit b 63)) by lia. by destruct (sf_of _ _). }
  rewrite sf_compare_rank by lia. done.
Qed.

(** The order of the model is the order of IEEE 754: no other pattern compares less, NaN
    compares with nothing, and the two zeros are equal. *)
Theorem dbl_lt_ieee a b : dbl_lt a b = SFltb (dbl_sf a) (dbl_sf b).
Proof.
  unfold dbl_lt, SFltb. rewrite dbl_compare. by destruct (dbl_nan a), (dbl_nan b).
Qed.

Theorem dbl_eq_ieee a b : dbl_eq a b = SFeqb (dbl_sf a) (dbl_sf b).
Proof.
  unfold dbl_eq, SFeqb. rewrite dbl_compare. destruct (dbl_nan a), (dbl_nan b); try done. simpl.
  rewrite Z.eqb_compare. by destruct (dbl_rank a ?= dbl_rank b).
Qed.
End doubles.

(** -1.5, -0, 0, the least positive number, 1, infinity. *)
Example dbl_sf_values :
  dbl_sf 0xBFF8000000000000 = S754_finite true 6755399441055744 (-52) ∧
  dbl_sf 0x8000000000000000 = S754_zero true ∧ dbl_sf 0 = S754_zero false ∧
  dbl_sf 1 = S754_finite false 1 (-1074) ∧ dbl_sf 0x3FF0000000000000 = S754_finite false 4503599627370496 (-52) ∧
  dbl_sf 0x7FF0000000000000 = S754_infinity false.
Proof. vm_compute. repeat split. Qed.
