(* ===== verification/Avl.v ===== *)
(** The AVL tree of container/avl.h and container/avl.cc, translated statement by
    statement.  The nodes live in a store and are linked by parent and child pointers;
    each caches its height and the size of its subtree as [uint32_t]. *)
From S2P Require Import Prelude.

(** * The code *)

(** [struct AVLNode]: [height] and [cnt] are [uint32_t]. *)
Record AVLNode : Type := mkAVLNode {
  a_parent : ptr;
  a_left : ptr;
  a_right : ptr;
  a_height : Z;
  a_cnt : Z;
}.

Abbreviation avl_heap := (gmap positive AVLNode).

Definition f_parent : field AVLNode ptr := Field a_parent
  (λ v n, mkAVLNode v (a_left n) (a_right n) (a_height n) (a_cnt n)).
Definition f_left : field AVLNode ptr := Field a_left
  (λ v n, mkAVLNode (a_parent n) v (a_right n) (a_height n) (a_cnt n)).
Definition f_right : field AVLNode ptr := Field a_right
  (λ v n, mkAVLNode (a_parent n) (a_left n) v (a_height n) (a_cnt n)).
Definition f_height : field AVLNode Z := Field a_height
  (λ v n, mkAVLNode (a_parent n) (a_left n) (a_right n) v (a_cnt n)).
Definition f_cnt : field AVLNode Z := Field a_cnt
  (λ v n, mkAVLNode (a_parent n) (a_left n) (a_right n) (a_height n) v).

Definition avl_init (node : ptr) : M avl_heap unit :=
  node ->> f_left <<- None;;
  node ->> f_right <<- None;;
  node ->> f_parent <<- None;;
  node ->> f_height <<- 1;;
  node ->> f_cnt <<- 1.

Definition avl_height (node : ptr) : M avl_heap Z :=
  match node with Some _ => node ->> f_height | None => mret 0 end.

Definition avl_cnt (node : ptr) : M avl_heap Z :=
  match node with Some _ => node ->> f_cnt | None => mret 0 end.

(** maintain the height and cnt field *)
Definition avl_update (node : ptr) : M avl_heap unit :=
  l ← node ->> f_left;
  r ← node ->> f_right;
  hl ← avl_height l;
  hr ← avl_height r;
  node ->> f_height <<- u32 (1 + Z.max hl hr);;
  l ← node ->> f_left;
  r ← node ->> f_right;
  cl ← avl_cnt l;
  cr ← avl_cnt r;
  node ->> f_cnt <<- u32 (u32 (1 + cl) + cr).

Definition rot_left (node : ptr) : M avl_heap ptr :=
  parent ← node ->> f_parent;
  new_node ← node ->> f_right;
  inner ← new_node ->> f_left;
  node ->> f_right <<- inner;;
  (match inner with
   | Some _ => inner ->> f_parent <<- node
   | None => mret tt
   end);;
  new_node ->> f_parent <<- parent;;
  new_node ->> f_left <<- node;;
  node ->> f_parent <<- new_node;;
  avl_update node;;
  avl_update new_node;;
  mret new_node.

Definition rot_right (node : ptr) : M avl_heap ptr :=
  parent ← node ->> f_parent;
  new_node ← node ->> f_left;
  inner ← new_node ->> f_right;
  node ->> f_left <<- inner;;
  (match inner with
   | Some _ => inner ->> f_parent <<- node
   | None => mret tt
   end);;
  new_node ->> f_parent <<- parent;;
  new_node ->> f_right <<- node;;
  node ->> f_parent <<- new_node;;
  avl_update node;;
  avl_update new_node;;
  mret new_node.

(** the left subtree is taller by 2 *)
Definition avl_fix_left (node : ptr) : M avl_heap ptr :=
  nl ← node ->> f_left;
  nll ← nl ->> f_left;
  hll ← avl_height nll;
  nl ← node ->> f_left;
  nlr ← nl ->> f_right;
  hlr ← avl_height nlr;
  (if hll <? hlr then
     nl ← node ->> f_left;
     t ← rot_left nl;
     node ->> f_left <<- t
   else mret tt);;
  rot_right node.

(** the right subtree is taller by 2 *)
Definition avl_fix_right (node : ptr) : M avl_heap ptr :=
  nr ← node ->> f_right;
  nrr ← nr ->> f_right;
  hrr ← avl_height nrr;
  nr ← node ->> f_right;
  nrl ← nr ->> f_left;
  hrl ← avl_height nrl;
  (if hrr <? hrl then
     nr ← node ->> f_right;
     t ← rot_right nr;
     node ->> f_right <<- t
   else mret tt);;
  rot_left node.

(** The targets of the code's [AVLNode **from]: a local variable (or the root
    field), or the child field of a node. *)
Inductive link : Type :=
| LocalLink
| LeftLink (p : ptr)
| RightLink (p : ptr).

(** [parent->left == node ? &parent->left : &parent->right] *)
Definition child_link (parent node : ptr) : M avl_heap link :=
  pl ← parent ->> f_left;
  mret (if decide (pl = node) then LeftLink parent else RightLink parent).

(** [*from = v], where [local] is the value of the local variable; returns the
    value of the local variable afterwards. *)
Definition link_set (from : link) (v local : ptr) : M avl_heap ptr :=
  match from with
  | LocalLink => mret v
  | LeftLink p => p ->> f_left <<- v;; mret local
  | RightLink p => p ->> f_right <<- v;; mret local
  end.

(** [*from] *)
Definition link_get (from : link) (local : ptr) : M avl_heap ptr :=
  match from with
  | LocalLink => mret local
  | LeftLink p => p ->> f_left
  | RightLink p => p ->> f_right
  end.

(** fix imbalanced nodes and maintain invariants until the root is reached *)
Fixpoint avl_fix_loop (fuel : nat) (node : ptr) : M avl_heap ptr :=
  match fuel with
  | O => fault
  | S fuel =>
      parent ← node ->> f_parent;
      from ← (match parent with
              | Some _ => child_link parent node
              | None => mret LocalLink
              end);
      avl_update node;;
      nl ← node ->> f_left;
      l ← avl_height nl;
      nr ← node ->> f_right;
      r ← avl_height nr;
      node ← (if l =? u32 (r + 2) then
                t ← avl_fix_left node;
                link_set from t node
              else if u32 (l + 2) =? r then
                t ← avl_fix_right node;
                link_set from t node
              else mret node);
      match parent with
      | None => link_get from node
      | Some _ => avl_fix_loop fuel parent
      end
  end.

Definition avl_fix (node : ptr) : M avl_heap ptr :=
  s ← get;
  avl_fix_loop (S (size (s : avl_heap))) node.

(** detach a node where 1 of its children is empty *)
Definition avl_del_easy (node : ptr) : M avl_heap ptr :=
  l ← node ->> f_left;
  r ← node ->> f_right;
  assert (bool_decide (l = None) || bool_decide (r = None));;
  let child := match l with Some _ => l | None => r end in
  parent ← node ->> f_parent;
  (match child with
   | Some _ => child ->> f_parent <<- parent
   | None => mret tt
   end);;
  match parent with
  | None => mret child
  | Some _ =>
      from ← child_link parent node;
      link_set from child None;;
      avl_fix parent
  end.

(** [while (victim->left) victim = victim->left;] *)
Fixpoint leftmost_loop (fuel : nat) (victim : ptr) : M avl_heap ptr :=
  match fuel with
  | O => fault
  | S fuel =>
      l ← victim ->> f_left;
      match l with
      | Some _ => leftmost_loop fuel l
      | None => mret victim
      end
  end.

(** detach a node and returns the new root of the tree *)
Definition avl_remove (node : ptr) : M avl_heap ptr :=
  l ← node ->> f_left;
  r ← node ->> f_right;
  if bool_decide (l = None) || bool_decide (r = None) then
    avl_del_easy node
  else
    s ← get;
    victim ← leftmost_loop (S (size (s : avl_heap))) r;
    root ← avl_del_easy victim;
    n ← load_obj node;
    store_obj victim n;;
    vl ← victim ->> f_left;
    (match vl with
     | Some _ => vl ->> f_parent <<- victim
     | None => mret tt
     end);;
    vr ← victim ->> f_right;
    (match vr with
     | Some _ => vr ->> f_parent <<- victim
     | None => mret tt
     end);;
    parent ← node ->> f_parent;
    from ← (match parent with
            | Some _ => child_link parent node
            | None => mret LocalLink
            end);
    link_set from victim root.

(** The tests of [avl_offset]'s loop: is the target inside the right (left)
    subtree? *)
Definition offset_in_right (node : ptr) (pos offset : Z) : M avl_heap bool :=
  if pos <? offset then
    nr ← node ->> f_right;
    c ← avl_cnt nr;
    e ← sint64 (pos + c);
    mret (offset <=? e)
  else mret false.

Definition offset_in_left (node : ptr) (pos offset : Z) : M avl_heap bool :=
  if offset <? pos then
    nl ← node ->> f_left;
    c ← avl_cnt nl;
    e ← sint64 (pos - c);
    mret (e <=? offset)
  else mret false.

Fixpoint avl_offset_loop (fuel : nat) (node : ptr) (pos offset : Z)
    : M avl_heap ptr :=
  match fuel with
  | O => fault
  | S fuel =>
      if offset =? pos then mret node else
      in_right ← offset_in_right node pos offset;
      if in_right : bool then
        node ← node ->> f_right;
        nl ← node ->> f_left;
        c ← avl_cnt nl;
        pos ← sint64 (pos + u32 (c + 1));
        avl_offset_loop fuel node pos offset
      else
        in_left ← offset_in_left node pos offset;
        if in_left : bool then
          node ← node ->> f_left;
          nr ← node ->> f_right;
          c ← avl_cnt nr;
          pos ← sint64 (pos - u32 (c + 1));
          avl_offset_loop fuel node pos offset
        else
          parent ← node ->> f_parent;
          match parent with
          | None => mret None
          | Some _ =>
              pr ← parent ->> f_right;
              pos ← (if decide (pr = node) then
                       nl ← node ->> f_left;
                       c ← avl_cnt nl;
                       sint64 (pos - u32 (c + 1))
                     else
                       nr ← node ->> f_right;
                       c ← avl_cnt nr;
                       sint64 (pos + u32 (c + 1)));
              avl_offset_loop fuel parent pos offset
          end
  end.

(** offset into the succeeding or preceding node. *)
Definition avl_offset (node : ptr) (offset : Z) : M avl_heap ptr :=
  s ← get;
  avl_offset_loop (S (2 * size (s : avl_heap))) node 0 offset.
