(* ===== verification/AvlTree.v ===== *)
(** Reference AVL trees: the pure trees that the pointer structures of
    container/avl.cc represent.  A tree's nodes are labelled with the addresses
    of the [AVLNode]s.  [rebalance] and [fix_path] are the functional
    counterparts of one round, and of the whole loop, of [avl_fix]; [remove_at]
    is the counterpart of [avl_remove].  The file proves that they keep the
    in-order sequence and the AVL balance. *)
From S2P Require Import Prelude.

(** * Trees *)

Inductive tree : Type :=
| Leaf
| Node (l : tree) (a : positive) (r : tree).

#[export] Instance tree_eq_dec : EqDecision tree.
Proof. solve_decision. Defined.

Fixpoint height (t : tree) : Z :=
  match t with Leaf => 0 | Node l _ r => 1 + Z.max (height l) (height r) end.

Fixpoint tsize (t : tree) : Z :=
  match t with Leaf => 0 | Node l _ r => 1 + tsize l + tsize r end.

Fixpoint inorder (t : tree) : list positive :=
  match t with Leaf => [] | Node l a r => inorder l ++ a :: inorder r end.

Definition root (t : tree) : ptr :=
  match t with Leaf => None | Node _ a _ => Some a end.

(** Every node's subtrees differ in height by at most one. *)
Fixpoint avl (t : tree) : Prop :=
  match t with
  | Leaf => True
  | Node l _ r => avl l ∧ avl r ∧ Z.abs (height l - height r) ≤ 1
  end.

(** ** Rebalancing one node *)

Definition rotl (l : tree) (a : positive) (r : tree) : tree :=
  match r with
  | Leaf => Node l a r
  | Node m b k => Node (Node l a m) b k
  end.

Definition rotr (l : tree) (a : positive) (r : tree) : tree :=
  match l with
  | Leaf => Node l a r
  | Node k b m => Node k b (Node m a r)
  end.

Definition fix_left (l : tree) (a : positive) (r : tree) : tree :=
  match l with
  | Leaf => Node l a r
  | Node ll b lr =>
      rotr (if height ll <? height lr then rotl ll b lr else l) a r
  end.

Definition fix_right (l : tree) (a : positive) (r : tree) : tree :=
  match r with
  | Leaf => Node l a r
  | Node rl b rr =>
      rotl l a (if height rr <? height rl then rotr rl b rr else r)
  end.

Definition rebalance (l : tree) (a : positive) (r : tree) : tree :=
  if height l =? height r + 2 then fix_left l a r
  else if height l + 2 =? height r then fix_right l a r
  else Node l a r.

(** ** Paths to the root

    A context is the path from a subtree up to the root: [InLeft a r] says that
    the subtree is the left child of [a], whose right subtree is [r]. *)
Inductive frame : Type :=
| InLeft (a : positive) (r : tree)
| InRight (l : tree) (a : positive).

Abbreviation ctx := (list frame).

Fixpoint plug (t : tree) (c : ctx) : tree :=
  match c with
  | [] => t
  | InLeft a r :: c => plug (Node t a r) c
  | InRight l a :: c => plug (Node l a t) c
  end.

(** The nodes before and after the subtree in the in-order sequence. *)
Fixpoint before (c : ctx) : list positive :=
  match c with
  | [] => []
  | InLeft _ _ :: c => before c
  | InRight l a :: c => before c ++ inorder l ++ [a]
  end.

Fixpoint after (c : ctx) : list positive :=
  match c with
  | [] => []
  | InLeft a r :: c => a :: inorder r ++ after c
  | InRight _ _ :: c => after c
  end.

Fixpoint fix_path (t : tree) (c : ctx) : tree :=
  match c with
  | [] => t
  | InLeft a r :: c => fix_path (rebalance t a r) c
  | InRight l a :: c => fix_path (rebalance l a t) c
  end.

(** ** Removal *)

(** The first node of the tree [Node l a r] that sits in context [c], with its
    right subtree and its own context. *)
Fixpoint leftmost (l : tree) (a : positive) (r : tree) (c : ctx)
    : positive * tree * ctx :=
  match l with
  | Leaf => (a, r, c)
  | Node l' a' r' => leftmost l' a' r' (InLeft a r :: c)
  end.

(** Replace the node [a] by the node [v]. *)
Fixpoint subst (a v : positive) (t : tree) : tree :=
  match t with
  | Leaf => Leaf
  | Node l b r => Node (subst a v l) (if decide (b = a) then v else b) (subst a v r)
  end.

Definition remove_at (l : tree) (a : positive) (r : tree) (c : ctx) : tree :=
  match l, r with
  | Leaf, _ => fix_path r c
  | _, Leaf => fix_path l c
  | _, Node rl b rr =>
      let '(v, vr, vc) := leftmost rl b rr (InRight l a :: c) in
      subst a v (fix_path vr vc)
  end.

(** * Sizes and heights *)

Lemma height_nonneg t : 0 ≤ height t.
Proof. induction t; simpl; lia. Qed.

Lemma tsize_nonneg t : 0 ≤ tsize t.
Proof. induction t; simpl; lia. Qed.

Lemma height_le_tsize t : height t ≤ tsize t.
Proof.
  induction t as [|l IHl a r IHr]; simpl; [lia|].
  pose proof (tsize_nonneg l). pose proof (tsize_nonneg r). lia.
Qed.

Lemma length_inorder t : Z.of_nat (length (inorder t)) = tsize t.
Proof. induction t; simpl; rewrite ?length_app; simpl; lia. Qed.

Lemma root_None t : root t = None ↔ t = Leaf.
Proof. by destruct t. Qed.

Lemma root_elem t a : root t = Some a → a ∈ inorder t.
Proof. destruct t; simpl; [done|]. intros [= ->]. set_solver. Qed.

(** An AVL tree of height [h] has at least [2 ^ (h / 2) - 1] nodes; so the
    height is at most twice the logarithm of the size. *)
Lemma avl_size_height t : avl t → 2 ^ (height t / 2) ≤ tsize t + 1.
Proof.
  assert (∀ n t, 0 ≤ n → height t ≤ n → avl t →
    2 ^ (height t / 2) ≤ tsize t + 1) as IH.
  2: { intros Ht. by apply (IH (height t)); [apply height_nonneg| |]. }
  clear t. intros n t Hn. revert t.
  pattern n. apply Zlt_0_ind; [|done]. clear n Hn. intros n IH _ t Hh Ht.
  destruct t as [|l a r]; simpl in *; [done|].
  destruct Ht as (Hl & Hr & Hb).
  pose proof (height_nonneg l). pose proof (height_nonneg r).
  pose proof (tsize_nonneg l). pose proof (tsize_nonneg r).
  assert (IH' : ∀ t, t = l ∨ t = r → 2 ^ (height t / 2) ≤ tsize t + 1).
  { intros t [-> | ->]; apply (IH (n - 1)); auto; lia. }
  pose proof (IH' l (or_introl eq_refl)) as IHl.
  pose proof (IH' r (or_intror eq_refl)) as IHr.
  destruct (decide (height l = 0 ∧ height r = 0)) as [[-> ->]|Hnz].
  { change (2 ^ ((1 + Z.max 0 0) / 2)) with 1. lia. }
  set (m := Z.max (height l) (height r)) in *.
  assert (Hmin : ∀ x, m - 1 ≤ x ≤ m → 2 ^ ((m - 1) / 2) ≤ 2 ^ (x / 2)).
  { intros x Hx. apply Z.pow_le_mono_r; [lia|]. apply Z.div_le_mono; lia. }
  replace ((1 + m) / 2) with ((m - 1) / 2 + 1)
    by (replace (1 + m) with (m - 1 + 1 * 2) by lia; by rewrite Z.div_add by lia).
  rewrite Z.pow_add_r by (try apply Z.div_pos; lia).
  pose proof (Hmin (height l)). pose proof (Hmin (height r)). lia.
Qed.

(** * Rebalancing *)

Lemma rotl_inorder l a r : inorder (rotl l a r) = inorder l ++ a :: inorder r.
Proof. destruct r; simpl; [done|]. by rewrite <- app_assoc. Qed.

Lemma rotr_inorder l a r : inorder (rotr l a r) = inorder l ++ a :: inorder r.
Proof. destruct l; simpl; [done|]. by rewrite <- app_assoc. Qed.

Lemma rebalance_inorder l a r :
  inorder (rebalance l a r) = inorder l ++ a :: inorder r.
Proof.
  unfold rebalance, fix_left, fix_right. repeat case_match; try done;
    rewrite ?rotl_inorder, ?rotr_inorder; simpl;
    rewrite ?rotl_inorder, ?rotr_inorder; done.
Qed.

Lemma rebalance_size l a r : tsize (rebalance l a r) = 1 + tsize l + tsize r.
Proof.
  rewrite <- length_inorder, rebalance_inorder, length_app. simpl.
  rewrite <- !length_inorder. lia.
Qed.

#[local] Ltac avl_solve := simpl in *; destruct_and?; split_and?; first [done | lia].

(** Height of a rebalanced node: that of the plain node, except that a
    difference of two may lower it by one. *)
Lemma rebalance_avl l a r :
  avl l → avl r → Z.abs (height l - height r) ≤ 2 →
  let h := height (rebalance l a r) in
  let m := Z.max (height l) (height r) in
  avl (rebalance l a r) ∧
  (if decide (Z.abs (height l - height r) ≤ 1) then h = 1 + m
   else m ≤ h ≤ 1 + m).
Proof.
  intros Hl Hr Hb. unfold rebalance. simpl.
  pose proof (height_nonneg l). pose proof (height_nonneg r).
  destruct (Z.eqb_spec (height l) (height r + 2)) as [E|E].
  - rewrite decide_False by lia. unfold fix_left.
    destruct l as [|ll b lr]; simpl in *; [lia|].
    destruct (Z.ltb_spec (height ll) (height lr)); [|by avl_solve].
    destruct lr as [|x c y]; simpl in *; [pose proof (height_nonneg ll); lia|].
    avl_solve.
  - destruct (Z.eqb_spec (height l + 2) (height r)) as [E'|E'];
      [|rewrite decide_True by lia; by avl_solve].
    rewrite decide_False by lia. unfold fix_right.
    destruct r as [|rl b rr]; simpl in *; [lia|].
    destruct (Z.ltb_spec (height rr) (height rl)); [|by avl_solve].
    destruct rl as [|x c y]; simpl in *; [pose proof (height_nonneg rr); lia|].
    avl_solve.
Qed.

(** * Paths *)

Lemma plug_inorder t c : inorder (plug t c) = before c ++ inorder t ++ after c.
Proof.
  revert t. induction c as [|[a r|l a] c IH]; intros t; simpl.
  - by rewrite app_nil_r.
  - rewrite IH. simpl. by rewrite <- !app_assoc.
  - rewrite IH. simpl. rewrite <- !app_assoc. done.
Qed.

Lemma fix_path_inorder t c :
  inorder (fix_path t c) = before c ++ inorder t ++ after c.
Proof.
  revert t. induction c as [|[a r|l a] c IH]; intros t; simpl.
  - by rewrite app_nil_r.
  - rewrite IH, rebalance_inorder. by rewrite <- !app_assoc.
  - rewrite IH, rebalance_inorder. rewrite <- !app_assoc. done.
Qed.

Lemma plug_perm t c : inorder (plug t c) ≡ₚ inorder t ++ (before c ++ after c).
Proof. rewrite plug_inorder. solve_Permutation. Qed.

Lemma fix_path_perm t c :
  inorder (fix_path t c) ≡ₚ inorder t ++ (before c ++ after c).
Proof. rewrite fix_path_inorder. solve_Permutation. Qed.

Lemma plug_nodup t c :
  NoDup (inorder (plug t c)) →
  NoDup (inorder t) ∧ NoDup (before c ++ after c) ∧
  (∀ x, x ∈ inorder t → x ∉ before c ++ after c).
Proof. rewrite plug_perm. rewrite NoDup_app. tauto. Qed.

Lemma plug_size t c :
  tsize (plug t c) = tsize t + Z.of_nat (length (before c ++ after c)).
Proof. rewrite <- !length_inorder, plug_perm, length_app. lia. Qed.

Lemma fix_path_size t c :
  tsize (fix_path t c) = tsize t + Z.of_nat (length (before c ++ after c)).
Proof. rewrite <- !length_inorder, fix_path_perm, length_app. lia. Qed.

Lemma plug_avl_inv t c : avl (plug t c) → avl t.
Proof.
  revert t. induction c as [|[a r|l a] c IH]; intros t; simpl; [done| |];
    intros H%IH; simpl in H; tauto.
Qed.

Lemma plug_height t c : height t + Z.of_nat (length c) ≤ height (plug t c).
Proof.
  revert t. induction c as [|[a r|l a] c IH]; intros t; simpl; [lia|..].
  - specialize (IH (Node t a r)). simpl in IH. lia.
  - specialize (IH (Node l a t)). simpl in IH. lia.
Qed.

(** Replacing a subtree of an AVL tree by one whose height differs by at most
    one, and running the fix loop from there, gives an AVL tree: this covers
    insertion (height + 1) and deletion (height - 1) alike. *)
Lemma fix_path_avl t0 t c :
  avl (plug t0 c) → avl t → Z.abs (height t - height t0) ≤ 1 →
  avl (fix_path t c).
Proof.
  revert t0 t. induction c as [|[a r|l a] c IH]; intros t0 t Hp Ht Hh;
    simpl in *; [done| |].
  - pose proof (plug_avl_inv _ _ Hp) as Hn. simpl in Hn.
    destruct (rebalance_avl t a r) as [Hr Hm]; [tauto|tauto|lia|].
    apply (IH (Node t0 a r)); [done|done|]. simpl in *. case_decide; lia.
  - pose proof (plug_avl_inv _ _ Hp) as Hn. simpl in Hn.
    destruct (rebalance_avl l a t) as [Hr Hm]; [tauto|tauto|lia|].
    apply (IH (Node l a t0)); [done|done|]. simpl in *. case_decide; lia.
Qed.

Lemma plug_app t c1 c2 : plug t (c1 ++ c2) = plug (plug t c1) c2.
Proof. revert t. by induction c1 as [|[] c1 IH]; intros t; simpl. Qed.

(** Every node of a tree is at the end of some path. *)
Lemma plug_elem a t :
  a ∈ inorder t → ∃ l r c, t = plug (Node l a r) c.
Proof.
  induction t as [|l IHl b r IHr]; simpl; [set_solver|].
  intros [H|[->|H]%elem_of_cons]%elem_of_app.
  - destruct (IHl H) as (l' & r' & c & ->).
    exists l', r', (c ++ [InLeft b r]). by rewrite plug_app.
  - by exists l, r, [].
  - destruct (IHr H) as (l' & r' & c & ->).
    exists l', r', (c ++ [InRight l b]). by rewrite plug_app.
Qed.

(** * Removal *)

Lemma leftmost_plug l a r c v vr vc :
  leftmost l a r c = (v, vr, vc) →
  plug (Node Leaf v vr) vc = plug (Node l a r) c.
Proof.
  revert a r c. induction l as [|l' IH a' r' _]; intros a r c; simpl.
  - by intros [= -> -> ->].
  - intros H%IH. done.
Qed.

Lemma leftmost_inorder l a r c v vr vc :
  leftmost l a r c = (v, vr, vc) →
  before vc = before c ∧ v :: inorder vr ++ after vc = inorder (Node l a r) ++ after c.
Proof.
  revert a r c. induction l as [|l' IH a' r' _]; intros a r c; simpl.
  - by intros [= -> -> ->].
  - intros H%IH. simpl in H. rewrite <- !app_assoc in *. simpl in *.
    rewrite <- ?app_assoc in *. done.
Qed.

Lemma leftmost_elem l a r c v vr vc :
  leftmost l a r c = (v, vr, vc) → v ∈ inorder (Node l a r).
Proof.
  revert a r c. induction l as [|l' IH a' r' _]; intros a r c; simpl.
  - intros [= -> -> ->]. left.
  - intros H%IH. simpl in H. set_solver.
Qed.

(** Detaching a node with at most one child. *)
Lemma fix_path_detach v vr vc :
  inorder (plug (Node Leaf v vr) vc) ≡ₚ v :: inorder (fix_path vr vc).
Proof. by rewrite plug_perm, fix_path_perm. Qed.

Lemma subst_height a v t : height (subst a v t) = height t.
Proof. induction t; simpl; congruence. Qed.

Lemma subst_size a v t : tsize (subst a v t) = tsize t.
Proof. induction t; simpl; congruence. Qed.

Lemma subst_avl a v t : avl (subst a v t) ↔ avl t.
Proof. induction t; simpl; [done|]. rewrite !subst_height. tauto. Qed.

Lemma subst_inorder a v t :
  inorder (subst a v t) = (λ b, if decide (b = a) then v else b) <$> inorder t.
Proof. induction t as [|l IHl b r IHr]; simpl; [done|].
  by rewrite fmap_app, IHl, IHr.
Qed.

Lemma fmap_subst_fresh a v (l : list positive) :
  a ∉ l → (λ b, if decide (b = a) then v else b) <$> l = l.
Proof.
  induction l as [|b l IH]; intros Ha; [done|].
  rewrite fmap_cons, IH by set_solver. rewrite decide_False; set_solver.
Qed.

(** Removing a node takes it out of the in-order sequence. *)
Lemma remove_at_inorder l a r c :
  NoDup (inorder (plug (Node l a r) c)) →
  inorder (remove_at l a r c) = before c ++ (inorder l ++ inorder r) ++ after c.
Proof.
  rewrite plug_inorder. intros Hnd. unfold remove_at.
  destruct l as [|ll la lr]; [by rewrite fix_path_inorder|].
  destruct r as [|rl b rr]; [by rewrite fix_path_inorder, app_nil_r|].
  remember (Node ll la lr) as l.
  destruct (leftmost rl b rr (InRight l a :: c)) as [[v vr] vc] eqn:E.
  apply leftmost_inorder in E as [E1 E2].
  rewrite subst_inorder, fix_path_inorder, E1. simpl before.
  cbn [after] in E2. rewrite <- !app_assoc.
  change (inorder (Node l a (Node rl b rr))) with
    (inorder l ++ a :: inorder (Node rl b rr)) in Hnd.
  rewrite <- !app_assoc, <- app_comm_cons in Hnd. rewrite <- E2 in *.
  apply NoDup_app in Hnd as (Hnd1 & Hd1 & Hnd).
  apply NoDup_app in Hnd as (Hnd2 & Hd2 & Hnd).
  apply NoDup_cons in Hnd as [Ha _].
  rewrite !fmap_app, fmap_cons, fmap_nil, decide_True by done.
  rewrite !fmap_subst_fresh by set_solver. done.
Qed.

Lemma remove_at_avl l a r c :
  avl (plug (Node l a r) c) → avl (remove_at l a r c).
Proof.
  intros Ht. pose proof (plug_avl_inv _ _ Ht) as Hn. simpl in Hn.
  assert (Hh : Z.abs (height r - height (Node Leaf a r)) ≤ 1).
  { simpl. pose proof (height_nonneg r). lia. }
  unfold remove_at. destruct l as [|ll la lr].
  { eapply fix_path_avl; [done|tauto|done]. }
  remember (Node ll la lr) as l. destruct r as [|rl b rr].
  { eapply fix_path_avl; [done|tauto|]. simpl. pose proof (height_nonneg l). lia. }
  destruct (leftmost rl b rr (InRight l a :: c)) as [[v vr] vc] eqn:E.
  apply leftmost_plug in E. apply subst_avl.
  assert (Hv : avl (plug (Node Leaf v vr) vc)) by (by rewrite E).
  pose proof (plug_avl_inv _ _ Hv) as Hvr. simpl in Hvr.
  eapply fix_path_avl; [done|tauto|]. simpl.
  pose proof (height_nonneg vr). lia.
Qed.
