(* ===== verification/AvlRep.v ===== *)
(** The pointer code of Avl.v implements the reference trees of AvlTree.v. *)
From S2P Require Import Prelude Avl AvlTree.

(** * Representation

    [is_tree s p t]: the store [s] holds the tree [t] below the parent [p], with
    the cached [height] and [cnt] of every node up to date. *)
Fixpoint is_tree (s : avl_heap) (p : ptr) (t : tree) : Prop :=
  match t with
  | Leaf => True
  | Node l a r =>
      s !! a = Some (mkAVLNode p (root l) (root r) (height t) (tsize t)) ∧
      is_tree s (Some a) l ∧ is_tree s (Some a) r
  end.

(** The node [a] between the subtrees [l] and [r]; its own [height] and [cnt] may
    be stale. *)
Definition is_node (s : avl_heap) (p : ptr) (l : tree) (a : positive) (r : tree) : Prop :=
  (∃ h n, s !! a = Some (mkAVLNode p (root l) (root r) h n)) ∧
  is_tree s (Some a) l ∧ is_tree s (Some a) r.

(** The node at the bottom of a context: the parent of the subtree. *)
Definition ctx_parent (c : ctx) : ptr :=
  match c with
  | [] => None
  | InLeft a _ :: _ => Some a
  | InRight _ a :: _ => Some a
  end.

(** The path [c] above the subtree [t].  With [exact], the cached fields on the
    path are up to date for [t]; without, they are arbitrary. *)
Fixpoint is_ctx (exact : bool) (s : avl_heap) (t : tree) (c : ctx) : Prop :=
  match c with
  | [] => True
  | InLeft a r :: c =>
      (∃ h n, s !! a = Some (mkAVLNode (ctx_parent c) (root t) (root r) h n) ∧
        (exact = true → h = height (Node t a r) ∧ n = tsize (Node t a r))) ∧
      is_tree s (Some a) r ∧ is_ctx exact s (Node t a r) c
  | InRight l a :: c =>
      (∃ h n, s !! a = Some (mkAVLNode (ctx_parent c) (root l) (root t) h n) ∧
        (exact = true → h = height (Node l a t) ∧ n = tsize (Node l a t))) ∧
      is_tree s (Some a) l ∧ is_ctx exact s (Node l a t) c
  end.

(** The nodes of a context. *)
Abbreviation ctx_elems c := (before c ++ after c).

(** The largest number of nodes for which the [uint32_t] fields are exact. *)
Definition cnt_max : Z := 2 ^ 32 - 2.

(** * Frame lemmas *)

Lemma is_tree_frame s s' p t :
  (∀ b, b ∈ inorder t → s' !! b = s !! b) → is_tree s p t → is_tree s' p t.
Proof.
  revert p. induction t as [|l IHl a r IHr]; intros p Hs; simpl; [done|].
  intros (Ha & Hl & Hr). simpl in Hs. rewrite Hs by set_solver.
  split_and!; [done|apply IHl; set_solver|apply IHr; set_solver].
Qed.

Lemma is_tree_same s s' X p t :
  same_except X s s' → (∀ b, b ∈ inorder t → b ∉ X) →
  is_tree s p t → is_tree s' p t.
Proof. intros Hs HX. apply is_tree_frame. auto. Qed.

Lemma is_ctx_frame e s s' t c :
  (∀ b, b ∈ ctx_elems c → s' !! b = s !! b) → is_ctx e s t c → is_ctx e s' t c.
Proof.
  revert t. induction c as [|[a r|l a] c IH]; intros t Hs; simpl; [done| |];
    intros (Ha & Ht & Hc); simpl in Hs; rewrite Hs by set_solver;
    (split_and!; [done|eapply is_tree_frame; [|done]; set_solver|apply IH; set_solver]).
Qed.

Lemma is_ctx_same e s s' X t c :
  same_except X s s' → (∀ b, b ∈ ctx_elems c → b ∉ X) →
  is_ctx e s t c → is_ctx e s' t c.
Proof. intros Hs HX. apply is_ctx_frame. auto. Qed.

(** A context depends on the subtree through its address and, with [exact],
    its height and size only. *)
Lemma is_ctx_root e s t t' c :
  root t' = root t →
  (e = true → height t' = height t ∧ tsize t' = tsize t) →
  is_ctx e s t c → is_ctx e s t' c.
Proof.
  revert t t'. induction c as [|[a r|l a] c IH]; intros t t' Hr He; simpl; [done|..];
    rewrite Hr; intros ((h & n & Ha & Hhn) & Ht & Hc);
    (split_and!; [|done|eapply IH; [| |done]]; [|done|]).
  1,3: exists h, n; split; [done|]; intros Ht'; destruct (He Ht'), (Hhn Ht'); lia.
  all: simpl; intros Ht'; destruct (He Ht'); lia.
Qed.

Lemma is_ctx_weaken s t c : is_ctx true s t c → is_ctx false s t c.
Proof.
  revert t. induction c as [|[a r|l a] c IH]; intros t; simpl; [done| |];
    intros ((h & n & Ha & _) & Ht & Hc);
    (split_and!; [by exists h, n|done|by apply IH]).
Qed.

Lemma is_tree_plug s t c :
  is_tree s None (plug t c) ↔ is_tree s (ctx_parent c) t ∧ is_ctx true s t c.
Proof.
  revert t. induction c as [|[a r|l a] c IH]; intros t; simpl; [tauto| |];
    rewrite IH; simpl; split.
  1,3: intros ((?&?&?)&?); split_and!; eauto 10.
  all: intros (?&(h&n&Ha&He)&?&?); destruct (He eq_refl) as [-> ->]; by split_and!.
Qed.

Lemma is_tree_node s p l a r : is_tree s p (Node l a r) → is_node s p l a r.
Proof. intros (Ha & Hl & Hr). split; eauto. Qed.

Lemma is_tree_dom s p t : is_tree s p t → ∀ a, a ∈ inorder t → is_Some (s !! a).
Proof.
  revert p. induction t as [|l IHl b r IHr]; intros p; simpl; [set_solver|].
  intros (Hb & Hl & Hr) a [Ha|[->|Ha]%elem_of_cons]%elem_of_app; eauto.
Qed.

Lemma is_ctx_dom e s t c : is_ctx e s t c → ∀ a, a ∈ ctx_elems c → is_Some (s !! a).
Proof.
  revert t. induction c as [|[a r|l a] c IH]; intros t; simpl; [set_solver| |];
    intros ((h & n & Ha & _) & Ht & Hc) b;
    pose proof (is_tree_dom _ _ _ Ht b); specialize (IH _ Hc b);
    rewrite !elem_of_app, !elem_of_cons in *;
    rewrite ?elem_of_app, ?elem_of_nil; naive_solver.
Qed.

(** Changing only the parent pointer of the root. *)
Lemma is_tree_reparent s s' p p' l a r :
  is_tree s p (Node l a r) → NoDup (inorder (Node l a r)) →
  s' !! a = fset f_parent p' <$> s !! a →
  (∀ b, b ∈ inorder (Node l a r) → b ≠ a → s' !! b = s !! b) →
  is_tree s' p' (Node l a r).
Proof.
  intros (Ha & Hl & Hr) Hnd Ha' Hs.
  rewrite Ha in Ha'. simpl in Hnd, Hs.
  apply NoDup_app in Hnd as (_ & Hd & [Har _]%NoDup_cons).
  split_and!; [done|eapply is_tree_frame; [|done]..];
    intros b Hb; apply Hs; set_solver.
Qed.

(** * Elementary operations *)

Section ops.
Implicit Types (s : avl_heap) (t l r : tree) (c : ctx) (p : ptr).

Lemma wp_avl_height s p t (Q : Z → avl_heap → Prop) :
  is_tree s p t → Q (height t) s → wp (avl_height (root t)) s Q.
Proof. destruct t; simpl; [done|]. intros (Ha & _ & _) HQ. by eapply wp_load. Qed.

Lemma wp_avl_cnt s p t (Q : Z → avl_heap → Prop) :
  is_tree s p t → Q (tsize t) s → wp (avl_cnt (root t)) s Q.
Proof. destruct t; simpl; [done|]. intros (Ha & _ & _) HQ. by eapply wp_load. Qed.

Lemma wp_avl_update s p l a r (Q : unit → avl_heap → Prop) :
  is_node s p l a r →
  NoDup (inorder l ++ a :: inorder r) →
  1 + tsize l + tsize r ≤ cnt_max →
  (∀ s', is_tree s' p (Node l a r) → same_except [a] s s' → Q tt s') →
  wp (avl_update (Some a)) s Q.
Proof.
  intros ((h & n & Ha) & Hl & Hr) Hnd Hb HQ. unfold avl_update.
  apply NoDup_app in Hnd as (_ & Hd & [Har _]%NoDup_cons).
  pose proof (height_le_tsize l). pose proof (height_le_tsize r).
  pose proof (height_nonneg l). pose proof (height_nonneg r).
  pose proof (tsize_nonneg l). pose proof (tsize_nonneg r).
  unfold cnt_max in Hb.
  wp_step. wp_step; [done|]. wp_step. wp_step; [done|]. simpl.
  wp_step. eapply wp_avl_height; [done|].
  wp_step. eapply wp_avl_height; [done|].
  wp_step. wp_step; [done|]. simpl.
  assert (Hf : ∀ x p t, a ∉ inorder t → is_tree s p t → is_tree (<[a:=x]> s) p t).
  { intros x p' t Hat. apply is_tree_frame. intros b Hb'.
    apply lookup_insert_ne. set_solver. }
  wp_step. wp_step; [apply lookup_insert_eq|]. simpl.
  wp_step. wp_step; [apply lookup_insert_eq|]. simpl.
  wp_step. eapply wp_avl_cnt; [apply Hf; [set_solver|done]|].
  wp_step. eapply wp_avl_cnt; [apply Hf; [set_solver|done]|].
  wp_step; [apply lookup_insert_eq|]. simpl.
  rewrite insert_insert_eq. apply HQ.
  - simpl. rewrite lookup_insert_eq.
    rewrite (u32_small (1 + tsize l)), !u32_small by lia.
    split_and!; [done|by apply Hf; [set_solver|]..].
  - apply same_except_insert; [set_solver|apply same_except_refl].
Qed.

(** [if (t) t->parent = p';] *)
Lemma wp_reparent s p p' t (Q : unit → avl_heap → Prop) :
  is_tree s p t → NoDup (inorder t) →
  (∀ s', is_tree s' p' t → same_except (inorder t) s s' →
    (∀ b, root t ≠ Some b → s' !! b = s !! b) → Q tt s') →
  wp (match root t with
      | Some _ => root t ->> f_parent <<- p'
      | None => mret tt
      end) s Q.
Proof.
  intros Ht Hnd HQ. destruct t as [|l a r].
  { simpl. apply wp_ret. apply HQ; [done|apply same_except_refl|done]. }
  pose proof Ht as (Ha & _ & _). simpl root. cbn beta iota.
  wp_step; [done|]. apply HQ.
  - eapply is_tree_reparent; [done|done| |].
    + by rewrite lookup_insert_eq, Ha.
    + intros b _ Hb. by apply lookup_insert_ne.
  - apply same_except_insert; [set_solver|apply same_except_refl].
  - intros b Hb. apply lookup_insert_ne. simpl in Hb. congruence.
Qed.
End ops.

(** * Rotations *)

Section rotations.
Implicit Types (s : avl_heap) (t l r m : tree) (p : ptr) (a b : positive).

(** The pointer writes of [rot_left], up to the first [avl_update]. *)
Lemma wp_rot_left_links s p l a m b r (Q : ptr → avl_heap → Prop) :
  is_node s p l a (Node m b r) →
  NoDup (inorder l ++ a :: inorder (Node m b r)) →
  (∀ s3, is_node s3 (Some b) l a m →
    (∃ h n, s3 !! b = Some (mkAVLNode p (Some a) (root r) h n)) →
    is_tree s3 (Some b) r →
    same_except (inorder l ++ a :: inorder (Node m b r)) s s3 →
    wp (avl_update (Some a);; avl_update (Some b);; mret (Some b)) s3 Q) →
  wp (rot_left (Some a)) s Q.
Proof.
  intros ((h & n & Ha) & Hl & (Hb & Hm & Hr)) Hnd HQ. unfold rot_left.
  revert HQ. set (X := inorder l ++ a :: inorder (Node m b r)).
  assert (a ∈ X ∧ b ∈ X ∧ inorder m ⊆ X) as (HaX & HbX & HmX)
    by (subst X; simpl; set_solver).
  clearbody X. intros HQ.
  simpl in Hnd.
  apply NoDup_app in Hnd as (Hndl & Hdl & [Ham Hnd]%NoDup_cons).
  apply NoDup_app in Hnd as (Hndm & Hdm & [Hbr Hndr]%NoDup_cons).
  assert (a ≠ b) by set_solver.
  wp_step. wp_step; [done|]. wp_step. wp_step; [done|]. simpl.
  wp_step. wp_step; [done|]. simpl.
  wp_step. wp_step; [done|]. simpl.
  wp_step. eapply (wp_reparent _ (Some b)); [|done|].
  { eapply is_tree_frame; [|done]. intros x Hx. apply lookup_insert_ne. set_solver. }
  intros s2 Hm2 Hs2 Hs2'.
  assert (Hf2 : ∀ q t, a ∉ inorder t → (∀ x, x ∈ inorder t → x ∉ inorder m) →
    is_tree s q t → is_tree s2 q t).
  { intros q t Hat Hmt. apply is_tree_frame. intros x Hx.
    rewrite Hs2 by auto. apply lookup_insert_ne. set_solver. }
  wp_step. wp_step.
  { rewrite Hs2', lookup_insert_ne; [done|done|]. intros E%root_elem. set_solver. }
  wp_step. wp_step; [apply lookup_insert_eq|].
  wp_step. wp_step.
  { rewrite !lookup_insert_ne, Hs2'; [apply lookup_insert_eq| |done..].
    intros E%root_elem. set_solver. }
  simpl. rewrite insert_insert_eq. set (s3 := <[a:=_]> (<[b:=_]> s2)).
  assert (Hf3 : ∀ q t, a ∉ inorder t → b ∉ inorder t →
    is_tree s2 q t → is_tree s3 q t).
  { intros q t Hat Hbt. apply is_tree_frame. intros x Hx. subst s3.
    rewrite !lookup_insert_ne by set_solver. done. }
  apply HQ; [split_and!; [eexists _, _; apply lookup_insert_eq| |]|..].
  - apply Hf3, Hf2; [set_solver..|done].
  - apply Hf3; [set_solver..|done].
  - eexists _, _. subst s3. rewrite lookup_insert_ne, lookup_insert_eq by done. done.
  - apply Hf3, Hf2; [set_solver..|done].
  - subst s3. do 2 (apply same_except_insert; [done|]).
    eapply same_except_trans; [|eapply same_except_mono; done].
    apply same_except_insert; [done|apply same_except_refl].
Qed.

Lemma wp_rot_left s p l a m b r (Q : ptr → avl_heap → Prop) :
  is_node s p l a (Node m b r) →
  NoDup (inorder l ++ a :: inorder (Node m b r)) →
  1 + tsize l + tsize (Node m b r) ≤ cnt_max →
  (∀ s', is_tree s' p (rotl l a (Node m b r)) →
    same_except (inorder l ++ a :: inorder (Node m b r)) s s' → Q (Some b) s') →
  wp (rot_left (Some a)) s Q.
Proof.
  intros Hs Hnd Hc HQ. eapply wp_rot_left_links; [done..|].
  intros s3 Ha3 (h & n & Hb3) Hr3 Hs3.
  assert (Hnd' := Hnd). simpl in Hnd'.
  apply NoDup_app in Hnd' as (Hndl & Hdl & [Ham Hnd']%NoDup_cons).
  apply NoDup_app in Hnd' as (Hndm & Hdm & [Hbr Hndr]%NoDup_cons).
  simpl in Hc. pose proof (tsize_nonneg r).
  wp_step. eapply wp_avl_update; [done|apply NoDup_app; rewrite NoDup_cons; set_solver|lia|].
  intros s4 Ht4 Hs4. wp_step. eapply (wp_avl_update _ p (Node l a m) b r).
  { assert (is_tree s4 (Some b) r) by (eapply is_tree_same; [done|set_solver|done]).
    split_and!; [|done|done]. eexists _, _. rewrite Hs4 by set_solver. done. }
  { simpl in Hnd |- *. by rewrite <- ?app_assoc in *. }
  { simpl. lia. }
  intros s5 Ht5 Hs5. apply wp_ret. apply HQ; [done|].
  eapply same_except_trans; [|eapply same_except_mono; [|done]; simpl; set_solver].
  eapply same_except_trans; [|eapply same_except_mono; [|done]; set_solver].
  done.
Qed.

(** The pointer writes of [rot_right], up to the first [avl_update]. *)
Lemma wp_rot_right_links s p l a m b r (Q : ptr → avl_heap → Prop) :
  is_node s p (Node r b m) a l →
  NoDup (inorder (Node r b m) ++ a :: inorder l) →
  (∀ s3, is_node s3 (Some b) m a l →
    (∃ h n, s3 !! b = Some (mkAVLNode p (root r) (Some a) h n)) →
    is_tree s3 (Some b) r →
    same_except (inorder (Node r b m) ++ a :: inorder l) s s3 →
    wp (avl_update (Some a);; avl_update (Some b);; mret (Some b)) s3 Q) →
  wp (rot_right (Some a)) s Q.
Proof.
  intros ((h & n & Ha) & (Hb & Hr & Hm) & Hl) Hnd HQ. unfold rot_right.
  revert HQ. set (X := inorder (Node r b m) ++ a :: inorder l).
  assert (a ∈ X ∧ b ∈ X ∧ inorder m ⊆ X) as (HaX & HbX & HmX)
    by (subst X; simpl; set_solver).
  clearbody X. intros HQ.
  simpl in Hnd.
  apply NoDup_app in Hnd as (Hnd & Hdl & [Ham Hndl]%NoDup_cons).
  apply NoDup_app in Hnd as (Hndr & Hdm & [Hbr Hndm]%NoDup_cons).
  assert (a ≠ b) by set_solver.
  wp_step. wp_step; [done|]. wp_step. wp_step; [done|]. simpl.
  wp_step. wp_step; [done|]. simpl.
  wp_step. wp_step; [done|]. simpl.
  wp_step. eapply (wp_reparent _ (Some b)); [|done|].
  { eapply is_tree_frame; [|done]. intros x Hx. apply lookup_insert_ne. set_solver. }
  intros s2 Hm2 Hs2 Hs2'.
  assert (Hf2 : ∀ q t, a ∉ inorder t → (∀ x, x ∈ inorder t → x ∉ inorder m) →
    is_tree s q t → is_tree s2 q t).
  { intros q t Hat Hmt. apply is_tree_frame. intros x Hx.
    rewrite Hs2 by auto. apply lookup_insert_ne. set_solver. }
  wp_step. wp_step.
  { rewrite Hs2', lookup_insert_ne; [done|done|]. intros E%root_elem. set_solver. }
  wp_step. wp_step; [apply lookup_insert_eq|].
  wp_step. wp_step.
  { rewrite !lookup_insert_ne, Hs2'; [apply lookup_insert_eq| |done..].
    intros E%root_elem. set_solver. }
  simpl. rewrite insert_insert_eq. set (s3 := <[a:=_]> (<[b:=_]> s2)).
  assert (Hf3 : ∀ q t, a ∉ inorder t → b ∉ inorder t →
    is_tree s2 q t → is_tree s3 q t).
  { intros q t Hat Hbt. apply is_tree_frame. intros x Hx. subst s3.
    rewrite !lookup_insert_ne by set_solver. done. }
  apply HQ; [split_and!; [eexists _, _; apply lookup_insert_eq| |]|..].
  - apply Hf3; [set_solver..|done].
  - apply Hf3, Hf2; [set_solver..|done].
  - eexists _, _. subst s3. rewrite lookup_insert_ne, lookup_insert_eq by done. done.
  - apply Hf3, Hf2; [set_solver..|done].
  - subst s3. do 2 (apply same_except_insert; [done|]).
    eapply same_except_trans; [|eapply same_except_mono; done].
    apply same_except_insert; [done|apply same_except_refl].
Qed.

Lemma wp_rot_right s p l a m b r (Q : ptr → avl_heap → Prop) :
  is_node s p (Node r b m) a l →
  NoDup (inorder (Node r b m) ++ a :: inorder l) →
  1 + tsize (Node r b m) + tsize l ≤ cnt_max →
  (∀ s', is_tree s' p (rotr (Node r b m) a l) →
    same_except (inorder (Node r b m) ++ a :: inorder l) s s' → Q (Some b) s') →
  wp (rot_right (Some a)) s Q.
Proof.
  intros Hs Hnd Hc HQ. eapply wp_rot_right_links; [done..|].
  intros s3 Ha3 (h & n & Hb3) Hr3 Hs3.
  assert (Hnd' := Hnd). simpl in Hnd'.
  apply NoDup_app in Hnd' as (Hnd' & Hdl & [Ham Hndl]%NoDup_cons).
  apply NoDup_app in Hnd' as (Hndr & Hdm & [Hbr Hndm]%NoDup_cons).
  simpl in Hc. pose proof (tsize_nonneg r).
  wp_step. eapply wp_avl_update; [done|apply NoDup_app; rewrite NoDup_cons; set_solver|lia|].
  intros s4 Ht4 Hs4. wp_step. eapply (wp_avl_update _ p r b (Node m a l)).
  { assert (is_tree s4 (Some b) r) by (eapply is_tree_same; [done|set_solver|done]).
    split_and!; [|done|done]. eexists _, _. rewrite Hs4 by set_solver. done. }
  { simpl in Hnd |- *. by rewrite <- ?app_assoc in *. }
  { simpl. lia. }
  intros s5 Ht5 Hs5. apply wp_ret. apply HQ; [done|].
  eapply same_except_trans; [|eapply same_except_mono; [|done]; simpl; set_solver].
  eapply same_except_trans; [|eapply same_except_mono; [|done]; set_solver].
  done.
Qed.
End rotations.
