(* ===== verification/AvlFix.v ===== *)
(** [avl_fix] (Avl.v) implements [fix_path] (AvlTree.v). *)
From S2P Require Import Prelude Avl AvlTree AvlRep.

(** * One round of the fix loop *)

Section rebalance.
Implicit Types (s : avl_heap) (t l r m : tree) (p : ptr) (a b : positive).

Lemma wp_avl_fix_left s p ll b lr a r (Q : ptr → avl_heap → Prop) :
  is_node s p (Node ll b lr) a r →
  NoDup (inorder (Node ll b lr) ++ a :: inorder r) →
  1 + tsize (Node ll b lr) + tsize r ≤ cnt_max →
  (∀ s', let t' := fix_left (Node ll b lr) a r in is_tree s' p t' →
    same_except (inorder (Node ll b lr) ++ a :: inorder r) s s' → Q (root t') s') →
  wp (avl_fix_left (Some a)) s Q.
Proof.
  intros ((h & n & Ha) & Hl & Hr) Hnd Hc HQ. unfold avl_fix_left.
  pose proof Hl as (Hb & Hll & Hlr). simpl in Ha.
  wp_step. wp_step; [done|]. simpl. wp_step. wp_step; [done|]. simpl.
  wp_step. eapply wp_avl_height; [done|].
  wp_step. wp_step; [done|]. simpl. wp_step. wp_step; [done|]. simpl.
  wp_step. eapply wp_avl_height; [done|].
  unfold fix_left in HQ. wp_step.
  destruct (Z.ltb_spec (height ll) (height lr)) as [Hlt|_].
  - destruct lr as [|x c y]; [pose proof (height_nonneg ll); simpl in Hlt; lia|].
    assert (Hnd' := Hnd). apply NoDup_app in Hnd' as (Hndl & Hdl & [Har _]%NoDup_cons).
    change (inorder (Node ll b (Node x c y)))
      with (inorder ll ++ b :: inorder (Node x c y)) in *.
    assert (Hal : a ∉ inorder ll ++ b :: inorder (Node x c y))
      by (intros Hx; apply (Hdl _ Hx); left).
    pose proof (tsize_nonneg r).
    pose proof (rotl_inorder ll b (Node x c y)) as E. cbn [rotl] in E.
    wp_step. wp_step; [done|]. simpl. wp_step.
    eapply wp_rot_left; [by apply is_tree_node|done|simpl in Hc |- *; lia|].
    intros s1 Ht1 Hs1.
    wp_step; [by rewrite Hs1|]. simpl.
    eapply wp_rot_right.
    + split_and!; [eexists _, _; apply lookup_insert_eq|..].
      * eapply is_tree_frame; [|done]. intros z Hz. apply lookup_insert_ne.
        intros ->. apply Hal. by rewrite <- E.
      * eapply is_tree_frame; [|done]. intros z Hz.
        rewrite lookup_insert_ne, Hs1; [done| |congruence].
        intros Hz'. apply (Hdl _ Hz'). by right.
    + by rewrite E.
    + simpl in Hc |- *. lia.
    + intros s2 Ht2 Hs2. apply HQ; [done|]. rewrite E in Hs2.
      eapply same_except_trans; [|done].
      apply same_except_insert; [clear; set_solver|].
      eapply same_except_mono; [|done]. clear; set_solver.
  - apply wp_ret. eapply wp_rot_right; [by split_and!; eauto|done|done|]. done.
Qed.

Lemma wp_avl_fix_right s p l a rl b rr (Q : ptr → avl_heap → Prop) :
  is_node s p l a (Node rl b rr) →
  NoDup (inorder l ++ a :: inorder (Node rl b rr)) →
  1 + tsize l + tsize (Node rl b rr) ≤ cnt_max →
  (∀ s', let t' := fix_right l a (Node rl b rr) in is_tree s' p t' →
    same_except (inorder l ++ a :: inorder (Node rl b rr)) s s' → Q (root t') s') →
  wp (avl_fix_right (Some a)) s Q.
Proof.
  intros ((h & n & Ha) & Hl & Hr) Hnd Hc HQ. unfold avl_fix_right.
  pose proof Hr as (Hb & Hrl & Hrr). simpl in Ha.
  wp_step. wp_step; [done|]. simpl. wp_step. wp_step; [done|]. simpl.
  wp_step. eapply wp_avl_height; [done|].
  wp_step. wp_step; [done|]. simpl. wp_step. wp_step; [done|]. simpl.
  wp_step. eapply wp_avl_height; [done|].
  unfold fix_right in HQ. wp_step.
  destruct (Z.ltb_spec (height rr) (height rl)) as [Hlt|_].
  - destruct rl as [|x c y]; [pose proof (height_nonneg rr); simpl in Hlt; lia|].
    assert (Hnd' := Hnd). apply NoDup_app in Hnd' as (Hndl & Hdl & [Har Hndr]%NoDup_cons).
    change (inorder (Node (Node x c y) b rr))
      with (inorder (Node x c y) ++ b :: inorder rr) in *.
    assert (Hbl : ∀ z, z ∈ inorder l → z ∉ inorder (Node x c y) ++ b :: inorder rr)
      by (intros z Hz Hz'; apply (Hdl _ Hz); by right).
    assert (Hal : a ∉ inorder l) by (intros Hx; apply (Hdl _ Hx); left).
    pose proof (tsize_nonneg l).
    pose proof (rotr_inorder (Node x c y) b rr) as E. cbn [rotr] in E.
    wp_step. wp_step; [done|]. simpl. wp_step.
    eapply wp_rot_right; [by apply is_tree_node|done|simpl in Hc |- *; lia|].
    intros s1 Ht1 Hs1.
    wp_step; [by rewrite Hs1|]. simpl.
    eapply wp_rot_left.
    + split_and!; [eexists _, _; apply lookup_insert_eq|..].
      * eapply is_tree_frame; [|done]. intros z Hz.
        rewrite lookup_insert_ne, Hs1; [done|auto|congruence].
      * eapply is_tree_frame; [|done]. intros z Hz. apply lookup_insert_ne.
        intros ->. apply Har. by rewrite <- E.
    + by rewrite E.
    + simpl in Hc |- *. lia.
    + intros s2 Ht2 Hs2. apply HQ; [done|]. rewrite E in Hs2.
      eapply same_except_trans; [|done].
      apply same_except_insert; [clear; set_solver|].
      eapply same_except_mono; [|done]. clear; set_solver.
  - apply wp_ret. eapply wp_rot_left; [by split_and!; eauto|done|done|]. done.
Qed.
End rebalance.

(** * Links *)

(** The link that holds the subtree at the bottom of a context. *)
Definition link_of (c : ctx) : link :=
  match c with
  | [] => LocalLink
  | InLeft a _ :: _ => LeftLink (Some a)
  | InRight _ a :: _ => RightLink (Some a)
  end.

Section links.
Implicit Types (s : avl_heap) (t l r : tree) (a b : positive) (c : ctx).

Lemma wp_child_link s t c a (Q : link → avl_heap → Prop) :
  is_ctx false s t c → root t = Some a → a ∉ ctx_elems c → c ≠ [] →
  Q (link_of c) s → wp (child_link (ctx_parent c) (Some a)) s Q.
Proof.
  intros Hc Ht Ha Hne HQ. unfold child_link.
  destruct c as [|[b r|l b] c]; simpl in *; [done| |];
    destruct Hc as ((h & n & Hb & _) & Hr & _);
    (wp_step; wp_step; [done|]); simpl; apply wp_ret.
  - by rewrite decide_True by done.
  - rewrite decide_False; [done|]. intros E%root_elem. set_solver.
Qed.

(** The choice of [from] that [avl_fix] and [avl_remove] start with. *)
Lemma wp_pick_link s t c a (Q : link → avl_heap → Prop) :
  is_ctx false s t c → root t = Some a → a ∉ ctx_elems c →
  Q (link_of c) s →
  wp (match ctx_parent c with
      | Some _ => child_link (ctx_parent c) (Some a)
      | None => mret LocalLink
      end) s Q.
Proof.
  intros Hc Ht Ha HQ. destruct c as [|[b r|l b] c]; [done|..].
  - by apply (wp_child_link s t (InLeft b r :: c)).
  - by apply (wp_child_link s t (InRight l b :: c)).
Qed.

Lemma wp_link_set e s t t' c local (Q : ptr → avl_heap → Prop) :
  is_ctx e s t c → NoDup (ctx_elems c) →
  (e = true → height t' = height t ∧ tsize t' = tsize t) →
  (∀ s', is_ctx e s' t' c → same_except (ctx_elems c) s s' →
    (∀ b, ctx_parent c ≠ Some b → s' !! b = s !! b) →
    Q (match c with [] => root t' | _ => local end) s') →
  wp (link_set (link_of c) (root t') local) s Q.
Proof.
  intros Hc Hnd He HQ. destruct c as [|[b r|l b] c]; simpl in *.
  - apply HQ; done.
  - destruct Hc as ((h & n & Hb & Hhn) & Hr & Hc). wp_step. wp_step; [done|].
    apply wp_ret. apply HQ; simpl.
    + assert (b ∉ inorder r ∧ b ∉ ctx_elems c) as [??].
      { rewrite NoDup_app, NoDup_cons in Hnd. set_solver. }
      rewrite lookup_insert_eq. split_and!; [exists h, n; split; [done|]; intros Ht; destruct (He Ht), (Hhn Ht); lia| |].
      * eapply is_tree_frame; [|done]. intros x Hx. apply lookup_insert_ne. congruence.
      * eapply (is_ctx_root _ _ (Node t b r)); [done|simpl; intros Ht; destruct (He Ht); lia|].
        eapply is_ctx_frame; [|done].
        intros x Hx. apply lookup_insert_ne. congruence.
    + apply same_except_insert; [set_solver|done].
    + intros x Hx. apply lookup_insert_ne. congruence.
  - destruct Hc as ((h & n & Hb & Hhn) & Hl & Hc). wp_step. wp_step; [done|].
    apply wp_ret. apply HQ; simpl.
    + assert (b ∉ inorder l ∧ b ∉ ctx_elems c) as [??].
      { rewrite !NoDup_app in Hnd. set_solver. }
      rewrite lookup_insert_eq. split_and!; [exists h, n; split; [done|]; intros Ht; destruct (He Ht), (Hhn Ht); lia| |].
      * eapply is_tree_frame; [|done]. intros x Hx. apply lookup_insert_ne. congruence.
      * eapply (is_ctx_root _ _ (Node l b t)); [done|simpl; intros Ht; destruct (He Ht); lia|].
        eapply is_ctx_frame; [|done].
        intros x Hx. apply lookup_insert_ne. congruence.
    + apply same_except_insert; [set_solver|done].
    + intros x Hx. apply lookup_insert_ne. congruence.
Qed.

(** Reading the link to the subtree of a context. *)
Lemma wp_link_get e s t c p (Q : ptr → avl_heap → Prop) :
  is_ctx e s t c → p = root (plug t c) → Q (root t) s →
  wp (link_get (link_of c) p) s Q.
Proof.
  intros Hc -> HQ. destruct c as [|[b r|l b] c]; simpl in *; [done| |];
    destruct Hc as ((h & n & Hb & _) & _); (eapply wp_load; [done|done]).
Qed.
End links.

(** * The whole loop *)

Section fix_loop.
Implicit Types (s : avl_heap) (t l r : tree) (a b : positive) (c : ctx).

(** The middle of a round: the rebalancing of [node] and the write of its
    replacement through [from]. *)
Lemma wp_fix_round s l a r c (Q : ptr → avl_heap → Prop) :
  is_tree s (ctx_parent c) (Node l a r) →
  is_ctx false s (Node l a r) c →
  NoDup (inorder (plug (Node l a r) c)) →
  tsize (Node l a r) ≤ cnt_max →
  (∀ s', let t' := rebalance l a r in
    is_tree s' (ctx_parent c) t' → is_ctx false s' t' c →
    same_except (inorder (plug (Node l a r) c)) s s' →
    Q (match c with [] => root t' | _ => Some a end) s') →
  wp (if height l =? u32 (height r + 2) then
        t ← avl_fix_left (Some a); link_set (link_of c) t (Some a)
      else if u32 (height l + 2) =? height r then
        t ← avl_fix_right (Some a); link_set (link_of c) t (Some a)
      else mret (Some a)) s Q.
Proof.
  intros Ht Hc Hnd Hsz HQ.
  apply plug_nodup in Hnd as (Hndt & Hndc & Hd).
  pose proof (height_le_tsize l). pose proof (height_le_tsize r).
  pose proof (height_nonneg l). pose proof (height_nonneg r).
  pose proof (tsize_nonneg l). pose proof (tsize_nonneg r).
  assert (1 + tsize l + tsize r ≤ 2 ^ 32 - 2) by done.
  rewrite !u32_small by lia.
  assert (HX : inorder (Node l a r) ⊆ inorder (plug (Node l a r) c)
    ∧ ctx_elems c ⊆ inorder (plug (Node l a r) c)) by (rewrite plug_perm; set_solver).
  destruct HX as [HXt HXc].
  assert (Hlink : ∀ s1 t', is_tree s1 (ctx_parent c) t' →
    inorder t' = inorder (Node l a r) → t' = rebalance l a r →
    same_except (inorder (Node l a r)) s s1 →
    wp (link_set (link_of c) (root t') (Some a)) s1 Q).
  { intros s1 t' Ht1 Hin -> Hs1. eapply (wp_link_set false); [|done|done|].
    - eapply is_ctx_same; [done| |done]. set_solver.
    - intros s2 Hc2 Hs2 _. apply HQ; [|done|].
      + eapply is_tree_same; [done| |done]. rewrite Hin. set_solver.
      + eapply same_except_trans; (eapply same_except_mono; [|done]); done. }
  unfold rebalance in *. destruct (Z.eqb_spec (height l) (height r + 2)) as [E|E].
  - destruct l as [|ll b lr]; [simpl in E; lia|].
    wp_step. eapply wp_avl_fix_left; [by apply is_tree_node|done|done|].
    intros s1 t' Ht1 Hs1. apply Hlink; [done| |done|done].
    pose proof (rebalance_inorder (Node ll b lr) a r) as Hin.
    unfold rebalance in Hin. rewrite (proj2 (Z.eqb_eq _ _) E) in Hin. exact Hin.
  - destruct (Z.eqb_spec (height l + 2) (height r)) as [E'|E'].
    + destruct r as [|rl b rr]; [simpl in E'; lia|].
      wp_step. eapply wp_avl_fix_right; [by apply is_tree_node|done|done|].
      intros s1 t' Ht1 Hs1. apply Hlink; [done| |done|done].
      pose proof (rebalance_inorder l a (Node rl b rr)) as Hin.
      unfold rebalance in Hin.
      rewrite (proj2 (Z.eqb_neq _ _) E), (proj2 (Z.eqb_eq _ _) E') in Hin. exact Hin.
    + apply wp_ret. destruct c; apply HQ; done.
Qed.

Lemma wp_avl_fix_loop s l a r c fuel (Q : ptr → avl_heap → Prop) :
  is_node s (ctx_parent c) l a r →
  is_ctx false s (Node l a r) c →
  NoDup (inorder (plug (Node l a r) c)) →
  tsize (plug (Node l a r) c) ≤ cnt_max →
  (length c < fuel)%nat →
  (∀ s', let t' := fix_path (rebalance l a r) c in
    is_tree s' None t' → same_except (inorder t') s s' → Q (root t') s') →
  wp (avl_fix_loop fuel (Some a)) s Q.
Proof.
  revert s l a r c. induction fuel as [|fuel IH]; intros s l a r c Hn Hc Hnd Hsz Hf HQ;
    [lia|]. cbn [avl_fix_loop]. pose proof Hn as ((h & n & Ha) & _).
  pose proof (plug_nodup _ _ Hnd) as (Hndt & Hndc & Hd).
  assert (a ∉ ctx_elems c) as Hac by (apply Hd; simpl; set_solver).
  assert (tsize (Node l a r) ≤ cnt_max) as Hszn by (rewrite plug_size in Hsz; lia).
  wp_step. wp_step; [done|]. cbn [fget f_parent a_parent].
  wp_step. eapply wp_pick_link; [done|done|done|].
  wp_step. eapply wp_avl_update; [done|done|done|]. intros s1 Ht1 Hs1.
  pose proof Ht1 as (Ha1 & Hl1 & Hr1).
  assert (is_ctx false s1 (Node l a r) c) as Hc1.
  { eapply is_ctx_same; [done| |done]. set_solver. }
  wp_step. wp_step; [done|]. wp_step. eapply wp_avl_height; [done|].
  wp_step. wp_step; [done|]. wp_step. eapply wp_avl_height; [done|].
  wp_step. eapply wp_fix_round; [done..|]. intros s2 t' Ht2 Hc2 Hs2.
  assert (same_except (inorder (plug (Node l a r) c)) s s2) as Hs.
  { eapply same_except_trans; [|done]. eapply same_except_mono; [|done].
    rewrite plug_perm. simpl. set_solver. }
  assert (inorder (plug t' c) = inorder (plug (Node l a r) c)) as Hin'.
  { rewrite !plug_inorder. subst t'. by rewrite rebalance_inorder. }
  assert (tsize (plug t' c) = tsize (plug (Node l a r) c)) as Hsz'.
  { by rewrite <- !length_inorder, Hin'. }
  destruct c as [|[b r'|l' b] c]; cbn [ctx_parent link_of].
  - apply wp_ret. apply HQ; [done|].
    eapply same_except_mono; [|done]. simpl. by rewrite rebalance_inorder.
  - destruct Hc2 as ((h' & n' & Hb & _) & Hr' & Hc').
    eapply (IH s2 t' b r' c); [by split_and!; eauto|done|..].
    + change (NoDup (inorder (plug t' (InLeft b r' :: c)))). by rewrite Hin'.
    + change (tsize (plug t' (InLeft b r' :: c)) ≤ cnt_max). by rewrite Hsz'.
    + simpl in Hf. lia.
    + intros s3 t3 Ht3 Hs3. apply HQ; [done|].
      eapply same_except_trans; [|done]. eapply same_except_mono; [|done].
      rewrite <- Hin', plug_perm. subst t3. simpl. rewrite fix_path_perm.
      rewrite rebalance_inorder. clear. set_solver.
  - destruct Hc2 as ((h' & n' & Hb & _) & Hr' & Hc').
    eapply (IH s2 l' b t' c); [by split_and!; eauto|done|..].
    + change (NoDup (inorder (plug t' (InRight l' b :: c)))). by rewrite Hin'.
    + change (tsize (plug t' (InRight l' b :: c)) ≤ cnt_max). by rewrite Hsz'.
    + simpl in Hf. lia.
    + intros s3 t3 Ht3 Hs3. apply HQ; [done|].
      eapply same_except_trans; [|done]. eapply same_except_mono; [|done].
      rewrite <- Hin', plug_perm. subst t3. simpl. rewrite fix_path_perm.
      rewrite rebalance_inorder. clear. set_solver.
Qed.

Lemma length_ctx_elems c : (length c ≤ length (ctx_elems c))%nat.
Proof.
  induction c as [|[b r|l b] c IH]; simpl; [lia|..];
    rewrite ?length_app in *; simpl; rewrite ?length_app; simpl; lia.
Qed.

Lemma wp_avl_fix s l a r c (Q : ptr → avl_heap → Prop) :
  is_node s (ctx_parent c) l a r →
  is_ctx false s (Node l a r) c →
  NoDup (inorder (plug (Node l a r) c)) →
  tsize (plug (Node l a r) c) ≤ cnt_max →
  (∀ s', let t' := fix_path (rebalance l a r) c in
    is_tree s' None t' → same_except (inorder t') s s' → Q (root t') s') →
  wp (avl_fix (Some a)) s Q.
Proof.
  intros Hn Hc Hnd Hsz HQ. unfold avl_fix. wp_step. wp_step.
  eapply wp_avl_fix_loop; [done..| |done].
  pose proof (length_ctx_elems c).
  enough (length (ctx_elems c) ≤ size s)%nat by lia.
  apply length_le_size; [by apply plug_nodup in Hnd as (_ & ? & _)|].
  by eapply is_ctx_dom.
Qed.
End fix_loop.
