(* ===== verification/AvlRemove.v ===== *)
(** [avl_del_easy] and [avl_remove] (Avl.v) implement [remove_at] (AvlTree.v). *)
From S2P Require Import Prelude Avl AvlTree AvlRep AvlFix.

Lemma root_plug t t' c : c ≠ [] → root (plug t c) = root (plug t' c).
Proof.
  revert t t'. induction c as [|[b r|l b] c IH]; intros t t' Hc; simpl; [done|..];
    (destruct c; [done|by apply IH]).
Qed.

Lemma subst_fresh a v t : a ∉ inorder t → subst a v t = t.
Proof.
  induction t as [|l IHl b r IHr]; simpl; [done|]. intros Ha.
  rewrite IHl, IHr by set_solver. by rewrite decide_False by set_solver.
Qed.

Lemma subst_plug a v l r c :
  NoDup (inorder (plug (Node l a r) c)) →
  subst a v (plug (Node l a r) c) = plug (Node l v r) c.
Proof.
  intros Hnd. apply plug_nodup in Hnd as (Hnd & _ & Hd).
  assert (Hac : a ∉ ctx_elems c) by (apply Hd; simpl; set_solver).
  assert (subst a v (Node l a r) = Node l v r) as E.
  { simpl in *. apply NoDup_app in Hnd as (_ & Hl & [Har _]%NoDup_cons).
    rewrite decide_True by done. rewrite !subst_fresh; [done|done|].
    intros Ha. apply (Hl _ Ha). left. }
  rewrite <- E. generalize (Node l a r). clear -Hac.
  induction c as [|[b t'|t' b] c IH]; intros t; simpl in *; [done|..];
    assert (a ∉ ctx_elems c ∧ b ≠ a ∧ a ∉ inorder t') as (Hc & Hb & Ht')
      by set_solver;
    rewrite (IH Hc); simpl; by rewrite decide_False, (subst_fresh a v t').
Qed.

(** The node, its subtrees and its context have no address in common. *)
Lemma plug_apart l a r c :
  NoDup (inorder (plug (Node l a r) c)) →
  a ∉ inorder l ∧ a ∉ inorder r ∧ (∀ x, x ∈ inorder l → x ∉ inorder r) ∧
  (∀ x, x ∈ inorder l → x ∉ ctx_elems c) ∧ a ∉ ctx_elems c ∧
  (∀ x, x ∈ inorder r → x ∉ ctx_elems c).
Proof.
  intros (Hnd & _ & Hd)%plug_nodup. simpl in Hnd, Hd.
  apply NoDup_app in Hnd as (_ & Hdl & [Har _]%NoDup_cons).
  split_and!; [clear -Hdl; set_solver|done|clear -Hdl; set_solver|
    clear -Hd; set_solver..].
Qed.

Section del_easy.
Implicit Types (s : avl_heap) (t l r : tree) (a b : positive) (c : ctx).

(** Writing the child into the parent, and the fix loop from there. *)
Lemma wp_attach_child s t0 t a c (Q : ptr → avl_heap → Prop) :
  is_tree s (ctx_parent c) t →
  is_ctx false s t0 c → root t0 = Some a → a ∉ ctx_elems c → c ≠ [] →
  NoDup (inorder (plug t c)) → tsize (plug t c) ≤ cnt_max →
  (∀ s', let t' := fix_path t c in
    is_tree s' None t' → same_except (inorder t') s s' → Q (root t') s') →
  wp (from ← child_link (ctx_parent c) (Some a);
      link_set from (root t) None;; avl_fix (ctx_parent c)) s Q.
Proof.
  intros Ht Hc Ha Hac Hne Hnd Hsz HQ.
  pose proof (plug_nodup _ _ Hnd) as (Hndt & Hndc & Hd).
  wp_step. eapply wp_child_link; [done..|].
  wp_step. eapply (wp_link_set false _ t0 t); [done|done|done|].
  intros s1 Hc1 Hs1 Hs1'.
  assert (is_tree s1 (ctx_parent c) t) as Ht1.
  { eapply is_tree_same; [done|set_solver|done]. }
  assert (Hfix : ∀ s2, let t' := fix_path t c in
    is_tree s2 None t' → same_except (inorder t') s1 s2 → Q (root t') s2).
  { intros s2 t' Ht2 Hs2. apply HQ; [done|]. eapply same_except_trans; [|done].
    eapply same_except_mono; [|done]. subst t'. rewrite fix_path_perm. set_solver. }
  destruct c as [|[b r|l b] c]; [done|..]; simpl in Hc1;
    destruct Hc1 as ((h & n & Hb & _) & Hr & Hc1); simpl ctx_parent in *.
  - eapply (wp_avl_fix _ t b r c); [by split_and!; eauto|done..].
  - eapply (wp_avl_fix _ l b t c); [by split_and!; eauto|done..].
Qed.

Lemma wp_avl_del_easy s l a r c (Q : ptr → avl_heap → Prop) :
  is_node s (ctx_parent c) l a r →
  is_ctx false s (Node l a r) c →
  l = Leaf ∨ r = Leaf →
  NoDup (inorder (plug (Node l a r) c)) →
  tsize (plug (Node l a r) c) ≤ cnt_max →
  (∀ s', let t' := fix_path (match l with Leaf => r | _ => l end) c in
    is_tree s' None t' → same_except (inorder t') s s' → Q (root t') s') →
  wp (avl_del_easy (Some a)) s Q.
Proof.
  intros ((h & n & Ha) & Hl & Hr) Hc Hlr Hnd Hsz HQ. unfold avl_del_easy.
  pose proof (plug_nodup _ _ Hnd) as (Hndt & Hndc & Hd).
  set (t := match l with Leaf => r | _ => l end) in *.
  assert (Hperm : inorder (Node l a r) ≡ₚ a :: inorder t).
  { subst t. destruct Hlr as [-> | ->]; [done|].
    destruct l; simpl; [done|]. solve_Permutation. }
  assert (Ht : is_tree s (Some a) t) by (subst t; by destruct l).
  assert (NoDup (inorder (plug t c)) ∧ a ∉ ctx_elems c ∧ a ∉ inorder t) as (Hndtc & Hac & Hat).
  { rewrite plug_perm in Hnd |- *. rewrite Hperm in Hnd. simpl in Hnd.
    apply NoDup_cons in Hnd. set_solver. }
  assert (tsize (plug t c) ≤ cnt_max) as Hsz'.
  { rewrite plug_size in Hsz |- *. rewrite <- length_inorder, Hperm in Hsz.
    simpl in Hsz. rewrite <- (length_inorder t). lia. }
  wp_step. wp_step; [done|]. wp_step. wp_step; [done|].
  wp_step. wp_step.
  { simpl. destruct Hlr as [-> | ->]; simpl; [done|]. by rewrite orb_true_r. }
  wp_step. wp_step; [done|]. cbn [fget f_left f_right f_parent a_left a_right a_parent].
  replace (match root l with Some _ => root l | None => root r end) with (root t)
    by (subst t; by destruct l).
  wp_step. eapply (wp_reparent _ _ (ctx_parent c)); [done| |].
  { apply plug_nodup in Hndtc. tauto. }
  intros s1 Ht1 Hs1 _.
  assert (Hc1 : is_ctx false s1 (Node l a r) c).
  { eapply is_ctx_same; [done| |done]. apply plug_nodup in Hndtc. set_solver. }
  assert (same_except (inorder (fix_path t c)) s s1) as Hs.
  { eapply same_except_mono; [|done]. rewrite fix_path_perm. set_solver. }
  destruct c as [|f c].
  - apply wp_ret. by apply HQ.
  - assert (Hatt : wp (from ← child_link (ctx_parent (f :: c)) (Some a);
      link_set from (root t) None;; avl_fix (ctx_parent (f :: c))) s1 Q).
    { eapply (wp_attach_child _ (Node l a r) t); [done..|].
      - intros s2 t' Ht2 Hs2. apply HQ; [done|]. by eapply same_except_trans. }
    destruct f; exact Hatt.
Qed.
End del_easy.

Section remove.
Implicit Types (s : avl_heap) (t l r : tree) (a b v : positive) (c : ctx).

Lemma wp_leftmost_loop s p l a r c v vr vc fuel (Q : ptr → avl_heap → Prop) :
  is_tree s p (Node l a r) → leftmost l a r c = (v, vr, vc) →
  (length (inorder l) < fuel)%nat → Q (Some v) s →
  wp (leftmost_loop fuel (Some a)) s Q.
Proof.
  revert p a r c fuel. induction l as [|l' IH a' r' _];
    intros p a r c [|fuel] Ht Hv Hf HQ; try (simpl in Hf; lia).
  all: pose proof Ht as (Ha & Hl & _); cbn [leftmost_loop]; wp_step; wp_step; [done|].
  - simpl in Hv. simplify_eq. by apply wp_ret.
  - eapply IH; [done|done| |done]. simpl in Hf. rewrite length_app in Hf. simpl in Hf. lia.
Qed.

(** The tail of [avl_remove]: the detached node [v] takes the place of [a]. *)
Lemma wp_take_place s l a r c v rt (Q : ptr → avl_heap → Prop) :
  is_tree s None (plug (Node l a r) c) →
  NoDup (inorder (plug (Node l a r) c)) →
  v ∉ inorder (plug (Node l a r) c) → is_Some (s !! v) →
  rt = root (plug (Node l a r) c) →
  (∀ s', let t' := plug (Node l v r) c in
    is_tree s' None t' → same_except (inorder t') s s' → Q (root t') s') →
  wp (n ← load_obj (Some a);
      store_obj (Some v) n;;
      vl ← Some v ->> f_left;
      (match vl with Some _ => vl ->> f_parent <<- Some v | None => mret tt end);;
      vr ← Some v ->> f_right;
      (match vr with Some _ => vr ->> f_parent <<- Some v | None => mret tt end);;
      parent ← Some a ->> f_parent;
      from ← (match parent with
              | Some _ => child_link parent (Some a)
              | None => mret LocalLink
              end);
      link_set from (Some v) rt) s Q.
Proof.
  intros Ht Hnd Hv [nv Hnv] -> HQ.
  apply is_tree_plug in Ht as [(Ha & Hl & Hr) Hc].
  pose proof (plug_nodup _ _ Hnd) as (Hndt & Hndc & Hd).
  destruct (plug_apart _ _ _ _ Hnd) as (Hal & Har & Hlr & Hlc & Hac & Hrc).
  apply NoDup_app in Hndt as (Hndl & _ & [_ Hndr]%NoDup_cons).
  rewrite plug_perm in Hv. simpl in Hv.
  assert (v ≠ a ∧ v ∉ inorder l ∧ v ∉ inorder r ∧ v ∉ ctx_elems c) as (Hva & Hvl & Hvr & Hvc)
    by (clear -Hv; set_solver).
  wp_step. wp_step; [done|]. wp_step. wp_step; [done|].
  wp_step. wp_step; [apply lookup_insert_eq|]. cbn [fget f_left a_left].
  set (s2 := <[v:=_]> s).
  assert (Hf2 : ∀ p t, v ∉ inorder t → is_tree s p t → is_tree s2 p t).
  { intros p t Hvt. apply is_tree_frame. intros x Hx. apply lookup_insert_ne. congruence. }
  wp_step. eapply (wp_reparent _ (Some a)); [by apply Hf2|done|].
  intros s3 Hl3 Hs3 _.
  wp_step. wp_step; [rewrite Hs3 by done; apply lookup_insert_eq|]. cbn [fget f_right a_right].
  wp_step. eapply (wp_reparent _ (Some a)); [|done|].
  { eapply is_tree_same; [done| |by apply Hf2]. clear -Hlr; set_solver. }
  intros s4 Hr4 Hs4 _.
  assert (Hs : same_except (v :: inorder l ++ inorder r) s s4).
  { eapply same_except_trans; [|eapply same_except_mono; [|done]; clear; set_solver].
    eapply same_except_trans; [|eapply same_except_mono; [|done]; clear; set_solver].
    apply same_except_insert; [clear; set_solver|done]. }
  assert (Hc4 : is_ctx true s4 (Node l a r) c).
  { eapply (is_ctx_same _ s); [done| |done]. clear -Hvc Hlc Hrc; set_solver. }
  assert (Hv4 : s4 !! v = Some (mkAVLNode (ctx_parent c) (root l) (root r)
    (height (Node l a r)) (tsize (Node l a r)))).
  { rewrite Hs4, Hs3 by done. apply lookup_insert_eq. }
  assert (Hl4 : is_tree s4 (Some v) l).
  { by eapply (is_tree_same s3 s4). }
  wp_step. wp_step.
  { rewrite Hs; [done|]. clear -Hva Hal Har; set_solver. }
  cbn [fget f_parent a_parent].
  wp_step. eapply wp_pick_link; [by apply is_ctx_weaken|done|done|].
  eapply (wp_link_set true _ (Node l a r) (Node l v r)); [done|done|done|].
  intros s5 Hc5 Hs5 _.
  assert (Hfin : ∀ q, q = root (plug (Node l v r) c) → Q q s5).
  { intros q ->. apply HQ.
    - apply is_tree_plug. split; [|done].
      eapply is_tree_same; [done| |by split_and!]. simpl.
      clear -Hvc Hlc Hrc. set_solver.
    - eapply same_except_trans; (eapply same_except_mono; [|done]);
        rewrite plug_perm; simpl; clear; set_solver. }
  destruct c as [|f c]; [by apply Hfin|]. apply Hfin. by apply root_plug.
Qed.

(** After the successor [v] is detached, the rest of [avl_remove] finds [a] in
    the rebalanced tree [T] and puts [v] there. *)
Lemma wp_take_place_in s T a v rt (Q : ptr → avl_heap → Prop) :
  is_tree s None T → NoDup (v :: inorder T) → a ∈ inorder T →
  is_Some (s !! v) → rt = root T →
  (∀ s', let t' := subst a v T in
    is_tree s' None t' → same_except (inorder t') s s' → Q (root t') s') →
  wp (n ← load_obj (Some a);
      store_obj (Some v) n;;
      vl ← Some v ->> f_left;
      (match vl with Some _ => vl ->> f_parent <<- Some v | None => mret tt end);;
      vr ← Some v ->> f_right;
      (match vr with Some _ => vr ->> f_parent <<- Some v | None => mret tt end);;
      parent ← Some a ->> f_parent;
      from ← (match parent with
              | Some _ => child_link parent (Some a)
              | None => mret LocalLink
              end);
      link_set from (Some v) rt) s Q.
Proof.
  intros Ht [Hv Hnd]%NoDup_cons Ha Hsv -> HQ.
  destruct (plug_elem _ _ Ha) as (l & r & c & ->). rewrite subst_plug in HQ by done.
  by eapply wp_take_place.
Qed.

Lemma wp_avl_remove_two s l a rl b rr c v vr vc (Q : ptr → avl_heap → Prop) :
  let r := Node rl b rr in
  leftmost rl b rr (InRight l a :: c) = (v, vr, vc) →
  is_tree s None (plug (Node l a r) c) →
  NoDup (inorder (plug (Node l a r) c)) →
  tsize (plug (Node l a r) c) ≤ cnt_max →
  l ≠ Leaf →
  (∀ s', let t' := subst a v (fix_path vr vc) in
    is_tree s' None t' → same_except (inorder (plug (Node l a r) c)) s s' →
    Q (root t') s') →
  wp (avl_remove (Some a)) s Q.
Proof.
  intros r Ev Ht Hnd Hsz Hl HQ. unfold avl_remove.
  pose proof Ht as [[Ha [_ Hr]] _]%is_tree_plug.
  wp_step. wp_step; [done|]. wp_step. wp_step; [done|].
  cbn [fget f_left f_right a_left a_right].
  replace (bool_decide (root l = None) || _) with false by (by destruct l).
  destruct (plug_apart _ _ _ _ Hnd) as (_ & Har & _).
  pose proof (leftmost_elem _ _ _ _ _ _ _ Ev) as Hvr.
  assert (Ep : plug (Node Leaf v vr) vc = plug (Node l a r) c)
    by apply (leftmost_plug _ _ _ _ _ _ _ Ev).
  wp_step. wp_step. wp_step.
  eapply (wp_leftmost_loop _ _ rl b rr); [done|done|..].
  { enough (length (inorder rl) ≤ size s)%nat by lia. apply length_le_size.
    - apply plug_nodup in Hnd as (Hnd & _ & _). simpl in Hnd.
      rewrite !NoDup_app, NoDup_cons, NoDup_app in Hnd. tauto.
    - destruct Hr as (_ & Hrl & _). by eapply is_tree_dom. }
  assert (HX : inorder (plug (Node l a r) c) ≡ₚ v :: inorder (fix_path vr vc)).
  { by rewrite <- Ep, fix_path_detach. }
  assert (HaT : a ∈ inorder (plug (Node Leaf v vr) vc)).
  { rewrite Ep, plug_perm. simpl. clear. set_solver. }
  rewrite <- Ep in Ht, Hnd, Hsz. apply is_tree_plug in Ht as [Hv Hvc].
  wp_step. eapply (wp_avl_del_easy s Leaf v vr vc);
    [by apply is_tree_node|by apply is_ctx_weaken|by left|done..|].
  intros s1 T Ht1 Hs1. rewrite fix_path_detach in Hnd, HaT.
  assert (HvT : v ∉ inorder T) by by apply NoDup_cons in Hnd as [? _].
  eapply wp_take_place_in; [done|done| | |done|].
  - apply elem_of_cons in HaT as [->|]; [|done]. by destruct Har.
  - rewrite Hs1 by done. destruct Hv as (Hv & _). by rewrite Hv.
  - intros s2 t' Ht2 Hs2. apply HQ; [done|]. rewrite HX.
    eapply same_except_trans; (eapply same_except_mono; [|done]); [by right|].
    subst t'. rewrite subst_inorder. intros x (y & -> & Hy)%list_elem_of_fmap.
    case_decide; [by left|by right].
Qed.

(** [avl_remove] on the node at the end of any path of a valid tree. *)
Lemma wp_avl_remove s l a r c (Q : ptr → avl_heap → Prop) :
  is_tree s None (plug (Node l a r) c) →
  NoDup (inorder (plug (Node l a r) c)) →
  tsize (plug (Node l a r) c) ≤ cnt_max →
  (∀ s', let t' := remove_at l a r c in
    is_tree s' None t' → same_except (inorder (plug (Node l a r) c)) s s' →
    Q (root t') s') →
  wp (avl_remove (Some a)) s Q.
Proof.
  intros Ht Hnd Hsz HQ. destruct (decide (l = Leaf ∨ r = Leaf)) as [Hlr|Hlr].
  - unfold avl_remove. pose proof Ht as [[Ha [Hl Hr]] Hc]%is_tree_plug.
    wp_step. wp_step; [done|]. wp_step. wp_step; [done|].
    cbn [fget f_left f_right a_left a_right].
    replace (bool_decide (root l = None) || bool_decide (root r = None)) with true
      by (destruct Hlr as [-> | ->]; simpl; [done|by rewrite orb_true_r]).
    eapply wp_avl_del_easy; [by split_and!; eauto|by apply is_ctx_weaken|done..|].
    intros s' t' Ht' Hs'.
    assert (remove_at l a r c = t') as Er.
    { subst t'. unfold remove_at. destruct Hlr as [-> | ->]; [done|by destruct l]. }
    rewrite <- Er in *. apply HQ; [done|]. eapply same_except_mono; [|done].
    rewrite remove_at_inorder, plug_inorder by done. simpl. clear. set_solver.
  - destruct l as [|ll la lr]; [by destruct Hlr; left|].
    destruct r as [|rl b rr]; [by destruct Hlr; right|].
    unfold remove_at in HQ.
    destruct (leftmost rl b rr (InRight (Node ll la lr) a :: c)) as [[v vr] vc] eqn:Ev.
    by eapply wp_avl_remove_two.
Qed.
End remove.
