(* ===== verification/AvlOffset.v ===== *)
(** [avl_offset] (Avl.v) walks to the node at a given distance in the in-order
    sequence. *)
From S2P Require Import Prelude Avl AvlTree AvlRep AvlFix AvlRemove.

Section offset.
Implicit Types (s : avl_heap) (t l r : tree) (a b : positive) (c : ctx).

(** A bound that keeps every rank difference of the walk far from overflow. *)
Definition in_range (z : Z) : Prop := - 2 ^ 33 ≤ z ≤ 2 ^ 33.

Lemma wp_offset_in_right s p l a r pos offset (Q : bool → avl_heap → Prop) :
  is_tree s p (Node l a r) → in_range pos → in_range (pos + tsize r) →
  Q (bool_decide (pos < offset ≤ pos + tsize r)) s →
  wp (offset_in_right (Some a) pos offset) s Q.
Proof.
  intros (Ha & Hl & Hr) Hp Hpr HQ. unfold offset_in_right, in_range in *.
  destruct (Z.ltb_spec pos offset) as [Hlt|Hge].
  - wp_step. wp_step; [done|]. wp_step. eapply wp_avl_cnt; [done|].
    wp_step. apply wp_sint64; [lia|]. apply wp_ret. eqapply HQ.
    destruct (Z.leb_spec offset (pos + tsize r)); by case_bool_decide; try lia.
  - rewrite bool_decide_false in HQ by lia. by apply wp_ret.
Qed.

Lemma wp_offset_in_left s p l a r pos offset (Q : bool → avl_heap → Prop) :
  is_tree s p (Node l a r) → in_range pos → in_range (pos - tsize l) →
  Q (bool_decide (pos - tsize l ≤ offset < pos)) s →
  wp (offset_in_left (Some a) pos offset) s Q.
Proof.
  intros (Ha & Hl & Hr) Hp Hpr HQ. unfold offset_in_left, in_range in *.
  destruct (Z.ltb_spec offset pos) as [Hlt|Hge].
  - wp_step. wp_step; [done|]. wp_step. eapply wp_avl_cnt; [done|].
    wp_step. apply wp_sint64; [lia|]. apply wp_ret. eqapply HQ.
    destruct (Z.leb_spec (pos - tsize l) offset); by case_bool_decide; try lia.
  - rewrite bool_decide_false in HQ by lia. by apply wp_ret.
Qed.

(** The target is in the subtree of the current node: the walk goes down. *)
Lemma wp_offset_down s p l a r fuel pos offset (Q : ptr → avl_heap → Prop) :
  is_tree s p (Node l a r) → tsize (Node l a r) ≤ cnt_max →
  in_range (pos - tsize l) → in_range (pos + tsize r) →
  pos - tsize l ≤ offset ≤ pos + tsize r →
  height (Node l a r) ≤ Z.of_nat fuel →
  Q (lookupZ (inorder (Node l a r)) (offset - (pos - tsize l))) s →
  wp (avl_offset_loop fuel (Some a) pos offset) s Q.
Proof.
  revert p l a r pos. induction fuel as [|fuel IH];
    intros p l a r pos Ht Hsz Hlo Hhi Ho Hf HQ;
    pose proof (tsize_nonneg l); pose proof (tsize_nonneg r);
    pose proof (height_nonneg l); pose proof (height_nonneg r);
    simpl height in Hf; [lia|].
  simpl tsize in Hsz. simpl inorder in HQ. unfold cnt_max in Hsz.
  assert (in_range pos) as Hpos by (unfold in_range in *; lia).
  cbn [avl_offset_loop]. destruct (Z.eqb_spec offset pos) as [->|Hne].
  { apply wp_ret. rewrite lookupZ_app_r in HQ by (rewrite length_inorder; lia).
    rewrite length_inorder in HQ.
    replace (pos - (pos - tsize l) - tsize l) with 0 in HQ by lia. done. }
  pose proof Ht as (Ha & Hl & Hr).
  wp_step. eapply wp_offset_in_right; [done..|].
  case_bool_decide as Hir.
  - destruct r as [|rl b rr]; [simpl in Hir; lia|]. pose proof Hr as (Hb & Hrl & Hrr).
    pose proof (tsize_nonneg rl). pose proof (tsize_nonneg rr). simpl tsize in *.
    wp_step. wp_step; [done|]. cbn [fget f_right a_right root].
    wp_step. wp_step; [done|]. wp_step. eapply wp_avl_cnt; [done|].
    rewrite u32_small by lia. unfold in_range in *.
    wp_step. apply wp_sint64; [lia|].
    apply (IH (Some a) rl b rr); [done|unfold cnt_max; simpl; lia|unfold in_range; lia..|simpl in Hf |- *; lia|].
    eqapply HQ. rewrite lookupZ_app_r, lookupZ_cons_S by (rewrite length_inorder; lia).
    rewrite length_inorder. f_equal. lia.
  - wp_step. eapply wp_offset_in_left; [done..|].
    rewrite bool_decide_true by lia.
    destruct l as [|ll b lr]; [simpl in *; lia|]. pose proof Hl as (Hb & Hll & Hlr).
    pose proof (tsize_nonneg ll). pose proof (tsize_nonneg lr). simpl tsize in *.
    wp_step. wp_step; [done|]. cbn [fget f_left a_left root].
    wp_step. wp_step; [done|]. wp_step. eapply wp_avl_cnt; [done|].
    rewrite u32_small by lia. unfold in_range in *.
    wp_step. apply wp_sint64; [lia|].
    apply (IH (Some a) ll b lr); [done|unfold cnt_max; simpl; lia|unfold in_range; lia..|simpl in Hf |- *; lia|].
    eqapply HQ. rewrite lookupZ_app_l by (rewrite length_inorder; simpl; lia).
    f_equal. lia.
Qed.

(** One step up: the rank of the parent [b], on either side. *)
Lemma wp_offset_climb s p l a r b nb pos (k : Z → M avl_heap ptr) (Q : ptr → avl_heap → Prop) :
  is_tree s p (Node l a r) → s !! b = Some nb → tsize (Node l a r) ≤ cnt_max →
  let pos' := if decide (a_right nb = Some a) then pos - (tsize l + 1) else pos + (tsize r + 1) in
  in_range pos' → wp (k pos') s Q →
  wp (pr ← Some b ->> f_right;
      pos ← (if decide (pr = Some a) then
               nl ← Some a ->> f_left;
               c ← avl_cnt nl;
               sint64 (pos - u32 (c + 1))
             else
               nr ← Some a ->> f_right;
               c ← avl_cnt nr;
               sint64 (pos + u32 (c + 1)));
      k pos) s Q.
Proof.
  intros (Ha & Hl & Hr) Hb Hsz pos' Hpos HQ. unfold cnt_max in Hsz. simpl tsize in Hsz.
  pose proof (tsize_nonneg l). pose proof (tsize_nonneg r). subst pos'. unfold in_range in *.
  wp_step. wp_step; [exact Hb|]. cbn [fget f_right]. wp_step. destruct (decide (a_right nb = Some a)).
  all: wp_step; wp_step; [done|]; wp_step; eapply wp_avl_cnt; [done|].
  all: rewrite u32_small by lia; apply wp_sint64; [lia|exact HQ].
Qed.

(** From anywhere: up to an ancestor whose subtree holds the target, then down.
    [pos - tsize l - length (before c)] is the position of the first node. *)
Lemma wp_offset_loop s l a r c fuel pos offset (Q : ptr → avl_heap → Prop) :
  is_tree s (ctx_parent c) (Node l a r) → is_ctx true s (Node l a r) c →
  NoDup (inorder (plug (Node l a r) c)) →
  tsize (plug (Node l a r) c) ≤ cnt_max →
  let first := pos - tsize l - Z.of_nat (length (before c)) in
  in_range first → in_range (first + tsize (plug (Node l a r) c)) →
  Z.of_nat (length c) + height (plug (Node l a r) c) ≤ Z.of_nat fuel →
  Q (lookupZ (inorder (plug (Node l a r) c)) (offset - first)) s →
  wp (avl_offset_loop fuel (Some a) pos offset) s Q.
Proof.
  revert l a r c pos. induction fuel as [|fuel IH];
    intros l a r c pos Ht Hc Hnd Hsz first Hlo Hhi Hf HQ;
    pose proof (tsize_nonneg l); pose proof (tsize_nonneg r);
    pose proof (length_inorder (plug (Node l a r) c)) as Hlen;
    pose proof (plug_size (Node l a r) c) as Hps; rewrite length_app in Hps;
    pose proof (height_nonneg l); pose proof (height_nonneg r);
    pose proof (plug_height (Node l a r) c) as Hph; simpl height in Hph;
    simpl tsize in Hps; [lia|].
  unfold cnt_max in Hsz. pose proof Ht as (Ha & Hl & Hr).
  assert (in_range (pos - tsize l) ∧ in_range pos ∧ in_range (pos + tsize r))
    as (Hp1 & Hp2 & Hp3) by (subst first; unfold in_range in *; lia).
  destruct (decide (pos - tsize l ≤ offset ≤ pos + tsize r)) as [Hin|Hout].
  { eapply wp_offset_down; [done|unfold cnt_max; simpl; lia|done..|simpl height; lia|].
    eqapply HQ. subst first. rewrite plug_inorder.
    rewrite lookupZ_app_r by lia. rewrite lookupZ_app_l.
    - f_equal. lia.
    - rewrite length_inorder. simpl. lia. }
  cbn [avl_offset_loop]. destruct (Z.eqb_spec offset pos) as [->|Hne]; [lia|].
  wp_step. eapply wp_offset_in_right; [done..|]. rewrite bool_decide_false by lia.
  wp_step. eapply wp_offset_in_left; [done..|]. rewrite bool_decide_false by lia.
  wp_step. wp_step; [done|]. cbn [fget f_parent a_parent].
  destruct (plug_apart _ _ _ _ Hnd) as (Hal & Har & _ & _ & Hac & _).
  destruct c as [|[b r'|l' b] c]; simpl ctx_parent; cbn beta iota.
  - apply wp_ret. eqapply HQ. apply lookupZ_out. rewrite length_inorder.
    subst first. simpl in *. lia.
  - pose proof Hc as ((h & n & Hb & Hhn) & Hr' & Hc'). destruct Hhn as [-> ->]; [done|].
    simpl before in *; simpl plug in *; simpl length in *.
    assert (root r' ≠ Some a) as Hra by (intros E%root_elem; apply Hac; simpl; clear -E; set_solver).
    eapply wp_offset_climb; [exact Ht|exact Hb|unfold cnt_max; simpl; lia|..];
      cbn [a_right]; rewrite decide_False by done; [unfold in_range in *; lia|].
    apply (IH (Node l a r) b r' c); [by split_and!|done|done|done| | | |]; subst first; simpl tsize;
      unfold in_range in *; try lia.
    eqapply HQ. f_equal. lia.
  - pose proof Hc as ((h & n & Hb & Hhn) & Hl' & Hc'). destruct Hhn as [-> ->]; [done|].
    subst first. pose proof (length_inorder l'). simpl before in *; rewrite ?length_app in *; simpl plug in *; simpl length in *.
    eapply wp_offset_climb; [exact Ht|exact Hb|unfold cnt_max; simpl; lia|..];
      cbn [a_right]; rewrite decide_True by done; [unfold in_range in *; lia|].
    apply (IH l' b (Node l a r) c); [by split_and!|done|done|done| | | |]; simpl tsize; unfold in_range in *; try lia.
    eqapply HQ. f_equal. lia.
Qed.
End offset.
