(* ===== verification/AvlSpec.v ===== *)
(** The invariant of an AVL tree in memory, [avl_wf], and the rules of the operations
    of container/avl.cc in its terms: the interface that the sorted sets use. *)
From S2P Require Import Prelude Avl AvlTree AvlRep AvlFix AvlRemove AvlOffset.

(** The heap [s] holds the valid AVL tree [t]: every pointer, parent pointer and
    cached field is right, the nodes are distinct, every node is balanced, and
    the [uint32_t] counters do not wrap. *)
Record avl_wf (s : avl_heap) (t : tree) : Prop := {
  wf_tree : is_tree s None t;
  wf_nodup : NoDup (inorder t);
  wf_avl : avl t;
  wf_size : tsize t ≤ cnt_max;
}.

(** A heap that holds a given tree. *)
Fixpoint tree_heap (p : ptr) (t : tree) : avl_heap :=
  match t with
  | Leaf => ∅
  | Node l a r =>
      <[a:=mkAVLNode p (root l) (root r) (height t) (tsize t)]>
        (tree_heap (Some a) l ∪ tree_heap (Some a) r)
  end.

(** ** The functions of avl.cc neither allocate nor free *)
#[export] Instance kd_avl_height p : KeepsDom (avl_height p).
Proof. apply _. Qed.
#[export] Instance kd_avl_cnt p : KeepsDom (avl_cnt p).
Proof. apply _. Qed.
#[export] Instance kd_avl_update p : KeepsDom (avl_update p).
Proof. apply _. Qed.
#[export] Instance kd_rot_left p : KeepsDom (rot_left p).
Proof. apply _. Qed.
#[export] Instance kd_rot_right p : KeepsDom (rot_right p).
Proof. apply _. Qed.
#[export] Instance kd_avl_fix_left p : KeepsDom (avl_fix_left p).
Proof. apply _. Qed.
#[export] Instance kd_avl_fix_right p : KeepsDom (avl_fix_right p).
Proof. apply _. Qed.
#[export] Instance kd_child_link p q : KeepsDom (child_link p q).
Proof. apply _. Qed.
#[export] Instance kd_link_set l p q : KeepsDom (link_set l p q).
Proof. destruct l; apply _. Qed.
#[export] Instance kd_link_get l p : KeepsDom (link_get l p).
Proof. destruct l; apply _. Qed.
#[export] Instance kd_avl_fix_loop fuel p : KeepsDom (avl_fix_loop fuel p).
Proof. revert p. induction fuel as [|fuel IH]; intros p; simpl; apply _. Qed.
#[export] Instance kd_avl_fix p : KeepsDom (avl_fix p).
Proof. apply _. Qed.
#[export] Instance kd_avl_del_easy p : KeepsDom (avl_del_easy p).
Proof. apply _. Qed.
#[export] Instance kd_leftmost_loop fuel p : KeepsDom (leftmost_loop fuel p).
Proof. revert p. induction fuel as [|fuel IH]; intros p; simpl; apply _. Qed.
#[export] Instance kd_avl_remove p : KeepsDom (avl_remove p).
Proof. apply _. Qed.

Section lemmas.
Implicit Types (s : avl_heap) (t l r : tree) (a : positive) (c : ctx).

Lemma avl_wf_frame s s' X t :
  same_except X s s' → (∀ b, b ∈ inorder t → b ∉ X) → avl_wf s t → avl_wf s' t.
Proof. intros Hs HX []. split; [by eapply is_tree_same|done..]. Qed.

Lemma wf_fix_path s t0 t c :
  is_tree s None (fix_path t c) → NoDup (inorder (fix_path t c)) →
  tsize (fix_path t c) ≤ cnt_max →
  avl (plug t0 c) → avl t → Z.abs (height t - height t0) ≤ 1 →
  avl_wf s (fix_path t c).
Proof. intros. split; [done|done| |done]. by eapply fix_path_avl. Qed.

(** The path to the node at a given in-order position. *)
Lemma plug_at t i a :
  NoDup (inorder t) → inorder t !! i = Some a →
  ∃ l r c, t = plug (Node l a r) c ∧
    Z.of_nat i = tsize l + Z.of_nat (length (before c)).
Proof.
  intros Hnd Hi. destruct (plug_elem a t) as (l & r & c & ->).
  { by eapply list_elem_of_lookup_2. }
  exists l, r, c. split; [done|].
  assert (i = length (before c) + length (inorder l))%nat as ->.
  { eapply NoDup_lookup; [done..|]. rewrite plug_inorder. simpl.
    rewrite lookup_app_r, lookup_app_l by (rewrite ?length_app; simpl; lia).
    rewrite lookup_app_r by lia.
    by replace (_ + _ - _ - _)%nat with 0%nat by lia. }
  rewrite <- length_inorder. lia.
Qed.

Lemma avl_height_log t : avl t → height t ≤ 2 * Z.log2 (tsize t + 1) + 1.
Proof.
  intros Ht. pose proof (avl_size_height t Ht) as H.
  pose proof (height_nonneg t). pose proof (tsize_nonneg t).
  apply Z.log2_le_mono in H. rewrite Z.log2_pow2 in H by (apply Z.div_pos; lia).
  pose proof (Z.div_mod (height t) 2). pose proof (Z.mod_pos_bound (height t) 2). lia.
Qed.

Lemma wp_avl_remove_wf s t a xs ys (Q : ptr → avl_heap → Prop) :
  avl_wf s t → inorder t = xs ++ a :: ys →
  (∀ s' t', avl_wf s' t' → inorder t' = xs ++ ys →
    same_except (inorder t) s s' → Q (root t') s') →
  wp (avl_remove (Some a)) s Q.
Proof.
  intros [Ht Hnd Hav Hsz] Hin HQ.
  destruct (plug_elem a t) as (l & r & c & ->).
  { rewrite Hin. apply elem_of_app. right. left. }
  eapply wp_avl_remove; [done..|]. intros s' t' Ht' Hs'.
  pose proof (remove_at_inorder _ _ _ _ Hnd) as Hin'. fold t' in Hin'.
  assert (inorder t' = xs ++ ys) as Hxy.
  { rewrite plug_inorder in Hin, Hnd. simpl in Hin, Hnd. rewrite Hin'.
    rewrite <- app_assoc, (app_assoc (before c)) in Hin, Hnd. simpl in Hin, Hnd.
    destruct (NoDup_middle_inv _ _ _ _ _ Hnd Hin) as [<- <-].
    by rewrite <- !app_assoc. }
  apply HQ; [|done|done]. split; [done| | |].
  - rewrite Hxy. rewrite Hin in Hnd. by apply NoDup_middle in Hnd as [_ ?].
  - by apply remove_at_avl.
  - rewrite <- length_inorder in *. rewrite Hxy. rewrite Hin in Hsz.
    rewrite !length_app in *. simpl in Hsz. lia.
Qed.
(** Hanging a new node below a node of the tree, and repairing the tree. *)
Lemma wp_avl_hang s a c p0 (Q : ptr → avl_heap → Prop) :
  avl_wf s (plug Leaf c) → s !! a = Some (mkAVLNode p0 None None 1 1) →
  a ∉ inorder (plug Leaf c) → tsize (plug Leaf c) < cnt_max →
  (∀ s' t', avl_wf s' t' → inorder t' = before c ++ a :: after c →
    same_except (inorder t') s s' → Q (root t') s') →
  wp ((link_set (link_of c) (Some a) (root (plug Leaf c));;
       Some a ->> f_parent <<- ctx_parent c);; avl_fix (Some a)) s Q.
Proof.
  intros [Ht Hnd Hav Hcnt] Ha Hal Hsz HQ. apply is_tree_plug in Ht as [_ Hc].
  rewrite plug_inorder in Hal, Hnd. simpl in Hal, Hnd.
  wp_step. wp_step. change (Some a) with (root (Node Leaf a Leaf)).
  eapply (wp_link_set false _ Leaf); [by apply is_ctx_weaken|done|done|].
  intros s1 Hc1 Hs1 _. simpl root.
  eapply wp_store; [by rewrite Hs1|]. set (s2 := <[a:=_]> s1).
  assert (same_except (before c ++ a :: after c) s s2) as Hs2.
  { apply same_except_insert; [set_solver|]. eapply same_except_mono; [|exact Hs1]. set_solver. }
  assert (Hnd' : NoDup (inorder (plug (Node Leaf a Leaf) c))).
  { rewrite plug_inorder. simpl. by apply NoDup_middle. }
  rewrite plug_size in Hsz. simpl in Hsz.
  eapply (wp_avl_fix s2 Leaf a Leaf c); [| |done| |].
  - split; [|done]. eexists _, _. apply lookup_insert_eq.
  - eapply is_ctx_frame; [|exact Hc1]. intros b Hb. apply lookup_insert_ne. congruence.
  - rewrite plug_size. simpl. lia.
  - intros s3 t' Ht' Hs3.
    assert (inorder t' = before c ++ a :: after c) as Hin by (unfold t'; by rewrite fix_path_inorder).
    apply HQ; [|done|rewrite Hin in *; by eapply same_except_trans].
    rewrite plug_inorder in Hnd'. simpl in Hnd'. rewrite <- Hin in Hnd'.
    apply (wf_fix_path _ Leaf); [done|done| |done|done|done].
    rewrite fix_path_size. simpl. lia.
Qed.

Lemma wp_avl_offset_fuel s t i a offset fuel (Q : ptr → avl_heap → Prop) :
  avl_wf s t → inorder t !! i = Some a → 2 * height t ≤ Z.of_nat fuel →
  Q (lookupZ (inorder t) (Z.of_nat i + offset)) s →
  wp (avl_offset_loop fuel (Some a) 0 offset) s Q.
Proof.
  intros [Ht Hnd Hav Hsz] Hi Hf HQ. destruct (plug_at t i a Hnd Hi) as (l & r & c & -> & E).
  pose proof (height_nonneg (Node l a r)). pose proof (plug_height (Node l a r) c).
  pose proof (tsize_nonneg l). pose proof (tsize_nonneg r).
  pose proof (plug_size (Node l a r) c) as Hps. rewrite length_app in Hps. simpl tsize in Hps.
  pose proof Hsz as Hsz'. unfold cnt_max in Hsz'. apply is_tree_plug in Ht as [Ht Hc].
  eapply wp_offset_loop; [done..|unfold in_range; lia|unfold in_range; lia|lia|].
  eqapply HQ. f_equal. lia.
Qed.

Lemma wp_avl_offset_wf s t i a offset (Q : ptr → avl_heap → Prop) :
  avl_wf s t → inorder t !! i = Some a →
  Q (lookupZ (inorder t) (Z.of_nat i + offset)) s → wp (avl_offset (Some a) offset) s Q.
Proof.
  intros Hwf Hi HQ. unfold avl_offset. wp_step. wp_step.
  eapply wp_avl_offset_fuel; [done..| |done]. destruct Hwf as [Ht Hnd _ _].
  pose proof (is_tree_dom _ _ _ Ht) as Hdom. pose proof (length_le_size s _ Hnd Hdom).
  pose proof (length_inorder t). pose proof (height_le_tsize t). lia.
Qed.
End lemmas.

(** [tree_heap] represents its tree (used to build concrete heaps). *)
Lemma is_tree_tree_heap p t : NoDup (inorder t) → is_tree (tree_heap p t) p t.
Proof.
  revert p. induction t as [|l IHl a r IHr]; intros p Hnd; simpl; [done|].
  assert (Hdom : ∀ t p b, b ∉ inorder t → tree_heap p t !! b = None).
  { clear. induction t as [|l IHl a r IHr]; intros p b Hb; simpl in *; [done|].
    rewrite lookup_insert_ne, lookup_union_None by set_solver. set_solver. }
  simpl in Hnd. apply NoDup_app in Hnd as (Hl & Hd & [Har Hr]%NoDup_cons).
  assert (Hal : a ∉ inorder l) by (intros Ha; apply (Hd _ Ha); left).
  split_and!; [by rewrite lookup_insert_eq|..].
  - eapply is_tree_frame; [|by apply IHl]. intros b Hb.
    rewrite lookup_insert_ne by congruence. apply lookup_union_l, Hdom.
    intros Hb'. apply (Hd _ Hb). by right.
  - eapply is_tree_frame; [|by apply IHr]. intros b Hb.
    rewrite lookup_insert_ne by congruence. apply lookup_union_r, Hdom.
    intros Hb'. apply (Hd _ Hb'). by right.
Qed.
