(* ===== verification/AvlTheorems.v ===== *)
(** The correctness theorems of container/avl.cc: removal, the fix loop after an
    insertion, and [avl_offset], stated on heaps that hold a valid AVL tree. *)
From S2P Require Import Prelude Avl AvlTree AvlRep AvlFix AvlRemove AvlOffset AvlSpec.

(** * Properties *)

(** C11. [avl_remove] on any node of a valid AVL tree returns, without touching a
    null or dangling pointer, the root of a valid AVL tree (pointers, parent
    pointers, cached heights and counts, balance) that holds the same nodes in
    the same order without the removed one; no other memory changes. *)
Theorem avl_remove_correct s t a xs ys :
  avl_wf s t → inorder t = xs ++ a :: ys →
  ∃ s' t', avl_remove (Some a) s = Some (root t', s') ∧ avl_wf s' t' ∧
    inorder t' = xs ++ ys ∧ same_except (inorder t) s s'.
Proof.
  intros Hwf Hin.
  destruct (proj1 (wp_run (avl_remove (Some a)) s (λ q s', ∃ t', q = root t' ∧
    avl_wf s' t' ∧ inorder t' = xs ++ ys ∧ same_except (inorder t) s s')))
    as (q & s' & E & t' & -> & ? & ? & ?); [|by exists s', t'].
  eapply wp_avl_remove_wf; [done..|]. eauto.
Qed.

(** C18. After a new node is hung below a node of a valid AVL tree, [avl_fix] from
    the new node returns the root of a valid AVL tree in which the new node
    stands between the nodes before and after the place where it was hung. *)
Theorem avl_fix_insert_correct s a c :
  is_node s (ctx_parent c) Leaf a Leaf →
  is_ctx false s (Node Leaf a Leaf) c →
  NoDup (inorder (plug (Node Leaf a Leaf) c)) →
  tsize (plug (Node Leaf a Leaf) c) ≤ cnt_max →
  avl (plug Leaf c) →
  ∃ s' t', avl_fix (Some a) s = Some (root t', s') ∧ avl_wf s' t' ∧
    inorder t' = before c ++ a :: after c ∧ same_except (inorder t') s s'.
Proof.
  intros Hn Hc Hnd Hsz Hav.
  destruct (proj1 (wp_run (avl_fix (Some a)) s (λ q s', ∃ t', q = root t' ∧
    avl_wf s' t' ∧ inorder t' = before c ++ a :: after c ∧ same_except (inorder t') s s')))
    as (q & s' & E & t' & -> & ? & ? & ?); [|by exists s', t'].
  eapply wp_avl_fix; [done..|]. intros s' t' Ht' Hs'. exists t'.
  assert (inorder t' = before c ++ a :: after c) as Hin.
  { subst t'. by rewrite fix_path_inorder. }
  split_and!; [done| |done|done].
  rewrite plug_inorder in Hnd. simpl in Hnd. rewrite <- Hin in Hnd.
  rewrite plug_size in Hsz. eapply (wf_fix_path _ Leaf); [done|done| |done|done|done].
  by rewrite fix_path_size.
Qed.

(** C19. [avl_offset] returns the node [offset] places after (or before) the given
    one in the in-order sequence, and null when there is none, for every
    [int64_t] offset; it changes nothing and no rank difference overflows. *)
Theorem avl_offset_correct s t i a offset :
  avl_wf s t → inorder t !! i = Some a →
  avl_offset (Some a) offset s = Some (lookupZ (inorder t) (Z.of_nat i + offset), s).
Proof.
  intros Hwf Hi.
  destruct (proj1 (wp_run (avl_offset (Some a) offset) s (λ q s', s' = s ∧
    q = lookupZ (inorder t) (Z.of_nat i + offset)))) as (q & s' & -> & -> & ->); [|done].
  by eapply wp_avl_offset_wf.
Qed.

(** C34. [avl_offset]'s loop ends within about [4 log2 n] iterations however long
    the offset is: with [4 * log2 (n + 1) + 2] iterations of fuel it has returned
    its result. *)
Theorem avl_offset_logarithmic s t i a offset fuel :
  avl_wf s t → inorder t !! i = Some a →
  4 * Z.log2 (tsize t + 1) + 2 ≤ Z.of_nat fuel →
  avl_offset_loop fuel (Some a) 0 offset s =
    Some (lookupZ (inorder t) (Z.of_nat i + offset), s).
Proof.
  intros Hwf Hi Hf. pose proof (avl_height_log t (wf_avl _ _ Hwf)).
  destruct (proj1 (wp_run (avl_offset_loop fuel (Some a) 0 offset) s (λ q s', s' = s ∧
    q = lookupZ (inorder t) (Z.of_nat i + offset)))) as (q & s' & -> & -> & ->); [|done].
  eapply wp_avl_offset_fuel; [done..|lia|done].
Qed.

(** In every valid AVL tree the cached height of the root is at most
    [2 * log2 (n + 1) + 1], where [n] is its cached count: it stays far below
    2^32. *)
Theorem avl_cached_height_log s t a n :
  avl_wf s t → root t = Some a → s !! a = Some n →
  a_cnt n = Z.of_nat (length (inorder t)) ∧
  0 < a_height n ≤ 2 * Z.log2 (a_cnt n + 1) + 1.
Proof.
  intros [Ht Hnd Hav Hsz] Hr Hs. destruct t as [|l b r]; [done|].
  simpl in Hr. injection Hr as ->. pose proof (avl_height_log _ Hav) as Hh.
  pose proof (height_nonneg l). pose proof (height_nonneg r).
  pose proof (length_inorder (Node l a r)).
  destruct Ht as (Ha & _ & _). rewrite Ha in Hs. injection Hs as <-.
  unfold a_cnt, a_height. split; [by symmetry|]. split; [simpl; lia|done].
Qed.

(** * Witnesses *)

Module AvlWitness.
(** A tree of five nodes; removing node 2 leaves the right side too tall and
    forces a double rotation at the root. *)
Definition t5 : tree :=
  Node (Node Leaf 1 Leaf) 2 (Node (Node Leaf 3 Leaf) 4 (Node Leaf 5 Leaf)).
Definition h5 : avl_heap := tree_heap None t5.

Lemma h5_wf : avl_wf h5 t5.
Proof.
  split.
  - apply is_tree_tree_heap. apply (bool_decide_unpack _). by vm_compute.
  - apply (bool_decide_unpack _). by vm_compute.
  - simpl. lia.
  - by vm_compute.
Defined.

(** The heap after a new node 6 is hung below node 5. *)
Definition c6 : ctx := [InRight Leaf 5; InRight (Node Leaf 3 Leaf) 4; InRight (Node Leaf 1 Leaf) 2].
Definition h6 : avl_heap :=
  <[6%positive:=mkAVLNode (Some 5%positive) None None 1 1]>
    (<[5%positive:=mkAVLNode (Some 4%positive) None (Some 6%positive) 1 1]> h5).
End AvlWitness.
Import AvlWitness.

Lemma avl_remove_correct_witness :
  ∃ s' t', avl_remove (Some 1%positive) h5 = Some (root t', s') ∧ avl_wf s' t' ∧
    inorder t' = [2; 3; 4; 5]%positive ∧ same_except (inorder t5) h5 s'.
Proof. apply (avl_remove_correct h5 t5 1%positive [] [2; 3; 4; 5]%positive h5_wf). reflexivity. Defined.

Lemma avl_fix_insert_correct_witness :
  ∃ s' t', avl_fix (Some 6%positive) h6 = Some (root t', s') ∧ avl_wf s' t' ∧
    inorder t' = [1; 2; 3; 4; 5; 6]%positive ∧ same_except (inorder t') h6 s'.
Proof.
  apply (avl_fix_insert_correct h6 6%positive c6).
  - split; [eexists _, _; vm_compute; reflexivity|by split].
  - vm_compute. split_and!; eauto 10; eexists _, _; split; eauto; done.
  - apply (bool_decide_unpack _). by vm_compute.
  - by vm_compute.
  - simpl. lia.
Defined.

Lemma avl_offset_correct_witness :
  avl_offset (Some 2%positive) 3 h5 = Some (Some 5%positive, h5).
Proof. apply (avl_offset_correct h5 t5 1 2%positive 3 h5_wf). reflexivity. Defined.

Lemma avl_offset_logarithmic_witness :
  avl_offset_loop 10 (Some 4%positive) 0 (-3) h5 = Some (Some 1%positive, h5).
Proof.
  apply (avl_offset_logarithmic h5 t5 3 4%positive (-3) 10 h5_wf); [reflexivity|].
  vm_compute. discriminate.
Defined.

Lemma avl_cached_height_log_witness :
  5 = Z.of_nat (length (inorder t5)) ∧ 0 < 3 ≤ 2 * Z.log2 (5 + 1) + 1.
Proof.
  apply (avl_cached_height_log h5 t5 2%positive
    (mkAVLNode None (Some 1%positive) (Some 4%positive) 3 5) h5_wf); reflexivity.
Defined.
