(* ===== verification/HashTable.v ===== *)
(** The chained hash table with progressive rehashing of container/hash_table.h
    and container/hash_table.cc, translated statement by statement.

    The [HashNode]s are embedded in larger objects and linked by pointers, so
    they live in a store.  A [HashTab] is allocated by [ht_make] and reached only
    through its [HashMap], so the tables are values inside the [HashMap], and a
    function that updates a table through its pointer returns the new table. *)
From S2P Require Import Prelude.

(** [struct HashNode] *)
Record HashNode : Type := mkHashNode {
  hn_next : ptr;
  hn_hash_code : Z;
}.

Abbreviation hash_heap := (gmap positive HashNode).

Definition f_next : field HashNode ptr := Field hn_next
  (λ v n, mkHashNode v (hn_hash_code n)).
Definition f_hash_code : field HashNode Z := Field hn_hash_code
  (λ v n, mkHashNode (hn_next n) v).

(** [struct HashTab]: [tab] is the flexible array of [mask + 1] slots. *)
Record HashTab : Type := mkHashTab {
  ht_mask : Z;
  ht_size : Z;
  ht_tab : list ptr;
}.

(** [class HashMap]; [newer] is null only after the destructor ran. *)
Record HashMap : Type := mkHashMap {
  hm_newer : HashTab;
  hm_older : option HashTab;
  hm_migrate_pos : Z;
}.

(** [HashNodeCompare] applied to the key: [None] is undefined behaviour of the
    comparison. *)
Abbreviation hash_eq := (positive → option bool).

Definition lift_option {S A} (o : option A) : M S A :=
  match o with Some a => mret a | None => fault end.

(** [ht->tab[i]], read and written; out of range is undefined behaviour. *)
Definition tab_get {S} (ht : HashTab) (i : Z) : M S ptr :=
  lift_option (lookupZ (ht_tab ht) i).

Definition tab_set {S} (ht : HashTab) (i : Z) (v : ptr) : M S HashTab :=
  match lookupZ (ht_tab ht) i with
  | Some _ => mret (mkHashTab (ht_mask ht) (ht_size ht) (<[Z.to_nat i := v]> (ht_tab ht)))
  | None => fault
  end.

Definition ht_set_size (ht : HashTab) (n : Z) : HashTab :=
  mkHashTab (ht_mask ht) n (ht_tab ht).

(** n must be a power of 2 *)
Definition ht_make {S} (n : Z) : M S HashTab :=
  assert ((0 <? n) && (Z.land (n - 1) n =? 0));;
  mret (mkHashTab (n - 1) 0 (replicate (Z.to_nat n) None)).

(** hashtable insertion *)
Definition ht_insert (ht : HashTab) (node : ptr) : M hash_heap HashTab :=
  hc ← node ->> f_hash_code;
  let pos := Z.land hc (ht_mask ht) in
  next ← tab_get ht pos;
  node ->> f_next <<- next;;
  ht ← tab_set ht pos node;
  mret (ht_set_size ht (u64 (ht_size ht + 1))).

(** A [HashNode **from]: a slot of the table, or the [next] field of a node. *)
Inductive hash_link : Type :=
| SlotLink (pos : Z)
| NextLink (p : ptr).

(** [*from] *)
Definition hlink_get (ht : HashTab) (from : hash_link) : M hash_heap ptr :=
  match from with
  | SlotLink pos => tab_get ht pos
  | NextLink p => p ->> f_next
  end.

(** [*from = v] *)
Definition hlink_set (ht : HashTab) (from : hash_link) (v : ptr) : M hash_heap HashTab :=
  match from with
  | SlotLink pos => tab_set ht pos v
  | NextLink p => p ->> f_next <<- v;; mret ht
  end.

Fixpoint ht_lookup_loop (fuel : nat) (ht : HashTab) (key_hash : Z) (eq : hash_eq)
    (from : hash_link) : M hash_heap (option hash_link) :=
  match fuel with
  | O => fault
  | S fuel =>
      cur ← hlink_get ht from;
      match cur with
      | None => mret None
      | Some c =>
          hc ← cur ->> f_hash_code;
          found ← (if hc =? key_hash then lift_option (eq c) else mret false);
          if found : bool then mret (Some from)
          else ht_lookup_loop fuel ht key_hash eq (NextLink cur)
      end
  end.

(** hashtable look up subroutine; returns the address of the parent pointer that
    owns the target node.  The key is its hash code and the comparison with it. *)
Definition ht_lookup (ht : HashTab) (key_hash : Z) (eq : hash_eq)
    : M hash_heap (option hash_link) :=
  let pos := Z.land key_hash (ht_mask ht) in
  s ← get;
  ht_lookup_loop (S (size (s : hash_heap))) ht key_hash eq (SlotLink pos).

(** remove a node from the chain *)
Definition ht_detach (ht : HashTab) (from : hash_link) : M hash_heap (ptr * HashTab) :=
  node ← hlink_get ht from;
  next ← node ->> f_next;
  ht ← hlink_set ht from next;
  mret (node, ht_set_size ht (u64 (ht_size ht - 1))).

(** The inner loop of [ht_foreach]; the callback updates the state behind [arg]
    and says whether to go on. *)
Fixpoint ht_foreach_chain {A} (fuel : nat) (f : positive → A → option (bool * A))
    (node : ptr) (arg : A) : M hash_heap (bool * A) :=
  match fuel with
  | O => fault
  | S fuel =>
      match node with
      | None => mret (true, arg)
      | Some a =>
          r ← lift_option (f a arg);
          if (r : bool * A).1 then
            next ← node ->> f_next;
            ht_foreach_chain fuel f next r.2
          else mret (false, r.2)
      end
  end.

Fixpoint ht_foreach_loop {A} (fuel : nat) (ht : HashTab)
    (f : positive → A → option (bool * A)) (i : Z) (arg : A) : M hash_heap (bool * A) :=
  match fuel with
  | O => fault
  | S fuel =>
      if negb (ht_mask ht =? 0) && (i <=? ht_mask ht) then
        node ← tab_get ht i;
        s ← get;
        r ← ht_foreach_chain (S (size (s : hash_heap))) f node arg;
        if (r : bool * A).1 then ht_foreach_loop fuel ht f (u64 (i + 1)) r.2
        else mret (false, r.2)
      else mret (true, arg)
  end.

Definition ht_foreach {A} (ht : HashTab) (f : positive → A → option (bool * A)) (arg : A)
    : M hash_heap (bool * A) :=
  ht_foreach_loop (S (length (ht_tab ht))) ht f 0 arg.

Definition k_rehashing_work : Z := 128.
Definition k_max_load_factor : Z := 8.

(** [HashMap::HashMap()] *)
Definition hm_new {S} : M S HashMap :=
  newer ← ht_make 4;
  mret (mkHashMap newer None 0).

Definition hm_size (m : HashMap) : Z :=
  u64 (ht_size (hm_newer m) + match hm_older m with Some o => ht_size o | None => 0 end).

(** The loop of [HashMap::rehashing], on the non-null [older]. *)
Fixpoint rehashing_loop (fuel : nat) (newer older : HashTab) (migrate_pos nwork : Z)
    : M hash_heap (HashTab * HashTab * Z) :=
  match fuel with
  | O => fault
  | S fuel =>
      if (nwork <? k_rehashing_work) && (0 <? ht_size older) then
        let from := SlotLink migrate_pos in
        first ← hlink_get older from;
        match first with
        | None => rehashing_loop fuel newer older (u64 (migrate_pos + 1)) nwork
        | Some _ =>
            r ← ht_detach older from;
            newer ← ht_insert newer (r : ptr * HashTab).1;
            rehashing_loop fuel newer r.2 migrate_pos (nwork + 1)
        end
      else mret (newer, older, migrate_pos)
  end.

Definition rehashing (m : HashMap) : M hash_heap HashMap :=
  match hm_older m with
  | None => mret m
  | Some older =>
      r ← rehashing_loop (S (Z.to_nat k_rehashing_work + length (ht_tab older)))
            (hm_newer m) older (hm_migrate_pos m) 0;
      let '(newer, older, migrate_pos) := (r : HashTab * HashTab * Z) in
      if ht_size older =? 0 then mret (mkHashMap newer None 0)
      else mret (mkHashMap newer (Some older) migrate_pos)
  end.

Definition inspect_rehashing {S} (m : HashMap) : M S HashMap :=
  match hm_older m with
  | Some _ => mret m
  | None =>
      let shreshold := u64 (u64 (ht_mask (hm_newer m) + 1) * k_max_load_factor) in
      if shreshold <=? ht_size (hm_newer m) then
        newer ← ht_make (u64 (u64 (ht_mask (hm_newer m) + 1) * 2));
        mret (mkHashMap newer (Some (hm_newer m)) 0)
      else mret m
  end.

Definition hm_insert (m : HashMap) (node : ptr) : M hash_heap HashMap :=
  newer ← ht_insert (hm_newer m) node;
  m ← inspect_rehashing (mkHashMap newer (hm_older m) (hm_migrate_pos m));
  rehashing m.

Definition hm_lookup (m : HashMap) (key_hash : Z) (eq : hash_eq)
    : M hash_heap (ptr * HashMap) :=
  m ← rehashing m;
  from ← ht_lookup (hm_newer m) key_hash eq;
  match from, hm_older m with
  | Some from, _ =>
      node ← hlink_get (hm_newer m) from;
      mret (node, m)
  | None, Some older =>
      from ← ht_lookup older key_hash eq;
      match from with
      | Some from =>
          node ← hlink_get older from;
          mret (node, m)
      | None => mret (None, m)
      end
  | None, None => mret (None, m)
  end.

Definition hm_remove (m : HashMap) (key_hash : Z) (eq : hash_eq)
    : M hash_heap (ptr * HashMap) :=
  m ← rehashing m;
  from ← ht_lookup (hm_newer m) key_hash eq;
  match from with
  | Some from =>
      r ← ht_detach (hm_newer m) from;
      mret ((r : ptr * HashTab).1, mkHashMap r.2 (hm_older m) (hm_migrate_pos m))
  | None =>
      match hm_older m with
      | Some older =>
          from ← ht_lookup older key_hash eq;
          match from with
          | Some from =>
              r ← ht_detach older from;
              mret ((r : ptr * HashTab).1, mkHashMap (hm_newer m) (Some r.2) (hm_migrate_pos m))
          | None => mret (None, m)
          end
      | None => mret (None, m)
      end
  end.

(** invoke the callback on each node until it returns false *)
Definition hm_foreach {A} (m : HashMap) (f : positive → A → option (bool * A)) (arg : A)
    : M hash_heap A :=
  r ← ht_foreach (hm_newer m) f arg;
  match hm_older m with
  | Some older =>
      r ← ht_foreach older f (r : bool * A).2;
      mret (r : bool * A).2
  | None => mret (r : bool * A).2
  end.
