(* ===== verification/HashRep.v ===== *)
(** What a hash table of HashTable.v represents: every slot holds a linked chain
    of nodes, and every node sits in the slot that its hash code selects.  The
    file gives the specification of each operation on one [HashTab]. *)
From S2P Require Import Prelude HashTable.

(** * Representation *)

(** A null-terminated chain of nodes that starts at the pointer [p]. *)
Fixpoint chain (s : hash_heap) (p : ptr) (l : list positive) : Prop :=
  match l with
  | [] => p = None
  | a :: l => p = Some a ∧ ∃ n, s !! a = Some n ∧ chain s (hn_next n) l
  end.

(** The stores agree on which nodes exist and on their hash codes. *)
Definition same_codes (s s' : hash_heap) : Prop :=
  ∀ a, hn_hash_code <$> s' !! a = hn_hash_code <$> s !! a.

(** The table [ht] holds the chains [cs], one per slot. *)
Record is_tab (s : hash_heap) (ht : HashTab) (cs : list (list positive)) : Prop := {
  it_pow : ∃ k, 2 ≤ k ≤ 60 ∧ ht_mask ht = 2 ^ k - 1;
  it_length : Z.of_nat (length (ht_tab ht)) = ht_mask ht + 1;
  it_chains : Forall2 (chain s) (ht_tab ht) cs;
  it_hash : ∀ i c a n, cs !! i = Some c → a ∈ c → s !! a = Some n →
    Z.land (hn_hash_code n) (ht_mask ht) = Z.of_nat i;
  it_size : ht_size ht = Z.of_nat (length (mjoin cs));
  it_nodup : NoDup (mjoin cs);
}.

(** [from] is the link that owns node [b] of slot [i]: the slot itself, or the
    [next] field of the last node before [b]. *)
Definition link_after (i : nat) (pre : list positive) : hash_link :=
  match last pre with None => SlotLink (Z.of_nat i) | Some q => NextLink (Some q) end.

Definition is_link (cs : list (list positive)) (from : hash_link) (b : positive) : Prop :=
  ∃ i pre post, cs !! i = Some (pre ++ b :: post) ∧ from = link_after i pre.

(** * Chains *)

Lemma chain_frame s s' p l :
  (∀ b, b ∈ l → s' !! b = s !! b) → chain s p l → chain s' p l.
Proof.
  revert p. induction l as [|a l IH]; intros p Hs; simpl; [done|].
  intros (-> & n & Ha & Hl). split; [done|]. exists n.
  rewrite Hs by left. split; [done|]. apply IH; [|done]. intros b Hb. apply Hs. by right.
Qed.

Lemma chain_dom s p l : chain s p l → ∀ a, a ∈ l → is_Some (s !! a).
Proof.
  revert p. induction l as [|b l IH]; intros p; simpl; [set_solver|].
  intros (-> & n & Hb & Hl) a [->|Ha]%elem_of_cons; eauto.
Qed.

Lemma chain_head s p l : chain s p l → p = head l.
Proof. destruct l; simpl; [done|]. by intros [-> _]. Qed.

(** The pointer that the last node before [rest] holds. *)
Lemma chain_last s p pre q rest :
  chain s p (pre ++ q :: rest) → ∃ n, s !! q = Some n ∧ hn_next n = head rest.
Proof.
  revert p. induction pre as [|a pre IH]; intros p; simpl.
  - intros (-> & n & Hq & Hc). exists n. split; [done|]. by eapply chain_head.
  - intros (-> & n & _ & Hc). by eapply IH.
Qed.

(** Redirecting the last node before [b] past [b]. *)
Lemma chain_unlink s p pre q nq b nb post :
  NoDup (pre ++ q :: b :: post) → chain s p (pre ++ q :: b :: post) →
  s !! q = Some nq → s !! b = Some nb →
  chain (<[q:=fset f_next (hn_next nb) nq]> s) p (pre ++ q :: post).
Proof.
  intros Hnd Hc Hq Hb. revert p Hc. induction pre as [|a pre IH]; intros p; simpl in *.
  - intros (-> & n & Hq' & _ & nb' & Hb' & Hp). simplify_eq. split; [done|].
    eexists. split; [apply lookup_insert_eq|]. simpl.
    eapply chain_frame; [|done]. intros x Hx. apply lookup_insert_ne.
    apply NoDup_cons in Hnd as [Hnd _]. set_solver.
  - intros (-> & n & Ha & Hp). apply NoDup_cons in Hnd as [Hna Hnd].
    split; [done|]. exists n. rewrite lookup_insert_ne by set_solver. eauto.
Qed.

Lemma chain_hash_ext s s' p l : same_except [] s s' → chain s p l → chain s' p l.
Proof. intros Hs. apply chain_frame. intros b _. apply Hs. set_solver. Qed.

(** * Hash codes and slots *)

Lemma same_codes_refl s : same_codes s s.
Proof. done. Qed.

Lemma same_codes_trans s1 s2 s3 : same_codes s1 s2 → same_codes s2 s3 → same_codes s1 s3.
Proof. intros H1 H2 a. by rewrite H2. Qed.

Lemma same_codes_set_next s a n p :
  s !! a = Some n → same_codes s (<[a:=fset f_next p n]> s).
Proof.
  intros Ha b. rewrite lookup_insert. case_decide; [|done]. subst. by rewrite Ha.
Qed.

#[export] Hint Resolve same_codes_refl same_codes_set_next : cpp.

Lemma same_codes_lookup s s' a n' :
  same_codes s s' → s' !! a = Some n' →
  ∃ n, s !! a = Some n ∧ hn_hash_code n = hn_hash_code n'.
Proof.
  intros Hs Ha. specialize (Hs a). rewrite Ha in Hs. simpl in Hs.
  destruct (s !! a) as [n|]; [|done]. simplify_eq/=. eauto.
Qed.

Section tab.
Context (s : hash_heap) (ht : HashTab) (cs : list (list positive)).
Hypothesis Htab : is_tab s ht cs.

Lemma tab_length_cs : length cs = length (ht_tab ht).
Proof. symmetry. apply (Forall2_length _ _ _ (it_chains _ _ _ Htab)). Qed.

Lemma tab_slot_bound h : 0 ≤ Z.land h (ht_mask ht) < Z.of_nat (length cs).
Proof.
  rewrite tab_length_cs, (it_length _ _ _ Htab).
  destruct (it_pow _ _ _ Htab) as (k & Hk & ->).
  replace (2 ^ k - 1) with (Z.ones k) by (rewrite Z.ones_equiv; lia).
  rewrite Z.land_ones, Z.ones_equiv by lia.
  pose proof (Z.mod_pos_bound h (2 ^ k)). lia.
Qed.

Lemma tab_mask_bound : 3 ≤ ht_mask ht < 2 ^ 60.
Proof.
  destruct (it_pow _ _ _ Htab) as (k & Hk & ->).
  assert (2 ^ 2 ≤ 2 ^ k ≤ 2 ^ 60); [|lia]. split; apply Z.pow_le_mono_r; lia.
Qed.

(** The slot that a hash code selects, and its chain. *)
Lemma tab_slot h :
  ∃ i c p, Z.land h (ht_mask ht) = Z.of_nat i ∧ cs !! i = Some c ∧
    ht_tab ht !! i = Some p ∧ chain s p c.
Proof.
  pose proof (tab_slot_bound h) as Hb.
  exists (Z.to_nat (Z.land h (ht_mask ht))).
  destruct (lookup_lt_is_Some_2 cs (Z.to_nat (Z.land h (ht_mask ht)))) as [c Hc]; [lia|].
  destruct (Forall2_lookup_r _ _ _ _ _ (it_chains _ _ _ Htab) Hc) as (p & Hp & Hcp).
  exists c, p. split; [lia|done].
Qed.

Lemma tab_chain i c :
  cs !! i = Some c → ∃ p, ht_tab ht !! i = Some p ∧ chain s p c.
Proof. intros Hc. apply (Forall2_lookup_r _ _ _ _ _ (it_chains _ _ _ Htab) Hc). Qed.

Lemma tab_dom a : a ∈ mjoin cs → is_Some (s !! a).
Proof.
  intros (c & Ha & Hc)%list_elem_of_join. apply list_elem_of_lookup in Hc as [i Hi].
  destruct (tab_chain i c Hi) as (p & _ & Hp). by eapply chain_dom.
Qed.

Lemma tab_size_bound : 0 ≤ ht_size ht.
Proof. rewrite (it_size _ _ _ Htab). lia. Qed.

Lemma wp_tab_get i c (Q : ptr → hash_heap → Prop) s' :
  cs !! i = Some c → Q (head c) s' → wp (tab_get ht (Z.of_nat i)) s' Q.
Proof.
  intros Hi HQ. destruct (tab_chain i c Hi) as (p & Hp & Hc).
  unfold tab_get. rewrite lookupZ_nat, Hp. apply chain_head in Hc as ->. done.
Qed.
End tab.

(** Replacing one chain of a table, up to the order of the nodes. *)
Lemma join_insert (cs : list (list positive)) i c :
  cs !! i = Some c →
  ∃ R, mjoin cs ≡ₚ c ++ R ∧ ∀ c', mjoin (<[i:=c']> cs) ≡ₚ c' ++ R.
Proof.
  intros Hi. exists (mjoin (take i cs) ++ mjoin (drop (S i) cs)). split.
  - rewrite <- (take_drop_middle cs i c) at 1 by done. rewrite join_app. simpl.
    solve_Permutation.
  - intros c'. rewrite insert_take_drop by (by eapply lookup_lt_Some).
    rewrite join_app. simpl. solve_Permutation.
Qed.

(** A table does not depend on nodes outside of it. *)
Lemma is_tab_frame s s' ht cs :
  (∀ b, b ∈ mjoin cs → s' !! b = s !! b) → is_tab s ht cs → is_tab s' ht cs.
Proof.
  intros Hs [Hpow Hl Hc Hh Hsz Hnd]. split; [done..| |  |done|done].
  - apply Forall2_same_length_lookup in Hc as [Hlen Hc].
    apply Forall2_same_length_lookup. split; [done|]. intros i p c Hp Hi.
    eapply chain_frame; [|by eapply Hc]. intros b Hb. apply Hs, list_elem_of_join.
    exists c. split; [done|]. by eapply list_elem_of_lookup_2.
  - intros i c a n Hi Ha. rewrite Hs; [by eapply Hh|].
    apply list_elem_of_join. exists c. split; [done|]. by eapply list_elem_of_lookup_2.
Qed.

(** Rebuilding a table after one slot and its chain were replaced. *)
Lemma is_tab_update s s' ht cs i c c' R p n :
  is_tab s ht cs → cs !! i = Some c → mjoin cs ≡ₚ c ++ R →
  (∀ b, b ∈ R → s' !! b = s !! b) → same_codes s s' →
  mjoin (<[i:=c']> cs) ≡ₚ c' ++ R → NoDup (c' ++ R) →
  chain s' p c' →
  (∀ a m, a ∈ c' → s !! a = Some m → Z.land (hn_hash_code m) (ht_mask ht) = Z.of_nat i) →
  n = Z.of_nat (length (c' ++ R)) →
  is_tab s' (mkHashTab (ht_mask ht) n (<[i:=p]> (ht_tab ht))) (<[i:=c']> cs).
Proof.
  intros Htab Hi HR Hs Hcodes HR' Hnd Hp Hh Hn.
  pose proof Htab as [Hpow Hl Hc Hhash _ Hnd0].
  assert (HcR : ∀ j d b, j ≠ i → cs !! j = Some d → b ∈ d → b ∈ R).
  { intros j d b Hne Hj Hb.
    assert (b ∈ mjoin (<[i:=[]]> cs)) as Hb'.
    { apply list_elem_of_join. exists d. split; [done|].
      apply (list_elem_of_lookup_2 _ j). by rewrite list_lookup_insert_ne by done. }
    destruct (join_insert cs i c Hi) as (R2 & HR2 & HR2'). rewrite HR2' in Hb'. simpl in Hb'.
    rewrite HR in HR2. apply Permutation_app_inv_l in HR2. by rewrite HR2. }
  split; simpl.
  - done.
  - by rewrite length_insert.
  - apply Forall2_same_length_lookup. apply Forall2_same_length_lookup in Hc as [Hlen Hc].
    split; [by rewrite !length_insert|]. intros j q d.
    rewrite !list_lookup_insert_Some. intros [(<- & <- & _)|[? Hq]] [(? & <- & _)|[? Hd]];
      try done. eapply chain_frame; [|by eapply Hc]. eauto.
  - intros j d a m [(<- & <- & _)|[Hne Hd]]%list_lookup_insert_Some Ha Hm;
      apply (same_codes_lookup s s' a m Hcodes) in Hm as (m0 & Hm0 & <-); eauto.
  - by rewrite HR', Hn.
  - by rewrite HR'.
Qed.

(** * Operations on one table *)

Section ops.
Implicit Types (s : hash_heap) (ht : HashTab) (cs : list (list positive)) (a b : positive).

Lemma wp_tab_set s ht i v (Q : HashTab → hash_heap → Prop) :
  (i < length (ht_tab ht))%nat →
  Q (mkHashTab (ht_mask ht) (ht_size ht) (<[i:=v]> (ht_tab ht))) s →
  wp (tab_set ht (Z.of_nat i) v) s Q.
Proof.
  intros Hi HQ. unfold tab_set. rewrite lookupZ_nat, Nat2Z.id.
  by destruct (lookup_lt_is_Some_2 _ _ Hi) as [x ->].
Qed.

Lemma wp_ht_insert s ht cs a (Q : HashTab → hash_heap → Prop) :
  is_tab s ht cs → a ∉ mjoin cs → is_Some (s !! a) → ht_size ht < 2 ^ 60 →
  (∀ s' ht' cs', is_tab s' ht' cs' → mjoin cs' ≡ₚ a :: mjoin cs →
    ht_mask ht' = ht_mask ht → same_except [a] s s' → same_codes s s' → Q ht' s') →
  wp (ht_insert ht (Some a)) s Q.
Proof.
  intros Htab Hnin [n Ha] Hsz HQ. unfold ht_insert.
  destruct (tab_slot s ht cs Htab (hn_hash_code n)) as (i & c & p & Ei & Hi & Hp & Hc).
  wp_step. wp_step; [done|]. cbn [fget f_hash_code]. rewrite Ei.
  wp_step. eapply wp_tab_get; [done..|]. wp_step. wp_step; [done|].
  wp_step. apply wp_tab_set; [by eapply lookup_lt_Some|]. apply wp_ret.
  destruct (join_insert cs i c Hi) as (R & HR & HR').
  rewrite HR, not_elem_of_app in Hnin.
  assert (NoDup ((a :: c) ++ R)) as Hnd.
  { pose proof (it_nodup _ _ _ Htab) as Hnd. rewrite HR in Hnd. simpl. apply NoDup_cons.
    rewrite not_elem_of_app. tauto. }
  apply (HQ _ _ (<[i:=a :: c]> cs)); [..|done| |by apply same_codes_set_next].
  - eapply (is_tab_update s _ ht cs i c (a :: c) R); [done..| | | |done| | |].
    + intros b Hb. apply lookup_insert_ne. set_solver.
    + by apply same_codes_set_next.
    + apply HR'.
    + simpl. split; [done|]. eexists. split; [apply lookup_insert_eq|]. simpl.
      apply chain_head in Hc as Hh. rewrite <- Hh. eapply chain_frame; [|done].
      intros b Hb. apply lookup_insert_ne. set_solver.
    + intros b m [->|Hb]%elem_of_cons Hm; [by simplify_eq|].
      by eapply (it_hash _ _ _ Htab).
    + pose proof (tab_size_bound _ _ _ Htab). cbn [ht_size]. rewrite u64_small by lia.
      rewrite (it_size _ _ _ Htab), HR. simpl. lia.
  - rewrite HR', HR. done.
  - apply same_except_insert; [left|done].
Qed.

Lemma wp_link_after s ht cs i pre rest (Q : ptr → hash_heap → Prop) :
  is_tab s ht cs → cs !! i = Some (pre ++ rest) → Q (head rest) s →
  wp (hlink_get ht (link_after i pre)) s Q.
Proof.
  intros Htab Hi HQ. unfold link_after. destruct pre as [|q pre _] using rev_ind.
  - by eapply wp_tab_get.
  - rewrite last_snoc. simpl. destruct (tab_chain _ _ _ Htab _ _ Hi) as (p & _ & Hc).
    rewrite <- app_assoc in Hc. apply chain_last in Hc as (n & Hq & Hn).
    wp_step; [done|]. simpl. by rewrite Hn.
Qed.

Lemma wp_hlink_get s ht cs from b (Q : ptr → hash_heap → Prop) :
  is_tab s ht cs → is_link cs from b → Q (Some b) s → wp (hlink_get ht from) s Q.
Proof. intros Htab (i & pre & post & Hi & ->) HQ. by eapply wp_link_after. Qed.

Lemma wp_ht_detach s ht cs from b (Q : ptr * HashTab → hash_heap → Prop) :
  is_tab s ht cs → is_link cs from b → ht_size ht < 2 ^ 60 →
  (∀ s' ht' cs', is_tab s' ht' cs' → mjoin cs ≡ₚ b :: mjoin cs' →
    ht_mask ht' = ht_mask ht → same_except (mjoin cs) s s' → same_codes s s' →
    (∀ i, cs !! i = Some [] → cs' !! i = Some []) → Q (Some b, ht') s') →
  wp (ht_detach ht from) s Q.
Proof.
  intros Htab Hfrom Hsz HQ. unfold ht_detach.
  wp_step. eapply wp_hlink_get; [done..|].
  destruct Hfrom as (i & pre & post & Hi & ->).
  destruct (join_insert cs i _ Hi) as (R & HR & HR').
  pose proof (it_nodup _ _ _ Htab) as Hnd. rewrite HR in Hnd.
  pose proof (tab_chain _ _ _ Htab _ _ Hi) as (p & Hp & Hc).
  assert (Hnd2 : NoDup ((pre ++ post) ++ R) ∧ b ∉ (pre ++ post) ++ R).
  { rewrite <- app_assoc in Hnd. simpl in Hnd. apply NoDup_middle in Hnd.
    rewrite <- app_assoc. tauto. }
  assert (Hlen : u64 (ht_size ht - 1) = Z.of_nat (length ((pre ++ post) ++ R))).
  { rewrite (it_size _ _ _ Htab), HR in *. rewrite !length_app in *. simpl length in *.
    rewrite u64_small; lia. }
  destruct (chain_last _ _ _ _ _ Hc) as (nb & Hb & Hnext).
  wp_step. wp_step; [done|]. cbn [fget f_next].
  assert (Hh : ∀ a m, a ∈ pre ++ post → s !! a = Some m →
    Z.land (hn_hash_code m) (ht_mask ht) = Z.of_nat i).
  { intros a m Ha. eapply (it_hash _ _ _ Htab); [done|]. set_solver. }
  assert (Hres : ∀ s' p', chain s' p' (pre ++ post) → (∀ a, a ∈ R → s' !! a = s !! a) →
    same_codes s s' → same_except (mjoin cs) s s' →
    Q (Some b, mkHashTab (ht_mask ht) (u64 (ht_size ht - 1)) (<[i:=p']> (ht_tab ht))) s').
  { intros s' p' Hc' Hs Hcodes Hex.
    apply (HQ _ _ (<[i:=pre ++ post]> cs)); [|..|done|done|done|].
    - eapply is_tab_update; [done..|apply HR'|tauto|done|done|done].
    - rewrite HR, HR'. solve_Permutation.
    - intros j Hj. destruct (decide (i = j)) as [<-|Hne]; [|by rewrite list_lookup_insert_ne].
      rewrite Hi in Hj. by destruct pre. }
  unfold link_after. destruct pre as [|q pre _] using rev_ind.
  - simpl. wp_step. apply wp_tab_set; [by eapply lookup_lt_Some|]. apply wp_ret.
    apply Hres; [|done..]. simpl in Hc. destruct Hc as (-> & n & Hb' & Hc). by simplify_eq.
  - rewrite last_snoc. simpl. rewrite <- app_assoc in Hc. simpl in Hc.
    destruct (chain_last _ _ _ _ _ Hc) as (nq & Hq & _).
    wp_step. wp_step. wp_step; [done|]. apply wp_ret. apply wp_ret.
    replace (ht_set_size ht _) with
      (mkHashTab (ht_mask ht) (u64 (ht_size ht - 1)) (<[i:=p]> (ht_tab ht)))
      by (unfold ht_set_size; by rewrite (list_insert_id _ _ _ Hp)).
    apply Hres.
    + rewrite <- app_assoc. simpl. eapply chain_unlink; [|done..].
      apply NoDup_app in Hnd as (Hnd & _ & _). by rewrite <- app_assoc in Hnd.
    + intros a Ha. apply lookup_insert_ne. intros ->. destruct Hnd2 as [Hnd2 _].
      apply NoDup_app in Hnd2 as (_ & Hd & _). apply (Hd a); [set_solver|done].
    + by apply same_codes_set_next.
    + apply same_except_insert; [|done]. rewrite HR. set_solver.
Qed.

(** The node [b] has the key's hash code and compares equal to the key. *)
Definition key_match s (key_hash : Z) (eq : hash_eq) (b : positive) : Prop :=
  ∃ n, s !! b = Some n ∧ hn_hash_code n = key_hash ∧ eq b = Some true.

(** The comparison is defined on every node it may be called on. *)
Definition eq_defined s (key_hash : Z) (eq : hash_eq) (l : list positive) : Prop :=
  ∀ b n, b ∈ l → s !! b = Some n → hn_hash_code n = key_hash → is_Some (eq b).

Lemma wp_ht_lookup_loop s ht cs i pre rest fuel key_hash eq
    (Q : option hash_link → hash_heap → Prop) :
  is_tab s ht cs → cs !! i = Some (pre ++ rest) → eq_defined s key_hash eq (mjoin cs) →
  (length rest < fuel)%nat →
  (Forall (λ b, ¬ key_match s key_hash eq b) rest → Q None s) →
  (∀ from b, is_link cs from b → b ∈ rest → key_match s key_hash eq b → Q (Some from) s) →
  wp (ht_lookup_loop fuel ht key_hash eq (link_after i pre)) s Q.
Proof.
  intros Htab Hi Hdef. revert pre fuel Hi.
  induction rest as [|b rest IH]; intros pre [|fuel] Hi Hf HN HS;
    try (simpl in Hf; lia); cbn [ht_lookup_loop]; wp_step; eapply wp_link_after; try done.
  { by apply HN. }
  assert (Hb : b ∈ mjoin cs).
  { apply list_elem_of_join. eexists. split; [|by eapply list_elem_of_lookup_2]. set_solver. }
  destruct (tab_dom _ _ _ Htab _ Hb) as [n Hn].
  cbn [head]. wp_step. wp_step; [done|]. cbn [fget f_hash_code].
  assert (Hno : ¬ key_match s key_hash eq b →
    wp (ht_lookup_loop fuel ht key_hash eq (NextLink (Some b))) s Q).
  { intros Hnm. replace (NextLink (Some b)) with (link_after i (pre ++ [b]))
      by (unfold link_after; by rewrite last_snoc).
    apply IH; [by rewrite <- app_assoc|simpl in Hf; lia|auto|].
    intros from b' Hl Hb' Hm. eapply HS; [done|by right|done]. }
  wp_step. destruct (Z.eqb_spec (hn_hash_code n) key_hash) as [E|E].
  - destruct (Hdef b n Hb Hn E) as [[] Eb]; rewrite Eb; simpl.
    + apply wp_ret, wp_ret. eapply (HS _ b); [by exists i, pre, rest|left|].
      exists n. done.
    + apply wp_ret, Hno. intros (n' & Hn' & _ & Eb'). congruence.
  - apply wp_ret, Hno. intros (n' & Hn' & E' & _). simplify_eq.
Qed.

Lemma wp_ht_lookup s ht cs key_hash eq (Q : option hash_link → hash_heap → Prop) :
  is_tab s ht cs → eq_defined s key_hash eq (mjoin cs) →
  ((∀ b, b ∈ mjoin cs → ¬ key_match s key_hash eq b) → Q None s) →
  (∀ from b, is_link cs from b → b ∈ mjoin cs → key_match s key_hash eq b →
    Q (Some from) s) →
  wp (ht_lookup ht key_hash eq) s Q.
Proof.
  intros Htab Hdef HN HS. unfold ht_lookup. wp_step. wp_step.
  destruct (tab_slot s ht cs Htab key_hash) as (i & c & p & Ei & Hi & _ & Hc).
  rewrite Ei. assert (Hsub : ∀ b, b ∈ c → b ∈ mjoin cs).
  { intros b Hb. apply list_elem_of_join. exists c. split; [done|].
    by eapply list_elem_of_lookup_2. }
  eapply (wp_ht_lookup_loop _ _ _ i []); [done..| | |].
  - apply Nat.lt_succ_r, length_le_size; [|by eapply chain_dom].
    destruct (join_insert cs i c Hi) as (R & HR & _).
    pose proof (it_nodup _ _ _ Htab) as Hnd. rewrite HR in Hnd.
    by apply NoDup_app in Hnd as [Hnd _].
  - intros Hall. apply HN. intros b Hb Hm. pose proof Hm as (n & Hn & E & _).
    apply list_elem_of_join in Hb as (d & Hbd & [j Hj]%list_elem_of_lookup).
    pose proof (it_hash _ _ _ Htab j d b n Hj Hbd Hn) as Hij. rewrite E in Hij.
    rewrite Ei in Hij. apply Nat2Z.inj in Hij as <-. simplify_eq.
    by eapply Forall_forall in Hall.
  - intros from b Hl Hb. apply HS; auto.
Qed.

(** ** Iteration *)

(** Calling the callback on a list of nodes until it returns false. *)
Fixpoint foreach_list {A} (f : positive → A → option (bool * A)) (l : list positive)
    (arg : A) : option (bool * A) :=
  match l with
  | [] => Some (true, arg)
  | a :: l =>
      match f a arg with
      | Some (true, arg) => foreach_list f l arg
      | Some (false, arg) => Some (false, arg)
      | None => None
      end
  end.

Lemma foreach_list_app {A} (f : positive → A → option (bool * A)) l k arg :
  foreach_list f (l ++ k) arg =
    match foreach_list f l arg with
    | Some (true, arg) => foreach_list f k arg
    | r => r
    end.
Proof.
  revert arg. induction l as [|a l IH]; intros arg; simpl; [done|].
  destruct (f a arg) as [[[] arg']|]; auto.
Qed.

Lemma wp_foreach_chain {A} s f fuel p l (arg : A) r (Q : bool * A → hash_heap → Prop) :
  chain s p l → (length l < fuel)%nat → foreach_list f l arg = Some r → Q r s →
  wp (ht_foreach_chain fuel f p arg) s Q.
Proof.
  revert fuel p arg. induction l as [|a l IH]; intros [|fuel] p arg Hc Hf Hr HQ;
    try (simpl in Hf; lia); cbn [ht_foreach_chain chain foreach_list] in *.
  - subst p. simplify_eq. by apply wp_ret.
  - destruct Hc as (-> & n & Ha & Hc). destruct (f a arg) as [[[] arg']|]; [| |done]; simpl.
    + wp_step. apply wp_ret. simpl. wp_step. wp_step; [done|].
      apply IH; [done|simpl in Hf; lia|done..].
    + wp_step. apply wp_ret. simpl. simplify_eq. by apply wp_ret.
Qed.

Lemma wp_foreach_loop {A} s ht cs f fuel i (arg : A) r (Q : bool * A → hash_heap → Prop) :
  is_tab s ht cs → (i ≤ length cs)%nat → (length cs - i < fuel)%nat →
  foreach_list f (mjoin (drop i cs)) arg = Some r → Q r s →
  wp (ht_foreach_loop fuel ht f (Z.of_nat i) arg) s Q.
Proof.
  intros Htab. pose proof (tab_mask_bound _ _ _ Htab) as Hm.
  pose proof (it_length _ _ _ Htab) as Hl. rewrite <- (tab_length_cs _ _ _ Htab) in Hl.
  revert i arg. induction fuel as [|fuel IH]; intros i arg Hi Hf Hr HQ; [lia|].
  cbn [ht_foreach_loop]. destruct (Z.eqb_spec (ht_mask ht) 0); [lia|]. cbn [negb andb].
  destruct (Z.leb_spec (Z.of_nat i) (ht_mask ht)) as [Hle|Hgt].
  - destruct (lookup_lt_is_Some_2 cs i) as [c Hc]; [lia|].
    destruct (tab_chain _ _ _ Htab i c Hc) as (p & _ & Hp).
    rewrite (drop_S _ c) in Hr by done. cbn [mjoin list_join] in Hr.
    rewrite foreach_list_app in Hr.
    wp_step. eapply wp_tab_get; [done..|]. rewrite <- (chain_head _ _ _ Hp). wp_step. wp_step.
    assert (length c < S (size s))%nat.
    { apply Nat.lt_succ_r, length_le_size; [|by eapply chain_dom].
      destruct (join_insert cs i c Hc) as (R & HR & _).
      pose proof (it_nodup _ _ _ Htab) as Hnd. rewrite HR in Hnd.
      by apply NoDup_app in Hnd as [Hnd _]. }
    destruct (foreach_list f c arg) as [[[] arg']|] eqn:E; [| |done];
      wp_step; (eapply wp_foreach_chain; [done..|]); cbn [fst snd].
    + rewrite u64_small by lia. replace (Z.of_nat i + 1) with (Z.of_nat (S i)) by lia.
      apply IH; [lia|lia|done|done].
    + simplify_eq. by apply wp_ret.
  - rewrite drop_ge in Hr by lia. simplify_eq/=. by apply wp_ret.
Qed.

Lemma wp_ht_foreach {A} s ht cs f (arg : A) r (Q : bool * A → hash_heap → Prop) :
  is_tab s ht cs → foreach_list f (mjoin cs) arg = Some r → Q r s →
  wp (ht_foreach ht f arg) s Q.
Proof.
  intros Htab Hr HQ. unfold ht_foreach. apply (wp_foreach_loop s ht cs f _ 0 arg r); try done.
  - lia.
  - rewrite (tab_length_cs _ _ _ Htab). lia.
Qed.

(** ** A new table *)

Lemma wp_ht_make s k (Q : HashTab → hash_heap → Prop) :
  2 ≤ k ≤ 60 →
  (∀ ht cs, is_tab s ht cs → mjoin cs = [] → ht_mask ht = 2 ^ k - 1 → ht_size ht = 0 →
    Q ht s) →
  wp (ht_make (2 ^ k)) s Q.
Proof.
  intros Hk HQ. unfold ht_make.
  assert (2 ^ 2 ≤ 2 ^ k) by (apply Z.pow_le_mono_r; lia).
  assert (Hj : mjoin (replicate (Z.to_nat (2 ^ k)) []) = ([] : list positive)).
  { induction (Z.to_nat (2 ^ k)); simpl; done. }
  wp_step. wp_step.
  { rewrite andb_true_iff, Z.ltb_lt, Z.eqb_eq. split; [lia|].
    replace (2 ^ k - 1) with (Z.ones k) by (rewrite Z.ones_equiv; lia).
    rewrite Z.land_comm, Z.land_ones by lia. apply Z_mod_same_full. }
  apply wp_ret. apply (HQ _ (replicate (Z.to_nat (2 ^ k)) [])); [|done|done|done].
  split; simpl.
  - by exists k.
  - rewrite length_replicate. lia.
  - by apply Forall2_replicate.
  - intros i c a n [-> _]%lookup_replicate Ha. by apply elem_of_nil in Ha.
  - by rewrite Hj.
  - rewrite Hj. constructor.
Qed.
End ops.
