(* ===== verification/HashMap.v ===== *)
(** [HashMap] of container/hash_table.cc: two tables and the progressive
    migration between them represent one duplicate-free set of nodes.  The
    invariant also bounds the load of both tables, which shows that the table in
    migration is always drained before the next one is needed. *)
From S2P Require Import Prelude HashTable HashRep.

(** * Invariant *)

(** The number of nodes for which no [size_t] computation wraps. *)
Definition hash_max : Z := 2 ^ 58.

(** The migration that is under way: [newer] has twice the slots of [older], the
    slots of [older] before [migrate_pos] are empty, and [128] nodes per
    operation were moved since the migration began with [8] nodes per slot. *)
Record migrating (slack : Z) (newer older : HashTab) (migrate_pos : Z)
    (co : list (list positive)) : Prop := {
  mg_mask : ht_mask newer + 1 = 2 * (ht_mask older + 1);
  mg_pos : 0 ≤ migrate_pos ≤ Z.of_nat (length co);
  mg_empty : ∀ i, Z.of_nat i < migrate_pos → co !! i = Some [];
  mg_work : 128 * (ht_size newer + ht_size older) + ht_size older + slack ≤
              (128 * 8 + 8) * (ht_mask older + 1);
}.

(** The map [m] holds the nodes [l].  [slack] is [128] between operations; an
    insertion uses it up and the rehashing that follows restores it. *)
Definition hm_inv (slack : Z) (s : hash_heap) (m : HashMap) (l : list positive) : Prop :=
  NoDup l ∧ Z.of_nat (length l) ≤ hash_max ∧
  match hm_older m with
  | None => ∃ cn, is_tab s (hm_newer m) cn ∧ l ≡ₚ mjoin cn ∧
      ht_size (hm_newer m) < 8 * (ht_mask (hm_newer m) + 1)
  | Some o => ∃ cn co, is_tab s (hm_newer m) cn ∧ is_tab s o co ∧
      l ≡ₚ mjoin cn ++ mjoin co ∧ migrating slack (hm_newer m) o (hm_migrate_pos m) co
  end.

Abbreviation hm_rep := (hm_inv 128).

(** What an operation does to a migration: the number of slots stays; [k_rehashing_work]
    nodes leave [older], and up to [k] more, or the migration ends, which it does
    only when no more than that were left. *)
Definition drains (k : Z) (m m' : HashMap) : Prop :=
  ht_mask (hm_newer m') = ht_mask (hm_newer m) ∧
  match hm_older m, hm_older m' with
  | None, o' => o' = None
  | Some o, None => ht_size o ≤ k_rehashing_work
  | Some o, Some o' => ht_mask o' = ht_mask o ∧ 0 < ht_size o' + k ∧
      ht_size o - k_rehashing_work - k ≤ ht_size o' ≤ ht_size o - k_rehashing_work
  end.

Lemma drains_mono k k' m m' : k ≤ k' → drains k m m' → drains k' m m'.
Proof.
  unfold drains. intros Hk [? Hd]. split; [done|].
  destruct (hm_older m), (hm_older m'); [|done..]. destruct Hd. split; [done|lia].
Qed.

(** Detaching one node after the rehashing. *)
Lemma drains_detach m m1 m2 :
  drains 0 m m1 → ht_mask (hm_newer m2) = ht_mask (hm_newer m1) →
  match hm_older m1, hm_older m2 with
  | None, None => True
  | Some o1, Some o2 => ht_mask o2 = ht_mask o1 ∧ ht_size o1 - 1 ≤ ht_size o2 ≤ ht_size o1
  | _, _ => False
  end →
  drains 1 m m2.
Proof.
  unfold drains. intros [-> Hd] -> H. split; [done|].
  destruct (hm_older m), (hm_older m1), (hm_older m2); try done.
  destruct Hd, H. split; [congruence|lia].
Qed.

(** What an insertion does to the tables.  Without a migration, it starts one exactly
    when the table now has [k_max_load_factor] nodes per slot; the new table has twice the
    slots, and the first [k_rehashing_work] nodes move at once. *)
Definition inserts (m m' : HashMap) : Prop :=
  match hm_older m with
  | Some _ => drains 0 m m'
  | None =>
      let n := ht_size (hm_newer m) + 1 in
      let slots := ht_mask (hm_newer m) + 1 in
      if decide (n = k_max_load_factor * slots) then
        ht_mask (hm_newer m') + 1 = 2 * slots ∧
        match hm_older m' with
        | None => n ≤ k_rehashing_work
        | Some o => ht_mask o + 1 = slots ∧ 0 < ht_size o ∧ ht_size o = n - k_rehashing_work
        end
      else hm_older m' = None ∧ ht_mask (hm_newer m') + 1 = slots ∧ ht_size (hm_newer m') = n
  end.

(** * Frames *)

Lemma hm_inv_frame k s s' m l :
  (∀ b, b ∈ l → s' !! b = s !! b) → hm_inv k s m l → hm_inv k s' m l.
Proof.
  intros Hs (Hnd & Hlen & Hm). split_and!; [done..|].
  destruct (hm_older m) as [o|].
  - destruct Hm as (cn & co & Hn & Ho & Hl & Hg). exists cn, co.
    split_and!; [eapply is_tab_frame; [|done]..|done|done];
      intros b Hb; apply Hs; rewrite Hl; set_solver.
  - destruct Hm as (cn & Hn & Hl & Hg). exists cn. split_and!; [|done..].
    eapply is_tab_frame; [|done]. intros b Hb. apply Hs. by rewrite Hl.
Qed.

Lemma hm_inv_perm k s m l l' : l ≡ₚ l' → hm_inv k s m l → hm_inv k s m l'.
Proof.
  intros Hp (Hnd & Hlen & Hm). rewrite Hp in Hnd, Hlen. split_and!; [done..|].
  destruct (hm_older m).
  - destruct Hm as (cn & co & ? & ? & Hl & ?). exists cn, co.
    rewrite <- Hp. by split_and!.
  - destruct Hm as (cn & ? & Hl & ?). exists cn.
    rewrite <- Hp. by split_and!.
Qed.

Lemma hm_inv_dom k s m l : hm_inv k s m l → ∀ a, a ∈ l → is_Some (s !! a).
Proof.
  intros (_ & _ & Hm) a Ha. destruct (hm_older m) as [o|].
  - destruct Hm as (cn & co & Hn & Ho & Hl & _). rewrite Hl in Ha.
    apply elem_of_app in Ha as [Ha|Ha]; [by apply (tab_dom _ _ _ Hn)|by apply (tab_dom _ _ _ Ho)].
  - destruct Hm as (cn & Hn & Hl & _). rewrite Hl in Ha. by apply (tab_dom _ _ _ Hn).
Qed.

Lemma key_match_codes s s' h eq b :
  same_codes s s' → key_match s' h eq b → key_match s h eq b.
Proof.
  intros Hc (n & Hn & E & Eb). destruct (same_codes_lookup _ _ _ _ Hc Hn) as (n0 & Hn0 & E0).
  exists n0. by rewrite E0.
Qed.

Lemma same_codes_sym s s' : same_codes s s' → same_codes s' s.
Proof. intros H a. by rewrite H. Qed.

Lemma eq_defined_codes s s' h eq l :
  same_codes s s' → eq_defined s h eq l → eq_defined s' h eq l.
Proof.
  intros Hc Hd b n Hb Hn E. destruct (same_codes_lookup _ _ _ _ Hc Hn) as (n0 & Hn0 & E0).
  eapply Hd; [done..|congruence].
Qed.

(** * Rehashing *)

Section rehashing.
Implicit Types (s : hash_heap) (newer older : HashTab) (cn co : list (list positive)).

Lemma tab_nonempty s ht cs :
  is_tab s ht cs → 0 < ht_size ht → ∃ i c, cs !! i = Some c ∧ c ≠ [].
Proof.
  intros Htab Hs. rewrite (it_size _ _ _ Htab) in Hs.
  destruct (mjoin cs) as [|a l] eqn:E; [simpl in Hs; lia|].
  assert (a ∈ mjoin cs) as (c & Ha & [i Hi]%list_elem_of_lookup)%list_elem_of_join
    by (rewrite E; left).
  exists i, c. split; [done|]. by intros ->; apply elem_of_nil in Ha.
Qed.

(** One node moves from the head of a chain of [older] to [newer]. *)
Lemma wp_rehash_move s newer older cn co (p : nat) b post {A} (k : HashTab → HashTab → M hash_heap A)
    (Q : A → hash_heap → Prop) :
  is_tab s newer cn → is_tab s older co → NoDup (mjoin cn ++ mjoin co) →
  ht_size newer + ht_size older ≤ hash_max → co !! p = Some (b :: post) →
  (∀ s' newer' older' cn' co',
    is_tab s' newer' cn' → is_tab s' older' co' →
    mjoin cn' ++ mjoin co' ≡ₚ mjoin cn ++ mjoin co →
    ht_mask newer' = ht_mask newer → ht_mask older' = ht_mask older →
    same_except (mjoin cn ++ mjoin co) s s' → same_codes s s' → length co' = length co →
    (∀ i, co !! i = Some [] → co' !! i = Some []) →
    ht_size older' = ht_size older - 1 → ht_size newer' = ht_size newer + 1 → wp (k newer' older') s' Q) →
  wp (r ← ht_detach older (SlotLink (Z.of_nat p));
      newer ← ht_insert newer (r : ptr * HashTab).1;
      k newer r.2) s Q.
Proof.
  intros Hn Ho Hnd Hmax Hc HQ. pose proof (tab_size_bound _ _ _ Ho). pose proof (tab_size_bound _ _ _ Hn).
  pose proof (it_length _ _ _ Ho) as Hlen. rewrite <- (tab_length_cs _ _ _ Ho) in Hlen.
  pose proof Hnd as (Hndn & Hdisj & Hndo)%NoDup_app. unfold hash_max in Hmax.
  wp_step. eapply wp_ht_detach; [done| |lia|]; [by exists p, [], post|].
  intros s1 older' co' Ho1 Hperm Hmo Hs1 Hcodes1 Hempty.
  rewrite Hperm in Hndo. setoid_rewrite Hperm in Hdisj.
  assert (Hn1 : is_tab s1 newer cn).
  { eapply is_tab_frame; [|done]. intros x Hx. apply Hs1. rewrite Hperm. by apply Hdisj. }
  apply NoDup_cons in Hndo as [Hbo Hndo].
  assert (Hbn : b ∉ mjoin cn) by (intros Hb; apply (Hdisj _ Hb); left).
  destruct (tab_dom _ _ _ Ho b) as [nb Hnb]; [rewrite Hperm; left|].
  cbn [fst snd]. wp_step. eapply wp_ht_insert; [done|done| |lia|].
  { specialize (Hcodes1 b). rewrite Hnb in Hcodes1. by destruct (s1 !! b). }
  intros s2 newer' cn' Hn2 Hperm' Hmn Hs2 Hcodes2.
  assert (Ho2 : is_tab s2 older' co').
  { eapply is_tab_frame; [|done]. intros x Hx. apply Hs2. set_solver. }
  apply (HQ s2 newer' older' cn' co'); [done|done| |done|done| | | |exact Hempty| |].
  - rewrite Hperm, Hperm'. solve_Permutation.
  - apply (same_except_trans _ _ s1); eapply same_except_mono; [|exact Hs1| |exact Hs2].
    { clear. set_solver. }
    rewrite Hperm. clear. set_solver.
  - by eapply same_codes_trans.
  - pose proof (it_length _ _ _ Ho1) as Hl1. rewrite <- (tab_length_cs _ _ _ Ho1) in Hl1. lia.
  - rewrite (it_size _ _ _ Ho2), (it_size _ _ _ Ho), Hperm. simpl. lia.
  - rewrite (it_size _ _ _ Hn2), (it_size _ _ _ Hn), Hperm'. simpl. lia.
Qed.

Lemma wp_rehashing_loop s newer older pos nwork cn co fuel
    (Q : HashTab * HashTab * Z → hash_heap → Prop) :
  is_tab s newer cn → is_tab s older co → NoDup (mjoin cn ++ mjoin co) →
  ht_size newer + ht_size older ≤ hash_max →
  0 ≤ pos ≤ Z.of_nat (length co) → (∀ i, Z.of_nat i < pos → co !! i = Some []) →
  0 ≤ nwork ≤ 128 →
  (128 - nwork) + (Z.of_nat (length co) - pos) < Z.of_nat fuel →
  (∀ s' newer' older' pos' cn' co',
    is_tab s' newer' cn' → is_tab s' older' co' →
    mjoin cn' ++ mjoin co' ≡ₚ mjoin cn ++ mjoin co →
    ht_mask newer' = ht_mask newer → ht_mask older' = ht_mask older →
    same_except (mjoin cn ++ mjoin co) s s' → same_codes s s' →
    0 ≤ pos' ≤ Z.of_nat (length co') → (∀ i, Z.of_nat i < pos' → co' !! i = Some []) →
    ht_size older' = Z.max 0 (ht_size older - (128 - nwork)) →
    Q (newer', older', pos') s') →
  wp (rehashing_loop fuel newer older pos nwork) s Q.
Proof.
  revert s newer older pos nwork cn co. induction fuel as [|fuel IH];
    intros s newer older pos nwork cn co Hn Ho Hnd Hmax Hpos He Hw Hf HQ; [lia|].
  cbn [rehashing_loop]. unfold k_rehashing_work.
  pose proof (tab_size_bound _ _ _ Ho). pose proof (tab_size_bound _ _ _ Hn).
  destruct (Z.ltb_spec nwork 128) as [Hw'|Hw']; cbn [andb].
  2: { apply wp_ret. eapply HQ; try done. lia. }
  destruct (Z.ltb_spec 0 (ht_size older)) as [Hsz|Hsz]; cbn [andb].
  2: { apply wp_ret. eapply HQ; try done. lia. }
  destruct (tab_nonempty _ _ _ Ho Hsz) as (i & d & Hi & Hd).
  assert (Hpi : pos ≤ Z.of_nat i).
  { destruct (Z.le_gt_cases pos (Z.of_nat i)) as [|Hlt]; [done|].
    rewrite He in Hi by lia. by simplify_eq. }
  pose proof (lookup_lt_Some _ _ _ Hi) as Hilen.
  destruct (lookup_lt_is_Some_2 co (Z.to_nat pos)) as [c Hc]; [lia|].
  pose proof (tab_mask_bound _ _ _ Ho) as Hmb. pose proof (it_length _ _ _ Ho) as Hlen.
  rewrite <- (tab_length_cs _ _ _ Ho) in Hlen.
  rewrite <- (Z2Nat.id pos) by lia. set (p := Z.to_nat pos) in *.
  wp_step. cbn [hlink_get]. eapply wp_tab_get; [done..|].
  destruct c as [|b post]; cbn [head].
  - rewrite u64_small by lia. replace (Z.of_nat p + 1) with (Z.of_nat (S p)) by lia.
    eapply IH; [done..|lia| |done|lia|done]. intros j Hj.
    destruct (decide (j = p)) as [->|]; [done|]. apply He. lia.
  - apply (wp_rehash_move s newer older cn co p b post
      (λ newer older, rehashing_loop fuel newer older (Z.of_nat p) (nwork + 1))); [done..|].
    intros s2 newer' older' cn' co' Hn2 Ho2 Hall Hmn Hmo Hs2 Hcodes2 Hlen' Hempty Hso Hsn.
    eapply (IH s2 newer' older' _ _ cn' co'); [done|done|by rewrite Hall|lia|lia| |lia|lia|].
    + intros j Hj. apply Hempty, He. lia.
    + intros s3 n3 o3 p3 cn3 co3 ? ? Hp3 ? ? Hs3 ? ? ? ?.
      eapply (HQ s3 n3 o3 p3 cn3 co3); [done|done|by rewrite Hp3|congruence..| | |done|done|lia].
      * rewrite Hall in Hs3. by eapply same_except_trans.
      * by eapply same_codes_trans.
Qed.

Lemma wp_rehashing s m l (Q : HashMap → hash_heap → Prop) :
  hm_inv 0 s m l →
  (∀ s' m', hm_rep s' m' l → same_except l s s' → same_codes s s' → drains 0 m m' →
    (hm_older m = None → m' = m) → Q m' s') →
  wp (rehashing m) s Q.
Proof.
  intros (Hnd & Hlen & Hm) HQ. unfold rehashing, drains in *.
  destruct (hm_older m) as [o|] eqn:Eo.
  2: { apply wp_ret. apply HQ; [|done|done|by rewrite Eo|done]. split_and!; [done..|]. by rewrite Eo. }
  destruct Hm as (cn & co & Hn & Ho & Hl & [Hmask Hpos He Hwork]).
  rewrite Hl in Hnd, Hlen. rewrite length_app in Hlen.
  pose proof (it_size _ _ _ Hn) as Hsn. pose proof (it_size _ _ _ Ho) as Hso.
  pose proof (tab_mask_bound _ _ _ Ho) as Hmo.
  wp_step. eapply wp_rehashing_loop; [done..|lia|lia|done|lia| |].
  { rewrite <- (tab_length_cs _ _ _ Ho). unfold k_rehashing_work. lia. }
  intros s' n' o' p' cn' co' Hn' Ho' Hperm Hmn Hmo' Hs Hcodes Hpos' He' Hsz'.
  rewrite <- Hl in Hs. pose proof (it_size _ _ _ Hn') as Hsn'.
  pose proof (it_size _ _ _ Ho') as Hso'.
  assert (Htot : ht_size n' + ht_size o' = ht_size (hm_newer m) + ht_size o).
  { apply Permutation_length in Hperm. rewrite !length_app in Hperm. lia. }
  unfold k_rehashing_work in *.
  destruct (Z.eqb_spec (ht_size o') 0) as [E|E]; apply wp_ret; apply HQ; try done;
    try (simpl; lia).
  - rewrite Hso' in E. assert (mjoin co' = []) as Hnil
      by (apply length_zero_iff_nil; lia).
    rewrite Hnil, app_nil_r in Hperm. unfold hm_inv. simpl.
    split_and!; [by rewrite Hl|by rewrite Hl, length_app|].
    exists cn'. split_and!; [done|by rewrite Hl, Hperm|]. lia.
  - unfold hm_inv. simpl. split_and!; [by rewrite Hl|by rewrite Hl, length_app|].
    exists cn', co'. split_and!; [done..|by rewrite Hl, Hperm|]. split; [lia|done|done|lia].
Qed.

Lemma hm_inv_slack k k' s m l : k' ≤ k → hm_inv k s m l → hm_inv k' s m l.
Proof.
  intros Hk (Hnd & Hlen & Hm). split_and!; [done..|]. destruct (hm_older m); [|done].
  destruct Hm as (cn & co & ? & ? & ? & []). exists cn, co. split_and!; [done..|].
  split; [done..|lia].
Qed.
End rehashing.

(** * The operations *)

Section ops.
Implicit Types (s : hash_heap) (m : HashMap) (l : list positive) (a b : positive).

Lemma wp_hm_new s (Q : HashMap → hash_heap → Prop) :
  (∀ m, hm_rep s m [] → Q m s) → wp hm_new s Q.
Proof.
  intros HQ. unfold hm_new. wp_step. apply (wp_ht_make s 2); [lia|].
  intros ht cs Htab Hcs Hmask Hsz. apply wp_ret, HQ. split_and!; [constructor|done|].
  simpl. exists cs. rewrite Hcs, Hmask, Hsz. done.
Qed.

Lemma hm_size_length s m l : hm_rep s m l → hm_size m = Z.of_nat (length l).
Proof.
  intros (_ & Hlen & Hm). unfold hm_size, hash_max in *. destruct (hm_older m) as [o|].
  - destruct Hm as (cn & co & Hn & Ho & Hl & _). rewrite Hl, length_app in *.
    rewrite (it_size _ _ _ Hn), (it_size _ _ _ Ho), u64_small; lia.
  - destruct Hm as (cn & Hn & Hl & _). rewrite Hl in *.
    rewrite (it_size _ _ _ Hn), u64_small; lia.
Qed.

(** A full table starts a migration; the new table is empty. *)
Lemma wp_inspect_rehashing s newer pos cn (Q : HashMap → hash_heap → Prop) :
  is_tab s newer cn → Z.of_nat (length (mjoin cn)) ≤ hash_max →
  ht_size newer ≤ 8 * (ht_mask newer + 1) →
  (∀ m, hm_inv 0 s m (mjoin cn) →
    (if decide (ht_size newer = 8 * (ht_mask newer + 1)) then
       ht_mask (hm_newer m) + 1 = 2 * (ht_mask newer + 1) ∧ hm_older m = Some newer
     else m = mkHashMap newer None pos) → Q m s) →
  wp (inspect_rehashing (mkHashMap newer None pos)) s Q.
Proof.
  intros Hn Hmax Hsz HQ. unfold inspect_rehashing, k_max_load_factor. simpl.
  pose proof (tab_mask_bound _ _ _ Hn) as Hmb. rewrite !(u64_small (_ + 1)) by lia.
  rewrite u64_small by lia. pose proof (it_size _ _ _ Hn) as Hs.
  pose proof (it_nodup _ _ _ Hn) as Hnd.
  destruct (Z.leb_spec ((ht_mask newer + 1) * 8) (ht_size newer)) as [Hle|Hlt].
  - destruct (it_pow _ _ _ Hn) as (k & Hk & Ek). unfold hash_max in Hmax.
    assert (k < 60).
    { destruct (Z.lt_ge_cases k 60) as [|Hge]; [done|]. replace k with 60 in * by lia. lia. }
    replace (u64 ((ht_mask newer + 1) * 2)) with (2 ^ (k + 1)).
    2: { rewrite u64_small by lia. rewrite Ek, Z.pow_add_r by lia. lia. }
    wp_step. apply wp_ht_make; [lia|]. intros ht cs Htab Hcs Hmask Hsz0.
    apply wp_ret, HQ.
    2: { rewrite decide_True by lia. simpl. rewrite Hmask, Ek, Z.pow_add_r by lia. split; [lia|done]. }
    split_and!; [done|unfold hash_max; lia|]. simpl. exists cs, cn. rewrite Hcs. split_and!; [done..|].
    split; [|lia|lia|lia]. rewrite Hmask, Ek, Z.pow_add_r by lia. lia.
  - apply wp_ret, HQ; [|by rewrite decide_False by lia].
    split_and!; [done|done|]. simpl. exists cn. split_and!; [done..|lia].
Qed.

Lemma wp_hm_insert s m l a (Q : HashMap → hash_heap → Prop) :
  hm_rep s m l → a ∉ l → is_Some (s !! a) → Z.of_nat (length l) < hash_max →
  (∀ s' m', hm_rep s' m' (a :: l) → same_except (a :: l) s s' → same_codes s s' →
    inserts m m' → Q m' s') →
  wp (hm_insert m (Some a)) s Q.
Proof.
  intros (Hnd & _ & Hm) Ha Hsa Hlen HQ. unfold hm_insert.
  assert (Hmax : Z.of_nat (length (a :: l)) ≤ hash_max) by (simpl; lia).
  assert (Hre : ∀ s1 m1 l', l' ≡ₚ a :: l → hm_inv 0 s1 m1 l' → same_except [a] s s1 →
    same_codes s s1 →
    (∀ m2, drains 0 m1 m2 → (hm_older m1 = None → m2 = m1) → inserts m m2) →
    wp (rehashing m1) s1 Q).
  { intros s1 m1 l' Hl' Hm1 Hs1 Hc1 Hi. eapply wp_rehashing; [by eapply hm_inv_perm|].
    intros s2 m2 Hm2 Hs2 Hc2 Hd Hd'.
    apply HQ; [done| |by eapply same_codes_trans|by apply Hi].
    eapply same_except_trans; [|done]. eapply same_except_mono; [|done]. set_solver. }
  assert (Hins : ∀ cn (Q : HashTab → hash_heap → Prop), is_tab s (hm_newer m) cn →
    mjoin cn ⊆ l → (length (mjoin cn) ≤ length l)%nat →
    (∀ s' ht' cs', is_tab s' ht' cs' → mjoin cs' ≡ₚ a :: mjoin cn →
      ht_mask ht' = ht_mask (hm_newer m) → ht_size ht' = ht_size (hm_newer m) + 1 →
      same_except [a] s s' → same_codes s s' → Q ht' s') →
    wp (ht_insert (hm_newer m) (Some a)) s Q).
  { intros cn Q' Hn Hsub Hle HQ'. eapply wp_ht_insert; [done|set_solver|done| |].
    - rewrite (it_size _ _ _ Hn). unfold hash_max in Hlen. lia.
    - intros s1 n1 cn1 Hn1 Hp ? ? ?. apply (HQ' s1 n1 cn1); try done.
      rewrite (it_size _ _ _ Hn1), (it_size _ _ _ Hn), Hp. simpl. lia. }
  destruct (hm_older m) as [o|] eqn:Eo; wp_step.
  - destruct Hm as (cn & co & Hn & Ho & Hl & [Hmask Hpos He Hwork]).
    eapply (Hins cn); [done|rewrite Hl; set_solver|rewrite Hl, length_app; lia|].
    intros s1 n1 cn1 Hn1 Hp Hm1 Hsz1 Hs1 Hc1. wp_step. apply wp_ret.
    apply (Hre s1 _ (a :: l)); [done| |done|done|].
    2: { intros m2 [Hd1 Hd2] _. unfold inserts, drains. rewrite Eo. by rewrite <- Hm1. }
    split_and!; [by apply NoDup_cons|done|]. simpl. exists cn1, co.
    split_and!; [done| |by rewrite Hp, Hl|split; [lia|done|done|lia]].
    eapply is_tab_frame; [|done]. intros x Hx. apply Hs1. intros ->%list_elem_of_singleton.
    apply Ha. rewrite Hl. set_solver.
  - destruct Hm as (cn & Hn & Hl & Hsz).
    eapply (Hins cn); [done|by rewrite Hl|by rewrite Hl|].
    intros s1 n1 cn1 Hn1 Hp Hm1 Hsz1 Hs1 Hc1. wp_step.
    eapply wp_inspect_rehashing; [done| |lia|].
    { rewrite Hp, <- Hl. done. }
    intros m2 Hm2 Hst. apply (Hre s1 _ (mjoin cn1)); [by rewrite Hp, Hl|done..|].
    intros m3 [Hd1 Hd2] Hd3. unfold inserts, k_max_load_factor. rewrite Eo, <- Hsz1, <- Hm1.
    destruct (decide _) as [E|E].
    + destruct Hst as [Hst Est]. rewrite Est in Hd2. split; [lia|].
      destruct (hm_older m3); [|done]. destruct Hd2. split; lia.
    + subst m2. by rewrite (Hd3 eq_refl).
Qed.

(** Searching both tables. *)
Lemma wp_hm_lookup s m l h eq (Q : ptr * HashMap → hash_heap → Prop) :
  hm_rep s m l → eq_defined s h eq l →
  (∀ s' m' r, hm_rep s' m' l → same_except l s s' → same_codes s s' → drains 0 m m' →
    match r with
    | None => ∀ b, b ∈ l → ¬ key_match s h eq b
    | Some b => b ∈ l ∧ key_match s h eq b
    end → Q (r, m') s') →
  wp (hm_lookup m h eq) s Q.
Proof.
  intros Hm Hdef HQ. unfold hm_lookup. wp_step.
  eapply wp_rehashing; [by eapply hm_inv_slack; [|done]|].
  intros s1 m1 Hm1 Hs1 Hc1 Hdr _. pose proof Hm1 as (_ & _ & Ht).
  pose proof (eq_defined_codes _ _ _ _ _ Hc1 Hdef) as Hdef1.
  assert (Hk : ∀ b, key_match s1 h eq b ↔ key_match s h eq b).
  { intros b. split; apply key_match_codes; [done|by apply same_codes_sym]. }
  destruct (hm_older m1) as [o|].
  - destruct Ht as (cn & co & Hn & Ho & Hl & _). wp_step. eapply wp_ht_lookup; [done| | |].
    + intros b n Hb. apply Hdef1. rewrite Hl. set_solver.
    + intros HN. wp_step. eapply wp_ht_lookup; [done| | |].
      * intros b n Hb. apply Hdef1. rewrite Hl. set_solver.
      * intros HN'. apply wp_ret. apply HQ; [done..|]. intros b. rewrite Hl, <- Hk.
        intros [Hb|Hb]%elem_of_app; auto.
      * intros from b Hlk Hb Hmt. wp_step. eapply wp_hlink_get; [done..|]. apply wp_ret.
        apply HQ; [done..|]. rewrite Hl, <- Hk. split; [set_solver|done].
    + intros from b Hlk Hb Hmt. wp_step. eapply wp_hlink_get; [done..|]. apply wp_ret.
      apply HQ; [done..|]. rewrite Hl, <- Hk. split; [set_solver|done].
  - destruct Ht as (cn & Hn & Hl & _). wp_step. eapply wp_ht_lookup; [done| | |].
    + intros b n Hb. apply Hdef1. by rewrite Hl.
    + intros HN. apply wp_ret. apply HQ; [done..|]. intros b. rewrite Hl, <- Hk. auto.
    + intros from b Hlk Hb Hmt. wp_step. eapply wp_hlink_get; [done..|]. apply wp_ret.
      apply HQ; [done..|]. by rewrite Hl, <- Hk.
Qed.

(** Removing a found node from either table keeps the invariant. *)
Lemma wp_detach_newer s m cn co from b l (Q : ptr * HashTab → hash_heap → Prop) :
  hm_rep s m l → is_tab s (hm_newer m) cn → l ≡ₚ mjoin cn ++ co →
  (match hm_older m with
   | None => co = []
   | Some o => ∃ cs, co = mjoin cs ∧ is_tab s o cs ∧
       migrating 128 (hm_newer m) o (hm_migrate_pos m) cs
   end) →
  is_link cn from b →
  (∀ s' n' l', l ≡ₚ b :: l' → hm_rep s' (mkHashMap n' (hm_older m) (hm_migrate_pos m)) l' →
    same_except l s s' → same_codes s s' → ht_mask n' = ht_mask (hm_newer m) →
    Q (Some b, n') s') →
  wp (ht_detach (hm_newer m) from) s Q.
Proof.
  intros (Hnd & Hlen & Hm) Hn Hl Ho Hlk HQ. rewrite Hl in Hnd, Hlen.
  rewrite length_app in Hlen. unfold hash_max in Hlen. pose proof (it_size _ _ _ Hn) as Hsz.
  eapply wp_ht_detach; [done|done|lia|]. intros s1 n1 cn1 Hn1 Hp Hmask Hs1 Hc1 _.
  pose proof (it_size _ _ _ Hn1) as Hsz1. rewrite Hp in Hsz, Hnd, Hlen. simpl in Hsz, Hnd, Hlen.
  apply (HQ s1 n1 (mjoin cn1 ++ co)); [by rewrite Hl, Hp| | |done|done].
  - split_and!; [by apply NoDup_cons in Hnd as [_ ?]|rewrite length_app; unfold hash_max; lia|].
    simpl. destruct (hm_older m) as [o|].
    + destruct Ho as (cs & -> & Ho & [? ? ? ?]). exists cn1, cs. split_and!; [done| |done|].
      * eapply is_tab_frame; [|done]. intros x Hx. apply Hs1. rewrite Hp.
        change (b :: mjoin cn1 ++ mjoin cs) with ((b :: mjoin cn1) ++ mjoin cs) in Hnd.
        apply NoDup_app in Hnd as (_ & Hd & _). intros Hx'. by apply (Hd x).
      * split; [lia|done|done|lia].
    + subst co. exists cn1. rewrite app_nil_r. split_and!; [done|done|].
      destruct Hm as (cn' & Hn' & Hl' & Hlt). lia.
  - eapply same_except_mono; [|done]. rewrite Hl. set_solver.
Qed.

Lemma wp_detach_older s m o cn co from b l (Q : ptr * HashTab → hash_heap → Prop) :
  hm_rep s m l → is_tab s (hm_newer m) cn → is_tab s o co → l ≡ₚ mjoin cn ++ mjoin co →
  migrating 128 (hm_newer m) o (hm_migrate_pos m) co → is_link co from b →
  (∀ s' o' l', l ≡ₚ b :: l' →
    hm_rep s' (mkHashMap (hm_newer m) (Some o') (hm_migrate_pos m)) l' →
    same_except l s s' → same_codes s s' → ht_mask o' = ht_mask o → ht_size o' = ht_size o - 1 →
    Q (Some b, o') s') →
  wp (ht_detach o from) s Q.
Proof.
  intros (Hnd & Hlen & _) Hn Ho Hl [Hmask Hpos He Hwork] Hlk HQ. rewrite Hl in Hnd, Hlen.
  rewrite length_app in Hlen. unfold hash_max in Hlen. pose proof (it_size _ _ _ Ho) as Hsz.
  eapply wp_ht_detach; [done|done|lia|]. intros s1 o1 co1 Ho1 Hp Hm1 Hs1 Hc1 He1.
  pose proof (it_size _ _ _ Ho1) as Hsz1. rewrite Hp in Hsz, Hnd, Hlen. simpl in Hsz, Hlen.
  assert (Hlen1 : length co1 = length co).
  { pose proof (it_length _ _ _ Ho) as E. pose proof (it_length _ _ _ Ho1) as E1.
    rewrite <- (tab_length_cs _ _ _ Ho) in E. rewrite <- (tab_length_cs _ _ _ Ho1) in E1. lia. }
  apply (HQ s1 o1 (mjoin cn ++ mjoin co1)); [rewrite Hl, Hp; solve_Permutation| | |done|done|lia].
  - rewrite <- Permutation_middle in Hnd.
    split_and!; [by apply NoDup_cons in Hnd as [_ ?]|rewrite length_app; unfold hash_max; lia|].
    simpl. exists cn, co1. split_and!; [|done|done|split; [lia|lia|auto|lia]].
    eapply is_tab_frame; [|done]. intros x Hx. apply Hs1. rewrite Hp. intros Hx'.
    change (b :: mjoin cn ++ mjoin co1) with ([b] ++ mjoin cn ++ mjoin co1) in Hnd.
    rewrite !NoDup_app in Hnd. set_solver.
  - eapply same_except_mono; [|done]. rewrite Hl. set_solver.
Qed.

Lemma wp_hm_remove s m l h eq (Q : ptr * HashMap → hash_heap → Prop) :
  hm_rep s m l → eq_defined s h eq l →
  (∀ s' m' r, same_except l s s' → same_codes s s' → drains 1 m m' →
    match r with
    | None => hm_rep s' m' l ∧ ∀ b, b ∈ l → ¬ key_match s h eq b
    | Some b => key_match s h eq b ∧ ∃ l', l ≡ₚ b :: l' ∧ hm_rep s' m' l'
    end → Q (r, m') s') →
  wp (hm_remove m h eq) s Q.
Proof.
  intros Hm Hdef HQ. unfold hm_remove. wp_step.
  eapply wp_rehashing; [by eapply hm_inv_slack; [|done]|].
  intros s1 m1 Hm1 Hs1 Hc1 Hdr _. pose proof Hm1 as (_ & _ & Ht).
  pose proof (eq_defined_codes _ _ _ _ _ Hc1 Hdef) as Hdef1.
  assert (Hk : ∀ b, key_match s1 h eq b ↔ key_match s h eq b).
  { intros b. split; apply key_match_codes; [done|by apply same_codes_sym]. }
  assert (HS : ∀ s2 m2 b l', key_match s1 h eq b → l ≡ₚ b :: l' → hm_rep s2 m2 l' →
    same_except l s1 s2 → same_codes s1 s2 → drains 1 m m2 → Q (Some b, m2) s2).
  { intros s2 m2 b l' Hb Hl' Hm2 Hs2 Hc2 Hd2. apply HQ; [by eapply same_except_trans|
      by eapply same_codes_trans|done|]. rewrite <- Hk. eauto. }
  destruct (hm_older m1) as [o|] eqn:Eo.
  - destruct Ht as (cn & co & Hn & Ho & Hl & Hg). wp_step. eapply wp_ht_lookup; [done| | |].
    + intros b n Hb. apply Hdef1. rewrite Hl. set_solver.
    + intros HN. wp_step. eapply wp_ht_lookup; [done| | |].
      * intros b n Hb. apply Hdef1. rewrite Hl. set_solver.
      * intros HN'. apply wp_ret. apply HQ; [done..|by eapply drains_mono, Hdr|]. split; [done|]. intros b.
        rewrite Hl, <- Hk. intros [Hb|Hb]%elem_of_app; auto.
      * intros from b Hlk Hb Hmt. wp_step. eapply wp_detach_older; [done..|].
        intros s2 o2 l' Hl' Hm2 Hs2 Hc2 Hmo Hso. apply wp_ret.
        eapply HS; [done..|]. eapply drains_detach; [done|done|]. rewrite Eo. simpl. lia.
    + intros from b Hlk Hb Hmt. wp_step. eapply (wp_detach_newer _ _ cn (mjoin co)); [done..| |done|].
      { rewrite Eo. by exists co. }
      intros s2 n2 l' Hl' Hm2 Hs2 Hc2 Hmn. apply wp_ret. rewrite Eo in *.
      eapply HS; [done..|]. eapply drains_detach; [done|done|]. rewrite Eo. simpl. lia.
  - destruct Ht as (cn & Hn & Hl & Hg). wp_step. eapply wp_ht_lookup; [done| | |].
    + intros b n Hb. apply Hdef1. by rewrite Hl.
    + intros HN. apply wp_ret. apply HQ; [done..|by eapply drains_mono, Hdr|]. split; [done|]. intros b.
      rewrite Hl, <- Hk. auto.
    + intros from b Hlk Hb Hmt. wp_step.
      eapply (wp_detach_newer _ _ cn []); [done|done|by rewrite app_nil_r|by rewrite Eo|done|].
      intros s2 n2 l' Hl' Hm2 Hs2 Hc2 Hmn. apply wp_ret. rewrite Eo in *.
      eapply HS; [done..|]. eapply drains_detach; [done|done|]. by rewrite Eo.
Qed.

(** [foreach] on the newer table, then on the older one, whatever the callback
    said in the newer table. *)
Lemma wp_hm_foreach {A} s m l f (arg : A) (Q : A → hash_heap → Prop) :
  hm_rep s m l →
  (∀ l1 l2, l ≡ₚ l1 ++ l2 → ∃ r1 r2, foreach_list f l1 arg = Some r1 ∧
    foreach_list f l2 r1.2 = Some r2 ∧ Q r2.2 s) →
  wp (hm_foreach m f arg) s Q.
Proof.
  intros (Hnd & Hlen & Hm) HQ. unfold hm_foreach. destruct (hm_older m) as [o|].
  - destruct Hm as (cn & co & Hn & Ho & Hl & _).
    destruct (HQ _ _ Hl) as (r1 & r2 & H1 & H2 & H3).
    wp_step. eapply wp_ht_foreach; [done..|]. wp_step. eapply wp_ht_foreach; [done..|].
    by apply wp_ret.
  - destruct Hm as (cn & Hn & Hl & _).
    destruct (HQ (mjoin cn) []) as (r1 & r2 & H1 & H2 & H3); [by rewrite app_nil_r|].
    simpl in H2. simplify_eq. wp_step. eapply wp_ht_foreach; [done..|]. by apply wp_ret.
Qed.
End ops.
