(* ===== verification/HashIndex.v ===== *)
(** The interface that [HashMap] offers to its clients (the sorted sets of zset.cc
    and the key space of main.cc): an index of nodes by key.  The client chooses
    the type of keys, their hash function, and the comparison it passes in; the
    index then behaves as a finite map from keys to nodes. *)
From S2P Require Import Prelude HashTable HashRep HashMap.

(** What a client relies on.  [ni_rep s m M]: in the store [s] of nodes, [m] is an
    index of the nodes [M]. *)
Class NodeIndex (K : Type) `{Countable K} (hashf : K → Z) : Type := {
  ni_rep : hash_heap → HashMap → gmap K positive → Prop;

  (** The nodes of an index are allocated and carry the hash code of their key;
      other nodes do not matter to it. *)
  ni_node s m M k a : ni_rep s m M → M !! k = Some a →
    hn_hash_code <$> s !! a = Some (hashf k);
  ni_inj s m M k k' a : ni_rep s m M → M !! k = Some a → M !! k' = Some a → k = k';
  ni_frame s s' m M : ni_rep s m M →
    (∀ k a, M !! k = Some a → s' !! a = s !! a) → ni_rep s' m M;

  ni_new s (Q : HashMap → hash_heap → Prop) :
    (∀ m, ni_rep s m ∅ → Q m s) → wp hm_new s Q;
  ni_size s m M : ni_rep s m M → hm_size m = Z.of_nat (size M);
  ni_insert s m M k a (Q : HashMap → hash_heap → Prop) :
    ni_rep s m M → M !! k = None → (∀ k', M !! k' ≠ Some a) →
    hn_hash_code <$> s !! a = Some (hashf k) → Z.of_nat (size M) < hash_max →
    (∀ s' m', ni_rep s' m' (<[k:=a]> M) →
      (∀ b, b ≠ a → (∀ k', M !! k' ≠ Some b) → s' !! b = s !! b) → same_codes s s' →
      Q m' s') →
    wp (hm_insert m (Some a)) s Q;
  ni_lookup s m M k eq (Q : ptr * HashMap → hash_heap → Prop) :
    ni_rep s m M →
    (∀ k' a, M !! k' = Some a → hashf k' = hashf k → eq a = Some (bool_decide (k' = k))) →
    (∀ s' m', ni_rep s' m' M → (∀ b, (∀ k', M !! k' ≠ Some b) → s' !! b = s !! b) →
      same_codes s s' → Q (M !! k, m') s') →
    wp (hm_lookup m (hashf k) eq) s Q;
  ni_remove s m M k eq (Q : ptr * HashMap → hash_heap → Prop) :
    ni_rep s m M →
    (∀ k' a, M !! k' = Some a → hashf k' = hashf k → eq a = Some (bool_decide (k' = k))) →
    (∀ s' m', ni_rep s' m' (delete k M) →
      (∀ b, (∀ k', M !! k' ≠ Some b) → s' !! b = s !! b) →
      same_codes s s' → Q (M !! k, m') s') →
    wp (hm_remove m (hashf k) eq) s Q;
  ni_foreach {A} s m M (f : positive → A → option (bool * A)) (g : positive → A → A) arg
      (Q : A → hash_heap → Prop) :
    ni_rep s m M → (∀ k a x, M !! k = Some a → f a x = Some (true, g a x)) →
    (∀ l, l ≡ₚ (map_to_list M).*2 → Q (foldl (flip g) arg l) s) → wp (hm_foreach m f arg) s Q;
}.

(** * [HashMap] implements the interface *)

Section instance.
Context {K : Type} `{Countable K} (hashf : K → Z).
Implicit Types (s : hash_heap) (m : HashMap) (M : gmap K positive).

Record idx_nodes s M (l : list positive) : Prop := {
  in_elem : ∀ a, a ∈ l ↔ ∃ k, M !! k = Some a;
  in_code : ∀ k a, M !! k = Some a → hn_hash_code <$> s !! a = Some (hashf k);
  in_inj : ∀ k k' a, M !! k = Some a → M !! k' = Some a → k = k';
}.

Definition idx_rep s m M : Prop := ∃ l, hm_rep s m l ∧ idx_nodes s M l.

Lemma idx_codes s s' M l : same_codes s s' → idx_nodes s M l → idx_nodes s' M l.
Proof. intros Hc [? Hcode ?]. split; [done| |done]. intros k a Ha. rewrite Hc. eauto. Qed.

Lemma idx_elems s M l : NoDup l → idx_nodes s M l → l ≡ₚ (map_to_list M).*2.
Proof.
  intros Hnd [He _ Hi]. apply NoDup_Permutation; [done| |].
  - apply NoDup_fmap_2_strong, NoDup_map_to_list. intros [k a] [k' a'] H1 H2 E.
    simpl in E. subst a'. apply elem_of_map_to_list in H1, H2. f_equal. eauto.
  - intros a. rewrite He, list_elem_of_fmap. split.
    + intros [k Hk]. exists (k, a). by rewrite elem_of_map_to_list.
    + intros ([k a'] & -> & Hk). apply elem_of_map_to_list in Hk. by exists k.
Qed.

Lemma idx_size s M l : NoDup l → idx_nodes s M l → length l = size M.
Proof.
  intros Hnd Hl. by rewrite (idx_elems s M l Hnd Hl), length_fmap, length_map_to_list.
Qed.

Lemma idx_out s M l b : idx_nodes s M l → (∀ k, M !! k ≠ Some b) → b ∉ l.
Proof. intros [He _ _] Hb [k Hk]%He. by apply (Hb k). Qed.

(** The comparison finds exactly the node of the key. *)
Lemma idx_match s M l k eq b :
  idx_nodes s M l → b ∈ l →
  (∀ k' a, M !! k' = Some a → hashf k' = hashf k → eq a = Some (bool_decide (k' = k))) →
  key_match s (hashf k) eq b ↔ M !! k = Some b.
Proof.
  intros [He Hcode Hi] [k' Hk']%He Heq. pose proof (Hcode _ _ Hk') as Hc. split.
  - intros (n & Hn & E & Eb). rewrite Hn in Hc. simplify_eq/=.
    rewrite (Heq k' b) in Eb by congruence. injection Eb as Eb%bool_decide_eq_true.
    congruence.
  - intros Hk. assert (k' = k) as -> by eauto.
    destruct (s !! b) as [n|] eqn:Hn; [|done]. simplify_eq/=. exists n.
    split_and!; [done..|]. rewrite (Heq k b), bool_decide_true by done. done.
Qed.

Lemma idx_defined s M l k eq :
  idx_nodes s M l →
  (∀ k' a, M !! k' = Some a → hashf k' = hashf k → eq a = Some (bool_decide (k' = k))) →
  eq_defined s (hashf k) eq l.
Proof.
  intros [He Hcode Hi] Heq b n [k' Hk']%He Hn E. pose proof (Hcode _ _ Hk') as Hc.
  rewrite Hn in Hc. simplify_eq/=. rewrite (Heq k' b) by congruence. done.
Qed.

Lemma idx_delete s M l l' k b :
  idx_nodes s M l → NoDup l → M !! k = Some b → l ≡ₚ b :: l' →
  idx_nodes s (delete k M) l'.
Proof.
  intros [He Hcode Hi] Hnd Hk Hl. rewrite Hl in Hnd. apply NoDup_cons in Hnd as [Hb _].
  split.
  - intros a. split.
    + intros Ha. assert (a ∈ l) as [k' Hk']%He by (rewrite Hl; by right).
      exists k'. rewrite lookup_delete_ne; [done|]. intros ->. congruence.
    + intros [k' [Hne Hk']%lookup_delete_Some].
      assert (a ∈ l) as Ha by (apply He; eauto). rewrite Hl in Ha.
      apply elem_of_cons in Ha as [->|]; [|done]. by destruct Hne; eauto.
  - intros k' a [_ Hk']%lookup_delete_Some. eauto.
  - intros k1 k2 a [_ H1]%lookup_delete_Some [_ H2]%lookup_delete_Some. eauto.
Qed.

#[export] Program Instance hash_index : NodeIndex K hashf := {| ni_rep := idx_rep |}.
Next Obligation. intros s m M k a (l & _ & []) Hk. eauto. Qed.
Next Obligation. intros s m M k k' a (l & _ & []). eauto. Qed.
Next Obligation.
  intros s s' m M (l & Hm & Hl) Hs. exists l.
  assert (Hs' : ∀ b, b ∈ l → s' !! b = s !! b).
  { intros b [k Hk]%(in_elem _ _ _ Hl). eauto. }
  split; [by eapply hm_inv_frame|]. destruct Hl as [He Hcode Hi]. split; [done| |done].
  intros k a Hk. rewrite (Hs k a) by done. eauto.
Qed.
Next Obligation.
  intros s Q HQ. apply wp_hm_new. intros m Hm. apply HQ. exists []. split; [done|].
  split; [|by intros k a; rewrite lookup_empty..]. intros a.
  rewrite elem_of_nil. split; [done|]. intros [k Hk]. by rewrite lookup_empty in Hk.
Qed.
Next Obligation.
  intros s m M (l & Hm & Hl). rewrite (hm_size_length _ _ _ Hm).
  destruct Hm as (Hnd & _). f_equal. by eapply idx_size.
Qed.
Next Obligation.
  intros s m M k a Q (l & Hm & Hl) Hk Ha Hcode Hsz HQ.
  pose proof Hm as (Hnd & _). rewrite <- (idx_size _ _ _ Hnd Hl) in Hsz.
  eapply wp_hm_insert; [done|by eapply idx_out| |done|].
  { by destruct (s !! a). }
  intros s' m' Hm' Hs Hc _. apply HQ; [|intros b Hne Hb; apply Hs|done].
  - exists (a :: l). split; [done|]. destruct (idx_codes _ _ _ _ Hc Hl) as [He Hcode' Hi].
    split.
    + intros b. rewrite elem_of_cons, He. split.
      * intros [->|[k' Hk']]; [exists k; by rewrite lookup_insert_eq|].
        exists k'. rewrite lookup_insert_ne; [done|congruence].
      * intros [k' [[_ <-]|[_ Hk']]%lookup_insert_Some]; eauto.
    + intros k' b [[<- <-]|[_ Hk']]%lookup_insert_Some; [by rewrite Hc|eauto].
    + intros k1 k2 b [[<- <-]|[? H1]]%lookup_insert_Some [[<- ?]|[? H2]]%lookup_insert_Some;
        try done; [by destruct (Ha k2)|subst; by destruct (Ha k1)|eauto].
  - intros [->|Hbl]%elem_of_cons; [done|]. by eapply idx_out.
Qed.
Next Obligation.
  intros s m M k eq Q (l & Hm & Hl) Heq HQ.
  eapply wp_hm_lookup; [done|by eapply idx_defined|]. intros s' m' r Hm' Hs Hc _ Hr.
  replace r with (M !! k).
  2: { destruct r as [b|].
    - destruct Hr as [Hb Hr]. by eapply (idx_match s M l).
    - destruct (M !! k) as [b|] eqn:Hk; [|done]. exfalso.
      assert (b ∈ l) as Hb by (apply (in_elem _ _ _ Hl); eauto).
      apply (Hr b Hb). by eapply idx_match. }
  apply HQ; [exists l; split; [done|by eapply idx_codes]| |done].
  intros b Hb. apply Hs. by eapply idx_out.
Qed.
Next Obligation.
  intros s m M k eq Q (l & Hm & Hl) Heq HQ. pose proof Hm as (Hnd & _).
  eapply wp_hm_remove; [done|by eapply idx_defined|]. intros s' m' r Hs Hc _ Hr.
  assert (Hout : ∀ b, (∀ k', M !! k' ≠ Some b) → s' !! b = s !! b).
  { intros b Hb. apply Hs. by eapply idx_out. }
  destruct r as [b|].
  - destruct Hr as (Hb & l' & Hl' & Hm').
    assert (M !! k = Some b) as Hk by (eapply (idx_match s M l); [done| |done..];
      rewrite Hl'; left).
    rewrite <- Hk. apply HQ; [|done|done]. exists l'. split; [done|].
    eapply idx_codes; [done|]. by eapply idx_delete.
  - destruct Hr as [Hm' Hr].
    assert (M !! k = None) as Hk.
    { destruct (M !! k) as [b|] eqn:Hk; [|done]. exfalso.
      assert (b ∈ l) as Hb by (apply (in_elem _ _ _ Hl); eauto).
      apply (Hr b Hb). by eapply idx_match. }
    rewrite <- Hk. apply HQ; [|done|done]. rewrite delete_id by done.
    exists l. split; [done|by eapply idx_codes].
Qed.
Next Obligation.
  intros A s m M f g arg Q (l & Hm & Hl) Hf HQ. pose proof Hm as (Hnd & _).
  assert (Hg : ∀ k x, (∀ a, a ∈ k → a ∈ l) → foreach_list f k x = Some (true, foldl (flip g) x k)).
  { intros k. induction k as [|a k IH]; intros x Hk; simpl; [done|].
    destruct (proj1 (in_elem _ _ _ Hl a)) as [ka Hka]; [apply Hk; left|].
    rewrite (Hf _ _ _ Hka). apply IH. intros b Hb. apply Hk. by right. }
  eapply wp_hm_foreach; [done|]. intros l1 l2 Hp.
  exists (true, foldl (flip g) arg l1), (true, foldl (flip g) arg (l1 ++ l2)).
  rewrite !Hg by (intros b Hb; rewrite Hp, elem_of_app; auto). rewrite foldl_app.
  split_and!; [done..|]. simpl. rewrite <- foldl_app. apply HQ. rewrite <- Hp. by apply (idx_elems s).
Qed.
End instance.
