(* ===== verification/HashRuns.v ===== *)
(** Runs of a [HashMap] from its constructor: any sequence of insertions, lookups and
    removals, between which the program may change the nodes that are not in the map. *)
From S2P Require Import Prelude HashTable HashRep HashMap.

(** A store, a map in it, and the nodes of the map. *)
Abbreviation hash_state := (hash_heap * HashMap * list positive)%type.

(** The nodes that stay when a removal returned [r]. *)
Definition without (r : ptr) (l : list positive) : list positive :=
  match r with Some b => filter (λ x, x ≠ b) l | None => l end.

(** A caller inserts nodes that it has allocated and that are not in the map, and compares
    only keys that it can read. *)
Inductive hash_step : hash_state → hash_state → Prop :=
| step_insert s s0 m l a s' m' :
    (∀ b, b ∈ l → s0 !! b = s !! b) → a ∉ l → is_Some (s0 !! a) → Z.of_nat (length l) < hash_max →
    hm_insert m (Some a) s0 = Some (m', s') →
    hash_step (s, m, l) (s', m', a :: l)
| step_lookup s s0 m l h eq r s' m' :
    (∀ b, b ∈ l → s0 !! b = s !! b) → eq_defined s0 h eq l →
    hm_lookup m h eq s0 = Some ((r, m'), s') →
    hash_step (s, m, l) (s', m', l)
| step_remove s s0 m l h eq r s' m' :
    (∀ b, b ∈ l → s0 !! b = s !! b) → eq_defined s0 h eq l →
    hm_remove m h eq s0 = Some ((r, m'), s') →
    hash_step (s, m, l) (s', m', without r l).

Inductive hash_reached : hash_state → Prop :=
| reached_new s s' m : hm_new s = Some (m, s') → hash_reached (s', m, [])
| reached_step st st' : hash_reached st → hash_step st st' → hash_reached st'.

(** A step after which a migration is still under way. *)
Definition migrating_step (st st' : hash_state) : Prop :=
  hash_step st st' ∧ hm_older st'.1.2 ≠ None.

Section ops.
Implicit Types (s : hash_heap) (m : HashMap) (l : list positive).

(** Each operation returns, keeps the invariant, and moves nodes. *)
Lemma hm_insert_run s m l a :
  hm_rep s m l → a ∉ l → is_Some (s !! a) → Z.of_nat (length l) < hash_max →
  ∃ m' s', hm_insert m (Some a) s = Some (m', s') ∧ hm_rep s' m' (a :: l) ∧ inserts m m'.
Proof. intros. apply wp_run. by eapply wp_hm_insert. Qed.

Lemma hm_lookup_run s m l h eq :
  hm_rep s m l → eq_defined s h eq l →
  ∃ r m' s', hm_lookup m h eq s = Some ((r, m'), s') ∧ hm_rep s' m' l ∧ drains 0 m m'.
Proof.
  intros Hm Hd. destruct (proj1 (wp_run (hm_lookup m h eq) s (λ r s', hm_rep s' r.2 l ∧ drains 0 m r.2)))
    as ([r m'] & s' & H); [|by exists r, m', s'].
  eapply wp_hm_lookup; [done..|]. by intros.
Qed.

Lemma without_perm b l l' : NoDup l → l ≡ₚ b :: l' → l' ≡ₚ without (Some b) l.
Proof.
  intros Hnd Hl. assert (NoDup (b :: l')) as [Hb Hl']%NoDup_cons by by rewrite <- Hl.
  apply NoDup_Permutation; [done|by apply NoDup_filter|]. intros x. simpl.
  rewrite list_elem_of_filter, Hl, elem_of_cons. naive_solver.
Qed.

Lemma hm_remove_run s m l h eq :
  hm_rep s m l → eq_defined s h eq l →
  ∃ r m' s', hm_remove m h eq s = Some ((r, m'), s') ∧ hm_rep s' m' (without r l) ∧ drains 1 m m'.
Proof.
  intros Hm Hd. pose proof Hm as (Hnd & _).
  destruct (proj1 (wp_run (hm_remove m h eq) s (λ r s', hm_rep s' r.2 (without r.1 l) ∧ drains 1 m r.2)))
    as ([r m'] & s' & H); [|by exists r, m', s'].
  eapply wp_hm_remove; [done..|]. intros s' m' [b|] _ _ Hdr Hr; simpl; (split; [|done]).
  - destruct Hr as (_ & l' & Hl & Hm'). eapply hm_inv_perm; [|done]. by apply without_perm.
  - apply Hr.
Qed.

(** What one step of a run does to the tables. *)
Lemma hash_step_run s m l s' m' l' :
  hm_rep s m l → hash_step (s, m, l) (s', m', l') →
  hm_rep s' m' l' ∧ (inserts m m' ∨ drains 1 m m').
Proof.
  intros Hm Hst. inversion Hst as [? s0 ? ? a ? ? Hs ? ? ? E|? s0 ? ? h eq r ? ? Hs ? E|? s0 ? ? h eq r ? ? Hs ? E];
    subst; apply (hm_inv_frame _ _ _ _ _ Hs) in Hm.
  - destruct (hm_insert_run s0 m l a) as (? & ? & E' & ? & ?); [done..|]. simplify_eq. auto.
  - destruct (hm_lookup_run s0 m l' h eq) as (? & ? & ? & E' & ? & ?); [done..|]. simplify_eq.
    split; [done|]. right. eapply drains_mono; [|done]. lia.
  - destruct (hm_remove_run s0 m l h eq) as (? & ? & ? & E' & ? & ?); [done..|]. simplify_eq. auto.
Qed.

Lemma hash_reached_rep st : hash_reached st → hm_rep st.1.1 st.1.2 st.2.
Proof.
  induction 1 as [s s' m E|[[s m] l] [[s' m'] l'] _ IH Hst].
  - assert (wp hm_new s (λ m s', hm_rep s' m [])) as H by (apply wp_hm_new; auto).
    unfold wp in H. by rewrite E in H.
  - by eapply hash_step_run.
Qed.

(** Each step of a migration that does not end takes [k_rehashing_work] nodes off [older]. *)
Lemma migrating_steps_bound k s m l o st' :
  hm_rep s m l → hm_older m = Some o → nsteps migrating_step k (s, m, l) st' →
  ∃ o', hm_older st'.1.2 = Some o' ∧ 0 ≤ ht_size o' ≤ ht_size o - Z.of_nat k * k_rehashing_work.
Proof.
  revert s m l o. induction k as [|k IH]; intros s m l o Hm Eo Hk.
  - inversion Hk; subst. exists o. split; [done|]. destruct Hm as (_ & _ & Hm). rewrite Eo in Hm.
    destruct Hm as (cn & co & _ & Ho & _). rewrite (it_size _ _ _ Ho). unfold k_rehashing_work. lia.
  - inversion Hk as [|? ? [[s1 m1] l1] ? [Hst Hne] Hk1]; subst.
    destruct (hash_step_run _ _ _ _ _ _ Hm Hst) as [Hm1 Hd]. simpl in Hne.
    assert (drains 1 m m1) as [_ Hd'].
    { destruct Hd as [Hd|Hd]; [|done]. unfold inserts in Hd. rewrite Eo in Hd. eapply drains_mono; [|done]. lia. }
    rewrite Eo in Hd'. destruct (hm_older m1) as [o1|] eqn:E1; [|done].
    destruct (IH s1 m1 l1 o1 Hm1 E1 Hk1) as (o' & Eo' & Ho'). exists o'. split; [done|]. lia.
Qed.
(** The load that the invariant allows. *)
Lemma hm_rep_load s m l :
  hm_rep s m l →
  ht_size (hm_newer m) < 8 * (ht_mask (hm_newer m) + 1) ∧
  ∀ o, hm_older m = Some o → ht_mask (hm_newer m) + 1 = 2 * (ht_mask o + 1) ∧
    ht_size o ≤ 8 * (ht_mask o + 1).
Proof.
  intros (_ & _ & Hm). destruct (hm_older m) as [o|].
  - destruct Hm as (cn & co & Hn & Ho & _ & [Hmask _ _ Hwork]).
    pose proof (tab_size_bound _ _ _ Hn). pose proof (tab_size_bound _ _ _ Ho).
    pose proof (tab_mask_bound _ _ _ Ho). split; [lia|]. intros o' [= <-]. lia.
  - destruct Hm as (cn & Hn & _ & Hlt). split; [lia|]. done.
Qed.

Lemma hm_rep_size s m l :
  hm_rep s m l →
  ht_size (hm_newer m) + match hm_older m with Some o => ht_size o | None => 0 end =
    Z.of_nat (length l).
Proof.
  intros (_ & _ & Hm). destruct (hm_older m) as [o|].
  - destruct Hm as (cn & co & Hn & Ho & -> & _).
    rewrite (it_size _ _ _ Hn), (it_size _ _ _ Ho), length_app. lia.
  - destruct Hm as (cn & Hn & -> & _). rewrite (it_size _ _ _ Hn). lia.
Qed.

Lemma inserts_slots s m l s' m' a :
  hm_rep s m l → hm_rep s' m' (a :: l) → inserts m m' →
  let n := ht_size (hm_newer m) + 1 in
  let slots := ht_mask (hm_newer m) + 1 in
  if decide (hm_older m = None ∧ n = 8 * slots) then
    ht_mask (hm_newer m') + 1 = 2 * slots ∧
    ht_size (hm_newer m') = n `min` 128 ∧
    (hm_older m' = None ↔ n ≤ 128)
  else ht_mask (hm_newer m') + 1 = slots.
Proof.
  intros Hm%hm_rep_size Hm'%hm_rep_size. simpl in Hm'. unfold inserts, drains, k_max_load_factor, k_rehashing_work.
  destruct (hm_older m) as [o|].
  { rewrite decide_False by naive_solver. intros [-> _]. done. }
  destruct (decide (ht_size (hm_newer m) + 1 = _)) as [E|E].
  - rewrite decide_True by done. intros [-> H]. split; [done|].
    destruct (hm_older m') as [o'|]; [|split; [lia|done]].
    split; [lia|]. split; [done|lia].
  - rewrite decide_False by naive_solver. by intros (_ & -> & _).
Qed.
End ops.
