(* ===== verification/HashTheorems.v ===== *)
(** The correctness theorems of container/hash_table.cc: [HashMap] is a finite
    map from keys to nodes; its load stays bounded; a migration always ends before
    the next one is needed; [foreach] visits every node once. *)
From S2P Require Import Prelude HashTable HashRep HashMap HashIndex HashRuns.

Section theorems.
Context {K : Type} `{Countable K} (hashf : K → Z).
Implicit Types (s : hash_heap) (m : HashMap) (M : gmap K positive).

(** C12. Inserting a node whose key is not in the map adds it to the map: whatever
    the state of the migration, the call returns, and the result represents
    [<[k:=a]> M]; nodes outside the map are not touched and no hash code changes. *)
Theorem hash_insert_correct s m M k a :
  idx_rep hashf s m M → M !! k = None → (∀ k', M !! k' ≠ Some a) →
  hn_hash_code <$> s !! a = Some (hashf k) → Z.of_nat (size M) < hash_max →
  ∃ m' s', hm_insert m (Some a) s = Some (m', s') ∧
    idx_rep hashf s' m' (<[k:=a]> M) ∧ same_codes s s' ∧
    (∀ b, b ≠ a → (∀ k', M !! k' ≠ Some b) → s' !! b = s !! b).
Proof.
  intros Hm Hk Ha Hc Hsz. apply wp_run.
  eapply (ni_insert (NodeIndex:=hash_index hashf)); [done..|]. eauto.
Qed.

(** C21. Looking a key up returns its node, or null when the map has none,
    whichever table the node is in; the map does not change (only the migration
    proceeds). *)
Theorem hash_lookup_correct s m M k eq :
  idx_rep hashf s m M →
  (∀ k' a, M !! k' = Some a → hashf k' = hashf k → eq a = Some (bool_decide (k' = k))) →
  ∃ m' s', hm_lookup m (hashf k) eq s = Some ((M !! k, m'), s') ∧
    idx_rep hashf s' m' M ∧ same_codes s s'.
Proof.
  intros Hm Heq.
  destruct (proj1 (wp_run (hm_lookup m (hashf k) eq) s (λ r s', r.1 = M !! k ∧
    idx_rep hashf s' r.2 M ∧ same_codes s s'))) as ([r m'] & s' & E & Hr & ? & ?).
  - eapply (ni_lookup (NodeIndex:=hash_index hashf)); [done..|]. eauto.
  - simpl in *. subst r. eauto.
Qed.

(** C20. Removing a key returns its node and takes it out of the map, or returns
    null and changes nothing when the map has none. *)
Theorem hash_remove_correct s m M k eq :
  idx_rep hashf s m M →
  (∀ k' a, M !! k' = Some a → hashf k' = hashf k → eq a = Some (bool_decide (k' = k))) →
  ∃ m' s', hm_remove m (hashf k) eq s = Some ((M !! k, m'), s') ∧
    idx_rep hashf s' m' (delete k M) ∧ same_codes s s'.
Proof.
  intros Hm Heq.
  destruct (proj1 (wp_run (hm_remove m (hashf k) eq) s (λ r s', r.1 = M !! k ∧
    idx_rep hashf s' r.2 (delete k M) ∧ same_codes s s'))) as ([r m'] & s' & E & Hr & ? & ?).
  - eapply (ni_remove (NodeIndex:=hash_index hashf)); [done..|]. eauto.
  - simpl in *. subst r. eauto.
Qed.
End theorems.

Section load.
Implicit Types (s : hash_heap) (m : HashMap) (l : list positive).

(** C35. In every state that insertions, lookups and removals reach from the constructor, the
    newer table has less than 8 nodes per slot, also while an older table is being migrated (then
    the limit is not checked): it has twice the slots of the older one, which has at most 8
    per slot.  An insertion returns; it starts a migration, to a table of twice the slots,
    exactly when there is none and it makes the 8th node per slot; else the number of slots
    stays. *)
Theorem hash_load_bound s m l :
  hash_reached (s, m, l) →
  hm_size m = Z.of_nat (length l) ∧
  ht_size (hm_newer m) < 8 * (ht_mask (hm_newer m) + 1) ∧
  (∀ o, hm_older m = Some o → ht_mask (hm_newer m) + 1 = 2 * (ht_mask o + 1) ∧
    ht_size o ≤ 8 * (ht_mask o + 1)) ∧
  ∀ a, a ∉ l → is_Some (s !! a) → Z.of_nat (length l) < hash_max →
    let n := ht_size (hm_newer m) + 1 in
    let slots := ht_mask (hm_newer m) + 1 in
    ∃ m' s', hm_insert m (Some a) s = Some (m', s') ∧
      if decide (hm_older m = None ∧ n = 8 * slots) then
        ht_mask (hm_newer m') + 1 = 2 * slots ∧
        ht_size (hm_newer m') = n `min` 128 ∧
        (hm_older m' = None ↔ n ≤ 128)
      else ht_mask (hm_newer m') + 1 = slots.
Proof.
  intros Hm%hash_reached_rep. cbn [fst snd] in Hm. split; [by eapply hm_size_length|].
  split; [by eapply hm_rep_load|]. split; [by intros; eapply hm_rep_load|].
  intros a Ha Hs Hl. destruct (hm_insert_run s m l a) as (m' & s' & E & Hm' & Hi); [done..|].
  exists m', s'. split; [exact E|]. by apply (inserts_slots s m l s' m' a).
Qed.

(** C33. While a migration is under way, every operation returns and makes progress with it: an
    insertion and a lookup move [k_rehashing_work] nodes out of the older table, or end the
    migration, which needs at most that many nodes in the older table; a removal may take one
    node more.  So no [k] operations with [128 * k] above the size of the older table
    leave the migration unfinished. *)
Theorem hash_rehashing_progress s m l o :
  hm_rep s m l → hm_older m = Some o →
  (∀ a, a ∉ l → is_Some (s !! a) → Z.of_nat (length l) < hash_max →
    ∃ m' s', hm_insert m (Some a) s = Some (m', s') ∧
      match hm_older m' with
      | None => ht_size o ≤ 128
      | Some o' => 0 < ht_size o' ∧ ht_size o' = ht_size o - 128
      end) ∧
  (∀ h eq, eq_defined s h eq l →
    ∃ r m' s', hm_lookup m h eq s = Some ((r, m'), s') ∧
      match hm_older m' with
      | None => ht_size o ≤ 128
      | Some o' => 0 < ht_size o' ∧ ht_size o' = ht_size o - 128
      end) ∧
  (∀ h eq, eq_defined s h eq l →
    ∃ r m' s', hm_remove m h eq s = Some ((r, m'), s') ∧
      match hm_older m' with
      | None => ht_size o ≤ 128
      | Some o' => ht_size o - 129 ≤ ht_size o' ≤ ht_size o - 128
      end) ∧
  ∀ k st', nsteps migrating_step k (s, m, l) st' → 128 * Z.of_nat k ≤ ht_size o.
Proof.
  intros Hm Eo. assert (Hd : ∀ k m', drains k m m' → match hm_older m' with
    | None => ht_size o ≤ 128
    | Some o' => 0 < ht_size o' + k ∧ ht_size o - 128 - k ≤ ht_size o' ≤ ht_size o - 128
    end).
  { unfold drains. intros k m' [_ H]. rewrite Eo in H. by destruct (hm_older m') as [o'|]; [destruct H|]. }
  split_and!.
  - intros a Ha Hs Hl. destruct (hm_insert_run s m l a) as (m' & s' & E & _ & Hi); [done..|].
    exists m', s'. split; [done|]. unfold inserts in Hi. rewrite Eo in Hi. apply Hd in Hi.
    destruct (hm_older m'); lia.
  - intros h eq Heq. destruct (hm_lookup_run s m l h eq) as (r & m' & s' & E & _ & Hi); [done..|].
    exists r, m', s'. split; [done|]. apply Hd in Hi. destruct (hm_older m'); lia.
  - intros h eq Heq. destruct (hm_remove_run s m l h eq) as (r & m' & s' & E & _ & Hi); [done..|].
    exists r, m', s'. split; [done|]. apply Hd in Hi. destruct (hm_older m'); lia.
  - intros k st' Hk. destruct (migrating_steps_bound k s m l o st') as (o' & _ & H); [done..|].
    unfold k_rehashing_work in H. lia.
Qed.

(** With a callback that always returns true, [foreach] calls it exactly once
    for every node of the map, in some order, and changes no node. *)
Theorem hash_foreach_all {A} s m l (g : positive → A → A) (arg : A) :
  hm_rep s m l →
  ∃ l', l' ≡ₚ l ∧
    hm_foreach m (λ a x, Some (true, g a x)) arg s = Some (foldl (flip g) arg l', s).
Proof.
  intros Hm. set (f := λ a x, Some (true, g a x)).
  assert (Hf : ∀ k x, foreach_list f k x = Some (true, foldl (flip g) x k)).
  { intros k. induction k as [|a k IH]; intros x; simpl; [done|]. apply IH. }
  destruct (proj1 (wp_run (hm_foreach m f arg) s (λ r s', s' = s ∧ ∃ l', l' ≡ₚ l ∧
    r = foldl (flip g) arg l'))) as (r & s' & E & -> & l' & Hl' & ->); [|by exists l'].
  eapply wp_hm_foreach; [done|]. intros l1 l2 Hl.
  exists (true, foldl (flip g) arg l1), (true, foldl (flip g) arg (l1 ++ l2)).
  rewrite !Hf. simpl. rewrite foldl_app. split_and!; [done..|].
  exists (l1 ++ l2). by rewrite foldl_app.
Qed.

(** A callback that returns false does not end [foreach]: it ends the
    iteration over the newer table only, and the nodes of the older table are
    still visited (the comment of [foreach] promises the opposite). *)
Theorem hash_foreach_continues s m l o a :
  hm_rep s m l → hm_older m = Some o →
  0 < ht_size (hm_newer m) → 0 < ht_size o →
  ∃ b c, b ≠ c ∧ hm_foreach m (λ x acc, Some (false, acc ++ [x])) [a] s = Some ([a; b; c], s).
Proof.
  intros (Hnd & Hlen & Hm) Eo Hsn Hso. rewrite Eo in Hm.
  destruct Hm as (cn & co & Hn & Ho & Hl & _).
  rewrite (it_size _ _ _ Hn) in Hsn. rewrite (it_size _ _ _ Ho) in Hso. rewrite Hl in Hnd.
  destruct (mjoin cn) as [|b ln] eqn:En; [simpl in Hsn; lia|].
  destruct (mjoin co) as [|c lo] eqn:Eco; [simpl in Hso; lia|].
  exists b, c. split.
  { intros ->. apply NoDup_app in Hnd as (_ & Hd & _). apply (Hd c); left. }
  set (f := λ x acc, Some (false, acc ++ [x])).
  destruct (proj1 (wp_run (hm_foreach m f [a]) s (λ r s', s' = s ∧ r = [a; b; c])))
    as (r & s' & E & -> & ->); [|done].
  unfold hm_foreach. rewrite Eo. wp_step.
  eapply (wp_ht_foreach _ _ _ _ _ (false, [a; b])); [done|by rewrite En|].
  wp_step. eapply (wp_ht_foreach _ _ _ _ _ (false, [a; b; c])); [done|by rewrite Eco|].
  by apply wp_ret.
Qed.
End load.

(** * Witnesses *)

Module HashWitness.
(** Keys are integers that hash to themselves; node [a] has the key [a]. *)
Definition zhash (k : Z) : Z := k.
Definition zeq (k : Z) : hash_eq := λ a, Some (bool_decide (Zpos a = k)).

(** Inserting the nodes [1 .. n] one after the other into a new map. *)
Definition fill (n : nat) : M hash_heap HashMap :=
  m ← hm_new;
  foldl (λ acc i, m ← acc; hm_insert m (Some (Pos.of_succ_nat i))) (mret m) (seq 0 n).

Definition nodes (n : nat) : hash_heap :=
  list_to_map ((λ i, (Pos.of_succ_nat i, mkHashNode None (Zpos (Pos.of_succ_nat i)))) <$> seq 0 n).

(** A map with one node. *)
Definition m1 : HashMap :=
  mkHashMap (mkHashTab 3 1 [None; Some 1%positive; None; None]) None 0.
Definition M1 : gmap Z positive := {[1 := 1%positive]}.

Lemma m1_rep : hm_rep (nodes 2) m1 [1%positive].
Proof.
  split_and!; [apply (bool_decide_unpack _); by vm_compute|by vm_compute|].
  simpl. exists [[]; [1%positive]; []; []]. split_and!; [|done|done].
  split; simpl.
  - by exists 2.
  - done.
  - repeat constructor; simpl. eexists. split; [by vm_compute|done].
  - intros i c a n Hi Ha Hn. destruct i as [|[|[|[|]]]]; simplify_eq/=; [set_solver| |set_solver..].
    apply list_elem_of_singleton in Ha as ->. vm_compute in Hn. by simplify_eq.
  - done.
  - apply (bool_decide_unpack _); by vm_compute.
Defined.

Lemma m1_idx : idx_rep zhash (nodes 2) m1 M1.
Proof.
  exists [1%positive]. split; [apply m1_rep|]. split.
  - intros a. rewrite list_elem_of_singleton. unfold M1. split.
    + intros ->. by exists 1.
    + by intros [k [_ <-]%lookup_singleton_Some].
  - unfold M1. intros k a [<- <-]%lookup_singleton_Some. by vm_compute.
  - unfold M1. intros k k' a [<- <-]%lookup_singleton_Some [<- _]%lookup_singleton_Some. done.
Defined.

Lemma zeq_ok k k' a :
  M1 !! k' = Some a → zhash k' = zhash k → zeq k a = Some (bool_decide (k' = k)).
Proof. unfold M1. by intros [<- <-]%lookup_singleton_Some. Defined.

Lemma nodes_lookup n i : (i < n)%nat → is_Some (nodes n !! Pos.of_succ_nat i).
Proof.
  intros Hi. unfold nodes. apply elem_of_dom. rewrite dom_list_to_map_L.
  apply elem_of_list_to_set. rewrite <- list_fmap_compose. apply list_elem_of_fmap.
  exists i. split; [done|]. apply elem_of_seq. lia.
Qed.

(** Filling a map is a run of insertions. *)
Lemma fill_reached n N : (n ≤ N)%nat → Z.of_nat N ≤ hash_max →
  wp (fill n) (nodes N) (λ m s, same_codes (nodes N) s ∧
    hash_reached (s, m, rev (Pos.of_succ_nat <$> seq 0 n))).
Proof.
  intros Hn HN. unfold fill. wp_step.
  assert (∃ m, hm_new (nodes N) = Some (m, nodes N)) as [m0 Em0] by by eexists.
  eapply wp_eq; [done|]. cbv beta.
  induction n as [|n IH]; [apply wp_ret; split; [done|by eapply reached_new]|].
  rewrite seq_S, Nat.add_0_l, foldl_app, fmap_app, rev_app_distr. cbn [foldl].
  wp_step. eapply wp_mono; [apply IH; lia|]. intros m s [Hc Hm]. cbv beta.
  set (l := rev (Pos.of_succ_nat <$> seq 0 n)) in *.
  assert (Ha : Pos.of_succ_nat n ∉ l).
  { unfold l. rewrite <- Permutation_rev, list_elem_of_fmap. intros (j & E & Hj%elem_of_seq). lia. }
  assert (Hl : Z.of_nat (length l) < hash_max)
    by (unfold l; rewrite length_rev, length_fmap, length_seq; lia).
  assert (Hs : is_Some (s !! Pos.of_succ_nat n)).
  { destruct (nodes_lookup N n) as [x Hx]; [lia|]. specialize (Hc (Pos.of_succ_nat n)).
    rewrite Hx in Hc. by destruct (s !! Pos.of_succ_nat n). }
  destruct (proj1 (wp_run (hm_insert m (Some (Pos.of_succ_nat n))) s (λ _ s', same_codes s s')))
    as (m' & s' & E & Hc'); [eapply wp_hm_insert; [apply (hash_reached_rep _ Hm)|done..]|].
  eapply wp_eq; [exact E|]. split; [by eapply same_codes_trans|].
  eapply reached_step; [exact Hm|]. by eapply step_insert.
Qed.

(** The map with the nodes [1 .. n], of the [N] that exist. *)
Definition filled (n N : nat) : HashMap * hash_heap :=
  default (mkHashMap (mkHashTab 0 0 []) None 0, ∅) (fill n (nodes N)).

Lemma filled_reached n N : (n ≤ N)%nat → Z.of_nat N ≤ hash_max →
  same_codes (nodes N) (filled n N).2 ∧
  hash_reached ((filled n N).2, (filled n N).1, rev (Pos.of_succ_nat <$> seq 0 n)).
Proof.
  intros Hn HN. pose proof (fill_reached n N Hn HN) as H. unfold wp, filled in *.
  by destruct (fill n (nodes N)) as [[m s]|].
Qed.

(** The tables of a map: slots of the newer one, nodes of the newer and of the older one. *)
Definition tables (m : HashMap) : Z * Z * option Z :=
  (ht_mask (hm_newer m) + 1, ht_size (hm_newer m), ht_size <$> hm_older m).

Lemma starts_migration m m' :
  tables m = (64, 511, None) →
  (if decide (hm_older m = None ∧ ht_size (hm_newer m) + 1 = 8 * (ht_mask (hm_newer m) + 1)) then
     ht_mask (hm_newer m') + 1 = 2 * (ht_mask (hm_newer m) + 1) ∧
     ht_size (hm_newer m') = (ht_size (hm_newer m) + 1) `min` 128 ∧
     (hm_older m' = None ↔ ht_size (hm_newer m) + 1 ≤ 128)
   else ht_mask (hm_newer m') + 1 = ht_mask (hm_newer m) + 1) →
  ht_mask (hm_newer m') + 1 = 128 ∧ ht_size (hm_newer m') = 128 ∧ hm_older m' ≠ None.
Proof.
  unfold tables. destruct (hm_older m); intros [= -> ->]. rewrite decide_True by done.
  intros (? & ? & H). split; [lia|]. split; [lia|]. intros Hn%H. lia.
Qed.

(** With 512 nodes a migration is under way, in which the next node is inserted; with 511
    nodes the next insertion starts it. *)
Definition st512 : HashMap * hash_heap := filled 512 513.
Definition st511 : HashMap * hash_heap := filled 511 512.
Definition l512 : list positive := rev (Pos.of_succ_nat <$> seq 0 512).
Definition l511 : list positive := rev (Pos.of_succ_nat <$> seq 0 511).

Lemma st512_reached : hash_reached (st512.2, st512.1, l512).
Proof. apply (filled_reached 512 513); [lia|by vm_compute]. Qed.

Lemma st511_reached : hash_reached (st511.2, st511.1, l511).
Proof. apply (filled_reached 511 512); [lia|by vm_compute]. Qed.

Lemma st512_rep : hm_rep st512.2 st512.1 l512.
Proof. apply (hash_reached_rep _ st512_reached). Qed.

Lemma st512_tables : tables st512.1 = (128, 128, Some 384).
Proof. by vm_compute. Qed.

Lemma st511_tables : tables st511.1 = (64, 511, None).
Proof. by vm_compute. Qed.

Lemma st512_older : ∃ o, hm_older st512.1 = Some o ∧ ht_size o = 384 ∧ ht_size (hm_newer st512.1) = 128.
Proof.
  generalize st512_tables. generalize st512.1. intros m. unfold tables.
  destruct (hm_older m) as [o|]; intros [= _ Hn Ho]; by exists o.
Qed.

Lemma zeq_defined s l k : eq_defined s k (zeq k) l.
Proof. intros b n _ _ _. by eexists. Qed.
End HashWitness.
Import HashWitness.

Lemma hash_insert_correct_witness :
  ∃ m' s', hm_insert m1 (Some 2%positive) (nodes 2) = Some (m', s') ∧
    idx_rep zhash s' m' (<[2:=2%positive]> M1) ∧ same_codes (nodes 2) s' ∧
    (∀ b, b ≠ 2%positive → (∀ k', M1 !! k' ≠ Some b) → s' !! b = nodes 2 !! b).
Proof.
  apply (hash_insert_correct zhash (nodes 2) m1 M1 2 2%positive m1_idx).
  - by vm_compute.
  - unfold M1. by intros k' [_ ?]%lookup_singleton_Some.
  - by vm_compute.
  - by vm_compute.
Defined.

Lemma hash_lookup_correct_witness :
  ∃ m' s', hm_lookup m1 1 (zeq 1) (nodes 2) = Some ((Some 1%positive, m'), s') ∧
    idx_rep zhash s' m' M1 ∧ same_codes (nodes 2) s'.
Proof. apply (hash_lookup_correct zhash (nodes 2) m1 M1 1 (zeq 1) m1_idx (zeq_ok 1)). Defined.

Lemma hash_remove_correct_witness :
  ∃ m' s', hm_remove m1 1 (zeq 1) (nodes 2) = Some ((Some 1%positive, m'), s') ∧
    idx_rep zhash s' m' (delete 1 M1) ∧ same_codes (nodes 2) s'.
Proof. apply (hash_remove_correct zhash (nodes 2) m1 M1 1 (zeq 1) m1_idx (zeq_ok 1)). Defined.

(** The 512th node starts the migration from 64 to 128 slots, and 128 nodes move at once. *)
Lemma hash_load_bound_witness :
  tables st511.1 = (64, 511, None) ∧
  ∃ m' s', hm_insert st511.1 (Some 512%positive) st511.2 = Some (m', s') ∧
    ht_mask (hm_newer m') + 1 = 128 ∧ ht_size (hm_newer m') = 128 ∧ hm_older m' ≠ None.
Proof.
  split; [apply st511_tables|].
  destruct (hash_load_bound st511.2 st511.1 l511 st511_reached) as (_ & _ & _ & H).
  destruct (H 512%positive) as (m' & s' & E & Hi).
  - apply (bool_decide_unpack _). by vm_compute.
  - apply (bool_decide_unpack _). by vm_compute.
  - by vm_compute.
  - exists m', s'. split; [exact E|]. exact (starts_migration _ m' st511_tables Hi).
Defined.

(** An insertion, a lookup and a removal during that migration. *)
Lemma hash_rehashing_progress_witness :
  tables st512.1 = (128, 128, Some 384) ∧
  (∃ m' s', hm_insert st512.1 (Some 513%positive) st512.2 = Some (m', s') ∧
    ht_size <$> hm_older m' = Some 256) ∧
  (∃ r m' s', hm_lookup st512.1 5 (zeq 5) st512.2 = Some ((r, m'), s') ∧
    ht_size <$> hm_older m' = Some 256) ∧
  (∃ r m' s', hm_remove st512.1 5 (zeq 5) st512.2 = Some ((r, m'), s') ∧ is_Some (hm_older m')).
Proof.
  split; [apply st512_tables|]. destruct st512_older as (o & Eo & Ho & _).
  destruct (hash_rehashing_progress st512.2 st512.1 l512 o st512_rep Eo) as (Hi & Hl & Hr & _).
  rewrite Ho in Hi, Hl, Hr. split_and!.
  - destruct (Hi 513%positive) as (m' & s' & E & H).
    + apply (bool_decide_unpack _). by vm_compute.
    + apply (bool_decide_unpack _). by vm_compute.
    + by vm_compute.
    + exists m', s'. split; [exact E|]. destruct (hm_older m'); [|lia]. destruct H. simpl. f_equal. lia.
  - destruct (Hl 5 (zeq 5)) as (r & m' & s' & E & H); [apply zeq_defined|].
    exists r, m', s'. split; [exact E|]. destruct (hm_older m'); [|lia]. destruct H. simpl. f_equal. lia.
  - destruct (Hr 5 (zeq 5)) as (r & m' & s' & E & H); [apply zeq_defined|].
    exists r, m', s'. split; [exact E|]. destruct (hm_older m'); [done|lia].
Defined.

Lemma hash_foreach_all_witness :
  ∃ l', l' ≡ₚ [1%positive] ∧
    hm_foreach m1 (λ a x, Some (true, Zpos a + x)) 5 (nodes 2) =
      Some (foldl (flip (λ a x, Zpos a + x)) 5 l', nodes 2).
Proof. apply (hash_foreach_all (nodes 2) m1 [1%positive] (λ a x, Zpos a + x) 5 m1_rep). Defined.

Lemma hash_foreach_continues_witness :
  ∃ m s b c, b ≠ c ∧
    hm_foreach m (λ x acc, Some (false, acc ++ [x])) [7%positive] s = Some ([7%positive; b; c], s).
Proof.
  destruct st512_older as (o & Eo & Ho & Hn).
  destruct (hash_foreach_continues st512.2 st512.1 _ o 7%positive st512_rep Eo) as (b & c & H); [lia..|].
  by exists st512.1, st512.2, b, c.
Defined.
