(* ===== verification/Heap.v ===== *)
(** The indexed binary heap of container/heap.h, translated statement by statement.

    An entry holds a value and a pointer to a [size_t] outside of the heap, where
    the heap records the entry's position ([Entry::heap_idx] in the server).  The
    state is the array and the store of those [size_t]s. *)
From S2P Require Import Prelude.

(** [struct HeapEntry<T>] *)
Record HeapEntry (T : Type) : Type := mkHeapEntry {
  he_ref_pos : ptr;
  he_val : T;
}.
Arguments mkHeapEntry {T} _ _.
Arguments he_ref_pos {T} _.
Arguments he_val {T} _.

(** The array [h] and the targets of the [ref_pos] pointers. *)
Record heap_state (T : Type) : Type := mkHeapState {
  hs_arr : list (HeapEntry T);
  hs_idx : gmap positive Z;
}.
Arguments mkHeapState {T} _ _.
Arguments hs_arr {T} _.
Arguments hs_idx {T} _.

Section heap.
Context {T : Type} (comp : T → T → bool).

(** [h[i]], read and written *)
Definition h_get (i : Z) : M (heap_state T) (HeapEntry T) := λ s,
  match lookupZ (hs_arr s) i with
  | Some e => Some (e, s)
  | None => None
  end.

Definition h_set (i : Z) (e : HeapEntry T) : M (heap_state T) unit := λ s,
  match lookupZ (hs_arr s) i with
  | Some _ => Some (tt, mkHeapState (<[Z.to_nat i := e]> (hs_arr s)) (hs_idx s))
  | None => None
  end.

(** [*p = pos] *)
Definition ref_set (p : ptr) (pos : Z) : M (heap_state T) unit := λ s,
  match p with
  | Some a =>
      match hs_idx s !! a with
      | Some _ => Some (tt, mkHeapState (hs_arr s) (<[a:=pos]> (hs_idx s)))
      | None => None
      end
  | None => None
  end.

(** The loop of [__heap_sift_up]; returns the final position of the hole. *)
Fixpoint sift_up_loop (fuel : nat) (pos : Z) (hole : HeapEntry T)
    : M (heap_state T) Z :=
  match fuel with
  | O => fault
  | S fuel =>
      if 0 <? pos then
        let parent_pos := u64 (pos - 1) / 2 in
        parent ← h_get parent_pos;
        if negb (comp (he_val parent) (he_val hole)) then mret pos
        else
          h_set pos parent;;
          e ← h_get pos;
          ref_set (he_ref_pos e) pos;;
          sift_up_loop fuel parent_pos hole
      else mret pos
  end.

Definition heap_sift_up (pos : Z) : M (heap_state T) unit :=
  hole ← h_get pos;
  s ← get;
  pos ← sift_up_loop (S (length (hs_arr s))) pos hole;
  h_set pos hole;;
  e ← h_get pos;
  ref_set (he_ref_pos e) pos.

(** [(r < len && __comp(h[l].val, h[r].val)) ? r : l] *)
Definition pick_child (len l r : Z) : M (heap_state T) Z :=
  if r <? len then
    el ← h_get l;
    er ← h_get r;
    mret (if comp (he_val el) (he_val er) then r else l)
  else mret l.

(** The loop of [__heap_sift_down]. *)
Fixpoint sift_down_loop (fuel : nat) (len pos : Z) (hole : HeapEntry T)
    : M (heap_state T) Z :=
  match fuel with
  | O => fault
  | S fuel =>
      let l := u64 (u64 (pos * 2) + 1) in
      if len <=? l then mret pos
      else
        let r := u64 (u64 (pos * 2) + 2) in
        j ← pick_child len l r;
        ej ← h_get j;
        if negb (comp (he_val hole) (he_val ej)) then mret pos
        else
          h_set pos ej;;
          e ← h_get pos;
          ref_set (he_ref_pos e) pos;;
          sift_down_loop fuel len j hole
  end.

Definition heap_sift_down (len pos : Z) : M (heap_state T) bool :=
  hole ← h_get pos;
  let old_pos := pos in
  s ← get;
  pos ← sift_down_loop (S (length (hs_arr s))) len pos hole;
  h_set pos hole;;
  e ← h_get pos;
  ref_set (he_ref_pos e) pos;;
  mret (old_pos <? pos).

Definition heap_fix (len pos : Z) : M (heap_state T) unit :=
  moved ← heap_sift_down len pos;
  if negb moved then heap_sift_up pos else mret tt.

Definition heap_push (len : Z) : M (heap_state T) unit :=
  heap_sift_up (u64 (len - 1)).

(** [std::swap(h[i], h[j])] *)
Definition h_swap (i j : Z) : M (heap_state T) unit :=
  ei ← h_get i;
  ej ← h_get j;
  h_set i ej;;
  h_set j ei.

(** [heap_pop(h, len, __comp)] *)
Definition heap_pop_top (len : Z) : M (heap_state T) unit :=
  h_swap 0 (u64 (len - 1));;
  _ ← heap_sift_down (u64 (len - 1)) 0;
  mret tt.

(** [heap_pop(h, len, pos, __comp)] *)
Definition heap_pop (len pos : Z) : M (heap_state T) unit :=
  if pos =? 0 then heap_pop_top len
  else if pos <? u64 (len - 1) then
    h_swap pos (u64 (len - 1));;
    heap_fix (u64 (len - 1)) pos
  else mret tt.
End heap.

(** ** The vector operations of the server on its heap (server/main.cc) *)
Section vec.
Context {T : Type} (comp : T → T → bool).

Definition vec_push_back (t : HeapEntry T) : M (heap_state T) unit := λ s,
  Some (tt, mkHeapState (hs_arr s ++ [t]) (hs_idx s)).

(** [h.pop_back()]; undefined on an empty vector. *)
Definition vec_pop_back : M (heap_state T) unit := λ s,
  match hs_arr s with
  | [] => None
  | _ => Some (tt, mkHeapState (removelast (hs_arr s)) (hs_idx s))
  end.

Definition vec_size : M (heap_state T) Z := λ s, Some (Z.of_nat (length (hs_arr s)), s).

Definition ref_get (p : ptr) : M (heap_state T) Z := λ s,
  match p with
  | Some a => match hs_idx s !! a with Some v => Some (v, s) | None => None end
  | None => None
  end.

Definition heap_remove (pos : Z) : M (heap_state T) unit :=
  n ← vec_size;
  heap_pop comp n pos;;
  vec_pop_back.

Definition heap_upsert (t : HeapEntry T) : M (heap_state T) unit :=
  pos ← ref_get (he_ref_pos t);
  n ← vec_size;
  if pos <? n then
    h_set pos t;;
    n ← vec_size;
    heap_fix comp n pos
  else
    vec_push_back t;;
    n ← vec_size;
    heap_push comp n.
End vec.
