(* ===== verification/HeapProof.v ===== *)
(** Proof rules for container/heap.h: the heap order, the agreement of the
    back-pointers with the positions, and the sift loops.

    The loops move entries over a hole and put the saved entry back at the end.
    The lemmas speak of the array with the hole filled ([<[p:=hole]> arr]): on that
    view one iteration is a swap of two entries. *)
From S2P Require Import Prelude Heap.

(** The code's requirement on [Compare], as for [std::sort]. *)
Class StrictWeakOrder {T} (comp : T → T → bool) : Prop := {
  swo_asym : ∀ x y, comp x y = true → comp y x = false;
  swo_negtrans : ∀ x y z, comp x y = false → comp y z = false → comp x z = false;
}.

#[export] Instance std_greater_swo : StrictWeakOrder Z.gtb.
Proof. split; intros *; rewrite ?Z.gtb_ltb, ?Z.ltb_lt, ?Z.ltb_ge; lia. Qed.

(** The bound on the length under which the child positions do not wrap around. *)
Definition heap_max : Z := 2 ^ 62.

Definition parent (i : nat) : nat := (i - 1) / 2.

Lemma parent_lt i : (0 < i → parent i < i)%nat.
Proof. intros. unfold parent. apply Nat.Div0.div_lt_upper_bound. lia. Qed.

Lemma parent_child i p :
  (0 < i)%nat → parent i = p ↔ i = (2 * p + 1)%nat ∨ i = (2 * p + 2)%nat.
Proof.
  intros Hi. unfold parent. assert (Nat.lt ((i-1) mod 2) 2) by (apply Nat.mod_upper_bound; lia).
  pose proof (Nat.div_mod_eq (i - 1) 2).
  lia.
Qed.

Lemma parent_Z (p : nat) :
  (0 < p)%nat → Z.of_nat p < heap_max → u64 (Z.of_nat p - 1) / 2 = Z.of_nat (parent p).
Proof.
  intros Hp Hm. unfold heap_max in Hm. rewrite u64_small by lia. unfold parent.
  rewrite Nat2Z.inj_div, Nat2Z.inj_sub by lia. done.
Qed.

Lemma left_Z (p : nat) :
  Z.of_nat p < heap_max → u64 (u64 (Z.of_nat p * 2) + 1) = Z.of_nat (2 * p + 1).
Proof.
  intros Hp. unfold heap_max in Hp. rewrite (u64_small (Z.of_nat p * 2)) by lia.
  rewrite u64_small; lia.
Qed.

Lemma right_Z (p : nat) :
  Z.of_nat p < heap_max → u64 (u64 (Z.of_nat p * 2) + 2) = Z.of_nat (2 * p + 2).
Proof.
  intros Hp. unfold heap_max in Hp. rewrite (u64_small (Z.of_nat p * 2)) by lia.
  rewrite u64_small; lia.
Qed.

(** ** Exchanging two entries *)
Section swap.
Context {A : Type}.
Implicit Types (l : list A) (i j : nat).

Definition swapped l i j x y : list A := <[j:=x]> (<[i:=y]> l).

Lemma swapped_lookup l i j x y k :
  l !! i = Some x → l !! j = Some y → i ≠ j →
  swapped l i j x y !! k =
    if decide (k = i) then Some y else if decide (k = j) then Some x else l !! k.
Proof.
  intros Hi%lookup_lt_Some Hj%lookup_lt_Some Hij. unfold swapped.
  destruct (decide (k = i)) as [->|Hki].
  - rewrite list_lookup_insert_ne by done. by apply list_lookup_insert_eq.
  - destruct (decide (k = j)) as [->|Hkj].
    + apply list_lookup_insert_eq. by rewrite length_insert.
    + by rewrite !list_lookup_insert_ne.
Qed.

Lemma swapped_perm l i j x y :
  l !! i = Some x → l !! j = Some y → i ≠ j → swapped l i j x y ≡ₚ l.
Proof.
  intros Hi Hj Hij. apply Permutation_inj. split.
  { unfold swapped. by rewrite !length_insert. }
  exists (λ k, if decide (k = i) then j else if decide (k = j) then i else k). split.
  - intros k1 k2. repeat case_decide; congruence.
  - intros k. rewrite (swapped_lookup l i j x y) by done. repeat case_decide; congruence.
Qed.

Lemma swapped_take l i j x y n :
  (i < n)%nat → (j < n)%nat → take n (swapped l i j x y) = swapped (take n l) i j x y.
Proof. intros Hi Hj. unfold swapped. by rewrite !take_insert_lt. Qed.

Lemma swapped_drop l i j x y n :
  (i < n)%nat → (j < n)%nat → drop n (swapped l i j x y) = drop n l.
Proof. intros Hi Hj. unfold swapped. by rewrite !drop_insert_lt. Qed.

Lemma swapped_length l i j x y : length (swapped l i j x y) = length l.
Proof. unfold swapped. by rewrite !length_insert. Qed.
End swap.

(** ** Reading and writing the array *)
Section access.
Context {T : Type}.
Implicit Types (s : heap_state T) (e : HeapEntry T).

Lemma wp_h_get s (i : nat) e (Q : HeapEntry T → heap_state T → Prop) :
  hs_arr s !! i = Some e → Q e s → wp (h_get (Z.of_nat i)) s Q.
Proof. intros Hi HQ. unfold wp, h_get. by rewrite lookupZ_nat, Hi. Qed.

Lemma wp_h_set s (i : nat) e (Q : unit → heap_state T → Prop) :
  (i < length (hs_arr s))%nat → Q tt (mkHeapState (<[i:=e]> (hs_arr s)) (hs_idx s)) →
  wp (h_set (Z.of_nat i) e) s Q.
Proof.
  intros [e' Hi]%lookup_lt_is_Some HQ. unfold wp, h_set. by rewrite lookupZ_nat, Hi, Nat2Z.id.
Qed.

Lemma wp_ref_set s a (pos : Z) (Q : unit → heap_state T → Prop) :
  is_Some (hs_idx s !! a) → Q tt (mkHeapState (hs_arr s) (<[a:=pos]> (hs_idx s))) →
  wp (ref_set (Some a) pos) s Q.
Proof. intros [x Hx] HQ. unfold wp, ref_set. by rewrite Hx. Qed.
End access.

Section order.
Context {T : Type} (comp : T → T → bool) `{!StrictWeakOrder comp}.
Implicit Types (s : heap_state T) (e : HeapEntry T) (L : list (HeapEntry T)).
Implicit Types (p i j len : nat) (idx : gmap positive Z).

(** ** The heap order *)

(** [e1] may be above [e2]. *)
Definition above e1 e2 : Prop := comp (he_val e1) (he_val e2) = false.

Lemma above_trans e1 e2 e3 : above e1 e2 → above e2 e3 → above e1 e3.
Proof. apply swo_negtrans. Qed.

Lemma above_total e1 e2 : comp (he_val e1) (he_val e2) = true → above e2 e1.
Proof. apply swo_asym. Qed.

Definition edge L i : Prop :=
  ∀ e1 e2, L !! parent i = Some e1 → L !! i = Some e2 → above e1 e2.

(** The first [len] entries are a heap. *)
Definition is_heap len L : Prop := ∀ i, (0 < i < len)%nat → edge L i.

(** A heap but for the entry at [p], which may be too small for its place; the
    entries below it fit below its parent. *)
Definition skips len L p : Prop :=
  ∀ c ep ec, (0 < p)%nat → (0 < c < len)%nat → parent c = p →
    L !! parent p = Some ep → L !! c = Some ec → above ep ec.

Definition heap_up len L p : Prop :=
  (∀ i, (0 < i < len)%nat → i ≠ p → edge L i) ∧ skips len L p.

(** A heap but for the edges below [p] and, unless [B] holds, the edge above it. *)
Definition heap_down (B : Prop) len L p : Prop :=
  (∀ i, (0 < i < len)%nat → parent i ≠ p → i ≠ p ∨ B → edge L i) ∧ skips len L p.

Lemma is_heap_up len L p : is_heap len L → heap_up len L p.
Proof.
  intros HL. split; [intros; by apply HL|].
  intros c ep ec Hp Hc Hpc Hep Hec.
  pose proof (parent_lt p Hp). pose proof (parent_lt c ltac:(lia)).
  destruct (L !! p) as [e|] eqn:He.
  - apply (above_trans _ e).
    + apply (HL p); [lia|done..].
    + apply (HL c); [done| |done]. by rewrite Hpc.
  - apply lookup_ge_None in He. apply lookup_lt_Some in Hec. lia.
Qed.

Lemma heap_up_root len L : heap_up len L 0 → is_heap len L.
Proof. intros [H _] i Hi. apply H; lia. Qed.

(** The root of a heap is above all its entries. *)
Lemma heap_top len L e0 i e :
  is_heap len L → L !! 0%nat = Some e0 → (i < len)%nat → L !! i = Some e → above e0 e.
Proof.
  intros HL H0. revert e. induction i as [i IH] using (well_founded_induction lt_wf).
  intros e Hi He. destruct (decide (i = 0%nat)) as [->|Hi0].
  - rewrite H0 in He. injection He as <-. unfold above.
    destruct (comp (he_val e0) (he_val e0)) eqn:E; [|done].
    pose proof (swo_asym _ _ E). congruence.
  - pose proof (parent_lt i ltac:(lia)).
    destruct (lookup_lt_is_Some_2 L (parent i)) as [ep Hep].
    { apply lookup_lt_Some in He. lia. }
    apply (above_trans _ ep); [by apply (IH (parent i)); [lia|lia|]|].
    by apply (HL i ltac:(lia)).
Qed.

(** ** One iteration keeps the invariant, with the hole one level up or down *)

Local Ltac at_swap H :=
  erewrite swapped_lookup in H by (eassumption || lia);
  repeat case_decide; simplify_eq; try lia.

Lemma up_swap len L p hole e :
  (0 < p < len)%nat → L !! p = Some hole → L !! parent p = Some e →
  comp (he_val e) (he_val hole) = true →
  heap_up len L p → heap_up len (swapped L p (parent p) hole e) (parent p).
Proof.
  intros Hp Hh He Hc [Hedge Hskip]. pose proof (parent_lt p ltac:(lia)) as Hq.
  pose proof (above_total _ _ Hc) as Habove. split.
  - intros i Hi Hiq e1 e2 E1 E2. pose proof (parent_lt i ltac:(lia)).
    at_swap E1; at_swap E2.
    + apply (Hskip i); done || lia.
    + done.
    + eapply above_trans; [exact Habove|]. apply (Hedge i); [done..| |done]. congruence.
    + apply (Hedge i); done.
  - intros c ep ec Hq0 Hcl Hcq Ep Ec. pose proof (parent_lt (parent p) ltac:(lia)).
    pose proof (parent_lt c ltac:(lia)). at_swap Ep; at_swap Ec.
    + apply (Hedge (parent p)); done || lia.
    + apply (above_trans _ e); [apply (Hedge (parent p)); done || lia|].
      apply (Hedge c); [done..| |done]. congruence.
Qed.

Lemma down_swap B len L p j hole ej :
  (0 < j < len)%nat → parent j = p → L !! p = Some hole → L !! j = Some ej →
  comp (he_val hole) (he_val ej) = true →
  (∀ c ec, (0 < c < len)%nat → parent c = p → L !! c = Some ec → c ≠ j → above ej ec) →
  heap_down B len L p → heap_down True len (swapped L p j hole ej) j.
Proof.
  intros Hj Hpj Hh Hej Hc Hsib [Hedge Hskip]. pose proof (parent_lt j ltac:(lia)) as Hlt.
  pose proof (above_total _ _ Hc) as Habove. split.
  - intros i Hi Hij _ e1 e2 E1 E2. pose proof (parent_lt i ltac:(lia)).
    at_swap E1; at_swap E2; try (done || lia).
    + apply (Hsib i); done.
    + apply (Hskip j); done || lia.
    + apply (Hedge i); [done..|left; done|done|done].
  - intros c ep ec _ Hcl Hcj Ep Ec. pose proof (parent_lt c ltac:(lia)).
    at_swap Ep; at_swap Ec.
    apply (Hedge c); [done|lia|left; lia| |done]. congruence.
Qed.

Lemma down_stop B len L p hole :
  L !! p = Some hole → heap_down B len L p →
  (∀ c ec, (0 < c < len)%nat → parent c = p → L !! c = Some ec → above hole ec) →
  (∀ i, (0 < i < len)%nat → i ≠ p ∨ B → edge L i) ∧ skips len L p.
Proof.
  intros Hh [Hedge Hskip] Hc. split; [|done]. intros i Hi HB.
  destruct (decide (parent i = p)) as [Hp|Hp]; [|by apply Hedge].
  intros e1 e2 E1 E2. rewrite Hp in E1. simplify_eq. by apply (Hc i).
Qed.
End order.

(** ** Back-pointers, and what a sift changes *)
Section refs.
Context {T : Type}.
Implicit Types (e hole : HeapEntry T) (L : list (HeapEntry T)).
Implicit Types (p i j len : nat) (idx : gmap positive Z).

Definition refs L : list positive := omap he_ref_pos L.

(** Each of the first [len] entries has its position in its index. *)
Definition agrees len L idx : Prop :=
  ∀ i e, (i < len)%nat → L !! i = Some e →
    ∃ a, he_ref_pos e = Some a ∧ idx !! a = Some (Z.of_nat i).

(** The same, but the index of the entry at [p] may hold any number. *)
Record hole_inv len p L idx : Prop := {
  hv_len : (p < len ≤ length L)%nat;
  hv_max : Z.of_nat len < heap_max;
  hv_ref : ∀ i e, (i < len)%nat → L !! i = Some e →
    ∃ a, he_ref_pos e = Some a ∧ is_Some (idx !! a) ∧ (i ≠ p → idx !! a = Some (Z.of_nat i));
  hv_inj : ∀ i j ei ej, (i < len)%nat → (j < len)%nat → L !! i = Some ei →
    L !! j = Some ej → he_ref_pos ei = he_ref_pos ej → i = j;
}.

Lemma agrees_hole_inv len p L idx :
  (p < len ≤ length L)%nat → Z.of_nat len < heap_max → agrees len L idx → hole_inv len p L idx.
Proof.
  intros Hp Hm Ha. split; [done..| |].
  - intros i e Hi He. destruct (Ha i e Hi He) as (a & ? & E). exists a. rewrite E. eauto.
  - intros i j ei ej Hi Hj Ei Ej E. destruct (Ha i ei Hi Ei) as (a & ? & ?).
    destruct (Ha j ej Hj Ej) as (b & ? & ?). simplify_eq. assert (a = b) by congruence. naive_solver lia.
Qed.

(** What an operation on the first [len] entries leaves alone. *)
Record evolves len L idx L' idx' : Prop := {
  ev_perm : take len L' ≡ₚ take len L;
  ev_drop : drop len L' = drop len L;
  ev_frame : same_except (refs (take len L)) idx idx';
  ev_dom : dom idx' = dom idx;
}.

#[export] Instance refs_proper : Proper ((≡ₚ) ==> (≡ₚ)) refs.
Proof. intros L L' E. unfold refs. by rewrite E. Qed.

Lemma evolves_refl len L idx : evolves len L idx L idx.
Proof. by split. Qed.

Lemma evolves_trans len L1 x1 L2 x2 L3 x3 :
  evolves len L1 x1 L2 x2 → evolves len L2 x2 L3 x3 → evolves len L1 x1 L3 x3.
Proof.
  intros [P D F M] [P' D' F' M']. split; [by rewrite P'|congruence| |congruence].
  eapply same_except_trans; [exact F|]. by rewrite <- P.
Qed.

Lemma refs_lookup L i e a : L !! i = Some e → he_ref_pos e = Some a → a ∈ refs L.
Proof. intros Hi Ha. apply list_elem_of_omap. exists e. by split; [eapply list_elem_of_lookup_2|]. Qed.

Lemma refs_take len L i e a :
  (i < len)%nat → L !! i = Some e → he_ref_pos e = Some a → a ∈ refs (take len L).
Proof. intros Hi He Ha. apply (refs_lookup _ i e); [by rewrite lookup_take_lt|done]. Qed.

(** Writing the position of an entry of the heap. *)
Lemma evolves_index len L idx i e a x :
  (i < len)%nat → L !! i = Some e → he_ref_pos e = Some a → is_Some (idx !! a) →
  evolves len L idx L (<[a:=x]> idx).
Proof.
  intros Hi He Ha Hx. split; [done..| |].
  - apply same_except_insert; [by eapply refs_take|done].
  - apply dom_insert_lookup_L. done.
Qed.

Lemma evolves_swap len L idx p j hole e :
  (p < len)%nat → (j < len)%nat → p ≠ j → L !! p = Some hole → L !! j = Some e →
  evolves len L idx (swapped L p j hole e) idx.
Proof.
  intros Hp Hj Hpj Hh He. split; [|by rewrite swapped_drop|done..].
  rewrite swapped_take by done. by apply swapped_perm; rewrite ?lookup_take_lt.
Qed.

Lemma hole_inv_swap len p j L idx hole e b :
  hole_inv len p L idx → (j < len)%nat → p ≠ j → L !! p = Some hole → L !! j = Some e →
  he_ref_pos e = Some b →
  hole_inv len j (swapped L p j hole e) (<[b:=Z.of_nat p]> idx).
Proof.
  intros [Hp Hm Href Hinj] Hj Hpj Hh He Hb. split; [rewrite swapped_length; lia|done| |].
  - intros i ei Hi Ei. rewrite (swapped_lookup L p j) in Ei by done. repeat case_decide; simplify_eq.
    + exists b. rewrite lookup_insert_eq. eauto.
    + destruct (Href p ei) as (a & ? & ? & _); [lia|done|]. exists a.
      split_and!; [done|by rewrite lookup_insert_is_Some'; right|done].
    + destruct (Href i ei) as (a & ? & ? & E); [lia|done|]. exists a.
      split_and!; [done|by rewrite lookup_insert_is_Some'; right|]. intros _.
      rewrite lookup_insert_ne; [by apply E|]. intros ->.
      assert (j = i); [|done]. apply (Hinj j i e ei); congruence || lia.
  - intros i k ei ek Hi Hk Ei Ek E. rewrite (swapped_lookup L p j) in Ei by done.
    rewrite (swapped_lookup L p j) in Ek by done.
    repeat case_decide; simplify_eq; try done.
    all: match goal with
         | H1 : ?l !! ?a = Some ?x, H2 : ?l !! ?b = Some ?y, H3 : he_ref_pos ?x = he_ref_pos ?y |- _ =>
             assert (a = b) by (eapply (Hinj a b x y); done || lia); congruence
         end.
Qed.

(** Putting the hole's entry back. *)
Lemma hole_inv_fill len p L idx hole a :
  hole_inv len p L idx → L !! p = Some hole → he_ref_pos hole = Some a →
  agrees len L (<[a:=Z.of_nat p]> idx).
Proof.
  intros [Hp Hm Href Hinj] Hh Ha i e Hi He. destruct (Href i e Hi He) as (b & Hb & _ & E).
  exists b. split; [done|]. destruct (decide (a = b)) as [->|Hab].
  - assert (i = p) as -> by (apply (Hinj i p e hole); congruence || lia). apply lookup_insert_eq.
  - rewrite lookup_insert_ne by done. apply E. congruence.
Qed.
End refs.

(** ** The sift loops *)
Section sift.
Context {T : Type} (comp : T → T → bool) `{!StrictWeakOrder comp}.
Implicit Types (s : heap_state T) (e hole : HeapEntry T) (L : list (HeapEntry T)).
Implicit Types (p i j len : nat) (idx : gmap positive Z).

(** The array with the hole filled. *)
Definition filled p hole s : list (HeapEntry T) := <[p:=hole]> (hs_arr s).

Lemma filled_eq p hole s : (p < length (hs_arr s))%nat → filled p hole s !! p = Some hole.
Proof. apply list_lookup_insert_eq. Qed.

Lemma filled_ne p i hole s : i ≠ p → hs_arr s !! i = filled p hole s !! i.
Proof. intros Hi. unfold filled. by rewrite list_lookup_insert_ne. Qed.

Lemma filled_length p hole s : length (filled p hole s) = length (hs_arr s).
Proof. apply length_insert. Qed.

(** The state after one move of an entry over the hole. *)
Definition moved p e b s : heap_state T :=
  mkHeapState (<[p:=e]> (hs_arr s)) (<[b:=Z.of_nat p]> (hs_idx s)).

Lemma filled_moved p j hole e b s :
  filled j hole (moved p e b s) = swapped (filled p hole s) p j hole e.
Proof. unfold filled, swapped. simpl. by rewrite list_insert_insert_eq. Qed.

(** [h[pos] = e; *(h[pos].ref_pos) = pos] *)
Lemma wp_move {A} (k : M (heap_state T) A) p e b s (Q : A → heap_state T → Prop) :
  (p < length (hs_arr s))%nat → he_ref_pos e = Some b → is_Some (hs_idx s !! b) →
  wp k (moved p e b s) Q →
  wp (h_set (Z.of_nat p) e;; e' ← h_get (Z.of_nat p); ref_set (he_ref_pos e') (Z.of_nat p);; k) s Q.
Proof.
  intros Hp Hb Hi HQ. wp_step. apply wp_h_set; [done|]. wp_step.
  apply (wp_h_get _ _ e); [by apply list_lookup_insert_eq|]. rewrite Hb. wp_step.
  by apply wp_ref_set.
Qed.

Lemma wp_sift_up_loop fuel len p hole s (Q : Z → heap_state T → Prop) :
  (p < fuel)%nat →
  hole_inv len p (filled p hole s) (hs_idx s) → heap_up comp len (filled p hole s) p →
  (∀ p' s', hole_inv len p' (filled p' hole s') (hs_idx s') →
    is_heap comp len (filled p' hole s') →
    evolves len (filled p hole s) (hs_idx s) (filled p' hole s') (hs_idx s') →
    Q (Z.of_nat p') s') →
  wp (sift_up_loop comp fuel (Z.of_nat p) hole) s Q.
Proof.
  revert p s. induction fuel as [|fuel IH]; intros p s Hf Hinv Hup HQ; [lia|].
  pose proof (hv_len _ _ _ _ Hinv) as Hp. pose proof (hv_max _ _ _ _ Hinv) as Hm.
  rewrite filled_length in Hp. simpl. destruct (Z.ltb_spec 0 (Z.of_nat p)) as [H0|H0].
  2: { assert (p = 0%nat) as -> by lia. apply wp_ret. apply HQ; [done| |apply evolves_refl].
    by apply heap_up_root. }
  rewrite parent_Z by lia. pose proof (parent_lt p ltac:(lia)) as Hq.
  destruct (lookup_lt_is_Some_2 (filled p hole s) (parent p)) as [e He].
  { rewrite filled_length. lia. }
  pose proof (filled_eq p hole s ltac:(lia)) as Hh.
  wp_step. apply (wp_h_get _ _ e); [by rewrite (filled_ne p _ hole) by lia|].
  destruct (comp (he_val e) (he_val hole)) eqn:Hc; simpl.
  - destruct (hv_ref _ _ _ _ Hinv (parent p) e) as (b & Hb & Hi & _); [lia|done|].
    apply (wp_move _ _ _ b); [lia|done..|].
    apply IH; [lia|..]; try rewrite (filled_moved p).
    + by eapply hole_inv_swap; eauto with lia.
    + by apply up_swap; eauto with lia.
    + intros p' s' Hinv' Hheap Hev. apply HQ; [done..|].
      eapply evolves_trans; [|exact Hev].
      eapply evolves_trans; [by eapply (evolves_index _ _ _ (parent p) e b (Z.of_nat p)); eauto with lia|].
      apply evolves_swap; done || lia.
  - apply wp_ret. apply HQ; [done| |apply evolves_refl].
    intros i Hi. destruct (decide (i = p)) as [->|Hip]; [|by apply Hup].
    intros e1 e2 E1 E2. simplify_eq. done.
Qed.

(** [h[pos] = hole; *(h[pos].ref_pos) = pos] at the end of both functions *)
Lemma evolves_fill len p L idx hole a :
  hole_inv len p L idx → L !! p = Some hole → he_ref_pos hole = Some a →
  evolves len L idx L (<[a:=Z.of_nat p]> idx).
Proof.
  intros Hinv Hh Ha. destruct (hv_ref _ _ _ _ Hinv p hole) as (b & ? & ? & _); [|done|].
  { pose proof (hv_len _ _ _ _ Hinv). lia. }
  simplify_eq. eapply evolves_index; [|done..]. pose proof (hv_len _ _ _ _ Hinv). lia.
Qed.

Lemma wp_fill {A} (k : M (heap_state T) A) len p hole s (Q : A → heap_state T → Prop) :
  hole_inv len p (filled p hole s) (hs_idx s) →
  (∀ idx', agrees len (filled p hole s) idx' →
    evolves len (filled p hole s) (hs_idx s) (filled p hole s) idx' →
    wp k (mkHeapState (filled p hole s) idx') Q) →
  wp (h_set (Z.of_nat p) hole;; e ← h_get (Z.of_nat p); ref_set (he_ref_pos e) (Z.of_nat p);; k) s Q.
Proof.
  intros Hinv HQ. pose proof (hv_len _ _ _ _ Hinv) as Hp. rewrite filled_length in Hp.
  pose proof (filled_eq p hole s ltac:(lia)) as Hh.
  destruct (hv_ref _ _ _ _ Hinv p hole) as (a & Ha & Hi & _); [lia|done|].
  apply (wp_move _ _ _ a); [lia|done..|]. apply HQ.
  - by eapply hole_inv_fill.
  - by eapply evolves_fill.
Qed.

Lemma wp_fill_end len p hole s (Q : unit → heap_state T → Prop) :
  hole_inv len p (filled p hole s) (hs_idx s) →
  (∀ idx', agrees len (filled p hole s) idx' →
    evolves len (filled p hole s) (hs_idx s) (filled p hole s) idx' →
    Q tt (mkHeapState (filled p hole s) idx')) →
  wp (h_set (Z.of_nat p) hole;; e ← h_get (Z.of_nat p); ref_set (he_ref_pos e) (Z.of_nat p)) s Q.
Proof.
  intros Hinv HQ.
  assert (wp (h_set (Z.of_nat p) hole;; e ← h_get (Z.of_nat p);
    ref_set (he_ref_pos e) (Z.of_nat p);; mret tt) s Q) as Hw.
  { eapply wp_fill; [done|]. intros. by apply wp_ret, HQ. }
  revert Hw. unfold wp, mbind, M_bind, mret, M_ret.
  destruct (h_set _ _ s) as [[[] s1]|]; [|done].
  destruct (h_get _ s1) as [[e s2]|]; [|done].
  by destruct (ref_set _ _ s2) as [[[] s3]|].
Qed.

Lemma filled_self p hole s : hs_arr s !! p = Some hole → filled p hole s = hs_arr s.
Proof. apply list_insert_id. Qed.

Lemma wp_heap_sift_up len p s (Q : unit → heap_state T → Prop) :
  hole_inv len p (hs_arr s) (hs_idx s) → heap_up comp len (hs_arr s) p →
  (∀ s', agrees len (hs_arr s') (hs_idx s') → is_heap comp len (hs_arr s') →
    evolves len (hs_arr s) (hs_idx s) (hs_arr s') (hs_idx s') → Q tt s') →
  wp (heap_sift_up comp (Z.of_nat p)) s Q.
Proof.
  intros Hinv Hup HQ. pose proof (hv_len _ _ _ _ Hinv) as Hp.
  destruct (lookup_lt_is_Some_2 (hs_arr s) p) as [hole Hh]; [lia|].
  unfold heap_sift_up. wp_step. apply (wp_h_get _ _ hole); [done|]. wp_step. wp_step.
  wp_step. apply (wp_sift_up_loop _ len); rewrite ?(filled_self p hole s) by done; [lia|done..|].
  intros p' s' Hinv' Hheap Hev.
  eapply wp_fill_end; [done|]. intros idx' Ha Hev'. apply HQ; [done..|].
  by eapply evolves_trans.
Qed.

(** Choosing the child to compare the hole with. *)
Lemma wp_pick_child len p hole s (Q : Z → heap_state T → Prop) :
  (2 * p + 1 < len ≤ length (hs_arr s))%nat →
  (∀ j ej, (0 < j < len)%nat → parent j = p → filled p hole s !! j = Some ej →
    (∀ c ec, (0 < c < len)%nat → parent c = p → filled p hole s !! c = Some ec → c ≠ j →
      above comp ej ec) → Q (Z.of_nat j) s) →
  wp (pick_child comp (Z.of_nat len) (Z.of_nat (2 * p + 1)) (Z.of_nat (2 * p + 2))) s Q.
Proof.
  intros Hp HQ. unfold pick_child.
  assert (∀ c, (2 * p + 1 ≤ c < len)%nat → ∃ e, filled p hole s !! c = Some e ∧ hs_arr s !! c = Some e)
    as Hget.
  { intros c Hc. destruct (lookup_lt_is_Some_2 (hs_arr s) c) as [e He]; [lia|].
    exists e. by rewrite <- (filled_ne p) by lia. }
  destruct (Hget (2 * p + 1)%nat) as (el & El & El'); [lia|].
  destruct (Z.ltb_spec (Z.of_nat (2 * p + 2)) (Z.of_nat len)) as [Hr|Hr].
  - destruct (Hget (2 * p + 2)%nat) as (er & Er & Er'); [lia|].
    wp_step. apply (wp_h_get _ _ el); [done|]. wp_step. apply (wp_h_get _ _ er); [done|].
    wp_step. destruct (comp (he_val el) (he_val er)) eqn:E.
    + apply (HQ _ er); [lia|apply parent_child; lia|done|].
      intros c ec Hc [->| ->]%parent_child Ec Hne; [|done|lia]. simplify_eq. by apply above_total.
    + apply (HQ _ el); [lia|apply parent_child; lia|done|].
      intros c ec Hc [->| ->]%parent_child Ec Hne; [done| |lia]. by simplify_eq.
  - wp_step. apply (HQ _ el); [lia|apply parent_child; lia|done|].
    intros c ec Hc [->| ->]%parent_child Ec Hne; lia || done.
Qed.

Lemma wp_sift_down_loop fuel B len p hole s (Q : Z → heap_state T → Prop) :
  (len - p < fuel)%nat →
  hole_inv len p (filled p hole s) (hs_idx s) → heap_down comp B len (filled p hole s) p →
  (∀ p' s', (p ≤ p')%nat → hole_inv len p' (filled p' hole s') (hs_idx s') →
    (∀ i, (0 < i < len)%nat → i ≠ p' ∨ (p < p')%nat ∨ B → edge comp (filled p' hole s') i) →
    skips comp len (filled p' hole s') p' →
    evolves len (filled p hole s) (hs_idx s) (filled p' hole s') (hs_idx s') →
    Q (Z.of_nat p') s') →
  wp (sift_down_loop comp fuel (Z.of_nat len) (Z.of_nat p) hole) s Q.
Proof.
  revert B p s. induction fuel as [|fuel IH]; intros B p s Hf Hinv Hdown HQ; [lia|].
  pose proof (hv_len _ _ _ _ Hinv) as Hp. pose proof (hv_max _ _ _ _ Hinv) as Hm.
  rewrite filled_length in Hp. pose proof (filled_eq p hole s ltac:(lia)) as Hh.
  assert (Hstop : (∀ c ec, (0 < c < len)%nat → parent c = p → filled p hole s !! c = Some ec →
    above comp hole ec) → wp (mret (Z.of_nat p)) s Q).
  { intros Hc. destruct (down_stop _ _ _ _ _ _ Hh Hdown Hc) as [Hedge Hskip].
    apply wp_ret. apply HQ; [lia|done| |done|apply evolves_refl].
    intros i Hi [?|[?|?]]; [apply Hedge; auto|lia|apply Hedge; auto]. }
  cbn [sift_down_loop]. rewrite left_Z, right_Z by lia. cbv zeta.
  destruct (Z.leb_spec (Z.of_nat len) (Z.of_nat (2 * p + 1))) as [Hl|Hl].
  { apply Hstop. intros c ec Hc [->| ->]%parent_child; lia. }
  wp_step. apply (wp_pick_child len p hole); [lia|]. intros j ej Hj Hpj Hej Hsib.
  pose proof (parent_lt j ltac:(lia)) as Hlt.
  wp_step. apply (wp_h_get _ _ ej); [by rewrite (filled_ne p _ hole) by lia|].
  destruct (comp (he_val hole) (he_val ej)) eqn:Hc; cbv [negb].
  - destruct (hv_ref _ _ _ _ Hinv j ej) as (b & Hb & Hi & _); [lia|done|].
    apply (wp_move _ _ _ b); [lia|done..|].
    apply (IH True); [lia|..]; try rewrite (filled_moved p).
    + by eapply hole_inv_swap; eauto with lia.
    + by eapply down_swap; eauto with lia.
    + intros p' s' Hpp Hinv' Hedge Hskip Hev. apply HQ; [lia|done| |done|].
      { intros i Hi' _. apply Hedge; auto. }
      eapply evolves_trans; [|exact Hev].
      eapply evolves_trans; [by eapply (evolves_index _ _ _ j ej b (Z.of_nat p)); eauto with lia|].
      apply evolves_swap; done || lia.
  - apply Hstop. intros c ec Hcl Hcp Ec. destruct (decide (c = j)) as [->|Hcj].
    + by simplify_eq.
    + apply (above_trans _ _ ej); [done|]. by apply (Hsib c).
Qed.

Lemma wp_heap_sift_down B len p s (Q : bool → heap_state T → Prop) :
  hole_inv len p (hs_arr s) (hs_idx s) → heap_down comp B len (hs_arr s) p →
  (∀ p' s', (p ≤ p')%nat → agrees len (hs_arr s') (hs_idx s') →
    (∀ i, (0 < i < len)%nat → i ≠ p' ∨ (p < p')%nat ∨ B → edge comp (hs_arr s') i) →
    skips comp len (hs_arr s') p' →
    evolves len (hs_arr s) (hs_idx s) (hs_arr s') (hs_idx s') → Q (Z.of_nat p <? Z.of_nat p') s') →
  wp (heap_sift_down comp (Z.of_nat len) (Z.of_nat p)) s Q.
Proof.
  intros Hinv Hdown HQ. pose proof (hv_len _ _ _ _ Hinv) as Hp.
  destruct (lookup_lt_is_Some_2 (hs_arr s) p) as [hole Hh]; [lia|].
  unfold heap_sift_down. wp_step. apply (wp_h_get _ _ hole); [done|]. wp_step. wp_step.
  wp_step. apply (wp_sift_down_loop _ B); rewrite ?(filled_self p hole s) by done; [lia|done..|].
  intros p' s' Hpp Hinv' Hedge Hskip Hev.
  eapply wp_fill; [done|]. intros idx' Ha Hev'. apply wp_ret. apply HQ; [done..|].
  by eapply evolves_trans.
Qed.
End sift.
