(* ===== verification/HeapMap.v ===== *)
(** The heap as a finite map from entries to values: [heap_rep] and the rules of
    the operations of container/heap.h and of the server's [heap_upsert] and
    [heap_remove] on it. *)
From S2P Require Import Prelude Heap HeapProof.

Section fix_up.
Context {T : Type} (comp : T → T → bool) `{!StrictWeakOrder comp}.
Implicit Types (s : heap_state T) (e : HeapEntry T) (L : list (HeapEntry T)).
Implicit Types (p i j len : nat) (idx : gmap positive Z).

Lemma heap_down_ext B len L L' p :
  (p < len)%nat → (∀ i, (i < len)%nat → L' !! i = L !! i) →
  heap_down comp B len L p → heap_down comp B len L' p.
Proof.
  intros Hp HL [Hedge Hskip]. split.
  - intros i Hi Hip HB e1 e2. pose proof (parent_lt i ltac:(lia)).
    rewrite !HL by lia. by apply Hedge.
  - intros c ep ec Hp0 Hc Hcp. pose proof (parent_lt p ltac:(lia)).
    rewrite !HL by lia. by apply Hskip.
Qed.

Lemma is_heap_ext len len' L L' :
  (len ≤ len')%nat → (∀ i, (i < len)%nat → L' !! i = L !! i) →
  is_heap comp len' L → is_heap comp len L'.
Proof.
  intros Hle HL Hh i Hi e1 e2. pose proof (parent_lt i ltac:(lia)).
  rewrite !HL by lia. apply Hh. lia.
Qed.

(** Changing one entry of a heap leaves both its edges to be repaired. *)
Lemma heap_down_update len L p e :
  (p < len ≤ length L)%nat → is_heap comp len L → heap_down comp False len (<[p:=e]> L) p.
Proof.
  intros Hp Hh. destruct (is_heap_up comp len L p Hh) as [_ Hskip]. split.
  - intros i Hi Hip [Hne|[]] e1 e2. rewrite !list_lookup_insert_ne by done. by apply Hh.
  - intros c ep ec Hp0 Hc Hcp. pose proof (parent_lt p ltac:(lia)).
    pose proof (parent_lt c ltac:(lia)).
    rewrite !list_lookup_insert_ne by lia. by apply Hskip.
Qed.

Lemma wp_heap_fix len p s (Q : unit → heap_state T → Prop) :
  hole_inv len p (hs_arr s) (hs_idx s) → heap_down comp False len (hs_arr s) p →
  (∀ s', agrees len (hs_arr s') (hs_idx s') → is_heap comp len (hs_arr s') →
    evolves len (hs_arr s) (hs_idx s) (hs_arr s') (hs_idx s') → Q tt s') →
  wp (heap_fix comp (Z.of_nat len) (Z.of_nat p)) s Q.
Proof.
  intros Hinv Hdown HQ. pose proof (hv_len _ _ _ _ Hinv) as Hp.
  pose proof (hv_max _ _ _ _ Hinv) as Hm. unfold heap_fix. wp_step.
  eapply wp_heap_sift_down; [done..|]. intros p' s' Hpp Ha Hedge Hskip Hev.
  assert (length (hs_arr s') = length (hs_arr s)) as Hlen.
  { rewrite <- (take_drop len (hs_arr s')), <- (take_drop len (hs_arr s)), !length_app.
    by rewrite (ev_perm _ _ _ _ _ Hev), (ev_drop _ _ _ _ _ Hev). }
  destruct (Z.ltb_spec (Z.of_nat p) (Z.of_nat p')) as [Hlt|Hle]; simpl.
  - apply wp_ret. apply HQ; [done| |done]. intros i Hi. apply Hedge; auto with lia.
  - assert (p' = p) as -> by lia. apply (wp_heap_sift_up _ len).
    + apply agrees_hole_inv; [lia|done..].
    + split; [|done]. intros i Hi Hip. apply Hedge; auto.
    + intros s'' Ha' Hheap Hev'. apply HQ; [done..|]. by eapply evolves_trans.
Qed.

Lemma wp_heap_push len s (Q : unit → heap_state T → Prop) :
  hole_inv (S len) len (hs_arr s) (hs_idx s) → is_heap comp len (hs_arr s) →
  (∀ s', agrees (S len) (hs_arr s') (hs_idx s') → is_heap comp (S len) (hs_arr s') →
    evolves (S len) (hs_arr s) (hs_idx s) (hs_arr s') (hs_idx s') → Q tt s') →
  wp (heap_push comp (Z.of_nat (S len))) s Q.
Proof.
  intros Hinv Hh HQ. pose proof (hv_max _ _ _ _ Hinv) as Hm. unfold heap_max in Hm.
  unfold heap_push. rewrite u64_small by lia. replace (Z.of_nat (S len) - 1) with (Z.of_nat len) by lia.
  apply (wp_heap_sift_up comp (S len)); [done| |done]. split.
  - intros i Hi Hne. apply Hh. lia.
  - intros c ep ec _ Hc Hcp. pose proof (parent_lt c ltac:(lia)). lia.
Qed.

Lemma wp_h_swap p j s ep ej (Q : unit → heap_state T → Prop) :
  hs_arr s !! p = Some ep → hs_arr s !! j = Some ej →
  Q tt (mkHeapState (swapped (hs_arr s) p j ep ej) (hs_idx s)) →
  wp (h_swap (Z.of_nat p) (Z.of_nat j)) s Q.
Proof.
  intros Hp Hj HQ. unfold h_swap. wp_step. apply (wp_h_get _ _ ep); [done|].
  wp_step. apply (wp_h_get _ _ ej); [done|]. wp_step.
  apply wp_h_set; [by eapply lookup_lt_Some|].
  apply wp_h_set; [simpl; rewrite length_insert; by eapply lookup_lt_Some|done].
Qed.

(** What [heap_pop] promises of the state: the entry at [p] is in the last place,
    and the others are a heap. *)
Definition popped len p s s' : Prop :=
  hs_arr s' !! len = hs_arr s !! p ∧ hs_arr s' ≡ₚ hs_arr s ∧
  agrees len (hs_arr s') (hs_idx s') ∧ is_heap comp len (hs_arr s') ∧
  same_except (refs (hs_arr s)) (hs_idx s) (hs_idx s') ∧ dom (hs_idx s') = dom (hs_idx s).

Lemma evolves_popped len p e el s s' :
  (p < len)%nat → length (hs_arr s) = S len →
  hs_arr s !! p = Some e → hs_arr s !! len = Some el →
  agrees len (hs_arr s') (hs_idx s') → is_heap comp len (hs_arr s') →
  evolves len (swapped (hs_arr s) p len e el) (hs_idx s) (hs_arr s') (hs_idx s') →
  popped len p s s'.
Proof.
  intros Hp Hlen He Hel Ha Hh [Hperm Hdrop Hframe Hdom].
  pose proof (swapped_perm _ _ _ _ _ He Hel ltac:(lia)) as Hsw.
  assert (hs_arr s' ≡ₚ hs_arr s) as Hall.
  { rewrite <- Hsw, <- (take_drop len (hs_arr s')), Hdrop, Hperm. by rewrite take_drop. }
  split_and!; try done.
  - replace len with (len + 0)%nat at 1 by lia. rewrite <- lookup_drop, Hdrop, lookup_drop.
    rewrite Nat.add_0_r. rewrite (swapped_lookup _ p len) by (done || lia).
    rewrite decide_False by lia. rewrite decide_True by done. done.
  - eapply same_except_mono; [|exact Hframe].
    intros a. unfold refs. rewrite !list_elem_of_omap. intros (x & Hx & ?).
    exists x. split; [|done]. rewrite <- Hsw. apply elem_of_take in Hx as (i & Hx & _).
    by eapply list_elem_of_lookup_2.
Qed.

Lemma swap_hole_inv len p e el s :
  (p < len)%nat → length (hs_arr s) = S len → Z.of_nat (S len) < heap_max →
  hs_arr s !! p = Some e → hs_arr s !! len = Some el →
  agrees (S len) (hs_arr s) (hs_idx s) →
  hole_inv len p (swapped (hs_arr s) p len e el) (hs_idx s).
Proof.
  intros Hp Hlen Hm He Hel Ha.
  pose proof (agrees_hole_inv (S len) 0 (hs_arr s) (hs_idx s) ltac:(lia) Hm Ha) as [_ _ Href Hinj].
  split; [rewrite swapped_length; lia|lia| |].
  - intros i ei Hi Ei. rewrite (swapped_lookup _ p len) in Ei by (done || lia).
    repeat case_decide; simplify_eq; try lia.
    + destruct (Href len ei) as (a & ? & ? & _); [lia|done|]. naive_solver.
    + destruct (Ha i ei) as (a & ? & E); [lia|done|]. exists a. rewrite E. eauto.
  - intros i k ei ek Hi Hk Ei Ek E. rewrite (swapped_lookup _ p len) in Ei, Ek by (done || lia).
    repeat case_decide; simplify_eq; try done || lia.
    all: match goal with
         | H1 : ?l !! ?a = Some ?x, H2 : ?l !! ?b = Some ?y, H3 : he_ref_pos ?x = he_ref_pos ?y |- _ =>
             assert (a = b) by (apply (Hinj a b x y); done || lia); lia
         end.
Qed.

(** [heap_pop] of the only entry: [__heap_sift_down] on an empty heap. *)
Lemma wp_sift_down_nil s e a (Q : bool → heap_state T → Prop) :
  hs_arr s !! 0%nat = Some e → he_ref_pos e = Some a → is_Some (hs_idx s !! a) →
  Q false (mkHeapState (hs_arr s) (<[a:=0]> (hs_idx s))) →
  wp (heap_sift_down comp 0 0) s Q.
Proof.
  intros He Ha Hi HQ. unfold heap_sift_down. wp_step. apply (wp_h_get _ 0 e); [done|].
  wp_step. wp_step. wp_step. cbn [sift_down_loop]. cbv zeta.
  destruct (Z.leb_spec 0 (u64 (u64 (0 * 2) + 1))) as [_|Hf]; [|exfalso; by vm_compute in Hf].
  apply wp_ret. change 0 with (Z.of_nat 0).
  apply (wp_move _ 0 e a); [by eapply lookup_lt_Some|done..|].
  apply wp_ret. unfold moved. by rewrite list_insert_id.
Qed.
End fix_up.

(** ** The map a heap stands for *)
Section heap_map.
Context {T : Type} (comp : T → T → bool) `{!StrictWeakOrder comp}.
Implicit Types (s : heap_state T) (e : HeapEntry T) (D : gmap positive T) (a b : positive).

Record heap_rep s D : Prop := {
  hr_max : Z.of_nat (length (hs_arr s)) < heap_max;
  hr_heap : is_heap comp (length (hs_arr s)) (hs_arr s);
  hr_agrees : agrees (length (hs_arr s)) (hs_arr s) (hs_idx s);
  hr_map : ∀ a v, D !! a = Some v ↔ mkHeapEntry (Some a) v ∈ hs_arr s;
}.

Lemma hr_lookup s D i e :
  heap_rep s D → hs_arr s !! i = Some e →
  ∃ a v, e = mkHeapEntry (Some a) v ∧ D !! a = Some v ∧ hs_idx s !! a = Some (Z.of_nat i).
Proof.
  intros HD He. destruct (hr_agrees _ _ HD i e) as (a & Ha & ?); [by eapply lookup_lt_Some|done|].
  destruct e as [r v]. simpl in *. subst r. exists a, v. split_and!; [done| |done].
  apply (hr_map _ _ HD). by eapply list_elem_of_lookup_2.
Qed.

Lemma hr_find s D a v x :
  heap_rep s D → D !! a = Some v → hs_idx s !! a = Some x →
  ∃ i, x = Z.of_nat i ∧ hs_arr s !! i = Some (mkHeapEntry (Some a) v).
Proof.
  intros HD [i Hi]%(hr_map _ _ HD)%list_elem_of_lookup Hx. exists i. split; [|done].
  destruct (hr_lookup _ _ _ _ HD Hi) as (b & w & ? & _ & ?). by simplify_eq.
Qed.

Lemma hr_refs s D a : heap_rep s D → a ∈ refs (hs_arr s) ↔ a ∈ dom D.
Proof.
  intros HD. unfold refs. rewrite list_elem_of_omap, elem_of_dom. split.
  - intros (e & [i Hi]%list_elem_of_lookup & Ha).
    destruct (hr_lookup _ _ _ _ HD Hi) as (b & w & -> & ? & _). simplify_eq/=. by eexists.
  - intros [v Hv%(hr_map _ _ HD)]. by eexists.
Qed.

Lemma hr_refs_NoDup s D : heap_rep s D → NoDup (he_ref_pos <$> hs_arr s).
Proof.
  intros HD. apply NoDup_alt. intros i j x.
  rewrite !list_lookup_fmap. intros Hi Hj.
  destruct (hs_arr s !! i) as [ei|] eqn:Ei; [|done]. destruct (hs_arr s !! j) as [ej|] eqn:Ej; [|done].
  destruct (hr_lookup _ _ _ _ HD Ei) as (a & v & -> & _ & Ha).
  destruct (hr_lookup _ _ _ _ HD Ej) as (b & w & -> & _ & Hb).
  simplify_eq/=. lia.
Qed.

Lemma hr_empty idx : heap_rep (mkHeapState [] idx) ∅.
Proof. split; simpl; [done|intros i ?; lia|intros i e ?; lia|]. intros a v. set_solver. Qed.

Lemma refs_fmap (L : list (HeapEntry T)) :
  Forall (λ e, is_Some (he_ref_pos e)) L → he_ref_pos <$> L = Some <$> refs L.
Proof.
  induction 1 as [|e L [a Ha] HL IH]; [done|]. cbn. rewrite Ha. cbn. f_equal. exact IH.
Qed.

Lemma hr_refs_fmap s D : heap_rep s D → he_ref_pos <$> hs_arr s = Some <$> refs (hs_arr s).
Proof.
  intros HD. apply refs_fmap, Forall_lookup. intros i e Hi.
  destruct (hr_lookup _ _ _ _ HD Hi) as (? & ? & -> & _). by eexists.
Qed.

Lemma hr_length s D : heap_rep s D → length (hs_arr s) = size D.
Proof.
  intros HD. pose proof (hr_refs_NoDup _ _ HD) as Hn. pose proof (hr_refs_fmap _ _ HD) as E.
  rewrite <- (length_fmap he_ref_pos), E in *. apply NoDup_fmap_1 in Hn. rewrite length_fmap.
  rewrite <- size_dom, <- (size_list_to_set (C:=gset positive) (refs (hs_arr s))) by done.
  f_equal. apply set_eq. intros a. by rewrite elem_of_list_to_set, (hr_refs s D).
Qed.

(** A step of the heap operations keeps the map when it keeps the entries. *)
Lemma hr_evolves s D s' D' :
  Z.of_nat (length (hs_arr s')) < heap_max →
  agrees (length (hs_arr s')) (hs_arr s') (hs_idx s') →
  is_heap comp (length (hs_arr s')) (hs_arr s') →
  (∀ a v, D' !! a = Some v ↔ mkHeapEntry (Some a) v ∈ hs_arr s') → heap_rep s' D'.
Proof. by split. Qed.

(** What both operations leave alone: the indices of entries outside of the heap. *)
Definition frame_idx (D : gmap positive T) s s' : Prop :=
  (∀ b, b ∉ dom D → hs_idx s' !! b = hs_idx s !! b) ∧ dom (hs_idx s') = dom (hs_idx s).

Lemma wp_ref_get s a x (Q : Z → heap_state T → Prop) :
  hs_idx s !! a = Some x → Q x s → wp (ref_get (Some a)) s Q.
Proof. intros Hx HQ. unfold wp, ref_get. by rewrite Hx. Qed.

Lemma evolves_all s s' :
  evolves (length (hs_arr s)) (hs_arr s) (hs_idx s) (hs_arr s') (hs_idx s') →
  hs_arr s' ≡ₚ hs_arr s ∧ length (hs_arr s') = length (hs_arr s) ∧
  same_except (refs (hs_arr s)) (hs_idx s) (hs_idx s').
Proof.
  intros [Hp Hd Hf _]. rewrite firstn_all in Hp, Hf. rewrite drop_all in Hd.
  assert (hs_arr s' ≡ₚ hs_arr s) as Hall.
  { rewrite <- (take_drop (length (hs_arr s)) (hs_arr s')), Hd, Hp. by rewrite app_nil_r. }
  split_and!; [done|by rewrite Hall|done].
Qed.

Lemma list_insert_elem {A} (l : list A) i y x :
  (i < length l)%nat → x ∈ <[i:=y]> l ↔ x = y ∨ ∃ j, j ≠ i ∧ l !! j = Some x.
Proof.
  intros Hi. rewrite list_elem_of_lookup. split.
  - intros [j [(<- & <- & _)|[? ?]]%list_lookup_insert_Some]; naive_solver.
  - intros [->|(j & Hj & Hx)]; [exists i; by apply list_lookup_insert_eq|].
    exists j. by rewrite list_lookup_insert_ne.
Qed.

(** Changing the value of an entry in place. *)
Lemma hr_replace s D i a v0 v :
  heap_rep s D → hs_arr s !! i = Some (mkHeapEntry (Some a) v0) →
  ∀ b w, <[a:=v]> D !! b = Some w ↔ mkHeapEntry (Some b) w ∈ <[i:=mkHeapEntry (Some a) v]> (hs_arr s).
Proof.
  intros HD Hi b w. rewrite list_insert_elem by (by eapply lookup_lt_Some).
  destruct (hr_lookup _ _ _ _ HD Hi) as (? & ? & ? & Ha & Hia). simplify_eq.
  rewrite lookup_insert_Some, (hr_map _ _ HD). split.
  - intros [[-> ->]|[Hab [j Hj]%list_elem_of_lookup]]; [by left|].
    right. exists j. split; [|done]. intros ->. simplify_eq.
  - intros [?|(j & Hji & Hj)]; [left; naive_solver|]. right. split; [|by eapply list_elem_of_lookup_2].
    intros ->. destruct (hr_lookup _ _ _ _ HD Hj) as (? & ? & ? & ? & ?). by simplify_eq.
Qed.

(** A permutation of the array, repaired, stands for the same map. *)
Lemma hr_settle s L D s' :
  (∀ a v, D !! a = Some v ↔ mkHeapEntry (Some a) v ∈ L) →
  hs_arr s = L → Z.of_nat (length L) < heap_max →
  agrees (length L) (hs_arr s') (hs_idx s') → is_heap comp (length L) (hs_arr s') →
  evolves (length L) L (hs_idx s) (hs_arr s') (hs_idx s') →
  heap_rep s' D ∧ length (hs_arr s') = length L ∧ same_except (refs L) (hs_idx s) (hs_idx s').
Proof.
  intros HD <- Hm Ha Hh Hev. destruct (evolves_all _ _ Hev) as (Hp & Hl & Hf).
  split_and!; [|done..]. split; rewrite ?Hl; [done..|].
  intros a v. by rewrite HD, Hp.
Qed.

(** [heap_upsert] of an entry that is in the heap *)
Lemma wp_upsert_old s D a v v0 x (Q : unit → heap_state T → Prop) :
  heap_rep s D → hs_idx s !! a = Some x → D !! a = Some v0 →
  (∀ s', heap_rep s' (<[a:=v]> D) → frame_idx (<[a:=v]> D) s s' → Q tt s') →
  wp (heap_upsert comp (mkHeapEntry (Some a) v)) s Q.
Proof.
  intros HD Hx Ea HQ. unfold heap_upsert. wp_step. apply (wp_ref_get _ _ x); [done|].
  wp_step. apply (wp_eq _ _ (Z.of_nat (length (hs_arr s))) s); [done|].
  destruct (hr_find _ _ _ _ _ HD Ea Hx) as (i & -> & Hi). pose proof (lookup_lt_Some _ _ _ Hi) as Hil.
  destruct (Z.ltb_spec (Z.of_nat i) (Z.of_nat (length (hs_arr s)))) as [_|?]; [|lia].
  wp_step. apply wp_h_set; [done|]. wp_step. eapply wp_eq; [done|]. simpl hs_arr.
  set (L := <[i:=mkHeapEntry (Some a) v]> (hs_arr s)).
  pose proof (hr_replace _ _ _ _ _ v HD Hi) as Hmap. fold L in Hmap.
  pose proof (hr_max _ _ HD) as Hm. pose proof (hr_heap _ _ HD) as Hh.
  assert (length (hs_arr s) = length L) as HL by (symmetry; apply length_insert).
  rewrite HL in Hm, Hh. assert (agrees (length L) L (hs_idx s)) as Hag.
  { intros j e Hj [(-> & <- & _)|[Hji He]]%list_lookup_insert_Some; [by exists a|].
    apply (hr_agrees _ _ HD); [lia|done]. }
  apply (wp_heap_fix comp); simpl.
  - apply agrees_hole_inv; [lia|lia|done].
  - apply (heap_down_update comp _ (hs_arr s)); [lia|done].
  - intros s' Ha Hh' Hev.
    destruct (hr_settle (mkHeapState L (hs_idx s)) L (<[a:=v]> D) s' Hmap) as (HD' & _ & Hf); [done..|].
    apply HQ; [done|]. split; [|by rewrite (ev_dom _ _ _ _ _ Hev)].
    intros b Hb. apply Hf. intros ([r w] & He & Hr)%list_elem_of_omap. simplify_eq/=.
    apply Hb, elem_of_dom. exists w. by apply Hmap.
Qed.

Lemma hr_append_hole s D a v x :
  heap_rep s D → hs_idx s !! a = Some x → D !! a = None →
  Z.of_nat (S (length (hs_arr s))) < heap_max →
  hole_inv (S (length (hs_arr s))) (length (hs_arr s)) (hs_arr s ++ [mkHeapEntry (Some a) v]) (hs_idx s).
Proof.
  intros HD Hx Ea Hm.
  assert (Hold : ∀ i e, hs_arr s !! i = Some e → ∃ b w, e = mkHeapEntry (Some b) w ∧
    hs_idx s !! b = Some (Z.of_nat i) ∧ b ≠ a).
  { intros i e Hi. destruct (hr_lookup _ _ _ _ HD Hi) as (b & w & -> & ? & ?).
    exists b, w. split_and!; [done..|congruence]. }
  split; [rewrite length_app; simpl; lia|done| |].
  - intros i e Hi [He|[Hge He]]%lookup_app_Some.
    + destruct (Hold i e He) as (b & w & -> & E & _). exists b. rewrite E. eauto.
    + apply list_lookup_singleton_Some in He as [? <-]. exists a. rewrite Hx.
      split_and!; [done|by eexists|lia].
  - intros i j ei ej Hi Hj [Ei|[? Ei]]%lookup_app_Some [Ej|[? Ej]]%lookup_app_Some E.
    all: try apply list_lookup_singleton_Some in Ei as [? <-].
    all: try apply list_lookup_singleton_Some in Ej as [? <-].
    all: try destruct (Hold i ei Ei) as (b & w & -> & Hb & ?).
    all: try destruct (Hold j ej Ej) as (b' & w' & -> & Hb' & ?).
    all: simplify_eq/=; lia.
Qed.

(** [heap_upsert] of an entry that is not in the heap *)
Lemma wp_upsert_new s D a v x (Q : unit → heap_state T → Prop) :
  heap_rep s D → hs_idx s !! a = Some x → D !! a = None →
  Z.of_nat (length (hs_arr s)) ≤ x → Z.of_nat (S (length (hs_arr s))) < heap_max →
  (∀ s', heap_rep s' (<[a:=v]> D) → frame_idx (<[a:=v]> D) s s' → Q tt s') →
  wp (heap_upsert comp (mkHeapEntry (Some a) v)) s Q.
Proof.
  intros HD Hx Ea Hxl Hm HQ. unfold heap_upsert. wp_step. apply (wp_ref_get _ _ x); [done|].
  wp_step. apply (wp_eq _ _ (Z.of_nat (length (hs_arr s))) s); [done|].
  destruct (Z.ltb_spec x (Z.of_nat (length (hs_arr s)))) as [?|_]; [lia|].
  wp_step. eapply wp_eq; [done|]. wp_step. eapply wp_eq; [done|]. simpl hs_arr.
  pose proof (hr_append_hole _ _ _ v _ HD Hx Ea Hm) as Hhole.
  set (L := hs_arr s ++ [mkHeapEntry (Some a) v]) in *.
  assert (S (length (hs_arr s)) = length L) as HL by (unfold L; rewrite length_app; simpl; lia).
  assert (∀ b w, <[a:=v]> D !! b = Some w ↔ mkHeapEntry (Some b) w ∈ L) as Hmap.
  { intros b w. unfold L. rewrite elem_of_app, list_elem_of_singleton, lookup_insert_Some.
    rewrite <- (hr_map _ _ HD). split; [naive_solver|].
    intros [Hb|[= -> ->]]; [|by left]. right. split; [|done]. congruence. }
  rewrite <- HL. apply (wp_heap_push comp); simpl; [done| |].
  - eapply is_heap_ext; [done| |apply (hr_heap _ _ HD)].
    intros i Hi. unfold L. by rewrite lookup_app_l.
  - rewrite HL in *. intros s' Ha Hh' Hev.
    destruct (hr_settle (mkHeapState L (hs_idx s)) L (<[a:=v]> D) s' Hmap) as (HD' & _ & Hf); [done..|].
    apply HQ; [done|]. split; [|by rewrite (ev_dom _ _ _ _ _ Hev)].
    intros b Hb. apply Hf. intros ([r w] & He & Hr)%list_elem_of_omap. simplify_eq/=.
    apply Hb, elem_of_dom. exists w. by apply Hmap.
Qed.

Lemma wp_heap_upsert s D a v x (Q : unit → heap_state T → Prop) :
  heap_rep s D → hs_idx s !! a = Some x →
  (a ∉ dom D → Z.of_nat (length (hs_arr s)) ≤ x) → Z.of_nat (S (length (hs_arr s))) < heap_max →
  (∀ s', heap_rep s' (<[a:=v]> D) → frame_idx (<[a:=v]> D) s s' → Q tt s') →
  wp (heap_upsert comp (mkHeapEntry (Some a) v)) s Q.
Proof.
  intros HD Hx Hnew Hm HQ. destruct (D !! a) as [v0|] eqn:Ea.
  - by eapply wp_upsert_old.
  - eapply wp_upsert_new; [done..| |done|done]. apply Hnew. by apply not_elem_of_dom.
Qed.

Lemma popped_self s D len :
  heap_rep s D → length (hs_arr s) = S len → popped comp len len s s.
Proof.
  intros HD Hl. split_and!; [done|done| | |done|done].
  - intros i e Hi. apply (hr_agrees _ _ HD). lia.
  - eapply is_heap_ext; [|done|apply (hr_heap _ _ HD)]. lia.
Qed.

(** Both variants of [heap_pop] *)
Lemma wp_pop_swap s D len p e (Q : unit → heap_state T → Prop) (k : M (heap_state T) unit) :
  heap_rep s D → length (hs_arr s) = S len → hs_arr s !! p = Some e → (p < len)%nat →
  (∀ s1, hole_inv len p (hs_arr s1) (hs_idx s1) → heap_down comp False len (hs_arr s1) p →
    (∀ s', agrees len (hs_arr s') (hs_idx s') → is_heap comp len (hs_arr s') →
      evolves len (hs_arr s1) (hs_idx s1) (hs_arr s') (hs_idx s') → Q tt s') → wp k s1 Q) →
  (∀ s', popped comp len p s s' → Q tt s') →
  wp (h_swap (Z.of_nat p) (Z.of_nat len);; k) s Q.
Proof.
  intros HD Hl He Hp Hk HQ. destruct (lookup_lt_is_Some_2 (hs_arr s) len) as [el Hel]; [lia|].
  pose proof (hr_max _ _ HD) as Hm. pose proof (hr_agrees _ _ HD) as Ha. rewrite Hl in Hm, Ha.
  wp_step. apply (wp_h_swap _ _ _ e el); [done..|]. apply Hk; simpl.
  - by apply swap_hole_inv.
  - apply (heap_down_ext comp False len (<[p:=el]> (hs_arr s))); [done| |].
    { intros i Hi. unfold swapped. by rewrite list_lookup_insert_ne by lia. }
    apply (heap_down_update comp _ (hs_arr s)); [lia|]. eapply is_heap_ext; [|done|apply (hr_heap _ _ HD)]. lia.
  - intros s' Ha' Hh Hev. apply HQ. by eapply evolves_popped.
Qed.

Lemma wp_heap_pop s D len p e (Q : unit → heap_state T → Prop) :
  heap_rep s D → length (hs_arr s) = S len → hs_arr s !! p = Some e →
  (∀ s', popped comp len p s s' → Q tt s') →
  wp (heap_pop comp (Z.of_nat (S len)) (Z.of_nat p)) s Q.
Proof.
  intros HD Hl He HQ. pose proof (hr_max _ _ HD) as Hm. unfold heap_max in Hm.
  pose proof (lookup_lt_Some _ _ _ He) as Hp. unfold heap_pop, heap_pop_top.
  rewrite !u64_small by lia. replace (Z.of_nat (S len) - 1) with (Z.of_nat len) by lia.
  destruct (Z.eqb_spec (Z.of_nat p) 0) as [E0|Hp0].
  - assert (p = 0%nat) as -> by lia. change 0 with (Z.of_nat 0). destruct len as [|len].
    + destruct (hr_lookup _ _ _ _ HD He) as (a & v & -> & _ & Hx).
      wp_step. apply (wp_h_swap 0 0 s _ _ _ He He). wp_step.
      unfold swapped. rewrite list_insert_insert_eq, list_insert_id by done.
      apply (wp_sift_down_nil comp _ (mkHeapEntry (Some a) v) a); [done..|by eexists|].
      apply wp_ret, HQ. split_and!; simpl; [done|done|intros ??; lia|intros ??; lia| |].
      * apply same_except_insert; [|done]. by eapply refs_lookup.
      * apply dom_insert_lookup_L. by eexists.
    + eapply wp_pop_swap; [done..|lia| |done]. intros s1 Hinv Hdown Hk.
      wp_step. eapply wp_heap_sift_down; [done..|].
      intros p' s' Hpp Ha Hedge Hskip Hev. apply wp_ret, Hk; [done| |done].
      intros i Hi. apply Hedge; [done|]. destruct p'; [left; lia|right; left; lia].
  - destruct (Z.ltb_spec (Z.of_nat p) (Z.of_nat len)) as [Hlt|Hge].
    + eapply wp_pop_swap; [done..|lia| |done]. intros s1 Hinv Hdown Hk. by apply wp_heap_fix.
    + assert (p = len) as -> by lia. apply wp_ret, HQ. by eapply popped_self.
Qed.

Lemma removelast_take {A} (l : list A) n : length l = S n → removelast l = take n l.
Proof. intros Hl. rewrite removelast_firstn_len, Hl. done. Qed.

Lemma hr_popped s D len p a v s' :
  heap_rep s D → length (hs_arr s) = S len → hs_arr s !! p = Some (mkHeapEntry (Some a) v) →
  popped comp len p s s' →
  let s'' := mkHeapState (removelast (hs_arr s')) (hs_idx s') in
  heap_rep s'' (delete a D) ∧ frame_idx D s s''.
Proof.
  intros HD Hl He (Hlast & Hperm & Ha & Hh & Hf & Hdom). rewrite He in Hlast.
  pose proof (hr_max _ _ HD) as Hm. rewrite Hl in Hm.
  assert (length (hs_arr s') = S len) as Hl' by by rewrite Hperm.
  cbv zeta. rewrite (removelast_take _ len) by done.
  assert (hs_arr s' = take len (hs_arr s') ++ [mkHeapEntry (Some a) v]) as Es'.
  { rewrite <- (take_drop len (hs_arr s')) at 1. f_equal.
    rewrite (drop_S _ (mkHeapEntry (Some a) v)) by done. by rewrite drop_ge by lia. }
  assert (length (take len (hs_arr s')) = len) as Hlt by (rewrite length_take; lia).
  split; [split; simpl; rewrite ?Hlt; [lia| | |]|split; simpl; [|done]].
  - apply (is_heap_ext comp len len (hs_arr s')); [done| |done].
    intros i Hi. by rewrite lookup_take_lt.
  - intros i e Hi. rewrite lookup_take_lt by done. by apply Ha.
  - pose proof (hr_refs_NoDup _ _ HD) as Hnd. rewrite <- Hperm, Es', fmap_app in Hnd.
    apply NoDup_app in Hnd as (_ & Hnd & _). intros b w.
    rewrite lookup_delete_Some, (hr_map _ _ HD), <- Hperm.
    rewrite Es' at 1. rewrite elem_of_app, list_elem_of_singleton. split; [naive_solver|].
    intros Hb. split; [|by left]. intros <-. apply (Hnd (Some a)).
    + apply list_elem_of_fmap. by exists (mkHeapEntry (Some a) w).
    + apply list_elem_of_fmap. exists (mkHeapEntry (Some a) v). split; [done|by left].
  - intros b Hb. apply Hf. by rewrite (hr_refs s D).
Qed.

Lemma wp_heap_remove s D a v x (Q : unit → heap_state T → Prop) :
  heap_rep s D → hs_idx s !! a = Some x → D !! a = Some v →
  (∀ s', heap_rep s' (delete a D) → frame_idx D s s' → Q tt s') →
  wp (heap_remove comp x) s Q.
Proof.
  intros HD Hx Ea HQ. destruct (hr_find _ _ _ _ _ HD Ea Hx) as (p & -> & Hp).
  pose proof (lookup_lt_Some _ _ _ Hp) as Hpl.
  destruct (length (hs_arr s)) as [|len] eqn:Hl; [lia|].
  unfold heap_remove. wp_step. apply (wp_eq _ _ (Z.of_nat (S len)) s).
  { unfold vec_size. by rewrite Hl. }
  wp_step. eapply wp_heap_pop; [done..|]. intros s' Hs'.
  destruct (hr_popped _ _ _ _ _ _ _ HD Hl Hp Hs') as [HD' Hf].
  destruct Hs' as (Hlast & _). unfold wp, vec_pop_back.
  destruct (hs_arr s') eqn:E; [rewrite Hp in Hlast; done|]. rewrite <- E in *. by apply HQ.
Qed.

Lemma hr_top s D :
  heap_rep s D → D ≠ ∅ →
  ∃ a v, hs_arr s !! 0%nat = Some (mkHeapEntry (Some a) v) ∧ D !! a = Some v ∧
    (∀ b w, D !! b = Some w → comp v w = false).
Proof.
  intros HD Hne. pose proof (hr_length _ _ HD) as Hl.
  assert (size D ≠ 0%nat) as Hsz by by apply map_size_non_empty_iff.
  destruct (lookup_lt_is_Some_2 (hs_arr s) 0) as [e He]; [lia|].
  destruct (hr_lookup _ _ _ _ HD He) as (a & v & -> & Hv & _).
  exists a, v. split_and!; [done..|]. intros b w [i Hi]%(hr_map _ _ HD)%list_elem_of_lookup.
  pose proof (heap_top comp _ _ _ i _ (hr_heap _ _ HD) He (lookup_lt_Some _ _ _ Hi) Hi) as H.
  exact H.
Qed.
End heap_map.
