(* ===== verification/HeapTheorems.v ===== *)
(** The correctness theorems of container/heap.h and of [heap_upsert] and
    [heap_remove] (server/main.cc): the heap is a finite map from entries to values
    with a least entry at the top, and the back-pointers follow the entries. *)
From S2P Require Import Prelude Heap HeapProof HeapMap.

Section theorems.
Context {T : Type} (comp : T → T → bool) `{!StrictWeakOrder comp}.
Implicit Types (s : heap_state T) (D : gmap positive T) (a b : positive).

(** C14. [heap_upsert] of an entry, new (its index is past the end) or in the heap (its
    index is its position), sets the value of the entry in the map; the array is a
    heap again, every back-pointer has the position of its entry, and the indices
    outside of the heap are as before. *)
Theorem heap_upsert_correct s D a v x :
  heap_rep comp s D → hs_idx s !! a = Some x →
  (a ∉ dom D → Z.of_nat (length (hs_arr s)) ≤ x) → Z.of_nat (S (length (hs_arr s))) < heap_max →
  ∃ s', heap_upsert comp (mkHeapEntry (Some a) v) s = Some (tt, s') ∧
    heap_rep comp s' (<[a:=v]> D) ∧ frame_idx (<[a:=v]> D) s s'.
Proof.
  intros HD Hx Hnew Hm.
  destruct (proj1 (wp_run (heap_upsert comp (mkHeapEntry (Some a) v)) s (λ _ s',
    heap_rep comp s' (<[a:=v]> D) ∧ frame_idx (<[a:=v]> D) s s'))) as ([] & s' & ? & ? & ?); [|eauto].
  by eapply wp_heap_upsert.
Qed.

(** C22. [heap_remove] at the position that the entry's back-pointer has (the top, the
    last place or any other) takes exactly that entry out of the map, and restores
    the heap and the back-pointers. *)
Theorem heap_remove_correct s D a v x :
  heap_rep comp s D → hs_idx s !! a = Some x → D !! a = Some v →
  ∃ s', heap_remove comp x s = Some (tt, s') ∧
    heap_rep comp s' (delete a D) ∧ frame_idx D s s'.
Proof.
  intros HD Hx Ha.
  destruct (proj1 (wp_run (heap_remove comp x) s (λ _ s',
    heap_rep comp s' (delete a D) ∧ frame_idx D s s'))) as ([] & s' & ? & ? & ?); [|eauto].
  by eapply wp_heap_remove.
Qed.

(** [heap_pop] of the top moves an entry that no other entry precedes to the last
    place, and leaves the rest a heap with its back-pointers. *)
Theorem heap_pop_top_correct s D len :
  heap_rep comp s D → length (hs_arr s) = S len →
  ∃ s' a v, heap_pop comp (Z.of_nat (S len)) 0 s = Some (tt, s') ∧ hs_arr s' ≡ₚ hs_arr s ∧
    hs_arr s' !! len = Some (mkHeapEntry (Some a) v) ∧
    (∀ b w, D !! b = Some w → comp v w = false) ∧
    is_heap comp len (hs_arr s') ∧ agrees len (hs_arr s') (hs_idx s').
Proof.
  intros HD Hl. destruct (hr_top comp s D HD) as (a & v & Ha & _ & Htop).
  { apply map_size_non_empty_iff. rewrite <- (hr_length comp s D HD). lia. }
  destruct (proj1 (wp_run (heap_pop comp (Z.of_nat (S len)) (Z.of_nat 0)) s (λ _ s',
    popped comp len 0 s s'))) as ([] & s' & E & Hlast & Hp & Hag & Hh & _).
  { by eapply wp_heap_pop. }
  rewrite Ha in Hlast. exists s', a, v. by split_and!.
Qed.
End theorems.

Module HeapWitness.
(** A heap of three timers, and a fourth entry that is not in it. *)
Definition arr3 : list (HeapEntry Z) :=
  [mkHeapEntry (Some 1%positive) 100; mkHeapEntry (Some 2%positive) 300;
   mkHeapEntry (Some 3%positive) 200].
Definition s3 : heap_state Z :=
  mkHeapState arr3 {[1%positive := 0; 2%positive := 1; 3%positive := 2; 4%positive := 2 ^ 64 - 1]}.
Definition D3 : gmap positive Z := {[1%positive := 100; 2%positive := 300; 3%positive := 200]}.

Lemma s3_rep : heap_rep Z.gtb s3 D3.
Proof.
  split.
  - by vm_compute.
  - intros i Hi e1 e2. destruct i as [|[|[|]]]; simpl in *; try lia; intros; by simplify_eq.
  - intros i e Hi He. destruct i as [|[|[|]]]; simplify_eq/=; eauto.
  - intros a v. unfold D3, s3, arr3. simpl. rewrite !elem_of_cons, elem_of_nil.
    rewrite !lookup_insert_Some, lookup_singleton_Some. naive_solver.
Defined.
End HeapWitness.
Import HeapWitness.

Lemma heap_upsert_correct_witness :
  (∃ s', heap_upsert Z.gtb (mkHeapEntry (Some 4%positive) 50) s3 = Some (tt, s') ∧
    heap_rep Z.gtb s' (<[4%positive:=50]> D3) ∧ frame_idx (<[4%positive:=50]> D3) s3 s') ∧
  (∃ s', heap_upsert Z.gtb (mkHeapEntry (Some 1%positive) 500) s3 = Some (tt, s') ∧
    heap_rep Z.gtb s' (<[1%positive:=500]> D3) ∧ frame_idx (<[1%positive:=500]> D3) s3 s').
Proof.
  split.
  - apply (heap_upsert_correct Z.gtb s3 D3 4 50 (2 ^ 64 - 1) s3_rep); [by vm_compute..|done].
  - apply (heap_upsert_correct Z.gtb s3 D3 1 500 0 s3_rep); [by vm_compute| |by vm_compute].
    intros Hd. exfalso. apply Hd, elem_of_dom. by exists 100.
Defined.

Lemma heap_remove_correct_witness :
  ∃ s', heap_remove Z.gtb 0 s3 = Some (tt, s') ∧
    heap_rep Z.gtb s' (delete 1%positive D3) ∧ frame_idx D3 s3 s'.
Proof. apply (heap_remove_correct Z.gtb s3 D3 1 100 0 s3_rep); by vm_compute. Defined.

Lemma heap_pop_top_correct_witness :
  ∃ s' a v, heap_pop Z.gtb 3 0 s3 = Some (tt, s') ∧ hs_arr s' ≡ₚ hs_arr s3 ∧
    hs_arr s' !! 2%nat = Some (mkHeapEntry (Some a) v) ∧
    (∀ b w, D3 !! b = Some w → (v >? w) = false) ∧
    is_heap Z.gtb 2 (hs_arr s') ∧ agrees 2 (hs_arr s') (hs_idx s').
Proof. apply (heap_pop_top_correct Z.gtb s3 D3 2 s3_rep). by vm_compute. Defined.
