(* ===== verification/ZSet.v ===== *)
(** The sorted sets of container/zset.h and container/zset.cc, translated statement
    by statement.

    A [ZNode] holds an AVL node, a hash node, and a score and name.  Its address
    stands for the address of all three ([container_of] is the identity), and the
    memory of the nodes is three stores with the same addresses. *)
From S2P Require Import Prelude Common Avl HashTable.

(** The [score], [len] and [name] of [struct ZNode]. *)
Record zdata : Type := mkZData { zd_score : Z; zd_name : list Byte.byte }.

Record ZMem : Type := mkZMem {
  zm_tree : avl_heap;
  zm_hmap : hash_heap;
  zm_data : gmap positive zdata;
}.

Definition z_tree : field ZMem avl_heap :=
  Field zm_tree (λ v m, mkZMem v (zm_hmap m) (zm_data m)).
Definition z_hmap : field ZMem hash_heap :=
  Field zm_hmap (λ v m, mkZMem (zm_tree m) v (zm_data m)).
Definition z_data : field ZMem (gmap positive zdata) :=
  Field zm_data (λ v m, mkZMem (zm_tree m) (zm_hmap m) v).

#[export] Instance z_tree_laws : LensLaws z_tree.
Proof. done. Qed.
#[export] Instance z_hmap_laws : LensLaws z_hmap.
Proof. done. Qed.
#[export] Instance z_data_laws : LensLaws z_data.
Proof. done. Qed.

Record ZSet : Type := mkZSet { zs_root : ptr; zs_hmap : HashMap }.

Definition zs_empty (hmap : HashMap) : ZSet := mkZSet None hmap.

(** [malloc]: an address that is not in use. *)
Definition zm_fresh (m : ZMem) : positive :=
  fresh (dom (zm_tree m) ∪ dom (zm_hmap m) ∪ dom (zm_data m) : gset positive).

Definition znode_new (name : list Byte.byte) (score : Z) : M ZMem ptr := λ m,
  let a := zm_fresh m in
  Some (Some a,
    mkZMem (<[a:=mkAVLNode None None None 1 1]> (zm_tree m))
      (<[a:=mkHashNode None (str_hash name)]> (zm_hmap m))
      (<[a:=mkZData score name]> (zm_data m))).

Definition znode_del (node : ptr) : M ZMem unit := λ m,
  match node with
  | Some a =>
      match zm_data m !! a with
      | Some _ => Some (tt, mkZMem (delete a (zm_tree m)) (delete a (zm_hmap m)) (delete a (zm_data m)))
      | None => None
      end
  | None => None
  end.

(** [node->score], [node->name] and [node->len] *)
Definition znode_data (node : ptr) : M ZMem zdata := zoom z_data (load_obj node).

Definition f_score : field zdata Z :=
  Field zd_score (λ v d, mkZData v (zd_name d)).

(** compare by the (score, name) tuple *)
Definition zless_data (l : zdata) (score : Z) (name : list Byte.byte) : bool :=
  if negb (dbl_eq (zd_score l) score) then dbl_lt (zd_score l) score
  else
    let rv := memcmp (zd_name l) name (Nat.min (length (zd_name l)) (length name)) in
    if negb (rv =? 0) then rv <? 0
    else Z.of_nat (length (zd_name l)) <? Z.of_nat (length name).

Definition zless (lhs : ptr) (score : Z) (name : list Byte.byte) : M ZMem bool :=
  zl ← znode_data lhs;
  mret (zless_data zl score name).

Definition zless_node (lhs rhs : ptr) : M ZMem bool :=
  zr ← znode_data rhs;
  zless lhs (zd_score zr) (zd_name zr).

(** The loop of [tree_insert]: where to hang [node], and below which parent. *)
Fixpoint tree_search (fuel : nat) (node : ptr) (from : link) (parent root : ptr)
    : M ZMem (link * ptr) :=
  match fuel with
  | O => fault
  | S fuel =>
      cur ← zoom z_tree (link_get from root);
      match cur with
      | None => mret (from, parent)
      | Some _ =>
          let parent := cur in
          b ← zless_node node parent;
          tree_search fuel node (if b : bool then LeftLink parent else RightLink parent) parent root
      end
  end.

Definition tree_insert (zset : ZSet) (node : ptr) : M ZMem ZSet :=
  m ← get;
  '(from, parent) ← tree_search (S (size (zm_tree m))) node LocalLink None (zs_root zset);
  root ← zoom z_tree (link_set from node (zs_root zset));
  zoom z_tree (node ->> f_parent <<- parent);;
  root ← zoom z_tree (avl_fix node);
  mret (mkZSet root (zs_hmap zset)).

(** update the score of an existing node *)
Definition zset_update (zset : ZSet) (node : ptr) (score : Z) : M ZMem ZSet :=
  d ← znode_data node;
  if dbl_eq (zd_score d) score then mret zset
  else
    root ← zoom z_tree (avl_remove node);
    zoom z_tree (avl_init node);;
    zoom z_data (node ->> f_score <<- score);;
    tree_insert (mkZSet root (zs_hmap zset)) node.

(** [hcmp] against a key with the given name *)
Definition hcmp (data : gmap positive zdata) (name : list Byte.byte) : hash_eq := λ a,
  match data !! a with
  | Some d =>
      if negb (length (zd_name d) =? length name)%nat then Some false
      else Some (0 =? memcmp (zd_name d) name (length (zd_name d)))
  | None => None
  end.

(** lookup by name *)
Definition zset_lookup (zset : ZSet) (name : list Byte.byte) : M ZMem (ptr * ZSet) :=
  match zs_root zset with
  | None => mret (None, zset)
  | Some _ =>
      m ← get;
      '(found, hmap) ← zoom z_hmap (hm_lookup (zs_hmap zset) (str_hash name) (hcmp (zm_data m) name));
      mret (found, mkZSet (zs_root zset) hmap)
  end.

(** add a new (score, name) tuple, or update the score of the existing tuple *)
Definition zset_insert (zset : ZSet) (name : list Byte.byte) (score : Z) : M ZMem (bool * ZSet) :=
  '(node, zset) ← zset_lookup zset name;
  match node with
  | Some _ =>
      zset ← zset_update zset node score;
      mret (false, zset)
  | None =>
      node ← znode_new name score;
      hmap ← zoom z_hmap (hm_insert (zs_hmap zset) node);
      zset ← tree_insert (mkZSet (zs_root zset) hmap) node;
      mret (true, zset)
  end.

(** delete a node *)
Definition zset_delete (zset : ZSet) (node : ptr) : M ZMem ZSet :=
  d ← znode_data node;
  h ← zoom z_hmap (node ->> f_hash_code);
  m ← get;
  '(found, hmap) ← zoom z_hmap (hm_remove (zs_hmap zset) h (hcmp (zm_data m) (zd_name d)));
  assert (bool_decide (found ≠ None));;
  root ← zoom z_tree (avl_remove node);
  znode_del node;;
  mret (mkZSet root hmap).

(** find the first (score, name) tuple that is >= key. *)
Fixpoint seekge_loop (fuel : nat) (node found : ptr) (score : Z) (name : list Byte.byte)
    : M ZMem ptr :=
  match fuel with
  | O => fault
  | S fuel =>
      match node with
      | None => mret found
      | Some _ =>
          b ← zless node score name;
          if b : bool then
            node ← zoom z_tree (node ->> f_right);
            seekge_loop fuel node found score name
          else
            let found := node in
            node ← zoom z_tree (node ->> f_left);
            seekge_loop fuel node found score name
      end
  end.

Definition zset_seekge (zset : ZSet) (score : Z) (name : list Byte.byte) : M ZMem ptr :=
  m ← get;
  seekge_loop (S (size (zm_tree m))) (zs_root zset) None score name.

(** offset into the succeeding or preceding node. *)
Definition znode_offset (node : ptr) (offset : Z) : M ZMem ptr :=
  match node with
  | Some _ => zoom z_tree (avl_offset node offset)
  | None => mret None
  end.

Fixpoint tree_dispose (fuel : nat) (node : ptr) : M ZMem unit :=
  match fuel with
  | O => fault
  | S fuel =>
      match node with
      | None => mret tt
      | Some _ =>
          l ← zoom z_tree (node ->> f_left);
          tree_dispose fuel l;;
          r ← zoom z_tree (node ->> f_right);
          tree_dispose fuel r;;
          znode_del node
      end
  end.

(** destroy the zset *)
Definition zset_clear (zset : ZSet) : M ZMem ZSet :=
  m ← get;
  tree_dispose (S (size (zm_tree m))) (zs_root zset);;
  mret (mkZSet None (zs_hmap zset)).
