(* ===== verification/ZSetOrder.v ===== *)
(** The order of the tuples in a sorted set, as the code compares them, is the order it
    means: by score as IEEE 754 compares doubles, then by name byte by byte. *)
From Stdlib Require Import SpecFloat.
From S2P Require Import Prelude Common Doubles Avl HashTable ZSet.

(** The lexicographic order of byte strings. *)
Fixpoint lex_lt (a b : list Byte.byte) : bool :=
  match a, b with
  | _, [] => false
  | [], _ :: _ => true
  | x :: a, y :: b => (byteZ x <? byteZ y) || (byteZ x =? byteZ y) && lex_lt a b
  end.

Lemma lex_lt_bytes a b : lex_lt a b = bytes_lt a b.
Proof.
  revert b. induction a as [|x a IH]; intros [|y b]; try done. by rewrite bytes_lt_cons, <- IH.
Qed.

(** C17. The comparison of [zless] on a tuple and a key, with its [!=] and [<] of doubles,
    its [memcmp] up to the shorter length and its test of the lengths, is the order of the
    pairs: a score that IEEE 754 orders before comes first, equal scores (the two zeros
    among them) leave it to the lexicographic order of the names, and a NaN comes before
    nothing. *)
Theorem zless_order l score name :
  zless_data l score name =
    match SFcompare (dbl_sf (zd_score l)) (dbl_sf score) with
    | Some Lt => true
    | Some Eq => lex_lt (zd_name l) name
    | Some Gt | None => false
    end.
Proof.
  unfold zless_data. rewrite lex_lt_bytes, dbl_eq_ieee, dbl_lt_ieee. unfold SFeqb, SFltb.
  by destruct (SFcompare (dbl_sf (zd_score l)) (dbl_sf score)) as [[]|].
Qed.
