(* ===== verification/ZSetRep.v ===== *)
(** The representation of a sorted set, and the rules of its tree operations. *)
From S2P Require Import Prelude Common Avl AvlTree AvlRep AvlFix AvlRemove AvlOffset AvlSpec.
From S2P Require Import HashTable HashRep HashMap HashIndex ZSet.

(** * The order of the tuples *)

Definition zkey_lt (x y : zdata) : bool := zless_data x (zd_score y) (zd_name y).
Definition zlt (x y : zdata) : Prop := zkey_lt x y = true.

(** No score in a set is NaN. *)
Definition znum (x : zdata) : Prop := dbl_nan (zd_score x) = false.

Lemma zkey_lt_rank x y :
  znum x → znum y →
  zkey_lt x y = (dbl_rank (zd_score x) <? dbl_rank (zd_score y)) ||
    (dbl_rank (zd_score x) =? dbl_rank (zd_score y)) && bytes_lt (zd_name x) (zd_name y).
Proof.
  intros Hx Hy. unfold zkey_lt, zless_data. rewrite dbl_eq_rank, dbl_lt_rank by done.
  fold (bytes_lt (zd_name x) (zd_name y)). zbool; simpl; done || lia.
Qed.

Lemma zlt_irrefl x : znum x → ¬ zlt x x.
Proof.
  intros Hx. unfold zlt. rewrite zkey_lt_rank by done.
  by rewrite bytes_lt_irrefl, Z.ltb_irrefl, andb_false_r.
Qed.

Lemma zlt_trans x y z : znum x → znum y → znum z → zlt x y → zlt y z → zlt x z.
Proof.
  unfold zlt. intros Hx Hy Hz. rewrite !zkey_lt_rank by done.
  rewrite !orb_true_iff, !andb_true_iff, !Z.ltb_lt, !Z.eqb_eq.
  intros [?|[E1 ?]] [?|[E2 ?]]; [left; lia..|].
  right. split; [lia|]. by eapply bytes_lt_trans.
Qed.

Lemma zlt_total x y : znum x → znum y → zd_name x ≠ zd_name y → ¬ zlt x y → zlt y x.
Proof.
  unfold zlt. intros Hx Hy Hn. rewrite !zkey_lt_rank by done.
  rewrite not_true_iff_false, orb_false_iff, andb_false_iff, orb_true_iff, andb_true_iff.
  rewrite !Z.ltb_lt, !Z.ltb_ge, !Z.eqb_eq, Z.eqb_neq. intros [Hle Hxy].
  destruct (Z.eq_dec (dbl_rank (zd_score y)) (dbl_rank (zd_score x))) as [E|]; [|left; lia].
  right. split; [done|]. destruct (bytes_lt (zd_name y) (zd_name x)) eqn:Hyx; [done|].
  exfalso. apply Hn. apply bytes_lt_total; [|done]. by destruct Hxy.
Qed.

(** * The nodes *)

(** The tuple of a node. *)
Definition zdat (m : ZMem) (a : positive) : zdata :=
  default (mkZData 0 []) (zm_data m !! a).

Definition node_lt (m : ZMem) (a b : positive) : Prop := zlt (zdat m a) (zdat m b).

Record nodes_ok (m : ZMem) (l : list positive) : Prop := {
  no_alloc : ∀ a, a ∈ l → is_Some (zm_data m !! a);
  no_num : ∀ a, a ∈ l → znum (zdat m a);
  no_names : NoDup ((λ a, zd_name (zdat m a)) <$> l);
}.

(** The tree holds the nodes [l], in order. *)
Record ztree_rep (m : ZMem) (p : ptr) (l : list positive) : Prop := {
  zt_tree : ∃ t, avl_wf (zm_tree m) t ∧ inorder t = l ∧ root t = p;
  zt_nodes : nodes_ok m l;
  zt_sorted : StronglySorted (node_lt m) l;
}.

Section tree.
Implicit Types (m : ZMem) (l : list positive) (a b : positive) (t : tree) (c : ctx).

Lemma zdat_lookup m a : is_Some (zm_data m !! a) → zm_data m !! a = Some (zdat m a).
Proof. intros [d Hd]. unfold zdat. by rewrite Hd. Qed.

Lemma node_lt_trans m l a b x :
  nodes_ok m l → a ∈ l → b ∈ l → x ∈ l → node_lt m a b → node_lt m b x → node_lt m a x.
Proof. intros [_ Hn _] Ha Hb Hx. apply zlt_trans; auto. Qed.

Lemma no_name_inj m l a b :
  nodes_ok m l → a ∈ l → b ∈ l → zd_name (zdat m a) = zd_name (zdat m b) → a = b.
Proof.
  intros Hl [i Hi]%list_elem_of_lookup [j Hj]%list_elem_of_lookup E.
  assert (i = j) as ->; [|congruence].
  eapply (NoDup_lookup ((λ a, zd_name (zdat m a)) <$> l) i j (zd_name (zdat m a))).
  - apply (no_names _ _ Hl).
  - by rewrite list_lookup_fmap, Hi.
  - by rewrite list_lookup_fmap, Hj, E.
Qed.

Lemma zdat_ext m m' a : zm_data m' !! a = zm_data m !! a → zdat m' a = zdat m a.
Proof. unfold zdat. by intros ->. Qed.

Lemma nodes_ok_ext m m' l :
  (∀ a, a ∈ l → zm_data m' !! a = zm_data m !! a) → nodes_ok m l → nodes_ok m' l.
Proof.
  intros He [Ha Hn Hnm]. split.
  - intros a Hl. rewrite He by done. auto.
  - intros a Hl. rewrite (zdat_ext m) by auto. auto.
  - eqapply Hnm. apply list_fmap_ext. intros i a Hi. f_equal. symmetry. apply zdat_ext, He.
    by eapply list_elem_of_lookup_2.
Qed.

Lemma nodes_ok_perm m l l' : l' ≡ₚ l → nodes_ok m l → nodes_ok m l'.
Proof.
  intros Hp [Ha Hn Hnm]. split; [intros a Hl; rewrite Hp in Hl; auto..|]. by rewrite Hp.
Qed.

Lemma nodes_ok_sublist m l l' : sublist l' l → nodes_ok m l → nodes_ok m l'.
Proof.
  intros Hp [Ha Hn Hnm].
  assert (∀ a, a ∈ l' → a ∈ l) as Hin.
  { intros a Hl. eapply elem_of_submseteq; [done|by apply sublist_submseteq]. }
  split; [auto..|]. eapply sublist_NoDup; [exact Hnm|]. by apply fmap_sublist.
Qed.

Lemma sorted_ext m m' l :
  (∀ a, a ∈ l → zm_data m' !! a = zm_data m !! a) →
  StronglySorted (node_lt m) l → StronglySorted (node_lt m') l.
Proof.
  intros He. induction 1 as [|a l Hs IH Hl]; constructor.
  - apply IH. intros b Hb. apply He. by right.
  - rewrite Forall_forall in *. intros b Hb. unfold node_lt.
    rewrite !(zdat_ext m m') by (apply He; set_solver). by apply Hl.
Qed.

(** A node between the nodes before and after it. *)
Lemma sorted_insert m l1 l2 a :
  nodes_ok m (a :: l1 ++ l2) → a ∉ l1 ++ l2 → StronglySorted (node_lt m) (l1 ++ l2) →
  (∀ b, b ∈ l1 → ¬ node_lt m a b) → (∀ b, b ∈ l2 → node_lt m a b) →
  StronglySorted (node_lt m) (l1 ++ a :: l2).
Proof.
  intros Hok Ha (H12 & H1 & H2)%StronglySorted_app Hb Haft.
  assert (∀ b, b ∈ l1 → node_lt m b a) as Hb'.
  { intros b Hbl. apply zlt_total; [apply (no_num _ _ Hok); set_solver..| |by apply Hb].
    intros E. apply Ha. enough (a = b) as -> by set_solver.
    eapply no_name_inj; [done|set_solver..|done]. }
  apply StronglySorted_app. split_and!; [|done|].
  - intros x y Hx [->|Hy]%elem_of_cons; auto.
  - apply StronglySorted_cons. split; [|done]. by apply Forall_forall.
Qed.

Lemma wp_znode_data m a (Q : zdata → ZMem → Prop) :
  is_Some (zm_data m !! a) → Q (zdat m a) m → wp (znode_data (Some a)) m Q.
Proof.
  intros Ha HQ. unfold znode_data. apply wp_zoom. eapply wp_load_obj; [by apply zdat_lookup|].
  by destruct m.
Qed.

Lemma wp_zless m a score name (Q : bool → ZMem → Prop) :
  is_Some (zm_data m !! a) → Q (zless_data (zdat m a) score name) m →
  wp (zless (Some a) score name) m Q.
Proof. intros Ha HQ. unfold zless. wp_step. apply wp_znode_data; [done|]. by apply wp_ret. Qed.

Lemma wp_zless_node m a b (Q : bool → ZMem → Prop) :
  is_Some (zm_data m !! a) → is_Some (zm_data m !! b) → Q (zkey_lt (zdat m a) (zdat m b)) m →
  wp (zless_node (Some a) (Some b)) m Q.
Proof.
  intros Ha Hb HQ. unfold zless_node. wp_step. apply wp_znode_data; [done|].
  by apply wp_zless.
Qed.

(** The invariant of the search: the node belongs below the context. *)
Record insert_pos m a c : Prop := {
  ip_before : ∀ b, b ∈ before c → ¬ node_lt m a b;
  ip_after : ∀ b, b ∈ after c → node_lt m a b;
}.

Lemma node_lt_around m (l r : tree) b c x :
  StronglySorted (node_lt m) (inorder (plug (Node l b r) c)) →
  (x ∈ inorder l → node_lt m x b) ∧ (x ∈ inorder r → node_lt m b x).
Proof.
  rewrite plug_inorder. intros (_ & _ & Hs)%StronglySorted_app.
  apply StronglySorted_app in Hs as (_ & Hs & _). apply StronglySorted_app in Hs as (Hl & _ & Hr).
  apply StronglySorted_cons in Hr as [Hr _]. rewrite Forall_forall in Hr.
  split; [|apply Hr]. intros Hx. apply Hl; [done|left].
Qed.

Lemma insert_pos_left m a (l r : tree) b c :
  nodes_ok m (a :: inorder (plug (Node l b r) c)) →
  StronglySorted (node_lt m) (inorder (plug (Node l b r) c)) →
  insert_pos m a c → node_lt m a b → insert_pos m a (InLeft b r :: c).
Proof.
  intros Hok Hs [Hb Ha] Hab. split; simpl; [done|].
  intros x [->|[Hx|Hx]%elem_of_app]%elem_of_cons; [done| |by apply Ha].
  eapply node_lt_trans; [done|left| | |done|by apply (node_lt_around m l r b c x)].
  all: rewrite plug_inorder; simpl; clear -Hx; set_solver.
Qed.

Lemma insert_pos_right m a (l r : tree) b c :
  nodes_ok m (a :: inorder (plug (Node l b r) c)) →
  StronglySorted (node_lt m) (inorder (plug (Node l b r) c)) →
  insert_pos m a c → ¬ node_lt m a b → insert_pos m a (InRight l b :: c).
Proof.
  intros Hok Hs [Hb Ha] Hab. split; simpl; [|done].
  intros x [Hx|[Hx|Hx]%elem_of_app]%elem_of_app; [by apply Hb| |].
  2: { apply list_elem_of_singleton in Hx as ->. done. }
  intros Hax. apply Hab. eapply node_lt_trans; [done|left| | |exact Hax|by apply (node_lt_around m l r b c x)].
  all: rewrite plug_inorder; simpl; clear -Hx; set_solver.
Qed.

Lemma wp_tree_search fuel m t c a root0 (Q : link * ptr → ZMem → Prop) :
  height t < Z.of_nat fuel →
  is_tree (zm_tree m) None (plug t c) → root0 = root (plug t c) →
  nodes_ok m (a :: inorder (plug t c)) → StronglySorted (node_lt m) (inorder (plug t c)) →
  insert_pos m a c →
  (∀ c', plug t c = plug Leaf c' → insert_pos m a c' → Q (link_of c', ctx_parent c') m) →
  wp (tree_search fuel (Some a) (link_of c) (ctx_parent c) root0) m Q.
Proof.
  revert t c. induction fuel as [|fuel IH]; intros t c Hf Ht Hroot Hok Hs Hpos HQ.
  { pose proof (height_nonneg t). lia. }
  cbn [tree_search]. wp_step. apply wp_zoom.
  pose proof Ht as Ht0. apply is_tree_plug in Ht0 as [_ Hc].
  eapply wp_link_get; [done|done|]. replace (fset z_tree _ m) with m by by destruct m.
  destruct t as [|l b r]; cbn [root]; cbv iota; [by apply wp_ret, HQ|].
  simpl in Hf. wp_step. apply wp_zless_node.
  { apply (no_alloc _ _ Hok). left. }
  { apply (no_alloc _ _ Hok). rewrite plug_inorder. simpl. clear. set_solver. }
  destruct (zkey_lt (zdat m a) (zdat m b)) eqn:E.
  - apply (IH l (InLeft b r :: c)); [lia|done..|by apply (insert_pos_left m a l r)|done].
  - apply (IH r (InRight l b :: c)); [lia|done..| |done].
    apply (insert_pos_right m a l r b); [done..|]. unfold node_lt, zlt. by rewrite E.
Qed.

(** [tree_insert]: the new node goes to its place in the order. *)
Lemma wp_tree_insert m z l a (Q : ZSet → ZMem → Prop) :
  ztree_rep m (zs_root z) l → nodes_ok m (a :: l) → a ∉ l →
  zm_tree m !! a = Some (mkAVLNode None None None 1 1) → Z.of_nat (length l) < cnt_max →
  (∀ tree' p l1 l2, let m' := mkZMem tree' (zm_hmap m) (zm_data m) in
    l = l1 ++ l2 → ztree_rep m' p (l1 ++ a :: l2) →
    same_except (l1 ++ a :: l2) (zm_tree m) tree' → Q (mkZSet p (zs_hmap z)) m') →
  wp (tree_insert z (Some a)) m Q.
Proof.
  intros [(t & Hwf & Hin & Hroot) Hok0 Hs] Hok Hal Ha Hsz HQ. subst l.
  pose proof (is_tree_dom _ _ _ (wf_tree _ _ Hwf)) as Hdom.
  pose proof (length_le_size _ _ (wf_nodup _ _ Hwf) Hdom).
  pose proof (length_inorder t) as Hlen. pose proof (height_le_tsize t).
  unfold tree_insert. wp_step. wp_step. wp_step.
  apply (wp_tree_search _ m t []);
    [lia|apply Hwf|done|done|done|by split; intros ? ?%elem_of_nil|].
  intros c Ec [Hbef Haft]. simpl in Ec. subst t. cbn beta iota. rewrite <- Hroot.
  apply (wp_zoom_seq_then z_tree), (wp_zoom_seq_then z_tree).
  wp_step. apply wp_zoom. eapply wp_avl_hang; [done..|simpl in Hlen; lia|].
  rewrite plug_inorder in *. simpl in *.
  intros s' t' Hwf' Hin' Hs'. apply wp_ret. apply (HQ s' _ (before c) (after c)); [done| |by rewrite <- Hin'].
  split.
  - by exists t'.
  - apply (nodes_ok_ext m); [done|]. eapply nodes_ok_perm; [|done].
    by rewrite Permutation_middle.
  - apply (sorted_ext m); [done|]. by apply sorted_insert.
Qed.
End tree.
