(* ===== verification/ZSetOps.v ===== *)
(** The rules of the operations of container/zset.cc on a sorted set whose tree and
    hash index hold the same nodes. *)
From S2P Require Import Prelude Common Avl AvlTree AvlRep AvlFix AvlRemove AvlOffset AvlSpec.
From S2P Require Import HashTable HashRep HashMap HashIndex ZSet ZSetRep.

(** The index by name. *)
Definition name_index (m : ZMem) (hmap : HashMap) (l : list positive) : Prop :=
  ∃ M : gmap (list Byte.byte) positive,
    ni_rep (hashf:=str_hash) (zm_hmap m) hmap M ∧
    (∀ k a, M !! k = Some a ↔ a ∈ l ∧ zd_name (zdat m a) = k).

(** The set [z] holds the nodes [l], in order. *)
Record zset_rep (m : ZMem) (z : ZSet) (l : list positive) : Prop := {
  zr_tree : ztree_rep m (zs_root z) l;
  zr_index : name_index m (zs_hmap z) l;
}.

(** Memory outside of the nodes [X] is unchanged. *)
Record zframe (X : list positive) (m m' : ZMem) : Prop := {
  zf_tree : same_except X (zm_tree m) (zm_tree m');
  zf_hmap : same_except X (zm_hmap m) (zm_hmap m');
  zf_data : same_except X (zm_data m) (zm_data m');
}.

Section ops.
Implicit Types (m : ZMem) (z : ZSet) (l : list positive) (a b : positive) (name : list Byte.byte).

Lemma zframe_refl X m : zframe X m m.
Proof. done. Qed.

Lemma zframe_trans X m m' m'' : zframe X m m' → zframe X m' m'' → zframe X m m''.
Proof. intros [] []. split; by eapply same_except_trans. Qed.

Lemma zframe_mono X Y m m' : X ⊆ Y → zframe X m m' → zframe Y m m'.
Proof. intros HXY []. split; by eapply same_except_mono. Qed.

(** ** The nodes of a set *)

Lemma zt_NoDup m p l : ztree_rep m p l → NoDup l.
Proof. intros [(t & Hwf & <- & _) _ _]. apply Hwf. Qed.

Lemma zt_length m p l : ztree_rep m p l → Z.of_nat (length l) ≤ cnt_max.
Proof. intros [(t & Hwf & <- & _) _ _]. rewrite length_inorder. apply Hwf. Qed.

Lemma zt_root m p l : ztree_rep m p l → p = None ↔ l = [].
Proof.
  intros [(t & Hwf & <- & <-) _ _]. rewrite root_None. split; [by intros ->|].
  destruct t; [done|]. simpl. by intros [_ [=]]%app_eq_nil.
Qed.

Lemma index_size m hmap l M :
  NoDup l → ni_rep (hashf:=str_hash) (zm_hmap m) hmap M →
  (∀ k a, M !! k = Some a ↔ a ∈ l ∧ zd_name (zdat m a) = k) → size M = length l.
Proof.
  intros Hnd Hi HM. symmetry. eapply (idx_size str_hash (zm_hmap m)); [done|]. split.
  - intros a. split; [intros Ha; eexists; by apply HM|]. intros [k Hk]. by apply HM in Hk as [? _].
  - intros k a Ha. by eapply ni_node.
  - intros k k' a [_ <-]%HM [_ <-]%HM. done.
Qed.

Lemma name_index_ext m m' hmap l :
  (∀ a, a ∈ l → zm_data m' !! a = zm_data m !! a) →
  (∀ a, a ∈ l → zm_hmap m' !! a = zm_hmap m !! a) →
  name_index m hmap l → name_index m' hmap l.
Proof.
  intros Hd Hh (M & Hi & HM). exists M. split.
  - eapply ni_frame; [exact Hi|]. intros k a [Ha _]%HM. auto.
  - intros k a. rewrite HM. split; intros [Ha <-]; (split; [done|]);
      rewrite (zdat_ext m m') by auto; done.
Qed.

Lemma ztree_rep_ext m m' p l :
  (∀ a, a ∈ l → zm_data m' !! a = zm_data m !! a) →
  (∀ a, a ∈ l → zm_tree m' !! a = zm_tree m !! a) →
  ztree_rep m p l → ztree_rep m' p l.
Proof.
  intros Hd Ht [(t & Hwf & <- & Hr) Hok Hs]. split; [|by eapply nodes_ok_ext|by eapply sorted_ext].
  exists t. split_and!; [|done|done]. destruct Hwf. split; [|done..].
  eapply is_tree_frame; [|done]. auto.
Qed.

(** A set is not affected by changes elsewhere. *)
Lemma zset_rep_frame X m m' z l :
  zframe X m m' → (∀ a, a ∈ l → a ∉ X) → zset_rep m z l → zset_rep m' z l.
Proof.
  intros [Ht Hh Hd] HX [Htree Hi]. split.
  - eapply ztree_rep_ext; [..|done]; auto.
  - eapply name_index_ext; [..|done]; auto.
Qed.

(** ** [hcmp] *)

Lemma memcmp_eq (x y : list Byte.byte) :
  length x = length y → (0 =? memcmp x y (length x)) = bool_decide (x = y).
Proof.
  revert y. induction x as [|b x IH]; intros [|c y]; try done. intros [= Hl]. cbn [memcmp length].
  destruct (Z.eqb_spec (byteZ b) (byteZ c)) as [E%byteZ_inj|Hne].
  - subst c. rewrite IH by done. apply bool_decide_ext. naive_solver.
  - rewrite bool_decide_false by congruence. destruct (Z.eqb_spec 0 (byteZ b - byteZ c)); [lia|done].
Qed.

Lemma hcmp_spec m a name :
  is_Some (zm_data m !! a) →
  hcmp (zm_data m) name a = Some (bool_decide (zd_name (zdat m a) = name)).
Proof.
  intros Ha. unfold hcmp. rewrite zdat_lookup by done.
  destruct (Nat.eqb_spec (length (zd_name (zdat m a))) (length name)) as [E|Hne]; cbn [negb].
  - by rewrite memcmp_eq.
  - rewrite bool_decide_false by congruence. done.
Qed.

(** ** [zset_lookup] *)
Definition found_by_name (m : ZMem) (l : list positive) (name : list Byte.byte) (r : ptr) : Prop :=
  match r with
  | Some a => a ∈ l ∧ zd_name (zdat m a) = name
  | None => ∀ a, a ∈ l → zd_name (zdat m a) ≠ name
  end.

Lemma index_found m l (M : gmap (list Byte.byte) positive) name :
  (∀ k a, M !! k = Some a ↔ a ∈ l ∧ zd_name (zdat m a) = k) → found_by_name m l name (M !! name).
Proof.
  intros HM. destruct (M !! name) as [a|] eqn:E; simpl; [by apply HM|].
  intros a Ha Hn. assert (M !! name = Some a) by (by apply HM). congruence.
Qed.

Lemma wp_zset_lookup m z l name (Q : ptr * ZSet → ZMem → Prop) :
  zset_rep m z l →
  (∀ h' hmap' r, let m' := mkZMem (zm_tree m) h' (zm_data m) in
    let z' := mkZSet (zs_root z) hmap' in
    zset_rep m' z' l → zframe l m m' → same_codes (zm_hmap m) h' →
    found_by_name m' l name r → Q (r, z') m') →
  wp (zset_lookup z name) m Q.
Proof.
  intros [Ht (M & Hi & HM)] HQ. unfold zset_lookup.
  destruct (zs_root z) as [p|] eqn:Er.
  - wp_step. wp_step. wp_step. apply wp_zoom. eapply (ni_lookup (hashf:=str_hash)); [exact Hi| |].
    { intros k a [Ha <-]%HM _. apply hcmp_spec. by apply (no_alloc _ _ (zt_nodes _ _ _ Ht)). }
    intros h' hmap' Hi' Hf Hc. cbn beta iota. apply wp_ret. apply HQ.
    + split; [by eapply ztree_rep_ext; [..|exact Ht]|]. by exists M.
    + split; [done| |done]. intros b Hb. apply Hf. intros k [Hk _]%HM. done.
    + done.
    + by apply index_found.
  - apply wp_ret. pose proof (proj1 (zt_root _ _ _ Ht) eq_refl) as ->.
    replace m with (mkZMem (zm_tree m) (zm_hmap m) (zm_data m)) by by destruct m.
    destruct z as [root hmap]. simpl in Er. subst root.
    apply (HQ (zm_hmap m) hmap None); [|done|done|].
    + split; [by destruct m|]. exists M. by split.
    + intros a Ha. by apply elem_of_nil in Ha.
Qed.

(** ** [znode_new] *)

Lemma zm_fresh_none m :
  zm_tree m !! zm_fresh m = None ∧ zm_hmap m !! zm_fresh m = None ∧ zm_data m !! zm_fresh m = None.
Proof.
  rewrite <- !not_elem_of_dom. pose proof (is_fresh (dom (zm_tree m) ∪ dom (zm_hmap m) ∪ dom (zm_data m) : gset positive)) as H.
  fold (zm_fresh m) in H. set_solver.
Qed.

Lemma wp_znode_new m name score (Q : ptr → ZMem → Prop) :
  (∀ a, zm_tree m !! a = None → zm_hmap m !! a = None → zm_data m !! a = None →
    Q (Some a) (mkZMem (<[a:=mkAVLNode None None None 1 1]> (zm_tree m))
      (<[a:=mkHashNode None (str_hash name)]> (zm_hmap m))
      (<[a:=mkZData score name]> (zm_data m)))) →
  wp (znode_new name score) m Q.
Proof. intros HQ. destruct (zm_fresh_none m) as (? & ? & ?). by apply HQ. Qed.

(** ** [zset_update] *)

Lemma wp_avl_init s a (Q : unit → avl_heap → Prop) :
  is_Some (s !! a) → Q tt (<[a:=mkAVLNode None None None 1 1]> s) → wp (avl_init (Some a)) s Q.
Proof.
  intros [n Hn] HQ. unfold avl_init.
  do 4 (wp_step; wp_step; [rewrite ?lookup_insert_eq; done|]).
  wp_step; [rewrite ?lookup_insert_eq; done|]. by rewrite !insert_insert_eq.
Qed.

(** Taking a node out of the tree and clearing it. *)
Lemma wp_detach m p l1 a l2 (Q : ptr → ZMem → Prop) :
  ztree_rep m p (l1 ++ a :: l2) →
  (∀ tree' p', let m' := mkZMem tree' (zm_hmap m) (zm_data m) in
    ztree_rep m' p' (l1 ++ l2) → is_Some (tree' !! a) →
    same_except (l1 ++ a :: l2) (zm_tree m) tree' → Q p' m') →
  wp (zoom z_tree (avl_remove (Some a))) m Q.
Proof.
  intros [(t & Hwf & Hin & Hr) Hok Hs] HQ. apply wp_zoom.
  assert (is_Some (zm_tree m !! a)) as Ha.
  { eapply is_tree_dom; [apply Hwf|]. rewrite Hin. clear. set_solver. }
  eapply wp_mono.
  { apply (wp_keeps_dom (avl_remove (Some a)) _ (λ p' s', (∃ t', avl_wf s' t' ∧
      inorder t' = l1 ++ l2 ∧ p' = root t') ∧ same_except (inorder t) (zm_tree m) s')).
    eapply wp_avl_remove_wf; [exact Hwf|exact Hin|]. eauto 10. }
  intros p' s' [[(t' & Hwf' & Hin' & ->) Hf'] Hdom]. rewrite Hin in Hf'. apply HQ; [|..|done].
  - assert (sublist (l1 ++ l2) (l1 ++ a :: l2)) as Hsub.
    { apply sublist_app; [done|]. by apply sublist_cons. }
    split.
    + by exists t'.
    + eapply nodes_ok_sublist; [exact Hsub|]. by apply (nodes_ok_ext m).
    + apply (sorted_ext m); [done|]. apply StronglySorted_app in Hs as (H12 & H1 & H2).
      apply StronglySorted_cons in H2 as [_ H2]. apply StronglySorted_app.
      split_and!; [|done..]. intros x y Hx Hy. apply H12; [done|by right].
  - apply elem_of_dom. rewrite Hdom. by apply elem_of_dom.
Qed.

Lemma zdat_insert m tree' h' a d b :
  zdat (mkZMem tree' h' (<[a:=d]> (zm_data m))) b = if decide (a = b) then d else zdat m b.
Proof.
  unfold zdat. simpl. destruct (decide (a = b)) as [->|Hab].
  - by rewrite lookup_insert_eq.
  - by rewrite lookup_insert_ne.
Qed.

(** A node with new data joins a set of nodes with other names. *)
Lemma nodes_ok_insert m tree' h' a d l :
  nodes_ok m l → a ∉ l → znum d → (∀ b, b ∈ l → zd_name (zdat m b) ≠ zd_name d) →
  nodes_ok (mkZMem tree' h' (<[a:=d]> (zm_data m))) (a :: l).
Proof.
  intros Hok Ha Hd Hn.
  assert (nodes_ok (mkZMem tree' h' (<[a:=d]> (zm_data m))) l) as Hl.
  { eapply nodes_ok_ext; [|exact Hok]. intros b Hb. simpl. apply lookup_insert_ne. congruence. }
  split.
  - intros b [->|Hb]%elem_of_cons; [|by apply Hl]. simpl. rewrite lookup_insert_eq. by eexists.
  - intros b [->|Hb]%elem_of_cons; [|by apply Hl]. by rewrite zdat_insert, decide_True.
  - rewrite fmap_cons. apply NoDup_cons. split; [|apply Hl].
    rewrite zdat_insert, decide_True by done. intros (b & E & Hb)%list_elem_of_fmap.
    rewrite zdat_insert, decide_False in E by congruence. by apply (Hn b).
Qed.

Lemma name_index_same m tree' h' hmap a d l :
  a ∈ l → zd_name d = zd_name (zdat m a) → zm_hmap m = h' →
  name_index m hmap l → name_index (mkZMem tree' h' (<[a:=d]> (zm_data m))) hmap l.
Proof.
  intros Ha Hd <- (M & Hi & HM). exists M. split; [done|]. intros k b.
  rewrite HM, zdat_insert. destruct (decide (a = b)) as [->|]; [by rewrite Hd|done].
Qed.

Lemma name_index_perm m hmap l l' : l' ≡ₚ l → name_index m hmap l → name_index m hmap l'.
Proof. intros Hp (M & Hi & HM). exists M. split; [done|]. intros k a. by rewrite HM, Hp. Qed.

(** The case where the score changes. *)
Lemma wp_zset_update m z l1 a l2 score (Q : ZSet → ZMem → Prop) :
  zset_rep m z (l1 ++ a :: l2) → dbl_nan score = false →
  (dbl_eq (zd_score (zdat m a)) score = true → Q z m) →
  (∀ m' z' k1 k2, dbl_eq (zd_score (zdat m a)) score = false → l1 ++ l2 = k1 ++ k2 →
    zset_rep m' z' (k1 ++ a :: k2) →
    zm_data m' = <[a:=mkZData score (zd_name (zdat m a))]> (zm_data m) →
    zframe (l1 ++ a :: l2) m m' → Q z' m') →
  wp (zset_update z (Some a) score) m Q.
Proof.
  intros [Ht Hi] Hnum HQ1 HQ2. pose proof (zt_nodes _ _ _ Ht) as Hok.
  assert (a ∈ l1 ++ a :: l2) as Hal by (clear; set_solver).
  pose proof (no_alloc _ _ Hok a Hal) as Hda. pose proof (zt_length _ _ _ Ht) as Hlen.
  pose proof (zt_NoDup _ _ _ Ht) as [Ha12 _]%NoDup_middle.
  unfold zset_update. wp_step. apply wp_znode_data; [done|].
  destruct (dbl_eq _ _) eqn:E; [by apply wp_ret, HQ1|]. clear HQ1.
  wp_step. eapply wp_detach; [exact Ht|]. cbv zeta. simpl. intros tree' p' Ht' Hta Hf.
  wp_step. apply wp_zoom. apply wp_avl_init; [done|].
  wp_step. apply wp_zoom. eapply wp_store; [by apply zdat_lookup|]. simpl.
  set (d := mkZData score (zd_name (zdat m a))).
  assert (zless : same_except (l1 ++ a :: l2) (zm_data m) (<[a:=d]> (zm_data m))).
  { by apply same_except_insert. }
  set (m1 := mkZMem _ _ _) in |- *.
  assert (ztree_rep m1 p' (l1 ++ l2)) as Ht1.
  { eapply ztree_rep_ext; [..|exact Ht']; intros b Hb; simpl; apply lookup_insert_ne; congruence. }
  eapply (wp_tree_insert m1 (mkZSet p' (zs_hmap z)) (l1 ++ l2)); [done| |done| | |].
  - apply nodes_ok_insert; [|done|done|].
    + eapply nodes_ok_sublist; [|exact Hok]. apply sublist_app; [done|]. by apply sublist_cons.
    + intros b Hb E'. apply Ha12. enough (a = b) as -> by done.
      eapply no_name_inj; [exact Hok|done|clear -Hb; set_solver|done].
  - apply lookup_insert_eq.
  - rewrite length_app in *. simpl in Hlen. lia.
  - cbv zeta. intros tree2 p2 k1 k2 Hk Ht2 Hf2. apply (HQ2 _ _ k1 k2); [done|done| |done|].
    + split; [exact Ht2|]. eapply name_index_perm.
      2: { eapply name_index_same; [exact Hal|done|done|exact Hi]. }
      by rewrite <- !Permutation_middle, Hk.
    + split; [|done|done]. simpl. simpl in Hf2.
      eapply same_except_trans; [exact Hf|]. eapply same_except_trans.
      * apply (same_except_insert _ tree' tree' a); [exact Hal|done].
      * eapply same_except_mono; [|exact Hf2]. rewrite <- !Permutation_middle, Hk. done.
Qed.

(** ** [zset_insert] *)

(** A new tuple *)
Lemma wp_insert_new {A} (cont : ZSet → M ZMem A) m z l name score (Q : A → ZMem → Prop) :
  zset_rep m z l → dbl_nan score = false → Z.of_nat (length l) < cnt_max →
  (∀ a, a ∈ l → zd_name (zdat m a) ≠ name) →
  (∀ m' z' l1 a l2, l = l1 ++ l2 → zset_rep m' z' (l1 ++ a :: l2) →
    zm_tree m !! a = None → zm_hmap m !! a = None → zm_data m !! a = None →
    zm_data m' = <[a:=mkZData score name]> (zm_data m) →
    zframe (a :: l) m m' → wp (cont z') m' Q) →
  wp (node ← znode_new name score;
      hmap ← zoom z_hmap (hm_insert (zs_hmap z) node);
      zset ← tree_insert (mkZSet (zs_root z) hmap) node; cont zset) m Q.
Proof.
  intros [Ht (M & Hi & HM)] Hnum Hlen Hnew HQ. pose proof (zt_nodes _ _ _ Ht) as Hok.
  wp_step. apply wp_znode_new. intros a Hta Hha Hda.
  assert (a ∉ l) as Hal by (intros [? ?]%(no_alloc _ _ Hok); congruence).
  set (d := mkZData score name).
  wp_step. apply wp_zoom. simpl.
  eapply (ni_insert (hashf:=str_hash) _ _ M name).
  { eapply ni_frame; [exact Hi|]. intros k b [Hb _]%HM. apply lookup_insert_ne. congruence. }
  { destruct (M !! name) as [b|] eqn:E; [|done]. apply HM in E as [Hb E]. by destruct (Hnew b). }
  { intros k [Hb _]%HM. done. }
  { by rewrite lookup_insert_eq. }
  { erewrite index_size; [|by eapply zt_NoDup|exact Hi|exact HM].
    unfold cnt_max, hash_max in *. lia. }
  intros h' hmap' Hi' Hf' _. set (m1 := mkZMem _ _ _) in |- *. simpl in m1.
  wp_step. eapply (wp_tree_insert m1 (mkZSet (zs_root z) hmap') l).
  - eapply ztree_rep_ext; [..|exact Ht]; intros b Hb; simpl; apply lookup_insert_ne; congruence.
  - by apply nodes_ok_insert.
  - done.
  - apply lookup_insert_eq.
  - done.
  - cbv zeta. intros tree2 p2 l1 l2 Hl Ht2 Hf2.
    apply (HQ _ _ l1 a l2); [done| |done..|]; [split; [exact Ht2|]|].
    + exists (<[name:=a]> M). split; [exact Hi'|]. intros k b.
      subst m1. cbn [zm_data zm_hmap fset z_hmap zm_tree]. rewrite zdat_insert, <- Permutation_middle, <- Hl, elem_of_cons, lookup_insert_Some, HM.
      destruct (decide (a = b)) as [->|Hab]; [|naive_solver]. split; [naive_solver|].
      intros [_ <-]. by left.
    + split; simpl.
      * eapply same_except_trans; [apply (same_except_insert _ _ (zm_tree m) a); [left|done]|].
        eapply same_except_mono; [|exact Hf2]. by rewrite <- Permutation_middle, <- Hl.
      * eapply same_except_trans; [apply (same_except_insert _ _ (zm_hmap m) a); [left|done]|].
        intros b Hb. apply Hf'; [set_solver|]. intros k [Hb' _]%HM. set_solver.
      * by apply same_except_insert; [left|].
Qed.

(** ** [zset_delete] *)

Lemma wp_znode_del m a (Q : unit → ZMem → Prop) :
  is_Some (zm_data m !! a) →
  Q tt (mkZMem (delete a (zm_tree m)) (delete a (zm_hmap m)) (delete a (zm_data m))) →
  wp (znode_del (Some a)) m Q.
Proof. intros [d Hd] HQ. unfold wp, znode_del. by rewrite Hd. Qed.

Lemma same_except_delete {N} X (s s' : gmap positive N) a :
  a ∈ X → same_except X s s' → same_except X s (delete a s').
Proof. intros Ha Hs b Hb. rewrite lookup_delete_ne by congruence. by apply Hs. Qed.

Lemma wp_zset_delete m z l1 a l2 (Q : ZSet → ZMem → Prop) :
  zset_rep m z (l1 ++ a :: l2) →
  (∀ m' z', zset_rep m' z' (l1 ++ l2) → zm_data m' = delete a (zm_data m) →
    zm_tree m' !! a = None → zm_hmap m' !! a = None →
    zframe (l1 ++ a :: l2) m m' → Q z' m') →
  wp (zset_delete z (Some a)) m Q.
Proof.
  intros [Ht (M & Hi & HM)] HQ. pose proof (zt_nodes _ _ _ Ht) as Hok.
  assert (a ∈ l1 ++ a :: l2) as Hal by (clear; set_solver).
  pose proof (zt_NoDup _ _ _ Ht) as [Ha12 _]%NoDup_middle.
  set (name := zd_name (zdat m a)). assert (M !! name = Some a) as HMa by by apply HM.
  pose proof (ni_node _ _ _ _ _ Hi HMa) as Hcode.
  destruct (zm_hmap m !! a) as [hn|] eqn:Hhn; [|done]. injection Hcode as Hcode.
  unfold zset_delete. wp_step. apply wp_znode_data; [by apply (no_alloc _ _ Hok)|].
  wp_step. apply wp_zoom. eapply wp_load; [exact Hhn|].
  replace (fset z_hmap _ m) with m by by destruct m.
  wp_step. wp_step. simpl fget. rewrite Hcode. wp_step. apply wp_zoom.
  eapply (ni_remove (hashf:=str_hash)); [exact Hi| |].
  { intros k b [Hb <-]%HM _. apply hcmp_spec. by apply (no_alloc _ _ Hok). }
  intros h' hmap' Hi' Hf' _. fold name. rewrite HMa. cbn beta iota. wp_step. wp_step; [done|].
  wp_step. eapply (wp_detach (mkZMem (zm_tree m) h' (zm_data m)));
    [eapply ztree_rep_ext; [..|exact Ht]; done|].
  cbv zeta. simpl. intros tree2 p2 Ht2 _ Hf2. wp_step. apply wp_znode_del; simpl.
  { by apply (no_alloc _ _ Hok). }
  apply wp_ret. assert (∀ b, b ∈ l1 ++ l2 → a ≠ b) as Hne by (intros b Hb ->; done).
  apply HQ; simpl; [split|done|apply lookup_delete_eq..|].
  - eapply ztree_rep_ext; [..|exact Ht2]; intros b Hb; simpl; apply lookup_delete_ne; auto.
  - assert (Hdel : ∀ k b, delete name M !! k = Some b ↔ b ∈ l1 ++ l2 ∧ zd_name (zdat m b) = k).
    { intros k b. rewrite lookup_delete_Some, HM, <- Permutation_middle, elem_of_cons.
      split; [intros (Hnk & [->|?] & <-); done|]. intros [Hb <-].
      split; [|by eauto]. intros E. apply (Hne b Hb).
      eapply no_name_inj; [exact Hok|done|clear -Hb; set_solver|done]. }
    exists (delete name M). split.
    + eapply ni_frame; [exact Hi'|]. intros k b [Hb _]%Hdel. apply lookup_delete_ne. auto.
    + intros k b. rewrite Hdel. split; intros [Hb <-]; (split; [done|]); unfold zdat; simpl;
        rewrite lookup_delete_ne by auto; done.
  - split; simpl; apply same_except_delete; try done.
    intros b Hb. apply Hf'. intros k [Hb' _]%HM. done.
Qed.
End ops.
