(* ===== verification/ZSetQuery.v ===== *)
(** The rules of the queries of container/zset.cc: seeking, offsets, and clearing. *)
From S2P Require Import Prelude Common Avl AvlTree AvlRep AvlOffset AvlSpec.
From S2P Require Import HashTable HashRep HashMap HashIndex ZSet ZSetRep ZSetOps.

Section query.
Implicit Types (m : ZMem) (z : ZSet) (l : list positive) (a b : positive) (name : list Byte.byte).

(** ** [zset_seekge] *)

Lemma find_app {A} (f : A → bool) (l1 l2 : list A) :
  List.find f (l1 ++ l2) = match List.find f l1 with Some x => Some x | None => List.find f l2 end.
Proof. induction l1 as [|x l1 IH]; simpl; [done|]. by destruct (f x). Qed.

Lemma find_none {A} (f : A → bool) (l : list A) :
  (∀ x, x ∈ l → f x = false) → List.find f l = None.
Proof. intros H. induction l as [|x l IH]; simpl; [done|]. rewrite H by left. apply IH. intros y ?. apply H. by right. Qed.

Lemma wp_seekge_loop fuel m p t found score name (Q : ptr → ZMem → Prop) :
  let less a := zless_data (zdat m a) score name in
  height t < Z.of_nat fuel → is_tree (zm_tree m) p t → nodes_ok m (inorder t) →
  StronglySorted (λ a b, less b = true → less a = true) (inorder t) →
  Q (match List.find (λ a, negb (less a)) (inorder t) with Some a => Some a | None => found end) m →
  wp (seekge_loop fuel (root t) found score name) m Q.
Proof.
  intros less. revert p t found. induction fuel as [|fuel IH]; intros p t found Hf Ht Hok Hs HQ.
  { pose proof (height_nonneg t). lia. }
  destruct t as [|l a r]; cbn [root seekge_loop]; [by apply wp_ret|].
  cbn [inorder height is_tree] in *. destruct Ht as (Ha & Hl & Hr). wp_step.
  apply wp_zless; [apply (no_alloc _ _ Hok); set_solver|]. fold (less a).
  apply StronglySorted_app in Hs as (Hla & Hsl & Hsr). apply StronglySorted_cons in Hsr as [_ Hsr].
  assert (nodes_ok m (inorder l) ∧ nodes_ok m (inorder r)) as [Hokl Hokr].
  { split; eapply nodes_ok_sublist; [|exact Hok| |exact Hok];
      [by apply sublist_inserts_r|by apply sublist_inserts_l, sublist_cons]. }
  rewrite find_app in HQ. cbn [List.find] in HQ. destruct (less a) eqn:E; cbn [negb] in HQ.
  - wp_step. apply wp_zoom. eapply wp_load; [exact Ha|]. simpl.
    replace (mkZMem (zm_tree m) (zm_hmap m) (zm_data m)) with m by by destruct m.
    apply (IH (Some a)); [lia|done..|]. rewrite (find_none _ (inorder l)) in HQ; [done|].
    intros x Hx. rewrite (Hla x a); [done|done|left|done].
  - wp_step. apply wp_zoom. eapply wp_load; [exact Ha|]. simpl.
    replace (mkZMem (zm_tree m) (zm_hmap m) (zm_data m)) with m by by destruct m.
    apply (IH (Some a)); [lia|done..|]. by destruct (List.find _ (inorder l)).
Qed.

(** In a sorted list, the tuples below a key come first. *)
Lemma zless_sorted m l score name :
  nodes_ok m l → dbl_nan score = false → StronglySorted (node_lt m) l →
  StronglySorted (λ a b, zless_data (zdat m b) score name = true →
    zless_data (zdat m a) score name = true) l.
Proof.
  intros Hok Hn. induction 1 as [|a l Hs IH Hal]; constructor.
  - apply IH. eapply nodes_ok_sublist; [|exact Hok]. by apply sublist_cons.
  - rewrite Forall_forall in *. intros b Hb Hlt.
    apply (zlt_trans (zdat m a) (zdat m b) (mkZData score name)); [| |done|by apply Hal|done];
      apply (no_num _ _ Hok); set_solver.
Qed.

(** The number of tuples below a key. *)
Definition rank_of (m : ZMem) (l : list positive) (score : Z) (name : list Byte.byte) : nat :=
  length (List.filter (λ a, zless_data (zdat m a) score name) l).

Lemma find_rank m l score name :
  StronglySorted (λ a b, zless_data (zdat m b) score name = true →
    zless_data (zdat m a) score name = true) l →
  List.find (λ a, negb (zless_data (zdat m a) score name)) l = l !! rank_of m l score name.
Proof.
  unfold rank_of. induction 1 as [|a l Hs IH Hal]; [done|]. cbn [List.find List.filter].
  destruct (zless_data (zdat m a) score name) eqn:E; cbn [negb]; [done|].
  enough (List.filter (λ a, zless_data (zdat m a) score name) l = []) as -> by done.
  clear IH Hs. induction Hal as [|b l Hb Hal IH]; [done|]. cbn [List.filter].
  destruct (zless_data (zdat m b) score name) eqn:Eb; [by specialize (Hb eq_refl)|done].
Qed.

Lemma wp_zset_seekge m z l score name (Q : ptr → ZMem → Prop) :
  ztree_rep m (zs_root z) l → dbl_nan score = false →
  Q (l !! rank_of m l score name) m → wp (zset_seekge z score name) m Q.
Proof.
  intros [(t & Hwf & <- & Hr) Hok Hs] Hn HQ. unfold zset_seekge. wp_step. wp_step. rewrite <- Hr.
  pose proof (is_tree_dom _ _ _ (wf_tree _ _ Hwf)) as Hdom.
  pose proof (length_le_size _ _ (wf_nodup _ _ Hwf) Hdom).
  pose proof (length_inorder t). pose proof (height_le_tsize t).
  pose proof (zless_sorted _ _ score name Hok Hn Hs) as Hz.
  eapply wp_seekge_loop; [lia|apply Hwf|done|done|]. rewrite find_rank by done.
  by destruct (inorder t !! rank_of m (inorder t) score name).
Qed.

(** ** [znode_offset] *)
Lemma wp_znode_offset m p l i offset (Q : ptr → ZMem → Prop) :
  ztree_rep m p l →
  Q (match l !! i with Some _ => lookupZ l (Z.of_nat i + offset) | None => None end) m →
  wp (znode_offset (l !! i) offset) m Q.
Proof.
  intros [(t & Hwf & <- & Hr) Hok Hs] HQ. destruct (inorder t !! i) as [a|] eqn:Ei; simpl.
  - apply wp_zoom. eapply wp_avl_offset_wf; [exact Hwf|exact Ei|]. simpl. by destruct m.
  - by apply wp_ret.
Qed.

(** ** [zset_clear] *)

(** The addresses [X] have been freed. *)
Definition dropped {N} (X : list positive) (s s' : gmap positive N) : Prop :=
  same_except X s s' ∧ ∀ a, a ∈ X → s' !! a = None.

Record freed (X : list positive) (m m' : ZMem) : Prop := {
  fr_tree : dropped X (zm_tree m) (zm_tree m');
  fr_hmap : dropped X (zm_hmap m) (zm_hmap m');
  fr_data : dropped X (zm_data m) (zm_data m');
}.

Lemma dropped_app {N} X Y (s s' s'' : gmap positive N) :
  dropped X s s' → dropped Y s' s'' → dropped (X ++ Y) s s''.
Proof.
  intros [H1 D1] [H2 D2]. split.
  - eapply same_except_trans; (eapply same_except_mono; [|eassumption]); set_solver.
  - intros a Ha. destruct (decide (a ∈ Y)) as [HY|HY]; [by apply D2|].
    rewrite H2 by done. apply D1. set_solver.
Qed.

Lemma freed_app X Y m m' m'' : freed X m m' → freed Y m' m'' → freed (X ++ Y) m m''.
Proof. intros [] []. split; by eapply dropped_app. Qed.

Lemma dropped_delete {N} (s : gmap positive N) a : dropped [a] s (delete a s).
Proof.
  split; [by apply same_except_delete; [left|]|].
  intros b ->%list_elem_of_singleton. apply lookup_delete_eq.
Qed.

Lemma freed_perm X Y m m' : X ≡ₚ Y → freed X m m' → freed Y m m'.
Proof.
  intros HX [[] [] []]. split; (split; [by rewrite <- HX|]); intros a; rewrite <- HX; auto.
Qed.

Lemma wp_tree_dispose fuel m p t (Q : unit → ZMem → Prop) :
  height t < Z.of_nat fuel → is_tree (zm_tree m) p t → NoDup (inorder t) →
  (∀ a, a ∈ inorder t → is_Some (zm_data m !! a)) →
  (∀ m', freed (inorder t) m m' → Q tt m') → wp (tree_dispose fuel (root t)) m Q.
Proof.
  revert m p t Q. induction fuel as [|fuel IH]; intros m p t Q Hf Ht Hnd Hd HQ.
  { pose proof (height_nonneg t). lia. }
  destruct t as [|l a r]; cbn [root tree_dispose].
  { apply wp_ret, HQ. split; (split; [done|]); intros b Hb; by apply elem_of_nil in Hb. }
  cbn [inorder height is_tree] in *. destruct Ht as (Ha & Hl & Hr).
  assert (Hnd' := Hnd). apply NoDup_app in Hnd' as (Hndl & Hlr & [Har Hndr]%NoDup_cons).
  assert (a ∉ inorder l) as Hal by (intros ?; by apply (Hlr a); [|left]).
  wp_step. apply wp_zoom. eapply wp_load; [exact Ha|]. simpl.
  replace (mkZMem (zm_tree m) (zm_hmap m) (zm_data m)) with m by by destruct m.
  wp_step. apply (IH m (Some a)); [lia|done|done|intros; apply Hd; set_solver|].
  intros m1 H1. pose proof H1 as [[Ht1 _] _ [Hd1 _]]. wp_step. apply wp_zoom.
  eapply wp_load; [by rewrite Ht1|]. simpl.
  replace (mkZMem (zm_tree m1) (zm_hmap m1) (zm_data m1)) with m1 by by destruct m1.
  wp_step. apply (IH m1 (Some a)); [lia| |done| |].
  { eapply is_tree_frame; [|exact Hr]. intros b Hb. apply Ht1. intros Hbl.
    apply (Hlr b); [done|by right]. }
  { intros b Hb. rewrite Hd1; [apply Hd; set_solver|]. intros Hbl.
    apply (Hlr b); [done|by right]. }
  intros m2 H2. pose proof H2 as [_ _ [Hd2 _]]. apply wp_znode_del.
  { rewrite Hd2, Hd1 by done. apply Hd. set_solver. }
  apply HQ. eapply (freed_perm ((inorder l ++ inorder r) ++ [a])).
  { rewrite <- app_assoc. apply Permutation_app_head. by rewrite Permutation_app_comm. }
  eapply freed_app; [by eapply freed_app|]. split; apply dropped_delete.
Qed.

Lemma wp_zset_clear m z l (Q : ZSet → ZMem → Prop) :
  ztree_rep m (zs_root z) l →
  (∀ m', freed l m m' → Q (mkZSet None (zs_hmap z)) m') → wp (zset_clear z) m Q.
Proof.
  intros [(t & Hwf & <- & Hr) Hok Hs] HQ. unfold zset_clear. wp_step. wp_step. rewrite <- Hr.
  pose proof (is_tree_dom _ _ _ (wf_tree _ _ Hwf)) as Hdom.
  pose proof (length_le_size _ _ (wf_nodup _ _ Hwf) Hdom).
  pose proof (length_inorder t). pose proof (height_le_tsize t).
  wp_step. eapply (wp_tree_dispose _ _ None); [lia|apply Hwf|apply Hwf|apply (no_alloc _ _ Hok)|].
  intros m' Hm'. by apply wp_ret, HQ.
Qed.
End query.
