(* ===== verification/ZSetSpec.v ===== *)
(** The abstract sorted set: a list of (score, name) tuples in order, and the proof
    that the operations of container/zset.cc implement it. *)
From S2P Require Import Prelude Common Avl AvlTree AvlRep AvlSpec.
From S2P Require Import HashTable HashRep HashMap HashIndex ZSet ZSetRep ZSetOps ZSetQuery.

(** * The specification *)

Definition spec_find (name : list Byte.byte) (ds : list zdata) : option zdata :=
  List.find (λ d, bool_decide (zd_name d = name)) ds.

Definition spec_remove (name : list Byte.byte) (ds : list zdata) : list zdata :=
  List.filter (λ d, negb (bool_decide (zd_name d = name))) ds.

(** Put a tuple with a new name in its place. *)
Definition spec_put (d : zdata) (ds : list zdata) : list zdata :=
  List.filter (λ x, zkey_lt x d) ds ++ d :: List.filter (λ x, zkey_lt d x) ds.

(** Was a name added, and the set afterwards.  An equal score (also -0.0 for 0.0)
    is not stored again. *)
Definition spec_insert (name : list Byte.byte) (score : Z) (ds : list zdata) : bool * list zdata :=
  match spec_find name ds with
  | Some d =>
      (false, if dbl_eq (zd_score d) score then ds
              else spec_put (mkZData score name) (spec_remove name ds))
  | None => (true, spec_put (mkZData score name) ds)
  end.

(** The number of tuples below a key: the position of the first one at or above it. *)
Definition spec_rank (score : Z) (name : list Byte.byte) (ds : list zdata) : nat :=
  length (List.filter (λ d, zless_data d score name) ds).

(** The tuples of the nodes [l]. *)
Definition entries (m : ZMem) (l : list positive) : list zdata := zdat m <$> l.

(** What holds of the tuples of every set. *)
Record entries_ok (ds : list zdata) : Prop := {
  eo_num : Forall znum ds;
  eo_names : NoDup (zd_name <$> ds);
  eo_sorted : StronglySorted zlt ds;
}.

Section spec.
Implicit Types (m : ZMem) (z : ZSet) (l : list positive) (a b : positive).
Implicit Types (name : list Byte.byte) (ds : list zdata) (d : zdata).

(** * Facts on the specification *)

Lemma filter_all {A} (f : A → bool) (l : list A) :
  (∀ x, x ∈ l → f x = true) → List.filter f l = l.
Proof.
  intros H. induction l as [|x l IH]; simpl; [done|]. rewrite H by left.
  f_equal. apply IH. intros y Hy. apply H. by right.
Qed.

Lemma filter_none {A} (f : A → bool) (l : list A) :
  (∀ x, x ∈ l → f x = false) → List.filter f l = [].
Proof.
  intros H. induction l as [|x l IH]; simpl; [done|]. rewrite H by left.
  apply IH. intros y Hy. apply H. by right.
Qed.

Lemma zkey_lt_asym d d' : znum d → znum d' → zkey_lt d d' = true → zkey_lt d' d = false.
Proof.
  intros Hd Hd' H. destruct (zkey_lt d' d) eqn:E; [|done].
  by destruct (zlt_irrefl d Hd (zlt_trans d d' d Hd Hd' Hd H E)).
Qed.

Lemma spec_put_eq ds1 d ds2 :
  entries_ok (ds1 ++ d :: ds2) → spec_put d (ds1 ++ ds2) = ds1 ++ d :: ds2.
Proof.
  intros [Hn _ Hs]. rewrite Forall_forall in Hn.
  apply StronglySorted_app in Hs as (H1 & _ & Hs). apply StronglySorted_cons in Hs as [H2 _].
  rewrite Forall_forall in H2.
  assert (∀ x, x ∈ ds1 → zkey_lt x d = true) as Hlt by (intros x Hx; apply H1; [done|left]).
  assert (∀ x, x ∈ ds2 → zkey_lt d x = true) as Hgt by exact H2.
  unfold spec_put. rewrite !List.filter_app.
  rewrite (filter_all _ ds1), (filter_none _ ds2), (filter_none _ ds1), (filter_all _ ds2);
    [by rewrite app_nil_r|done| | |done].
  - intros x Hx. apply zkey_lt_asym; [apply Hn; set_solver..|auto].
  - intros x Hx. apply zkey_lt_asym; [apply Hn; set_solver..|auto].
Qed.

Lemma spec_remove_eq ds1 d ds2 :
  NoDup (zd_name <$> ds1 ++ d :: ds2) →
  spec_remove (zd_name d) (ds1 ++ d :: ds2) = ds1 ++ ds2.
Proof.
  rewrite fmap_app, fmap_cons. intros [Hd _]%NoDup_middle. rewrite <- fmap_app in Hd.
  unfold spec_remove. rewrite List.filter_app. cbn [List.filter].
  rewrite bool_decide_true by done. cbn [negb].
  rewrite !filter_all; [done|..]; intros x Hx; rewrite bool_decide_false; [done| |done|];
    intros E; apply Hd; rewrite <- E; apply list_elem_of_fmap_2; set_solver.
Qed.

Lemma find_unique {A} (f : A → bool) (l : list A) x :
  x ∈ l → f x = true → (∀ y, y ∈ l → f y = true → y = x) → List.find f l = Some x.
Proof.
  intros Hx Hf Hu. induction l as [|y l IH]; [by apply elem_of_nil in Hx|].
  simpl. destruct (f y) eqn:E; [f_equal; apply Hu; [left|done]|].
  apply elem_of_cons in Hx as [->|Hx]; [congruence|]. apply IH; [done|].
  intros y' Hy'. apply Hu. by right.
Qed.

(** * Sets in memory and their tuples *)

Lemma entries_wf m p l : ztree_rep m p l → entries_ok (entries m l).
Proof.
  intros [_ [_ Hn Hnm] Hs]. unfold entries. split.
  - apply Forall_fmap, Forall_forall. apply Hn.
  - by rewrite <- list_fmap_compose.
  - clear Hn Hnm. induction Hs as [|a l Hs IH Ha]; [constructor|].
    rewrite fmap_cons. constructor; [done|]. apply Forall_fmap. exact Ha.
Qed.

Lemma entries_ext m m' l :
  (∀ a, a ∈ l → zm_data m' !! a = zm_data m !! a) → entries m' l = entries m l.
Proof.
  intros H. apply list_fmap_ext. intros i a Ha. apply zdat_ext, H. by eapply list_elem_of_lookup_2.
Qed.

Lemma find_entries m l name r :
  nodes_ok m l → found_by_name m l name r → spec_find name (entries m l) = zdat m <$> r.
Proof.
  intros Hok Hr. unfold spec_find. destruct r as [a|]; simpl in *.
  - destruct Hr as [Ha <-]. apply find_unique.
    + by apply list_elem_of_fmap_2.
    + by rewrite bool_decide_true.
    + intros y (b & -> & Hb)%list_elem_of_fmap E%bool_decide_eq_true. f_equal.
      by eapply no_name_inj.
  - apply find_none. intros y (b & -> & Hb)%list_elem_of_fmap. rewrite bool_decide_false; auto.
Qed.

Lemma rank_entries m l score name : rank_of m l score name = spec_rank score name (entries m l).
Proof.
  unfold rank_of, spec_rank, entries. induction l as [|a l IH]; simpl; [done|].
  destruct (zless_data (zdat m a) score name); simpl; by rewrite IH.
Qed.

(** * [zset_insert] implements [spec_insert] *)

(** The nodes afterwards are those before, and maybe one that was not in use. *)
Definition grows (m : ZMem) (l l' : list positive) : Prop :=
  l ⊆ l' ∧ ∀ a, a ∈ l' → a ∈ l ∨
    zm_tree m !! a = None ∧ zm_hmap m !! a = None ∧ zm_data m !! a = None.

Lemma wp_insert_old m z l1 a l2 name score (Q : bool * ZSet → ZMem → Prop) :
  let l := l1 ++ a :: l2 in
  zset_rep m z l → dbl_nan score = false → zd_name (zdat m a) = name →
  (∀ m' z' l', zset_rep m' z' l' → entries m' l' = (spec_insert name score (entries m l)).2 →
    grows m l l' → zframe l' m m' → Q ((spec_insert name score (entries m l)).1, z') m') →
  wp (zset ← zset_update z (Some a) score; mret (false, zset)) m Q.
Proof.
  intros l Hz Hn Hname HQ. pose proof (zr_tree _ _ _ Hz) as Ht. pose proof (zt_nodes _ _ _ Ht) as Hok.
  assert (Hfind : spec_find name (entries m l) = Some (zdat m a)).
  { apply (find_entries m l name (Some a)); [done|]. split; [|done]. unfold l. clear. set_solver. }
  unfold spec_insert in HQ. rewrite Hfind in HQ. wp_step. eapply wp_zset_update; [exact Hz|done|..].
  - intros E. apply wp_ret. rewrite E in HQ. apply (HQ m z l); [done..| |done].
    split; [done|auto].
  - intros m' z' k1 k2 E Hk Hz' Hdata Hf. apply wp_ret. rewrite E, Hname in *.
    assert (Hperm : k1 ++ a :: k2 ≡ₚ l).
    { unfold l. by rewrite <- !Permutation_middle, Hk. }
    apply (HQ m' z' (k1 ++ a :: k2)); [done| | |].
    + pose proof (entries_wf _ _ _ (zr_tree _ _ _ Hz')) as Hwf.
      pose proof (zt_NoDup _ _ _ Ht) as [Ha12 _]%NoDup_middle.
      assert (entries m' (k1 ++ k2) = entries m (l1 ++ l2)) as Hrest.
      { rewrite <- Hk. apply entries_ext. intros b Hb. rewrite Hdata. apply lookup_insert_ne. congruence. }
      assert (zdat m' a = mkZData score name) as Ha by (unfold zdat; by rewrite Hdata, lookup_insert_eq).
      unfold entries in Hwf, Hrest |- *. rewrite fmap_app, fmap_cons, Ha in Hwf |- *.
      rewrite <- spec_put_eq by done.
      simpl. f_equal. rewrite <- fmap_app, Hrest. unfold l. rewrite !fmap_app, fmap_cons, <- Hname.
      rewrite spec_remove_eq; [done|]. pose proof (no_names _ _ Hok) as Hnm.
      unfold l in Hnm. rewrite <- fmap_cons, <- fmap_app, <- list_fmap_compose. exact Hnm.
    + split; [by rewrite Hperm|]. intros b Hb. left. by rewrite <- Hperm.
    + eapply zframe_mono; [|exact Hf]. by rewrite Hperm.
Qed.

Lemma wp_zset_insert m z l name score (Q : bool * ZSet → ZMem → Prop) :
  zset_rep m z l → dbl_nan score = false → Z.of_nat (length l) < cnt_max →
  (∀ m' z' l', zset_rep m' z' l' → entries m' l' = (spec_insert name score (entries m l)).2 →
    grows m l l' → zframe l' m m' → Q ((spec_insert name score (entries m l)).1, z') m') →
  wp (zset_insert z name score) m Q.
Proof.
  intros Hz Hn Hlen HQ. unfold zset_insert. wp_step. eapply wp_zset_lookup; [exact Hz|].
  cbv zeta. intros h' hmap' r Hz1 Hf1 _ Hr. cbn beta iota.
  set (m1 := mkZMem (zm_tree m) h' (zm_data m)) in *.
  assert (entries m1 l = entries m l) as He by done. rewrite <- He in HQ.
  pose proof (zt_nodes _ _ _ (zr_tree _ _ _ Hz1)) as Hok1.
  destruct r as [a|].
  - destruct Hr as [(l1 & l2 & ->)%list_elem_of_split Hname].
    eapply wp_insert_old; [exact Hz1|done|done|]. intros m' z' l' Hz' He' [Hg1 Hg2] Hf'.
    apply (HQ m' z' l'); [done|done| |].
    + split; [done|]. intros b [Hb|(? & ? & ?)]%Hg2; [by left|].
      destruct (decide (b ∈ l1 ++ a :: l2)) as [|Hbl]; [by left|]. right.
      rewrite <- (zf_hmap _ _ _ Hf1 b) by done. done.
    + eapply zframe_trans; [|exact Hf']. by eapply zframe_mono; [|exact Hf1].
  - eapply (wp_insert_new (λ zset, mret (true, zset))); [exact Hz1|done|done|exact Hr|].
    intros m' z' l1 a l2 -> Hz' Hta Hha Hda Hdata Hf'. apply wp_ret.
    assert (spec_find name (entries m1 (l1 ++ l2)) = None) as Hfind.
    { apply (find_entries _ _ _ None); [done|exact Hr]. }
    unfold spec_insert in HQ. rewrite Hfind in HQ.
    pose proof (zr_tree _ _ _ Hz') as Ht'. pose proof (zt_NoDup _ _ _ Ht') as [Ha12 _]%NoDup_middle.
    assert (a ∉ l1 ++ l2 → zm_hmap m !! a = None) as Hha'.
    { intros Ha. by rewrite <- (zf_hmap _ _ _ Hf1 a). }
    apply (HQ m' z' (l1 ++ a :: l2)); [done| | |].
    + pose proof (entries_wf _ _ _ Ht') as Hwf.
      assert (entries m' (l1 ++ l2) = entries m1 (l1 ++ l2)) as Hrest.
      { apply entries_ext. intros b Hb. rewrite Hdata. apply lookup_insert_ne. congruence. }
      assert (zdat m' a = mkZData score name) as Ha by (unfold zdat; by rewrite Hdata, lookup_insert_eq).
      unfold entries in Hwf, Hrest |- *. rewrite fmap_app, fmap_cons, Ha in Hwf |- *.
      rewrite <- spec_put_eq by done. simpl. f_equal. by rewrite <- fmap_app, Hrest.
    + split; [clear; set_solver|]. intros b Hb. rewrite <- Permutation_middle in Hb.
      apply elem_of_cons in Hb as [->|Hb]; [right|by left]. auto.
    + eapply zframe_trans; [eapply zframe_mono; [|exact Hf1]|eapply zframe_mono; [|exact Hf']];
        rewrite <- Permutation_middle; set_solver.
Qed.

(** * [zset_delete] implements [spec_remove] *)
Lemma wp_zset_delete_spec m z l a (Q : ZSet → ZMem → Prop) :
  zset_rep m z l → a ∈ l →
  (∀ m' z' l', zset_rep m' z' l' → entries m' l' = spec_remove (zd_name (zdat m a)) (entries m l) →
    l ≡ₚ a :: l' → zm_tree m' !! a = None → zm_hmap m' !! a = None → zm_data m' !! a = None →
    zframe l m m' → Q z' m') →
  wp (zset_delete z (Some a)) m Q.
Proof.
  intros Hz (l1 & l2 & ->)%list_elem_of_split HQ.
  pose proof (zr_tree _ _ _ Hz) as Ht. pose proof (zt_nodes _ _ _ Ht) as Hok.
  pose proof (zt_NoDup _ _ _ Ht) as [Ha12 _]%NoDup_middle.
  eapply wp_zset_delete; [exact Hz|]. intros m' z' Hz' Hdata Hta Hha Hf.
  apply (HQ m' z' (l1 ++ l2)); [done| |by rewrite Permutation_middle|done|done| |done].
  - assert (entries m' (l1 ++ l2) = entries m (l1 ++ l2)) as ->.
    { apply entries_ext. intros b Hb. rewrite Hdata. apply lookup_delete_ne. congruence. }
    unfold entries. rewrite !fmap_app, fmap_cons, spec_remove_eq; [done|].
    rewrite <- fmap_cons, <- fmap_app, <- list_fmap_compose. apply (no_names _ _ Hok).
  - rewrite Hdata. apply lookup_delete_eq.
Qed.
End spec.
