(* ===== verification/ZSetTheorems.v ===== *)
(** The correctness theorems of container/zset.cc: a sorted set is the list of its
    tuples, strictly sorted by score and name and with distinct names. *)
From S2P Require Import Prelude Common Avl AvlTree AvlRep AvlSpec.
From S2P Require Import HashTable HashRep HashMap HashIndex ZSet ZSetRep ZSetOps ZSetQuery ZSetSpec.

Section theorems.
Implicit Types (m : ZMem) (z : ZSet) (l : list positive) (name : list Byte.byte).

(** C10. [zset_insert] adds the tuple, or moves the name to its new score, as
    [spec_insert] says, and returns whether the name is new.  The tree, its order, and
    the index by name stay in agreement, the tuples stay strictly sorted with distinct
    names, and no memory but the set's own nodes and at most one new node changes. *)
Theorem zset_insert_correct m z l name score :
  zset_rep m z l → dbl_nan score = false → Z.of_nat (length l) < cnt_max →
  ∃ m' z' l', zset_insert z name score m =
      Some (((spec_insert name score (entries m l)).1, z'), m') ∧
    zset_rep m' z' l' ∧ entries m' l' = (spec_insert name score (entries m l)).2 ∧
    entries_ok (entries m' l') ∧ grows m l l' ∧ zframe l' m m'.
Proof.
  intros Hz Hn Hl.
  destruct (proj1 (wp_run (zset_insert z name score) m (λ r m',
    r.1 = (spec_insert name score (entries m l)).1 ∧ ∃ l', zset_rep m' r.2 l' ∧
    entries m' l' = (spec_insert name score (entries m l)).2 ∧ grows m l l' ∧ zframe l' m m')))
    as ([b z'] & m' & E & Hb & l' & Hz' & ? & ? & ?).
  - eapply wp_zset_insert; [done..|]. intros m' z' l' ? ? ? ?. split; [done|by exists l'].
  - simpl in *. subst b. exists m', z', l'. split_and!; try done.
    eapply entries_wf, zr_tree, Hz'.
Qed.

(** [zset_lookup] returns the node with the name, or null; only the progressive
    rehashing of the index proceeds. *)
Theorem zset_lookup_correct m z l name :
  zset_rep m z l →
  ∃ r m' z', zset_lookup z name m = Some ((r, z'), m') ∧ zset_rep m' z' l ∧
    zm_data m' = zm_data m ∧ zm_tree m' = zm_tree m ∧ zframe l m m' ∧
    zdat m' <$> r = spec_find name (entries m l) ∧ (∀ a, r = Some a → a ∈ l).
Proof.
  intros Hz.
  destruct (proj1 (wp_run (zset_lookup z name) m (λ r m', zset_rep m' r.2 l ∧
    zm_data m' = zm_data m ∧ zm_tree m' = zm_tree m ∧ zframe l m m' ∧
    zdat m' <$> r.1 = spec_find name (entries m l) ∧ (∀ a, r.1 = Some a → a ∈ l))))
    as ([r z'] & m' & ? & ? & ? & ? & ? & ?); [|by exists r, m', z'].
  eapply wp_zset_lookup; [done|]. cbv zeta. intros h' hmap' r Hz' Hf _ Hr.
  split_and!; simpl; try done.
  - pose proof (zt_nodes _ _ _ (zr_tree _ _ _ Hz')) as Hok.
    by rewrite <- (find_entries _ _ _ _ Hok Hr).
  - intros a ->. by destruct Hr.
Qed.

(** C23. [zset_delete] of a node of the set takes exactly its name out of the set, from
    the tree and from the index, and frees the node. *)
Theorem zset_delete_correct m z l a :
  zset_rep m z l → a ∈ l →
  ∃ m' z' l', zset_delete z (Some a) m = Some (z', m') ∧ zset_rep m' z' l' ∧
    entries m' l' = spec_remove (zd_name (zdat m a)) (entries m l) ∧ l ≡ₚ a :: l' ∧
    zm_tree m' !! a = None ∧ zm_hmap m' !! a = None ∧ zm_data m' !! a = None ∧ zframe l m m'.
Proof.
  intros Hz Ha.
  destruct (proj1 (wp_run (zset_delete z (Some a)) m (λ z' m', ∃ l', zset_rep m' z' l' ∧
    entries m' l' = spec_remove (zd_name (zdat m a)) (entries m l) ∧ l ≡ₚ a :: l' ∧
    zm_tree m' !! a = None ∧ zm_hmap m' !! a = None ∧ zm_data m' !! a = None ∧ zframe l m m')))
    as (z' & m' & ? & l' & ?); [|by exists m', z', l'].
  eapply wp_zset_delete_spec; [done..|]. intros m' z' l' ? ? ? ? ? ? ?. by exists l'.
Qed.

Lemma lookupZ_fmap {A B} (f : A → B) (l : list A) i : lookupZ (f <$> l) i = f <$> lookupZ l i.
Proof. unfold lookupZ. destruct (i <? 0); [done|]. apply list_lookup_fmap. Qed.

(** C24. [zset_seekge] finds the first tuple at or above the key, and [znode_offset]
    from it reaches the tuple at any distance in the order, or null past either end
    (or when the seek found nothing). *)
Theorem zset_seek_offset_correct m z l score name offset :
  zset_rep m z l → dbl_nan score = false →
  let i := spec_rank score name (entries m l) in
  ∃ r r', zset_seekge z score name m = Some (r, m) ∧ znode_offset r offset m = Some (r', m) ∧
    zdat m <$> r = entries m l !! i ∧
    zdat m <$> r' = match entries m l !! i with
                    | Some _ => lookupZ (entries m l) (Z.of_nat i + offset)
                    | None => None
                    end.
Proof.
  intros [Ht _] Hn i.
  destruct (proj1 (wp_run (zset_seekge z score name) m (λ r m', m' = m ∧ r = l !! i)))
    as (r & ? & E & -> & ->).
  { eapply wp_zset_seekge; [done|done|]. by rewrite rank_entries. }
  destruct (proj1 (wp_run (znode_offset (l !! i) offset) m (λ r' m', m' = m ∧
    r' = match l !! i with Some _ => lookupZ l (Z.of_nat i + offset) | None => None end)))
    as (r' & ? & E' & -> & ->).
  { by eapply wp_znode_offset. }
  exists (l !! i). eexists. split_and!; [done|done| |]; unfold entries.
  - by rewrite list_lookup_fmap.
  - rewrite list_lookup_fmap, lookupZ_fmap. by destruct (l !! i).
Qed.

(** C36. [zset_clear] frees every node of the set, and nothing else. *)
Theorem zset_clear_correct m z l :
  zset_rep m z l →
  ∃ m', zset_clear z m = Some (mkZSet None (zs_hmap z), m') ∧ freed l m m'.
Proof.
  intros [Ht _].
  destruct (proj1 (wp_run (zset_clear z) m (λ z' m', z' = mkZSet None (zs_hmap z) ∧ freed l m m')))
    as (z' & m' & ? & -> & ?); [|by exists m'].
  eapply wp_zset_clear; [done|]. done.
Qed.
End theorems.

(** * Witnesses *)
Module ZSetWitness.
Definition dbl_m1 : Z := 0xBFF0000000000000.
Definition dbl_1 : Z := 0x3FF0000000000000.
Definition dbl_2 : Z := 0x4000000000000000.
Definition nm_a : list Byte.byte := [x61]%byte.
Definition nm_b : list Byte.byte := [x62]%byte.
Definition nm_c : list Byte.byte := [x63]%byte.

Lemma zset_rep_new (m : ZMem) (Q : HashMap → ZMem → Prop) :
  (∀ h, zset_rep m (mkZSet None h) [] → Q h m) → wp (zoom z_hmap hm_new) m Q.
Proof.
  intros HQ. apply wp_zoom. apply (ni_new (hashf:=str_hash)). intros h Hh. simpl.
  replace (mkZMem (zm_tree m) (zm_hmap m) (zm_data m)) with m by by destruct m.
  apply HQ. split.
  - split; [|split|constructor].
    + exists Leaf. split_and!; [|done|done]. split; [done|constructor|done|done].
    + intros a Ha. by apply elem_of_nil in Ha.
    + intros a Ha. by apply elem_of_nil in Ha.
    + constructor.
  - exists ∅. split; [done|]. intros k a. rewrite lookup_empty, elem_of_nil. naive_solver.
Qed.

Definition build : M ZMem ZSet :=
  h ← zoom z_hmap hm_new;
  '(_, z) ← zset_insert (mkZSet None h) nm_b dbl_2;
  '(_, z) ← zset_insert z nm_a dbl_1;
  '(_, z) ← zset_insert z nm_c dbl_1;
  '(_, z) ← zset_insert z nm_b dbl_m1;
  mret z.

Definition ds3 : list zdata := [mkZData dbl_m1 nm_b; mkZData dbl_1 nm_a; mkZData dbl_1 nm_c].

Lemma build_step m z l ds name score (Q : bool * ZSet → ZMem → Prop) :
  zset_rep m z l ∧ entries m l = ds → dbl_nan score = false → (length ds < 10)%nat →
  (∀ b m' z' l', zset_rep m' z' l' ∧ entries m' l' = (spec_insert name score ds).2 → Q (b, z') m') →
  wp (zset_insert z name score) m Q.
Proof.
  intros [Hz <-] Hn Hl HQ. eapply wp_zset_insert; [done|done| |eauto].
  unfold entries in Hl. rewrite length_fmap in Hl. unfold cnt_max. lia.
Qed.

(** A set of three names, the score of one of which was updated. *)
Lemma set3 : ∃ m z l, zset_rep m z l ∧ entries m l = ds3.
Proof.
  assert (wp build (mkZMem ∅ ∅ ∅) (λ z m, ∃ l, zset_rep m z l ∧ entries m l = ds3)) as Hw.
  { unfold build. wp_step. apply zset_rep_new. intros h Hz.
    do 4 (wp_step; eapply build_step; [first [eassumption|by split]|by vm_compute|vm_compute; lia|];
      intros; cbn beta iota).
    match goal with
    | H : zset_rep ?m ?z ?l ∧ _ |- wp (mret ?z) ?m _ =>
        destruct H as [Hz' He']; apply wp_ret; exists l; split; [exact Hz'|rewrite He'; by vm_compute]
    end. }
  destruct (proj1 (wp_run build _ _) Hw) as (z & m & _ & l & Hl). by exists m, z, l.
Qed.
End ZSetWitness.
Import ZSetWitness.

Lemma zset_insert_correct_witness :
  ∃ m z l m' z' l', entries m l = ds3 ∧ zset_insert z nm_a dbl_m1 m = Some ((false, z'), m') ∧
    zset_rep m' z' l' ∧
    entries m' l' = [mkZData dbl_m1 nm_a; mkZData dbl_m1 nm_b; mkZData dbl_1 nm_c].
Proof.
  destruct set3 as (m & z & l & Hz & He).
  destruct (zset_insert_correct m z l nm_a dbl_m1 Hz) as (m' & z' & l' & E & Hz' & He' & _).
  - by vm_compute.
  - assert (length (entries m l) = 3%nat) as Hl by by rewrite He. unfold entries in Hl.
    rewrite length_fmap in Hl. rewrite Hl. by vm_compute.
  - rewrite He in E, He'. by exists m, z, l, m', z', l'.
Defined.

Lemma zset_lookup_correct_witness :
  ∃ m z l r m' z', entries m l = ds3 ∧ zset_lookup z nm_c m = Some ((r, z'), m') ∧
    zdat m' <$> r = Some (mkZData dbl_1 nm_c).
Proof.
  destruct set3 as (m & z & l & Hz & He).
  destruct (zset_lookup_correct m z l nm_c Hz) as (r & m' & z' & E & _ & _ & _ & _ & Hr & _).
  rewrite He in Hr. by exists m, z, l, r, m', z'.
Defined.

Lemma zset_delete_correct_witness :
  ∃ m z l a m' z' l', entries m l = ds3 ∧ zset_delete z (Some a) m = Some (z', m') ∧
    zset_rep m' z' l' ∧ entries m' l' = [mkZData dbl_1 nm_a; mkZData dbl_1 nm_c].
Proof.
  destruct set3 as (m & z & l & Hz & He).
  destruct l as [|a l]; [done|].
  destruct (zset_delete_correct m z (a :: l) a Hz) as (m' & z' & l' & E & Hz' & He' & _); [left|].
  assert (zd_name (zdat m a) = nm_b) as Hn.
  { pose proof (f_equal head He) as Ha. simpl in Ha. injection Ha as ->. done. }
  rewrite Hn, He in He'. by exists m, z, (a :: l), a, m', z', l'.
Defined.

(** From (1.0, b) the first tuple at or above is (1.0, c); the one before is (1.0, a). *)
Lemma zset_seek_offset_correct_witness :
  ∃ m z l r r', entries m l = ds3 ∧ zset_seekge z dbl_1 nm_b m = Some (r, m) ∧
    znode_offset r (-1) m = Some (r', m) ∧ zdat m <$> r = Some (mkZData dbl_1 nm_c) ∧
    zdat m <$> r' = Some (mkZData dbl_1 nm_a).
Proof.
  destruct set3 as (m & z & l & Hz & He).
  destruct (zset_seek_offset_correct m z l dbl_1 nm_b (-1) Hz eq_refl) as (r & r' & E & E' & Hr & Hr').
  rewrite He in Hr, Hr'. by exists m, z, l, r, r'.
Defined.

Lemma zset_clear_correct_witness :
  ∃ m z l m', entries m l = ds3 ∧ zset_clear z m = Some (mkZSet None (zs_hmap z), m') ∧ freed l m m'.
Proof.
  destruct set3 as (m & z & l & Hz & He).
  destruct (zset_clear_correct m z l Hz) as (m' & ? & ?). by exists m, z, l, m'.
Defined.
