(* ===== verification/DList.v ===== *)
(** The intrusive circular list of container/list.h ([ListNode]), which keeps the
    idle timers of the server in order, and its correctness. *)
From S2P Require Import Prelude.

(** * The code *)

Record ListNode : Type := mkListNode { ln_prev : ptr; ln_next : ptr }.

Abbreviation list_heap := (gmap positive ListNode).

Definition f_prev : field ListNode ptr := Field ln_prev (λ v n, mkListNode v (ln_next n)).
Definition f_lnext : field ListNode ptr := Field ln_next (λ v n, mkListNode (ln_prev n) v).

(** The default member initialisers of a node at address [a]. *)
Definition list_node_init (a : positive) : ListNode := mkListNode (Some a) (Some a).

Definition list_empty (this : ptr) : M list_heap bool :=
  n ← this ->> f_lnext;
  mret (bool_decide (n = this)).

Definition list_detach (this : ptr) : M list_heap unit :=
  p ← this ->> f_prev;
  n ← this ->> f_lnext;
  p ->> f_lnext <<- n;;
  n ← this ->> f_lnext;
  p ← this ->> f_prev;
  n ->> f_prev <<- p;;
  this ->> f_prev <<- this;;
  this ->> f_lnext <<- this.

Definition list_insert_back (this rookie : ptr) : M list_heap unit :=
  p ← this ->> f_prev;
  rookie ->> f_prev <<- p;;
  rookie ->> f_lnext <<- this;;
  p ← this ->> f_prev;
  p ->> f_lnext <<- rookie;;
  this ->> f_prev <<- rookie.

(** * The representation *)

(** [next] and [prev] of a node *)
Definition lnext (s : list_heap) (a : positive) : ptr := s !! a ≫= ln_next.
Definition lprev (s : list_heap) (a : positive) : ptr := s !! a ≫= ln_prev.

(** The addresses met on one way round: from the head [h] back to it. *)
Definition round (h : positive) (l : list positive) : list positive := h :: l ++ [h].

(** The list with head [h] has the nodes [l], in order: neighbours on the way round
    point to each other. *)
Record ring (s : list_heap) (h : positive) (l : list positive) : Prop := {
  rg_nodup : NoDup (h :: l);
  rg_alloc : ∀ a, a ∈ h :: l → is_Some (s !! a);
  rg_pair : ∀ i x y, round h l !! i = Some x → round h l !! S i = Some y →
    lnext s x = Some y ∧ lprev s y = Some x;
}.

Section ring.
Implicit Types (s : list_heap) (h a : positive) (l : list positive).

Lemma round_length h l : length (round h l) = S (S (length l)).
Proof. unfold round. simpl. rewrite length_app. simpl. lia. Qed.

(** Every node is met once, but for the head, which is first and last. *)
Lemma round_left h l i j x :
  NoDup (h :: l) → round h l !! i = Some x → round h l !! j = Some x →
  (i ≤ length l)%nat → (j ≤ length l)%nat → i = j.
Proof.
  intros Hnd Hi Hj Hil Hjl. unfold round in *. rewrite app_comm_cons in *.
  rewrite lookup_app_l in Hi, Hj by (simpl; lia). by eapply NoDup_lookup.
Qed.

Lemma round_right h l i j x :
  NoDup (h :: l) → round h l !! S i = Some x → round h l !! S j = Some x → i = j.
Proof.
  intros Hnd Hi Hj. unfold round in *. simpl in Hi, Hj.
  rewrite (Permutation_cons_append l h) in Hnd. by eapply NoDup_lookup.
Qed.

(** A store through the pointers of a node *)
Lemma lnext_insert s a n x : lnext (<[a:=n]> s) x = if decide (a = x) then ln_next n else lnext s x.
Proof.
  unfold lnext. destruct (decide (a = x)) as [->|Hax]; [by rewrite lookup_insert_eq|].
  by rewrite lookup_insert_ne.
Qed.

Lemma lprev_insert s a n x : lprev (<[a:=n]> s) x = if decide (a = x) then ln_prev n else lprev s x.
Proof.
  unfold lprev. destruct (decide (a = x)) as [->|Hax]; [by rewrite lookup_insert_eq|].
  by rewrite lookup_insert_ne.
Qed.

(** The effect of the stores, in terms of [lnext] and [lprev]. *)
Lemma wp_get_next s a p (Q : ptr → list_heap → Prop) :
  lnext s a = Some p → Q (Some p) s → wp (Some a ->> f_lnext) s Q.
Proof.
  unfold lnext. intros Ha HQ. destruct (s !! a) as [n|] eqn:E; [|done]. simpl in Ha.
  eapply wp_load; [done|]. simpl. by rewrite Ha.
Qed.

Lemma wp_get_prev s a p (Q : ptr → list_heap → Prop) :
  lprev s a = Some p → Q (Some p) s → wp (Some a ->> f_prev) s Q.
Proof.
  unfold lprev. intros Ha HQ. destruct (s !! a) as [n|] eqn:E; [|done]. simpl in Ha.
  eapply wp_load; [done|]. simpl. by rewrite Ha.
Qed.

(** [writes X s s' nx pv]: [s'] has the links [nx] and [pv], and differs from [s] in
    the nodes [X] only. *)
Record writes (X : list positive) (s s' : list_heap) (nx pv : positive → ptr) : Prop := {
  wr_next : ∀ x, lnext s' x = nx x;
  wr_prev : ∀ x, lprev s' x = pv x;
  wr_dom : dom s' = dom s;
  wr_frame : same_except X s s';
}.

Lemma wp_set_next X s0 s a v (Q : unit → list_heap → Prop) nx pv :
  writes X s0 s nx pv → is_Some (s0 !! a) → a ∈ X →
  (∀ s', writes X s0 s' (λ x, if decide (a = x) then v else nx x) pv → Q tt s') →
  wp (Some a ->> f_lnext <<- v) s Q.
Proof.
  intros [Hn Hp Hd Hf] Ha HX HQ. destruct (s !! a) as [n|] eqn:E.
  2: { apply not_elem_of_dom in E. rewrite Hd in E. by apply elem_of_dom in Ha. }
  eapply wp_store; [done|]. apply HQ. split.
  - intros x. rewrite lnext_insert, Hn. done.
  - intros x. rewrite lprev_insert. destruct (decide (a = x)) as [->|]; [|done].
    rewrite <- Hp. unfold lprev. by rewrite E.
  - rewrite dom_insert_lookup_L; [done|by eexists].
  - by apply same_except_insert.
Qed.

Lemma wp_set_prev X s0 s a v (Q : unit → list_heap → Prop) nx pv :
  writes X s0 s nx pv → is_Some (s0 !! a) → a ∈ X →
  (∀ s', writes X s0 s' nx (λ x, if decide (a = x) then v else pv x) → Q tt s') →
  wp (Some a ->> f_prev <<- v) s Q.
Proof.
  intros [Hn Hp Hd Hf] Ha HX HQ. destruct (s !! a) as [n|] eqn:E.
  2: { apply not_elem_of_dom in E. rewrite Hd in E. by apply elem_of_dom in Ha. }
  eapply wp_store; [done|]. apply HQ. split.
  - intros x. rewrite lnext_insert. destruct (decide (a = x)) as [->|]; [|done].
    rewrite <- Hn. unfold lnext. by rewrite E.
  - intros x. rewrite lprev_insert, Hp. done.
  - rewrite dom_insert_lookup_L; [done|by eexists].
  - by apply same_except_insert.
Qed.

Lemma writes_refl X s : writes X s s (lnext s) (lprev s).
Proof. done. Qed.

Lemma ring_alloc_round s h l i x : ring s h l → round h l !! i = Some x → x ∈ h :: l.
Proof.
  intros _ Hi%list_elem_of_lookup_2. unfold round in Hi.
  apply elem_of_cons in Hi as [->|[Hi|Hi%list_elem_of_singleton]%elem_of_app]; set_solver.
Qed.

(** * The operations *)

Lemma wp_list_empty s h l (Q : bool → list_heap → Prop) :
  ring s h l → Q (bool_decide (l = [])) s → wp (list_empty (Some h)) s Q.
Proof.
  intros [Hnd _ Hp] HQ. unfold list_empty. wp_step. destruct l as [|a l].
  - destruct (Hp 0%nat h h) as [Hn _]; [done|done|].
    eapply wp_get_next; [exact Hn|]. apply wp_ret. by rewrite !bool_decide_true in * by done.
  - destruct (Hp 0%nat h a) as [Hn _]; [done|done|].
    eapply wp_get_next; [exact Hn|]. apply wp_ret. rewrite bool_decide_false in HQ by done.
    rewrite bool_decide_false; [done|]. apply NoDup_cons in Hnd as [Hh _]. intros [= ->]. apply Hh. left.
Qed.

(** Where [a] stands on the way round. *)
Lemma round_delete h l1 a l2 :
  round h (l1 ++ l2) = delete (S (length l1)) (round h (l1 ++ a :: l2)).
Proof.
  unfold round. rewrite <- !app_assoc. simpl app.
  by rewrite <- (delete_middle l1 (l2 ++ [h]) a).
Qed.

Lemma round_middle h l1 a l2 : round h (l1 ++ a :: l2) !! S (length l1) = Some a.
Proof. unfold round. simpl. rewrite <- app_assoc. simpl. by rewrite list_lookup_middle. Qed.

(** Taking a node out of the way round and closing the gap. *)
Lemma ring_close s s' h l1 a l2 p n nx pv :
  ring s h (l1 ++ a :: l2) →
  round h (l1 ++ a :: l2) !! length l1 = Some p →
  round h (l1 ++ a :: l2) !! S (S (length l1)) = Some n →
  writes [p; a; n] s s' nx pv →
  (∀ x, x ≠ a → nx x = if decide (p = x) then Some n else lnext s x) →
  (∀ x, x ≠ a → pv x = if decide (n = x) then Some p else lprev s x) →
  ring s' h (l1 ++ l2).
Proof.
  intros [Hnd Hal Hpair] Hp Hn [Hnx Hpv Hdom _] Enx Epv.
  set (L := round h (l1 ++ a :: l2)) in *. pose proof (round_middle h l1 a l2) as Ha. fold L in Ha.
  assert (NoDup (h :: l1 ++ l2)) as Hnd'.
  { pose proof Hnd as Hnd'. rewrite app_comm_cons in Hnd'. by apply NoDup_middle in Hnd' as [_ ?]. }
  assert (HlenL : length L = S (S (S (length l1 + length l2)))).
  { unfold L. rewrite round_length, length_app. simpl. lia. }
  split; [done| |].
  { intros x Hx. apply elem_of_dom. rewrite Hdom. apply elem_of_dom, Hal. set_solver. }
  intros i x y Hx Hy. rewrite (round_delete h l1 a l2) in Hx, Hy. fold L in Hx, Hy.
  rewrite Hnx, Hpv. pose proof (lookup_lt_Some _ _ _ Hy) as Hyl. rewrite length_delete in Hyl by by rewrite Ha.
  set (j := length l1) in *.
  assert (Hleft : ∀ i k z, L !! i = Some z → L !! k = Some z → (S i < length L)%nat → (S k < length L)%nat → i = k).
  { intros i0 k0 z Hi0 Hk0 Hil Hkl. eapply (round_left h (l1 ++ a :: l2)); [done..| |];
      rewrite length_app; simpl; lia. }
  assert (Hright : ∀ i k z, L !! S i = Some z → L !! S k = Some z → i = k).
  { intros i0 k0 z Hi0 Hk0. by eapply (round_right h (l1 ++ a :: l2)). }
  (* a pair of neighbours other than those of [a] *)
  assert (Hold : ∀ k, L !! k = Some x → L !! S k = Some y → k ≠ j → k ≠ S j →
    nx x = Some y ∧ pv y = Some x).
  { intros k Hkx Hky Hkj Hkj'. pose proof (lookup_lt_Some _ _ _ Hky).
    assert (x ≠ p ∧ x ≠ a) as [Hxp Hxa].
    { split; intros ->; [apply Hkj; eapply (Hleft k j)|apply Hkj'; eapply (Hleft k (S j))]; done || lia. }
    assert (y ≠ n ∧ y ≠ a) as [Hyn Hya].
    { split; intros ->; [apply Hkj'; by eapply (Hright k (S j))|apply Hkj; by eapply (Hright k j)]. }
    rewrite Enx, Epv, !decide_False by done. by apply (Hpair k). }
  rewrite list_lookup_delete in Hx, Hy.
  destruct (Nat.lt_trichotomy i j) as [Hij|[->|Hij]].
  - rewrite decide_True in Hx by lia. rewrite decide_True in Hy by lia. by apply (Hold i); [..|lia|lia].
  - rewrite decide_True in Hx by lia. rewrite decide_False in Hy by lia.
    assert (x = p) as -> by congruence. assert (y = n) as -> by congruence.
    assert (p ≠ a) by (intros ->; pose proof (Hleft j (S j) a Hx Ha ltac:(lia) ltac:(lia)); lia).
    assert (n ≠ a) by (intros ->; pose proof (Hright (S j) j a Hy Ha); lia).
    by rewrite Enx, Epv, !decide_True by done.
  - rewrite decide_False in Hx by lia. rewrite decide_False in Hy by lia. by apply (Hold (S i)); [..|lia|lia].
Qed.

(** [detach] takes the node out of the list and leaves it a list of its own. *)
Lemma wp_list_detach s h l1 a l2 (Q : unit → list_heap → Prop) :
  ring s h (l1 ++ a :: l2) →
  (∀ s', ring s' h (l1 ++ l2) → s' !! a = Some (list_node_init a) → dom s' = dom s →
    same_except (h :: l1 ++ a :: l2) s s' → Q tt s') →
  wp (list_detach (Some a)) s Q.
Proof.
  intros Hr HQ. pose proof Hr as [Hnd Hal Hpair]. pose proof (round_middle h l1 a l2) as Ha.
  assert (Hlen : length (round h (l1 ++ a :: l2)) = S (S (S (length l1 + length l2)))).
  { rewrite round_length, length_app. simpl. lia. }
  destruct (lookup_lt_is_Some_2 (round h (l1 ++ a :: l2)) (length l1)) as [p Hp]; [lia|].
  destruct (lookup_lt_is_Some_2 (round h (l1 ++ a :: l2)) (S (S (length l1)))) as [n Hn]; [lia|].
  destruct (Hpair _ _ _ Hp Ha) as [_ Hpa]. destruct (Hpair _ _ _ Ha Hn) as [Hna _].
  pose proof (Hal _ (ring_alloc_round _ _ _ _ _ Hr Hp)) as Hap.
  pose proof (Hal _ (ring_alloc_round _ _ _ _ _ Hr Hn)) as Han.
  pose proof (Hal _ (ring_alloc_round _ _ _ _ _ Hr Ha)) as Haa.
  assert (a ≠ p) as Hpne.
  { intros <-. assert (length l1 = S (length l1)); [|lia].
    eapply (round_left h (l1 ++ a :: l2)); [done..| |]; rewrite length_app; simpl; lia. }
  assert (a ≠ n) as Hnne.
  { intros <-. assert (length l1 = S (length l1)); [|lia]. by eapply (round_right h (l1 ++ a :: l2)). }
  unfold list_detach. wp_step. eapply wp_get_prev; [exact Hpa|]. wp_step.
  eapply wp_get_next; [exact Hna|]. wp_step.
  eapply (wp_set_next [p; a; n]); [apply writes_refl|done|set_solver|]. intros s1 H1.
  wp_step. eapply wp_get_next; [rewrite (wr_next _ _ _ _ _ H1), decide_False; done|].
  wp_step. eapply wp_get_prev; [rewrite (wr_prev _ _ _ _ _ H1); done|].
  wp_step. eapply wp_set_prev; [exact H1|done|set_solver|]. intros s2 H2.
  wp_step. eapply wp_set_prev; [exact H2|done|set_solver|]. intros s3 H3.
  eapply wp_set_next; [exact H3|done|set_solver|]. intros s4 H4.
  apply HQ.
  - eapply ring_close; [exact Hr|exact Hp|exact Hn|exact H4| |]; intros x Hx; cbn beta.
    + by rewrite decide_False by congruence.
    + by rewrite decide_False by congruence.
  - pose proof (wr_next _ _ _ _ _ H4 a) as En. pose proof (wr_prev _ _ _ _ _ H4 a) as Ep.
    cbn beta in En, Ep. rewrite decide_True in En, Ep by done. unfold lnext, lprev in En, Ep.
    destruct (s4 !! a) as [[pp nn]|]; [|done]. simpl in *. by subst.
  - apply H4.
  - eapply same_except_mono; [|apply H4]. intros x Hx.
    rewrite !elem_of_cons, elem_of_nil in Hx.
    destruct Hx as [->|[->|[->|[]]]]; by eapply (ring_alloc_round s).
Qed.

Lemma round_snoc h l a i :
  round h (l ++ [a]) !! i =
    if decide (i ≤ length l)%nat then round h l !! i
    else if decide (i = S (length l)) then Some a
    else if decide (i = S (S (length l))) then Some h else None.
Proof.
  unfold round. rewrite !app_comm_cons, <- app_assoc. set (k := h :: l).
  assert (length k = S (length l)) as Hk by done. destruct (decide (i ≤ length l)%nat).
  - by rewrite !lookup_app_l by lia.
  - rewrite lookup_app_r by lia. rewrite Hk. destruct (decide (i = S (length l))) as [->|].
    + by rewrite Nat.sub_diag.
    + destruct (decide (i = S (S (length l)))) as [->|].
      * by replace (S (S (length l)) - S (length l))%nat with 1%nat by lia.
      * apply lookup_ge_None. simpl. lia.
Qed.

Lemma ring_snoc s s' h l a p nx pv :
  ring s h l → a ∉ h :: l → is_Some (s !! a) → round h l !! length l = Some p →
  writes (a :: h :: l) s s' nx pv →
  (∀ x, nx x = if decide (p = x) then Some a else if decide (a = x) then Some h else lnext s x) →
  (∀ x, pv x = if decide (h = x) then Some a else if decide (a = x) then Some p else lprev s x) →
  ring s' h (l ++ [a]).
Proof.
  intros Hr Ha Has Hp [Hnx Hpv Hdom _] Enx Epv. pose proof Hr as [Hnd Hal Hpair].
  assert (p ≠ a ∧ h ≠ a) as [Hpa Hha].
  { split; intros ->; apply Ha; [by eapply ring_alloc_round|left]. }
  split.
  - rewrite app_comm_cons, <- Permutation_cons_append. by apply NoDup_cons.
  - intros x Hx. apply elem_of_dom. rewrite Hdom. apply elem_of_dom.
    rewrite app_comm_cons, <- Permutation_cons_append in Hx.
    apply elem_of_cons in Hx as [->|Hx]; [done|by apply Hal].
  - intros i x y. rewrite !round_snoc, Hnx, Hpv, Enx, Epv. intros Hx Hy.
    destruct (decide (i ≤ length l)%nat) as [Hi|Hi].
    + destruct (decide (S i ≤ length l)%nat) as [Hi'|Hi'].
      * destruct (Hpair _ _ _ Hx Hy) as [Hn Hv].
        assert (x ∈ h :: l ∧ y ∈ h :: l) as [Hxl Hyl] by (split; by eapply (ring_alloc_round s h l)).
        assert (p ≠ x).
        { intros <-. assert (i = length l); [|lia]. eapply (round_left h l); done || lia. }
        assert (h ≠ y).
        { intros <-. assert (i = length l); [|lia]. eapply (round_right h l); [done|done|].
          unfold round. simpl. by rewrite list_lookup_middle. }
        rewrite !decide_False by congruence. done.
      * assert (i = length l) as -> by lia. rewrite decide_True in Hy by done. simplify_eq.
        by rewrite decide_True, decide_False, decide_True by done.
    + destruct (decide (i = S (length l))) as [->|]; [|by case_decide; simplify_eq; repeat case_decide; try lia].
      repeat case_decide; simplify_eq; try lia; done.
Qed.

(** [insert_back] puts a node that is not in the list at its end. *)
Lemma wp_list_insert_back s h l a (Q : unit → list_heap → Prop) :
  ring s h l → a ∉ h :: l → is_Some (s !! a) →
  (∀ s', ring s' h (l ++ [a]) → dom s' = dom s → same_except (a :: h :: l) s s' → Q tt s') →
  wp (list_insert_back (Some h) (Some a)) s Q.
Proof.
  intros Hr Ha Has HQ. pose proof Hr as [Hnd Hal Hpair].
  destruct (lookup_lt_is_Some_2 (round h l) (length l)) as [p Hp]; [rewrite round_length; lia|].
  assert (round h l !! S (length l) = Some h) as Hh.
  { unfold round. simpl. by rewrite list_lookup_middle. }
  destruct (Hpair _ _ _ Hp Hh) as [_ Hph].
  pose proof (ring_alloc_round _ _ _ _ _ Hr Hp) as Hpl.
  assert (p ≠ a ∧ h ≠ a) as [Hpa Hha] by (split; intros ->; apply Ha; [done|left]).
  unfold list_insert_back. wp_step. eapply wp_get_prev; [exact Hph|].
  wp_step. eapply (wp_set_prev (a :: h :: l)); [apply writes_refl|done|left|]. intros s1 H1.
  wp_step. eapply wp_set_next; [exact H1|done|left|]. intros s2 H2.
  wp_step. eapply wp_get_prev; [rewrite (wr_prev _ _ _ _ _ H2), decide_False; done|].
  wp_step. eapply wp_set_next; [exact H2|by apply Hal|by right|]. intros s3 H3.
  eapply wp_set_prev; [exact H3|apply Hal; left|right; left|]. intros s4 H4.
  apply HQ; [|apply H4..]. by eapply ring_snoc.
Qed.

(** A head that [ListNode]'s constructor has set up is an empty list. *)
Lemma ring_init s h : s !! h = Some (list_node_init h) → ring s h [].
Proof.
  intros Hh. split.
  - apply NoDup_singleton.
  - intros a ->%list_elem_of_singleton. by eexists.
  - intros [|[|i]] x y Hx Hy; simplify_eq/=.
    unfold lnext, lprev. by rewrite Hh.
Qed.
End ring.

(** * Properties *)

Section theorems.
Implicit Types (s : list_heap) (h a : positive) (l : list positive).

(** [detach] takes exactly the given node out of a list, wherever it stands, leaves
    the node linked to itself only, and changes no node outside of the list. *)
Theorem list_detach_correct s h l1 a l2 :
  ring s h (l1 ++ a :: l2) →
  ∃ s', list_detach (Some a) s = Some (tt, s') ∧ ring s' h (l1 ++ l2) ∧
    s' !! a = Some (list_node_init a) ∧ same_except (h :: l1 ++ a :: l2) s s'.
Proof.
  intros Hr. destruct (proj1 (wp_run (list_detach (Some a)) s (λ _ s', ring s' h (l1 ++ l2) ∧
    s' !! a = Some (list_node_init a) ∧ same_except (h :: l1 ++ a :: l2) s s')))
    as ([] & s' & ? & ? & ? & ?); [|by exists s'].
  eapply wp_list_detach; [exact Hr|]. done.
Qed.

(** Moving a node of the list to its end, as the event loop does with the idle
    timer of an active connection, keeps the other nodes in their order. *)
Theorem list_touch_correct s h l1 a l2 :
  ring s h (l1 ++ a :: l2) →
  ∃ s', (list_detach (Some a);; list_insert_back (Some h) (Some a)) s = Some (tt, s') ∧
    ring s' h (l1 ++ l2 ++ [a]) ∧ same_except (h :: l1 ++ a :: l2) s s'.
Proof.
  intros Hr. pose proof (rg_nodup _ _ _ Hr) as Hnd. rewrite app_comm_cons in Hnd.
  apply NoDup_middle in Hnd as [Ha _].
  destruct (proj1 (wp_run (list_detach (Some a);; list_insert_back (Some h) (Some a)) s (λ _ s',
    ring s' h (l1 ++ l2 ++ [a]) ∧ same_except (h :: l1 ++ a :: l2) s s')))
    as ([] & s' & ? & ? & ?); [|by exists s'].
  wp_step. eapply wp_list_detach; [exact Hr|]. intros s1 Hr1 Ha1 _ Hf1.
  eapply wp_list_insert_back; [exact Hr1|done|by eexists|]. intros s2 Hr2 _ Hf2.
  split; [by rewrite app_assoc|]. eapply same_except_trans; [exact Hf1|].
  eapply same_except_mono; [|exact Hf2]. clear. set_solver.
Qed.
End theorems.

Module DListWitness.
(** The head 1 and the nodes 2, 3, 4. *)
Definition ring3 : list_heap :=
  {[1%positive := mkListNode (Some 4%positive) (Some 2%positive);
    2%positive := mkListNode (Some 1%positive) (Some 3%positive);
    3%positive := mkListNode (Some 2%positive) (Some 4%positive);
    4%positive := mkListNode (Some 3%positive) (Some 1%positive)]}.

Lemma ring3_ok : ring ring3 1 [2; 3; 4]%positive.
Proof.
  split.
  - apply (bool_decide_unpack _). by vm_compute.
  - intros a. rewrite !elem_of_cons, elem_of_nil.
    intros [->|[->|[->|[->|[]]]]]; by eexists.
  - intros i x y Hx Hy. do 4 (destruct i as [|i]; [by simplify_eq/=|]).
    by destruct i as [|[|]].
Qed.
End DListWitness.
Import DListWitness.

Lemma list_detach_correct_witness :
  ∃ s', list_detach (Some 3%positive) ring3 = Some (tt, s') ∧ ring s' 1 [2; 4]%positive ∧
    s' !! 3%positive = Some (list_node_init 3).
Proof.
  destruct (list_detach_correct ring3 1 [2%positive] 3 [4%positive] ring3_ok) as (s' & ? & ? & ? & _).
  by exists s'.
Defined.

Lemma list_touch_correct_witness :
  ∃ s', (list_detach (Some 2%positive);; list_insert_back (Some 1%positive) (Some 2%positive)) ring3 =
      Some (tt, s') ∧ ring s' 1 [3; 4; 2]%positive.
Proof.
  destruct (list_touch_correct ring3 1 [] 2 [3; 4]%positive ring3_ok) as (s' & ? & ? & _).
  by exists s'.
Defined.
