(* ===== verification/Buffer.v ===== *)
(** The byte buffer of server/buffer.h, the serialisation of replies, and the message
    header of a response (server/main.cc).  A buffer is the list of its bytes; the
    writes append to it. *)
From S2P Require Import Prelude Common.

Abbreviation buffer := (list Byte.byte) (only parsing).

(** The tags of the serialised data. *)
Definition TAG_NIL : Z := 0.
Definition TAG_ERROR : Z := 1.
Definition TAG_STRING : Z := 2.
Definition TAG_INT64 : Z := 3.
Definition TAG_DOUBLE : Z := 4.
Definition TAG_ARRAY : Z := 5.

(** * The class [Buffer] *)

Definition buf_size (b : buffer) : Z := Z.of_nat (length b).

(** [resize]: truncates, or pads with zeros. *)
Definition buf_resize (b : buffer) (n : Z) : buffer :=
  take (Z.to_nat n) b ++ replicate (Z.to_nat n - length b) Byte.x00.

(** [consume]: erasing past the end is undefined. *)
Definition buf_consume (b : buffer) (n : Z) : option buffer :=
  if n <=? buf_size b then Some (drop (Z.to_nat n) b) else None.

Definition buf_write (b : buffer) (data : bytes) : buffer := b ++ data.
Definition buf_write_u8 (b : buffer) (v : Z) : buffer := b ++ [Zbyte v].
Definition buf_write_u32 (b : buffer) (v : Z) : buffer := buf_write b (le_bytes 4 (u32 v)).
Definition buf_write_i64 (b : buffer) (v : Z) : buffer := buf_write b (le_bytes 8 v).
Definition buf_write_dbl (b : buffer) (v : Z) : buffer := buf_write b (le_bytes 8 v).

(** The overloads of [write_frame]. *)
Definition write_frame_nil (b : buffer) : buffer := buf_write_u8 b TAG_NIL.

Definition write_frame_str (b : buffer) (s : bytes) : buffer :=
  let b := buf_write_u8 b TAG_STRING in
  let b := buf_write_u32 b (Z.of_nat (length s)) in
  buf_write b s.

Definition write_frame_int (b : buffer) (val : Z) : buffer :=
  let b := buf_write_u8 b TAG_INT64 in
  buf_write_i64 b val.

Definition write_frame_dbl (b : buffer) (val : Z) : buffer :=
  let b := buf_write_u8 b TAG_DOUBLE in
  buf_write_dbl b val.

Definition write_frame_array (b : buffer) (n : Z) : buffer :=
  let b := buf_write_u8 b TAG_ARRAY in
  buf_write_u32 b n.

Definition write_frame_err (b : buffer) (code : Z) (msg : bytes) : buffer :=
  let b := buf_write_u8 b TAG_ERROR in
  let b := buf_write_u32 b code in
  let b := buf_write_u32 b (Z.of_nat (length msg)) in
  buf_write b msg.

(** [memcpy] into the buffer at a position. *)
Definition buf_memcpy (b : buffer) (pos : Z) (data : bytes) : option buffer :=
  if (0 <=? pos) && (pos + Z.of_nat (length data) <=? buf_size b) then
    Some (take (Z.to_nat pos) b ++ data ++ drop (Z.to_nat pos + length data) b)
  else None.

Definition write_frame_array_begin (b : buffer) : Z * buffer :=
  let b := buf_write_u8 b TAG_ARRAY in
  let b := buf_write_u32 b 0 in
  (buf_size b - 4, b).

(** [None] is the failed [assert]. *)
Definition write_frame_array_end (b : buffer) (pos n : Z) : option buffer :=
  match lookupZ b (pos - 1) with
  | Some t => if byteZ t =? TAG_ARRAY then buf_memcpy b pos (le_bytes 4 (u32 n)) else None
  | None => None
  end.

(** * The header of a response *)

Definition k_max_msg : Z := Z.shiftl 32 20.

Definition ERR_UNKNOWN : Z := 1.
Definition ERR_TOO_BIG : Z := 2.
Definition ERR_BAD_TYP : Z := 3.
Definition ERR_BAD_ARG : Z := 4.

Definition msg_too_big : bytes := str "response is too big.".

Definition response_begin (out : buffer) : Z * buffer :=
  (buf_size out, buf_write_u32 out 0).

Definition response_size (out : buffer) (header : Z) : Z :=
  u64 (u64 (buf_size out - header) - 4).

Definition response_end (out : buffer) (header : Z) : option buffer :=
  let msg_size := response_size out header in
  let '(out, msg_size) :=
    if k_max_msg <? msg_size then
      let out := buf_resize out (header + 4) in
      let out := write_frame_err out ERR_TOO_BIG msg_too_big in
      (out, response_size out header)
    else (out, msg_size) in
  buf_memcpy out header (le_bytes 4 (u32 msg_size)).

(** * The bytes of the frames *)

(** The replies of the server, as values. *)
Inductive value : Type :=
| VNil
| VErr (code : Z) (msg : bytes)
| VStr (s : bytes)
| VInt (z : Z)
| VDbl (d : Z)
| VArr (l : list value).

Fixpoint encode (v : value) : bytes :=
  match v with
  | VNil => [Zbyte TAG_NIL]
  | VErr c m => Zbyte TAG_ERROR :: le_bytes 4 c ++ le_bytes 4 (Z.of_nat (length m)) ++ m
  | VStr s => Zbyte TAG_STRING :: le_bytes 4 (Z.of_nat (length s)) ++ s
  | VInt z => Zbyte TAG_INT64 :: le_bytes 8 z
  | VDbl d => Zbyte TAG_DOUBLE :: le_bytes 8 d
  | VArr l => Zbyte TAG_ARRAY :: le_bytes 4 (Z.of_nat (length l)) ++ concat (encode <$> l)
  end.

Section frames.
Implicit Types (b : buffer) (s : bytes).

Lemma write_frame_nil_encode b : write_frame_nil b = b ++ encode VNil.
Proof. done. Qed.

Lemma write_frame_str_encode b s : write_frame_str b s = b ++ encode (VStr s).
Proof.
  unfold write_frame_str, buf_write_u8, buf_write_u32, buf_write. rewrite le_bytes_u32.
  by rewrite <- !app_assoc.
Qed.

Lemma write_frame_int_encode b z : write_frame_int b z = b ++ encode (VInt z).
Proof. unfold write_frame_int, buf_write_u8, buf_write_i64, buf_write. by rewrite <- !app_assoc. Qed.

Lemma write_frame_dbl_encode b z : write_frame_dbl b z = b ++ encode (VDbl z).
Proof. unfold write_frame_dbl, buf_write_u8, buf_write_dbl, buf_write. by rewrite <- !app_assoc. Qed.

Lemma write_frame_err_encode b c m : write_frame_err b c m = b ++ encode (VErr c m).
Proof.
  unfold write_frame_err, buf_write_u8, buf_write_u32, buf_write. rewrite !le_bytes_u32.
  by rewrite <- !app_assoc.
Qed.

Lemma buf_memcpy_middle (a x c y : buffer) :
  length x = length y → buf_memcpy (a ++ x ++ c) (buf_size a) y = Some (a ++ y ++ c).
Proof.
  intros Hl. unfold buf_memcpy, buf_size. rewrite !length_app.
  destruct (_ && _) eqn:E; [|apply andb_false_iff in E; rewrite !Z.leb_gt in E; lia].
  rewrite Nat2Z.id, <- drop_drop, take_app_length, drop_app_length, <- Hl.
  by rewrite drop_app_length.
Qed.

(** An array whose length is filled in at the end. *)
Lemma write_frame_array_encode b l :
  write_frame_array_end ((write_frame_array_begin b).2 ++ concat (encode <$> l))
    (write_frame_array_begin b).1 (Z.of_nat (length l)) = Some (b ++ encode (VArr l)).
Proof.
  unfold write_frame_array_begin, buf_write_u8, buf_write_u32, buf_write. cbn [fst snd].
  set (body := concat (encode <$> l)). rewrite le_bytes_u32.
  assert (buf_size ((b ++ [Zbyte TAG_ARRAY]) ++ le_bytes 4 0) - 4 = buf_size (b ++ [Zbyte TAG_ARRAY])) as ->.
  { unfold buf_size. rewrite !length_app, le_bytes_length. lia. }
  unfold write_frame_array_end. rewrite <- (app_assoc (b ++ _)).
  assert (buf_size (b ++ [Zbyte TAG_ARRAY]) - 1 = Z.of_nat (length b)) as ->.
  { unfold buf_size. rewrite !length_app. change (length [Zbyte TAG_ARRAY]) with 1%nat. lia. }
  rewrite lookupZ_nat, <- app_assoc, lookup_app_r, Nat.sub_diag by done. cbn [app lookup list_lookup].
  change (byteZ (Zbyte TAG_ARRAY) =? TAG_ARRAY) with true. cbv iota.
  change (Zbyte TAG_ARRAY :: ?x) with ([Zbyte TAG_ARRAY] ++ x).
  rewrite (app_assoc b), buf_memcpy_middle, le_bytes_u32 by done. by rewrite <- app_assoc.
Qed.

(** The reply in the buffer after the header, or the error in its place. *)
Definition capped (body : bytes) : bytes :=
  if k_max_msg <? u64 (buf_size body) then encode (VErr ERR_TOO_BIG msg_too_big) else body.

(** The bytes of a whole response. *)
Definition response (body : bytes) : bytes := le_bytes 4 (u64 (buf_size (capped body))) ++ capped body.

Lemma response_size_eq out body :
  response_size ((out ++ le_bytes 4 0) ++ body) (buf_size out) = u64 (buf_size body).
Proof.
  unfold response_size, u64, buf_size. rewrite !length_app, le_bytes_length, Zminus_mod_idemp_l.
  f_equal. lia.
Qed.

Lemma response_end_any out body :
  response_end ((out ++ le_bytes 4 0) ++ body) (buf_size out) = Some (out ++ response body).
Proof.
  assert (Hmem : ∀ x n, buf_memcpy ((out ++ le_bytes 4 0) ++ x) (buf_size out) (le_bytes 4 n) =
    Some (out ++ le_bytes 4 n ++ x)).
  { intros x n. rewrite <- app_assoc. by apply buf_memcpy_middle. }
  unfold response_end, response, capped. rewrite response_size_eq.
  destruct (Z.ltb_spec k_max_msg (u64 (buf_size body))) as [Hbig|Hok].
  - assert (buf_resize ((out ++ le_bytes 4 0) ++ body) (buf_size out + 4) = out ++ le_bytes 4 0) as ->.
    { unfold buf_resize, buf_size. replace (Z.to_nat _) with (length (out ++ le_bytes 4 0))
        by (rewrite length_app, le_bytes_length; lia).
      rewrite take_app_length, !length_app.
      replace (_ - _)%nat with 0%nat by lia. by rewrite app_nil_r. }
    by rewrite write_frame_err_encode, response_size_eq, Hmem, le_bytes_u32.
  - by rewrite Hmem, le_bytes_u32.
Qed.

Lemma capped_small body :
  buf_size body < 2 ^ 64 →
  capped body = (if k_max_msg <? buf_size body then encode (VErr ERR_TOO_BIG msg_too_big) else body) ∧
  u64 (buf_size (capped body)) = buf_size (capped body) ∧ buf_size (capped body) ≤ k_max_msg.
Proof.
  intros Hb. assert (0 ≤ buf_size body) by (unfold buf_size; lia).
  unfold capped. rewrite (u64_small (buf_size body)) by lia. split; [done|].
  destruct (Z.ltb_spec k_max_msg (buf_size body)); [by split; vm_compute|].
  split; [apply u64_small; lia|done].
Qed.

Lemma response_begin_eq out : response_begin out = (buf_size out, out ++ le_bytes 4 0).
Proof. unfold response_begin, buf_write_u32, buf_write. by rewrite le_bytes_u32. Qed.

(** C38. A response is its length in 4 bytes and its body; a body beyond the limit of
    32 MiB is replaced by an error, so that the client never sees a message above the
    limit; what the buffer held before is kept. *)
Theorem response_end_correct out body :
  buf_size (out ++ le_bytes 4 0 ++ body) < 2 ^ 64 →
  let body' := if k_max_msg <? buf_size body then encode (VErr ERR_TOO_BIG msg_too_big) else body in
  response_begin out = (buf_size out, out ++ le_bytes 4 0) ∧
  response_end ((out ++ le_bytes 4 0) ++ body) (buf_size out) =
    Some (out ++ le_bytes 4 (buf_size body') ++ body') ∧ buf_size body' ≤ k_max_msg.
Proof.
  intros Hsz body'. assert (buf_size body < 2 ^ 64) as Hb.
  { unfold buf_size in *. rewrite !length_app in Hsz. lia. }
  destruct (capped_small body Hb) as (Hc & Hu & Hle). fold body' in Hc. rewrite Hc in Hu, Hle.
  split_and!; [apply response_begin_eq| |done]. rewrite response_end_any. unfold response.
  by rewrite Hc, Hu.
Qed.
End frames.

Lemma response_end_correct_witness :
  response_end (([Byte.x61] ++ le_bytes 4 0) ++ encode (VInt 5)) 1 =
    Some ([Byte.x61] ++ le_bytes 4 9 ++ encode (VInt 5)).
Proof.
  assert (buf_size ([Byte.x61] ++ le_bytes 4 0 ++ encode (VInt 5)) < 2 ^ 64) as H by by vm_compute.
  destruct (response_end_correct [Byte.x61] (encode (VInt 5)) H) as (_ & E & _). exact E.
Defined.
