(* ===== verification/Request.v ===== *)
(** The requests: the parser of the server ([parse_req] in server/main.cc) and the
    writer of the client ([send_req] in client/main.cc). *)
From S2P Require Import Prelude Common.

(** * The parser

    The cursor and the end of the input are the list of the bytes left; [None] is
    the result [false]. *)
Definition k_max_args : Z := 200 * 1000.

Definition read_u32 (cur : bytes) : option (Z * bytes) :=
  if Z.of_nat (length cur) <? 4 then None
  else Some (le_num (take 4 cur), drop 4 cur).

Definition read_str (cur : bytes) (n : Z) : option (bytes * bytes) :=
  if Z.of_nat (length cur) <? n then None
  else Some (take (Z.to_nat n) cur, drop (Z.to_nat n) cur).

(** [while (out.size() < nstr)]: the fuel is [nstr - out.size()]. *)
Fixpoint parse_strs (fuel : nat) (cur : bytes) (out : list bytes) : option (list bytes * bytes) :=
  match fuel with
  | O => Some (out, cur)
  | S fuel =>
      match read_u32 cur with
      | Some (len, cur) =>
          match read_str cur len with
          | Some (s, cur) => parse_strs fuel cur (out ++ [s])
          | None => None
          end
      | None => None
      end
  end.

(** [None] is the result -1. *)
Definition parse_req (data : bytes) : option (list bytes) :=
  match read_u32 data with
  | None => None
  | Some (nstr, cur) =>
      if k_max_args <? nstr then None
      else
        match parse_strs (Z.to_nat nstr) cur [] with
        | Some (out, []) => Some out
        | _ => None
        end
  end.

(** * The writer of the client *)
Module Client.
Definition k_max_msg : Z := 4096.

(** [memcpy(&wbuf[pos], ..)]; [None] past the end of the array. *)
Definition wbuf_set (wbuf : bytes) (pos : Z) (data : bytes) : option bytes :=
  if (0 <=? pos) && (pos + Z.of_nat (length data) <=? Z.of_nat (length wbuf)) then
    Some (take (Z.to_nat pos) wbuf ++ data ++ drop (Z.to_nat pos + length data) wbuf)
  else None.

Definition req_len (cmd : list bytes) : Z :=
  foldl (λ len s, u32 (len + (4 + Z.of_nat (length s)))) 4 cmd.

Fixpoint put_strs (cmd : list bytes) (wbuf : bytes) (cur : Z) : option bytes :=
  match cmd with
  | [] => Some wbuf
  | s :: cmd =>
      wbuf ← wbuf_set wbuf cur (le_bytes 4 (u32 (Z.of_nat (length s))));
      wbuf ← wbuf_set wbuf (cur + 4) s;
      put_strs cmd wbuf (cur + (4 + Z.of_nat (length s)))
  end.

(** What [send_req] hands to [write_all]: [None] is an access out of bounds,
    [Some None] the result -1.  [wbuf0] is what the array holds at first. *)
Definition send_req (wbuf0 : bytes) (cmd : list bytes) : option (option bytes) :=
  let len := req_len cmd in
  if k_max_msg <? len then Some None
  else
    wbuf ← wbuf_set wbuf0 0 (le_bytes 4 len);
    wbuf ← wbuf_set wbuf 4 (le_bytes 4 (u32 (Z.of_nat (length cmd))));
    wbuf ← put_strs cmd wbuf 8;
    Some (Some (take (Z.to_nat (4 + len)) wbuf)).
End Client.

(** * The format *)

Definition encode_str (s : bytes) : bytes := le_bytes 4 (Z.of_nat (length s)) ++ s.

Definition encode_req (cmd : list bytes) : bytes :=
  le_bytes 4 (Z.of_nat (length cmd)) ++ concat (encode_str <$> cmd).

(** What fits the 32-bit lengths and the limit on the number of strings. *)
Definition req_ok (cmd : list bytes) : Prop :=
  Z.of_nat (length cmd) ≤ k_max_args ∧ Forall (λ s, Z.of_nat (length s) < 2 ^ 32) cmd.

Section parser.
Implicit Types (cur s data : bytes) (cmd out : list bytes).

Lemma read_u32_spec cur n rest :
  read_u32 cur = Some (n, rest) ↔ cur = le_bytes 4 n ++ rest ∧ 0 ≤ n < 2 ^ 32.
Proof.
  unfold read_u32. split.
  - destruct (Z.ltb_spec (Z.of_nat (length cur)) 4); [done|]. intros [= <- <-].
    assert (length (take 4 cur) = 4%nat) as Hl by (rewrite length_take; lia).
    split; [|pose proof (le_num_bounds (take 4 cur)); rewrite Hl in *; lia].
    rewrite <- Hl at 1. by rewrite le_bytes_num, take_drop.
  - intros [-> Hn]. rewrite length_app, le_bytes_length.
    destruct (Z.ltb_spec (Z.of_nat (4 + length rest)) 4); [lia|].
    rewrite <- (le_bytes_length 4 n) at 1 3. rewrite take_app_length, drop_app_length.
    rewrite le_num_bytes. repeat f_equal. apply Z.mod_small. exact Hn.
Qed.

Lemma read_str_spec cur n s rest :
  0 ≤ n → read_str cur n = Some (s, rest) ↔ cur = s ++ rest ∧ Z.of_nat (length s) = n.
Proof.
  intros Hn. unfold read_str. split.
  - destruct (Z.ltb_spec (Z.of_nat (length cur)) n); [done|]. intros [= <- <-].
    rewrite take_drop, length_take. split; [done|lia].
  - intros [-> <-]. rewrite length_app. destruct (Z.ltb_spec (Z.of_nat (length s + length rest)) (Z.of_nat (length s))); [lia|].
    by rewrite Nat2Z.id, take_app_length, drop_app_length.
Qed.

Lemma parse_strs_spec fuel cur out cmd rest :
  parse_strs fuel cur out = Some (cmd, rest) ↔
  ∃ ss, cmd = out ++ ss ∧ length ss = fuel ∧ cur = concat (encode_str <$> ss) ++ rest ∧
    Forall (λ s, Z.of_nat (length s) < 2 ^ 32) ss.
Proof.
  revert cur out. induction fuel as [|fuel IH]; intros cur out; cbn [parse_strs].
  - split; [intros [= <- <-]; exists []; by rewrite app_nil_r|].
    intros ([|] & -> & ? & -> & _); [|done]. by rewrite app_nil_r.
  - split.
    + destruct (read_u32 cur) as [[n cur1]|] eqn:E1; [|done]. apply read_u32_spec in E1 as [-> Hn].
      destruct (read_str cur1 n) as [[s cur2]|] eqn:E2; [|done].
      apply (read_str_spec _ _ _ _ (proj1 Hn)) in E2 as [-> <-].
      intros (ss & -> & <- & -> & Hss)%IH. exists (s :: ss). rewrite <- app_assoc.
      split_and!; [done|done| |by constructor; [lia|]]. simpl. unfold encode_str. by rewrite <- !app_assoc.
    + intros ([|s ss] & -> & [= <-] & -> & [Hs Hss]%Forall_cons); simpl.
      unfold encode_str at 1. rewrite <- !app_assoc.
      rewrite (proj2 (read_u32_spec _ _ _)) by (split; [done|lia]).
      rewrite (proj2 (read_str_spec _ _ _ _ (Nat2Z.is_nonneg _))) by done.
      apply IH. exists ss. split_and!; [by rewrite <- app_assoc|done..].
Qed.

(** The encoding of a command is parsed into the command. *)
Lemma parse_req_encode cmd : req_ok cmd → parse_req (encode_req cmd) = Some cmd.
Proof.
  intros [Hmax Hss]. unfold parse_req, encode_req, k_max_args in *.
  rewrite (proj2 (read_u32_spec _ _ _)) by (split; [done|lia]).
  destruct (Z.ltb_spec (200 * 1000) (Z.of_nat (length cmd))); [lia|].
  rewrite Nat2Z.id, (proj2 (parse_strs_spec _ _ _ cmd [])); [done|].
  exists cmd. by rewrite app_nil_r.
Qed.

(** C28. The parser accepts exactly the encodings of a list of strings, within the limit
    on their number: no other input (a short one, a length past the end, bytes
    after the last string) gives a command, and every command has one encoding. *)
Theorem parse_req_iff data cmd :
  parse_req data = Some cmd ↔ data = encode_req cmd ∧ req_ok cmd.
Proof.
  split.
  - unfold parse_req, encode_req, req_ok. destruct (read_u32 data) as [[n cur]|] eqn:E; [|done]. apply read_u32_spec in E as [-> Hn].
    destruct (Z.ltb_spec k_max_args n) as [|Hmax]; [done|].
    destruct (parse_strs (Z.to_nat n) cur []) as [[out [|]]|] eqn:E; [|done..].
    intros [= <-]. apply parse_strs_spec in E as (ss & -> & Hl & -> & Hss).
    simpl. rewrite app_nil_r, Hl, Z2Nat.id by lia. done.
  - intros [-> Hok]. by apply parse_req_encode.
Qed.
End parser.

(** * The client writes what the server reads *)
Section client.
Implicit Types (wbuf s : bytes) (cmd : list bytes).

Lemma length_encode_str s : length (encode_str s) = (4 + length s)%nat.
Proof. unfold encode_str. by rewrite length_app, le_bytes_length. Qed.

Lemma length_encode_req cmd : length (encode_req cmd) = (4 + length (concat (encode_str <$> cmd)))%nat.
Proof. unfold encode_req. by rewrite length_app, le_bytes_length. Qed.

(** The length is computed modulo 2^32. *)
Lemma req_len_spec cmd :
  Z.of_nat (length (encode_req cmd)) < 2 ^ 32 → Client.req_len cmd = Z.of_nat (length (encode_req cmd)).
Proof.
  rewrite length_encode_req. unfold Client.req_len.
  enough (∀ n, 0 ≤ n → n + Z.of_nat (length (concat (encode_str <$> cmd))) < 2 ^ 32 →
    foldl (λ len s, u32 (len + (4 + Z.of_nat (length s)))) n cmd =
      n + Z.of_nat (length (concat (encode_str <$> cmd)))) as H.
  { intros ?. rewrite H; lia. }
  induction cmd as [|s cmd IH]; intros n Hn Hlt; cbn [fmap list_fmap concat foldl] in *; [simpl; lia|].
  rewrite length_app, length_encode_str in Hlt |- *. rewrite u32_small by lia. rewrite IH; lia.
Qed.

Lemma wbuf_set_spec (a z x : bytes) pos :
  pos = Z.of_nat (length a) → (length x ≤ length z)%nat →
  Client.wbuf_set (a ++ z) pos x = Some ((a ++ x) ++ drop (length x) z).
Proof.
  intros -> Hl. unfold Client.wbuf_set. rewrite length_app.
  destruct (_ && _) eqn:E; [|apply andb_false_iff in E; rewrite !Z.leb_gt in E; lia].
  by rewrite Nat2Z.id, <- drop_drop, take_app_length, drop_app_length, <- app_assoc.
Qed.

Lemma put_strs_spec cmd (a z : bytes) pos :
  pos = Z.of_nat (length a) → (length (concat (encode_str <$> cmd)) ≤ length z)%nat →
  Client.put_strs cmd (a ++ z) pos =
    Some (a ++ concat (encode_str <$> cmd) ++ drop (length (concat (encode_str <$> cmd))) z).
Proof.
  revert a z pos. induction cmd as [|s cmd IH]; intros a z pos -> Hl; [done|].
  cbn [Client.put_strs fmap list_fmap concat] in *. rewrite length_app, length_encode_str in Hl.
  rewrite le_bytes_u32.
  rewrite wbuf_set_spec by (rewrite ?le_bytes_length; lia). cbn [mbind option_bind].
  rewrite wbuf_set_spec; [|rewrite length_app, le_bytes_length; lia|rewrite length_drop, le_bytes_length; lia].
  cbn [mbind option_bind]. rewrite IH.
  - unfold encode_str at 2 3. rewrite !drop_drop, !length_app, !le_bytes_length.
    rewrite <- !app_assoc. done.
  - rewrite !length_app, le_bytes_length. lia.
  - rewrite !length_drop, le_bytes_length. lia.
Qed.

(** A command whose request fits the client is within the limits of the format. *)
Lemma req_ok_small cmd : Z.of_nat (length (encode_req cmd)) ≤ Client.k_max_msg → req_ok cmd.
Proof.
  unfold Client.k_max_msg. rewrite length_encode_req. intros Hmax.
  assert (Hcnt : (length cmd ≤ length (concat (encode_str <$> cmd)))%nat).
  { clear. induction cmd as [|s cmd IH]; [simpl; lia|].
    cbn [fmap list_fmap concat length]. rewrite length_app, length_encode_str. lia. }
  split; [unfold k_max_args; lia|]. clear Hcnt. induction cmd as [|s cmd IH]; [constructor|].
  cbn [fmap list_fmap concat] in Hmax. rewrite length_app, length_encode_str in Hmax.
  constructor; [lia|apply IH; lia].
Qed.

(** The message of a command: the header and the encoding. *)
Definition request_frame cmd : bytes :=
  le_bytes 4 (Z.of_nat (length (encode_req cmd))) ++ encode_req cmd.

(** [send_req] stays within its array and sends the message of the command. *)
Lemma send_req_frame wbuf0 cmd :
  length wbuf0 = 4100%nat → Z.of_nat (length (encode_req cmd)) ≤ Client.k_max_msg →
  Client.send_req wbuf0 cmd = Some (Some (request_frame cmd)).
Proof.
  intros Hw Hmax. pose proof (req_ok_small cmd Hmax) as [Hcnt Hss]. unfold k_max_args, Client.k_max_msg in *.
  unfold Client.send_req. rewrite req_len_spec by lia. unfold Client.k_max_msg.
  destruct (Z.ltb_spec 4096 (Z.of_nat (length (encode_req cmd)))) as [|_]; [lia|].
  pose proof (length_encode_req cmd) as Hlen.
  change wbuf0 with ([] ++ wbuf0).
  rewrite wbuf_set_spec by (rewrite ?le_bytes_length; simpl; lia). cbn [mbind option_bind].
  rewrite wbuf_set_spec by (rewrite ?length_app, ?length_drop, ?le_bytes_length; simpl; lia).
  cbn [mbind option_bind]. rewrite (u32_small (Z.of_nat (length cmd))) by lia.
  rewrite put_strs_spec; [|by rewrite !length_app, !le_bytes_length|rewrite !length_drop, !le_bytes_length; lia].
  cbn [mbind option_bind]. do 2 f_equal.
  rewrite app_nil_l. generalize (drop (length (concat (encode_str <$> cmd)))
    (drop (length (le_bytes 4 (Z.of_nat (length cmd))))
      (drop (length (le_bytes 4 (Z.of_nat (length (encode_req cmd))))) wbuf0))) as z. intros z.
  assert (E : ∀ h : bytes, ((h ++ le_bytes 4 (Z.of_nat (length cmd))) ++ concat (encode_str <$> cmd) ++ z)
    = (h ++ encode_req cmd) ++ z) by (intros h; unfold encode_req; by rewrite <- !app_assoc).
  rewrite E, take_app_length'; [done|].
  rewrite length_app, le_bytes_length. lia.
Qed.

(** For every command whose request is shorter than 4 GiB, the client refuses the
    command (its limit is 4096 bytes) or, staying within its array, sends a header with
    the length of the body and a body that the server accepts and parses back into the
    same command. *)
Theorem send_parse_roundtrip wbuf0 cmd :
  length wbuf0 = 4100%nat → Z.of_nat (length (encode_req cmd)) < 2 ^ 32 →
  if Client.k_max_msg <? Z.of_nat (length (encode_req cmd)) then
    Client.send_req wbuf0 cmd = Some None
  else ∃ len body, Client.send_req wbuf0 cmd = Some (Some (le_bytes 4 len ++ body)) ∧
    len = Z.of_nat (length body) ∧ parse_req body = Some cmd.
Proof.
  intros Hw Hlt. destruct (Z.ltb_spec Client.k_max_msg (Z.of_nat (length (encode_req cmd)))) as [Hbig|Hmax].
  - unfold Client.send_req. rewrite req_len_spec by done.
    by destruct (Z.ltb_spec Client.k_max_msg (Z.of_nat (length (encode_req cmd)))); [|lia].
  - exists (Z.of_nat (length (encode_req cmd))), (encode_req cmd).
    split_and!; [by apply send_req_frame|done|]. by apply parse_req_encode, req_ok_small.
Qed.
End client.

Lemma send_parse_roundtrip_witness :
  ∃ len body, Client.send_req (replicate 4100 Byte.x00) [str "get"; str "k"] =
      Some (Some (le_bytes 4 len ++ body)) ∧
    len = Z.of_nat (length body) ∧ parse_req body = Some [str "get"; str "k"].
Proof.
  assert (H1 : length (replicate 4100 Byte.x00) = 4100%nat) by apply length_replicate.
  assert (H2 : Z.of_nat (length (encode_req [str "get"; str "k"])) < 2 ^ 32) by (by vm_compute).
  exact (send_parse_roundtrip (replicate 4100 Byte.x00) [str "get"; str "k"] H1 H2).
Defined.
