(* ===== verification/Reply.v ===== *)
(** The reading of replies by the client (client/main.cc): [print_response] on the
    frames that server/buffer.h writes. *)
From S2P Require Import Prelude Common Buffer.

(** One line of output. *)
Inductive print : Type :=
| PNil
| PErr (code : Z) (s : bytes)
| PStr (s : bytes)
| PInt (z : Z)
| PDbl (d : Z)
| PArr (len : Z)
| PEnd
| PBad.

(** * The code *)

(** [memcpy] of [n] bytes from position [pos]; [None] past the end. *)
Definition get_num (data : bytes) (pos n : nat) : option Z :=
  if (pos + n <=? length data)%nat then Some (le_num (take n (drop pos data))) else None.

(** What [printf("%.*s", prec, s)] prints: up to [prec] bytes, to the first NUL; with a
    negative precision to the first NUL.  [None] when it reads past the end. *)
Fixpoint print_bytes (prec : Z) (s : bytes) : option bytes :=
  if prec =? 0 then Some []
  else
    match s with
    | [] => None
    | c :: s => if byteZ c =? 0 then Some [] else l ← print_bytes (prec - 1) s; Some (c :: l)
    end.

(** The result of the C++ function and its output. *)
Definition reply : Type := Z * list print.

(** The loop over the elements of an array. *)
Fixpoint print_elems (pr : bytes → option reply) (n : nat) (data : bytes) (arr_bytes : Z)
    : option (bool * reply) :=
  match n with
  | O => Some (true, (arr_bytes, []))
  | S n =>
      '(rv, o) ← pr (drop (Z.to_nat arr_bytes) data);
      if rv <? 0 then Some (false, (rv, o))
      else
        '(ok, (rv, o')) ← print_elems pr n data (u64 (arr_bytes + rv));
        Some (ok, (rv, o ++ o'))
  end.

Definition bad_response : option reply := Some (-1, [PBad]).

(** [size] is the length of [data]. *)
Fixpoint print_response (fuel : nat) (data : bytes) : option reply :=
  match fuel with
  | O => None
  | S fuel =>
      let size := Z.of_nat (length data) in
      if size <? 1 then bad_response
      else
        tag ← get_num data 0 1;
        if tag =? TAG_NIL then Some (1, [PNil])
        else if tag =? TAG_ERROR then
          if size <? 1 + 8 then bad_response
          else
            code ← get_num data 1 4;
            len ← get_num data 5 4;
            if size <? u32 (1 + 8 + len) then bad_response
            else
              s ← print_bytes (i32 len) (drop 9 data);
              Some (i32 (u32 (1 + 8 + len)), [PErr (i32 code) s])
        else if tag =? TAG_STRING then
          if size <? 1 + 4 then bad_response
          else
            len ← get_num data 1 4;
            if size <? u32 (1 + 4 + len) then bad_response
            else
              s ← print_bytes (i32 len) (drop 5 data);
              Some (i32 (u32 (1 + 4 + len)), [PStr s])
        else if tag =? TAG_INT64 then
          if size <? 1 + 8 then bad_response
          else val ← get_num data 1 8; Some (1 + 8, [PInt (i64 val)])
        else if tag =? TAG_DOUBLE then
          if size <? 1 + 8 then bad_response
          else val ← get_num data 1 8; Some (1 + 8, [PDbl val])
        else if tag =? TAG_ARRAY then
          if size <? 1 + 4 then bad_response
          else
            len ← get_num data 1 4;
            '(ok, (rv, o)) ← print_elems (print_response fuel) (Z.to_nat len) data (1 + 4);
            if ok : bool then Some (i32 rv, PArr len :: o ++ [PEnd])
            else Some (rv, PArr len :: o)
        else bad_response
  end.

(** * What is printed for a value *)

Fixpoint until_nul (s : bytes) : bytes :=
  match s with
  | [] => []
  | c :: s => if byteZ c =? 0 then [] else c :: until_nul s
  end.

Fixpoint prints (v : value) : list print :=
  match v with
  | VNil => [PNil]
  | VErr c m => [PErr c (until_nul m)]
  | VStr s => [PStr (until_nul s)]
  | VInt z => [PInt z]
  | VDbl d => [PDbl d]
  | VArr l => PArr (Z.of_nat (length l)) :: concat (prints <$> l) ++ [PEnd]
  end.

(** Values in the ranges of their C++ types. *)
Fixpoint value_ok (v : value) : Prop :=
  match v with
  | VErr c _ => - 2 ^ 31 ≤ c < 2 ^ 31
  | VInt z => - 2 ^ 63 ≤ z < 2 ^ 63
  | VDbl d => 0 ≤ d < 2 ^ 64
  | VArr l => foldr (λ v P, value_ok v ∧ P) True l
  | _ => True
  end.

Fixpoint depth (v : value) : nat :=
  match v with
  | VArr l => S (foldr (λ v n, Nat.max (depth v) n) 0%nat l)
  | _ => 1
  end.

Section value_ind.
Context (P : value → Prop).
Hypothesis (Hnil : P VNil) (Herr : ∀ c m, P (VErr c m)) (Hstr : ∀ s, P (VStr s)).
Hypothesis (Hint : ∀ z, P (VInt z)) (Hdbl : ∀ d, P (VDbl d)).
Hypothesis (Harr : ∀ l, Forall P l → P (VArr l)).

Fixpoint value_ind' (v : value) : P v :=
  match v with
  | VNil => Hnil
  | VErr c m => Herr c m
  | VStr s => Hstr s
  | VInt z => Hint z
  | VDbl d => Hdbl d
  | VArr l => Harr l ((fix go l : Forall P l :=
      match l with
      | [] => Forall_nil_2 P
      | v :: l => Forall_cons_2 P v l (value_ind' v) (go l)
      end) l)
  end.
End value_ind.

Section reply.
Implicit Types (s data rest : bytes) (v : value).

Lemma get_num_skip (a x rest : bytes) n :
  length x = n → get_num (a ++ x ++ rest) (length a) n = Some (le_num x).
Proof.
  intros <-. unfold get_num. rewrite !length_app.
  destruct (Nat.leb_spec (length a + length x) (length a + (length x + length rest))); [|lia].
  by rewrite drop_app_length, take_app_length.
Qed.

Lemma get_tag t rest : get_num (Zbyte t :: rest) 0 1 = Some (u8 t).
Proof. unfold get_num. simpl. by rewrite byteZ_Zbyte, Z.add_0_r. Qed.

Lemma get_u32_at a z rest :
  get_num (a ++ le_bytes 4 z ++ rest) (length a) 4 = Some (u32 z).
Proof. rewrite get_num_skip by apply le_bytes_length. f_equal. apply (le_num_bytes 4). Qed.

Lemma get_u64_at a z rest :
  get_num (a ++ le_bytes 8 z ++ rest) (length a) 8 = Some (u64 z).
Proof. rewrite get_num_skip by apply le_bytes_length. f_equal. apply (le_num_bytes 8). Qed.

Lemma print_bytes_spec s rest : print_bytes (Z.of_nat (length s)) (s ++ rest) = Some (until_nul s).
Proof.
  induction s as [|c s IH]; [by destruct rest|]. cbn [length app print_bytes until_nul].
  destruct (Z.eqb_spec (Z.of_nat (S (length s))) 0); [lia|].
  destruct (byteZ c =? 0); [done|].
  replace (Z.of_nat (S (length s)) - 1) with (Z.of_nat (length s)) by lia. by rewrite IH.
Qed.

Lemma i32_u32 z : - 2 ^ 31 ≤ z < 2 ^ 31 → i32 (u32 z) = z.
Proof.
  intros Hz. unfold i32, u32. rewrite Zplus_mod_idemp_l. rewrite Z.mod_small by lia. lia.
Qed.

Lemma i64_u64 z : - 2 ^ 63 ≤ z < 2 ^ 63 → i64 (u64 z) = z.
Proof.
  intros Hz. unfold i64, u64. rewrite Zplus_mod_idemp_l. rewrite Z.mod_small by lia. lia.
Qed.

(** What the client prints for the value [v] at the front of the data. *)
Definition prints_front (fuel : nat) v : Prop :=
  ∀ rest, print_response fuel (encode v ++ rest) = Some (Z.of_nat (length (encode v)), prints v).

Lemma print_elems_spec fuel (l : list value) (a rest : bytes) :
  Forall (prints_front fuel) l →
  Z.of_nat (length (a ++ concat (encode <$> l))) < 2 ^ 31 →
  print_elems (print_response fuel) (length l) (a ++ concat (encode <$> l) ++ rest)
    (Z.of_nat (length a)) =
  Some (true, (Z.of_nat (length (a ++ concat (encode <$> l))), concat (prints <$> l))).
Proof.
  revert a. induction l as [|v l IH]; intros a Hl Hsz.
  { cbn [length print_elems fmap list_fmap concat]. by rewrite app_nil_r. }
  apply Forall_cons in Hl as [Hv Hl]. cbn [fmap list_fmap concat length print_elems] in *.
  rewrite app_assoc in Hsz. rewrite Nat2Z.id, drop_app_length, <- app_assoc, Hv.
  cbn [mbind option_bind]. rewrite length_app in Hsz.
  destruct (Z.ltb_spec (Z.of_nat (length (encode v))) 0); [lia|].
  rewrite u64_small by (rewrite length_app in Hsz; lia).
  rewrite <- Nat2Z.inj_add, <- length_app, (app_assoc a), IH; [|done|by rewrite length_app].
  cbn [mbind option_bind]. by rewrite app_assoc.
Qed.

Lemma length_encode_pos v : (1 ≤ length (encode v))%nat.
Proof. destruct v; simpl; lia. Qed.

Lemma value_ok_elems l : value_ok (VArr l) → Forall value_ok l.
Proof. simpl. induction l as [|v l IH]; simpl; [constructor|]. intros [? ?]. constructor; auto. Qed.

Lemma depth_elems l fuel : (depth (VArr l) ≤ S fuel)%nat → Forall (λ v, (depth v ≤ fuel)%nat) l.
Proof.
  simpl. intros H. induction l as [|v l IH]; simpl in *; [constructor|].
  constructor; [lia|]. apply IH. lia.
Qed.

Lemma length_elems l n :
  Z.of_nat (length (concat (encode <$> l))) < n → Forall (λ v, Z.of_nat (length (encode v)) < n) l.
Proof.
  induction l as [|v l IH]; intros H; [constructor|].
  cbn [fmap list_fmap concat] in H. rewrite length_app in H. constructor; [lia|]. apply IH. lia.
Qed.

(** The size test and the tag, with which every case starts; then the case. *)
Local Ltac read_tag :=
  match goal with
  | |- context [Z.of_nat (length ?d) <? 1] =>
      destruct (Z.ltb_spec (Z.of_nat (length d)) 1) as [Hbad|_]; [simpl in Hbad; lia|]
  end;
  rewrite get_tag; cbn [mbind option_bind];
  match goal with |- context [u8 ?t] => let n := eval vm_compute in (u8 t) in change (u8 t) with n end;
  unfold TAG_NIL, TAG_ERROR, TAG_STRING, TAG_INT64, TAG_DOUBLE, TAG_ARRAY; cbn [Z.eqb Pos.eqb].

(** A size test that passes. *)
Local Ltac enough_bytes :=
  match goal with
  | |- context [if ?x <? ?y then bad_response else _] =>
      destruct (Z.ltb_spec x y) as [Hbad|_];
      [exfalso; cbn [length app] in Hbad; rewrite ?length_app, ?le_bytes_length in Hbad;
       cbn [length] in Hbad; rewrite ?length_app, ?le_bytes_length in Hbad; lia|]
  end.

Lemma print_err fuel c m : value_ok (VErr c m) → Z.of_nat (length (encode (VErr c m))) < 2 ^ 31 →
  prints_front (S fuel) (VErr c m).
Proof.
  intros Hok Hsz rest. cbn [encode value_ok] in *. rewrite <- app_comm_cons, <- !app_assoc.
  assert (Hlen : Z.of_nat (length (Zbyte TAG_ERROR :: le_bytes 4 c ++
    le_bytes 4 (Z.of_nat (length m)) ++ m)) = 9 + Z.of_nat (length m)).
  { cbn [length]. rewrite !length_app, !le_bytes_length. lia. }
  rewrite Hlen in *. cbn [print_response]. read_tag. enough_bytes.
  pose proof (get_u32_at [Zbyte 1] c (le_bytes 4 (Z.of_nat (length m)) ++ m ++ rest)) as E1.
  cbn [app length] in E1. rewrite E1. clear E1.
  pose proof (get_u32_at (Zbyte 1 :: le_bytes 4 c) (Z.of_nat (length m)) (m ++ rest)) as E2.
  cbn [length] in E2. rewrite le_bytes_length, <- app_comm_cons in E2. rewrite E2. clear E2.
  cbn [mbind option_bind]. rewrite (u32_small (Z.of_nat (length m))), u32_small by lia. enough_bytes.
  rewrite i32_u32, !i32_small by lia.
  assert (drop 9 (Zbyte 1 :: le_bytes 4 c ++ le_bytes 4 (Z.of_nat (length m)) ++ m ++ rest) = m ++ rest) as ->.
  { cbn [drop]. rewrite app_assoc. apply drop_app_length'. by rewrite length_app, !le_bytes_length. }
  rewrite print_bytes_spec. by cbn [mbind option_bind prints].
Qed.

Lemma print_str fuel s : Z.of_nat (length (encode (VStr s))) < 2 ^ 31 → prints_front (S fuel) (VStr s).
Proof.
  intros Hsz rest. cbn [encode] in *. rewrite <- app_comm_cons, <- !app_assoc.
  assert (Hlen : Z.of_nat (length (Zbyte TAG_STRING :: le_bytes 4 (Z.of_nat (length s)) ++ s)) =
    5 + Z.of_nat (length s)).
  { cbn [length]. rewrite !length_app, !le_bytes_length. lia. }
  rewrite Hlen in *. cbn [print_response]. read_tag. enough_bytes.
  pose proof (get_u32_at [Zbyte 2] (Z.of_nat (length s)) (s ++ rest)) as E1.
  cbn [app length] in E1. rewrite E1. clear E1.
  cbn [mbind option_bind]. rewrite (u32_small (Z.of_nat (length s))), u32_small by lia. enough_bytes.
  rewrite !i32_small by lia.
  assert (drop 5 (Zbyte 2 :: le_bytes 4 (Z.of_nat (length s)) ++ s ++ rest) = s ++ rest) as ->.
  { cbn [drop]. apply drop_app_length'. by rewrite le_bytes_length. }
  rewrite print_bytes_spec. by cbn [mbind option_bind prints].
Qed.

Lemma print_int fuel z : value_ok (VInt z) → prints_front (S fuel) (VInt z).
Proof.
  intros Hok rest. cbn [encode value_ok] in *. rewrite <- app_comm_cons.
  cbn [print_response]. read_tag. enough_bytes.
  pose proof (get_u64_at [Zbyte 3] z rest) as E1. cbn [app length] in E1. rewrite E1.
  cbn [mbind option_bind prints length]. by rewrite i64_u64, le_bytes_length.
Qed.

Lemma print_dbl fuel d : value_ok (VDbl d) → prints_front (S fuel) (VDbl d).
Proof.
  intros Hok rest. cbn [encode value_ok] in *. rewrite <- app_comm_cons.
  cbn [print_response]. read_tag. enough_bytes.
  pose proof (get_u64_at [Zbyte 4] d rest) as E1. cbn [app length] in E1. rewrite E1.
  cbn [mbind option_bind prints length]. by rewrite u64_small, le_bytes_length.
Qed.

Lemma print_arr fuel l : Z.of_nat (length (encode (VArr l))) < 2 ^ 31 →
  Forall (prints_front fuel) l → prints_front (S fuel) (VArr l).
Proof.
  intros Hsz Hl rest. cbn [encode] in *. rewrite <- app_comm_cons, <- !app_assoc.
  assert (Hn : (length l ≤ length (concat (encode <$> l)))%nat).
  { clear. induction l as [|v l IH]; [simpl; lia|]. cbn [fmap list_fmap concat length].
    rewrite length_app. pose proof (length_encode_pos v). lia. }
  pose proof Hsz as Hsz'. cbn [length] in Hsz'. rewrite length_app, le_bytes_length in Hsz'.
  cbn [print_response]. read_tag. enough_bytes.
  pose proof (get_u32_at [Zbyte 5] (Z.of_nat (length l)) (concat (encode <$> l) ++ rest)) as E1.
  cbn [app length] in E1. rewrite E1. clear E1. cbn [mbind option_bind].
  rewrite u32_small, Nat2Z.id by lia.
  pose proof (print_elems_spec fuel l (Zbyte 5 :: le_bytes 4 (Z.of_nat (length l))) rest Hl) as E.
  rewrite <- !app_comm_cons in E. specialize (E Hsz). cbn [length] in E.
  rewrite le_bytes_length in E. change (Z.of_nat 5) with (1 + 4) in E. rewrite E.
  cbn [mbind option_bind prints]. rewrite i32_small; [done|].
  cbn [length]. rewrite length_app, le_bytes_length. lia.
Qed.

Lemma print_front v fuel :
  value_ok v → (depth v ≤ fuel)%nat → Z.of_nat (length (encode v)) < 2 ^ 31 → prints_front fuel v.
Proof.
  revert fuel. induction v as [|c m|s|z|d|l IH] using value_ind'; intros [|fuel] Hok Hd Hsz;
    try (simpl in Hd; lia).
  - intros rest. cbn [encode app print_response]. by read_tag.
  - by apply print_err.
  - by apply print_str.
  - by apply print_int.
  - by apply print_dbl.
  - apply print_arr; [done|]. apply value_ok_elems in Hok. apply depth_elems in Hd.
    assert (Z.of_nat (length (concat (encode <$> l))) < 2 ^ 31) as Hl.
    { cbn [encode] in Hsz. cbn [length] in Hsz. rewrite length_app in Hsz. lia. }
    apply length_elems in Hl. rewrite Forall_forall in *. auto.
Qed.

(** C29. The client prints every reply that the server can write (below 2 GiB) as the
    value it stands for, and consumes exactly its bytes: the frames of buffer.h and
    the parser of the client agree. *)
Theorem print_response_correct v fuel :
  value_ok v → (depth v ≤ fuel)%nat → Z.of_nat (length (encode v)) < 2 ^ 31 →
  print_response fuel (encode v) = Some (Z.of_nat (length (encode v)), prints v).
Proof. intros Hok Hd Hsz. pose proof (print_front v fuel Hok Hd Hsz []) as H. by rewrite app_nil_r in H. Qed.

(** C40. The size test of an error reply is computed modulo 2^32: a 9 byte reply that
    announces a message of nearly 4 GiB passes it, and the client reads the message
    past the end of the reply. *)
Theorem print_response_overread fuel code len :
  2 ^ 32 - 9 ≤ len < 2 ^ 32 →
  print_response (S fuel) (Zbyte TAG_ERROR :: le_bytes 4 code ++ le_bytes 4 len) = None.
Proof.
  intros Hl. cbn [print_response]. read_tag. enough_bytes.
  pose proof (get_u32_at [Zbyte 1] code (le_bytes 4 len)) as E1. cbn [app length] in E1. rewrite E1.
  pose proof (get_u32_at (Zbyte 1 :: le_bytes 4 code) len []) as E2.
  cbn [length] in E2. rewrite le_bytes_length, <- app_comm_cons, app_nil_r in E2. rewrite E2.
  cbn [mbind option_bind]. rewrite (u32_small len) by lia.
  assert (u32 (1 + 8 + len) = 9 + len - 2 ^ 32) as E3.
  { unfold u32. rewrite <- (Z_mod_plus_full _ (-1)), Z.mod_small; lia. }
  rewrite E3. enough_bytes. rewrite drop_ge.
  2: { cbn [length]. rewrite length_app, !le_bytes_length. lia. }
  assert (i32 len = len - 2 ^ 32) as ->.
  { unfold i32. rewrite <- (Z_mod_plus_full _ (-1)), Z.mod_small; lia. }
  simpl. destruct (Z.eqb_spec (len - 2 ^ 32) 0); [lia|done].
Qed.
End reply.

Lemma print_response_correct_witness :
  print_response 3 (encode (VArr [VStr (str "a"); VInt (-5); VNil])) =
    Some (21, [PArr 3; PStr (str "a"); PInt (-5); PNil; PEnd]).
Proof.
  apply (print_response_correct (VArr [VStr (str "a"); VInt (-5); VNil]) 3).
  - simpl. lia.
  - simpl. lia.
  - by vm_compute.
Defined.

Lemma print_response_overread_witness :
  print_response 1 (Zbyte TAG_ERROR :: le_bytes 4 1 ++ le_bytes 4 0xFFFFFFFF) = None.
Proof. apply (print_response_overread 0 1 0xFFFFFFFF). lia. Defined.
