(* ===== verification/Numbers.v ===== *)
(** The number arguments of the commands ([str2int] and [str2dbl] of
    server/main.cc), on top of the C library's [strtoll] and [strtod]. *)
From S2P Require Import Prelude Common.

(** * [strtoll(s, &endp, 10)]

    White space, a sign, digits; the value is clamped to the range of [long long];
    without digits nothing is consumed.  The result is the value and [endp - s]. *)
Definition isspace (b : Byte.byte) : bool :=
  (byteZ b =? 32) || ((9 <=? byteZ b) && (byteZ b <=? 13)).

Definition isdigit (b : Byte.byte) : bool := (48 <=? byteZ b) && (byteZ b <=? 57).

Fixpoint span (f : Byte.byte → bool) (s : bytes) : bytes * bytes :=
  match s with
  | [] => ([], [])
  | c :: s' => if f c then let '(a, b) := span f s' in (c :: a, b) else ([], s)
  end.

Definition digits_val (ds : bytes) : Z := foldl (λ v c, v * 10 + (byteZ c - 48)) 0 ds.

Definition llong_max : Z := 2 ^ 63 - 1.
Definition llong_min : Z := - 2 ^ 63.

Definition strtoll (s : bytes) : Z * nat :=
  let '(sp, s) := span isspace s in
  let '(neg, sign, s) :=
    match s with
    | c :: s' => if byteZ c =? 45 then (true, 1%nat, s')
                 else if byteZ c =? 43 then (false, 1%nat, s') else (false, 0%nat, s)
    | [] => (false, 0%nat, s)
    end in
  let '(ds, _) := span isdigit s in
  if bool_decide (ds = []) then (0, 0%nat)
  else (Z.max llong_min (Z.min llong_max (if neg then - digits_val ds else digits_val ds)),
        length sp + sign + length ds)%nat.

(** [None] is the result [false]. *)
Definition str2int (s : bytes) : option Z :=
  let '(out, endp) := strtoll s in
  if (endp =? length s)%nat then Some out else None.

(** [strtod] of the C library is a parameter: the bits of the double and [endp - s]. *)
Definition str2dbl (strtod : bytes → Z * nat) (s : bytes) : option Z :=
  let '(out, endp) := strtod s in
  if (endp =? length s)%nat && negb (dbl_nan out) then Some out else None.

(** * Properties *)

(** Decimal digits, most significant first. *)
Fixpoint decimal_rev (fuel : nat) (n : Z) : bytes :=
  match fuel with
  | O => []
  | S fuel => Zbyte (48 + n mod 10) :: (if n / 10 =? 0 then [] else decimal_rev fuel (n / 10))
  end.

Definition decimal (n : Z) : bytes := rev (decimal_rev 20 n).

Definition show_int (z : Z) : bytes := if z <? 0 then Byte.x2d :: decimal (- z) else decimal z.

Section numbers.
Implicit Types (s ds : bytes).

Lemma digit_val d : 0 ≤ d < 10 → byteZ (Zbyte (48 + d)) = 48 + d ∧ isdigit (Zbyte (48 + d)) = true.
Proof.
  intros Hd. assert (byteZ (Zbyte (48 + d)) = 48 + d) as E.
  { rewrite byteZ_Zbyte. apply Z.mod_small. lia. }
  split; [done|]. unfold isdigit. rewrite E. zbool; lia || done.
Qed.

Lemma decimal_rev_spec fuel n :
  0 ≤ n < 10 ^ Z.of_nat fuel → (0 < fuel)%nat →
  Forall (λ c, isdigit c = true) (decimal_rev fuel n) ∧ decimal_rev fuel n ≠ [] ∧
  foldr (λ c v, v * 10 + (byteZ c - 48)) 0 (decimal_rev fuel n) = n.
Proof.
  revert n. induction fuel as [|fuel IH]; intros n Hn Hf; [lia|].
  cbn [decimal_rev foldr]. pose proof (Z.mod_pos_bound n 10 ltac:(lia)) as Hm.
  destruct (digit_val (n mod 10) Hm) as [E Hd]. rewrite E.
  pose proof (Z.div_mod n 10 ltac:(lia)) as Hdm.
  destruct (Z.eqb_spec (n / 10) 0) as [H0|H0].
  - split_and!; [by repeat constructor|done|]. simpl. lia.
  - assert (0 < fuel)%nat. { destruct fuel; [|lia]. simpl in Hn. exfalso. apply H0. apply Z.div_small. lia. }
    rewrite Nat2Z.inj_succ, Z.pow_succ_r in Hn by lia.
    destruct (IH (n / 10)) as (Hall & _ & Hv).
    { split; [apply Z.div_pos; lia|]. apply Z.div_lt_upper_bound; lia. }
    { done. }
    split_and!; [by constructor|done|]. rewrite Hv. lia.
Qed.

Lemma digits_val_rev l : digits_val (rev l) = foldr (λ c v, v * 10 + (byteZ c - 48)) 0 l.
Proof.
  unfold digits_val. induction l as [|c l IH]; [done|]. simpl. rewrite foldl_app, IH. done.
Qed.

Lemma decimal_spec n :
  0 ≤ n < 10 ^ 20 →
  Forall (λ c, isdigit c = true) (decimal n) ∧ decimal n ≠ [] ∧ digits_val (decimal n) = n.
Proof.
  intros Hn. unfold decimal. rewrite digits_val_rev.
  destruct (decimal_rev_spec 20 n) as (Hd & Hne & Hv); [done|lia|].
  split_and!; [by apply Forall_rev| |done].
  intros E. apply Hne. by rewrite <- (rev_involutive (decimal_rev 20 n)), E.
Qed.

Lemma span_all f s : Forall (λ c, f c = true) s → span f s = (s, []).
Proof. induction 1 as [|c s Hc _ IH]; [done|]. simpl. by rewrite Hc, IH. Qed.

Lemma isdigit_not c : isdigit c = true → isspace c = false ∧ byteZ c ≠ 45 ∧ byteZ c ≠ 43.
Proof.
  unfold isdigit, isspace. rewrite andb_true_iff, !Z.leb_le. intros [? ?].
  rewrite orb_false_iff, andb_false_iff, Z.eqb_neq, !Z.leb_gt. lia.
Qed.

Lemma strtoll_digits ds :
  Forall (λ c, isdigit c = true) ds → ds ≠ [] →
  strtoll ds = (Z.max llong_min (Z.min llong_max (digits_val ds)), length ds) ∧
  strtoll (Byte.x2d :: ds) =
    (Z.max llong_min (Z.min llong_max (- digits_val ds)), S (length ds)).
Proof.
  intros Hds Hne. destruct ds as [|c ds]; [done|].
  destruct (isdigit_not c) as (Hs & H45 & H43); [by apply Forall_cons in Hds as [? _]|].
  pose proof (span_all isdigit (c :: ds) Hds) as Hspan. unfold strtoll. split.
  - assert (span isspace (c :: ds) = ([], c :: ds)) as -> by (simpl; by rewrite Hs).
    apply Z.eqb_neq in H45, H43. rewrite H45, H43, Hspan. done.
  - assert (span isspace (Byte.x2d :: c :: ds) = ([], Byte.x2d :: c :: ds)) as -> by done.
    change (byteZ Byte.x2d =? 45) with true. cbv beta iota. rewrite Hspan. done.
Qed.

(** C37. [str2int] reads the decimal form of every [int64_t] back; numbers out of range
    are not refused but clamped, and the empty string is taken for 0. *)
Theorem str2int_correct z :
  - 10 ^ 20 < z < 10 ^ 20 →
  str2int (show_int z) = Some (Z.max llong_min (Z.min llong_max z)) ∧ str2int [] = Some 0.
Proof.
  intros Hz. split; [|done]. unfold show_int, str2int. destruct (Z.ltb_spec z 0).
  - destruct (decimal_spec (- z)) as (Hd & Hne & Hv); [lia|].
    destruct (strtoll_digits _ Hd Hne) as [_ ->]. cbn [length]. rewrite Nat.eqb_refl, Hv.
    by rewrite Z.opp_involutive.
  - destruct (decimal_spec z) as (Hd & Hne & Hv); [lia|].
    destruct (strtoll_digits _ Hd Hne) as [-> _]. by rewrite Nat.eqb_refl, Hv.
Qed.
End numbers.

Lemma str2int_correct_witness :
  str2int (str "-9223372036854775809") = Some (- 2 ^ 63) ∧ str2int [] = Some 0.
Proof. exact (str2int_correct (- 2 ^ 63 - 1) ltac:(lia)). Defined.
