(* ===== verification/Server.v ===== *)
(** The key space of the server and its commands (server/main.cc), translated
    statement by statement.

    An [Entry] has one address: its hash node and its [heap_idx] live in their own
    stores under that address ([container_of] is the identity).  The clock is an
    argument of the commands that read it. *)
From S2P Require Import Prelude Common HashTable Heap ZSet Buffer Numbers.

(** * State *)

Definition T_INIT : Z := 0.
Definition T_STR : Z := 1.
Definition T_ZSET : Z := 2.

(** [struct Entry], without [node] and [heap_idx]. *)
Record Entry : Type := mkEntry {
  e_key : list Byte.byte;
  e_type : Z;
  e_str : list Byte.byte;
  e_zset : ZSet;
}.

Definition f_key : field Entry (list Byte.byte) :=
  Field e_key (λ v e, mkEntry v (e_type e) (e_str e) (e_zset e)).
Definition f_type : field Entry Z :=
  Field e_type (λ v e, mkEntry (e_key e) v (e_str e) (e_zset e)).
Definition f_str : field Entry (list Byte.byte) :=
  Field e_str (λ v e, mkEntry (e_key e) (e_type e) v (e_zset e)).
Definition f_zset : field Entry ZSet :=
  Field e_zset (λ v e, mkEntry (e_key e) (e_type e) (e_str e) v).

(** [g_data], and the memory it leads to.  [sv_tasks] is the queue of the thread pool:
    the entries to delete. *)
Record server : Type := mkServer {
  sv_db : HashMap;
  sv_hash : hash_heap;
  sv_ent : gmap positive Entry;
  sv_heap : heap_state Z;
  sv_zmem : ZMem;
  sv_tasks : list positive;
}.

Definition s_db : field server HashMap := Field sv_db
  (λ v s, mkServer v (sv_hash s) (sv_ent s) (sv_heap s) (sv_zmem s) (sv_tasks s)).
Definition s_hash : field server hash_heap := Field sv_hash
  (λ v s, mkServer (sv_db s) v (sv_ent s) (sv_heap s) (sv_zmem s) (sv_tasks s)).
Definition s_ent : field server (gmap positive Entry) := Field sv_ent
  (λ v s, mkServer (sv_db s) (sv_hash s) v (sv_heap s) (sv_zmem s) (sv_tasks s)).
Definition s_heap : field server (heap_state Z) := Field sv_heap
  (λ v s, mkServer (sv_db s) (sv_hash s) (sv_ent s) v (sv_zmem s) (sv_tasks s)).
Definition s_zmem : field server ZMem := Field sv_zmem
  (λ v s, mkServer (sv_db s) (sv_hash s) (sv_ent s) (sv_heap s) v (sv_tasks s)).
Definition s_tasks : field server (list positive) := Field sv_tasks
  (λ v s, mkServer (sv_db s) (sv_hash s) (sv_ent s) (sv_heap s) (sv_zmem s) v).

(** A member of [g_data], read and written. *)
Definition get_f {A} (f : field server A) : M server A := λ s, Some (fget f s, s).
Definition put_f {A} (f : field server A) (v : A) : M server unit := λ s, Some (tt, fset f v s).

(** [(size_t)-1] *)
Definition no_idx : Z := u64 (-1).

(** * Entries *)

Definition ent_fresh (s : server) : positive :=
  fresh (dom (sv_hash s) ∪ dom (sv_ent s) ∪ dom (hs_idx (sv_heap s)) : gset positive).

(** [new Entry()] and the type *)
Definition entry_new (type : Z) : M server ptr :=
  hmap ← hm_new;
  s ← get;
  let a := ent_fresh s in
  put_f s_hash (<[a:=mkHashNode None 0]> (sv_hash s));;
  put_f s_ent (<[a:=mkEntry [] type [] (zs_empty hmap)]> (sv_ent s));;
  put_f s_heap (mkHeapState (hs_arr (sv_heap s)) (<[a:=no_idx]> (hs_idx (sv_heap s))));;
  mret (Some a).

Definition ent_get {A} (f : field Entry A) (ent : ptr) : M server A := zoom s_ent (ent ->> f).
Definition ent_set {A} (f : field Entry A) (ent : ptr) (v : A) : M server unit :=
  zoom s_ent (ent ->> f <<- v).

(** [ent->heap_idx] *)
Definition ent_idx (ent : ptr) : M server Z := zoom s_heap (ref_get ent).

(** [delete ent] *)
Definition entry_free (ent : ptr) : M server unit := λ s,
  match ent with
  | Some a =>
      match sv_ent s !! a with
      | Some _ => Some (tt, mkServer (sv_db s) (delete a (sv_hash s)) (delete a (sv_ent s))
          (mkHeapState (hs_arr (sv_heap s)) (delete a (hs_idx (sv_heap s)))) (sv_zmem s) (sv_tasks s))
      | None => None
      end
  | None => None
  end.

(** set or remove the TTL *)
Definition entry_set_ttl (now : Z) (ent : ptr) (ttl_ms : Z) : M server unit :=
  idx ← ent_idx ent;
  if (ttl_ms <? 0) && negb (idx =? no_idx) then
    idx ← ent_idx ent;
    zoom s_heap (heap_remove Z.gtb idx);;
    zoom s_heap (ref_set ent no_idx)
  else if 0 <=? ttl_ms then
    let expire_at := u64 (now + u64 ttl_ms) in
    zoom s_heap (heap_upsert Z.gtb (mkHeapEntry ent expire_at))
  else mret tt.

Definition entry_del_sync (ent : ptr) : M server unit :=
  t ← ent_get f_type ent;
  (if t =? T_ZSET then
     z ← ent_get f_zset ent;
     z ← zoom s_zmem (zset_clear z);
     ent_set f_zset ent z
   else mret tt);;
  entry_free ent.

Definition k_large_container_size : Z := 1000.

Definition entry_del (ent : ptr) : M server unit :=
  entry_set_ttl 0 ent (-1);;
  t ← ent_get f_type ent;
  set_size ← (if t =? T_ZSET then z ← ent_get f_zset ent; mret (hm_size (zs_hmap z)) else mret 0);
  if k_large_container_size <? set_size then
    match ent with
    | Some a => tasks ← get_f s_tasks; put_f s_tasks (tasks ++ [a])
    | None => fault
    end
  else entry_del_sync ent.

(** A worker of the thread pool runs a task, the [i]-th of those enqueued and not yet
    finished: workers take them in order, but finish them in any order. *)
Definition run_task (i : nat) : M server unit :=
  tasks ← get_f s_tasks;
  match tasks !! i with
  | None => mret tt
  | Some a => put_f s_tasks (delete i tasks);; entry_del_sync (Some a)
  end.

(** * The top-level hashtable *)

(** equality comparison for the top-level hashtable *)
Definition entry_eq (ents : gmap positive Entry) (key : list Byte.byte) : hash_eq := λ a,
  match ents !! a with
  | Some ent => Some (bool_decide (e_key ent = key))
  | None => None
  end.

(** [g_data.db.lookup(&key.node, &entry_eq)] for the key with its hash code *)
Definition db_lookup (key : list Byte.byte) : M server ptr :=
  s ← get;
  '(node, db) ← zoom s_hash (hm_lookup (sv_db s) (str_hash key) (entry_eq (sv_ent s) key));
  put_f s_db db;;
  mret node.

Definition db_remove (hash : Z) (eq : hash_eq) : M server ptr :=
  s ← get;
  '(node, db) ← zoom s_hash (hm_remove (sv_db s) hash eq);
  put_f s_db db;;
  mret node.

Definition db_insert (ent : ptr) : M server unit :=
  s ← get;
  db ← zoom s_hash (hm_insert (sv_db s) ent);
  put_f s_db db.

(** The new pair of [do_set] and [do_zadd]. *)
Definition entry_add (type : Z) (key : list Byte.byte) (value : list Byte.byte) : M server ptr :=
  ent ← entry_new type;
  ent_set f_key ent key;;
  zoom s_hash (ent ->> f_hash_code <<- str_hash key);;
  ent_set f_str ent value;;
  db_insert ent;;
  mret ent.

(** * The commands

    A command takes the output buffer and returns it with the reply appended. *)

(** [cmd[i]] *)
Definition arg (cmd : list (list Byte.byte)) (i : nat) : M server (list Byte.byte) :=
  lift_option (cmd !! i).

Definition write_bool (out : buffer) (b : bool) : buffer :=
  write_frame_int out (if b then 1 else 0).

Definition do_get (cmd : list (list Byte.byte)) (out : buffer) : M server (list Byte.byte) :=
  key ← arg cmd 1;
  node ← db_lookup key;
  match node with
  | None => mret (write_frame_nil out)
  | Some _ =>
      t ← ent_get f_type node;
      if negb (t =? T_STR) then mret (write_frame_err out ERR_BAD_TYP (str "not a string value"))
      else
        v ← ent_get f_str node;
        mret (write_frame_str out v)
  end.

Definition do_set (cmd : list (list Byte.byte)) (out : buffer) : M server (list Byte.byte) :=
  key ← arg cmd 1;
  node ← db_lookup key;
  value ← arg cmd 2;
  match node with
  | Some _ =>
      t ← ent_get f_type node;
      if negb (t =? T_STR) then
        mret (write_frame_err out ERR_BAD_TYP (str "a non-string value exists"))
      else
        ent_set f_str node value;;
        mret (write_frame_nil out)
  | None =>
      _ ← entry_add T_STR key value;
      mret (write_frame_nil out)
  end.

Definition do_del (cmd : list (list Byte.byte)) (out : buffer) : M server (list Byte.byte) :=
  key ← arg cmd 1;
  s ← get;
  node ← db_remove (str_hash key) (entry_eq (sv_ent s) key);
  (match node with Some _ => entry_del node | None => mret tt end);;
  mret (write_bool out (bool_decide (node ≠ None))).

(** PEXPIRE key ttl_ms *)
Definition do_expire (now : Z) (cmd : list (list Byte.byte)) (out : buffer)
    : M server (list Byte.byte) :=
  a2 ← arg cmd 2;
  match str2int a2 with
  | None => mret (write_frame_err out ERR_BAD_ARG (str "expect int64"))
  | Some ttl_ms =>
      key ← arg cmd 1;
      node ← db_lookup key;
      (match node with Some _ => entry_set_ttl now node ttl_ms | None => mret tt end);;
      mret (write_bool out (bool_decide (node ≠ None)))
  end.

(** PTTL key *)
Definition do_ttl (now : Z) (cmd : list (list Byte.byte)) (out : buffer)
    : M server (list Byte.byte) :=
  key ← arg cmd 1;
  node ← db_lookup key;
  match node with
  | None => mret (write_frame_int out (-2))
  | Some _ =>
      idx ← ent_idx node;
      if idx =? no_idx then mret (write_frame_int out (-1))
      else
        item ← zoom s_heap (h_get idx);
        let expire_at := he_val item in
        mret (write_frame_int out (i64 (if now <? expire_at then u64 (expire_at - now) else 0)))
  end.

Definition cb_keys (ents : gmap positive Entry) (node : positive) (out : buffer)
    : option (bool * list Byte.byte) :=
  match ents !! node with
  | Some ent => Some (true, write_frame_str out (e_key ent))
  | None => None
  end.

Definition do_keys (cmd : list (list Byte.byte)) (out : buffer) : M server (list Byte.byte) :=
  s ← get;
  let out := write_frame_array out (u32 (hm_size (sv_db s))) in
  zoom s_hash (hm_foreach (sv_db s) (cb_keys (sv_ent s)) out).

Section strtod.
(** [strtod] of the C library *)
Context (strtod : list Byte.byte → Z * nat).

(** zadd zset score name *)
Definition do_zadd (cmd : list (list Byte.byte)) (out : buffer) : M server (list Byte.byte) :=
  a2 ← arg cmd 2;
  match str2dbl strtod a2 with
  | None => mret (write_frame_err out ERR_BAD_ARG (str "expect float"))
  | Some score =>
      key ← arg cmd 1;
      hnode ← db_lookup key;
      name ← arg cmd 3;
      ent ← (match hnode with
             | None => ent ← entry_add T_ZSET key []; mret (Some ent)
             | Some _ =>
                 t ← ent_get f_type hnode;
                 mret (if negb (t =? T_ZSET) then None else Some hnode)
             end);
      match ent with
      | None => mret (write_frame_err out ERR_BAD_TYP (str "expect zset"))
      | Some ent =>
          z ← ent_get f_zset ent;
          '(added, z) ← zoom s_zmem (zset_insert z name score);
          ent_set f_zset ent z;;
          mret (write_bool out added)
      end
  end.

(** The result of [expect_zset]: [&k_empty_zset], or the set of an entry. *)
Inductive zset_ref : Type :=
| EmptyZSet
| EntryZSet (ent : ptr).

Definition expect_zset (key : list Byte.byte) : M server (option zset_ref) :=
  hnode ← db_lookup key;
  match hnode with
  | None => mret (Some EmptyZSet)
  | Some _ =>
      t ← ent_get f_type hnode;
      mret (if t =? T_ZSET then Some (EntryZSet hnode) else None)
  end.

(** [k_empty_zset] after its constructor. *)
Definition k_empty_zset : M server ZSet :=
  hmap ← hm_new;
  mret (zs_empty hmap).

Definition zref_get (r : zset_ref) : M server ZSet :=
  match r with
  | EmptyZSet => k_empty_zset
  | EntryZSet ent => ent_get f_zset ent
  end.

(** The operations of zset.cc through the pointer; they must not change the constant. *)
Definition zref_put (r : zset_ref) (z : ZSet) : M server unit :=
  match r with
  | EmptyZSet => assert (bool_decide (zs_root z = None))
  | EntryZSet ent => ent_set f_zset ent z
  end.

Definition zref_lookup (r : zset_ref) (name : list Byte.byte) : M server ptr :=
  z ← zref_get r;
  '(node, z) ← zoom s_zmem (zset_lookup z name);
  zref_put r z;;
  mret node.

(** zrem zset name *)
Definition do_zrem (cmd : list (list Byte.byte)) (out : buffer) : M server (list Byte.byte) :=
  key ← arg cmd 1;
  zset ← expect_zset key;
  match zset with
  | None => mret (write_frame_err out ERR_BAD_TYP (str "expect zset"))
  | Some zset =>
      name ← arg cmd 2;
      znode ← zref_lookup zset name;
      (match znode with
       | Some _ =>
           z ← zref_get zset;
           z ← zoom s_zmem (zset_delete z znode);
           zref_put zset z
       | None => mret tt
       end);;
      mret (write_bool out (bool_decide (znode ≠ None)))
  end.

(** zscore zset name *)
Definition do_zscore (cmd : list (list Byte.byte)) (out : buffer) : M server (list Byte.byte) :=
  key ← arg cmd 1;
  zset ← expect_zset key;
  match zset with
  | None => mret (write_frame_err out ERR_BAD_TYP (str "expect zset"))
  | Some zset =>
      name ← arg cmd 2;
      znode ← zref_lookup zset name;
      match znode with
      | Some _ =>
          d ← zoom s_zmem (znode_data znode);
          mret (write_frame_dbl out (zd_score d))
      | None => mret (write_frame_nil out)
      end
  end.

(** The output loop of [do_zquery]. *)
Fixpoint zquery_loop (fuel : nat) (znode : ptr) (n limit : Z) (out : list Byte.byte)
    : M server (Z * list Byte.byte) :=
  match fuel with
  | O => fault
  | S fuel =>
      match znode with
      | Some _ =>
          if n <? limit then
            d ← zoom s_zmem (znode_data znode);
            let out := write_frame_str out (zd_name d) in
            let out := write_frame_dbl out (zd_score d) in
            znode ← zoom s_zmem (znode_offset znode 1);
            n ← sint64 (n + 2);
            zquery_loop fuel znode n limit out
          else mret (n, out)
      | None => mret (n, out)
      end
  end.

(** zquery zset score name offset limit *)
Definition do_zquery (cmd : list (list Byte.byte)) (out : buffer) : M server (list Byte.byte) :=
  a2 ← arg cmd 2;
  match str2dbl strtod a2 with
  | None => mret (write_frame_err out ERR_BAD_ARG (str "expect fp number"))
  | Some score =>
      name ← arg cmd 3;
      a4 ← arg cmd 4;
      a5 ← arg cmd 5;
      match str2int a4, str2int a5 with
      | Some offset, Some limit =>
          key ← arg cmd 1;
          zset ← expect_zset key;
          match zset with
          | None => mret (write_frame_err out ERR_BAD_TYP (str "expect zset"))
          | Some zset =>
              if limit <=? 0 then mret (write_frame_array out 0)
              else
                z ← zref_get zset;
                znode ← zoom s_zmem (zset_seekge z score name);
                znode ← zoom s_zmem (znode_offset znode offset);
                let '(ctx, out) := write_frame_array_begin out in
                s ← get;
                '(n, out) ← zquery_loop (S (size (zm_data (sv_zmem s)))) znode 0 limit out;
                lift_option (write_frame_array_end out ctx (u32 n))
          end
      | _, _ => mret (write_frame_err out ERR_BAD_ARG (str "expect int"))
      end
  end.

(** [cmd.size() == n && cmd[0] == name] *)
Definition is_cmd (cmd : list (list Byte.byte)) (n : nat) (name : list Byte.byte) : bool :=
  (length cmd =? n)%nat && bool_decide (head cmd = Some name).

Definition do_request (now : Z) (cmd : list (list Byte.byte)) (out : buffer)
    : M server (list Byte.byte) :=
  if is_cmd cmd 2 (str "get") then do_get cmd out
  else if is_cmd cmd 3 (str "set") then do_set cmd out
  else if is_cmd cmd 2 (str "del") then do_del cmd out
  else if is_cmd cmd 3 (str "pexpire") then do_expire now cmd out
  else if is_cmd cmd 2 (str "pttl") then do_ttl now cmd out
  else if is_cmd cmd 1 (str "keys") then do_keys cmd out
  else if is_cmd cmd 4 (str "zadd") then do_zadd cmd out
  else if is_cmd cmd 3 (str "zrem") then do_zrem cmd out
  else if is_cmd cmd 3 (str "zscore") then do_zscore cmd out
  else if is_cmd cmd 6 (str "zquery") then do_zquery cmd out
  else mret (write_frame_err out ERR_UNKNOWN (str "unknown command.")).
End strtod.

(** * The TTL timers *)

Definition hnode_same (node : ptr) : hash_eq := λ a, Some (bool_decide (Some a = node)).

Definition k_max_works : Z := 2000.

(** The loop of [process_timers] over the heap; returns the number of keys removed. *)
Fixpoint expire_loop (fuel : nat) (now nworks : Z) : M server Z :=
  match fuel with
  | O => fault
  | S fuel =>
      s ← get;
      match hs_arr (sv_heap s) with
      | [] => mret nworks
      | top :: _ =>
          if he_val top <? now then
            let ent := he_ref_pos top in
            h ← zoom s_hash (ent ->> f_hash_code);
            node ← db_remove h (hnode_same ent);
            assert (bool_decide (node = ent));;
            entry_del ent;;
            if k_max_works <=? nworks then mret (nworks + 1)
            else expire_loop fuel now (nworks + 1)
          else mret nworks
      end
  end.

Definition process_ttl (now : Z) : M server Z :=
  s ← get;
  expire_loop (S (length (hs_arr (sv_heap s)))) now 0.
