(* ===== verification/ServerSpec.v ===== *)
(** The abstract key space: what the commands of the server promise to a client, on
    finite maps from keys to values and from keys to deadlines. *)
From S2P Require Import Prelude Common ZSet ZSetRep ZSetSpec Buffer Numbers Server.

Inductive aval : Type :=
| AStr (s : list Byte.byte)
| AZSet (ds : list zdata).

(** The keys with their values, and the deadlines of those that have one. *)
Record astate : Type := mkA {
  as_kv : gmap (list Byte.byte) aval;
  as_ttl : gmap (list Byte.byte) Z;
}.

Definition VBool (b : bool) : value := VInt (if b then 1 else 0).

Section spec.
Context (strtod : list Byte.byte → Z * nat).
Implicit Types (A : astate) (key name s : list Byte.byte).

Definition spec_get A key : value :=
  match as_kv A !! key with
  | None => VNil
  | Some (AStr s) => VStr s
  | Some (AZSet _) => VErr ERR_BAD_TYP (str "not a string value")
  end.

Definition spec_set A key s : astate * value :=
  match as_kv A !! key with
  | Some (AZSet _) => (A, VErr ERR_BAD_TYP (str "a non-string value exists"))
  | _ => (mkA (<[key:=AStr s]> (as_kv A)) (as_ttl A), VNil)
  end.

Definition spec_del A key : astate * value :=
  (mkA (delete key (as_kv A)) (delete key (as_ttl A)), VBool (bool_decide (is_Some (as_kv A !! key)))).

Definition spec_expire (now : Z) A key (ttl : option Z) : astate * value :=
  match ttl with
  | None => (A, VErr ERR_BAD_ARG (str "expect int64"))
  | Some t =>
      if bool_decide (is_Some (as_kv A !! key)) then
        (mkA (as_kv A) (if t <? 0 then delete key (as_ttl A)
                        else <[key:=u64 (now + t)]> (as_ttl A)), VBool true)
      else (A, VBool false)
  end.

(** The remaining time, -1 for no deadline, -2 for no key. *)
Definition spec_ttl (now : Z) A key : value :=
  if bool_decide (is_Some (as_kv A !! key)) then
    match as_ttl A !! key with
    | None => VInt (-1)
    | Some t => VInt (i64 (if now <? t then u64 (t - now) else 0))
    end
  else VInt (-2).

(** The tuples of a key; a missing key is an empty set. *)
Definition spec_zset A key : option (list zdata) :=
  match as_kv A !! key with
  | None => Some []
  | Some (AZSet ds) => Some ds
  | Some (AStr _) => None
  end.

Definition spec_zadd A key (score : option Z) name : astate * value :=
  match score with
  | None => (A, VErr ERR_BAD_ARG (str "expect float"))
  | Some score =>
      match spec_zset A key with
      | None => (A, VErr ERR_BAD_TYP (str "expect zset"))
      | Some ds =>
          let '(added, ds) := spec_insert name score ds in
          (mkA (<[key:=AZSet ds]> (as_kv A)) (as_ttl A), VBool added)
      end
  end.

(** Removing the last name leaves an empty set, not a missing key. *)
Definition spec_zrem A key name : astate * value :=
  match as_kv A !! key with
  | None => (A, VBool false)
  | Some (AStr _) => (A, VErr ERR_BAD_TYP (str "expect zset"))
  | Some (AZSet ds) =>
      (mkA (<[key:=AZSet (spec_remove name ds)]> (as_kv A)) (as_ttl A),
       VBool (bool_decide (is_Some (spec_find name ds))))
  end.

Definition spec_zscore A key name : value :=
  match spec_zset A key with
  | None => VErr ERR_BAD_TYP (str "expect zset")
  | Some ds => match spec_find name ds with Some d => VDbl (zd_score d) | None => VNil end
  end.

(** Half of the limit, rounded up, tuples in order, from the given distance to the
    first one at or above the key. *)
Definition spec_range (score : Z) name (offset limit : Z) (ds : list zdata) : list zdata :=
  let i := spec_rank score name ds in
  let start := Z.of_nat i + offset in
  if bool_decide (i < length ds)%nat && (0 <=? start) then
    take (Z.to_nat ((limit + 1) / 2)) (drop (Z.to_nat start) ds)
  else [].

Definition range_values (ds : list zdata) : list value :=
  concat ((λ d, [VStr (zd_name d); VDbl (zd_score d)]) <$> ds).

Definition spec_zquery A key (score : option Z) name (offset limit : option Z) : value :=
  match score with
  | None => VErr ERR_BAD_ARG (str "expect fp number")
  | Some score =>
      match offset, limit with
      | Some offset, Some limit =>
          match spec_zset A key with
          | None => VErr ERR_BAD_TYP (str "expect zset")
          | Some ds =>
              if limit <=? 0 then VArr []
              else VArr (range_values (spec_range score name offset limit ds))
          end
      | _, _ => VErr ERR_BAD_ARG (str "expect int")
      end
  end.

(** The state after a command, and its reply; [KEYS] lists the keys in any order. *)
Definition spec_request (now : Z) (cmd : list (list Byte.byte)) A (A' : astate) (v : value) : Prop :=
  match cmd with
  | [c; key] =>
      if bool_decide (c = str "get") then A' = A ∧ v = spec_get A key
      else if bool_decide (c = str "del") then (A', v) = spec_del A key
      else if bool_decide (c = str "pttl") then A' = A ∧ v = spec_ttl now A key
      else A' = A ∧ v = VErr ERR_UNKNOWN (str "unknown command.")
  | [c] =>
      if bool_decide (c = str "keys") then
        A' = A ∧ ∃ ks, ks ≡ₚ (map_to_list (as_kv A)).*1 ∧ v = VArr (VStr <$> ks)
      else A' = A ∧ v = VErr ERR_UNKNOWN (str "unknown command.")
  | [c; key; x] =>
      if bool_decide (c = str "set") then (A', v) = spec_set A key x
      else if bool_decide (c = str "pexpire") then (A', v) = spec_expire now A key (str2int x)
      else if bool_decide (c = str "zrem") then (A', v) = spec_zrem A key x
      else if bool_decide (c = str "zscore") then A' = A ∧ v = spec_zscore A key x
      else A' = A ∧ v = VErr ERR_UNKNOWN (str "unknown command.")
  | [c; key; x; name] =>
      if bool_decide (c = str "zadd") then (A', v) = spec_zadd A key (str2dbl strtod x) name
      else A' = A ∧ v = VErr ERR_UNKNOWN (str "unknown command.")
  | [c; key; x; name; y; z] =>
      if bool_decide (c = str "zquery") then
        A' = A ∧ v = spec_zquery A key (str2dbl strtod x) name (str2int y) (str2int z)
      else A' = A ∧ v = VErr ERR_UNKNOWN (str "unknown command.")
  | _ => A' = A ∧ v = VErr ERR_UNKNOWN (str "unknown command.")
  end.
End spec.
