(* ===== verification/ServerRep.v ===== *)
(** The invariant of the server's state, and the rules of its building blocks: the
    top-level hashtable, the entries, and their deadlines. *)
From S2P Require Import Prelude Common HashTable HashRep HashMap HashIndex.
From S2P Require Import Heap HeapProof HeapMap ZSet ZSetRep ZSetOps ZSetQuery ZSetSpec.
From S2P Require Import Buffer Numbers Server ServerSpec.

#[export] Instance s_db_laws : LensLaws s_db.
Proof. done. Qed.
#[export] Instance s_hash_laws : LensLaws s_hash.
Proof. done. Qed.
#[export] Instance s_ent_laws : LensLaws s_ent.
Proof. done. Qed.
#[export] Instance s_heap_laws : LensLaws s_heap.
Proof. done. Qed.
#[export] Instance s_zmem_laws : LensLaws s_zmem.
Proof. done. Qed.

(** * The invariant *)

(** The value of an entry is in place; [l] are the nodes of its sorted set. *)
Definition entry_ok (m : ZMem) (e : Entry) (l : list positive) : Prop :=
  e_type e = T_STR ∧ l = [] ∨ e_type e = T_ZSET ∧ zset_rep m (e_zset e) l.

(** [M] are the live entries by key, [D] the deadlines by entry, [N] the nodes of the
    sorted sets by entry. *)
Record server_rep (s : server) (M : gmap (list Byte.byte) positive) (D : gmap positive Z)
    (N : positive → list positive) : Prop := {
  sr_index : ni_rep (hashf:=str_hash) (sv_hash s) (sv_db s) M;
  sr_ent : ∀ k a, M !! k = Some a → ∃ e, sv_ent s !! a = Some e ∧ e_key e = k;
  sr_ok : ∀ a e, sv_ent s !! a = Some e → entry_ok (sv_zmem s) e (N a);
  sr_disj : ∀ a b x, is_Some (sv_ent s !! a) → is_Some (sv_ent s !! b) → x ∈ N a → x ∈ N b → a = b;
  sr_heap : heap_rep Z.gtb (sv_heap s) D;
  sr_timer : ∀ a, a ∈ dom D → ∃ k, M !! k = Some a;
  sr_idx : ∀ k a, M !! k = Some a → D !! a = None → hs_idx (sv_heap s) !! a = Some no_idx;
  sr_tasks : NoDup (sv_tasks s);
  sr_live : ∀ a, is_Some (sv_ent s !! a) ↔ (∃ k, M !! k = Some a) ∨ a ∈ sv_tasks s;
  sr_task : ∀ k a, M !! k = Some a → a ∉ sv_tasks s;
}.

(** The value of an entry. *)
Definition val_of (s : server) (N : positive → list positive) (a : positive) : aval :=
  match sv_ent s !! a with
  | Some e => if e_type e =? T_STR then AStr (e_str e) else AZSet (entries (sv_zmem s) (N a))
  | None => AStr []
  end.

(** The abstract state of the server. *)
Definition abs_of (s : server) (M : gmap (list Byte.byte) positive) (D : gmap positive Z)
    (N : positive → list positive) : astate :=
  mkA (val_of s N <$> M) (omap (λ a, D !! a) M).

Definition server_abs (s : server) (A : astate) : Prop :=
  ∃ M D N, server_rep s M D N ∧ A = abs_of s M D N.

Section rep.
Implicit Types (s : server) (M : gmap (list Byte.byte) positive) (D : gmap positive Z).
Implicit Types (N : positive → list positive) (k key : list Byte.byte) (a b : positive).

Lemma sr_inj s M D N k k' a : server_rep s M D N → M !! k = Some a → M !! k' = Some a → k = k'.
Proof.
  intros Hs Hk Hk'. destruct (sr_ent _ _ _ _ Hs _ _ Hk) as (e & He & <-).
  destruct (sr_ent _ _ _ _ Hs _ _ Hk') as (e' & He' & <-). congruence.
Qed.

(** The heap is not longer than the key space. *)
Lemma sr_heap_length s M D N : server_rep s M D N → (length (hs_arr (sv_heap s)) ≤ size M)%nat.
Proof.
  intros Hs. rewrite (hr_length _ _ _ (sr_heap _ _ _ _ Hs)), <- size_dom.
  assert (dom D ⊆ list_to_set (map_to_list M).*2) as Hsub.
  { intros a Ha. apply elem_of_list_to_set, list_elem_of_fmap.
    destruct (sr_timer _ _ _ _ Hs a Ha) as [k Hk]. exists (k, a). by rewrite elem_of_map_to_list. }
  apply subseteq_size in Hsub. etransitivity; [exact Hsub|].
  rewrite <- length_map_to_list, <- (length_fmap snd). apply size_list_to_set_le || idtac.
  clear. induction ((map_to_list M).*2) as [|x l IH]; [by rewrite list_to_set_nil, size_empty|].
  cbn [list_to_set length]. pose proof (size_union_alt ({[x]} : gset positive) (list_to_set l)) as E.
  simpl. rewrite E, size_singleton.
  assert (size ((list_to_set l : gset positive) ∖ {[x]}) ≤ size (list_to_set l : gset positive))%nat
    by (apply subseteq_size; set_solver).
  lia.
Qed.

(** * Small steps *)

Lemma wp_get_f {A} (f : field server A) s (Q : A → server → Prop) : Q (fget f s) s → wp (get_f f) s Q.
Proof. done. Qed.

Lemma wp_put_f {A} (f : field server A) v s (Q : unit → server → Prop) :
  Q tt (fset f v s) → wp (put_f f v) s Q.
Proof. done. Qed.

Lemma server_eta s : mkServer (sv_db s) (sv_hash s) (sv_ent s) (sv_heap s) (sv_zmem s) (sv_tasks s) = s.
Proof. by destruct s. Qed.

Lemma wp_ent_get {A} (f : field Entry A) s a e (Q : A → server → Prop) :
  sv_ent s !! a = Some e → Q (fget f e) s → wp (ent_get f (Some a)) s Q.
Proof.
  intros He HQ. unfold ent_get. apply wp_zoom. eapply wp_load; [exact He|]. simpl.
  by rewrite server_eta.
Qed.

Lemma wp_ent_set {A} (f : field Entry A) s a e v (Q : unit → server → Prop) :
  sv_ent s !! a = Some e →
  Q tt (mkServer (sv_db s) (sv_hash s) (<[a:=fset f v e]> (sv_ent s)) (sv_heap s) (sv_zmem s) (sv_tasks s)) →
  wp (ent_set f (Some a) v) s Q.
Proof. intros He HQ. unfold ent_set. apply wp_zoom. by eapply wp_store; [exact He|]. Qed.

Lemma wp_arg cmd i x s (Q : list Byte.byte → server → Prop) :
  cmd !! i = Some x → Q x s → wp (arg cmd i) s Q.
Proof. intros Hi HQ. unfold arg. by rewrite Hi. Qed.

(** The empty table does not depend on the state. *)
Definition hm_init : HashMap := mkHashMap (mkHashTab 3 0 [None; None; None; None]) None 0.

Lemma hm_new_init {S} (s : S) : hm_new s = Some (hm_init, s).
Proof. done. Qed.

Lemma wp_hm_new_any {S} (s : S) (Q : HashMap → S → Prop) : Q hm_init s → wp hm_new s Q.
Proof. done. Qed.

Lemma zset_rep_init m : zset_rep m (zs_empty hm_init) [].
Proof.
  split.
  - split; [|split|constructor].
    + exists AvlTree.Leaf. split_and!; [|done|done]. split; [done|constructor|done|done].
    + intros a Ha. by apply elem_of_nil in Ha.
    + intros a Ha. by apply elem_of_nil in Ha.
    + constructor.
  - exists ∅. split.
    + assert (wp hm_new (zm_hmap m) (λ h (hs : hash_heap), ni_rep (hashf:=str_hash) hs h ∅)) as Hw.
      { by apply (ni_new (hashf:=str_hash)). }
      exact Hw.
    + intros k a. rewrite lookup_empty, elem_of_nil. naive_solver.
Qed.

(** * The top-level table *)

Lemma entry_eq_spec s M D N key :
  server_rep s M D N → ∀ k a, M !! k = Some a → str_hash k = str_hash key →
  entry_eq (sv_ent s) key a = Some (bool_decide (k = key)).
Proof.
  intros Hs k a Hk _. destruct (sr_ent _ _ _ _ Hs _ _ Hk) as (e & He & <-).
  unfold entry_eq. by rewrite He.
Qed.

(** The table and its nodes may change, as long as they hold the same entries. *)
Lemma server_rep_db s M D N db' h' :
  server_rep s M D N → ni_rep (hashf:=str_hash) h' db' M →
  server_rep (mkServer db' h' (sv_ent s) (sv_heap s) (sv_zmem s) (sv_tasks s)) M D N.
Proof. intros [] Hi. by split. Qed.

Lemma abs_of_ext s s' M D N :
  sv_ent s' = sv_ent s → sv_zmem s' = sv_zmem s → abs_of s' M D N = abs_of s M D N.
Proof. intros He Hz. unfold abs_of, val_of. by rewrite He, Hz. Qed.

Lemma wp_db_lookup s M D N key (Q : ptr → server → Prop) :
  server_rep s M D N →
  (∀ db' h', let s' := mkServer db' h' (sv_ent s) (sv_heap s) (sv_zmem s) (sv_tasks s) in
    server_rep s' M D N → abs_of s' M D N = abs_of s M D N → Q (M !! key) s') →
  wp (db_lookup key) s Q.
Proof.
  intros Hs HQ. unfold db_lookup. wp_step. wp_step. wp_step. apply wp_zoom.
  eapply (ni_lookup (hashf:=str_hash)); [apply Hs|by eapply entry_eq_spec|].
  intros h' db' Hi' _ _. cbn beta iota. wp_step. apply wp_put_f, wp_ret. apply HQ; [|done].
  by eapply server_rep_db.
Qed.

(** * New entries *)

Lemma ent_fresh_none s :
  sv_hash s !! ent_fresh s = None ∧ sv_ent s !! ent_fresh s = None ∧
  hs_idx (sv_heap s) !! ent_fresh s = None.
Proof.
  rewrite <- !not_elem_of_dom.
  pose proof (is_fresh (dom (sv_hash s) ∪ dom (sv_ent s) ∪ dom (hs_idx (sv_heap s)) : gset positive)) as H.
  fold (ent_fresh s) in H. set_solver.
Qed.

(** Indices outside of the heap may be added. *)
Lemma heap_rep_idx h D a x :
  heap_rep Z.gtb h D → a ∉ dom D → heap_rep Z.gtb (mkHeapState (hs_arr h) (<[a:=x]> (hs_idx h))) D.
Proof.
  intros HD Ha. pose proof HD as [Hm Hh Hag HDm]. split; [done|done| |done]. simpl.
  intros i e Hi He. destruct (Hag i e Hi He) as (b & Hb & Hbi). exists b. split; [done|].
  rewrite lookup_insert_ne; [done|]. intros ->. apply Ha, elem_of_dom.
  destruct (hr_lookup _ _ _ _ _ HD He) as (c & v & -> & Hc & _). simpl in Hb. simplify_eq. by eexists.
Qed.

Definition upd (N : positive → list positive) a (l : list positive) : positive → list positive :=
  λ b, if decide (b = a) then l else N b.

Lemma upd_eq N a l : upd N a l a = l.
Proof. unfold upd. by rewrite decide_True. Qed.

Lemma upd_ne N a l b : b ≠ a → upd N a l b = N b.
Proof. intros. unfold upd. by rewrite decide_False. Qed.
End rep.
