(* ===== verification/ServerEnt.v ===== *)
(** Entries and their deadlines: the rules of [entry_add], [entry_set_ttl],
    [entry_del] and of the tasks of the thread pool. *)
From S2P Require Import Prelude Common HashTable HashRep HashMap HashIndex.
From S2P Require Import Heap HeapProof HeapMap ZSet ZSetRep ZSetOps ZSetQuery ZSetSpec.
From S2P Require Import Buffer Numbers Server ServerSpec ServerRep.

Section ent.
Implicit Types (s : server) (M : gmap (list Byte.byte) positive) (D : gmap positive Z).
Implicit Types (N : positive → list positive) (k key : list Byte.byte) (a b : positive) (e : Entry).

(** * Abstract states *)

(** One key gets a value, which its entry holds afterwards. *)
Lemma abs_put s s' M D N N' key a v :
  D !! a = (M !! key ≫= λ b, D !! b) →
  (∀ k b, M !! k = Some b → k ≠ key → val_of s' N' b = val_of s N b) → val_of s' N' a = v →
  abs_of s' (<[key:=a]> M) D N' =
    mkA (<[key:=v]> (as_kv (abs_of s M D N))) (as_ttl (abs_of s M D N)).
Proof.
  intros Ha Hb <-. unfold abs_of. simpl. f_equal; apply map_eq; intros k.
  - rewrite lookup_fmap, !lookup_insert, lookup_fmap. case_decide as E; [done|].
    destruct (M !! k) as [b|] eqn:Hk; simpl; [|done]. f_equal. eauto.
  - rewrite !lookup_omap, lookup_insert. case_decide as E; [|done]. subst. simpl.
    rewrite Ha. by destruct (M !! k).
Qed.

(** One key and its deadline go. *)
Lemma abs_delete s s' M D N key a :
  M !! key = Some a → (∀ k b, M !! k = Some b → k ≠ key → b ≠ a) →
  (∀ k b, M !! k = Some b → k ≠ key → val_of s' N b = val_of s N b) →
  abs_of s' (delete key M) (delete a D) N = (spec_del (abs_of s M D N) key).1.
Proof.
  intros Hk Hinj Hb. unfold abs_of, spec_del. simpl. f_equal; apply map_eq; intros k.
  - rewrite lookup_fmap, !lookup_delete, lookup_fmap. case_decide as E; [done|].
    destruct (M !! k) as [b|] eqn:Hkb; simpl; [|done]. f_equal. eauto.
  - rewrite !lookup_omap, !lookup_delete, lookup_omap. case_decide as E; [done|].
    destruct (M !! k) as [b|] eqn:Hkb; simpl; [|done].
    rewrite lookup_delete_ne; [done|]. intros ->. by eapply Hinj.
Qed.

(** A live entry is the one its key leads to. *)
Lemma sr_key s M D N k k' a b :
  server_rep s M D N → M !! k = Some a → M !! k' = Some b → k' ≠ k → b ≠ a.
Proof. intros Hs Hk Hk' Hne ->. apply Hne. by eapply sr_inj. Qed.

Lemma sr_is_ent s M D N k a :
  server_rep s M D N → M !! k = Some a → ∃ e, sv_ent s !! a = Some e ∧ e_key e = k ∧ entry_ok (sv_zmem s) e (N a).
Proof.
  intros Hs Hk. destruct (sr_ent _ _ _ _ Hs _ _ Hk) as (e & He & Hek).
  exists e. split_and!; [done..|]. by eapply sr_ok.
Qed.

Lemma entry_ok_alloc m e l x : entry_ok m e l → x ∈ l → is_Some (zm_data m !! x).
Proof.
  intros [[_ ->]|[_ Hz]] Hx; [by apply elem_of_nil in Hx|].
  by apply (no_alloc _ _ (zt_nodes _ _ _ (zr_tree _ _ _ Hz))).
Qed.

Lemma entry_ok_frame X m m' e l :
  zframe X m m' → (∀ x, x ∈ l → x ∉ X) → entry_ok m e l → entry_ok m' e l.
Proof. intros Hf Hx [?|[? ?]]; [by left|right; split; [done|]]. by eapply zset_rep_frame. Qed.

Lemma val_of_frame s s' N a :
  sv_ent s' !! a = sv_ent s !! a →
  (∀ x, x ∈ N a → zm_data (sv_zmem s') !! x = zm_data (sv_zmem s) !! x) →
  val_of s' N a = val_of s N a.
Proof. intros He Hx. unfold val_of. by rewrite He, (entries_ext _ _ _ Hx). Qed.

(** * New entries *)

Lemma sr_new s M D N key a type value db' h' :
  server_rep s M D N → M !! key = None → sv_ent s !! a = None → (type = T_STR ∨ type = T_ZSET) →
  ni_rep (hashf:=str_hash) h' db' (<[key:=a]> M) →
  let s' := mkServer db' h' (<[a:=mkEntry key type value (zs_empty hm_init)]> (sv_ent s))
    (mkHeapState (hs_arr (sv_heap s)) (<[a:=no_idx]> (hs_idx (sv_heap s)))) (sv_zmem s) (sv_tasks s) in
  server_rep s' (<[key:=a]> M) D (upd N a []) ∧
  abs_of s' (<[key:=a]> M) D (upd N a []) =
    mkA (<[key:=if type =? T_STR then AStr value else AZSet []]> (as_kv (abs_of s M D N)))
      (as_ttl (abs_of s M D N)).
Proof.
  intros Hs Hkey Ha Hty Hi s'.
  assert (∀ k, M !! k ≠ Some a) as HMa.
  { intros k Hk. destruct (sr_is_ent _ _ _ _ _ _ Hs Hk) as (e & He & _). congruence. }
  assert (∀ b, is_Some (sv_ent s !! b) → b ≠ a) as Hne by (intros b [? ?]; congruence).
  assert (a ∉ dom D) as HDa by (intros [k Hk]%(sr_timer _ _ _ _ Hs); by eapply HMa).
  split; [split; simpl|].
  - done.
  - intros k b [[<- <-]|[? Hk]]%lookup_insert_Some; [eexists; by rewrite lookup_insert_eq|].
    rewrite lookup_insert_ne by (intros ->; by eapply HMa). by eapply sr_ent.
  - intros b e [[<- <-]|[? He]]%lookup_insert_Some.
    + rewrite upd_eq. destruct Hty as [->| ->]; [by left|right]. split; [done|]. apply zset_rep_init.
    + rewrite upd_ne by done. by eapply sr_ok.
  - intros b c x Hb Hc. rewrite lookup_insert_is_Some in Hb, Hc.
    destruct (decide (b = a)) as [->|]; [rewrite upd_eq; by intros ?%elem_of_nil|].
    destruct (decide (c = a)) as [->|]; [rewrite upd_eq; by intros ? ?%elem_of_nil|].
    rewrite !upd_ne by done. apply (sr_disj _ _ _ _ Hs); naive_solver.
  - apply heap_rep_idx; [apply Hs|done].
  - intros b [k Hk]%(sr_timer _ _ _ _ Hs). exists k. rewrite lookup_insert_ne; [done|]. congruence.
  - intros k b [[<- <-]|[? Hk]]%lookup_insert_Some HD; [by rewrite lookup_insert_eq|].
    rewrite lookup_insert_ne by (intros ->; by eapply HMa). by eapply (sr_idx _ _ _ _ Hs).
  - apply Hs.
  - intros b. rewrite lookup_insert_is_Some, (sr_live _ _ _ _ Hs). setoid_rewrite lookup_insert_Some. split.
    + intros [<-|[? [[k Hk]|?]]]; [left; exists key; by left| |by right].
      left. exists k. right. split; [congruence|done].
    + intros [[k [[? ?]|[? ?]]]|Hb]; [by left| |].
      * right. split; [intros ->; by eapply HMa|by left; exists k].
      * right. split; [|by right]. intros <-. apply (Hne a); [|done].
        apply (sr_live _ _ _ _ Hs). by right.
  - intros k b [[<- <-]|[? Hk]]%lookup_insert_Some; [|by eapply (sr_task _ _ _ _ Hs)].
    intros Hb. apply (Hne a); [|done]. apply (sr_live _ _ _ _ Hs). by right.
  - apply abs_put.
    + rewrite Hkey. by apply not_elem_of_dom.
    + intros k b Hk Hkk. assert (b ≠ a) by (intros ->; by eapply HMa). unfold val_of. simpl.
      by rewrite lookup_insert_ne, upd_ne.
    + unfold val_of. simpl. by rewrite lookup_insert_eq, upd_eq.
Qed.

Lemma wp_entry_add s M D N key type value (Q : ptr → server → Prop) :
  server_rep s M D N → M !! key = None → Z.of_nat (size M) < hash_max →
  (type = T_STR ∨ type = T_ZSET) →
  (∀ a s', server_rep s' (<[key:=a]> M) D (upd N a []) →
    sv_ent s' !! a = Some (mkEntry key type value (zs_empty hm_init)) →
    abs_of s' (<[key:=a]> M) D (upd N a []) =
      mkA (<[key:=if type =? T_STR then AStr value else AZSet []]> (as_kv (abs_of s M D N)))
        (as_ttl (abs_of s M D N)) → Q (Some a) s') →
  wp (entry_add type key value) s Q.
Proof.
  intros Hs Hkey Hsz Hty HQ. destruct (ent_fresh_none s) as (Hah & Hae & Hai).
  assert (∀ k, M !! k ≠ Some (ent_fresh s)) as HMa.
  { intros k Hk. destruct (sr_is_ent _ _ _ _ _ _ Hs Hk) as (e & He & _). congruence. }
  unfold entry_add, entry_new. do 2 wp_step. apply wp_hm_new_any. do 2 wp_step. cbv zeta.
  set (a := ent_fresh s) in *.
  wp_step. apply wp_put_f. wp_step. apply wp_put_f. wp_step. apply wp_put_f. wp_step.
  wp_step. eapply wp_ent_set; [apply lookup_insert_eq|]. simpl. rewrite insert_insert_eq.
  wp_step. apply wp_zoom. eapply wp_store; [apply lookup_insert_eq|]. simpl. rewrite insert_insert_eq.
  wp_step. eapply wp_ent_set; [apply lookup_insert_eq|]. simpl. rewrite insert_insert_eq.
  wp_step. unfold db_insert. do 2 wp_step. wp_step. apply wp_zoom. simpl.
  eapply (ni_insert (hashf:=str_hash) _ _ M key); [|done|done|by rewrite lookup_insert_eq|done|].
  { eapply ni_frame; [apply Hs|]. intros k b Hk. apply lookup_insert_ne. intros <-. by eapply HMa. }
  intros h' db' Hi _ _. apply wp_put_f, wp_ret. simpl.
  destruct (sr_new s M D N key a type value db' h' Hs Hkey Hae Hty Hi) as [Hs' Habs].
  apply HQ; [exact Hs'|simpl; apply lookup_insert_eq|exact Habs].
Qed.

(** * Deadlines *)

(** The deadlines after [entry_set_ttl]. *)
Definition ttl_set (now : Z) a (ttl : Z) D : gmap positive Z :=
  if ttl <? 0 then delete a D else <[a:=u64 (now + u64 ttl)]> D.

Lemma hr_index_some hp D a :
  heap_rep Z.gtb hp D → a ∈ dom D → ∃ i, hs_idx hp !! a = Some (Z.of_nat i) ∧ Z.of_nat i < heap_max.
Proof.
  intros HD [v [i Hi]%(hr_map _ _ _ HD)%list_elem_of_lookup]%elem_of_dom.
  destruct (hr_lookup _ _ _ _ _ HD Hi) as (b & w & ? & _ & Hx). simplify_eq. exists i. split; [done|].
  pose proof (lookup_lt_Some _ _ _ Hi). pose proof (hr_max _ _ _ HD). lia.
Qed.

Lemma wp_entry_set_ttl s D a now ttl (Q : unit → server → Prop) :
  heap_rep Z.gtb (sv_heap s) D → (D !! a = None → hs_idx (sv_heap s) !! a = Some no_idx) →
  Z.of_nat (S (length (hs_arr (sv_heap s)))) < heap_max →
  (∀ h, heap_rep Z.gtb h (ttl_set now a ttl D) →
    (∀ b, b ∉ dom (ttl_set now a ttl D) → hs_idx h !! b = if decide (b = a) then Some no_idx
      else hs_idx (sv_heap s) !! b) →
    Q tt (mkServer (sv_db s) (sv_hash s) (sv_ent s) h (sv_zmem s) (sv_tasks s))) →
  wp (entry_set_ttl now (Some a) ttl) s Q.
Proof.
  intros HD Hno Hmax HQ. unfold entry_set_ttl, ent_idx.
  assert (∃ x, hs_idx (sv_heap s) !! a = Some x ∧ (D !! a = None ∧ x = no_idx ∨
    is_Some (D !! a) ∧ x ≠ no_idx)) as (x & Hx & Hcase).
  { destruct (D !! a) as [v|] eqn:Ea; [|exists no_idx; auto].
    destruct (hr_index_some _ _ a HD) as (i & Hi & ?); [by apply elem_of_dom|].
    exists (Z.of_nat i). split; [done|right]. split; [done|].
    change no_idx with (2 ^ 64 - 1). unfold heap_max in *. lia. }
  wp_step. apply wp_zoom. eapply wp_ref_get; [exact Hx|]. unfold ttl_set in *.
  destruct (Z.ltb_spec ttl 0) as [Hneg|Hpos].
  - destruct Hcase as [[Ea ->]|[[v Ea] Hxn]].
    + rewrite Z.eqb_refl. cbn [andb negb]. destruct (Z.leb_spec 0 ttl); [lia|].
      apply wp_ret. simpl in *. rewrite delete_id in HQ by done.
      apply (HQ (sv_heap s)); [done|]. intros b Hb. case_decide; [subst; by auto|done].
    + apply Z.eqb_neq in Hxn. rewrite Hxn. cbn [andb negb].
      wp_step. apply wp_zoom. eapply wp_ref_get; [exact Hx|]. wp_step. apply wp_zoom.
      eapply (wp_heap_remove Z.gtb); [exact HD|exact Hx|exact Ea|]. intros h HD' [Hf Hdom].
      apply wp_zoom. apply wp_ref_set.
      { apply elem_of_dom. simpl. rewrite Hdom. apply elem_of_dom. by eexists. }
      apply HQ; [apply heap_rep_idx; [done|]; rewrite dom_delete; set_solver|].
      intros b Hb. simpl. rewrite lookup_insert. repeat case_decide; try congruence.
      rewrite dom_delete in Hb. apply Hf. set_solver.
  - cbn [andb]. destruct (Z.leb_spec 0 ttl); [|lia]. cbv zeta. apply wp_zoom.
    eapply (wp_heap_upsert Z.gtb); [exact HD|exact Hx| |done|].
    + intros Ha%not_elem_of_dom. destruct Hcase as [[_ ->]|[[? ?] _]]; [|congruence].
      cbn [fget fset s_heap sv_heap]. change no_idx with (2 ^ 64 - 1).
      unfold heap_max in *. lia.
    + intros h HD' [Hf _]. apply HQ; [done|]. intros b Hb. rewrite Hf by done.
      case_decide; [|done]. subst. rewrite dom_insert in Hb. set_solver.
Qed.

(** Changing the deadlines of a live entry. *)
Lemma sr_ttl s M D N key a h D' :
  server_rep s M D N → M !! key = Some a → heap_rep Z.gtb h D' → dom D' ⊆ {[a]} ∪ dom D →
  (∀ b, b ≠ a → D' !! b = D !! b) →
  (∀ b, b ∉ dom D' → hs_idx h !! b = if decide (b = a) then Some no_idx else hs_idx (sv_heap s) !! b) →
  let s' := mkServer (sv_db s) (sv_hash s) (sv_ent s) h (sv_zmem s) (sv_tasks s) in
  server_rep s' M D' N.
Proof.
  intros Hs Hk Hh HD' HDb Hidx s'. pose proof Hs as [Hi He Hok Hdj _ Htm Hix Hnd Hl Ht].
  split; try done.
  - intros b Hb. destruct (decide (b = a)) as [->|]; [by exists key|]. apply Htm. set_solver.
  - intros k b Hkb Hb. simpl. rewrite Hidx by by apply not_elem_of_dom.
    case_decide; [done|]. apply (Hix k); [done|]. by rewrite <- HDb.
Qed.

Lemma ttl_set_ne now a ttl D b : b ≠ a → ttl_set now a ttl D !! b = D !! b.
Proof.
  intros. unfold ttl_set. destruct (ttl <? 0); [by rewrite lookup_delete_ne|by rewrite lookup_insert_ne].
Qed.

Lemma ttl_set_dom now a ttl D : dom (ttl_set now a ttl D) ⊆ {[a]} ∪ dom D.
Proof. unfold ttl_set. destruct (ttl <? 0); rewrite ?dom_delete, ?dom_insert; set_solver. Qed.

Lemma abs_ttl s s' M D N now key a ttl :
  server_rep s M D N → M !! key = Some a → sv_ent s' = sv_ent s → sv_zmem s' = sv_zmem s →
  abs_of s' M (ttl_set now a ttl D) N = mkA (as_kv (abs_of s M D N))
    (if ttl <? 0 then delete key (as_ttl (abs_of s M D N))
     else <[key:=u64 (now + u64 ttl)]> (as_ttl (abs_of s M D N))).
Proof.
  intros Hs Hk He Hz. pose proof (abs_of_ext s s' M D N He Hz) as Habs.
  injection Habs as Hv. unfold abs_of. f_equal; [done|]. apply map_eq. intros k. simpl.
  assert (∀ b, M !! k = Some b → k ≠ key → b ≠ a) as Hne by (intros b Hkb; by eapply sr_key).
  unfold ttl_set. destruct (ttl <? 0).
  - rewrite lookup_delete, !lookup_omap. case_decide as E.
    + subst k. rewrite Hk. simpl. apply lookup_delete_eq.
    + destruct (M !! k) as [b|] eqn:Hkb; simpl; [|done]. rewrite lookup_delete_ne; [done|].
      intros ->. by eapply Hne.
  - rewrite lookup_insert, !lookup_omap. case_decide as E.
    + subst k. rewrite Hk. simpl. apply lookup_insert_eq.
    + destruct (M !! k) as [b|] eqn:Hkb; simpl; [|done]. rewrite lookup_insert_ne; [done|].
      intros ->. by eapply Hne.
Qed.

(** * Entries that leave the key space *)

(** An entry that no key leads to waits among the tasks. *)
Lemma sr_retire s M D N key a db' h' hp' :
  server_rep s M D N → M !! key = Some a → ni_rep (hashf:=str_hash) h' db' (delete key M) →
  heap_rep Z.gtb hp' (delete a D) →
  (∀ b, b ∉ dom (delete a D) → hs_idx hp' !! b = if decide (b = a) then Some no_idx
    else hs_idx (sv_heap s) !! b) →
  server_rep (mkServer db' h' (sv_ent s) hp' (sv_zmem s) (sv_tasks s ++ [a]))
    (delete key M) (delete a D) N.
Proof.
  intros Hs Hk Hi Hh Hidx. pose proof Hs as [_ He Hok Hdj _ Htm Hix Hnd Hl Ht].
  assert (∀ k b, M !! k = Some b → k ≠ key → b ≠ a) as Hne by (intros k b Hkb; by eapply sr_key).
  split; simpl; try done.
  - intros k b [_ Hkb]%lookup_delete_Some. eauto.
  - intros b. rewrite dom_delete. intros Hb. destruct (Htm b) as [k Hkb]; [set_solver|].
    exists k. rewrite lookup_delete_ne; [done|]. intros ->. simplify_eq. set_solver.
  - intros k b [Hkk Hkb]%lookup_delete_Some Hb.
    assert (b ≠ a) by eauto. rewrite Hidx by by apply not_elem_of_dom.
    rewrite decide_False by done. rewrite lookup_delete_ne in Hb by done. eauto.
  - apply NoDup_app. split_and!; [done| |apply NoDup_singleton].
    intros b Hb ->%list_elem_of_singleton. by eapply Ht.
  - intros b. rewrite Hl, elem_of_app, list_elem_of_singleton. setoid_rewrite lookup_delete_Some. split.
    + intros [[k Hkb]|?]; [|by auto]. destruct (decide (k = key)) as [->|]; [|naive_solver].
      right. right. congruence.
    + intros [(k & _ & ?)|[?| ->]]; eauto.
  - intros k b [Hkk Hkb]%lookup_delete_Some. rewrite elem_of_app, list_elem_of_singleton.
    intros [?|?]; [by eapply Ht|by eapply Hne].
Qed.

(** Deleting an entry that waits. *)
Lemma sr_free s M D N a m' tasks' :
  server_rep s M D N → sv_tasks s ≡ₚ a :: tasks' → freed (N a) (sv_zmem s) m' →
  let s' := mkServer (sv_db s) (delete a (sv_hash s)) (delete a (sv_ent s))
    (mkHeapState (hs_arr (sv_heap s)) (delete a (hs_idx (sv_heap s)))) m' tasks' in
  server_rep s' M D N ∧ abs_of s' M D N = abs_of s M D N.
Proof.
  intros Hs Hp Hf s'. pose proof Hs as [Hi He Hok Hdj Hh Htm Hix Hnd Hl Ht].
  assert (a ∈ sv_tasks s) as Ha by (rewrite Hp; left).
  assert (∀ k b, M !! k = Some b → b ≠ a) as Hne by (intros k b Hk ->; by eapply Ht).
  assert (is_Some (sv_ent s !! a)) as Hea by (apply Hl; by right).
  assert (∀ b x, is_Some (sv_ent s !! b) → b ≠ a → x ∈ N b → x ∉ N a) as Hdis.
  { intros b x Hb Hba Hx Hxa. apply Hba. by eapply Hdj. }
  assert (zframe (N a) (sv_zmem s) m') as Hzf by (destruct Hf as [[] [] []]; by split).
  assert (∀ b, b ∈ tasks' → b ≠ a ∧ b ∈ sv_tasks s) as Htask.
  { intros b Hb. rewrite Hp in Hnd |- *. apply NoDup_cons in Hnd as [Hna _]. split; [congruence|by right]. }
  split; [split; cbn [s' sv_db sv_hash sv_ent sv_heap sv_zmem sv_tasks hs_arr hs_idx]; try done|].
  - eapply (ni_frame (hashf:=str_hash)); [exact Hi|]. intros k b Hk. rewrite lookup_delete_ne; [done|]. intros <-. by eapply Hne.
  - intros k b Hk. rewrite lookup_delete_ne; [eauto|]. intros <-. by eapply Hne.
  - intros b e [Hba Hb]%lookup_delete_Some. eapply entry_ok_frame; [exact Hzf| |by eapply Hok].
    intros x Hx. eapply Hdis; [by eexists|done|done].
  - intros b c x. rewrite !lookup_delete_is_Some. intros [_ ?] [_ ?]. by apply Hdj.
  - destruct Hh as [Hm Hhp Hag Hmap]. split; simpl; [done|done| |done].
    intros i e Hlt Hie. destruct (Hag i e Hlt Hie) as (b & Hb & Hbi). exists b. split; [done|].
    rewrite lookup_delete_ne; [done|]. intros <-. destruct e as [r v]. simpl in Hb. subst r.
    destruct (Htm a) as [k Hk]; [|by eapply Hne].
    apply elem_of_dom. exists v. apply Hmap. by eapply list_elem_of_lookup_2.
  - intros k b Hk Hb. rewrite lookup_delete_ne; [eauto|]. intros <-. by eapply Hne.
  - rewrite Hp in Hnd. by apply NoDup_cons in Hnd as [_ ?].
  - intros b. rewrite lookup_delete_is_Some, Hl. split.
    + intros [Hba [?|Hb]]; [by left|right]. rewrite Hp in Hb. apply elem_of_cons in Hb as [?|?]; [congruence|done].
    + intros [[k Hk]|[? ?]%Htask]; [|naive_solver]. split; [|by left; exists k]. intros <-. by eapply Hne.
  - intros k b Hk [_ ?]%Htask. by eapply Ht.
  - unfold abs_of. f_equal. apply map_eq. intros k. rewrite !lookup_fmap.
    destruct (M !! k) as [b|] eqn:Hk; simpl; [|done]. f_equal.
    destruct (He k b Hk) as (e & Heb & _).
    apply val_of_frame; simpl; [rewrite lookup_delete_ne; [done|]; intros <-; by eapply Hne|].
    intros x Hx. apply (zf_data _ _ _ Hzf). eapply Hdis; [by eexists|by eapply Hne|done].
Qed.

Lemma freed_nil m : freed [] m m.
Proof. split; (split; [done|]); intros b Hb; by apply elem_of_nil in Hb. Qed.

Lemma wp_entry_del_sync s a e l (Q : unit → server → Prop) :
  sv_ent s !! a = Some e → entry_ok (sv_zmem s) e l →
  (∀ m', freed l (sv_zmem s) m' →
    Q tt (mkServer (sv_db s) (delete a (sv_hash s)) (delete a (sv_ent s))
      (mkHeapState (hs_arr (sv_heap s)) (delete a (hs_idx (sv_heap s)))) m' (sv_tasks s))) →
  wp (entry_del_sync (Some a)) s Q.
Proof.
  intros He Hok HQ. unfold entry_del_sync. wp_step. eapply wp_ent_get; [exact He|].
  change (fget f_type e) with (e_type e).
  destruct Hok as [[-> ->]|[-> Hz]]; wp_step.
  - change (T_STR =? T_ZSET) with false. cbv iota. apply wp_ret. unfold wp, entry_free. rewrite He. apply HQ, freed_nil.
  - change (T_ZSET =? T_ZSET) with true. cbv iota.
    wp_step. eapply wp_ent_get; [exact He|]. wp_step. apply wp_zoom.
    eapply wp_zset_clear; [apply Hz|]. intros m' Hf. eapply wp_ent_set; [exact He|].
    unfold wp, entry_free. simpl. rewrite lookup_insert_eq, delete_insert_eq. by apply HQ.
Qed.

Lemma wp_db_remove s M D N key eq (Q : ptr → server → Prop) :
  server_rep s M D N →
  (∀ k a, M !! k = Some a → str_hash k = str_hash key → eq a = Some (bool_decide (k = key))) →
  (∀ db' h', ni_rep (hashf:=str_hash) h' db' (delete key M) →
    Q (M !! key) (mkServer db' h' (sv_ent s) (sv_heap s) (sv_zmem s) (sv_tasks s))) →
  wp (db_remove (str_hash key) eq) s Q.
Proof.
  intros Hs Heq HQ. unfold db_remove. do 3 wp_step. apply wp_zoom.
  eapply (ni_remove (hashf:=str_hash)); [apply Hs|exact Heq|].
  intros h' db' Hi' _ _. cbn beta iota. wp_step. by apply wp_put_f, wp_ret, HQ.
Qed.

(** [entry_del] of an entry that has left the hashtable. *)
Lemma wp_entry_del s M D N key a db' h' (Q : unit → server → Prop) :
  server_rep s M D N → M !! key = Some a → ni_rep (hashf:=str_hash) h' db' (delete key M) →
  Z.of_nat (size M) < hash_max →
  (∀ s', server_rep s' (delete key M) (delete a D) N →
    abs_of s' (delete key M) (delete a D) N = (spec_del (abs_of s M D N) key).1 → Q tt s') →
  wp (entry_del (Some a)) (mkServer db' h' (sv_ent s) (sv_heap s) (sv_zmem s) (sv_tasks s)) Q.
Proof.
  intros Hs Hk Hi Hsz HQ. destruct (sr_is_ent _ _ _ _ _ _ Hs Hk) as (e & He & Hek & Hok).
  pose proof (sr_heap_length _ _ _ _ Hs) as Hlen. unfold entry_del. wp_step.
  apply (wp_entry_set_ttl _ D); [apply Hs|by eapply (sr_idx _ _ _ _ Hs)|simpl; unfold hash_max, heap_max in *; lia|].
  intros hp' Hh Hidx. simpl. change (ttl_set 0 a (-1) D) with (delete a D) in *.
  pose proof (sr_retire s M D N key a db' h' hp' Hs Hk Hi Hh Hidx) as Hs1.
  set (s1 := mkServer _ _ _ _ _ (sv_tasks s ++ [a])) in *.
  assert (abs_of s1 (delete key M) (delete a D) N = (spec_del (abs_of s M D N) key).1) as Habs.
  { apply abs_delete; [done| |done]. intros k b Hkb Hne. by eapply (sr_key s M D N key k a b). }
  wp_step. eapply wp_ent_get; [exact He|]. change (fget f_type e) with (e_type e).
  assert (∀ m', freed (N a) (sv_zmem s) m' →
    Q tt (mkServer db' (delete a h') (delete a (sv_ent s))
      (mkHeapState (hs_arr hp') (delete a (hs_idx hp'))) m' (sv_tasks s))) as Hfree.
  { intros m' Hf.
    assert (sv_tasks s ++ [a] ≡ₚ a :: sv_tasks s) as Hp by (symmetry; apply Permutation_cons_append).
    destruct (sr_free s1 _ _ _ a m' (sv_tasks s) Hs1 Hp Hf) as [Hs2 Habs2].
    apply HQ; [exact Hs2|]. rewrite <- Habs. exact Habs2. }
  assert (∀ n : Z, wp (if k_large_container_size <? n
      then tasks ← get_f s_tasks; put_f s_tasks (tasks ++ [a]) else entry_del_sync (Some a))
    (mkServer db' h' (sv_ent s) hp' (sv_zmem s) (sv_tasks s)) Q) as Hend.
  { intros n. destruct (k_large_container_size <? n); [by apply HQ|].
    eapply wp_entry_del_sync; [exact He|exact Hok|]. exact Hfree. }
  wp_step. destruct (e_type e =? T_ZSET).
  - wp_step. eapply wp_ent_get; [exact He|]. apply wp_ret, Hend.
  - apply wp_ret, Hend.
Qed.

(** A task of the thread pool does not change what a client sees. *)
Lemma wp_run_task s M D N i (Q : unit → server → Prop) :
  server_rep s M D N →
  (∀ s', server_rep s' M D N → abs_of s' M D N = abs_of s M D N →
    sv_tasks s' = delete i (sv_tasks s) → Q tt s') →
  wp (run_task i) s Q.
Proof.
  intros Hs HQ. unfold run_task. wp_step. apply wp_get_f. change (fget s_tasks s) with (sv_tasks s).
  destruct (sv_tasks s !! i) as [a|] eqn:Et.
  2:{ apply wp_ret, HQ; [done..|]. apply lookup_ge_None in Et. by rewrite delete_take_drop, take_ge, drop_ge, app_nil_r by lia. }
  - wp_step. apply wp_put_f.
    assert (is_Some (sv_ent s !! a)) as [e He].
    { apply (sr_live _ _ _ _ Hs). right. by eapply list_elem_of_lookup_2. }
    eapply wp_entry_del_sync; [exact He|by eapply (sr_ok _ _ _ _ Hs)|]. intros m' Hf. simpl.
    destruct (sr_free s M D N a m' (delete i (sv_tasks s)) Hs) as [Hs' Habs]; [by apply delete_Permutation|done|].
    by apply HQ.
Qed.

(** * The sorted set of an entry *)

Lemma sr_zset s M D N key a e z' m' l' X :
  server_rep s M D N → M !! key = Some a → sv_ent s !! a = Some e → e_type e = T_ZSET →
  zset_rep m' z' l' → zframe X (sv_zmem s) m' →
  (∀ x, x ∈ X → x ∈ N a ∨ zm_data (sv_zmem s) !! x = None) → (∀ x, x ∈ l' → x ∈ X) →
  let s' := mkServer (sv_db s) (sv_hash s) (<[a:=fset f_zset z' e]> (sv_ent s)) (sv_heap s) m' (sv_tasks s) in
  server_rep s' M D (upd N a l') ∧
  abs_of s' M D (upd N a l') =
    mkA (<[key:=AZSet (entries m' l')]> (as_kv (abs_of s M D N))) (as_ttl (abs_of s M D N)).
Proof.
  intros Hs Hk He Hty Hz Hf HX Hl' s'. pose proof Hs as [Hi Hent Hok Hdj Hh Htm Hix Hnd Hl Ht].
  assert (∀ b x, is_Some (sv_ent s !! b) → b ≠ a → x ∈ N b → x ∉ X) as Hdis.
  { intros b x Hb Hba Hx [Hxa|Hnone]%HX.
    - apply Hba. by eapply Hdj; [|by eexists|..].
    - destruct Hb as [eb Hb]. destruct (entry_ok_alloc _ _ _ x (Hok _ _ Hb) Hx). congruence. }
  split; [split; cbn [s' sv_db sv_hash sv_ent sv_heap sv_zmem sv_tasks]; try done|].
  - intros k b Hkb. destruct (decide (b = a)) as [->|].
    + exists (fset f_zset z' e). rewrite lookup_insert_eq. split; [done|]. simpl.
      destruct (Hent _ _ Hkb) as (e' & ? & <-). congruence.
    + rewrite lookup_insert_ne by done. eauto.
  - intros b eb [[<- <-]|[? Hb]]%lookup_insert_Some.
    + rewrite upd_eq. right. done.
    + rewrite upd_ne by done. eapply entry_ok_frame; [exact Hf| |by eapply Hok].
      intros x Hx. eapply Hdis; [by eexists|done|done].
  - assert (∀ b, is_Some (<[a:=fset f_zset z' e]> (sv_ent s) !! b) → is_Some (sv_ent s !! b)) as Hsome.
    { intros b. rewrite lookup_insert_is_Some. intros [<-|[_ ?]]; [by eexists|done]. }
    intros b c x Hb%Hsome Hc%Hsome.
    destruct (decide (b = a)) as [->|]; destruct (decide (c = a)) as [->|];
      rewrite ?upd_eq, ?upd_ne by done; [done|..].
    + intros Hx Hxc. by destruct (Hdis c x Hc ltac:(done) Hxc (Hl' x Hx)).
    + intros Hxb Hx. by destruct (Hdis b x Hb ltac:(done) Hxb (Hl' x Hx)).
    + by apply Hdj.
  - intros b. rewrite lookup_insert_is_Some, <- Hl. split.
    + intros [<-|[_ ?]]; [by eexists|done].
    + intros Hb. destruct (decide (a = b)); [by left|by right].
  - rewrite <- (insert_id M key a) at 1 by done. apply abs_put.
    + by rewrite Hk.
    + intros k b Hkb Hkk. assert (b ≠ a) by by eapply sr_key. unfold val_of. simpl.
      rewrite lookup_insert_ne, upd_ne by done. rewrite (entries_ext (sv_zmem s)); [done|].
      intros x Hx. apply (zf_data _ _ _ Hf). destruct (Hent _ _ Hkb) as (eb & ? & _).
      eapply Hdis; [by eexists|done|done].
    + unfold val_of. simpl. rewrite lookup_insert_eq, upd_eq. simpl. by rewrite Hty.
Qed.

(** A new string in an entry. *)
Lemma sr_str s M D N key a e v :
  server_rep s M D N → M !! key = Some a → sv_ent s !! a = Some e → e_type e = T_STR →
  let s' := mkServer (sv_db s) (sv_hash s) (<[a:=fset f_str v e]> (sv_ent s)) (sv_heap s)
    (sv_zmem s) (sv_tasks s) in
  server_rep s' M D N ∧
  abs_of s' M D N = mkA (<[key:=AStr v]> (as_kv (abs_of s M D N))) (as_ttl (abs_of s M D N)).
Proof.
  intros Hs Hk He Hty s'. pose proof Hs as [Hi Hent Hok Hdj Hh Htm Hix Hnd Hl Ht].
  assert (∀ b, is_Some (<[a:=fset f_str v e]> (sv_ent s) !! b) ↔ is_Some (sv_ent s !! b)) as Hsome.
  { intros b. rewrite lookup_insert_is_Some. split; [intros [<-|[_ ?]]; [by eexists|done]|].
    intros Hb. destruct (decide (a = b)); [by left|by right]. }
  split; [split; cbn [s' sv_db sv_hash sv_ent sv_heap sv_zmem sv_tasks]; try done|].
  - intros k b Hkb. destruct (decide (b = a)) as [->|].
    + exists (fset f_str v e). rewrite lookup_insert_eq. split; [done|]. simpl.
      destruct (Hent _ _ Hkb) as (e' & ? & <-). congruence.
    + rewrite lookup_insert_ne by done. eauto.
  - intros b eb [[<- <-]|[? Hb]]%lookup_insert_Some; [|by eapply Hok].
    destruct (Hok _ _ He) as [?|[E _]]; [by left|]. by rewrite Hty in E.
  - intros b c x. rewrite !Hsome. apply Hdj.
  - intros b. by rewrite Hsome.
  - rewrite <- (insert_id M key a) at 1 by done. apply abs_put.
    + by rewrite Hk.
    + intros k b Hkb Hkk. assert (b ≠ a) by by eapply sr_key. unfold val_of. simpl.
      by rewrite lookup_insert_ne.
    + unfold val_of. simpl. rewrite lookup_insert_eq. simpl. by rewrite Hty.
Qed.
End ent.
