(* ===== verification/ServerCmd.v ===== *)
(** The rules of the commands: each [do_*] of server/main.cc appends the encoded reply
    of its specification, and the state it leaves stands for the specified one. *)
From S2P Require Import Prelude Common AvlRep HashTable HashRep HashMap HashIndex.
From S2P Require Import Heap HeapProof HeapMap ZSet ZSetRep ZSetOps ZSetQuery ZSetSpec.
From S2P Require Import Buffer Numbers Server ServerSpec ServerRep ServerEnt.

(** [m], run from [s] with the reply buffer [out], replies [v] and leaves [A]. *)
Definition replies (m : M server (list Byte.byte)) (s : server) (out : list Byte.byte)
    (A : astate) (v : value) : Prop :=
  wp m s (λ out' s', out' = out ++ encode v ∧ server_abs s' A).

(** There is room for one more key, and one more tuple in every set. *)
Record has_room (A : astate) : Prop := {
  room_keys : Z.of_nat (size (as_kv A)) < hash_max;
  room_sets : ∀ k ds, as_kv A !! k = Some (AZSet ds) → Z.of_nat (length ds) < cnt_max;
}.

(** Decides the test of a type field that is known. *)
Ltac type_test Ht :=
  change (fget f_type ?e) with (e_type e); rewrite Ht;
  repeat change (T_STR =? T_STR) with true; repeat change (T_ZSET =? T_ZSET) with true;
  repeat change (T_ZSET =? T_STR) with false; repeat change (T_STR =? T_ZSET) with false;
  cbn [negb]; cbv iota.

Section cmd.
Implicit Types (s : server) (M : gmap (list Byte.byte) positive) (D : gmap positive Z).
Implicit Types (N : positive → list positive) (k key name out : list Byte.byte).
Implicit Types (a b : positive) (e : Entry) (A : astate) (cmd : list (list Byte.byte)).

(** * What a key leads to *)

Inductive key_view s M N key (kv : gmap (list Byte.byte) aval) : ptr → Prop :=
| kv_none : M !! key = None → kv !! key = None → key_view s M N key kv None
| kv_str a e : M !! key = Some a → sv_ent s !! a = Some e → e_type e = T_STR →
    kv !! key = Some (AStr (e_str e)) → key_view s M N key kv (Some a)
| kv_zset a e : M !! key = Some a → sv_ent s !! a = Some e → e_type e = T_ZSET →
    zset_rep (sv_zmem s) (e_zset e) (N a) →
    kv !! key = Some (AZSet (entries (sv_zmem s) (N a))) → key_view s M N key kv (Some a).

Lemma view_key s M D N key :
  server_rep s M D N → key_view s M N key (as_kv (abs_of s M D N)) (M !! key).
Proof.
  intros Hs. destruct (M !! key) as [a|] eqn:Hk.
  - destruct (sr_is_ent _ _ _ _ _ _ Hs Hk) as (e & He & _ & Hok).
    assert (∀ v, val_of s N a = v → as_kv (abs_of s M D N) !! key = Some v) as Hv.
    { intros v <-. simpl. by rewrite lookup_fmap, Hk. }
    unfold val_of in Hv. rewrite He in Hv.
    destruct Hok as [[Ht _]|[Ht Hz]]; [eapply kv_str|eapply kv_zset]; try done; apply Hv; by rewrite Ht.
  - apply kv_none; [done|]. simpl. by rewrite lookup_fmap, Hk.
Qed.

Lemma abs_ttl_lookup s M D N key a :
  M !! key = Some a → as_ttl (abs_of s M D N) !! key = D !! a.
Proof. intros Hk. simpl. by rewrite lookup_omap, Hk. Qed.

Lemma size_kv s M D N : size (as_kv (abs_of s M D N)) = size M.
Proof. apply map_size_fmap. Qed.

Lemma astate_eta A : mkA (as_kv A) (as_ttl A) = A.
Proof. by destruct A. Qed.

(** The lookup of the key of a command. *)
Lemma wp_lookup_view s A key (Q : ptr → server → Prop) :
  server_abs s A →
  (∀ s' M D N r, server_rep s' M D N → A = abs_of s' M D N →
    key_view s' M N key (as_kv A) r → Q r s') →
  wp (db_lookup key) s Q.
Proof.
  intros (M & D & N & Hs & ->) HQ. eapply wp_db_lookup; [exact Hs|].
  intros db' h' s' Hs' Habs. clearbody s'. rewrite <- Habs in HQ.
  eapply HQ; [exact Hs'|done|]. by eapply view_key.
Qed.

Lemma server_abs_intro s M D N A : server_rep s M D N → abs_of s M D N = A → server_abs s A.
Proof. intros Hs <-. by exists M, D, N. Qed.

Lemma replies_err c m s out A : server_abs s A →
  replies (mret (write_frame_err out c m)) s out A (VErr c m).
Proof. intros Hs. apply wp_ret. split; [apply write_frame_err_encode|done]. Qed.

Lemma replies_nil s out A : server_abs s A → replies (mret (write_frame_nil out)) s out A VNil.
Proof. intros Hs. apply wp_ret. split; [apply write_frame_nil_encode|done]. Qed.

Lemma replies_str v s out A : server_abs s A →
  replies (mret (write_frame_str out v)) s out A (VStr v).
Proof. intros Hs. apply wp_ret. split; [apply write_frame_str_encode|done]. Qed.

Lemma replies_int z s out A : server_abs s A →
  replies (mret (write_frame_int out z)) s out A (VInt z).
Proof. intros Hs. apply wp_ret. split; [apply write_frame_int_encode|done]. Qed.

Lemma replies_dbl z s out A : server_abs s A →
  replies (mret (write_frame_dbl out z)) s out A (VDbl z).
Proof. intros Hs. apply wp_ret. split; [apply write_frame_dbl_encode|done]. Qed.

Lemma replies_bool (x : bool) s out A : server_abs s A →
  replies (mret (write_bool out x)) s out A (VBool x).
Proof. apply replies_int. Qed.

(** * Strings *)

Lemma do_get_replies s A cmd key out :
  server_abs s A → cmd !! 1%nat = Some key → replies (do_get cmd out) s out A (spec_get A key).
Proof.
  intros Hs Hk. unfold replies, do_get. wp_step. eapply wp_arg; [exact Hk|].
  wp_step. eapply wp_lookup_view; [exact Hs|]. intros s' M D N r Hs' HA Hv.
  assert (server_abs s' A) as Hs2 by by eapply server_abs_intro.
  unfold spec_get. destruct Hv as [_ ->|a e Hka He Ht ->|a e Hka He Ht Hz ->].
  - by apply replies_nil.
  - cbv iota. wp_step. eapply wp_ent_get; [exact He|]. type_test Ht. wp_step. eapply wp_ent_get; [exact He|]. by apply replies_str.
  - cbv iota. wp_step. eapply wp_ent_get; [exact He|]. type_test Ht.
    by apply replies_err.
Qed.

Lemma do_set_replies s A cmd key v out :
  server_abs s A → cmd !! 1%nat = Some key → cmd !! 2%nat = Some v →
  Z.of_nat (size (as_kv A)) < hash_max →
  replies (do_set cmd out) s out (spec_set A key v).1 (spec_set A key v).2.
Proof.
  intros Hs Hk Hv Hroom. unfold replies, do_set. wp_step. eapply wp_arg; [exact Hk|].
  wp_step. eapply wp_lookup_view; [exact Hs|]. intros s' M D N r Hs' HA Hview.
  wp_step. eapply wp_arg; [exact Hv|].
  unfold spec_set. destruct Hview as [Hka ->|a e Hka He Ht ->|a e Hka He Ht Hz ->].
  - rewrite HA, size_kv in Hroom. cbv iota. wp_step. eapply wp_entry_add; [done..|by left|].
    intros a s2 Hs2 _ Habs. apply replies_nil. eapply server_abs_intro; [exact Hs2|].
    by rewrite HA.
  - cbv iota. wp_step. eapply wp_ent_get; [exact He|]. type_test Ht. wp_step. eapply wp_ent_set; [exact He|]. apply replies_nil.
    destruct (sr_str _ _ _ _ _ _ _ v Hs' Hka He Ht) as [Hs2 Habs].
    eapply server_abs_intro; [exact Hs2|]. by rewrite HA.
  - cbv iota. wp_step. eapply wp_ent_get; [exact He|]. type_test Ht.
    apply replies_err. by eapply server_abs_intro.
Qed.

Lemma do_del_replies s A cmd key out :
  server_abs s A → cmd !! 1%nat = Some key → Z.of_nat (size (as_kv A)) < hash_max →
  replies (do_del cmd out) s out (spec_del A key).1 (spec_del A key).2.
Proof.
  intros (M & D & N & Hs & ->) Hk Hroom. rewrite size_kv in Hroom. unfold replies, do_del.
  wp_step. eapply wp_arg; [exact Hk|]. do 2 wp_step. wp_step.
  eapply wp_db_remove; [exact Hs|by eapply entry_eq_spec|]. intros db' h' Hi.
  destruct (view_key s M D N key Hs) as [Hka E|a e Hka He Ht E|a e Hka He Ht Hz E].
  - wp_step. apply wp_ret. unfold spec_del. cbn [fst snd]. rewrite E.
    apply replies_bool. rewrite !delete_id; [|simpl; by rewrite lookup_omap, Hka|done].
    rewrite delete_id in Hi by done.
    eapply server_abs_intro; [by eapply server_rep_db|]. by rewrite astate_eta.
  - wp_step. eapply wp_entry_del; [done..|]. intros s' Hs' Habs. unfold spec_del. cbn [snd].
    rewrite E. apply replies_bool.
    eapply server_abs_intro; [exact Hs'|done].
  - wp_step. eapply wp_entry_del; [done..|]. intros s' Hs' Habs. unfold spec_del. cbn [snd].
    rewrite E. apply replies_bool.
    eapply server_abs_intro; [exact Hs'|done].
Qed.
(** * Deadlines *)

Lemma do_expire_replies s A cmd now key x out :
  server_abs s A → cmd !! 1%nat = Some key → cmd !! 2%nat = Some x →
  Z.of_nat (size (as_kv A)) < hash_max →
  replies (do_expire now cmd out) s out (spec_expire now A key (str2int x)).1
    (spec_expire now A key (str2int x)).2.
Proof.
  intros Hs Hk Hx Hroom. unfold replies, do_expire. wp_step. eapply wp_arg; [exact Hx|].
  unfold spec_expire. destruct (str2int x) as [t|]; [|by apply replies_err].
  wp_step. eapply wp_arg; [exact Hk|].
  wp_step. eapply wp_lookup_view; [exact Hs|]. intros s' M D N r Hs' HA Hview.
  assert (∀ a v, M !! key = Some a → as_kv A !! key = Some v →
    wp (entry_set_ttl now (Some a) t;; mret (write_bool out (bool_decide (Some a ≠ None)))) s'
      (λ out' s1, out' = out ++ encode (VBool true) ∧ server_abs s1
        (mkA (as_kv A) (if t <? 0 then delete key (as_ttl A) else <[key:=u64 (now + t)]> (as_ttl A)))))
    as Hset.
  { intros a v Hka _. wp_step. rewrite HA, size_kv in Hroom.
    pose proof (sr_heap_length _ _ _ _ Hs') as Hlen.
    apply (wp_entry_set_ttl _ D); [apply Hs'|by eapply (sr_idx _ _ _ _ Hs')|unfold hash_max, heap_max in *; lia|].
    intros h Hh Hidx. apply replies_bool. eapply server_abs_intro.
    - eapply sr_ttl; [exact Hs'|exact Hka|exact Hh|apply ttl_set_dom| |exact Hidx].
      intros b Hb. by apply ttl_set_ne.
    - erewrite abs_ttl; [|exact Hs'|exact Hka|done|done]. subst A. f_equal.
      destruct (t <? 0); [done|]. f_equal. unfold u64. by rewrite Zplus_mod_idemp_r. }
  destruct Hview as [Hka E|a e Hka He Ht E|a e Hka He Ht Hz E].
  - wp_step. apply wp_ret. rewrite E. apply replies_bool. by eapply server_abs_intro.
  - rewrite E. by eapply Hset.
  - rewrite E. by eapply Hset.
Qed.

Lemma do_ttl_replies s A cmd now key out :
  server_abs s A → cmd !! 1%nat = Some key →
  replies (do_ttl now cmd out) s out A (spec_ttl now A key).
Proof.
  intros Hs Hk. unfold replies, do_ttl. wp_step. eapply wp_arg; [exact Hk|].
  wp_step. eapply wp_lookup_view; [exact Hs|]. intros s' M D N r Hs' HA Hview.
  assert (server_abs s' A) as Hs2 by by eapply server_abs_intro.
  assert (∀ a, M !! key = Some a →
    wp (idx ← ent_idx (Some a);
        if idx =? no_idx then mret (write_frame_int out (-1))
        else item ← zoom s_heap (h_get idx);
          mret (write_frame_int out (i64 (if now <? he_val item then u64 (he_val item - now) else 0)))) s'
      (λ out' s1, out' = out ++ encode (match as_ttl A !! key with
         | None => VInt (-1)
         | Some t => VInt (i64 (if now <? t then u64 (t - now) else 0))
         end) ∧ server_abs s1 A)) as Hget.
  { intros a Hka. rewrite HA, (abs_ttl_lookup _ _ _ _ _ a), <- HA by done.
    wp_step. unfold ent_idx. apply wp_zoom.
    destruct (D !! a) as [t|] eqn:HD.
    - destruct (hr_index_some (sv_heap s') D a) as (i & Hi & Him); [apply Hs'|by apply elem_of_dom|].
      eapply wp_ref_get; [exact Hi|].
      destruct (Z.eqb_spec (Z.of_nat i) no_idx) as [Hno|_].
      { change no_idx with (2 ^ 64 - 1) in Hno. unfold heap_max in Him. lia. }
      wp_step. apply wp_zoom.
      destruct (hr_find _ _ _ _ _ _ (sr_heap _ _ _ _ Hs') HD Hi) as (j & Ej & Hj).
      apply Nat2Z.inj in Ej as <-. eapply wp_h_get; [exact Hj|]. apply replies_int. by destruct s'.
    - eapply wp_ref_get; [by eapply (sr_idx _ _ _ _ Hs')|]. rewrite Z.eqb_refl.
      apply replies_int. by destruct s'. }
  unfold spec_ttl. destruct Hview as [Hka E|a e Hka He Ht E|a e Hka He Ht Hz E]; rewrite E.
  - by apply replies_int.
  - by apply Hget.
  - by apply Hget.
Qed.

(** * [KEYS] *)

Lemma keys_writes (f : positive → list Byte.byte) l out :
  foldl (flip (λ a o, write_frame_str o (f a))) out l = out ++ concat (encode <$> (VStr <$> (f <$> l))).
Proof.
  revert out. induction l as [|a l IH]; intros out; simpl; [by rewrite app_nil_r|].
  by rewrite IH, write_frame_str_encode, <- app_assoc.
Qed.

Lemma map_to_list_fst {V W : Type} (m : gmap (list Byte.byte) V) (f : V → W) :
  (map_to_list (f <$> m)).*1 ≡ₚ (map_to_list m).*1.
Proof.
  rewrite map_to_list_fmap, <- list_fmap_compose. done.
Qed.

Lemma do_keys_replies s A cmd out :
  server_abs s A →
  ∃ ks, ks ≡ₚ (map_to_list (as_kv A)).*1 ∧ replies (do_keys cmd out) s out A (VArr (VStr <$> ks)).
Proof.
  intros (M & D & N & Hs & ->).
  set (name := λ a, match sv_ent s !! a with Some e => e_key e | None => [] end).
  assert (wp (do_keys cmd out) s (λ out' s', s' = s ∧ ∃ l, l ≡ₚ (map_to_list M).*2 ∧
    out' = out ++ encode (VArr (VStr <$> (name <$> l))))) as Hw.
  { unfold do_keys. do 2 wp_step. cbv zeta. apply wp_zoom.
    eapply (ni_foreach (hashf:=str_hash) _ _ M _ (λ a o, write_frame_str o (name a)));
      [apply Hs| |].
    - intros k a x Hk. destruct (sr_ent _ _ _ _ Hs _ _ Hk) as (e & He & _).
      unfold cb_keys, name. by rewrite He.
    - intros l Hl. split; [by destruct s|]. exists l. split; [done|].
      rewrite (ni_size (hashf:=str_hash) _ _ M) by apply Hs. rewrite keys_writes.
      unfold write_frame_array, buf_write_u8, buf_write_u32, buf_write. cbn [encode].
      assert (length (VStr <$> (name <$> l)) = size M) as ->.
      { by rewrite !length_fmap, Hl, length_fmap, length_map_to_list. }
      by rewrite !le_bytes_u32, <- !app_assoc. }
  apply wp_run in Hw as (out' & s' & E & -> & l & Hl & ->). exists (name <$> l). split.
  - simpl. rewrite map_to_list_fst, Hl, <- list_fmap_compose.
    apply Permutation_refl'. apply list_fmap_ext.
    intros i [k a] Hi%list_elem_of_lookup_2%elem_of_map_to_list. simpl.
    destruct (sr_ent _ _ _ _ Hs _ _ Hi) as (e & He & <-). unfold name. by rewrite He.
  - eapply wp_eq; [exact E|]. split; [done|]. by eapply server_abs_intro.
Qed.
End cmd.
