(* ===== verification/ServerZset.v ===== *)
(** The rules of the sorted-set commands of server/main.cc. *)
From S2P Require Import Prelude Common AvlRep HashTable HashRep HashMap HashIndex.
From S2P Require Import Heap HeapProof HeapMap ZSet ZSetRep ZSetOps ZSetQuery ZSetSpec.
From S2P Require Import Buffer Numbers Server ServerSpec ServerRep ServerEnt ServerCmd.

Section zset.
Implicit Types (s : server) (M : gmap (list Byte.byte) positive) (D : gmap positive Z).
Implicit Types (N : positive → list positive) (k key name out : list Byte.byte).
Implicit Types (a b : positive) (e : Entry) (A : astate) (cmd : list (list Byte.byte)).
Context (strtod : list Byte.byte → Z * nat).

Lemma str2dbl_num x d : str2dbl strtod x = Some d → dbl_nan d = false.
Proof.
  unfold str2dbl. destruct (strtod x) as [v n]. destruct (_ && _) eqn:E; [|done].
  intros [= ->]. apply andb_true_iff in E as [_ E]. by apply negb_true_iff in E.
Qed.

(** * [do_zadd] *)

(** Adding a tuple to the set of an entry. *)
Lemma zadd_entry s M D N key a e name score out :
  server_rep s M D N → M !! key = Some a → sv_ent s !! a = Some e → e_type e = T_ZSET →
  zset_rep (sv_zmem s) (e_zset e) (N a) → dbl_nan score = false →
  Z.of_nat (length (N a)) < cnt_max →
  let r := spec_insert name score (entries (sv_zmem s) (N a)) in
  replies (z ← ent_get f_zset (Some a);
           '(added, z) ← zoom s_zmem (zset_insert z name score);
           ent_set f_zset (Some a) z;;
           mret (write_bool out added)) s out
    (mkA (<[key:=AZSet r.2]> (as_kv (abs_of s M D N))) (as_ttl (abs_of s M D N))) (VBool r.1).
Proof.
  intros Hs Hk He Ht Hz Hn Hroom r. unfold replies.
  wp_step. eapply wp_ent_get; [exact He|]. wp_step. apply wp_zoom.
  eapply wp_zset_insert; [exact Hz|done|done|].
  change (fget s_zmem s) with (sv_zmem s).
  intros m' z' l' Hz' Hent [Hg1 Hg2] Hf. cbn beta iota. wp_step.
  eapply wp_ent_set; [exact He|]. apply replies_bool.
  destruct (sr_zset s M D N key a e z' m' l' l' Hs Hk He Ht Hz' Hf) as [Hs' Habs].
  - intros x [?|(_ & _ & ?)]%Hg2; [by left|by right].
  - done.
  - eapply server_abs_intro; [exact Hs'|]. unfold r. rewrite <- Hent. exact Habs.
Qed.

Lemma do_zadd_replies s A cmd key x name out :
  server_abs s A → has_room A →
  cmd !! 1%nat = Some key → cmd !! 2%nat = Some x → cmd !! 3%nat = Some name →
  replies (do_zadd strtod cmd out) s out (spec_zadd A key (str2dbl strtod x) name).1
    (spec_zadd A key (str2dbl strtod x) name).2.
Proof.
  intros Hs [Hroom Hsets] Hk Hx Hname. unfold replies, do_zadd. wp_step. eapply wp_arg; [exact Hx|].
  unfold spec_zadd. destruct (str2dbl strtod x) as [score|] eqn:Hd; [|by apply replies_err].
  apply str2dbl_num in Hd.
  wp_step. eapply wp_arg; [exact Hk|].
  wp_step. eapply wp_lookup_view; [exact Hs|]. intros s' M D N r Hs' HA Hview.
  wp_step. eapply wp_arg; [exact Hname|]. unfold spec_zset.
  destruct Hview as [Hka E|a e Hka He Ht E|a e Hka He Ht Hz E]; rewrite E; cbv iota; wp_step.
  - rewrite HA, size_kv in Hroom. wp_step. eapply wp_entry_add; [done..|by right|].
    intros a s2 Hs2 He Habs. cbv beta. apply wp_ret. cbv iota.
    destruct (sr_ok _ _ _ _ Hs2 _ _ He) as [[Ht _]|[Ht Hz]]; [done|].
    assert (entries (sv_zmem s2) (upd N a [] a) = []) as En by by rewrite upd_eq.
    pose proof (zadd_entry s2 _ D _ key a _ name score out Hs2 (lookup_insert_eq M key a)
      He Ht Hz Hd) as Hadd.
    cbv zeta in Hadd. rewrite En, upd_eq, Habs in Hadd. cbn [as_kv as_ttl] in Hadd.
    rewrite insert_insert_eq, <- HA in Hadd.
    destruct (spec_insert name score []) as [added ds]. by apply Hadd.
  - wp_step. eapply wp_ent_get; [exact He|]. type_test Ht. apply wp_ret, replies_err.
    by eapply server_abs_intro.
  - wp_step. eapply wp_ent_get; [exact He|]. type_test Ht. apply wp_ret.
    pose proof (Hsets _ _ E) as Hlen. unfold entries in Hlen. rewrite length_fmap in Hlen.
    pose proof (zadd_entry s' M D N key a e name score out Hs' Hka He Ht Hz Hd Hlen) as Hadd.
    cbv zeta in Hadd. destruct (spec_insert name score _) as [added ds]. rewrite HA. exact Hadd.
Qed.
(** * Sets found by [expect_zset] *)

Inductive zref_view s M N key : zset_ref → list zdata → Prop :=
| zv_empty : M !! key = None → zref_view s M N key EmptyZSet []
| zv_entry a e : M !! key = Some a → sv_ent s !! a = Some e → e_type e = T_ZSET →
    zset_rep (sv_zmem s) (e_zset e) (N a) →
    zref_view s M N key (EntryZSet (Some a)) (entries (sv_zmem s) (N a)).

Lemma zv_inv s M N key a ds :
  zref_view s M N key (EntryZSet (Some a)) ds →
  ∃ e, sv_ent s !! a = Some e ∧ e_type e = T_ZSET ∧ zset_rep (sv_zmem s) (e_zset e) (N a) ∧
    ds = entries (sv_zmem s) (N a).
Proof. inversion 1; subst. eauto. Qed.

Lemma wp_expect_zset s A key (Q : option zset_ref → server → Prop) :
  server_abs s A →
  (∀ s', server_abs s' A → spec_zset A key = None → Q None s') →
  (∀ s' M D N r ds, server_rep s' M D N → A = abs_of s' M D N → spec_zset A key = Some ds →
    zref_view s' M N key r ds → Q (Some r) s') →
  wp (expect_zset key) s Q.
Proof.
  intros Hs Hnone Hsome. unfold expect_zset.
  wp_step. eapply wp_lookup_view; [exact Hs|]. intros s' M D N r Hs' HA Hview.
  unfold spec_zset in *. destruct Hview as [Hka E|a e Hka He Ht E|a e Hka He Ht Hz E]; rewrite E in *.
  - apply wp_ret. eapply Hsome; [done..|by constructor].
  - cbv iota. wp_step. eapply wp_ent_get; [exact He|]. type_test Ht. apply wp_ret.
    apply Hnone; [by eapply server_abs_intro|done].
  - cbv iota. wp_step. eapply wp_ent_get; [exact He|]. type_test Ht. apply wp_ret.
    eapply Hsome; [done..|by econstructor].
Qed.

Lemma wp_zref_get s M N key r ds (Q : ZSet → server → Prop) :
  zref_view s M N key r ds →
  (∀ z l, zset_rep (sv_zmem s) z l → entries (sv_zmem s) l = ds → Q z s) → wp (zref_get r) s Q.
Proof.
  intros [Hk|a e Hk He Ht Hz] HQ.
  - unfold zref_get, k_empty_zset. wp_step. apply wp_hm_new_any, wp_ret.
    apply (HQ _ []); [apply zset_rep_init|done].
  - unfold zref_get. eapply wp_ent_get; [exact He|]. by eapply HQ.
Qed.

(** The node of a name, and the tuple it holds. *)
Definition node_of s M N key (r : zset_ref) (node : ptr) (d : option zdata) : Prop :=
  match node with
  | Some x => ∃ a, r = EntryZSet (Some a) ∧ M !! key = Some a ∧ x ∈ N a ∧ d = Some (zdat (sv_zmem s) x)
  | None => d = None
  end.

Lemma wp_zref_lookup s M D N key r ds name (Q : ptr → server → Prop) :
  server_rep s M D N → zref_view s M N key r ds →
  (∀ s' N' node, server_rep s' M D N' → abs_of s' M D N' = abs_of s M D N →
    zref_view s' M N' key r ds → node_of s' M N' key r node (spec_find name ds) → Q node s') →
  wp (zref_lookup r name) s Q.
Proof.
  intros Hs [Hk|a e Hk He Ht Hz] HQ; unfold zref_lookup.
  - wp_step. unfold zref_get, k_empty_zset. wp_step. apply wp_hm_new_any, wp_ret.
    wp_step. apply wp_zoom. unfold zset_lookup. cbn [zs_empty zs_root]. apply wp_ret.
    cbn beta iota. wp_step. cbn [zref_put zs_root]. apply wp_assert; [done|]. apply wp_ret.
    replace (fset s_zmem _ s) with s by by destruct s.
    apply (HQ s N); [done..|by constructor|done].
  - wp_step. unfold zref_get. eapply wp_ent_get; [exact He|]. wp_step. apply wp_zoom.
    eapply wp_zset_lookup; [exact Hz|]. cbv zeta. change (fget s_zmem s) with (sv_zmem s).
    change (fget f_zset e) with (e_zset e). intros h' hmap' node Hz' Hf _ Hr. cbn beta iota.
    wp_step. cbn [zref_put]. eapply wp_ent_set; [exact He|]. apply wp_ret.
    destruct (sr_zset s M D N key a e _ _ (N a) (N a) Hs Hk He Ht Hz' Hf) as [Hs' Habs]; [by left|done|].
    set (m' := mkZMem _ h' _) in *. set (s' := mkServer _ _ _ _ m' _) in *.
    assert (zref_view s' M (upd N a (N a)) key (EntryZSet (Some a)) (entries (sv_zmem s) (N a))) as Hv.
    { pose proof (zv_entry s' M (upd N a (N a)) key a _ Hk (lookup_insert_eq _ _ _) Ht) as Hv.
      rewrite upd_eq in Hv. exact (Hv Hz'). }
    apply (HQ s' (upd N a (N a))); [exact Hs'| |exact Hv|].
    + etransitivity; [exact Habs|]. change (entries m' (N a)) with (entries (sv_zmem s) (N a)).
      destruct (view_key s M D N key Hs) as [E _|b f E Hf' Ht' _|b f E Hf' Ht' _ Hkv]; simplify_eq.
      { by rewrite Ht in Ht'. }
      rewrite insert_id by done. apply astate_eta.
    + pose proof (find_entries _ _ _ _ (zt_nodes _ _ _ (zr_tree _ _ _ Hz')) Hr) as Hfind.
      change (entries m' (N a)) with (entries (sv_zmem s) (N a)) in Hfind. rewrite Hfind.
      destruct node as [x|]; [|done]. exists a. rewrite upd_eq. destruct Hr as [Hx _]. done.
Qed.

Lemma do_zscore_replies s A cmd key name out :
  server_abs s A → cmd !! 1%nat = Some key → cmd !! 2%nat = Some name →
  replies (do_zscore cmd out) s out A (spec_zscore A key name).
Proof.
  intros Hs Hk Hn. unfold replies, do_zscore. wp_step. eapply wp_arg; [exact Hk|].
  wp_step. eapply wp_expect_zset; [exact Hs|..].
  { intros s' Hs' E. unfold spec_zscore. rewrite E. by apply replies_err. }
  intros s' M D N r ds Hs' HA E Hv. unfold spec_zscore. rewrite E. cbv iota.
  wp_step. eapply wp_arg; [exact Hn|].
  wp_step. eapply wp_zref_lookup; [exact Hs'|exact Hv|].
  intros s2 N2 node Hs2 Habs Hv2 Hnode. rewrite <- HA in Habs.
  assert (server_abs s2 A) as Hs2' by by eapply server_abs_intro.
  destruct node as [x|]; cbv iota.
  - destruct Hnode as (a & -> & Hka & Hx & ->). wp_step. apply wp_zoom.
    destruct (zv_inv _ _ _ _ _ _ Hv2) as (e & He & Ht & Hz & Hds).
    apply wp_znode_data; [by apply (no_alloc _ _ (zt_nodes _ _ _ (zr_tree _ _ _ Hz)))|].
    apply replies_dbl. by destruct s2.
  - simpl in Hnode. rewrite Hnode. by apply replies_nil.
Qed.

Lemma do_zrem_replies s A cmd key name out :
  server_abs s A → cmd !! 1%nat = Some key → cmd !! 2%nat = Some name →
  replies (do_zrem cmd out) s out (spec_zrem A key name).1 (spec_zrem A key name).2.
Proof.
  intros Hs Hk Hn. unfold replies, do_zrem. wp_step. eapply wp_arg; [exact Hk|].
  wp_step. eapply wp_expect_zset; [exact Hs|..].
  { intros s' Hs' E. unfold spec_zset, spec_zrem in *. destruct (as_kv A !! key) as [[]|]; try done.
    by apply replies_err. }
  intros s' M D N r ds Hs' HA E Hv. cbv iota.
  wp_step. eapply wp_arg; [exact Hn|].
  wp_step. eapply wp_zref_lookup; [exact Hs'|exact Hv|].
  intros s2 N2 node Hs2 Habs Hv2 Hnode. rewrite <- HA in Habs.
  assert (server_abs s2 A) as Hs2' by by eapply server_abs_intro.
  assert (∀ a, M !! key = Some a → as_kv A !! key = Some (AZSet ds)) as Hkv.
  { intros a Hka. unfold spec_zset in E. destruct (as_kv A !! key) as [[]|] eqn:Ekv;
      [done|by injection E as ->|]. rewrite HA in Ekv. simpl in Ekv. by rewrite lookup_fmap, Hka in Ekv. }
  wp_step. destruct node as [x|]; cbv iota.
  - destruct Hnode as (a & -> & Hka & Hx & Hfind). unfold spec_zrem. rewrite (Hkv _ Hka), Hfind.
    destruct (zv_inv _ _ _ _ _ _ Hv2) as (e & He & Ht & Hz & Hds).
    wp_step. cbn [zref_get]. eapply wp_ent_get; [exact He|]. wp_step. apply wp_zoom.
    eapply wp_zset_delete_spec; [exact Hz|exact Hx|].
    change (fget s_zmem s2) with (sv_zmem s2). intros m' z' l' Hz' Hent Hp _ _ _ Hf.
    cbn [zref_put]. eapply wp_ent_set; [exact He|]. apply replies_bool.
    destruct (sr_zset s2 M D N2 key a e z' m' l' (N2 a) Hs2 Hka He Ht Hz' Hf) as [Hs3 Habs3].
    + by left.
    + intros y Hy. rewrite Hp. by right.
    + eapply server_abs_intro; [exact Hs3|]. rewrite Habs, Hent, <- Hds in Habs3.
      apply find_some in Hfind as [_ Hname%bool_decide_eq_true]. rewrite Hname in Habs3. exact Habs3.
  - apply wp_ret. simpl in Hnode. unfold spec_zrem, spec_zset in *.
    destruct (as_kv A !! key) as [[|ds']|] eqn:Ekv; simplify_eq.
    + rewrite Hnode. unfold spec_find in Hnode. apply replies_bool.
      assert (spec_remove name ds = ds) as ->.
      { apply filter_all. intros d Hd. by rewrite (List.find_none _ _ Hnode d (proj1 (list_elem_of_In _ _) Hd)). }
      rewrite insert_id by done. by rewrite astate_eta.
    + by apply replies_bool.
Qed.
(** * [do_zquery] *)

Lemma half_step n limit : n < limit →
  Z.to_nat ((limit - n + 1) / 2) = S (Z.to_nat ((limit - (n + 2) + 1) / 2)).
Proof.
  intros Hn. replace (limit - n + 1) with (limit - (n + 2) + 1 + 1 * 2) by lia.
  rewrite Z.div_add by lia. assert (0 ≤ (limit - (n + 2) + 1) / 2) by (apply Z.div_pos; lia). lia.
Qed.

(** The tuples that the loop prints, from the place [i] in the order. *)
Definition printed limit n (i : nat) (ds : list zdata) : list zdata :=
  take (Z.to_nat ((limit - n + 1) / 2)) (drop i ds).

Lemma wp_zquery_loop fuel s p l (i : nat) n limit out (Q : Z * list Byte.byte → server → Prop) :
  ztree_rep (sv_zmem s) p l → (length l < fuel + i)%nat → 0 ≤ n →
  n + 2 * (Z.of_nat (length l) - Z.of_nat i) < 2 ^ 63 → (i ≤ length l)%nat →
  (let ds := printed limit n i (entries (sv_zmem s) l) in
   Q (n + Z.of_nat (length (range_values ds)), out ++ concat (encode <$> range_values ds)) s) →
  wp (zquery_loop fuel (l !! i) n limit out) s Q.
Proof.
  intros Ht. pose proof Ht as [_ Hok _]. revert i n out.
  assert (∀ n out (j : nat), (limit ≤ n ∨ (length l ≤ j)%nat) →
    (let ds := printed limit n j (entries (sv_zmem s) l) in
     Q (n + Z.of_nat (length (range_values ds)), out ++ concat (encode <$> range_values ds)) s) →
    Q (n, out) s) as Hend.
  { intros n out j Hj HQ. cbv zeta in HQ.
    assert (printed limit n j (entries (sv_zmem s) l) = []) as E.
    { unfold printed. destruct Hj as [Hj|Hj].
      - replace (Z.to_nat _) with 0%nat; [done|].
        assert ((limit - n + 1) / 2 < 1) by (apply Z.div_lt_upper_bound; lia). lia.
      - rewrite drop_ge; [by rewrite take_nil|]. unfold entries. by rewrite length_fmap. }
    rewrite E in HQ. cbn in HQ. by rewrite Z.add_0_r, app_nil_r in HQ. }
  induction fuel as [|fuel IH]; intros i n out Hf Hn Hmax Hi HQ; [lia|].
  cbn [zquery_loop]. destruct (l !! i) as [a|] eqn:Ea.
  2: { apply lookup_ge_None in Ea. apply wp_ret. eapply (Hend n out i); [by right|done]. }
  destruct (Z.ltb_spec n limit) as [Hlt|Hge].
  2: { apply wp_ret. eapply (Hend n out i); [by left|done]. }
  pose proof (lookup_lt_Some _ _ _ Ea) as Hil.
  wp_step. apply wp_zoom. apply wp_znode_data.
  { apply (no_alloc _ _ Hok). by eapply list_elem_of_lookup_2. }
  cbv zeta. replace (fset s_zmem _ s) with s by by destruct s.
  wp_step. apply wp_zoom. rewrite <- Ea. eapply wp_znode_offset; [exact Ht|]. rewrite Ea.
  replace (fset s_zmem _ s) with s by by destruct s.
  replace (Z.of_nat i + 1) with (Z.of_nat (S i)) by lia. rewrite lookupZ_nat.
  wp_step. apply wp_sint64; [lia|]. apply IH; [lia..|].
  cbv zeta in *. unfold printed in *. rewrite half_step in HQ by done.
  rewrite (drop_S _ (zdat (sv_zmem s) a)) in HQ by (unfold entries; by rewrite list_lookup_fmap, Ea).
  cbn [take] in HQ. unfold range_values in HQ |- *. rewrite fmap_cons in HQ. cbn [concat] in HQ.
  rewrite length_app, fmap_app, concat_app in HQ. cbn [fmap list_fmap concat length] in HQ.
  rewrite app_nil_r in HQ. rewrite write_frame_dbl_encode, write_frame_str_encode, <- !app_assoc.
  rewrite <- !app_assoc in HQ. eqapply HQ. f_equal. lia.
Qed.

(** The sum of a position and an offset is a position, or out of range. *)
Lemma lookup_offset (l : list positive) (i : nat) offset :
  ∃ j, (j ≤ length l)%nat ∧
    match l !! i with Some _ => lookupZ l (Z.of_nat i + offset) | None => None end = l !! j ∧
    ∀ ds (n : nat), length ds = length l → take n (drop j ds) =
      if bool_decide (i < length ds)%nat && (0 <=? Z.of_nat i + offset)
      then take n (drop (Z.to_nat (Z.of_nat i + offset)) ds) else ([] : list zdata).
Proof.
  destruct (decide ((i < length l)%nat ∧ 0 ≤ Z.of_nat i + offset ≤ Z.of_nat (length l))) as [[Hi Ho]|Hout].
  - exists (Z.to_nat (Z.of_nat i + offset)). split; [lia|].
    destruct (lookup_lt_is_Some_2 l i Hi) as [x ->]. split.
    + unfold lookupZ. destruct (Z.ltb_spec (Z.of_nat i + offset) 0); [lia|done].
    + intros ds n ->. rewrite bool_decide_true by done. by destruct (Z.leb_spec 0 (Z.of_nat i + offset)); [|lia].
  - exists (length l). split; [done|]. split.
    + rewrite (lookup_ge_None_2 l (length l)) by done. destruct (l !! i) eqn:E; [|done].
      apply lookup_lt_Some in E. apply lookupZ_out. lia.
    + intros ds n Hl. rewrite drop_ge, take_nil by lia.
      destruct (_ && _) eqn:E; [|done]. apply andb_true_iff in E as [E1%bool_decide_eq_true E2%Z.leb_le].
      rewrite drop_ge, take_nil; [done|]. lia.
Qed.

(** The conversion to [uint32_t] is the one of the 4 bytes. *)
Lemma array_end_u32 out pos n : write_frame_array_end out pos (u32 n) = write_frame_array_end out pos n.
Proof. unfold write_frame_array_end, u32. by rewrite Zmod_mod. Qed.

Lemma do_zquery_replies s A cmd key x name y z out :
  server_abs s A → cmd !! 1%nat = Some key → cmd !! 2%nat = Some x → cmd !! 3%nat = Some name →
  cmd !! 4%nat = Some y → cmd !! 5%nat = Some z →
  replies (do_zquery strtod cmd out) s out A
    (spec_zquery A key (str2dbl strtod x) name (str2int y) (str2int z)).
Proof.
  intros Hs Hk Hx Hname Hy Hz. unfold replies, do_zquery. wp_step. eapply wp_arg; [exact Hx|].
  unfold spec_zquery. destruct (str2dbl strtod x) as [score|] eqn:Hd; [|by apply replies_err].
  apply str2dbl_num in Hd. wp_step. eapply wp_arg; [exact Hname|].
  wp_step. eapply wp_arg; [exact Hy|]. wp_step. eapply wp_arg; [exact Hz|].
  destruct (str2int y) as [offset|]; [|by apply replies_err].
  destruct (str2int z) as [limit|]; [|by apply replies_err].
  wp_step. eapply wp_arg; [exact Hk|]. wp_step. eapply wp_expect_zset; [exact Hs|..].
  { intros s' Hs' ->. by apply replies_err. }
  intros s' M D N r ds Hs' HA -> Hv. assert (server_abs s' A) as Hs2 by by eapply server_abs_intro.
  cbv iota. destruct (limit <=? 0).
  { apply wp_ret. split; [|done]. unfold write_frame_array, buf_write_u8, buf_write_u32, buf_write.
    cbn [encode length fmap list_fmap concat]. by rewrite le_bytes_u32, app_nil_r, <- app_assoc. }
  wp_step. eapply wp_zref_get; [exact Hv|]. intros zs l Hzs Hent.
  pose proof (zr_tree _ _ _ Hzs) as Ht. wp_step. apply wp_zoom.
  eapply wp_zset_seekge; [exact Ht|done|]. replace (fset s_zmem _ s') with s' by by destruct s'.
  change (fget s_zmem s') with (sv_zmem s'). rewrite rank_entries, Hent.
  wp_step. apply wp_zoom. eapply wp_znode_offset; [exact Ht|].
  replace (fset s_zmem _ s') with s' by by destruct s'.
  destruct (lookup_offset l (spec_rank score name ds) offset) as (j & Hj & -> & Htake).
  pose proof (zt_length _ _ _ Ht) as Hmax. unfold cnt_max in Hmax.
  pose proof (length_le_size (zm_data (sv_zmem s')) l (zt_NoDup _ _ _ Ht)
    (no_alloc _ _ (zt_nodes _ _ _ Ht))) as Hsize.
  destruct (write_frame_array_begin out) as [ctx out0] eqn:Ebegin.
  do 2 wp_step. wp_step. eapply wp_zquery_loop; [exact Ht|lia|done|lia|exact Hj|].
  rewrite Hent. cbv zeta. cbn beta iota. unfold printed. rewrite Z.sub_0_r, Z.add_0_l.
  assert (length ds = length l) as Hlen by (rewrite <- Hent; apply length_fmap).
  rewrite (Htake ds _ Hlen). fold (spec_range score name offset limit ds).
  set (res := spec_range score name offset limit ds).
  replace out0 with (write_frame_array_begin out).2 by by rewrite Ebegin.
  replace ctx with (write_frame_array_begin out).1 by by rewrite Ebegin.
  rewrite array_end_u32, write_frame_array_encode. by split.
Qed.
End zset.
