(* ===== verification/ServerTheorems.v ===== *)
(** The theorems of the key space: a request is answered as specified, expired keys are
    removed, and the tasks of the thread pool are invisible. *)
From S2P Require Import Prelude Common AvlRep HashTable HashRep HashMap HashIndex.
From S2P Require Import Heap HeapProof HeapMap ZSet ZSetRep ZSetOps ZSetQuery ZSetSpec.
From S2P Require Import Buffer Numbers Server ServerSpec ServerRep ServerEnt ServerCmd ServerZset.

(** * The start of the program *)

(** [g_data] at the start of the program. *)
Definition server_init : server :=
  mkServer hm_init ∅ ∅ (mkHeapState [] ∅) (mkZMem ∅ ∅ ∅) [].

Definition astate_init : astate := mkA ∅ ∅.

Lemma server_init_abs : server_abs server_init astate_init.
Proof.
  assert (wp hm_new (∅ : hash_heap) (λ h (hs : hash_heap), ni_rep (hashf:=str_hash) hs h ∅)) as Hw
    by by apply (ni_new (hashf:=str_hash)).
  exists ∅, ∅, (λ _, []). split; [|done]. split; simpl; try done.
  - intros a b x _ _ Hx. by apply elem_of_nil in Hx.
  - apply (hr_empty Z.gtb).
  - constructor.
  - intros a. split; [by intros [? ?]|]. intros [[k Hk]|Ha]; [done|by apply elem_of_nil in Ha].
Qed.

Section theorems.
Implicit Types (s : server) (A : astate) (key name out : list Byte.byte).
Implicit Types (cmd : list (list Byte.byte)) (M : gmap (list Byte.byte) positive).
Implicit Types (D : gmap positive Z) (N : positive → list positive) (a b : positive).

(** * Requests *)

Section request.
Context (strtod : list Byte.byte → Z * nat).

Lemma is_cmd_cons c cmd n name :
  is_cmd (c :: cmd) n name = (S (length cmd) =? n)%nat && bool_decide (c = name).
Proof.
  unfold is_cmd. cbn [length head]. f_equal. apply bool_decide_ext. split; [by intros [= ->]|by intros ->].
Qed.

Lemma wp_do_request s A now cmd out :
  server_abs s A → has_room A →
  ∃ A' v, replies (do_request strtod now cmd out) s out A' v ∧ spec_request strtod now cmd A A' v.
Proof.
  intros Hs Hroom. pose proof Hroom as [Hkeys _].
  assert (∃ A' v, replies (mret (write_frame_err out ERR_UNKNOWN (str "unknown command."))) s out A' v ∧
    A' = A ∧ v = VErr ERR_UNKNOWN (str "unknown command.")) as Hunknown.
  { exists A, (VErr ERR_UNKNOWN (str "unknown command.")). split; [by apply replies_err|done]. }
  unfold do_request.
  destruct cmd as [|c cmd]; [exact Hunknown|]. rewrite !is_cmd_cons.
  destruct cmd as [|key cmd]; cbn [length Nat.eqb andb spec_request].
  { case_bool_decide; [|exact Hunknown].
    destruct (do_keys_replies s A [c] out Hs) as (ks & Hks & Hr). exists A, (VArr (VStr <$> ks)).
    split; [done|]. split; [done|]. by exists ks. }
  destruct cmd as [|x cmd]; cbn [length Nat.eqb andb spec_request].
  { case_bool_decide; [exists A, (spec_get A key); split; [by apply do_get_replies|done]|].
    case_bool_decide.
    { exists (spec_del A key).1, (spec_del A key).2. split; [by apply do_del_replies|done]. }
    case_bool_decide; [exists A, (spec_ttl now A key); split; [by apply do_ttl_replies|done]|].
    exact Hunknown. }
  destruct cmd as [|name cmd]; cbn [length Nat.eqb andb spec_request].
  { case_bool_decide.
    { exists (spec_set A key x).1, (spec_set A key x).2.
      split; [by apply do_set_replies|]. by destruct (spec_set A key x). }
    case_bool_decide.
    { exists (spec_expire now A key (str2int x)).1, (spec_expire now A key (str2int x)).2.
      split; [by apply do_expire_replies|]. by destruct (spec_expire now A key (str2int x)). }
    case_bool_decide.
    { exists (spec_zrem A key x).1, (spec_zrem A key x).2.
      split; [by apply do_zrem_replies|]. by destruct (spec_zrem A key x). }
    case_bool_decide; [exists A, (spec_zscore A key x); split; [by apply do_zscore_replies|done]|].
    exact Hunknown. }
  destruct cmd as [|y cmd]; cbn [length Nat.eqb andb spec_request].
  { case_bool_decide; [|exact Hunknown].
    exists (spec_zadd A key (str2dbl strtod x) name).1, (spec_zadd A key (str2dbl strtod x) name).2.
    split; [by apply do_zadd_replies|]. by destruct (spec_zadd A key (str2dbl strtod x) name). }
  destruct cmd as [|z cmd]; cbn [length Nat.eqb andb spec_request]; [exact Hunknown|].
  destruct cmd as [|w cmd]; cbn [length Nat.eqb andb spec_request]; [|exact Hunknown].
  case_bool_decide; [|exact Hunknown].
  exists A, (spec_zquery A key (str2dbl strtod x) name (str2int y) (str2int z)).
  split; [by apply do_zquery_replies|done].
Qed.

(** C7. Every request is answered as the abstract key space says: from a server that
    stands for the state [A], [do_request] does not fault, appends exactly one encoded
    reply to the output, and leaves a server that stands for the state after the
    command, for every command, arity and argument (given the room for one more key
    and tuple). *)
Theorem do_request_refines s A now cmd out :
  server_abs s A → has_room A →
  ∃ A' v s', do_request strtod now cmd out s = Some (out ++ encode v, s') ∧
    server_abs s' A' ∧ spec_request strtod now cmd A A' v.
Proof.
  intros Hs Hroom. destruct (wp_do_request s A now cmd out Hs Hroom) as (A' & v & Hr & Hspec).
  apply wp_run in Hr as (out' & s' & E & -> & Hs'). by exists A', v, s'.
Qed.
End request.
(** * Expiry *)

(** Removing, again and again, a key with the earliest deadline, which has passed. *)
Inductive drains (now : Z) : astate → list (list Byte.byte) → astate → Prop :=
| drains_nil A : drains now A [] A
| drains_cons A A' key t ks :
    as_ttl A !! key = Some t → t < now → (∀ k t', as_ttl A !! k = Some t' → t ≤ t') →
    drains now (spec_del A key).1 ks A' → drains now A (key :: ks) A'.

(** The deadlines of the keys are those of the heap. *)
Lemma ttl_timer s M D N key t :
  as_ttl (abs_of s M D N) !! key = Some t ↔ ∃ a, M !! key = Some a ∧ D !! a = Some t.
Proof.
  simpl. rewrite lookup_omap. destruct (M !! key) as [a|]; simpl; [|naive_solver].
  split; [intros ?; by exists a|]. by intros (b & [= <-] & ?).
Qed.

(** One round of the loop. *)
Lemma wp_expire_one (m : M server Z) s M D N key a (Q : Z → server → Prop) :
  server_rep s M D N → M !! key = Some a → Z.of_nat (size M) < hash_max →
  (∀ s', server_rep s' (delete key M) (delete a D) N →
    abs_of s' (delete key M) (delete a D) N = (spec_del (abs_of s M D N) key).1 → wp m s' Q) →
  wp (h ← zoom s_hash (Some a ->> f_hash_code);
      node ← db_remove h (hnode_same (Some a));
      assert (bool_decide (node = Some a));;
      entry_del (Some a);; m) s Q.
Proof.
  intros Hs Hk Hsz HQ. pose proof (ni_node (hashf:=str_hash) _ _ _ _ _ (sr_index _ _ _ _ Hs) Hk) as Hcode.
  destruct (sv_hash s !! a) as [hn|] eqn:Ha; [|done]. injection Hcode as Hcode.
  wp_step. apply wp_zoom. eapply wp_load; [exact Ha|]. change (fget f_hash_code hn) with (hn_hash_code hn).
  rewrite Hcode. replace (fset s_hash _ s) with s by by destruct s.
  wp_step. eapply (wp_db_remove _ _ _ _ key); [exact Hs| |].
  { intros k b Hkb _. unfold hnode_same. f_equal. apply bool_decide_ext. split.
    - intros [= ->]. by eapply sr_inj.
    - intros ->. congruence. }
  intros db' h' Hi. rewrite Hk. wp_step. apply wp_assert; [by rewrite bool_decide_true|].
  wp_step. by eapply wp_entry_del.
Qed.

Lemma wp_expire_loop fuel s M D N now n (Q : Z → server → Prop) :
  server_rep s M D N → Z.of_nat (size M) < hash_max → (size D < fuel)%nat → 0 ≤ n ≤ k_max_works →
  (∀ s' A' ks, server_abs s' A' → drains now (abs_of s M D N) ks A' →
    Z.of_nat (length ks) ≤ k_max_works + 1 - n →
    Z.of_nat (length ks) = k_max_works + 1 - n ∨ (∀ k t, as_ttl A' !! k = Some t → now ≤ t) →
    Q (n + Z.of_nat (length ks)) s') →
  wp (expire_loop fuel now n) s Q.
Proof.
  revert s M D n. induction fuel as [|fuel IH]; intros s M D n Hs Hsz Hf Hn HQ; [lia|].
  pose proof (sr_heap _ _ _ _ Hs) as Hh.
  assert ((∀ a t, D !! a = Some t → now ≤ t) → Q n s) as Hstop.
  { intros Hall. replace n with (n + Z.of_nat (length (@nil (list Byte.byte)))) by (simpl; lia).
    eapply (HQ s (abs_of s M D N)); [by eapply server_abs_intro|constructor|simpl; lia|right].
    intros k t (a & _ & Ht)%ttl_timer. eauto. }
  cbn [expire_loop]. wp_step. wp_step. destruct (decide (D = ∅)) as [->|Hne].
  { pose proof (hr_length _ _ _ Hh) as Hl. rewrite map_size_empty in Hl.
    destruct (hs_arr (sv_heap s)); [|done]. apply wp_ret, Hstop. intros a t Hat. by rewrite lookup_empty in Hat. }
  destruct (hr_top _ _ _ Hh Hne) as (a & t & Htop & Ht & Hmin).
  destruct (hs_arr (sv_heap s)) as [|top rest]; [done|]. injection Htop as ->.
  assert (∀ b w, D !! b = Some w → t ≤ w) as Hmin'.
  { intros b w Hw. pose proof (Hmin b w Hw) as Hgt. rewrite Z.gtb_ltb, Z.ltb_ge in Hgt. lia. }
  cbn [he_val he_ref_pos]. destruct (Z.ltb_spec t now) as [Hlt|Hge].
  2: { apply wp_ret, Hstop. intros b w Hw. specialize (Hmin' b w Hw). lia. }
  destruct (sr_timer _ _ _ _ Hs a) as [key Hk]; [by apply elem_of_dom|].
  cbv zeta. eapply wp_expire_one; [done..|].
  intros s' Hs' Habs.
  assert (size (delete a D) < fuel)%nat.
  { assert (size D ≠ 0%nat) by by apply map_size_non_empty_iff.
    rewrite map_size_delete_Some by by eexists. lia. }
  assert (drains now (abs_of s M D N) [key] (spec_del (abs_of s M D N) key).1) as Hone.
  { eapply drains_cons; [apply ttl_timer; by exists a|done| |constructor].
    intros k t' (b & _ & Hb)%ttl_timer. eauto. }
  destruct (Z.leb_spec k_max_works n) as [Hlast|Hmore].
  - apply wp_ret. eapply (HQ s' _ [key]); [by eapply server_abs_intro|exact Hone|simpl; lia|left; simpl; lia].
  - eapply (IH s' (delete key M)); [exact Hs'| |done|lia|].
    + rewrite map_size_delete_Some by by eexists. lia.
    + intros s2 A2 ks Hs2 Hd Hlen Hend. rewrite Habs in Hd.
      replace (n + 1 + Z.of_nat (length ks)) with (n + Z.of_nat (length (key :: ks))) by (simpl; lia).
      apply (HQ s2 A2); [done| |simpl; lia|destruct Hend; [left; simpl; lia|by right]].
      inversion Hone; subst. by econstructor.
Qed.

Lemma wp_process_ttl s A now :
  server_abs s A → Z.of_nat (size (as_kv A)) < hash_max →
  wp (process_ttl now) s (λ n s', ∃ A' ks, n = Z.of_nat (length ks) ∧ server_abs s' A' ∧
    drains now A ks A' ∧ Z.of_nat (length ks) ≤ k_max_works + 1 ∧
    (Z.of_nat (length ks) = k_max_works + 1 ∨ ∀ k t, as_ttl A' !! k = Some t → now ≤ t)).
Proof.
  intros (M & D & N & Hs & ->) Hsz. rewrite size_kv in Hsz.
  unfold process_ttl. do 2 wp_step. eapply wp_expire_loop; [exact Hs|done| |unfold k_max_works; lia|].
  - rewrite <- (hr_length _ _ _ (sr_heap _ _ _ _ Hs)). simpl. lia.
  - intros s' A' ks Hs' Hd Hl Hend. exists A', ks. rewrite Z.sub_0_r in *. by split_and!.
Qed.

(** C15. The timers remove expired keys and nothing else: [process_ttl] does not fault,
    removes the keys with the earliest deadlines, all of them before [now], and stops
    when no deadline before [now] is left, or after [k_max_works + 1] keys. *)
Theorem process_ttl_correct s A now :
  server_abs s A → Z.of_nat (size (as_kv A)) < hash_max →
  ∃ s' A' ks, process_ttl now s = Some (Z.of_nat (length ks), s') ∧ server_abs s' A' ∧
    drains now A ks A' ∧ Z.of_nat (length ks) ≤ k_max_works + 1 ∧
    (Z.of_nat (length ks) = k_max_works + 1 ∨ ∀ k t, as_ttl A' !! k = Some t → now ≤ t).
Proof.
  intros Hs Hsz. pose proof (wp_process_ttl s A now Hs Hsz) as Hw.
  apply wp_run in Hw as (n & s' & E & A' & ks & -> & ?). by exists s', A', ks.
Qed.

(** C32. A task of the thread pool, run at any time, does not fault and leaves the state
    that the clients see as it is; only that task leaves the queue. *)
Theorem run_task_invisible s A i :
  server_abs s A →
  ∃ s', run_task i s = Some (tt, s') ∧ server_abs s' A ∧ sv_tasks s' = delete i (sv_tasks s).
Proof.
  intros (M & D & N & Hs & ->).
  assert (wp (run_task i) s (λ _ s', server_abs s' (abs_of s M D N) ∧ sv_tasks s' = delete i (sv_tasks s))) as Hw.
  { eapply wp_run_task; [exact Hs|]. intros s' Hs' Habs Ht. split; [by eapply server_abs_intro|done]. }
  apply wp_run in Hw as ([] & s' & E & H). by exists s'.
Qed.
End theorems.

(** * Concrete states *)

(** A key with a deadline. *)
Lemma expiring_abs :
  ∃ s, server_abs s (mkA (<[str "k":=AStr (str "v")]> ∅) (<[str "k":=15]> ∅)).
Proof.
  destruct (proj1 (wp_run _ _ _) (do_set_replies server_init astate_init
    [str "set"; str "k"; str "v"] (str "k") (str "v") [] server_init_abs eq_refl eq_refl eq_refl))
    as (out1 & s1 & _ & _ & Hs1).
  destruct (proj1 (wp_run _ _ _) (do_expire_replies s1 _ [str "pexpire"; str "k"; str "10"] 5
    (str "k") (str "10") [] Hs1 eq_refl eq_refl eq_refl)) as (out2 & s2 & _ & _ & Hs2).
  exists s2. exact Hs2.
Qed.

(** An entry that waits for a worker thread. *)
Definition task_server : server :=
  mkServer hm_init {[1%positive := mkHashNode None 0]}
    {[1%positive := mkEntry (str "k") T_STR (str "v") (zs_empty hm_init)]}
    (mkHeapState [] {[1%positive := no_idx]}) (mkZMem ∅ ∅ ∅) [1%positive].

Lemma task_server_abs : server_abs task_server astate_init.
Proof.
  assert (wp hm_new (sv_hash task_server) (λ h (hs : hash_heap), ni_rep (hashf:=str_hash) hs h ∅)) as Hw
    by by apply (ni_new (hashf:=str_hash)).
  exists ∅, ∅, (λ _, []). split; [|done]. split; simpl; try done.
  - intros a e [<- <-]%lookup_singleton_Some. by left.
  - intros a b x _ _ Hx. by apply elem_of_nil in Hx.
  - apply (hr_empty Z.gtb).
  - apply NoDup_singleton.
  - intros a. rewrite lookup_singleton_is_Some, list_elem_of_singleton. split; [by right|].
    intros [[k Hk]|Ha]; [done|done].
Qed.

Lemma do_request_refines_witness :
  ∃ A' v s', do_request (λ _, (0, 1%nat)) 7 [str "zadd"; str "z"; str "0"; str "n"] [] server_init =
      Some ([] ++ encode v, s') ∧ server_abs s' A' ∧
    spec_request (λ _, (0, 1%nat)) 7 [str "zadd"; str "z"; str "0"; str "n"] astate_init A' v.
Proof.
  apply (do_request_refines (λ _, (0, 1%nat)) server_init astate_init); [apply server_init_abs|].
  split; [by vm_compute|]. intros k ds Hk. discriminate Hk.
Defined.

Lemma process_ttl_correct_witness :
  ∃ s s' A' ks, process_ttl 20 s = Some (Z.of_nat (length ks), s') ∧ server_abs s' A' ∧
    drains 20 (mkA (<[str "k":=AStr (str "v")]> ∅) (<[str "k":=15]> ∅)) ks A' ∧
    Z.of_nat (length ks) ≤ k_max_works + 1 ∧
    (Z.of_nat (length ks) = k_max_works + 1 ∨ ∀ k t, as_ttl A' !! k = Some t → 20 ≤ t).
Proof.
  destruct expiring_abs as [s Hs]. exists s.
  apply (process_ttl_correct s _ 20 Hs). by vm_compute.
Defined.

Lemma run_task_invisible_witness :
  ∃ s', run_task 0 task_server = Some (tt, s') ∧ server_abs s' astate_init ∧ sv_tasks s' = [].
Proof. apply (run_task_invisible task_server astate_init 0 task_server_abs). Defined.
