(* ===== verification/ServerTrace.v ===== *)
(** Whole runs of the server: any sequence of requests, timer rounds and thread-pool
    tasks, from the start of the program, refines the abstract key space. *)
From S2P Require Import Prelude Common AvlRep HashTable HashRep HashMap HashIndex.
From S2P Require Import Heap HeapProof HeapMap ZSet ZSetRep ZSetOps ZSetQuery ZSetSpec.
From S2P Require Import Buffer Numbers Server ServerSpec ServerRep ServerEnt ServerCmd ServerZset.
From S2P Require Import ServerTheorems.

(** What the main thread and the worker threads do to the key space. *)
Inductive event : Type :=
| Request (now : Z) (cmd : list (list Byte.byte))
| Timers (now : Z)
| Task (i : nat).

Section trace.
Context (strtod : list Byte.byte → Z * nat).
Implicit Types (s : server) (A : astate) (key name out : list Byte.byte) (es : list event).

Definition run_event (ev : event) (out : list Byte.byte) : M server (list Byte.byte) :=
  match ev with
  | Request now cmd => do_request strtod now cmd out
  | Timers now => _ ← process_ttl now; mret out
  | Task i => run_task i;; mret out
  end.

Fixpoint run_events (es : list event) (out : list Byte.byte) : M server (list Byte.byte) :=
  match es with
  | [] => mret out
  | ev :: es => out ← run_event ev out; run_events es out
  end.

(** An event of the abstract key space, with the replies it gives. *)
Inductive spec_event : event → astate → astate → list value → Prop :=
| se_request now cmd A A' v :
    spec_request strtod now cmd A A' v → spec_event (Request now cmd) A A' [v]
| se_timers now A A' ks :
    drains now A ks A' → Z.of_nat (length ks) ≤ k_max_works + 1 →
    Z.of_nat (length ks) = k_max_works + 1 ∨ (∀ k t, as_ttl A' !! k = Some t → now ≤ t) →
    spec_event (Timers now) A A' []
| se_task i A : spec_event (Task i) A A [].

Inductive spec_events : list event → astate → astate → list value → Prop :=
| ses_nil A : spec_events [] A A []
| ses_cons ev es A A' A'' vs vs' :
    spec_event ev A A' vs → spec_events es A' A'' vs' → spec_events (ev :: es) A A'' (vs ++ vs').

(** * The room that a run needs *)

Record bounded (n : nat) (A : astate) : Prop := {
  bd_keys : (size (as_kv A) ≤ n)%nat;
  bd_sets : ∀ k ds, as_kv A !! k = Some (AZSet ds) → (length ds ≤ n)%nat;
}.

Lemma bounded_mono n m A : (n ≤ m)%nat → bounded n A → bounded m A.
Proof. intros Hle [Hk Hs]. split; [lia|]. intros k ds Hds. specialize (Hs k ds Hds). lia. Qed.

Lemma bounded_room n A : Z.of_nat n < cnt_max → bounded n A → has_room A.
Proof.
  intros Hn [Hk Hs]. split.
  - unfold cnt_max, hash_max in *. lia.
  - intros k ds Hds. specialize (Hs k ds Hds). lia.
Qed.

Lemma bounded_delete n A key : bounded n A → bounded n (spec_del A key).1.
Proof.
  intros [Hk Hs]. split; simpl.
  - rewrite map_size_delete. destruct (as_kv A !! key); simpl; lia.
  - intros k ds [_ Hds]%lookup_delete_Some. eauto.
Qed.

Lemma bounded_put n A key v ttl :
  bounded n A → (∀ ds, v = AZSet ds → (length ds ≤ S n)%nat) →
  bounded (S n) (mkA (<[key:=v]> (as_kv A)) ttl).
Proof.
  intros [Hk Hs] Hv. split; simpl.
  - rewrite map_size_insert. destruct (as_kv A !! key); simpl; lia.
  - intros k ds [[_ ?]|[_ Hds]]%lookup_insert_Some; [auto|]. specialize (Hs k ds Hds). lia.
Qed.

Lemma length_filter_two {X} (f g : X → bool) (l : list X) :
  (∀ x, x ∈ l → f x = true → g x = false) →
  (length (List.filter f l) + length (List.filter g l) ≤ length l)%nat.
Proof.
  induction l as [|x l IH]; intros H; simpl; [lia|].
  assert (∀ y, y ∈ l → f y = true → g y = false) as Hl by (intros y Hy; apply H; by right).
  specialize (IH Hl). pose proof (H x ltac:(left)) as Hx.
  destruct (f x), (g x); simpl; lia || by specialize (Hx eq_refl).
Qed.

Lemma length_put d ds : znum d → Forall znum ds → (length (spec_put d ds) ≤ S (length ds))%nat.
Proof.
  intros Hd Hds. unfold spec_put. rewrite length_app. cbn [length].
  pose proof (length_filter_two (λ x, zkey_lt x d) (λ x, zkey_lt d x) ds) as H.
  rewrite Forall_forall in Hds. enough (∀ x, x ∈ ds → zkey_lt x d = true → zkey_lt d x = false) by (specialize (H ltac:(done)); lia).
  intros x Hx. apply zkey_lt_asym; auto.
Qed.

Lemma length_insert_le name score ds :
  dbl_nan score = false → Forall znum ds → (length (spec_insert name score ds).2 ≤ S (length ds))%nat.
Proof.
  intros Hn Hds. unfold spec_insert. destruct (spec_find name ds) as [d|]; simpl.
  - destruct (dbl_eq (zd_score d) score); [lia|].
    pose proof (length_put (mkZData score name) (spec_remove name ds) Hn) as H.
    assert (length (spec_remove name ds) ≤ length ds)%nat by apply List.filter_length_le.
    assert (Forall znum (spec_remove name ds)) as Hr.
    { rewrite Forall_forall in *. intros x Hx. apply Hds. apply list_elem_of_In, filter_In in Hx as [Hx _].
      by apply list_elem_of_In. }
    specialize (H Hr). lia.
  - by apply length_put.
Qed.

(** The sets of a server are well formed. *)
Lemma server_abs_sets s A k ds :
  server_abs s A → as_kv A !! k = Some (AZSet ds) → entries_ok ds.
Proof.
  intros (M & D & N & Hs & ->) Hk.
  destruct (view_key s M D N k Hs) as [_ E|a e _ _ _ E|a e _ _ _ Hz E]; rewrite E in Hk; simplify_eq.
  eapply entries_wf, zr_tree, Hz.
Qed.
Lemma bounded_request n now cmd s A A' v :
  server_abs s A → bounded n A → spec_request strtod now cmd A A' v → bounded (S n) A'.
Proof.
  intros Hs Hb. assert (bounded (S n) A) as Hkeep by (eapply bounded_mono; [|exact Hb]; lia).
  assert (∀ key, bounded (S n) (spec_del A key).1) as Hdel by (intros key; by apply bounded_delete).
  assert (∀ A2 (w : value), (A2, v) = (A, w) → bounded (S n) A2) as Hsame by by intros A2 w [= -> _].
  unfold spec_request. destruct cmd as [|c [|key [|x [|name [|y [|z [|? ?]]]]]]]; try by intros [-> _].
  - case_bool_decide; by intros [-> _].
  - repeat case_bool_decide; try by intros [-> _]. intros [= -> _]. apply Hdel.
  - case_bool_decide.
    { unfold spec_set. destruct (as_kv A !! key) as [[w|ds]|]; try by apply Hsame.
      all: intros [= -> _]; by apply bounded_put. }
    case_bool_decide.
    { unfold spec_expire. destruct (str2int x) as [t|]; [|by apply Hsame].
      case_bool_decide; [|by apply Hsame]. intros [= -> _]. by destruct Hkeep. }
    case_bool_decide; [|case_bool_decide; by intros [-> _]].
    unfold spec_zrem. destruct (as_kv A !! key) as [[w|ds]|] eqn:E; try by apply Hsame.
    intros [= -> _]. apply bounded_put; [done|]. intros ds' [= <-].
    pose proof (bd_sets _ _ Hb _ _ E). unfold spec_remove.
    pose proof (List.filter_length_le (λ d, negb (bool_decide (zd_name d = x))) ds). lia.
  - case_bool_decide; [|by intros [-> _]].
    unfold spec_zadd. destruct (str2dbl strtod x) as [score|] eqn:Hd; [|by apply Hsame].
    apply str2dbl_num in Hd. unfold spec_zset.
    destruct (as_kv A !! key) as [[w|ds]|] eqn:E; [by apply Hsame| |].
    + pose proof (length_insert_le name score ds Hd (eo_num _ (server_abs_sets _ _ _ _ Hs E))) as Hl.
      pose proof (bd_sets _ _ Hb _ _ E). destruct (spec_insert name score ds) as [added ds'].
      intros [= -> _]. apply bounded_put; [done|]. intros ? [= <-]. simpl in Hl. lia.
    + pose proof (length_insert_le name score [] Hd (Forall_nil_2 _)) as Hl.
      destruct (spec_insert name score []) as [added ds'].
      intros [= -> _]. apply bounded_put; [done|]. intros ? [= <-]. simpl in Hl. lia.
  - case_bool_decide; by intros [-> _].
Qed.

Lemma bounded_drains n now A ks A' : drains now A ks A' → bounded n A → bounded n A'.
Proof. induction 1; [done|]. intros Hb. by apply IHdrains, bounded_delete. Qed.

(** * Runs *)

(** One event of the server is one of the abstract key space. *)
Lemma event_refines n ev s A out :
  server_abs s A → bounded n A → Z.of_nat n < cnt_max →
  ∃ A' vs s', run_event ev out s = Some (out ++ concat (encode <$> vs), s') ∧
    server_abs s' A' ∧ spec_event ev A A' vs ∧ bounded (S n) A'.
Proof.
  intros Hs Hb Hn. pose proof (bounded_room _ _ Hn Hb) as Hroom. destruct ev as [now cmd|now|].
  - destruct (wp_do_request strtod s A now cmd out Hs Hroom) as (A' & v & Hr & Hspec).
    apply wp_run in Hr as (out' & s' & E & -> & Hs'). exists A', [v], s'.
    split_and!; [|done|exact (se_request _ _ _ _ _ Hspec)|exact (bounded_request _ _ _ _ _ _ _ Hs Hb Hspec)].
    cbn [concat fmap list_fmap]. by rewrite app_nil_r.
  - pose proof (wp_process_ttl s A now Hs (room_keys _ Hroom)) as Hw.
    apply wp_run in Hw as (k & s' & E & A' & ks & -> & Hs' & Hd & Hl & Hend).
    exists A', [], s'. split_and!; [|done|by econstructor|].
    + unfold run_event, mbind, M_bind. rewrite E. cbn [concat fmap list_fmap]. by rewrite app_nil_r.
    + eapply bounded_drains; [exact Hd|]. eapply bounded_mono; [|exact Hb]. lia.
  - destruct Hs as (M & D & N & Hs & ->).
    assert (wp (run_task i) s (λ _ s', server_abs s' (abs_of s M D N))) as Hw.
    { eapply wp_run_task; [exact Hs|]. intros s' Hs' Habs _. by eapply server_abs_intro. }
    apply wp_run in Hw as ([] & s' & E & Hs'). exists (abs_of s M D N), [], s'.
    split_and!; [|done|by constructor|by eapply bounded_mono; [|exact Hb]; lia].
    unfold run_event, mbind, M_bind. rewrite E. cbn [concat fmap list_fmap]. by rewrite app_nil_r.
Qed.

Lemma events_refine es n s A out :
  server_abs s A → bounded n A → Z.of_nat n + Z.of_nat (length es) < cnt_max →
  ∃ A' vs s', run_events es out s = Some (out ++ concat (encode <$> vs), s') ∧
    server_abs s' A' ∧ spec_events es A A' vs.
Proof.
  revert n s A out. induction es as [|ev es IH]; intros n s A out Hs Hb Hn.
  - exists A, [], s. cbn [concat fmap list_fmap run_events]. rewrite app_nil_r. split_and!; [done..|constructor].
  - cbn [length] in Hn. destruct (event_refines n ev s A out Hs Hb) as (A1 & vs & s1 & E & Hs1 & Hev & Hb1); [lia|].
    destruct (IH (S n) s1 A1 (out ++ concat (encode <$> vs)) Hs1 Hb1) as (A2 & vs' & s2 & E2 & Hs2 & Hes); [lia|].
    exists A2, (vs ++ vs'), s2. split_and!; [|done|by econstructor].
    cbn [run_events]. unfold mbind at 1, M_bind. rewrite E, E2, <- app_assoc, fmap_app, concat_app. done.
Qed.

(** C2. Any run of the server is a run of the abstract key space: from the start of the
    program, whatever the requests, the clock, the timer rounds and the times at which
    the worker threads delete what was handed to them, no step faults, and the bytes
    sent are the encoded replies of a run of the specification.  (A run of fewer than
    2^32-2 events, the range of the counters in the trees.) *)
Theorem server_runs_refine es :
  Z.of_nat (length es) < cnt_max →
  ∃ A' vs s', run_events es [] server_init = Some (concat (encode <$> vs), s') ∧
    server_abs s' A' ∧ spec_events es astate_init A' vs.
Proof.
  intros Hn. apply (events_refine es 0 server_init astate_init []); [apply server_init_abs| |lia].
  split; [done|]. intros k ds Hk. done.
Qed.
End trace.

(** SET, GET, an expired key, and the sorted set of another key. *)
Lemma server_runs_refine_witness :
  ∃ A' vs s', run_events (λ _, (0, 1%nat))
    [Request 5 [str "set"; str "k"; str "v"]; Request 5 [str "pexpire"; str "k"; str "10"];
     Request 6 [str "zadd"; str "z"; str "0"; str "n"]; Timers 16; Task 0; Request 17 [str "get"; str "k"]]
    [] server_init = Some (concat (encode <$> vs), s') ∧ server_abs s' A' ∧
    spec_events (λ _, (0, 1%nat))
    [Request 5 [str "set"; str "k"; str "v"]; Request 5 [str "pexpire"; str "k"; str "10"];
     Request 6 [str "zadd"; str "z"; str "0"; str "n"]; Timers 16; Task 0; Request 17 [str "get"; str "k"]]
    astate_init A' vs.
Proof. apply (server_runs_refine (λ _, (0, 1%nat))). vm_compute. reflexivity. Defined.

(** The replies of that run, computed. *)
Example run_replies :
  fst <$> run_events (λ _, (0, 1%nat))
    [Request 5 [str "set"; str "k"; str "v"]; Request 5 [str "pexpire"; str "k"; str "10"];
     Request 6 [str "zadd"; str "z"; str "0"; str "n"]; Timers 16; Task 0; Request 17 [str "get"; str "k"]]
    [] server_init = Some (concat (encode <$> [VNil; VInt 1; VInt 1; VNil])).
Proof. vm_compute. reflexivity. Qed.
