(* ===== verification/EventLoop.v ===== *)
(** The connections and the event loop of server/main.cc, translated statement by
    statement.

    What the operating system answers is an argument: the file descriptor of
    [accept], the results of [fcntl], [read] and [write], the readiness that [poll]
    reports, and the clock.  A [Conn] has one address: its idle node lives in its own store
    under that address. *)
From S2P Require Import Prelude Common DList HashTable Heap Buffer Request Server.

(** * Ending *)

(** How the program stands: still running, or ended by [die] with a message. *)
Inductive ending : Type :=
| Running
| Died (m : list Byte.byte).

(** [fd_set_nb], from the values of [errno] after its two calls of [fcntl]. *)
Definition fd_set_nb (errno1 errno2 : Z) : ending :=
  if negb (errno1 =? 0) then Died (str "fcntl error")
  else if negb (errno2 =? 0) then Died (str "fcntl error")
  else Running.

(** * State *)

(** [struct Conn], without [idle_node]. *)
Record Conn : Type := mkConn {
  c_fd : Z;
  c_want_read : bool;
  c_want_write : bool;
  c_want_close : bool;
  c_incoming : list Byte.byte;
  c_outgoing : list Byte.byte;
  c_last_active_ms : Z;
}.

Definition f_want_read : field Conn bool := Field c_want_read
  (λ v c, mkConn (c_fd c) v (c_want_write c) (c_want_close c) (c_incoming c) (c_outgoing c) (c_last_active_ms c)).
Definition f_want_write : field Conn bool := Field c_want_write
  (λ v c, mkConn (c_fd c) (c_want_read c) v (c_want_close c) (c_incoming c) (c_outgoing c) (c_last_active_ms c)).
Definition f_want_close : field Conn bool := Field c_want_close
  (λ v c, mkConn (c_fd c) (c_want_read c) (c_want_write c) v (c_incoming c) (c_outgoing c) (c_last_active_ms c)).
Definition f_incoming : field Conn (list Byte.byte) := Field c_incoming
  (λ v c, mkConn (c_fd c) (c_want_read c) (c_want_write c) (c_want_close c) v (c_outgoing c) (c_last_active_ms c)).
Definition f_outgoing : field Conn (list Byte.byte) := Field c_outgoing
  (λ v c, mkConn (c_fd c) (c_want_read c) (c_want_write c) (c_want_close c) (c_incoming c) v (c_last_active_ms c)).
Definition f_last_active_ms : field Conn Z := Field c_last_active_ms
  (λ v c, mkConn (c_fd c) (c_want_read c) (c_want_write c) (c_want_close c) (c_incoming c) (c_outgoing c) v).
Definition f_fd : field Conn Z := Field c_fd
  (λ v c, mkConn v (c_want_read c) (c_want_write c) (c_want_close c) (c_incoming c) (c_outgoing c) (c_last_active_ms c)).

(** What the program and the kernel exchange over the sockets: a connection accepted,
    bytes returned by [read], bytes taken by [write], a descriptor closed. *)
Inductive netev : Type :=
| NAccept (fd : Z)
| NRecv (fd : Z) (data : list Byte.byte)
| NSent (fd : Z) (data : list Byte.byte)
| NClose (fd : Z).

(** The rest of [g_data], the memory of the connections, and the exchanges so far. *)
Record evloop : Type := mkLoop {
  el_srv : server;
  el_conns : gmap positive Conn;
  el_nodes : list_heap;
  el_fd2conn : list ptr;
  el_net : list netev;
}.

Definition l_srv : field evloop server := Field el_srv
  (λ v s, mkLoop v (el_conns s) (el_nodes s) (el_fd2conn s) (el_net s)).
Definition l_conns : field evloop (gmap positive Conn) := Field el_conns
  (λ v s, mkLoop (el_srv s) v (el_nodes s) (el_fd2conn s) (el_net s)).
Definition l_nodes : field evloop list_heap := Field el_nodes
  (λ v s, mkLoop (el_srv s) (el_conns s) v (el_fd2conn s) (el_net s)).
Definition l_fd2conn : field evloop (list ptr) := Field el_fd2conn
  (λ v s, mkLoop (el_srv s) (el_conns s) (el_nodes s) v (el_net s)).
Definition l_net : field evloop (list netev) := Field el_net
  (λ v s, mkLoop (el_srv s) (el_conns s) (el_nodes s) (el_fd2conn s) v).

(** Exchanges with the kernel. *)
Definition emits (evs : list netev) (s : evloop) : evloop := fset l_net (el_net s ++ evs) s.
Definition net (ev : netev) : M evloop unit := λ s, Some (tt, emits [ev] s).

(** The address of [g_data.idle_head]. *)
Definition idle_head : positive := 1.

Definition conn_get {A} (f : field Conn A) (conn : ptr) : M evloop A := zoom l_conns (conn ->> f).
Definition conn_set {A} (f : field Conn A) (conn : ptr) (v : A) : M evloop unit :=
  zoom l_conns (conn ->> f <<- v).

(** The result of a non-blocking system call. *)
Inductive io_result (A : Type) : Type :=
| IoAgain
| IoError
| IoOk (a : A).
Arguments IoAgain {A}.
Arguments IoError {A}.
Arguments IoOk {A} a.

Definition put_vec (v : list ptr) : M evloop unit := λ s, Some (tt, fset l_fd2conn v s).

(** [fd2conn[fd]] *)
Definition fd2conn_get (fd : Z) : M evloop ptr := λ s,
  match lookupZ (el_fd2conn s) fd with Some p => Some (p, s) | None => None end.

Definition fd2conn_set (fd : Z) (p : ptr) : M evloop unit := λ s,
  match lookupZ (el_fd2conn s) fd with
  | Some _ => Some (tt, fset l_fd2conn (<[Z.to_nat fd:=p]> (el_fd2conn s)) s)
  | None => None
  end.

(** [resize] of the vector *)
Definition vec_resize (v : list ptr) (n : Z) : list ptr :=
  take (Z.to_nat n) v ++ replicate (Z.to_nat n - length v) None.

(** * Connections *)

Definition conn_fresh (s : evloop) : positive :=
  fresh ({[idle_head]} ∪ dom (el_conns s) ∪ dom (el_nodes s) : gset positive).

(** [new Conn()] *)
Definition conn_new : M evloop ptr := λ s,
  let a := conn_fresh s in
  Some (Some a, mkLoop (el_srv s) (<[a:=mkConn (-1) false false false [] [] 0]> (el_conns s))
    (<[a:=list_node_init a]> (el_nodes s)) (el_fd2conn s) (el_net s)).

(** What [accept] answers, the values of [errno] after the two calls of [fcntl] on the new
    descriptor, and the clock. *)
Record accept_result : Type := mkAccept {
  ac_fd : Z;
  ac_nb1 : Z;
  ac_nb2 : Z;
  ac_now : Z;
}.

(** application callback when the listening socket is ready; the message of [die] if the
    program ends in it, else what it returns. *)
Definition handle_accept (ac : accept_result) : M evloop (list Byte.byte + Z) :=
  let connfd := ac_fd ac in
  if connfd <? 0 then mret (inr (-1))
  else
    net (NAccept connfd);;
    match fd_set_nb (ac_nb1 ac) (ac_nb2 ac) with
    | Died m => mret (inl m)
    | Running =>
        conn ← conn_new;
        conn_set f_fd conn connfd;;
        conn_set f_want_read conn true;;
        conn_set f_last_active_ms conn (ac_now ac);;
        zoom l_nodes (list_insert_back (Some idle_head) conn);;
        s ← get;
        fd ← conn_get f_fd conn;
        (if Z.of_nat (length (el_fd2conn s)) <=? u64 fd then put_vec (vec_resize (el_fd2conn s) (fd + 1))
         else mret tt);;
        p ← fd2conn_get fd;
        assert (bool_decide (p = None));;
        fd2conn_set fd conn;;
        mret (inr 0)
    end.

(** [delete conn] *)
Definition conn_free (conn : ptr) : M evloop unit := λ s,
  match conn with
  | Some a =>
      match el_conns s !! a with
      | Some _ => Some (tt, mkLoop (el_srv s) (delete a (el_conns s)) (delete a (el_nodes s)) (el_fd2conn s) (el_net s))
      | None => None
      end
  | None => None
  end.

Definition conn_destroy (conn : ptr) : M evloop unit :=
  fd ← conn_get f_fd conn;
  net (NClose fd);;
  fd2conn_set fd None;;
  zoom l_nodes (list_detach conn);;
  conn_free conn.

Section strtod.
Context (strtod : list Byte.byte → Z * nat).

(** process 1 request if there is enough data *)
Definition try_one_request (now : Z) (conn : ptr) : M evloop bool :=
  incoming ← conn_get f_incoming conn;
  if buf_size incoming <? 4 then mret false
  else
    let len := le_num (take 4 incoming) in
    if k_max_msg <? len then
      conn_set f_want_close conn true;;
      mret false
    else if buf_size incoming <? u32 (4 + len) then mret false
    else
      let request := take (Z.to_nat len) (drop 4 incoming) in
      match parse_req request with
      | None =>
          conn_set f_want_close conn true;;
          mret false
      | Some cmd =>
          out ← conn_get f_outgoing conn;
          let '(header_pos, out) := response_begin out in
          out ← zoom l_srv (do_request strtod now cmd out);
          out ← lift_option (response_end out header_pos);
          conn_set f_outgoing conn out;;
          incoming ← conn_get f_incoming conn;
          incoming ← lift_option (buf_consume incoming (u32 (4 + len)));
          conn_set f_incoming conn incoming;;
          mret true
      end.

(** application callback when the socket is writable; [rv] is what [write] returns,
    for every length it is asked to write. *)
Definition handle_write (rv : Z → io_result Z) (conn : ptr) : M evloop unit :=
  out ← conn_get f_outgoing conn;
  assert (0 <? buf_size out);;
  match rv (buf_size out) with
  | IoAgain => mret tt
  | IoError => conn_set f_want_close conn true
  | IoOk n =>
      fd ← conn_get f_fd conn;
      net (NSent fd (take (Z.to_nat n) out));;
      out ← lift_option (buf_consume out n);
      conn_set f_outgoing conn out;;
      if buf_size out =? 0 then
        conn_set f_want_read conn true;;
        conn_set f_want_write conn false
      else mret tt
  end.

(** [while (try_one_request(conn)) {}]; the i-th request reads the clock [clock i].  A
    request takes at least 4 bytes, which gives the fuel. *)
Fixpoint request_loop (fuel : nat) (clock : nat → Z) (conn : ptr) : M evloop unit :=
  match fuel with
  | O => fault
  | S fuel =>
      again ← try_one_request (clock 0%nat) conn;
      if again : bool then request_loop fuel (λ i, clock (S i)) conn else mret tt
  end.

Definition serve_requests (clock : nat → Z) (conn : ptr) : M evloop unit :=
  incoming ← conn_get f_incoming conn;
  request_loop (S (length incoming)) clock conn.

(** The part of [handle_read] that takes new data and answers the requests. *)
Definition receive (clock : nat → Z) (buf : list Byte.byte) (conn : ptr) : M evloop unit :=
  incoming ← conn_get f_incoming conn;
  conn_set f_incoming conn (buf_write incoming buf);;
  serve_requests clock conn.

(** application callback when the socket is readable; [rv] is what [read] returns, no
    bytes at the end of the stream; [wv] is for the write at the end. *)
Definition handle_read (clock : nat → Z) (rv : io_result (list Byte.byte)) (wv : Z → io_result Z)
    (conn : ptr) : M evloop unit :=
  match rv with
  | IoAgain => mret tt
  | IoError => conn_set f_want_close conn true
  | IoOk [] => conn_set f_want_close conn true
  | IoOk buf =>
      fd ← conn_get f_fd conn;
      net (NRecv fd buf);;
      receive clock buf conn;;
      out ← conn_get f_outgoing conn;
      if 0 <? buf_size out then
        conn_set f_want_read conn false;;
        conn_set f_want_write conn true;;
        handle_write wv conn
      else mret tt
  end.

(** * Timers *)

Definition k_idle_timeout_ms : Z := 5 * 1000.

(** [container_of(g_data.idle_head.next, Conn, idle_node)] *)
Definition idle_first : M evloop ptr := zoom l_nodes (Some idle_head ->> f_lnext).

Definition next_timer_ms (now : Z) : M evloop Z :=
  empty ← zoom l_nodes (list_empty (Some idle_head));
  next ← (if negb empty then
            conn ← idle_first;
            t ← conn_get f_last_active_ms conn;
            mret (u64 (t + k_idle_timeout_ms))
          else mret (u64 (-1)));
  s ← get;
  let next :=
    match hs_arr (sv_heap (el_srv s)) with
    | top :: _ => if he_val top <? next then he_val top else next
    | [] => next
    end in
  if next =? u64 (-1) then mret (u32 (-1))
  else if next <=? now then mret 0
  else mret (u32 (i32 (u64 (next - now)))).

(** The first loop of [process_timers]. *)
Fixpoint idle_loop (fuel : nat) (now : Z) : M evloop unit :=
  match fuel with
  | O => fault
  | S fuel =>
      empty ← zoom l_nodes (list_empty (Some idle_head));
      if empty : bool then mret tt
      else
        conn ← idle_first;
        t ← conn_get f_last_active_ms conn;
        let next_ms := u64 (t + k_idle_timeout_ms) in
        if now <=? next_ms then mret tt
        else
          conn_destroy conn;;
          idle_loop fuel now
  end.

Definition process_timers (now : Z) : M evloop unit :=
  s ← get;
  idle_loop (S (size (el_conns s))) now;;
  _ ← zoom l_srv (process_ttl now);
  mret tt.

(** * The event loop *)

(** What [poll] is asked for a connection: its descriptor, [POLLIN], [POLLOUT]. *)
Definition poll_args (s : evloop) : list (Z * bool * bool) :=
  omap (λ p, match p with
             | Some a => c ← el_conns s !! a; Some (c_fd c, c_want_read c, c_want_write c)
             | None => None
             end) (el_fd2conn s).

(** The readiness of a descriptor, and what the calls on it will return. *)
Record revent : Type := mkRevent {
  re_fd : Z;
  re_in : bool;
  re_out : bool;
  re_err : bool;
  re_hup : bool;
  re_now : Z;
  re_clock : nat → Z;
  re_read : io_result (list Byte.byte);
  re_write_in : Z → io_result Z;
  re_write_out : Z → io_result Z;
}.

(** The body of the loop over the connection sockets. *)
Definition conn_event (e : revent) : M evloop unit :=
  if negb (re_in e || re_out e || re_err e || re_hup e) then mret tt
  else
    conn ← fd2conn_get (re_fd e);
    conn_set f_last_active_ms conn (re_now e);;
    zoom l_nodes (list_detach conn);;
    zoom l_nodes (list_insert_back (Some idle_head) conn);;
    (if re_in e then
       b ← conn_get f_want_read conn;
       assert b;;
       handle_read (re_clock e) (re_read e) (re_write_in e) conn
     else mret tt);;
    (if re_out e then
       b ← conn_get f_want_write conn;
       assert b;;
       handle_write (re_write_out e) conn
     else mret tt);;
    wc ← conn_get f_want_close conn;
    if re_err e || wc then conn_destroy conn else mret tt.

Fixpoint conn_events (es : list revent) : M evloop unit :=
  match es with
  | [] => mret tt
  | e :: es => conn_event e;; conn_events es
  end.

(** One turn of the event loop after [poll]: the listening socket (if it is ready, what the
    calls of [handle_accept] answer), the connections, the timers. *)
Definition loop_turn (acc : option accept_result) (es : list revent) (now : Z) : M evloop ending :=
  r ← (match acc with
       | Some ac => handle_accept ac
       | None => mret (inr 0)
       end);
  match r with
  | inl m => mret (Died m)
  | inr _ =>
      conn_events es;;
      process_timers now;;
      mret Running
  end.
End strtod.
