(* ===== verification/ConnSpec.v ===== *)
(** One connection: the stream of requests as frames, and the rules of
    [try_one_request], [handle_read] and [handle_write]. *)
From S2P Require Import Prelude Common AvlRep DList HashTable Heap Buffer Request.
From S2P Require Import Server ServerSpec ServerRep ServerCmd ServerTheorems ServerTrace EventLoop.

(** * Frames *)

(** The start of a stream: not yet a message, not a request, or a request and what
    follows it. *)
Inductive frame : Type :=
| FMore
| FBad
| FCmd (cmd : list (list Byte.byte)) (rest : list Byte.byte).

Definition next_frame (b : list Byte.byte) : frame :=
  if buf_size b <? 4 then FMore
  else
    let len := le_num (take 4 b) in
    if k_max_msg <? len then FBad
    else if buf_size b <? 4 + len then FMore
    else
      match parse_req (take (Z.to_nat len) (drop 4 b)) with
      | None => FBad
      | Some cmd => FCmd cmd (drop (Z.to_nat (4 + len)) b)
      end.

Section conn.
Context (strtod : list Byte.byte → Z * nat).
Implicit Types (b : list Byte.byte) (A : astate) (a : positive) (c : Conn) (clock : nat → Z).

(** Answering the requests of a stream: the replies, the bytes left, and whether the
    stream is broken. *)
Inductive serves : (nat → Z) → list Byte.byte → astate → list value → list Byte.byte → bool → astate → Prop :=
| sv_more clock b A : next_frame b = FMore → serves clock b A [] b false A
| sv_bad clock b A : next_frame b = FBad → serves clock b A [] b true A
| sv_cmd clock b A cmd rest A' v vs rest' bad A'' :
    next_frame b = FCmd cmd rest → spec_request strtod (clock 0%nat) cmd A A' v →
    serves (λ i, clock (S i)) rest A' vs rest' bad A'' → serves clock b A (v :: vs) rest' bad A''.

(** The bytes of the responses. *)
Definition responses (vs : list value) : list Byte.byte := concat ((λ v, response (encode v)) <$> vs).

Lemma next_frame_cmd b cmd rest :
  next_frame b = FCmd cmd rest → ∃ x, b = x ++ rest ∧ (4 ≤ length x)%nat.
Proof.
  unfold next_frame. cbv zeta. destruct (buf_size b <? 4) eqn:E4; [done|].
  destruct (k_max_msg <? _); [done|]. destruct (buf_size b <? 4 + le_num (take 4 b)) eqn:E; [done|].
  destruct (parse_req _); [|done]. intros [= _ <-]. apply Z.ltb_ge in E4, E. unfold buf_size in *.
  pose proof (le_num_bounds (take 4 b)) as Hb.
  exists (take (Z.to_nat (4 + le_num (take 4 b))) b). split; [by rewrite take_drop|].
  rewrite length_take. lia.
Qed.

Lemma serves_rest clock b A vs rest bad A' :
  serves clock b A vs rest bad A' →
  (length vs + length rest ≤ length b)%nat ∧ next_frame rest = if bad then FBad else FMore.
Proof.
  induction 1 as [| |clock b A cmd rest A' v vs rest' bad A'' Hf _ _ [IH1 IH2]];
    [split; [simpl; lia|done]..|].
  apply next_frame_cmd in Hf as (x & -> & Hx). rewrite length_app. simpl. split; [lia|done].
Qed.
(** * Small steps *)

Lemma loop_eta (s : evloop) : mkLoop (el_srv s) (el_conns s) (el_nodes s) (el_fd2conn s) (el_net s) = s.
Proof. by destruct s. Qed.

Lemma wp_conn_get {X} (f : field Conn X) s a c (Q : X → evloop → Prop) :
  el_conns s !! a = Some c → Q (fget f c) s → wp (conn_get f (Some a)) s Q.
Proof.
  intros Hc HQ. unfold conn_get. apply wp_zoom. eapply wp_load; [exact Hc|]. simpl. by rewrite loop_eta.
Qed.

Lemma wp_conn_set {X} (f : field Conn X) v s a c (Q : unit → evloop → Prop) :
  el_conns s !! a = Some c →
  Q tt (mkLoop (el_srv s) (<[a:=fset f v c]> (el_conns s)) (el_nodes s) (el_fd2conn s) (el_net s)) →
  wp (conn_set f (Some a) v) s Q.
Proof. intros Hc HQ. unfold conn_set. apply wp_zoom. by eapply wp_store; [exact Hc|]. Qed.

(** The state with another server and another connection. *)
Definition with_conn (s : evloop) (srv : server) a c : evloop :=
  mkLoop srv (<[a:=c]> (el_conns s)) (el_nodes s) (el_fd2conn s) (el_net s).

Lemma with_conn_lookup s srv a c : el_conns (with_conn s srv a c) !! a = Some c.
Proof. apply lookup_insert_eq. Qed.

Lemma with_conn_twice s srv srv' a c c' :
  with_conn (with_conn s srv a c) srv' a c' = with_conn s srv' a c'.
Proof. unfold with_conn. simpl. by rewrite insert_insert_eq. Qed.

Lemma with_conn_id s a c : el_conns s !! a = Some c → with_conn s (el_srv s) a c = s.
Proof. intros Hc. unfold with_conn. rewrite insert_id by done. apply loop_eta. Qed.

Lemma emits_nil s : emits [] s = s.
Proof. unfold emits. rewrite app_nil_r. by destruct s. Qed.

Lemma emits_emits evs evs' s : emits evs' (emits evs s) = emits (evs ++ evs') s.
Proof. unfold emits. simpl. by rewrite app_assoc. Qed.

Lemma emits_with evs s srv a c : emits evs (with_conn s srv a c) = with_conn (emits evs s) srv a c.
Proof. done. Qed.

Lemma wp_net ev s (Q : unit → evloop → Prop) : Q tt (emits [ev] s) → wp (net ev) s Q.
Proof. done. Qed.

(** [want_close] is set, or was already. *)
Definition closing (x : bool) c : Conn := if x then fset f_want_close true c else c.

Definition served (rest new : list Byte.byte) c : Conn :=
  fset f_incoming rest (fset f_outgoing (c_outgoing c ++ new) c).

(** * [try_one_request] *)

Lemma wp_try_one_request s a c A n now (Q : bool → evloop → Prop) :
  el_conns s !! a = Some c → server_abs (el_srv s) A → bounded n A → Z.of_nat n < cnt_max →
  match next_frame (c_incoming c) with
  | FMore => Q false s
  | FBad => Q false (with_conn s (el_srv s) a (closing true c))
  | FCmd cmd rest => ∀ srv A' v, server_abs srv A' → spec_request strtod now cmd A A' v →
      bounded (S n) A' → Q true (with_conn s srv a (served rest (response (encode v)) c))
  end →
  wp (try_one_request strtod now (Some a)) s Q.
Proof.
  intros Hc Hs Hb Hn HQ. unfold try_one_request. wp_step. eapply wp_conn_get; [exact Hc|].
  change (fget f_incoming c) with (c_incoming c). unfold next_frame in HQ.
  destruct (buf_size (c_incoming c) <? 4) eqn:E4; [by apply wp_ret|]. cbv zeta in *.
  pose proof (le_num_bounds (take 4 (c_incoming c))) as Hlen.
  set (len := le_num (take 4 (c_incoming c))) in *.
  destruct (Z.ltb_spec k_max_msg len) as [Hbig|Hok].
  { wp_step. eapply wp_conn_set; [exact Hc|]. by apply wp_ret. }
  change k_max_msg with 33554432 in Hok. rewrite u32_small by lia.
  destruct (buf_size (c_incoming c) <? 4 + len) eqn:E; [by apply wp_ret|].
  destruct (parse_req _) as [cmd|]; [|wp_step; eapply wp_conn_set; [exact Hc|]; by apply wp_ret].
  wp_step. eapply wp_conn_get; [exact Hc|]. rewrite response_begin_eq. wp_step. apply wp_zoom.
  destruct (wp_do_request strtod (el_srv s) A now cmd (c_outgoing c ++ le_bytes 4 0) Hs
    (bounded_room _ _ Hn Hb)) as (A' & v & Hr & Hspec).
  eapply wp_mono; [exact Hr|]. intros out' srv [-> Hs']. cbv beta.
  wp_step. change (fget f_outgoing c) with (c_outgoing c). rewrite response_end_any. apply wp_ret.
  wp_step. eapply wp_conn_set; [exact Hc|]. wp_step. eapply wp_conn_get; [apply lookup_insert_eq|].
  wp_step. unfold buf_consume. change (fget f_incoming _) with (c_incoming c).
  apply Z.ltb_ge in E. destruct (Z.leb_spec (4 + len) (buf_size (c_incoming c))); [|lia]. apply wp_ret.
  wp_step. eapply wp_conn_set; [apply lookup_insert_eq|]. apply wp_ret. simpl. rewrite insert_insert_eq.
  eapply (HQ srv A' v); [done..|]. exact (bounded_request strtod n now cmd _ _ _ _ Hs Hb Hspec).
Qed.

Lemma served_served rest rest' new new' c :
  served rest' new' (served rest new c) = served rest' (new ++ new') c.
Proof. unfold served. simpl. by rewrite app_assoc. Qed.

Lemma wp_request_loop fuel clock s a c A n (Q : unit → evloop → Prop) :
  el_conns s !! a = Some c → server_abs (el_srv s) A → bounded n A →
  Z.of_nat n + Z.of_nat (length (c_incoming c)) < cnt_max → (length (c_incoming c) < fuel)%nat →
  (∀ srv A' vs rest bad, serves clock (c_incoming c) A vs rest bad A' → server_abs srv A' →
    bounded (n + length vs) A' →
    Q tt (with_conn s srv a (closing bad (served rest (responses vs) c)))) →
  wp (request_loop strtod fuel clock (Some a)) s Q.
Proof.
  revert clock s c A n. induction fuel as [|fuel IH]; intros clock s c A n Hc Hs Hb Hn Hf HQ; [lia|].
  cbn [request_loop]. wp_step. eapply wp_try_one_request; [exact Hc|exact Hs|exact Hb|lia|].
  assert (served (c_incoming c) (responses []) c = c) as Hnil.
  { unfold served, responses. simpl. rewrite app_nil_r. by destruct c. }
  assert (bounded (n + length (@nil value)) A) as Hb0 by by rewrite Nat.add_0_r.
  destruct (next_frame (c_incoming c)) as [| |cmd rest] eqn:Ef.
  - apply wp_ret. pose proof (HQ (el_srv s) A [] (c_incoming c) false (sv_more _ _ _ Ef) Hs Hb0) as HQ0.
    unfold closing in HQ0.
    by rewrite Hnil, (with_conn_id s a c Hc) in HQ0.
  - apply wp_ret. pose proof (HQ (el_srv s) A [] (c_incoming c) true (sv_bad _ _ _ Ef) Hs Hb0) as HQ0.
    by rewrite Hnil in HQ0.
  - intros srv A' v Hs' Hspec Hb'. pose proof (next_frame_cmd _ _ _ Ef) as (x & Ex & Hx).
    pose proof Ef as Ef'. rewrite Ex, length_app in Hn, Hf.
    eapply (IH _ _ (served rest (response (encode v)) c)); [apply with_conn_lookup|exact Hs'|exact Hb'| | |].
    + simpl. lia.
    + simpl. lia.
    + intros srv2 A2 vs rest' bad Hserves Hs2 Hb2. rewrite with_conn_twice, served_served.
      apply (HQ srv2 A2 (v :: vs) rest' bad); [by eapply sv_cmd|done|].
      simpl. by rewrite Nat.add_succ_r.
Qed.
End conn.
