(* ===== verification/Network.v ===== *)
(** The server as its clients see it: an abstract machine that holds the key space and,
    for each open connection, the bytes received and not yet answered and the bytes
    answered and not yet sent.  Its steps carry the exchanges with the sockets; the
    event loop refines it. *)
From S2P Require Import Prelude Common AvlRep DList HashTable Heap Buffer Request.
From S2P Require Import Server ServerSpec ServerRep ServerCmd ServerTheorems ServerTrace EventLoop ConnSpec.

(** An open connection. *)
Record chan : Type := mkChan {
  ch_fd : Z;
  ch_in : list Byte.byte;
  ch_out : list Byte.byte;
}.

Record netstate : Type := mkNet {
  ns_kv : astate;
  ns_chans : gmap positive chan;
}.

Section network.
Context (strtod : list Byte.byte → Z * nat).
Implicit Types (s : evloop) (A : astate) (C : gmap positive chan) (a : positive) (c : Conn).
Implicit Types (evs : list netev) (data i o : list Byte.byte).

(** * The machine *)

Inductive net_step : netstate → list netev → netstate → Prop :=
| ns_accept A C a fd :
    C !! a = None → (∀ b ch, C !! b = Some ch → ch_fd ch ≠ fd) →
    net_step (mkNet A C) [NAccept fd] (mkNet A (<[a:=mkChan fd [] []]> C))
| ns_recv A C a fd i data :
    C !! a = Some (mkChan fd i []) →
    net_step (mkNet A C) [NRecv fd data] (mkNet A (<[a:=mkChan fd (i ++ data) []]> C))
| ns_serve A C a fd i o now cmd rest A' v :
    C !! a = Some (mkChan fd i o) → next_frame i = FCmd cmd rest → spec_request strtod now cmd A A' v →
    net_step (mkNet A C) [] (mkNet A' (<[a:=mkChan fd rest (o ++ response (encode v))]> C))
| ns_send A C a fd i data o :
    C !! a = Some (mkChan fd i (data ++ o)) →
    net_step (mkNet A C) [NSent fd data] (mkNet A (<[a:=mkChan fd i o]> C))
| ns_close A C a ch :
    C !! a = Some ch → net_step (mkNet A C) [NClose (ch_fd ch)] (mkNet A (delete a C))
| ns_expire A C now ks A' :
    drains now A ks A' → net_step (mkNet A C) [] (mkNet A' C).

Inductive net_steps : netstate → list netev → netstate → Prop :=
| nss_refl N : net_steps N [] N
| nss_step N evs N' evs' N'' : net_step N evs N' → net_steps N' evs' N'' → net_steps N (evs ++ evs') N''.

Lemma nss_one N evs N' : net_step N evs N' → net_steps N evs N'.
Proof. intros H. rewrite <- (app_nil_r evs). eapply nss_step; [exact H|apply nss_refl]. Qed.

Lemma nss_trans N evs N' evs' N'' : net_steps N evs N' → net_steps N' evs' N'' → net_steps N (evs ++ evs') N''.
Proof. induction 1; intros H2; [done|]. rewrite <- app_assoc. eapply nss_step; eauto. Qed.

(** * The view of the program's state *)

Definition chan_of c : chan := mkChan (c_fd c) (c_incoming c) (c_outgoing c).
Definition view s A : netstate := mkNet A (chan_of <$> el_conns s).

(** From [s] to [s'], what was exchanged is a run of the machine. *)
Definition sim s A s' A' : Prop :=
  ∃ evs, el_net s' = el_net s ++ evs ∧ net_steps (view s A) evs (view s' A').

Lemma sim_refl s A : sim s A s A.
Proof. exists []. rewrite app_nil_r. split; [done|apply nss_refl]. Qed.

Lemma sim_trans s A s' A' s'' A'' : sim s A s' A' → sim s' A' s'' A'' → sim s A s'' A''.
Proof.
  intros (evs & E & H) (evs' & E' & H'). exists (evs ++ evs').
  split; [by rewrite E', E, app_assoc|by eapply nss_trans].
Qed.

(** A change that no client sees. *)
Lemma sim_same s A s' : el_net s' = el_net s → chan_of <$> el_conns s' = chan_of <$> el_conns s → sim s A s' A.
Proof. intros E Ev. exists []. unfold view. rewrite app_nil_r, Ev. split; [done|apply nss_refl]. Qed.

Lemma chans_insert s a c c' :
  el_conns s !! a = Some c → chan_of c' = chan_of c →
  chan_of <$> <[a:=c']> (el_conns s) = chan_of <$> el_conns s.
Proof. intros Hc E. rewrite fmap_insert, E, insert_id; [done|]. by rewrite lookup_fmap, Hc. Qed.

(** ** Steps of one connection *)

Definition chan_steps a A c evs A' c' : Prop :=
  ∀ C, net_steps (mkNet A (<[a:=chan_of c]> C)) evs (mkNet A' (<[a:=chan_of c']> C)).

Lemma chan_steps_refl a A c c' : chan_of c' = chan_of c → chan_steps a A c [] A c'.
Proof. intros E C. rewrite E. apply nss_refl. Qed.

Lemma chan_steps_trans a A c evs A' c' evs' A'' c'' :
  chan_steps a A c evs A' c' → chan_steps a A' c' evs' A'' c'' → chan_steps a A c (evs ++ evs') A'' c''.
Proof. intros H H' C. by eapply nss_trans. Qed.

Lemma chan_steps_one a A c evs A' c' :
  (∀ C, C !! a = Some (chan_of c) → net_step (mkNet A C) evs (mkNet A' (<[a:=chan_of c']> C))) →
  chan_steps a A c evs A' c'.
Proof.
  intros H C. apply nss_one. specialize (H (<[a:=chan_of c]> C)). rewrite insert_insert_eq in H.
  apply H, lookup_insert_eq.
Qed.

(** They are steps of the whole. *)
Lemma sim_chan s A a c evs srv A' c' :
  el_conns s !! a = Some c → chan_steps a A c evs A' c' → sim s A (with_conn (emits evs s) srv a c') A'.
Proof.
  intros Hc Hs. exists evs. split; [done|]. unfold view. cbn [with_conn el_conns emits fset l_net].
  rewrite fmap_insert. specialize (Hs (chan_of <$> el_conns s)).
  rewrite insert_id in Hs; [done|]. by rewrite lookup_fmap, Hc.
Qed.

(** The requests of a stream. *)
Lemma chan_steps_serves clock b A vs rest bad A' a fd o c c' :
  serves strtod clock b A vs rest bad A' → chan_of c = mkChan fd b o →
  chan_of c' = mkChan fd rest (o ++ responses vs) → chan_steps a A c [] A' c'.
Proof.
  intros Hs. revert o c. induction Hs as [| |clock b A cmd rest A1 v vs rest' bad A2 Hf Hr Hs IH];
    intros o c E E'; [by apply chan_steps_refl; rewrite E', E, app_nil_r..|].
  eapply (chan_steps_trans _ _ _ [] A1
    (mkConn fd false false false rest (o ++ response (encode v)) 0) []).
  - apply chan_steps_one. intros C HC. rewrite E in HC. by eapply ns_serve.
  - apply (IH (o ++ response (encode v))); [done|]. rewrite E'. f_equal.
    unfold responses. cbn [fmap list_fmap concat]. by rewrite app_assoc.
Qed.
End network.
