(* ===== verification/ConnStream.v ===== *)
(** The stream of a connection: how the kernel cuts it into reads does not matter. *)
From S2P Require Import Prelude Common AvlRep DList HashTable Heap Buffer Request.
From S2P Require Import Server ServerSpec ServerRep ServerCmd ServerTheorems ServerTrace EventLoop ConnSpec.

Section stream.
Context (strtod : list Byte.byte → Z * nat).
Implicit Types (s : evloop) (b : list Byte.byte) (a : positive) (c : Conn) (now : Z).

(** More bytes for a connection. *)
Definition more b c : Conn := fset f_incoming (c_incoming c ++ b) c.

Lemma next_frame_app b b' cmd rest :
  next_frame b = FCmd cmd rest → next_frame (b ++ b') = FCmd cmd (rest ++ b').
Proof.
  unfold next_frame. cbv zeta. unfold buf_size. destruct (Z.ltb_spec (Z.of_nat (length b)) 4); [done|].
  rewrite length_app. destruct (Z.ltb_spec (Z.of_nat (length b + length b')) 4); [lia|].
  rewrite take_app_le by lia. pose proof (le_num_bounds (take 4 b)) as Hlen.
  set (len := le_num (take 4 b)) in *. destruct (k_max_msg <? len); [done|].
  destruct (Z.ltb_spec (Z.of_nat (length b)) (4 + len)); [done|].
  destruct (Z.ltb_spec (Z.of_nat (length b + length b')) (4 + len)); [lia|].
  rewrite drop_app_le by lia. rewrite take_app_le by (rewrite length_drop; lia).
  destruct (parse_req _); [|done]. intros [= <- <-]. rewrite drop_app_le by lia. done.
Qed.

(** What [try_one_request] does, as a function of the first frame. *)
Lemma try_one_request_eq s a c now :
  el_conns s !! a = Some c →
  try_one_request strtod now (Some a) s =
    match next_frame (c_incoming c) with
    | FMore => Some (false, s)
    | FBad => Some (false, with_conn s (el_srv s) a (closing true c))
    | FCmd cmd rest =>
        match do_request strtod now cmd (c_outgoing c ++ le_bytes 4 0) (el_srv s) with
        | Some (out, srv) =>
            match response_end out (buf_size (c_outgoing c)) with
            | Some out => Some (true, with_conn s srv a (fset f_incoming rest (fset f_outgoing out c)))
            | None => None
            end
        | None => None
        end
    end.
Proof.
  intros Hc. unfold try_one_request, next_frame. cbv zeta.
  assert (∀ {X} (f : field Conn X), conn_get f (Some a) s = Some (fget f c, s)) as Hget.
  { intros X f. unfold conn_get, zoom, load. cbn [fget l_conns]. rewrite Hc. simpl. by rewrite loop_eta. }
  assert (∀ {X} (f : field Conn X) v, conn_set f (Some a) v s = Some (tt, with_conn s (el_srv s) a (fset f v c))) as Hset.
  { intros X f v. unfold conn_set, zoom, store. cbn [fget l_conns]. by rewrite Hc. }
  unfold mbind, M_bind. rewrite Hget. cbn [fget f_incoming].
  destruct (buf_size (c_incoming c) <? 4) eqn:E4; [done|].
  pose proof (le_num_bounds (take 4 (c_incoming c))) as Hlen.
  set (len := le_num (take 4 (c_incoming c))) in *.
  destruct (Z.ltb_spec k_max_msg len) as [Hbig|Hok]; [by rewrite Hset|].
  change k_max_msg with 33554432 in Hok. rewrite u32_small by lia.
  destruct (buf_size (c_incoming c) <? 4 + len) eqn:E; [done|].
  destruct (parse_req _) as [cmd|]; [|by rewrite Hset].
  rewrite Hget. cbn [fget f_outgoing]. rewrite response_begin_eq. unfold zoom. cbn [fget l_srv].
  destruct (do_request strtod now cmd (c_outgoing c ++ le_bytes 4 0) (el_srv s)) as [[out srv]|]; [|done].
  destruct (response_end out (buf_size (c_outgoing c))) as [out'|]; [|done]. unfold lift_option.
  cbn [mret M_ret]. unfold conn_set, conn_get, zoom, store, load. cbn [fget fset l_conns l_srv el_conns].
  rewrite Hc. cbn [fget fset l_conns el_conns]. rewrite lookup_insert_eq.
  cbn [fget fset f_incoming f_outgoing c_incoming l_conns el_conns]. unfold buf_consume.
  apply Z.ltb_ge in E. destruct (Z.leb_spec (4 + len) (buf_size (c_incoming c))); [|lia].
  unfold mret, M_ret. cbn [fget l_conns el_conns]. rewrite lookup_insert_eq.
  cbn [fget fset f_incoming f_outgoing l_conns el_conns el_srv el_nodes el_fd2conn].
  by rewrite insert_insert_eq.
Qed.

(** More fuel does not change a run that ends. *)
Lemma request_loop_fuel fuel fuel' clock s a r :
  request_loop strtod fuel clock (Some a) s = Some r → (fuel ≤ fuel')%nat →
  request_loop strtod fuel' clock (Some a) s = Some r.
Proof.
  revert fuel' clock s. induction fuel as [|fuel IH]; intros fuel' clock s E Hle; [done|].
  destruct fuel' as [|fuel']; [lia|]. cbn [request_loop] in *. unfold mbind, M_bind in *.
  destruct (try_one_request strtod (clock 0%nat) (Some a) s) as [[[] s']|]; [|done..].
  apply IH; [done|lia].
Qed.

(** The loop on a longer buffer goes through the state in which it ends on the
    shorter one. *)
Lemma request_loop_more fuel now s a c s1 c1 b fuel2 r :
  el_conns s !! a = Some c → request_loop strtod fuel (λ _, now) (Some a) s = Some (tt, s1) →
  el_conns s1 !! a = Some c1 → c_want_close c1 = false →
  request_loop strtod fuel2 (λ _, now) (Some a) (with_conn s1 (el_srv s1) a (more b c1)) = Some r →
  request_loop strtod (fuel + fuel2) (λ _, now) (Some a) (with_conn s (el_srv s) a (more b c)) = Some r.
Proof.
  revert s c. induction fuel as [|fuel IH]; intros s c Hc E Hc1 Hopen E2; [done|].
  cbn [request_loop] in E. unfold mbind, M_bind in E. rewrite (try_one_request_eq _ _ _ _ Hc) in E.
  destruct (next_frame (c_incoming c)) as [| |cmd rest] eqn:Ef.
  - injection E as <-. rewrite Hc in Hc1. injection Hc1 as <-. eapply request_loop_fuel; [exact E2|lia].
  - injection E as <-. rewrite with_conn_lookup in Hc1. by injection Hc1 as <-.
  - cbn [Nat.add request_loop]. unfold mbind, M_bind.
    erewrite try_one_request_eq by apply with_conn_lookup.
    cbn [more fset f_incoming c_incoming c_outgoing with_conn el_srv]. erewrite next_frame_app by exact Ef.
    destruct (do_request strtod now cmd (c_outgoing c ++ le_bytes 4 0) (el_srv s)) as [[out srv]|]; [|done].
    destruct (response_end out (buf_size (c_outgoing c))) as [out'|]; [|done].
    pose proof (IH _ _ (with_conn_lookup _ _ _ _) E Hc1 Hopen E2) as H.
    rewrite with_conn_twice in H. fold (with_conn s (el_srv s) a (more b c)).
    rewrite with_conn_twice. exact H.
Qed.

Lemma receive_eq clock buf s a c :
  el_conns s !! a = Some c →
  receive strtod clock buf (Some a) s =
    request_loop strtod (S (length (c_incoming c ++ buf))) clock (Some a) (with_conn s (el_srv s) a (more buf c)).
Proof.
  intros Hc. unfold receive, serve_requests, mbind, M_bind, conn_get, conn_set, zoom, load, store.
  repeat (cbn [fget fset l_conns el_conns]; rewrite ?Hc, ?lookup_insert_eq). done.
Qed.

(** The request loop returns. *)
Lemma request_loop_returns s srv a c A n now :
  server_abs srv A → bounded n A → Z.of_nat n + Z.of_nat (length (c_incoming c)) < cnt_max →
  ∃ srv' A' n' c', request_loop strtod (S (length (c_incoming c))) (λ _, now) (Some a) (with_conn s srv a c) =
      Some (tt, with_conn s srv' a c') ∧
    server_abs srv' A' ∧ bounded n' A' ∧ (n' + length (c_incoming c') ≤ n + length (c_incoming c))%nat.
Proof.
  intros Hs Hb Hn.
  pose proof (wp_request_loop strtod (S (length (c_incoming c))) (λ _, now) (with_conn s srv a c) a c A n
    (λ _ s', ∃ srv' A' n' c', s' = with_conn s srv' a c' ∧ server_abs srv' A' ∧ bounded n' A' ∧
      (n' + length (c_incoming c') ≤ n + length (c_incoming c))%nat)
    (with_conn_lookup _ _ _ _) Hs Hb Hn ltac:(lia)) as Hw.
  apply wp_run in Hw as ([] & s' & E & srv' & A' & n' & c' & -> & H); [by exists srv', A', n', c'|].
  intros srv' A' vs rest bad Hserves Hs' Hb'. rewrite with_conn_twice.
  eexists srv', A', _, _. split_and!; [done|done|exact Hb'|].
  destruct (serves_rest _ _ _ _ _ _ _ _ Hserves) as [Hl _].
  assert (c_incoming (closing bad (served rest (responses vs) c)) = rest) as -> by by destruct bad.
  lia.
Qed.

(** C16. The stream does not depend on how it is cut: receiving [b1], answering its
    requests, and then receiving [b2], ends in the same state as receiving [b1 ++ b2]
    at once: the same replies in the same order, the same key space, the same bytes
    left over (as long as [b1] does not break the connection, at a given time). *)
Theorem stream_split_equiv s a c A n now b1 b2 s1 c1 :
  el_conns s !! a = Some c → server_abs (el_srv s) A → bounded n A →
  Z.of_nat n + Z.of_nat (length (c_incoming c) + length b1 + length b2) < cnt_max →
  receive strtod (λ _, now) b1 (Some a) s = Some (tt, s1) →
  el_conns s1 !! a = Some c1 → c_want_close c1 = false →
  ∃ s2, receive strtod (λ _, now) b2 (Some a) s1 = Some (tt, s2) ∧
    receive strtod (λ _, now) (b1 ++ b2) (Some a) s = Some (tt, s2).
Proof.
  intros Hc Hs Hb Hn E1 Hc1 Hopen. rewrite (receive_eq _ _ _ _ _ Hc) in E1.
  rewrite (receive_eq _ _ _ _ _ Hc1), (receive_eq _ _ _ _ _ Hc).
  destruct (request_loop_returns s (el_srv s) a (more b1 c) A n now Hs Hb)
    as (srv & A' & n' & c' & E & Hs' & Hb' & Hn'); [simpl; rewrite length_app; lia|].
  change (c_incoming (more b1 c)) with (c_incoming c ++ b1) in E. rewrite E1 in E. injection E as ->.
  rewrite with_conn_lookup in Hc1. injection Hc1 as ->. simpl in Hn'. rewrite length_app in Hn'.
  destruct (request_loop_returns (with_conn s srv a c1) srv a (more b2 c1) A' n' now Hs' Hb')
    as (srv2 & A2 & n2 & c2 & E2 & _); [simpl; rewrite length_app; lia|].
  change (c_incoming (more b2 c1)) with (c_incoming c1 ++ b2) in E2. eexists. split; [exact E2|].
  pose proof (request_loop_more _ _ _ _ _ _ _ b2 _ _ (with_conn_lookup _ _ _ _) E1
    (with_conn_lookup _ _ _ _) Hopen E2) as E3.
  rewrite with_conn_twice in E3.
  assert (more b2 (more b1 c) = more (b1 ++ b2) c) as Em by (unfold more; simpl; by rewrite app_assoc).
  rewrite Em in E3. change (el_srv (with_conn s (el_srv s) a (more b1 c))) with (el_srv s) in E3.
  destruct (request_loop_returns s (el_srv s) a (more (b1 ++ b2) c) A n now Hs Hb)
    as (srv3 & A3 & n3 & c3 & E4 & _); [simpl; rewrite !length_app; lia|].
  change (c_incoming (more (b1 ++ b2) c)) with (c_incoming c ++ b1 ++ b2) in E4. rewrite E4. f_equal. f_equal.
  set (f3 := (S (length (c_incoming c ++ b1)) + S (length (c_incoming c1 ++ b2)))%nat) in E3.
  set (f4 := S (length (c_incoming c ++ b1 ++ b2))) in E4.
  pose proof (request_loop_fuel _ (f3 + f4) _ _ _ _ E3 ltac:(lia)) as H3.
  pose proof (request_loop_fuel _ (f3 + f4) _ _ _ _ E4 ltac:(lia)) as H4.
  congruence.
Qed.
End stream.
