(* ===== verification/ConnIo.v ===== *)
(** Reading from and writing to one connection: the switch between wanting to read and
    wanting to write, and the answers of pipelined requests. *)
From S2P Require Import Prelude Common AvlRep DList HashTable Heap Buffer Request.
From S2P Require Import Server ServerSpec ServerRep ServerCmd ServerTheorems ServerTrace EventLoop ConnSpec Network.

(** The application's intention: to write what is left to write, and else to read. *)
Definition want_ok (c : Conn) : Prop :=
  c_want_read c = negb (c_want_write c) ∧ c_want_write c = negb (bool_decide (c_outgoing c = [])).

(** A connection between two turns of the event loop: open, with the right intention,
    a descriptor, and no request left in its buffer. *)
Record conn_ok (c : Conn) : Prop := {
  ck_fd : 0 ≤ c_fd c < 2 ^ 31;
  ck_open : c_want_close c = false;
  ck_want : want_ok c;
  ck_more : next_frame (c_incoming c) = FMore;
}.

(** After an event: to be closed, or in order. *)
Definition io_ok (c : Conn) : Prop := c_want_close c = true ∨ conn_ok c.

(** The kernel writes at most what it is given. *)
Definition write_ok (wv : Z → io_result Z) : Prop := ∀ len n, 0 ≤ len → wv len = IoOk n → 0 ≤ n ≤ len.

Definition read_len (rv : io_result (list Byte.byte)) : nat :=
  match rv with IoOk buf => length buf | _ => 0 end.

(** The effect of [handle_write] on its connection. *)
Definition written (wv : Z → io_result Z) (c : Conn) : Conn :=
  match wv (buf_size (c_outgoing c)) with
  | IoAgain => c
  | IoError => closing true c
  | IoOk n =>
      let out := drop (Z.to_nat n) (c_outgoing c) in
      let c := fset f_outgoing out c in
      if buf_size out =? 0 then fset f_want_write false (fset f_want_read true c) else c
  end.

(** What [handle_write] exchanges with the kernel. *)
Definition write_events (wv : Z → io_result Z) (c : Conn) : list netev :=
  match wv (buf_size (c_outgoing c)) with
  | IoOk n => [NSent (c_fd c) (take (Z.to_nat n) (c_outgoing c))]
  | _ => []
  end.

(** The bytes that the kernel took. *)
Definition sent (evs : list netev) : list Byte.byte :=
  concat (omap (λ ev, match ev with NSent _ data => Some data | _ => None end) evs).

Section io.
Context (strtod : list Byte.byte → Z * nat).
Implicit Types (b : list Byte.byte) (A : astate) (a : positive) (c : Conn) (clock : nat → Z).

Lemma wp_handle_write s a c wv (Q : unit → evloop → Prop) :
  el_conns s !! a = Some c → c_outgoing c ≠ [] → write_ok wv →
  Q tt (with_conn (emits (write_events wv c) s) (el_srv s) a (written wv c)) → wp (handle_write wv (Some a)) s Q.
Proof.
  intros Hc Hout Hwv HQ. unfold handle_write. wp_step. eapply wp_conn_get; [exact Hc|].
  change (fget f_outgoing c) with (c_outgoing c). wp_step. apply wp_assert.
  { apply Z.ltb_lt. unfold buf_size. destruct (c_outgoing c); [done|simpl; lia]. }
  unfold written, write_events in HQ. destruct (wv (buf_size (c_outgoing c))) as [| |n] eqn:Ew.
  - rewrite emits_nil, with_conn_id in HQ by done. by apply wp_ret.
  - rewrite emits_nil in HQ. by eapply wp_conn_set; [exact Hc|].
  - wp_step. eapply wp_conn_get; [exact Hc|]. change (fget f_fd c) with (c_fd c). wp_step. apply wp_net.
    wp_step. unfold buf_consume. apply Hwv in Ew; [|unfold buf_size; lia].
    destruct (Z.leb_spec n (buf_size (c_outgoing c))); [|lia]. apply wp_ret. cbv zeta in HQ.
    wp_step. eapply wp_conn_set; [exact Hc|]. destruct (buf_size (drop _ _) =? 0).
    + wp_step. eapply wp_conn_set; [apply lookup_insert_eq|].
      eapply wp_conn_set; [apply lookup_insert_eq|]. simpl. rewrite !insert_insert_eq. exact HQ.
    + apply wp_ret. exact HQ.
Qed.

(** The kernel takes the first bytes of the output. *)
Lemma written_steps wv a A c : chan_steps strtod a A c (write_events wv c) A (written wv c).
Proof.
  unfold written, write_events. destruct (wv (buf_size (c_outgoing c))) as [| |n]; [by apply chan_steps_refl..|].
  apply chan_steps_one. intros C HC. cbv zeta.
  assert (∀ c', c_fd c' = c_fd c → c_incoming c' = c_incoming c →
    c_outgoing c' = drop (Z.to_nat n) (c_outgoing c) →
    chan_of c' = mkChan (c_fd c) (c_incoming c) (drop (Z.to_nat n) (c_outgoing c))) as E.
  { intros c' E1 E2 E3. unfold chan_of. by rewrite E1, E2, E3. }
  rewrite E by (by case_match). apply ns_send. unfold chan_of in HC. by rewrite take_drop.
Qed.

(** The bytes written and the bytes left are what was to be written. *)
Lemma written_out wv c : c_outgoing c = sent (write_events wv c) ++ c_outgoing (written wv c).
Proof.
  unfold written, write_events, sent. destruct (wv (buf_size (c_outgoing c))) as [| |n]; [done..|].
  cbn [omap list_omap concat]. rewrite app_nil_r. cbv zeta. case_match; simpl; by rewrite take_drop.
Qed.

Lemma written_keeps wv c :
  c_fd (written wv c) = c_fd c ∧ c_last_active_ms (written wv c) = c_last_active_ms c ∧
  c_incoming (written wv c) = c_incoming c.
Proof. unfold written. case_match; [done..|]. cbv zeta. by case_match. Qed.

Lemma written_close wv c :
  c_want_close (written wv c) =
    match wv (buf_size (c_outgoing c)) with IoError => true | _ => c_want_close c end.
Proof. unfold written. case_match; [done..|]. cbv zeta. by case_match. Qed.

Lemma written_want wv c :
  c_outgoing c ≠ [] → c_want_write c = true → c_want_read c = false → want_ok (written wv c).
Proof.
  intros Hout Hw Hr. unfold written, want_ok.
  destruct (wv (buf_size (c_outgoing c))) as [| |n];
    cbn [closing fset f_want_close c_want_read c_want_write c_outgoing];
    [by rewrite Hw, Hr, bool_decide_false..|].
  cbv zeta. unfold buf_size. destruct (drop (Z.to_nat n) (c_outgoing c)) as [|x rest] eqn:E.
  - done.
  - cbn [length Z.of_nat Z.eqb fset f_outgoing c_want_read c_want_write c_outgoing].
    by rewrite Hw, Hr.
Qed.

Lemma written_ok wv c :
  0 ≤ c_fd c < 2 ^ 31 → next_frame (c_incoming c) = FMore → c_outgoing c ≠ [] →
  c_want_write c = true → c_want_read c = false → io_ok (written wv c).
Proof.
  intros Hfd Hf Hout Hw Hr. unfold io_ok. destruct (c_want_close (written wv c)) eqn:E; [by left|right].
  destruct (written_keeps wv c) as (Ef & _ & Ei). split; [by rewrite Ef|done|by apply written_want|by rewrite Ei].
Qed.

(** * [handle_read] *)

(** The connection after the requests in its buffer have been answered, and before the
    answers are written. *)
Definition answered (rest new : list Byte.byte) (bad : bool) c : Conn :=
  let c := closing bad (served rest new c) in
  if bool_decide (c_outgoing c = []) then c
  else fset f_want_write true (fset f_want_read false c).

(** What [handle_read] makes of the connection. *)
Definition after_read (wv : Z → io_result Z) (rest new : list Byte.byte) (bad : bool) c : Conn :=
  let c := answered rest new bad c in
  if bool_decide (c_outgoing c = []) then c else written wv c.

(** What [handle_read] exchanges with the kernel. *)
Definition read_events (wv : Z → io_result Z) (buf rest new : list Byte.byte) (bad : bool) c : list netev :=
  let c' := answered rest new bad c in
  NRecv (c_fd c) buf :: (if bool_decide (c_outgoing c' = []) then [] else write_events wv c').

Lemma closing_out bad c : c_outgoing (closing bad c) = c_outgoing c.
Proof. by destruct bad. Qed.

Lemma answered_out rest new bad c : c_outgoing (answered rest new bad c) = c_outgoing c ++ new.
Proof. unfold answered. cbv zeta. case_bool_decide; simpl; rewrite closing_out; done. Qed.

Lemma wp_handle_read_data clock s a c A n x buf wv (Q : unit → evloop → Prop) :
  el_conns s !! a = Some c → server_abs (el_srv s) A → bounded n A → write_ok wv →
  Z.of_nat n + Z.of_nat (length (c_incoming c)) + Z.of_nat (length (x :: buf)) < cnt_max →
  (∀ srv A' vs rest bad, serves strtod clock (c_incoming c ++ x :: buf) A vs rest bad A' →
    server_abs srv A' → bounded (n + length vs) A' →
    Q tt (with_conn (emits (read_events wv (x :: buf) rest (responses vs) bad c) s) srv a
      (after_read wv rest (responses vs) bad c))) →
  wp (handle_read strtod clock (IoOk (x :: buf)) wv (Some a)) s Q.
Proof.
  intros Hc Hs Hb Hwv Hn HQ. unfold handle_read. wp_step. eapply wp_conn_get; [exact Hc|].
  change (fget f_fd c) with (c_fd c). wp_step. apply wp_net. set (s0 := emits [NRecv (c_fd c) (x :: buf)] s).
  change (el_conns s) with (el_conns s0) in Hc. change (el_srv s) with (el_srv s0) in Hs.
  wp_step. unfold receive. wp_step. eapply wp_conn_get; [exact Hc|].
  wp_step. eapply wp_conn_set; [exact Hc|]. unfold buf_write. unfold serve_requests. wp_step. eapply wp_conn_get; [apply lookup_insert_eq|].
  change (fget f_incoming (fset f_incoming ?v c)) with v. change (fget f_incoming c) with (c_incoming c).
  set (c1 := fset f_incoming (c_incoming c ++ x :: buf) c).
  eapply (wp_request_loop strtod _ clock _ a c1 A n);
    [apply lookup_insert_eq|exact Hs|exact Hb|simpl; rewrite length_app; lia|simpl; lia|].
  intros srv A' vs rest bad Hserves Hs' Hb'. specialize (HQ srv A' vs rest bad Hserves Hs' Hb').
  change (with_conn _ srv a ?v) with (with_conn (with_conn s0 (el_srv s0) a c1) srv a v).
  rewrite with_conn_twice.
  assert (closing bad (served rest (responses vs) c1) = closing bad (served rest (responses vs) c)) as ->
    by done.
  unfold after_read, read_events, answered in HQ. cbv zeta in HQ.
  set (c2 := closing bad (served rest (responses vs) c)) in *.
  wp_step. eapply wp_conn_get; [apply with_conn_lookup|]. change (fget f_outgoing c2) with (c_outgoing c2).
  destruct (decide (c_outgoing c2 = [])) as [E|E].
  - rewrite !(bool_decide_true (c_outgoing c2 = [])) in HQ by done. rewrite E.
    by apply wp_ret.
  - rewrite !(bool_decide_false (c_outgoing c2 = [])) in HQ by done.
    change (c_outgoing (fset f_want_write true _)) with (c_outgoing c2) in HQ.
    change (NRecv (c_fd c) (x :: buf) :: ?evs) with ([NRecv (c_fd c) (x :: buf)] ++ evs) in HQ.
    rewrite <- emits_emits in HQ. fold s0 in HQ.
    destruct (Z.ltb_spec 0 (buf_size (c_outgoing c2))) as [_|Hz].
    2: { unfold buf_size in Hz. by destruct (c_outgoing c2). }
    wp_step. eapply wp_conn_set; [apply with_conn_lookup|].
    wp_step. eapply wp_conn_set; [apply lookup_insert_eq|].
    eapply wp_handle_write; [apply lookup_insert_eq|exact E|done|].
    unfold with_conn, emits in *. simpl in *. rewrite !insert_insert_eq. exact HQ.
Qed.

Lemma conn_ok_reading c : conn_ok c → c_want_read c = true → c_outgoing c = [] ∧ c_want_write c = false.
Proof.
  intros [_ _ [Hr Hw] _] E. rewrite E in Hr. destruct (c_want_write c); [done|]. split; [|done].
  symmetry in Hw. by apply negb_false_iff, bool_decide_eq_true in Hw.
Qed.

Lemma conn_ok_writing c : conn_ok c → c_want_write c = true → c_outgoing c ≠ [] ∧ c_want_read c = false.
Proof.
  intros [_ _ [Hr Hw] _] E. rewrite E in Hr, Hw. split; [|done].
  symmetry in Hw. by apply negb_true_iff, bool_decide_eq_false in Hw.
Qed.

(** The same connection, with other data. *)
Record same_conn c c' : Prop := {
  sc_fd : c_fd c' = c_fd c;
  sc_time : c_last_active_ms c' = c_last_active_ms c;
}.

Lemma answered_keeps rest new bad c :
  c_fd (answered rest new bad c) = c_fd c ∧ c_last_active_ms (answered rest new bad c) = c_last_active_ms c ∧
  c_incoming (answered rest new bad c) = rest.
Proof. unfold answered. cbv zeta. by case_bool_decide; destruct bad. Qed.

Lemma after_read_keeps wv rest new bad c :
  same_conn c (after_read wv rest new bad c) ∧ c_incoming (after_read wv rest new bad c) = rest.
Proof.
  pose proof (answered_keeps rest new bad c) as (Hf & Ht & Hi). unfold after_read. cbv zeta.
  case_bool_decide; [by split|].
  destruct (written_keeps wv (answered rest new bad c)) as (Hf' & Ht' & Hi').
  split; [split; congruence|congruence].
Qed.

(** What is written and what is left are the answers, in order. *)
Lemma after_read_out wv buf rest new bad c :
  c_outgoing c = [] →
  new = sent (tail (read_events wv buf rest new bad c)) ++ c_outgoing (after_read wv rest new bad c).
Proof.
  intros Hout. pose proof (answered_out rest new bad c) as E. rewrite Hout in E. simpl in E.
  unfold after_read, read_events. cbv zeta. cbn [tail]. case_bool_decide as Hd; [by rewrite E|].
  by rewrite <- written_out.
Qed.

(** They are steps of the machine: the kernel gives bytes, the requests are answered, the
    kernel takes bytes. *)
Lemma read_steps clock wv a A c buf vs rest (bad : bool) A' :
  serves strtod clock (c_incoming c ++ buf) A vs rest bad A' → c_outgoing c = [] →
  chan_steps strtod a A c (read_events wv buf rest (responses vs) bad c) A' (after_read wv rest (responses vs) bad c).
Proof.
  intros Hserves Hout. unfold read_events, after_read. cbv zeta.
  set (c1 := fset f_incoming (c_incoming c ++ buf) c). set (c2 := answered rest (responses vs) bad c).
  assert (chan_steps strtod a A c ([NRecv (c_fd c) buf] ++ []) A' c2) as H12.
  { eapply (chan_steps_trans _ _ _ _ _ A c1).
    - apply chan_steps_one. intros C HC. unfold chan_of in *. rewrite Hout in HC.
      cbn [c1 fset f_incoming c_fd c_incoming c_outgoing]. rewrite Hout. by apply ns_recv.
    - eapply (chan_steps_serves _ clock _ _ _ _ _ _ _ _ [] c1 c2 Hserves); [by unfold chan_of; simpl; rewrite Hout|].
      unfold chan_of, c2. rewrite answered_out, Hout.
      pose proof (answered_keeps rest (responses vs) bad c) as (-> & _ & ->). done. }
  case_bool_decide; [exact H12|].
  change (NRecv (c_fd c) buf :: ?evs) with (([NRecv (c_fd c) buf] ++ []) ++ evs).
  eapply chan_steps_trans; [exact H12|apply written_steps].
Qed.

Lemma after_read_ok wv rest new (bad : bool) c :
  conn_ok c → c_want_read c = true → next_frame rest = (if bad then FBad else FMore) →
  io_ok (after_read wv rest new bad c).
Proof.
  intros Hc Hr Hf. destruct (conn_ok_reading c Hc Hr) as [Hout Hw].
  pose proof (answered_out rest new bad c) as E. rewrite Hout in E. simpl in E.
  pose proof (answered_keeps rest new bad c) as (Ef & _ & Ei).
  unfold after_read. cbv zeta. case_bool_decide as Hd.
  - rewrite E in Hd. unfold answered, io_ok. cbv zeta. rewrite closing_out.
    cbn [served fset f_incoming f_outgoing c_outgoing]. rewrite Hout, Hd, bool_decide_true by done.
    destruct bad; [by left|right]. split; [apply Hc|apply Hc| |exact Hf].
    split; cbn [closing served fset f_incoming f_outgoing c_outgoing c_want_read c_want_write].
    + by rewrite Hr, Hw.
    + by rewrite Hw.
  - destruct bad.
    { left. rewrite written_close. case_match; try done. all: unfold answered; cbv zeta; by case_bool_decide. }
    apply written_ok; [rewrite Ef; apply Hc|by rewrite Ei|done|..].
    all: unfold answered in *; cbv zeta in *; rewrite bool_decide_false; [done|].
    all: rewrite closing_out; cbn [served fset f_incoming f_outgoing c_outgoing]; by rewrite Hout, <- E.
Qed.

(** Whatever [read] returns: the connection is in order or to be closed, and the
    requests that were answered have left its buffer. *)
Lemma wp_handle_read clock s a c A n rv wv (Q : unit → evloop → Prop) :
  el_conns s !! a = Some c → server_abs (el_srv s) A → bounded n A → write_ok wv →
  conn_ok c → c_want_read c = true →
  Z.of_nat n + Z.of_nat (length (c_incoming c)) + Z.of_nat (read_len rv) < cnt_max →
  (∀ srv A' n' c' evs, server_abs srv A' → bounded n' A' → same_conn c c' → io_ok c' →
    chan_steps strtod a A c evs A' c' →
    (n' + length (c_incoming c') ≤ n + length (c_incoming c) + read_len rv)%nat →
    Q tt (with_conn (emits evs s) srv a c')) →
  wp (handle_read strtod clock rv wv (Some a)) s Q.
Proof.
  intros Hc Hs Hb Hwv Hok Hr Hn HQ.
  assert (Q tt (with_conn s (el_srv s) a (closing true c))) as Hclose.
  { rewrite <- (emits_nil s) at 1. eapply (HQ _ A n); [done|done|done|by left|by apply chan_steps_refl|simpl; lia]. }
  destruct rv as [| |[|x buf]].
  - apply wp_ret. rewrite <- (with_conn_id s a c Hc), <- (emits_nil s) at 1.
    eapply (HQ _ A n); [done|done|done|by right|by apply chan_steps_refl|simpl; lia].
  - by eapply wp_conn_set; [exact Hc|].
  - by eapply wp_conn_set; [exact Hc|].
  - eapply wp_handle_read_data; [exact Hc|exact Hs|exact Hb|done|exact Hn|].
    intros srv A' vs rest bad Hserves Hs' Hb'.
    destruct (serves_rest _ _ _ _ _ _ _ _ Hserves) as [Hl Hf]. rewrite length_app in Hl.
    destruct (after_read_keeps wv rest (responses vs) bad c) as [Hk Hi].
    destruct (conn_ok_reading c Hok Hr) as [Hout _].
    eapply HQ; [done|exact Hb'|exact Hk|by apply after_read_ok|by eapply read_steps|]. rewrite Hi. simpl in *. lia.
Qed.

(** C8. Pipelining: after a successful [read], the connection holds exactly the bytes
    that are not yet a whole request; every whole request in the buffer has been
    answered, in order, as the key space specifies; the responses are what has been
    written followed by what waits to be written; and the connection is closed only
    for a malformed request or a failed [write], and is else ready for its next
    event. *)
Theorem handle_read_pipelines clock s a c A n x buf wv :
  el_conns s !! a = Some c → server_abs (el_srv s) A → bounded n A → write_ok wv →
  conn_ok c → c_want_read c = true →
  Z.of_nat n + Z.of_nat (length (c_incoming c)) + Z.of_nat (length (x :: buf)) < cnt_max →
  ∃ srv A' vs rest bad c' wr,
    handle_read strtod clock (IoOk (x :: buf)) wv (Some a) s =
      Some (tt, with_conn (emits (NRecv (c_fd c) (x :: buf) :: wr) s) srv a c') ∧
    serves strtod clock (c_incoming c ++ x :: buf) A vs rest bad A' ∧ server_abs srv A' ∧
    c_incoming c' = rest ∧ responses vs = sent wr ++ c_outgoing c' ∧
    (c_want_close c' = false → conn_ok c' ∧ bad = false).
Proof.
  intros Hc Hs Hb Hwv Hok Hr Hn. destruct (conn_ok_reading c Hok Hr) as [Hout _].
  assert (wp (handle_read strtod clock (IoOk (x :: buf)) wv (Some a)) s (λ _ s', ∃ srv A' vs rest bad,
    s' = with_conn (emits (read_events wv (x :: buf) rest (responses vs) bad c) s) srv a
      (after_read wv rest (responses vs) bad c) ∧
    serves strtod clock (c_incoming c ++ x :: buf) A vs rest bad A' ∧ server_abs srv A')) as Hw.
  { eapply wp_handle_read_data; [done..|]. intros srv A' vs rest bad Hserves Hs' _.
    by exists srv, A', vs, rest, bad. }
  apply wp_run in Hw as ([] & s' & E & srv & A' & vs & rest & bad & -> & Hserves & Hs').
  destruct (after_read_keeps wv rest (responses vs) bad c) as [_ Hi].
  pose proof (after_read_out wv (x :: buf) rest (responses vs) bad c Hout) as Hsent.
  destruct (serves_rest _ _ _ _ _ _ _ _ Hserves) as [_ Hf].
  exists srv, A', vs, rest, bad, (after_read wv rest (responses vs) bad c),
    (tail (read_events wv (x :: buf) rest (responses vs) bad c)).
  split_and!; [done..|]. intros Hopen.
  destruct (after_read_ok wv rest (responses vs) bad c Hok Hr Hf) as [?|Hok']; [congruence|].
  split; [done|]. destruct bad; [|done]. by rewrite (ck_more _ Hok'), Hi in Hf || (rewrite <- Hi, (ck_more _ Hok') in Hf).
Qed.
End io.
