(* ===== verification/LoopRep.v ===== *)
(** The invariant of the event loop: the connections, the descriptor table, and the
    list of the idle timers in the order of the last activity. *)
From S2P Require Import Prelude Common AvlRep DList HashTable Heap Buffer Request.
From S2P Require Import Server ServerSpec ServerRep ServerCmd ServerTheorems ServerTrace.
From S2P Require Import EventLoop ConnSpec Network ConnIo.

(** The time of the last activity of a connection, and the bytes in its buffer. *)
Definition last_active (conns : gmap positive Conn) (a : positive) : Z :=
  match conns !! a with Some c => c_last_active_ms c | None => 0 end.

Definition in_buffer (conns : gmap positive Conn) (a : positive) : nat :=
  match conns !! a with Some c => length (c_incoming c) | None => 0 end.

(** The bytes that wait in the buffers of the connections [l]. *)
Definition pending (conns : gmap positive Conn) (l : list positive) : nat :=
  sum_list (in_buffer conns <$> l).

(** [l] are the connections from the longest idle one to the one active last; [T] is a
    time that none of them is ahead of. *)
Record loop_rep (s : evloop) (A : astate) (l : list positive) (T : Z) : Prop := {
  lr_srv : server_abs (el_srv s) A;
  lr_ring : ring (el_nodes s) idle_head l;
  lr_conns : ∀ a, a ∈ l ↔ is_Some (el_conns s !! a);
  lr_ok : ∀ a c, el_conns s !! a = Some c → conn_ok c;
  lr_fd : ∀ fd a, lookupZ (el_fd2conn s) fd = Some (Some a) ↔
    ∃ c, el_conns s !! a = Some c ∧ c_fd c = fd;
  lr_sorted : StronglySorted (λ a b, last_active (el_conns s) a ≤ last_active (el_conns s) b) l;
  lr_time : ∀ a, a ∈ l → 0 ≤ last_active (el_conns s) a ≤ T;
  lr_start : 0 ≤ T;
}.

Section rep.
Implicit Types (s : evloop) (A : astate) (a b : positive) (c : Conn) (l : list positive) (T : Z).
Implicit Types (conns : gmap positive Conn).

Lemma sum_list_perm (l l' : list nat) : l ≡ₚ l' → sum_list l = sum_list l'.
Proof. induction 1; simpl; lia. Qed.

Lemma pending_perm conns l l' : l ≡ₚ l' → pending conns l = pending conns l'.
Proof. intros Hp. unfold pending. apply sum_list_perm. by rewrite Hp. Qed.

Lemma pending_cons conns a l : pending conns (a :: l) = (in_buffer conns a + pending conns l)%nat.
Proof. done. Qed.

Lemma pending_ext conns conns' l :
  (∀ a, a ∈ l → conns' !! a = conns !! a) → pending conns' l = pending conns l.
Proof.
  intros H. unfold pending. f_equal. apply list_fmap_ext. intros i a Ha. unfold in_buffer.
  rewrite H; [done|]. by eapply list_elem_of_lookup_2.
Qed.

Lemma sorted_time_ext conns conns' l :
  (∀ a, a ∈ l → last_active conns' a = last_active conns a) →
  StronglySorted (λ a b, last_active conns a ≤ last_active conns b) l →
  StronglySorted (λ a b, last_active conns' a ≤ last_active conns' b) l.
Proof.
  intros He. induction 1 as [|a l Hs IH Hl]; constructor.
  - apply IH. intros b Hb. apply He. by right.
  - rewrite Forall_forall in *. intros b Hb. rewrite !He by set_solver. by apply Hl.
Qed.

Lemma sorted_remove (R : positive → positive → Prop) l1 a l2 :
  StronglySorted R (l1 ++ a :: l2) → StronglySorted R (l1 ++ l2).
Proof.
  intros (H12 & H1 & H2)%StronglySorted_app. apply StronglySorted_cons in H2 as [_ H2].
  apply StronglySorted_app. split_and!; [|done..]. intros x y Hx Hy. apply H12; [done|by right].
Qed.

Lemma sorted_snoc (R : positive → positive → Prop) l a :
  StronglySorted R l → (∀ b, b ∈ l → R b a) → StronglySorted R (l ++ [a]).
Proof.
  intros Hs Ha. apply StronglySorted_app. split_and!; [|done|repeat constructor].
  intros x y Hx ->%list_elem_of_singleton. auto.
Qed.

(** * The descriptor table *)

Lemma fd_entry s A l T a c :
  loop_rep s A l T → el_conns s !! a = Some c → lookupZ (el_fd2conn s) (c_fd c) = Some (Some a).
Proof. intros Hs Hc. apply (lr_fd _ _ _ _ Hs). eauto. Qed.

Lemma fd_inj s A l T a b c c' :
  loop_rep s A l T → el_conns s !! a = Some c → el_conns s !! b = Some c' → c_fd c = c_fd c' → a = b.
Proof.
  intros Hs Ha Hb E. pose proof (fd_entry _ _ _ _ _ _ Hs Ha) as H1.
  pose proof (fd_entry _ _ _ _ _ _ Hs Hb) as H2. congruence.
Qed.

Lemma lookupZ_insert {X} (v : list X) fd p i :
  is_Some (lookupZ v fd) →
  lookupZ (<[Z.to_nat fd:=p]> v) i = if decide (i = fd) then Some p else lookupZ v i.
Proof.
  intros Hfd. apply lookupZ_is_Some in Hfd. unfold lookupZ. case_decide as E.
  - subst. destruct (Z.ltb_spec fd 0); [lia|]. apply list_lookup_insert_eq. lia.
  - destruct (Z.ltb_spec i 0); [done|]. apply list_lookup_insert_ne. lia.
Qed.

Lemma wp_fd2conn_get s fd p (Q : ptr → evloop → Prop) :
  lookupZ (el_fd2conn s) fd = Some p → Q p s → wp (fd2conn_get fd) s Q.
Proof. intros H HQ. unfold wp, fd2conn_get. by rewrite H. Qed.

Lemma wp_fd2conn_set s fd p (Q : unit → evloop → Prop) :
  is_Some (lookupZ (el_fd2conn s) fd) →
  Q tt (mkLoop (el_srv s) (el_conns s) (el_nodes s) (<[Z.to_nat fd:=p]> (el_fd2conn s)) (el_net s)) →
  wp (fd2conn_set fd p) s Q.
Proof. intros [q H] HQ. unfold wp, fd2conn_set. by rewrite H. Qed.

(** * Changing one connection *)

Lemma lr_update s A l T srv A' a c c' :
  loop_rep s A l T → el_conns s !! a = Some c → server_abs srv A' → same_conn c c' → conn_ok c' →
  loop_rep (with_conn s srv a c') A' l T.
Proof.
  intros Hs Hc Hsrv [Hf Ht] Hok.
  assert (∀ b, last_active (<[a:=c']> (el_conns s)) b = last_active (el_conns s) b) as Hla.
  { intros b. unfold last_active. destruct (decide (b = a)) as [->|].
    - by rewrite lookup_insert_eq, Hc.
    - by rewrite lookup_insert_ne. }
  destruct Hs as [_ Hr Hcs Hoks Hfd Hso Htm H0]. split; simpl; [done|done| | | | | |done].
  - intros b. rewrite Hcs, lookup_insert_is_Some. split; [|intros [<-|[_ ?]]; [by eexists|done]].
    intros Hb. destruct (decide (a = b)); [by left|by right].
  - intros b cb [[_ <-]|[_ Hb]]%lookup_insert_Some; [done|eauto].
  - intros fd b. rewrite Hfd. split; intros (cb & Hb & <-).
    + destruct (decide (b = a)) as [->|]; [|exists cb; by rewrite lookup_insert_ne].
      exists c'. rewrite lookup_insert_eq. split; [done|]. congruence.
    + apply lookup_insert_Some in Hb as [[<- <-]|[_ Hb]]; [|eauto]. exists c. by rewrite Hf.
  - eapply sorted_time_ext; [|exact Hso]. intros b _. apply Hla.
  - intros b Hb. rewrite Hla. auto.
Qed.

Lemma pending_with s A l T srv a c c' :
  loop_rep s A l T → el_conns s !! a = Some c →
  (pending (el_conns (with_conn s srv a c')) l + length (c_incoming c) =
    pending (el_conns s) l + length (c_incoming c'))%nat.
Proof.
  intros Hs Hc. assert (a ∈ l) as Ha by by apply (lr_conns _ _ _ _ Hs).
  pose proof (rg_nodup _ _ _ (lr_ring _ _ _ _ Hs)) as [_ Hnd]%NoDup_cons.
  apply list_elem_of_split in Ha as (l1 & l2 & ->). apply NoDup_middle in Hnd as [Ha _].
  rewrite !(pending_perm _ (l1 ++ a :: l2) (a :: l1 ++ l2)) by by rewrite Permutation_middle.
  rewrite !pending_cons. unfold in_buffer. rewrite with_conn_lookup, Hc.
  rewrite (pending_ext (el_conns s)); [lia|]. intros b Hb. simpl. apply lookup_insert_ne. congruence.
Qed.

(** The exchanges with the kernel are no part of the invariant. *)
Lemma lr_emits s A l T evs : loop_rep (emits evs s) A l T ↔ loop_rep s A l T.
Proof. split; intros []; split; done. Qed.

(** * Moving a connection to the end of the idle timers *)
Lemma wp_touch s A l T a c now (k : M evloop unit) (Q : unit → evloop → Prop) :
  loop_rep s A l T → el_conns s !! a = Some c → T ≤ now →
  (∀ s' l', loop_rep s' A l' now → l' ≡ₚ l → el_srv s' = el_srv s → el_fd2conn s' = el_fd2conn s →
    el_net s' = el_net s → el_conns s' = <[a:=fset f_last_active_ms now c]> (el_conns s) → wp k s' Q) →
  wp (conn_set f_last_active_ms (Some a) now;;
      zoom l_nodes (list_detach (Some a));;
      zoom l_nodes (list_insert_back (Some idle_head) (Some a));; k) s Q.
Proof.
  intros Hs Hc HT HQ. assert (a ∈ l) as Ha by by apply (lr_conns _ _ _ _ Hs).
  pose proof (rg_nodup _ _ _ (lr_ring _ _ _ _ Hs)) as Hnd.
  apply list_elem_of_split in Ha as (l1 & l2 & ->).
  wp_step. eapply wp_conn_set; [exact Hc|]. set (c' := fset f_last_active_ms now c).
  wp_step. apply wp_zoom. eapply wp_list_detach; [apply Hs|]. intros nodes Hr Hinit _ _.
  rewrite app_comm_cons in Hnd. apply NoDup_middle in Hnd as [Hah _].
  wp_step. apply wp_zoom. eapply wp_list_insert_back; [exact Hr|exact Hah|by eexists|].
  intros nodes' Hr' _ _.
  assert (a ∉ l1 ++ l2) as Ha12 by (intros ?; apply Hah; by right).
  assert (∀ b, b ∈ l1 ++ l2 → last_active (<[a:=c']> (el_conns s)) b = last_active (el_conns s) b) as Hla.
  { intros b Hb. unfold last_active. rewrite lookup_insert_ne; [done|congruence]. }
  assert (last_active (<[a:=c']> (el_conns s)) a = now) as Hla' by (unfold last_active; by rewrite lookup_insert_eq).
  assert (∀ b, b ∈ l1 ++ l2 → b ∈ l1 ++ a :: l2) as Hin by (intros b; rewrite !elem_of_app, elem_of_cons; tauto).
  pose proof Hs as [Hsrv _ Hcs Hoks Hfd Hso Htm H0].
  apply (HQ _ ((l1 ++ l2) ++ [a])); [|by rewrite (Permutation_app_comm (l1 ++ l2)), <- Permutation_middle|done..].
  split; simpl; [done|done| | | | | |lia].
  - intros b. rewrite elem_of_app, list_elem_of_singleton, lookup_insert_is_Some.
    pose proof (Hcs b) as Hb. rewrite elem_of_app, elem_of_cons in Hb. rewrite elem_of_app.
    destruct (decide (b = a)); naive_solver.
  - intros b cb [[_ <-]|[_ Hb]]%lookup_insert_Some; [|eauto]. by destruct (Hoks _ _ Hc).
  - intros fd b. rewrite Hfd. split; intros (cb & Hb & <-).
    + destruct (decide (b = a)) as [->|]; [|exists cb; by rewrite lookup_insert_ne].
      exists c'. rewrite lookup_insert_eq. split; [done|]. simplify_eq. done.
    + apply lookup_insert_Some in Hb as [[<- <-]|[_ Hb]]; [|eauto]. by exists c.
  - apply sorted_snoc.
    + eapply sorted_time_ext; [exact Hla|]. by eapply sorted_remove.
    + intros b Hb. rewrite Hla, Hla' by done. specialize (Htm b (Hin b Hb)). lia.
  - intros b [Hb| ->%list_elem_of_singleton]%elem_of_app; [|rewrite Hla'; lia].
    rewrite Hla by done. specialize (Htm b (Hin b Hb)). lia.
Qed.
(** Time passes. *)
Lemma lr_later s A l T T' : loop_rep s A l T → T ≤ T' → loop_rep s A l T'.
Proof. intros [? ? ? ? ? ? Htm ?] HT. split; try done; [|lia]. intros b Hb. specialize (Htm b Hb). lia. Qed.
End rep.
