(* ===== verification/LoopConn.v ===== *)
(** The rules of the event loop's operations on connections: accepting, an event on a
    connection, closing, and the idle timers. *)
From S2P Require Import Prelude Common AvlRep DList HashTable Heap Buffer Request.
From S2P Require Import Server ServerSpec ServerRep ServerCmd ServerTheorems ServerTrace.
From S2P Require Import EventLoop ConnSpec Network ConnIo LoopRep.

(** The answers on which [handle_accept] ends the program. *)
Definition accept_dies (acc : option accept_result) : bool :=
  match acc with
  | Some ac => (0 <=? ac_fd ac) && negb ((ac_nb1 ac =? 0) && (ac_nb2 ac =? 0))
  | None => false
  end.

Section conn.
Implicit Types (s : evloop) (A : astate) (a b : positive) (c : Conn) (l : list positive) (T : Z).
Implicit Types (conns : gmap positive Conn).

Lemma ring_ext (n n' : list_heap) h l :
  ring n h l → (∀ b, b ∈ h :: l → n' !! b = n !! b) → ring n' h l.
Proof.
  intros Hr Hn. pose proof Hr as [Hnd Hal Hp]. split; [done| |].
  - intros b Hb. rewrite Hn by done. auto.
  - intros i x y Hx Hy. pose proof (ring_alloc_round _ _ _ _ _ Hr Hx). pose proof (ring_alloc_round _ _ _ _ _ Hr Hy).
    unfold lnext, lprev. rewrite !Hn by done. by apply (Hp i).
Qed.

(** What an event leaves alone: the other connections and their descriptors. *)
Record others (a : positive) s s' : Prop := {
  ot_conns : ∀ b, b ≠ a → el_conns s' !! b = el_conns s !! b;
  ot_fd : ∀ fd b, b ≠ a → lookupZ (el_fd2conn s) fd = Some (Some b) → lookupZ (el_fd2conn s') fd = Some (Some b);
}.

Lemma others_refl a s : others a s s.
Proof. by split. Qed.

Lemma others_trans a s s' s'' : others a s s' → others a s' s'' → others a s s''.
Proof. intros [H1 F1] [H2 F2]. split; [intros b Hb; by rewrite H2, H1|eauto]. Qed.

Lemma others_with a s evs srv c : others a s (with_conn (emits evs s) srv a c).
Proof. split; simpl; [|done]. intros b Hb. by rewrite lookup_insert_ne. Qed.

(** * Closing *)
Lemma wp_conn_destroy s A l1 l2 T srv A' a c c' (Q : unit → evloop → Prop) :
  loop_rep s A (l1 ++ a :: l2) T → el_conns s !! a = Some c → server_abs srv A' → same_conn c c' →
  (∀ s', loop_rep s' A' (l1 ++ l2) T → others a s s' → el_srv s' = srv →
    el_net s' = el_net s ++ [NClose (c_fd c)] → el_conns s' = delete a (el_conns s) → Q tt s') →
  wp (conn_destroy (Some a)) (with_conn s srv a c') Q.
Proof.
  intros Hs Hc Hsrv [Hf _] HQ. pose proof Hs as [_ Hr Hcs Hoks Hfd Hso Htm H0].
  pose proof (fd_entry _ _ _ _ _ _ Hs Hc) as Hent.
  pose proof (rg_nodup _ _ _ Hr) as Hnd. rewrite app_comm_cons in Hnd.
  apply NoDup_middle in Hnd as [Hah _]. unfold conn_destroy.
  wp_step. eapply wp_conn_get; [apply with_conn_lookup|]. change (fget f_fd c') with (c_fd c'). rewrite Hf.
  wp_step. apply wp_net. wp_step. apply wp_fd2conn_set; [by eexists|].
  wp_step. apply wp_zoom. eapply wp_list_detach; [exact Hr|]. intros nodes Hr' _ _ _.
  unfold wp, conn_free. simpl. rewrite lookup_insert_eq, delete_insert_eq.
  assert (∀ b, b ∈ l1 ++ l2 → last_active (delete a (el_conns s)) b = last_active (el_conns s) b) as Hla.
  { intros b Hb. unfold last_active. rewrite lookup_delete_ne; [done|]. intros <-. apply Hah. by right. }
  assert (∀ b, b ∈ l1 ++ l2 → b ∈ l1 ++ a :: l2) as Hin by (intros b; rewrite !elem_of_app, elem_of_cons; tauto).
  apply HQ; [split; simpl| |done|done|done].
  - done.
  - eapply ring_ext; [exact Hr'|]. intros b Hb. apply lookup_delete_ne. intros <-. by apply Hah.
  - intros b. rewrite lookup_delete_is_Some. pose proof (Hcs b) as Hb.
    rewrite elem_of_app, elem_of_cons in Hb. rewrite elem_of_app. split.
    + intros Hbl. split; [|tauto]. intros <-. apply Hah. right. by rewrite elem_of_app.
    + intros [Hba Hbs]. apply Hb in Hbs. naive_solver.
  - intros b cb [_ Hb]%lookup_delete_Some. eauto.
  - intros fd b. rewrite lookupZ_insert by by eexists. case_decide as E.
    + split; [done|]. intros (cb & [Hba Hb]%lookup_delete_Some & Ecb). exfalso. apply Hba.
      eapply (fd_inj s); [exact Hs|exact Hc|exact Hb|congruence].
    + rewrite Hfd. split; intros (cb & Hb & <-).
      * exists cb. rewrite lookup_delete_ne; [done|]. intros <-. congruence.
      * apply lookup_delete_Some in Hb as [_ Hb]. eauto.
  - eapply sorted_time_ext; [exact Hla|]. by eapply sorted_remove.
  - intros b Hb. rewrite Hla by done. auto.
  - done.
  - split; simpl; [intros b Hb; by apply lookup_delete_ne|]. intros fd b Hb Hl.
    rewrite lookupZ_insert by by eexists. rewrite decide_False; [done|]. intros ->. congruence.
Qed.

(** * Accepting *)

(** The descriptor of a new connection is a non-negative [int] that is not open. *)
Definition accept_ok s (connfd : Z) : Prop :=
  connfd < 2 ^ 31 ∧ ∀ a, lookupZ (el_fd2conn s) connfd ≠ Some (Some a).

Lemma conn_fresh_none s :
  conn_fresh s ≠ idle_head ∧ el_conns s !! conn_fresh s = None ∧ el_nodes s !! conn_fresh s = None.
Proof.
  rewrite <- !not_elem_of_dom.
  pose proof (is_fresh ({[idle_head]} ∪ dom (el_conns s) ∪ dom (el_nodes s) : gset positive)) as H.
  fold (conn_fresh s) in H. set_solver.
Qed.

Lemma vec_resize_lookup (v : list ptr) n fd :
  Z.of_nat (length v) ≤ n →
  lookupZ (vec_resize v n) fd =
    if decide (0 ≤ fd < n) then Some (default None (lookupZ v fd)) else None.
Proof.
  intros Hn. unfold vec_resize. rewrite take_ge by lia. case_decide as E.
  - destruct (decide (fd < Z.of_nat (length v))).
    + rewrite lookupZ_app_l by lia. destruct (proj2 (lookupZ_is_Some v fd)) as [p Hp]; [lia|]. by rewrite Hp.
    + rewrite lookupZ_app_r, (lookupZ_out v) by lia. unfold lookupZ.
      destruct (Z.ltb_spec (fd - Z.of_nat (length v)) 0); [lia|].
      rewrite lookup_replicate_2 by lia. done.
  - apply lookupZ_out. rewrite length_app, length_replicate. lia.
Qed.

(** The table after it has been made long enough. *)
Definition fd_table (v : list ptr) (fd : Z) : list ptr :=
  if Z.of_nat (length v) <=? u64 fd then vec_resize v (fd + 1) else v.

Lemma fd_table_lookup v fd i b :
  0 ≤ fd < 2 ^ 31 → lookupZ (fd_table v fd) i = Some (Some b) ↔ lookupZ v i = Some (Some b).
Proof.
  intros Hfd. unfold fd_table. rewrite u64_small by lia.
  destruct (Z.leb_spec (Z.of_nat (length v)) fd); [|done].
  rewrite vec_resize_lookup by lia. case_decide.
  - destruct (lookupZ v i); simpl; split; congruence.
  - rewrite (lookupZ_out v) by lia. done.
Qed.

Lemma fd_table_at v fd :
  0 ≤ fd < 2 ^ 31 → lookupZ (fd_table v fd) fd = Some (default None (lookupZ v fd)).
Proof.
  intros Hfd. unfold fd_table. rewrite u64_small by lia.
  destruct (Z.leb_spec (Z.of_nat (length v)) fd) as [Hle|Hlt].
  - rewrite vec_resize_lookup by lia. by rewrite decide_True by lia.
  - destruct (proj2 (lookupZ_is_Some v fd)) as [p Hp]; [lia|]. by rewrite Hp.
Qed.

(** The descriptor table has room for a new connection. *)
Lemma accept_entry s connfd :
  accept_ok s connfd → 0 ≤ connfd → lookupZ (fd_table (el_fd2conn s) connfd) connfd = Some None.
Proof.
  intros [Hmax Hclosed] Hpos. rewrite fd_table_at by lia.
  destruct (lookupZ (el_fd2conn s) connfd) as [[b|]|] eqn:E; [by destruct (Hclosed b)|done..].
Qed.

(** The state with a new connection. *)
Definition accepted s connfd now a nodes : evloop :=
  mkLoop (el_srv s) (<[a:=mkConn connfd true false false [] [] now]> (el_conns s)) nodes
    (<[Z.to_nat connfd:=Some a]> (fd_table (el_fd2conn s) connfd)) (el_net s ++ [NAccept connfd]).

Lemma accepted_fd s A l T connfd now a nodes fd b :
  loop_rep s A l T → accept_ok s connfd → 0 ≤ connfd → el_conns s !! a = None →
  lookupZ (el_fd2conn (accepted s connfd now a nodes)) fd = Some (Some b) ↔
    ∃ c, el_conns (accepted s connfd now a nodes) !! b = Some c ∧ c_fd c = fd.
Proof.
  intros Hs Hok Hpos Ha. pose proof (accept_entry _ _ Hok Hpos) as Hv. destruct Hok as [Hmax Hclosed].
  pose proof (lr_fd _ _ _ _ Hs) as Hfd. simpl. rewrite lookupZ_insert by by eexists. case_decide as E.
  - subst fd. split; [intros [= <-]; eexists; by rewrite lookup_insert_eq|].
    intros (cb & [[-> _]|[_ Hb]]%lookup_insert_Some & E); [done|]. destruct (Hclosed b). apply Hfd. eauto.
  - rewrite fd_table_lookup, Hfd by lia. split; intros (cb & Hb & <-).
    + exists cb. rewrite lookup_insert_ne; [done|congruence].
    + apply lookup_insert_Some in Hb as [[<- <-]|[_ Hb]]; [done|eauto].
Qed.

Lemma accepted_rep s A l T connfd now a nodes :
  loop_rep s A l T → accept_ok s connfd → 0 ≤ connfd → T ≤ now → el_conns s !! a = None →
  ring nodes idle_head (l ++ [a]) → loop_rep (accepted s connfd now a nodes) A (l ++ [a]) now.
Proof.
  intros Hs Hok Hpos HT Hac Hr'. pose proof Hs as [Hsrv _ Hcs Hoks _ Hso Htm H0].
  assert (a ∉ l) as Hal by (intros [? ?]%Hcs; congruence).
  set (conns := el_conns (accepted s connfd now a nodes)).
  assert (∀ b, b ∈ l → last_active conns b = last_active (el_conns s) b) as Hla.
  { intros b Hb. unfold last_active, conns. simpl. rewrite lookup_insert_ne; [done|congruence]. }
  assert (last_active conns a = now) as Hla' by (unfold last_active, conns; simpl; by rewrite lookup_insert_eq).
  split; [done|done| | | | | |lia].
  - intros b. simpl. rewrite elem_of_app, list_elem_of_singleton, lookup_insert_is_Some, Hcs.
    destruct (decide (a = b)); naive_solver.
  - destruct Hok. intros b cb. simpl. intros [[_ <-]|[_ Hb]]%lookup_insert_Some; [|eauto]. split; [simpl; lia|done|by split|done].
  - intros fd b. by eapply accepted_fd.
  - apply sorted_snoc; [by eapply sorted_time_ext|]. intros b Hb. fold conns. rewrite Hla, Hla' by done.
    specialize (Htm b Hb). lia.
  - fold conns. intros b [Hb| ->%list_elem_of_singleton]%elem_of_app; [|rewrite Hla'; lia].
    rewrite Hla by done. specialize (Htm b Hb). lia.
Qed.

Lemma accepted_others s connfd now a nodes :
  accept_ok s connfd → 0 ≤ connfd → others a s (accepted s connfd now a nodes).
Proof.
  intros Hok Hpos. pose proof (accept_entry _ _ Hok Hpos) as Hv. destruct Hok as [Hmax Hclosed].
  split; simpl; [intros b Hb; by rewrite lookup_insert_ne|]. intros fd b Hb Hl.
  rewrite lookupZ_insert by by eexists. rewrite decide_False; [by rewrite fd_table_lookup by lia|].
  intros ->. by destruct (Hclosed b).
Qed.

Lemma accept_dies_spec ac :
  accept_dies (Some ac) = true ∧ 0 ≤ ac_fd ac ∧ fd_set_nb (ac_nb1 ac) (ac_nb2 ac) = Died (str "fcntl error") ∨
  accept_dies (Some ac) = false ∧ (ac_fd ac < 0 ∨ fd_set_nb (ac_nb1 ac) (ac_nb2 ac) = Running).
Proof.
  unfold accept_dies, fd_set_nb.
  destruct (Z.leb_spec 0 (ac_fd ac)), (ac_nb1 ac =? 0), (ac_nb2 ac =? 0); simpl; tauto.
Qed.

Lemma wp_handle_accept s A l T ac (Q : list Byte.byte + Z → evloop → Prop) :
  let connfd := ac_fd ac in
  let now := ac_now ac in
  loop_rep s A l T → accept_ok s connfd → T ≤ now →
  (connfd < 0 → Q (inr (-1)) s) →
  (accept_dies (Some ac) = true → Q (inl (str "fcntl error")) (emits [NAccept connfd] s)) →
  (accept_dies (Some ac) = false → ∀ s' a, 0 ≤ connfd → el_conns s !! a = None → loop_rep s' A (l ++ [a]) now → others a s s' →
    pending (el_conns s') (l ++ [a]) = pending (el_conns s) l →
    el_net s' = el_net s ++ [NAccept connfd] →
    chan_of <$> el_conns s' = <[a:=mkChan connfd [] []]> (chan_of <$> el_conns s) → Q (inr 0) s') →
  wp (handle_accept ac) s Q.
Proof.
  intros connfd now Hs Hok HT Herr Hdie HQ. unfold handle_accept. fold connfd.
  destruct (Z.ltb_spec connfd 0) as [Hneg|Hpos]; [by apply wp_ret, Herr|].
  destruct (accept_dies_spec ac) as [(Ed & _ & ->)|[Ed [Hneg| ->]]]; [| |fold now].
  { wp_step. apply wp_net. by apply wp_ret, Hdie. }
  { unfold connfd in Hpos. lia. }
  specialize (HQ Ed).
  destruct (conn_fresh_none s) as (Hah & Hac & Han). set (a := conn_fresh s) in *.
  pose proof Hs as [_ Hr Hcs _ _ _ _ _].
  assert (a ∉ l) as Hal by (intros [? ?]%Hcs; congruence).
  wp_step. apply wp_net. wp_step. eapply wp_eq; [done|]. change (conn_fresh (emits _ s)) with a. wp_step.
  eapply wp_conn_set; [apply lookup_insert_eq|]. simpl. rewrite insert_insert_eq.
  wp_step. eapply wp_conn_set; [apply lookup_insert_eq|]. simpl. rewrite insert_insert_eq.
  wp_step. eapply wp_conn_set; [apply lookup_insert_eq|]. simpl. rewrite insert_insert_eq.
  wp_step. apply wp_zoom. apply (wp_list_insert_back _ idle_head l a).
  { eapply ring_ext; [exact Hr|]. intros b Hb. apply lookup_insert_ne. intros <-. set_solver. }
  { rewrite not_elem_of_cons. done. }
  { simpl. rewrite lookup_insert_eq. by eexists. }
  intros nodes Hr' _ _. wp_step. wp_step. wp_step. eapply wp_conn_get; [apply lookup_insert_eq|].
  change (fget f_fd _) with connfd. simpl el_fd2conn.
  assert (∀ s1, el_fd2conn s1 = fd_table (el_fd2conn s) connfd →
    mkLoop (el_srv s1) (el_conns s1) (el_nodes s1) (<[Z.to_nat connfd:=Some a]> (el_fd2conn s1)) (el_net s1) =
      accepted s connfd now a nodes →
    wp (p ← fd2conn_get connfd; assert (bool_decide (p = None));; fd2conn_set connfd (Some a);; mret (inr 0)) s1 Q) as Hend.
  { intros s1 Hv E. pose proof (accept_entry _ _ Hok Hpos) as Hnone. rewrite <- Hv in Hnone.
    wp_step. eapply wp_fd2conn_get; [exact Hnone|]. wp_step. apply wp_assert; [done|].
    wp_step. apply wp_fd2conn_set; [by eexists|]. apply wp_ret. rewrite E.
    apply (HQ _ a); [done|done|by eapply accepted_rep|by apply accepted_others| |done|simpl; by rewrite fmap_insert].
    rewrite (pending_perm _ (l ++ [a]) (a :: l)) by (by rewrite Permutation_app_comm).
    rewrite pending_cons. unfold in_buffer. simpl. rewrite lookup_insert_eq. simpl.
    apply pending_ext. intros b Hb. apply lookup_insert_ne. congruence. }
  wp_step. destruct (Z.of_nat (length (el_fd2conn s)) <=? u64 connfd) eqn:Ev;
    apply Hend; simpl; unfold accepted, fd_table; by rewrite Ev.
Qed.
End conn.
