(* ===== verification/LoopTurn.v ===== *)
(** Whole turns of the event loop: the events of the connections, the idle timers and
    the TTL timers, under the contract of [poll], [read] and [write]. *)
From S2P Require Import Prelude Common AvlRep DList HashTable Heap Buffer Request.
From S2P Require Import Server ServerSpec ServerRep ServerCmd ServerTheorems ServerTrace.
From S2P Require Import EventLoop ConnSpec Network ConnIo LoopRep LoopConn.

(** [poll] reports what was asked for, on open descriptors; [write] writes at most
    what it is given. *)
Record event_ok (s : evloop) (e : revent) : Prop := {
  ev_poll : ∃ r w, (re_fd e, r, w) ∈ poll_args s ∧ (re_in e = true → r = true) ∧ (re_out e = true → w = true);
  ev_write_in : write_ok (re_write_in e);
  ev_write_out : write_ok (re_write_out e);
}.

Section turn.
Context (strtod : list Byte.byte → Z * nat).
Implicit Types (s : evloop) (A : astate) (a b : positive) (c : Conn) (l : list positive) (T : Z).

Lemma poll_args_in s A l T fd r w :
  loop_rep s A l T → (fd, r, w) ∈ poll_args s ↔
    ∃ a c, lookupZ (el_fd2conn s) fd = Some (Some a) ∧ el_conns s !! a = Some c ∧ c_fd c = fd ∧
      r = c_want_read c ∧ w = c_want_write c.
Proof.
  intros Hs. unfold poll_args. rewrite list_elem_of_omap. split.
  - intros ([a|] & Hin & E); [|done]. destruct (el_conns s !! a) as [c|] eqn:Hc; [|done].
    injection E as <- <- <-. exists a, c. split_and!; [|done..]. by eapply fd_entry.
  - intros (a & c & Hfd & Hc & <- & -> & ->). exists (Some a). rewrite Hc. split; [|done].
    unfold lookupZ in Hfd. destruct (c_fd c <? 0); [done|]. by eapply list_elem_of_lookup_2.
Qed.

(** What an event finds: its connection, with the intention that was polled for. *)
Definition event_conn s (e : revent) a c : Prop :=
  lookupZ (el_fd2conn s) (re_fd e) = Some (Some a) ∧ el_conns s !! a = Some c ∧
  (re_in e = true → c_want_read c = true) ∧ (re_out e = true → c_want_write c = true).

Lemma event_ok_conn s A l T e : loop_rep s A l T → event_ok s e → ∃ a c, event_conn s e a c.
Proof.
  intros Hs [(r & w & Hp & Hr & Hw) _ _]. apply (poll_args_in _ _ _ _ _ _ _ Hs) in Hp as (a & c & Hfd & Hc & E & -> & ->).
  by exists a, c.
Qed.

Lemma event_conn_others s s' e a b c :
  event_conn s e b c → b ≠ a → others a s s' → event_conn s' e b c.
Proof. intros (Hfd & Hc & Hr & Hw) Hb [Ho Hf]. split_and!; [by apply Hf|by rewrite Ho|done..]. Qed.

(** ** Exchanges with the kernel, as steps of the machine *)

Lemma sim_accept s s' A l T a fd :
  loop_rep s A l T → accept_ok s fd → el_conns s !! a = None → el_net s' = el_net s ++ [NAccept fd] →
  chan_of <$> el_conns s' = <[a:=mkChan fd [] []]> (chan_of <$> el_conns s) → sim strtod s A s' A.
Proof.
  intros Hs [_ Hclosed] Ha Enet Ec. exists [NAccept fd]. split; [done|]. unfold view. rewrite Ec.
  apply nss_one, ns_accept; [by rewrite lookup_fmap, Ha|].
  intros b ch. rewrite lookup_fmap. destruct (el_conns s !! b) as [c|] eqn:Hb; [|done].
  intros [= <-] E. apply (Hclosed b). rewrite <- E. by eapply fd_entry.
Qed.

Lemma sim_close s s' A a c :
  el_conns s !! a = Some c → el_net s' = el_net s ++ [NClose (c_fd c)] →
  el_conns s' = delete a (el_conns s) → sim strtod s A s' A.
Proof.
  intros Hc Enet Ec. exists [NClose (c_fd c)]. split; [done|]. unfold view. rewrite Ec, fmap_delete.
  apply nss_one. apply (ns_close strtod A _ a (chan_of c)). by rewrite lookup_fmap, Hc.
Qed.

(** ** The handlers of one event *)

Lemma wp_event_in s A l T a c n e (k : M evloop unit) (Q : unit → evloop → Prop) :
  loop_rep s A l T → el_conns s !! a = Some c → bounded n A → write_ok (re_write_in e) →
  (re_in e = true → c_want_read c = true) →
  Z.of_nat n + Z.of_nat (length (c_incoming c)) + Z.of_nat (read_len (re_read e)) < cnt_max →
  (∀ srv A' n' c' evs, server_abs srv A' → bounded n' A' → same_conn c c' → io_ok c' →
    (re_in e = false → c' = c) → chan_steps strtod a A c evs A' c' →
    (n' + length (c_incoming c') ≤ n + length (c_incoming c) + read_len (re_read e))%nat →
    wp k (with_conn (emits evs s) srv a c') Q) →
  wp ((if re_in e then
         b ← conn_get f_want_read (Some a);
         assert b;;
         handle_read strtod (re_clock e) (re_read e) (re_write_in e) (Some a)
       else mret tt);; k) s Q.
Proof.
  intros Hs Hc Hb Hwv Hin Hn HQ. pose proof (lr_ok _ _ _ _ Hs _ _ Hc) as Hok.
  wp_step. destruct (re_in e).
  - wp_step. eapply wp_conn_get; [exact Hc|]. wp_step. apply wp_assert; [by apply Hin|].
    eapply wp_handle_read; [exact Hc|apply Hs|exact Hb|done|done|by apply Hin|done|].
    intros srv A' n' c' evs Hs' Hb' Hsc Hio Hst Hl. by eapply HQ.
  - apply wp_ret. rewrite <- (with_conn_id s a c Hc), <- (emits_nil s) at 1.
    eapply (HQ _ A n); [apply Hs|done|done|by right|done|by apply chan_steps_refl|lia].
Qed.

Lemma wp_event_out s a c wv (out : bool) (k : M evloop unit) (Q : unit → evloop → Prop) :
  el_conns s !! a = Some c → io_ok c → (out = true → conn_ok c ∧ c_want_write c = true) → write_ok wv →
  (∀ c' evs, same_conn c c' → io_ok c' → c_incoming c' = c_incoming c →
    (∀ A, chan_steps strtod a A c evs A c') → wp k (with_conn (emits evs s) (el_srv s) a c') Q) →
  wp ((if out then
         b ← conn_get f_want_write (Some a);
         assert b;;
         handle_write wv (Some a)
       else mret tt);; k) s Q.
Proof.
  intros Hc Hio Hout Hwv HQ. wp_step. destruct out.
  - destruct Hout as [Hok Hw]; [done|]. destruct (conn_ok_writing c Hok Hw) as [Hne Hr].
    wp_step. eapply wp_conn_get; [exact Hc|]. wp_step. apply wp_assert; [exact Hw|].
    eapply wp_handle_write; [exact Hc|exact Hne|done|].
    destruct (written_keeps wv c) as (Hf & Ht & Hi).
    apply HQ; [done| |done|intros A; apply written_steps]. apply written_ok; [apply Hok|apply Hok|done..].
  - apply wp_ret. rewrite <- (with_conn_id s a c Hc), <- (emits_nil s) at 1.
    apply HQ; [done|done|done|]. intros A. by apply chan_steps_refl.
Qed.

(** ** One event *)

Lemma in_buffer_le s A l T a c :
  loop_rep s A l T → el_conns s !! a = Some c → (length (c_incoming c) ≤ pending (el_conns s) l)%nat.
Proof.
  intros Hs Hc.
  assert (a ∈ l) as (x & y & ->)%list_elem_of_split by (apply (lr_conns _ _ _ _ Hs); by eexists).
  rewrite (pending_perm _ _ (a :: x ++ y)) by by rewrite Permutation_middle.
  rewrite pending_cons. unfold in_buffer. rewrite Hc. lia.
Qed.

(** The idle timer starts again, which no client sees. *)
Lemma touch_keeps s s1 A l l1 a c now :
  el_conns s !! a = Some c → l1 ≡ₚ l → el_fd2conn s1 = el_fd2conn s → el_net s1 = el_net s →
  el_conns s1 = <[a:=fset f_last_active_ms now c]> (el_conns s) →
  others a s s1 ∧ sim strtod s A s1 A ∧ pending (el_conns s1) l1 = pending (el_conns s) l.
Proof.
  intros Hc Hl Hfd Hnet Hcs. split_and!.
  - split; [intros b Hb; by rewrite Hcs, lookup_insert_ne|]. intros fd b _. by rewrite Hfd.
  - apply sim_same; [done|]. rewrite Hcs. by apply (chans_insert s a c _).
  - rewrite (pending_perm _ l1 l) by done. rewrite Hcs. unfold pending. f_equal. apply list_fmap_ext.
    intros i b _. unfold in_buffer. destruct (decide (b = a)) as [->|];
      [by rewrite lookup_insert_eq, Hc|by rewrite lookup_insert_ne].
Qed.

(** The end of an event: the connection is closed or goes on. *)
Lemma wp_event_end s A l T a c srv A' c' evs (err : bool) (Q : unit → evloop → Prop) :
  loop_rep s A l T → el_conns s !! a = Some c → server_abs srv A' → same_conn c c' → io_ok c' →
  chan_steps strtod a A c evs A' c' →
  (∀ s' l', loop_rep s' A' l' T → others a s s' → sim strtod s A s' A' →
    (pending (el_conns s') l' + length (c_incoming c) ≤ pending (el_conns s) l + length (c_incoming c'))%nat →
    Q tt s') →
  wp (wc ← conn_get f_want_close (Some a);
      if err || wc then conn_destroy (Some a) else mret tt) (with_conn (emits evs s) srv a c') Q.
Proof.
  intros Hs Hc Hsrv Hsc Hio Hst HQ.
  pose proof (sim_chan _ s A a c evs srv A' c' Hc Hst) as Hm.
  pose proof (proj2 (lr_emits s A l T evs) Hs) as Hs1. set (s1 := emits evs s) in *.
  assert (others a s s1) as Ho1 by by split.
  pose proof (pending_with s A l T srv a c c' Hs Hc) as Hpw.
  wp_step. eapply wp_conn_get; [apply with_conn_lookup|]. change (fget f_want_close c') with (c_want_close c').
  destruct (err || c_want_close c') eqn:Eclose.
  - assert (a ∈ l) as (x & y & ->)%list_elem_of_split by (apply (lr_conns _ _ _ _ Hs); by eexists).
    eapply wp_conn_destroy; [exact Hs1|exact Hc|exact Hsrv|exact Hsc|].
    intros s2 Hs2 Ho2 _ Hnet2 Hcs2. apply (HQ s2 (x ++ y)); [exact Hs2|by eapply others_trans| |].
    { eapply sim_trans; [exact Hm|]. eapply (sim_close _ _ _ a c'); [apply with_conn_lookup| |].
      - rewrite Hnet2. destruct Hsc as [-> _]. done.
      - rewrite Hcs2. simpl. by rewrite delete_insert_eq. }
    change (el_conns s1) with (el_conns s) in Hcs2. rewrite Hcs2, (pending_ext (el_conns s)).
    2: { intros b Hb2. apply lookup_delete_ne. intros <-.
         apply (lr_conns _ _ _ _ Hs2) in Hb2. rewrite Hcs2, lookup_delete_eq in Hb2. by destruct Hb2. }
    rewrite (pending_perm _ (x ++ a :: y) (a :: x ++ y)) by by rewrite Permutation_middle.
    assert (in_buffer (el_conns s) a = length (c_incoming c)) as Eb by (unfold in_buffer; by rewrite Hc).
    rewrite pending_cons, Eb. lia.
  - apply wp_ret. apply orb_false_iff in Eclose as [_ Eclose]. destruct Hio as [?|Hok]; [congruence|].
    apply (HQ _ l); [by eapply lr_update|apply others_with|done|].
    change (el_conns (with_conn s1 srv a c')) with (el_conns (with_conn s srv a c')). lia.
Qed.

Lemma wp_conn_event s A l T a c n e (Q : unit → evloop → Prop) :
  loop_rep s A l T → event_conn s e a c → write_ok (re_write_in e) → write_ok (re_write_out e) →
  bounded n A → T ≤ re_now e →
  Z.of_nat n + Z.of_nat (pending (el_conns s) l) + Z.of_nat (read_len (re_read e)) < cnt_max →
  (∀ s' A' l' n', loop_rep s' A' l' (re_now e) → bounded n' A' → others a s s' → sim strtod s A s' A' →
    (n' + pending (el_conns s') l' ≤ n + pending (el_conns s) l + read_len (re_read e))%nat → Q tt s') →
  wp (conn_event strtod e) s Q.
Proof.
  intros Hs (Hfd & Hc & Hin & Hout) Hwi Hwo Hb HT Hn HQ. unfold conn_event.
  destruct (re_in e || re_out e || re_err e || re_hup e) eqn:Eany; cbn [negb].
  2: { apply wp_ret. apply (HQ s A l n); [|done|apply others_refl|apply sim_refl|lia].
       by eapply lr_later. }
  wp_step. eapply wp_fd2conn_get; [exact Hfd|].
  eapply wp_touch; [exact Hs|exact Hc|done|]. intros s1 l1 Hs1 Hl1 _ Hfd1 Hnet1 Hcs1.
  destruct (touch_keeps s s1 A l l1 a c (re_now e) Hc Hl1 Hfd1 Hnet1 Hcs1) as (Ho1 & Hm1 & Hp1).
  set (c1 := fset f_last_active_ms (re_now e) c) in *.
  assert (el_conns s1 !! a = Some c1) as Hc1 by (rewrite Hcs1; apply lookup_insert_eq).
  pose proof (in_buffer_le _ _ _ _ _ _ Hs1 Hc1) as Hle.
  eapply wp_event_in; [exact Hs1|exact Hc1|exact Hb|done|exact Hin|lia|].
  intros srv A' n' c2 evs Hsrv Hb' Hsc Hio Hkeep Hst Hlen.
  eapply (wp_event_out _ a c2); [apply with_conn_lookup|done| |done|].
  { intros Eo. specialize (Hout Eo). pose proof (lr_ok _ _ _ _ Hs1 _ _ Hc1) as Hok1.
    destruct (re_in e) eqn:Ei; [|rewrite Hkeep by done; done].
    exfalso. destruct (conn_ok_reading c1 Hok1) as [_ Hw]; [by apply Hin|].
    change (c_want_write c1) with (c_want_write c) in Hw. congruence. }
  intros c3 evs' Hsc' Hio' Hi' Hst'. rewrite emits_with, with_conn_twice, emits_emits.
  change (el_srv (with_conn _ srv a c2)) with srv.
  assert (same_conn c1 c3) as Hsc3 by (destruct Hsc, Hsc'; split; congruence).
  eapply wp_event_end; [exact Hs1|exact Hc1|exact Hsrv|exact Hsc3|exact Hio'| |].
  { by eapply chan_steps_trans. }
  intros s2 l2 Hs2 Ho2 Hm2 Hp2. rewrite Hi' in Hp2.
  eapply (HQ s2 A' l2 n'); [done|done|by eapply others_trans|by eapply sim_trans|lia].
Qed.

(** ** All events *)

(** The clock does not run backwards. *)
Fixpoint times_ok (T : Z) (es : list revent) (now : Z) : Prop :=
  match es with
  | [] => T ≤ now
  | e :: es => T ≤ re_now e ∧ times_ok (re_now e) es now
  end.

Definition read_total (es : list revent) : nat := sum_list ((λ e, read_len (re_read e)) <$> es).

Lemma wp_conn_events es s A l T n now (Q : unit → evloop → Prop) :
  loop_rep s A l T → NoDup (re_fd <$> es) →
  (∀ e, e ∈ es → (∃ a c, event_conn s e a c) ∧ write_ok (re_write_in e) ∧ write_ok (re_write_out e)) →
  times_ok T es now → bounded n A →
  Z.of_nat n + Z.of_nat (pending (el_conns s) l) + Z.of_nat (read_total es) < cnt_max →
  (∀ s' A' l' n', loop_rep s' A' l' now → bounded n' A' → sim strtod s A s' A' →
    (n' + pending (el_conns s') l' ≤ n + pending (el_conns s) l + read_total es)%nat → Q tt s') →
  wp (conn_events strtod es) s Q.
Proof.
  revert s A l T n. induction es as [|e es IH]; intros s A l T n Hs Hnd Hev HT Hb Hn HQ.
  - apply wp_ret. eapply (HQ s A l n); [by eapply lr_later|done|apply sim_refl|lia].
  - cbn [conn_events]. destruct HT as [HT1 HT2]. rewrite fmap_cons in Hnd. apply NoDup_cons in Hnd as [He Hnd].
    destruct (Hev e) as ((a & c & Hconn) & Hwi & Hwo); [left|].
    unfold read_total in *. cbn [fmap list_fmap sum_list sum_list_with] in *.
    wp_step. eapply wp_conn_event; [exact Hs|exact Hconn|done|done|exact Hb|done|simpl in *; lia|].
    intros s1 A1 l1 n1 Hs1 Hb1 Ho Hm Hp.
    apply (IH s1 A1 l1 (re_now e) n1); [done|done| |done|done|simpl in *; lia|].
    + intros e' He'. destruct (Hev e') as ((b & cb & Hb2) & ?); [by right|]. split; [|done].
      exists b, cb. eapply event_conn_others; [exact Hb2| |exact Ho]. intros ->. apply He.
      apply list_elem_of_fmap. exists e'. split; [|done].
      destruct Hconn as (Hf1 & _), Hb2 as (Hf2 & _).
      apply (lr_fd _ _ _ _ Hs) in Hf1 as (c1 & E1 & <-). apply (lr_fd _ _ _ _ Hs) in Hf2 as (c2 & E2 & <-).
      congruence.
    + intros s' A' l' n' Hs' Hb' Hm' Hp'. eapply HQ; [exact Hs'|exact Hb'|by eapply sim_trans|]. simpl in *. lia.
Qed.

(** * Idle timers *)

Definition idle_expired (now : Z) (conns : gmap positive Conn) (a : positive) : Prop :=
  last_active conns a + k_idle_timeout_ms < now.

Lemma ring_first (nodes : list_heap) a l (Q : ptr → list_heap → Prop) :
  ring nodes idle_head (a :: l) → Q (Some a) nodes → wp (Some idle_head ->> f_lnext) nodes Q.
Proof.
  intros [_ _ Hp] HQ. destruct (Hp 0%nat idle_head a) as [Hn _]; [done|done|]. by eapply wp_get_next.
Qed.

(** The loop closes the connections that have been idle for too long; these are the
    first ones. *)
Lemma wp_idle_loop fuel s A l T now (Q : unit → evloop → Prop) :
  loop_rep s A l T → T < 2 ^ 63 → (length l < fuel)%nat →
  (∀ s' gone l', l = gone ++ l' → loop_rep s' A l' T → el_srv s' = el_srv s →
    (∀ a, a ∈ gone → idle_expired now (el_conns s) a) →
    (∀ a, a ∈ l' → ¬ idle_expired now (el_conns s) a) →
    (∀ a, a ∈ l' → el_conns s' !! a = el_conns s !! a) → sim strtod s A s' A → Q tt s') →
  wp (idle_loop fuel now) s Q.
Proof.
  revert s l. induction fuel as [|fuel IH]; intros s l Hs HT Hf HQ; [lia|].
  cbn [idle_loop]. wp_step. apply wp_zoom. eapply wp_list_empty; [apply Hs|].
  replace (fset l_nodes _ s) with s by by destruct s.
  destruct l as [|a l].
  { rewrite bool_decide_true by done. apply wp_ret. apply (HQ s [] []); [done|done|done|set_solver..|apply sim_refl]. }
  rewrite bool_decide_false by done. unfold idle_first. wp_step. apply wp_zoom.
  eapply ring_first; [apply Hs|]. replace (fset l_nodes _ s) with s by by destruct s.
  assert (a ∈ a :: l) as Ha by left. pose proof (lr_time _ _ _ _ Hs a Ha) as Hta.
  apply (lr_conns _ _ _ _ Hs) in Ha as [c Hc].
  assert (last_active (el_conns s) a = c_last_active_ms c) as Ela by (unfold last_active; by rewrite Hc).
  wp_step. eapply wp_conn_get; [exact Hc|]. change (fget f_last_active_ms c) with (c_last_active_ms c).
  cbv zeta. rewrite <- Ela, u64_small by (unfold k_idle_timeout_ms; lia).
  pose proof (lr_sorted _ _ _ _ Hs) as [Hso _]%StronglySorted_cons. rewrite Forall_forall in Hso.
  destruct (Z.leb_spec now (last_active (el_conns s) a + k_idle_timeout_ms)) as [Hle|Hlt].
  - apply wp_ret. apply (HQ s [] (a :: l)); [done|done|done|set_solver| |done|apply sim_refl].
    intros b Hb. unfold idle_expired. apply elem_of_cons in Hb as [->|Hb]; [lia|].
    specialize (Hso b Hb). simpl in Hso. lia.
  - wp_step. rewrite <- (with_conn_id s a c Hc) at 1.
    eapply (wp_conn_destroy s A []); [exact Hs|exact Hc|apply Hs|done|].
    intros s1 Hs1 Ho1 Hsrv1 Hnet1 Hcs1. simpl in Hs1.
    assert (a ∉ l) as Hal.
    { pose proof (rg_nodup _ _ _ (lr_ring _ _ _ _ Hs)) as [_ [? _]%NoDup_cons]%NoDup_cons. done. }
    assert (∀ b, b ∈ l → el_conns s1 !! b = el_conns s !! b) as Hsame.
    { intros b Hb. rewrite Hcs1. apply lookup_delete_ne. congruence. }
    assert (∀ b, b ∈ l → last_active (el_conns s1) b = last_active (el_conns s) b) as Hla.
    { intros b Hb. unfold last_active. by rewrite Hsame. }
    apply (IH s1 l); [done|done|simpl in Hf; lia|].
    intros s' gone l' -> Hs' Hsrv' Hgone Hkeep Hcs' Hm'.
    apply (HQ s' (a :: gone) l'); [done|done|by rewrite Hsrv', Hsrv1| | | |].
    + intros b [->|Hb]%elem_of_cons; [done|]. unfold idle_expired. rewrite <- Hla by set_solver. by apply Hgone.
    + intros b Hb. unfold idle_expired. rewrite <- Hla by set_solver. by apply Hkeep.
    + intros b Hb. rewrite Hcs' by done. apply Hsame. set_solver.
    + eapply sim_trans; [|exact Hm']. by eapply sim_close.
Qed.
End turn.
