(* ===== verification/LoopTheorems.v ===== *)
(** The theorems of the event loop: no run faults, its invariant, the idle timers, and
    the timeout of [poll]. *)
From S2P Require Import Prelude Common AvlRep DList HashTable HashRep HashMap HashIndex.
From S2P Require Import Heap HeapProof HeapMap ZSet Buffer Request.
From S2P Require Import Server ServerSpec ServerRep ServerEnt ServerCmd ServerTheorems ServerTrace.
From S2P Require Import EventLoop ConnSpec Network ConnIo LoopRep LoopConn LoopTurn.

(** What the system calls of one turn of the loop may answer in the state [s], at a
    time [T] or later. *)
Record turn_ok (s : evloop) (T : Z) (acc : option accept_result) (es : list revent)
    (now : Z) : Prop := {
  to_accept : ∀ ac, acc = Some ac → accept_ok s (ac_fd ac) ∧ T ≤ ac_now ac;
  to_events : ∀ e, e ∈ es → event_ok s e;
  to_fds : NoDup (re_fd <$> es);
  to_times : times_ok (match acc with Some ac => ac_now ac | None => T end) es now;
  to_clock : now < 2 ^ 63;
}.

(** [g_data] at the start, with the list head linked to itself. *)
Definition loop_init : evloop :=
  mkLoop server_init ∅ {[idle_head := list_node_init idle_head]} [] [].

Section turns.
Context (strtod : list Byte.byte → Z * nat).
Implicit Types (s : evloop) (A : astate) (a b : positive) (c : Conn) (l : list positive) (T : Z).

Lemma loop_init_rep : loop_rep loop_init astate_init [] 0.
Proof.
  split; simpl; try done.
  - apply server_init_abs.
  - apply ring_init. apply lookup_singleton_eq.
  - intros a. split; [by intros ?%elem_of_nil|by intros [? ?]].
  - intros fd a. split; [|by intros (? & ? & _)]. unfold lookupZ. by destruct (fd <? 0).
  - constructor.
Qed.

(** The server changes under the loop. *)
Lemma lr_with_srv s A l T srv A' :
  loop_rep s A l T → server_abs srv A' → loop_rep (fset l_srv srv s) A' l T.
Proof. by intros []. Qed.

Lemma lr_length s A l T : loop_rep s A l T → (length l ≤ size (el_conns s))%nat.
Proof.
  intros Hs. apply length_le_size.
  - by pose proof (rg_nodup _ _ _ (lr_ring _ _ _ _ Hs)) as [_ ?]%NoDup_cons.
  - intros a Ha. by apply (lr_conns _ _ _ _ Hs).
Qed.

Lemma wp_process_timers s A l T n now (Q : unit → evloop → Prop) :
  loop_rep s A l T → T < 2 ^ 63 → bounded n A → Z.of_nat n < cnt_max →
  (∀ s' A' gone l' ks, l = gone ++ l' → loop_rep s' A' l' T → bounded n A' →
    (pending (el_conns s') l' ≤ pending (el_conns s) l)%nat →
    (∀ a, a ∈ gone → idle_expired now (el_conns s) a) →
    (∀ a, a ∈ l' → ¬ idle_expired now (el_conns s') a ∧ el_conns s' !! a = el_conns s !! a) →
    drains now A ks A' → sim strtod s A s' A' → Q tt s') →
  wp (process_timers now) s Q.
Proof.
  intros Hs HT Hb Hn HQ. unfold process_timers. do 3 wp_step.
  eapply (wp_idle_loop strtod); [exact Hs|done|pose proof (lr_length _ _ _ _ Hs); lia|].
  intros s1 gone l' -> Hs1 Hsrv1 Hgone Hkeep Hcs1 Hm1.
  wp_step. apply wp_zoom. eapply wp_mono.
  { apply (wp_process_ttl _ A now); [apply Hs1|]. apply (room_keys _ (bounded_room _ _ Hn Hb)). }
  intros k srv (A' & ks & _ & Hsrv & Hd & _). apply wp_ret.
  apply (HQ _ A' gone l' ks); [done|by eapply lr_with_srv|by eapply bounded_drains| |done| |done|].
  - simpl. rewrite (pending_ext (el_conns s)) by done. unfold pending. rewrite fmap_app.
    induction (in_buffer (el_conns s) <$> gone) as [|x xs IH]; simpl; lia.
  - intros a Ha. split; [|by apply Hcs1]. unfold idle_expired, last_active. simpl. rewrite Hcs1 by done.
    by apply Hkeep.
  - eapply sim_trans; [exact Hm1|]. exists []. split; [simpl; by rewrite app_nil_r|].
    by eapply nss_one, ns_expire.
Qed.

Lemma wp_loop_turn s A l T n acc es now (Q : ending → evloop → Prop) :
  loop_rep s A l T → turn_ok s T acc es now → bounded n A →
  Z.of_nat n + Z.of_nat (pending (el_conns s) l) + Z.of_nat (read_total es) < cnt_max →
  (∀ s' A' l' n', loop_rep s' A' l' now → bounded n' A' →
    (n' + pending (el_conns s') l' ≤ n + pending (el_conns s) l + read_total es)%nat →
    sim strtod s A s' A' → (∀ a, a ∈ l' → ¬ idle_expired now (el_conns s') a) →
    accept_dies acc = false → Q Running s') →
  (∀ ac, acc = Some ac → accept_dies acc = true →
    Q (Died (str "fcntl error")) (emits [NAccept (ac_fd ac)] s)) →
  wp (loop_turn strtod acc es now) s Q.
Proof.
  intros Hs [Hacc Hev Hnd Htimes Hclock] Hb Hn HQ HD. unfold loop_turn.
  assert (∀ e, e ∈ es → ∃ a c, event_conn s e a c) as Hconn.
  { intros e He. eapply event_ok_conn; [exact Hs|by apply Hev]. }
  assert (∀ s1 l1 T1, accept_dies acc = false → loop_rep s1 A l1 T1 → times_ok T1 es now →
    pending (el_conns s1) l1 = pending (el_conns s) l → sim strtod s A s1 A →
    (∀ e a c, e ∈ es → event_conn s e a c → event_conn s1 e a c) →
    wp (conn_events strtod es;; process_timers now;; mret Running) s1 Q) as Hrest.
  { intros s1 l1 T1 Had Hs1 Ht1 Hp1 Hm1 Hev1. wp_step.
    eapply (wp_conn_events strtod es s1 A l1 T1 n now); [exact Hs1|done| |done|exact Hb|lia|].
    - intros e He. destruct (Hconn e He) as (a & c & Hac), (Hev e He) as [_ Hwi Hwo].
      split; [|done]. exists a, c. by apply Hev1.
    - intros s2 A2 l2 n2 Hs2 Hb2 Hm2 Hp2.
      wp_step. eapply wp_process_timers; [exact Hs2|done|exact Hb2|lia|].
      intros s3 A3 gone l3 ks -> Hs3 Hb3 Hp3 _ Hkeep _ Hm3.
      apply wp_ret. eapply (HQ s3 A3 l3 n2); [done|done|lia|by eapply sim_trans; [exact Hm1|]; eapply sim_trans| |done].
      intros a Ha. by apply Hkeep. }
  wp_step. destruct acc as [ac|].
  - destruct (Hacc ac eq_refl) as [Hok HTt].
    eapply wp_handle_accept; [exact Hs|exact Hok|exact HTt| | |].
    + intros Hneg. apply (Hrest s l (ac_now ac)); [|by eapply lr_later|done|done|apply sim_refl|auto].
      unfold accept_dies. by destruct (Z.leb_spec 0 (ac_fd ac)); [lia|].
    + intros Ed. apply wp_ret. by apply HD.
    + intros Ed s1 a Hpos Ha Hs1 Ho Hp1 Hnet Hch.
      apply (Hrest s1 (l ++ [a]) (ac_now ac)); [done|done|done|done|by eapply sim_accept|].
      intros e b c _ Hbc. eapply event_conn_others; [exact Hbc| |exact Ho].
      intros ->. destruct Hbc as (_ & ? & _). congruence.
  - apply wp_ret. apply (Hrest s l T); auto using sim_refl.
Qed.

(** The states of the program at the top of its loop, with the bytes received so far
    and the time: turns of the loop, and tasks that worker threads finish meanwhile. *)
Inductive reached : nat → Z → evloop → Prop :=
| reached_init : reached 0 0 loop_init
| reached_turn k T s acc es now s' :
    reached k T s → turn_ok s T acc es now → loop_turn strtod acc es now s = Some (Running, s') →
    reached (k + read_total es) now s'
| reached_task k T s i srv :
    reached k T s → run_task i (el_srv s) = Some (tt, srv) → reached k T (fset l_srv srv s).

Lemma reached_rep k T s :
  reached k T s → Z.of_nat k < cnt_max →
  ∃ A l n, loop_rep s A l T ∧ bounded n A ∧ (n + pending (el_conns s) l ≤ k)%nat ∧
    sim strtod loop_init astate_init s A.
Proof.
  induction 1 as [|k T s acc es now s' Hr IH Hok E|k T s i srv Hr IH E]; intros Hk.
  - exists astate_init, [], 0%nat. split_and!; [apply loop_init_rep| |done|apply sim_refl].
    split; [done|]. intros key ds Hkey. discriminate Hkey.
  - destruct IH as (A & l & n & Hs & Hb & Hp & Hm); [lia|].
    pose proof (wp_loop_turn s A l T n acc es now (λ r s', r = Running → ∃ A' l' n',
      loop_rep s' A' l' now ∧ bounded n' A' ∧ (n' + pending (el_conns s') l' ≤ k + read_total es)%nat ∧
      sim strtod loop_init astate_init s' A') Hs Hok Hb) as Hw.
    unfold wp in Hw. rewrite E in Hw. apply Hw; [lia| |done|done].
    intros s2 A' l' n' Hs' Hb' Hp' Hm' _ _ _. exists A', l', n'. split_and!; [done..|lia|by eapply sim_trans].
  - destruct IH as (A & l & n & Hs & Hb & Hp & Hm); [lia|]. exists A, l, n.
    split_and!; [|done|done|eapply sim_trans; [exact Hm|by apply sim_same]]. eapply lr_with_srv; [exact Hs|].
    destruct (lr_srv _ _ _ _ Hs) as (M & D & N & Hrep & ->).
    pose proof (wp_run_task (el_srv s) M D N i (λ _ srv, server_abs srv (abs_of (el_srv s) M D N)) Hrep) as Hw.
    unfold wp in Hw. rewrite E in Hw. apply Hw. intros s2 Hs2 Habs _. by eapply server_abs_intro.
Qed.

(** The next turn from a reachable state. *)
Lemma loop_turn_run k T s acc es now :
  reached k T s → turn_ok s T acc es now → Z.of_nat (k + read_total es) < cnt_max →
  ∃ s', if accept_dies acc then ∃ ac, acc = Some ac ∧ s' = emits [NAccept (ac_fd ac)] s ∧
          loop_turn strtod acc es now s = Some (Died (str "fcntl error"), s')
        else loop_turn strtod acc es now s = Some (Running, s') ∧ reached (k + read_total es) now s'.
Proof.
  intros Hr Hok Hk. destruct (reached_rep k T s Hr) as (A & l & n & Hs & Hb & Hp & _); [lia|].
  assert (wp (loop_turn strtod acc es now) s (λ r s', if accept_dies acc then
    ∃ ac, acc = Some ac ∧ s' = emits [NAccept (ac_fd ac)] s ∧ r = Died (str "fcntl error")
    else r = Running)) as Hw.
  { eapply wp_loop_turn; [exact Hs|exact Hok|exact Hb|lia|by intros ? ? ? ? _ _ _ _ _ ->|].
    intros ac -> Ed. rewrite Ed. by exists ac. }
  apply wp_run in Hw as (r & s' & E & Hr'). exists s'. destruct (accept_dies acc).
  - destruct Hr' as (ac & -> & -> & ->). by exists ac.
  - subst r. split; [done|]. by eapply reached_turn.
Qed.

(** C4. The program never faults: in every state that its loop can reach, while fewer
    than 2^32-2 bytes have been received, the next turn runs to its end, whatever the
    clients send and however [poll], [accept], [read] and [write] answer within their
    contract; only a failing [fcntl] on an accepted socket ends it, by [die].  No [assert]
    fails, no pointer dangles, no index is out of range. *)
Theorem loop_never_faults k T s acc es now :
  reached k T s → turn_ok s T acc es now → Z.of_nat (k + read_total es) < cnt_max →
  ∃ s', if accept_dies acc then loop_turn strtod acc es now s = Some (Died (str "fcntl error"), s')
        else loop_turn strtod acc es now s = Some (Running, s') ∧ reached (k + read_total es) now s'.
Proof.
  intros Hr Hok Hk. destruct (loop_turn_run k T s acc es now Hr Hok Hk) as (s' & H). exists s'.
  destruct (accept_dies acc); [by destruct H as (ac & _ & _ & H)|done].
Qed.

(** C1. The program refines the abstract server: whatever the clients send and however the
    system calls answer, what the program has exchanged with the sockets so far is a run of the
    machine of Network.v from its start, and the state of the program is the one the
    machine has reached: the key space stands for the abstract one, and each open connection
    holds the received bytes that are not yet answered and the answers that are not
    yet sent.  So every byte that a client receives belongs to the answers, in order, to
    the requests it has sent, on one key space that all clients share. *)
Theorem program_refines k T s :
  reached k T s → Z.of_nat k < cnt_max →
  ∃ A, server_abs (el_srv s) A ∧
    net_steps strtod (mkNet astate_init ∅) (el_net s) (mkNet A (chan_of <$> el_conns s)).
Proof.
  intros Hr Hk. destruct (reached_rep k T s Hr Hk) as (A & l & n & Hs & _ & _ & evs & E & Hsteps).
  exists A. split; [apply Hs|]. simpl in E. rewrite E. exact Hsteps.
Qed.

(** C9. The invariant of the loop: in every reachable state each open connection wants
    either to read or to write, and to write exactly when a response waits; no whole
    request waits in its buffer; the descriptor table leads to the connections and to
    nothing else; and the idle timers hold them in the order of their last activity. *)
Theorem loop_invariant k T s :
  reached k T s → Z.of_nat k < cnt_max →
  ∃ l, ring (el_nodes s) idle_head l ∧ (∀ a, a ∈ l ↔ is_Some (el_conns s !! a)) ∧
    StronglySorted (λ a b, last_active (el_conns s) a ≤ last_active (el_conns s) b) l ∧
    (∀ fd a, lookupZ (el_fd2conn s) fd = Some (Some a) ↔ ∃ c, el_conns s !! a = Some c ∧ c_fd c = fd) ∧
    (∀ a c, el_conns s !! a = Some c → c_want_close c = false ∧
      c_want_read c = negb (c_want_write c) ∧ (c_want_write c = true ↔ c_outgoing c ≠ []) ∧
      next_frame (c_incoming c) = FMore).
Proof.
  intros Hr Hk. destruct (reached_rep k T s Hr Hk) as (A & l & n & Hs & _).
  exists l. destruct Hs as [_ Hring Hcs Hok Hfd Hso _ _]. split_and!; [done..|].
  intros a c Hc. destruct (Hok a c Hc) as [_ Hopen [Hrd Hwr] Hf]. split_and!; [done..| |done].
  rewrite Hwr, negb_true_iff. by rewrite bool_decide_eq_false.
Qed.

End turns.

Section timers.
Implicit Types (s : evloop) (A : astate) (a b : positive) (c : Conn) (l : list positive) (T : Z).

(** C30. The idle timers: from a state between two turns, [process_timers] closes the
    connections whose last activity is more than 5 seconds ago and no others, and
    leaves the others as they are. *)
Theorem idle_timers_correct s A l T n now :
  loop_rep s A l T → T < 2 ^ 63 → bounded n A → Z.of_nat n < cnt_max →
  ∃ s', process_timers now s = Some (tt, s') ∧
    ∀ a c, el_conns s' !! a = Some c ↔
      el_conns s !! a = Some c ∧ now ≤ c_last_active_ms c + k_idle_timeout_ms.
Proof.
  intros Hs HT Hb Hn.
  assert (wp (process_timers now) s (λ _ s', ∀ a c, el_conns s' !! a = Some c ↔
      el_conns s !! a = Some c ∧ now ≤ c_last_active_ms c + k_idle_timeout_ms)) as Hw.
  2: { apply wp_run in Hw as ([] & s' & E & ?). by exists s'. }
  eapply (wp_process_timers (λ _, (0, 0%nat))); [exact Hs|done|exact Hb|done|].
  intros s' A' gone l' ks -> Hs' _ _ Hgone Hkeep _ _ a c. split.
  - intros Hc. assert (a ∈ l') as Ha by (apply (lr_conns _ _ _ _ Hs'); by eexists).
    destruct (Hkeep a Ha) as [Hid E]. unfold idle_expired, last_active in Hid. rewrite Hc in Hid.
    rewrite <- E. split; [done|lia].
  - intros [Hc Hle]. assert (a ∈ gone ++ l') as [Ha|Ha]%elem_of_app by (apply (lr_conns _ _ _ _ Hs); by eexists).
    + specialize (Hgone a Ha). unfold idle_expired, last_active in Hgone. rewrite Hc in Hgone. lia.
    + destruct (Hkeep a Ha) as [_ ->]. done.
Qed.
(** * The timeout of [poll] *)

(** The earliest of the idle timers and the deadlines of the keys. *)
Definition earliest s A l (m : Z) : Prop :=
  ((∃ a, a ∈ l ∧ m = last_active (el_conns s) a + k_idle_timeout_ms) ∨ (∃ key, as_ttl A !! key = Some m)) ∧
  (∀ a, a ∈ l → m ≤ last_active (el_conns s) a + k_idle_timeout_ms) ∧
  (∀ key t, as_ttl A !! key = Some t → m ≤ t).

(** The top of the heap is the earliest deadline. *)
Lemma heap_top_ttl (srv : server) A :
  server_abs srv A →
  match hs_arr (sv_heap srv) with
  | [] => as_ttl A = ∅
  | top :: _ => (∃ key, as_ttl A !! key = Some (he_val top)) ∧
      ∀ key t, as_ttl A !! key = Some t → he_val top ≤ t
  end.
Proof.
  intros (M & D & N & Hs & ->). pose proof (sr_heap _ _ _ _ Hs) as Hh.
  destruct (decide (D = ∅)) as [->|Hne].
  - pose proof (hr_length _ _ _ Hh) as Hl. rewrite map_size_empty in Hl.
    destruct (hs_arr (sv_heap srv)); [|done]. apply map_eq. intros key. rewrite lookup_empty.
    apply eq_None_not_Some. intros [t (a & _ & Ha)%ttl_timer]. by rewrite lookup_empty in Ha.
  - destruct (hr_top _ _ _ Hh Hne) as (a & t & Htop & Ht & Hmin).
    destruct (hs_arr (sv_heap srv)) as [|top rest]; [done|]. injection Htop as ->. cbn [he_val]. split.
    + destruct (sr_timer _ _ _ _ Hs a) as [key Hk]; [by apply elem_of_dom|].
      exists key. apply ttl_timer. by exists a.
    + intros key w (b & _ & Hb)%ttl_timer. pose proof (Hmin b w Hb) as Hgt.
      rewrite Z.gtb_ltb, Z.ltb_ge in Hgt. lia.
Qed.

(** The first idle timer is the earliest. *)
Lemma wp_idle_next s A l T (k : Z → M evloop Z) (Q : Z → evloop → Prop) :
  loop_rep s A l T → T < 2 ^ 63 →
  wp (k (match l with a :: _ => last_active (el_conns s) a + k_idle_timeout_ms | [] => 2 ^ 64 - 1 end)) s Q →
  wp (empty ← zoom l_nodes (list_empty (Some idle_head));
      next ← (if negb empty then
                conn ← idle_first;
                t ← conn_get f_last_active_ms conn;
                mret (u64 (t + k_idle_timeout_ms))
              else mret (u64 (-1)));
      k next) s Q.
Proof.
  intros Hs HT HQ. wp_step. apply wp_zoom. eapply wp_list_empty; [apply Hs|].
  replace (fset l_nodes _ s) with s by by destruct s. wp_step. destruct l as [|a l].
  { rewrite bool_decide_true by done. by apply wp_ret. }
  rewrite bool_decide_false by done. cbn [negb]. unfold idle_first. wp_step. apply wp_zoom.
  eapply ring_first; [apply Hs|]. replace (fset l_nodes _ s) with s by by destruct s.
  assert (a ∈ a :: l) as Ha by left. pose proof (lr_time _ _ _ _ Hs a Ha) as Hta.
  apply (lr_conns _ _ _ _ Hs) in Ha as [c Hc].
  wp_step. eapply wp_conn_get; [exact Hc|]. apply wp_ret.
  unfold last_active in HQ, Hta. rewrite Hc in HQ, Hta. rewrite u64_small; [done|].
  change (fget f_last_active_ms c) with (c_last_active_ms c). unfold k_idle_timeout_ms. lia.
Qed.

(** What [next_timer_ms] returns for the earliest timer. *)
Definition timeout (now m : Z) : Z := if m <=? now then 0 else u32 (i32 (u64 (m - now))).

(** The value the code compares with the clock. *)
Definition first_deadline s l : Z :=
  let next := match l with
    | a :: _ => last_active (el_conns s) a + k_idle_timeout_ms
    | [] => 2 ^ 64 - 1
    end in
  match hs_arr (sv_heap (el_srv s)) with
  | top :: _ => if he_val top <? next then he_val top else next
  | [] => next
  end.

Lemma next_timer_run s A l T now :
  loop_rep s A l T → T < 2 ^ 63 →
  next_timer_ms now s =
    Some (if first_deadline s l =? 2 ^ 64 - 1 then 2 ^ 32 - 1 else timeout now (first_deadline s l), s).
Proof.
  intros Hs HT.
  assert (wp (next_timer_ms now) s (λ r s', r = (if first_deadline s l =? 2 ^ 64 - 1 then 2 ^ 32 - 1
    else timeout now (first_deadline s l)) ∧ s' = s)) as Hw.
  { unfold next_timer_ms. eapply wp_idle_next; [exact Hs|done|]. do 2 wp_step. cbv zeta.
    fold (first_deadline s l). change (u64 (-1)) with (2 ^ 64 - 1). change (u32 (-1)) with (2 ^ 32 - 1).
    unfold timeout. by repeat case_match; apply wp_ret. }
  apply wp_run in Hw as (r & s' & E & -> & ->). exact E.
Qed.

Lemma first_deadline_earliest s A l T m :
  loop_rep s A l T → earliest s A l m → m ≤ 2 ^ 64 - 1 → first_deadline s l = m.
Proof.
  intros Hs (Hex & Hidle & Httl) Hm. pose proof (heap_top_ttl _ _ (lr_srv _ _ _ _ Hs)) as Htop.
  assert (match l with [] => True | a :: _ => ∀ b, b ∈ l →
    last_active (el_conns s) a ≤ last_active (el_conns s) b end) as Hfirst.
  { pose proof (lr_sorted _ _ _ _ Hs) as Hso. destruct l as [|a l]; [done|].
    apply StronglySorted_cons in Hso as [Hso _]. rewrite Forall_forall in Hso.
    intros b [->|Hb]%elem_of_cons; [lia|]. by apply (Hso b). }
  unfold first_deadline. cbv zeta. destruct l as [|a l].
  - destruct Hex as [(a & Ha & _)|[key Hkey]]; [by apply elem_of_nil in Ha|].
    destruct (hs_arr (sv_heap (el_srv s))) as [|top rest].
    + rewrite Htop, lookup_empty in Hkey. done.
    + destruct Htop as [[k Hk] Hmin]. specialize (Httl _ _ Hk). specialize (Hmin _ _ Hkey). zbool; lia.
  - assert (a ∈ a :: l) as Ha by left. specialize (Hidle a Ha).
    destruct (hs_arr (sv_heap (el_srv s))) as [|top rest].
    + destruct Hex as [(b & Hb & ->)|[key Hkey]]; [specialize (Hfirst b Hb); lia|].
      rewrite Htop, lookup_empty in Hkey. done.
    + destruct Htop as [[k Hk] Hmin]. specialize (Httl _ _ Hk).
      destruct Hex as [(b & Hb & ->)|[key Hkey]]; [specialize (Hfirst b Hb)|specialize (Hmin _ _ Hkey)];
        zbool; lia.
Qed.

(** C31. The timeout of [poll], converted to [int]: without timers it waits without
    limit (-1); else not at all when the earliest timer is due, and until that timer
    when it is less than 2^31 ms (24.8 days) away.  Farther away, the timeout is the
    distance cut to 32 bits: below 2^32 ms it is negative, so that [poll] waits without
    limit; and for any distance it is negative or no later than the timer. *)
Theorem next_timer_correct s A l T now :
  loop_rep s A l T → T < 2 ^ 63 → 0 ≤ now →
  (l = [] → as_ttl A = ∅ → next_timer_ms now s = Some (2 ^ 32 - 1, s) ∧ i32 (2 ^ 32 - 1) = -1) ∧
  (∀ m, earliest s A l m → m < 2 ^ 64 - 1 → next_timer_ms now s = Some (timeout now m, s) ∧
    (m - now < 2 ^ 31 → i32 (timeout now m) = Z.max 0 (m - now)) ∧
    (2 ^ 31 ≤ m - now < 2 ^ 32 → i32 (timeout now m) < 0) ∧
    (now < m → i32 (timeout now m) = (m - now + 2 ^ 31) mod 2 ^ 32 - 2 ^ 31) ∧
    i32 (timeout now m) ≤ Z.max 0 (m - now)).
Proof.
  intros Hs HT Hnow. rewrite (next_timer_run s A l T now Hs HT). split.
  - intros -> HA. split; [|done].
    pose proof (heap_top_ttl _ _ (lr_srv _ _ _ _ Hs)) as Htop. unfold first_deadline.
    destruct (hs_arr (sv_heap (el_srv s))) as [|top rest]; [done|].
    destruct Htop as [[key Hkey] _]. by rewrite HA, lookup_empty in Hkey.
  - intros m Hm Hmax. rewrite (first_deadline_earliest s A l T m Hs Hm) by lia.
    destruct (Z.eqb_spec m (2 ^ 64 - 1)); [lia|]. split; [done|].
    unfold timeout. destruct (Z.leb_spec m now).
    { split_and!; intros; [by rewrite Z.max_l by lia|lia..|change (i32 0) with 0; lia]. }
    rewrite u64_small, i32_u32_i32 by lia. pose proof (i32_bounds (m - now)).
    split_and!; [intros; rewrite i32_small; lia| |done|].
    + unfold i32. intros Hd. rewrite <- (Z.mod_unique_pos _ _ 1 (m - now - 2 ^ 31)); lia.
    + destruct (Z.lt_ge_cases (m - now) (2 ^ 31)); [rewrite i32_small; lia|lia].
Qed.
End timers.
