(* ===== verification/LoopInputs.v ===== *)
(** What comes in over the sockets in one turn of the loop: the log of the program grows by
    exactly the connection that [accept] gave and the data that the calls of [read] gave, in
    the order of the events.  The proofs need no invariant of the program, except that a
    descriptor leads to a connection that has it. *)
From S2P Require Import Prelude Common AvlRep DList HashTable Heap Buffer Request.
From S2P Require Import Server EventLoop.

(** * Inputs *)

Definition is_input (ev : netev) : bool :=
  match ev with NAccept _ | NRecv _ _ => true | NSent _ _ | NClose _ => false end.

(** The connections and the data that have come in. *)
Definition inputs_of (tr : list netev) : list netev := filter (λ ev, is_input ev = true) tr.

Lemma inputs_app tr tr' : inputs_of (tr ++ tr') = inputs_of tr ++ inputs_of tr'.
Proof. apply filter_app. Qed.

Definition accept_input (acc : option accept_result) : list netev :=
  match acc with
  | Some ac => if ac_fd ac <? 0 then [] else [NAccept (ac_fd ac)]
  | None => []
  end.

Definition event_input (e : revent) : list netev :=
  match re_in e, re_read e with
  | true, IoOk (b :: buf) => [NRecv (re_fd e) (b :: buf)]
  | _, _ => []
  end.

Definition turn_input (acc : option accept_result) (es : list revent) : list netev :=
  accept_input acc ++ concat (event_input <$> es).

(** * What a step may change *)

(** Connections keep their descriptors, and go; entries of the descriptor table go. *)
Record shrinks (s s' : evloop) : Prop := {
  sh_conns : ∀ a c', el_conns s' !! a = Some c' → ∃ c, el_conns s !! a = Some c ∧ c_fd c' = c_fd c;
  sh_fds : ∀ fd a, lookupZ (el_fd2conn s') fd = Some (Some a) → lookupZ (el_fd2conn s) fd = Some (Some a);
}.

#[export] Instance shrinks_preorder : PreOrder shrinks.
Proof.
  split; [intros s; split; eauto|]. intros s1 s2 s3 [H1 H2] [H3 H4]. split; [|eauto].
  intros a c3 (c2 & Hc2 & E2)%H3. apply H1 in Hc2 as (c1 & Hc1 & E1). exists c1. split; [done|congruence].
Qed.

(** The descriptor of a pointer to a connection, and of every entry of the table. *)
Definition fd_of (p : ptr) (fd : Z) (s : evloop) : Prop :=
  ∀ a c, p = Some a → el_conns s !! a = Some c → c_fd c = fd.
Definition fds_ok (s : evloop) : Prop :=
  ∀ fd p, lookupZ (el_fd2conn s) fd = Some p → fd_of p fd s.

Class Shrinking (P : evloop → Prop) : Prop := shrinking s s' : shrinks s s' → P s → P s'.

#[export] Instance fd_of_shrinking p fd : Shrinking (fd_of p fd).
Proof. intros s s' [H _] HP a c -> (c0 & Hc0 & ->)%H. by eapply HP. Qed.

#[export] Instance fds_ok_shrinking : Shrinking fds_ok.
Proof.
  intros s s' Hsh HP fd [a|] Hfd; [|by intros ? ? [=]]. apply (shrinking s s' Hsh), HP.
  by apply (sh_fds _ _ Hsh).
Qed.

(** A computation that starts in [P], shrinks the state, and takes the inputs [i]. *)
Definition takes {A} (P : evloop → Prop) (m : M evloop A) (i : list netev) : Prop :=
  ∀ s r s', P s → m s = Some (r, s') → shrinks s s' ∧ inputs_of (el_net s') = inputs_of (el_net s) ++ i.

Section takes.
Context (P : evloop → Prop) `{!Shrinking P}.
Implicit Types (s : evloop) (p : ptr) (i : list netev).

Lemma takes_ret {A} (x : A) : takes P (mret x) [].
Proof. intros s r s' _ [= <- <-]. by rewrite app_nil_r. Qed.

Lemma takes_fault {A} i : takes P (fault : M evloop A) i.
Proof. by intros s r s' _ [=]. Qed.

Lemma takes_bind {A B} (m : M evloop A) (f : A → M evloop B) i1 i2 :
  takes P m i1 → (∀ x, takes P (f x) i2) → takes P (m ≫= f) (i1 ++ i2).
Proof.
  intros Hm Hf s r s' HP. unfold mbind, M_bind. destruct (m s) as [[x s1]|] eqn:E; [|done]. intros E'.
  destruct (Hm _ _ _ HP E) as [Hs1 H1]. destruct (Hf x s1 r s') as [Hs2 H2]; [by eapply shrinking|done|].
  split; [by etrans|]. by rewrite H2, H1, app_assoc.
Qed.

Lemma takes_quiet {A B} (m : M evloop A) (f : A → M evloop B) i :
  takes P m [] → (∀ x, takes P (f x) i) → takes P (m ≫= f) i.
Proof. apply (takes_bind m f []). Qed.

Lemma takes_get : takes P (get : M evloop evloop) [].
Proof. intros s r s' _ [= <- <-]. by rewrite app_nil_r. Qed.

Lemma takes_assert (b : bool) : takes P (assert b) [].
Proof. destruct b; [apply takes_ret|apply takes_fault]. Qed.

Lemma takes_lift {A} (x : option A) : takes P (lift_option x) [].
Proof. destruct x; [apply takes_ret|apply takes_fault]. Qed.

Lemma takes_net ev : takes P (net ev) (inputs_of [ev]).
Proof. intros s r s' _ [= <- <-]. split; [by split; eauto|]. apply inputs_app. Qed.

(** Steps that leave the connections, the table and the log alone. *)
Lemma takes_same {A} (m : M evloop A) :
  (∀ s r s', m s = Some (r, s') →
    el_conns s' = el_conns s ∧ el_fd2conn s' = el_fd2conn s ∧ el_net s' = el_net s) →
  takes P m [].
Proof.
  intros H s r s' _ (E1 & E2 & E3)%H. rewrite E3, app_nil_r. split; [|done].
  split; rewrite ?E1, ?E2; eauto.
Qed.

Lemma takes_nodes {A} (m : M list_heap A) : takes P (zoom l_nodes m) [].
Proof.
  apply takes_same. intros s r s'. unfold zoom. destruct (m _) as [[x n]|]; [|done]. by intros [= <- <-].
Qed.

Lemma takes_srv {A} (m : M server A) : takes P (zoom l_srv m) [].
Proof.
  apply takes_same. intros s r s'. unfold zoom. destruct (m _) as [[x n]|]; [|done]. by intros [= <- <-].
Qed.

Lemma takes_fd2conn_get fd : takes P (fd2conn_get fd) [].
Proof.
  apply takes_same. intros s r s'. unfold fd2conn_get. destruct (lookupZ _ _); [|done]. by intros [= <- <-].
Qed.

Lemma conn_get_inv {X} (f : field Conn X) p s x s' :
  conn_get f p s = Some (x, s') → s' = s ∧ ∃ a c, p = Some a ∧ el_conns s !! a = Some c ∧ x = fget f c.
Proof.
  unfold conn_get, zoom, load. destruct p as [a|]; [|done]. simpl.
  destruct (el_conns s !! a) as [c|] eqn:E; [|done]. simpl. intros [= <- <-].
  split; [by destruct s|]. by exists a, c.
Qed.

Lemma takes_conn_get {X} (f : field Conn X) p : takes P (conn_get f p) [].
Proof. apply takes_same. by intros s r s' (-> & _)%conn_get_inv. Qed.

Lemma takes_conn_set {X} (f : field Conn X) p v :
  (∀ c, c_fd (fset f v c) = c_fd c) → takes P (conn_set f p v) [].
Proof.
  intros Hf s r s' _. unfold conn_set, zoom, store. destruct p as [a|]; [|done]. simpl.
  destruct (el_conns s !! a) as [c|] eqn:E; [|done]. simpl. intros [= <- <-].
  rewrite app_nil_r. split; [|done]. split; simpl; [|done].
  intros b c' [[<- <-]|[_ Hb]]%lookup_insert_Some; eauto.
Qed.

Lemma takes_fd2conn_clear fd : takes P (fd2conn_set fd None) [].
Proof.
  intros s r s' _. unfold fd2conn_set, lookupZ. destruct (Z.ltb_spec fd 0); [done|].
  destruct (el_fd2conn s !! Z.to_nat fd) as [p|] eqn:E; [|done]. intros [= <- <-].
  rewrite app_nil_r. split; [|done]. split; simpl; [eauto|]. intros fd' a. unfold lookupZ.
  destruct (fd' <? 0); [done|]. by intros [(_ & [=] & _)|[_ ?]]%list_lookup_insert_Some.
Qed.

Lemma takes_conn_free p : takes P (conn_free p) [].
Proof.
  intros s r s' _. unfold conn_free. destruct p as [a|]; [|done].
  destruct (el_conns s !! a); [|done]. intros [= <- <-]. rewrite app_nil_r. split; [|done].
  split; simpl; [|done]. intros b c' [_ Hb]%lookup_delete_Some. eauto.
Qed.
End takes.

(** * The handlers *)

(** Closes what takes no inputs, up to the calls that have a rule of their own. *)
Ltac takes_step :=
  lazymatch goal with
  | |- takes _ (mbind _ _) _ => apply takes_quiet; [apply _| |intros ?]
  | |- takes _ (mret _) _ => apply takes_ret
  | |- takes _ fault _ => apply takes_fault
  | |- takes _ get _ => apply takes_get
  | |- takes _ (assert _) _ => apply takes_assert
  | |- takes _ (lift_option _) _ => apply takes_lift
  | |- takes _ (zoom l_nodes _) _ => apply takes_nodes
  | |- takes _ (zoom l_srv _) _ => apply takes_srv
  | |- takes _ (conn_get _ _) _ => apply takes_conn_get
  | |- takes _ (conn_set _ _ _) _ => apply takes_conn_set; by intros ?
  | |- takes _ (fd2conn_get _) _ => apply takes_fd2conn_get
  | |- takes _ (fd2conn_set _ None) _ => apply takes_fd2conn_clear
  | |- takes _ (conn_free _) _ => apply takes_conn_free
  | |- takes _ (net (NSent _ _)) _ => apply (takes_net _ (NSent _ _))
  | |- takes _ (net (NClose _)) _ => apply (takes_net _ (NClose _))
  | |- takes _ (let '(_, _) := ?x in _) _ => destruct x
  | |- takes _ (match ?x with _ => _ end) _ => destruct x
  end.
Ltac takes_auto := repeat first [progress cbv zeta|takes_step].

Section handlers.
Context (strtod : list Byte.byte → Z * nat).
Implicit Types (s : evloop) (p : ptr) (i : list netev).

Section any.
Context (P : evloop → Prop) `{!Shrinking P}.

Lemma takes_conn_destroy p : takes P (conn_destroy p) [].
Proof. unfold conn_destroy. takes_auto. Qed.

Lemma takes_handle_write rv p : takes P (handle_write rv p) [].
Proof. unfold handle_write. takes_auto. Qed.

Lemma takes_request_loop fuel clock p : takes P (request_loop strtod fuel clock p) [].
Proof.
  revert clock. induction fuel as [|fuel IH]; intros clock; cbn [request_loop]; [apply takes_fault|].
  apply takes_quiet; [done|unfold try_one_request; takes_auto|]. intros [|]; [apply IH|apply takes_ret].
Qed.

Lemma takes_receive clock buf p : takes P (receive strtod clock buf p) [].
Proof. unfold receive, serve_requests. takes_auto. apply takes_request_loop. Qed.

Lemma takes_idle_loop fuel now : takes P (idle_loop fuel now) [].
Proof.
  induction fuel as [|fuel IH]; cbn [idle_loop]; [apply takes_fault|]. unfold idle_first.
  takes_auto; [apply takes_conn_destroy|apply IH].
Qed.

Lemma takes_process_timers now : takes P (process_timers now) [].
Proof. unfold process_timers. takes_auto. apply takes_idle_loop. Qed.
End any.

(** Reading takes the data as an input on the descriptor of the connection. *)
Lemma takes_handle_read clock rv wv p fd :
  takes (fd_of p fd) (handle_read strtod clock rv wv p)
    (match rv with IoOk (b :: buf) => [NRecv fd (b :: buf)] | _ => [] end).
Proof.
  unfold handle_read. destruct rv as [| |[|b buf]]; [takes_auto..|].
  intros s r s' HP E. unfold mbind at 1, M_bind at 1 in E.
  destruct (conn_get f_fd p s) as [[fd' s1]|] eqn:Eg; [|done].
  apply conn_get_inv in Eg as (-> & a & c & Ep & Hc & ->).
  assert (fget f_fd c = fd) as Efd by by apply (HP a c). rewrite Efd in E. revert s r s' HP E a c Ep Hc Efd.
  enough (takes (fd_of p fd) (net (NRecv fd (b :: buf));; receive strtod clock (b :: buf) p;;
    out ← conn_get f_outgoing p;
    if 0 <? buf_size out then
      conn_set f_want_read p false;; conn_set f_want_write p true;; handle_write wv p
    else mret tt) [NRecv fd (b :: buf)]) as H by eauto.
  apply (takes_bind _ _ _ [NRecv fd (b :: buf)] []); [apply (takes_net _ (NRecv _ _))|]. intros _.
  apply takes_quiet; [apply _|apply takes_receive; apply _|]. intros _.
  takes_auto. apply takes_handle_write; apply _.
Qed.

Lemma takes_conn_event e : takes fds_ok (conn_event strtod e) (event_input e).
Proof.
  unfold conn_event, event_input. destruct (re_in e) eqn:Ein; cbn [orb negb].
  2: { takes_auto; [apply takes_handle_write; apply _|apply takes_conn_destroy; apply _|..];
    try (apply takes_handle_write; apply _); apply takes_conn_destroy; apply _. }
  intros s r s' HP E. unfold mbind at 1, M_bind at 1, fd2conn_get in E.
  destruct (lookupZ (el_fd2conn s) (re_fd e)) as [p|] eqn:Ep; [|done].
  specialize (HP _ _ Ep). revert s r s' HP E Ep.
  enough (∀ wr : M evloop unit, takes (fd_of p (re_fd e)) wr [] → takes (fd_of p (re_fd e)) (
    conn_set f_last_active_ms p (re_now e);; zoom l_nodes (list_detach p);;
    zoom l_nodes (list_insert_back (Some idle_head) p);;
    (b ← conn_get f_want_read p; assert b;; handle_read strtod (re_clock e) (re_read e) (re_write_in e) p);;
    wr) (match re_read e with IoOk (b :: buf) => [NRecv (re_fd e) (b :: buf)] | _ => [] end)) as H.
  { intros s r s' HP E _. eapply (H _); [|exact HP|exact E].
    takes_auto; (apply takes_handle_write || apply takes_conn_destroy); apply _. }
  intros wr Hwr. do 3 (apply takes_quiet; [apply _|takes_auto|intros _]).
  rewrite <- (app_nil_r (match re_read e with _ => _ end)). apply takes_bind; [apply _| |intros _; exact Hwr].
  do 2 (apply takes_quiet; [apply _|takes_auto|intros ?]). apply takes_handle_read.
Qed.

Lemma takes_conn_events es : takes fds_ok (conn_events strtod es) (concat (event_input <$> es)).
Proof.
  induction es as [|e es IH]; [apply takes_ret|]. cbn [conn_events fmap list_fmap concat].
  apply takes_bind; [apply _|apply takes_conn_event|intros _; exact IH].
Qed.

(** After [handle_accept], a turn takes the inputs of its events. *)
Lemma takes_turn_rest es now :
  takes fds_ok (conn_events strtod es;; process_timers now;; mret Running) (concat (event_input <$> es)).
Proof.
  rewrite <- (app_nil_r (concat _)). apply takes_bind; [apply _|apply takes_conn_events|intros _].
  takes_auto. apply takes_process_timers; apply _.
Qed.
End handlers.
