(* ===== verification/LoopExamples.v ===== *)
(** A session of the event loop, computed, and the theorems on it. *)
From S2P Require Import Prelude Common AvlRep DList HashTable Heap Buffer Request.
From S2P Require Import Server ServerSpec ServerRep ServerCmd ServerTheorems ServerTrace.
From S2P Require Import EventLoop ConnSpec Network ConnStream ConnIo LoopRep LoopConn LoopTurn LoopTheorems.

Definition no_strtod : list Byte.byte → Z * nat := λ _, (0, 1%nat).

(** A client connects as descriptor 4; it sends SET and half of GET, then the rest;
    the second write is short; after that it is idle. *)
Definition set_k : list Byte.byte := le_bytes 4 21 ++ encode_req [str "set"; str "k"; str "v"].
Definition get_k : list Byte.byte := le_bytes 4 16 ++ encode_req [str "get"; str "k"].

Definition read_event (t : Z) (buf : list Byte.byte) (wv : Z → io_result Z) : revent :=
  mkRevent 4 true false false false t (λ _, t) (IoOk buf) wv (λ _, IoAgain).
Definition write_event (t : Z) (wv : Z → io_result Z) : revent :=
  mkRevent 4 false true false false t (λ _, t) IoAgain (λ _, IoAgain) wv.

Definition accept4 : accept_result := mkAccept 4 0 0 10.

Definition turn1 : M evloop ending := loop_turn no_strtod (Some accept4) [] 11.
Definition turn2 : M evloop ending :=
  loop_turn no_strtod None [read_event 20 (set_k ++ take 9 get_k) (λ len, IoOk len)] 21.
Definition turn3 : M evloop ending :=
  loop_turn no_strtod None [read_event 30 (drop 9 get_k) (λ len, IoOk (Z.min 2 len))] 31.
Definition turn4 : M evloop ending := loop_turn no_strtod None [write_event 40 (λ len, IoOk len)] 41.

(** The state after a computation that is known to return. *)
Definition state_of {A} (m : M evloop A) (s : evloop) : evloop :=
  match m s with Some (_, s) => s | None => s end.

Definition loop1 : evloop := state_of turn1 loop_init.
Definition loop2 : evloop := state_of turn2 loop1.
Definition loop3 : evloop := state_of turn3 loop2.
Definition loop4 : evloop := state_of turn4 loop3.

(** The connections of a state, without their addresses. *)
Definition conns_of (s : evloop) : list Conn := (map_to_list (el_conns s)).*2.

Example session_1 : conns_of loop1 = [mkConn 4 true false false [] [] 10].
Proof. vm_compute. reflexivity. Qed.
Example session_2 : conns_of loop2 = [mkConn 4 true false false (take 9 get_k) [] 20].
Proof. vm_compute. reflexivity. Qed.
Example session_3 :
  conns_of loop3 = [mkConn 4 false true false [] (drop 2 (response (encode (VStr (str "v"))))) 30].
Proof. vm_compute. reflexivity. Qed.
Example session_4 : conns_of loop4 = [mkConn 4 true false false [] [] 40].
Proof. vm_compute. reflexivity. Qed.
Example session_timeout : next_timer_ms 41 loop4 = Some (4999, loop4).
Proof. vm_compute. reflexivity. Qed.
Example session_idle : conns_of (state_of (process_timers 5041) loop4) = [].
Proof. vm_compute. reflexivity. Qed.

Lemma turn1_ok : turn_ok loop_init 0 (Some accept4) [] 11.
Proof.
  split; [|by intros e ?%elem_of_nil|constructor|done|done].
  intros ac [= <-]. split; [|done]. split; [done|]. intros a E. discriminate E.
Qed.

Lemma loop1_reached : reached no_strtod 0 11 loop1.
Proof. apply (reached_turn no_strtod 0 0 loop_init (Some accept4) [] 11 loop1 (reached_init _) turn1_ok). by vm_compute. Qed.

Definition event2 : revent := read_event 20 (set_k ++ take 9 get_k) (λ len, IoOk len).

Lemma turn2_ok : turn_ok loop1 11 None [event2] 21.
Proof.
  split; [done| |apply NoDup_singleton|done|done]. intros e ->%list_elem_of_singleton. split; simpl.
  - exists true, false. split; [|done]. apply list_elem_of_In. vm_compute. by left.
  - by intros len n Hl [= <-].
  - done.
Qed.

Lemma event2_conn : event_conn loop1 event2 2 (mkConn 4 true false false [] [] 10).
Proof. split_and!; by vm_compute. Qed.

Lemma loop1_rep : ∃ A l n, loop_rep loop1 A l 11 ∧ bounded n A ∧ (n + pending (el_conns loop1) l ≤ 0)%nat.
Proof.
  destruct (reached_rep no_strtod 0 11 loop1 loop1_reached) as (A & l & n & ? & ? & ? & _); [done|].
  by exists A, l, n.
Qed.

(** What that session has exchanged with the socket. *)
Example session_net :
  el_net loop4 =
    [NAccept 4; NRecv 4 (set_k ++ take 9 get_k); NSent 4 (response (encode VNil)); NRecv 4 (drop 9 get_k);
     NSent 4 (take 2 (response (encode (VStr (str "v"))))); NSent 4 (drop 2 (response (encode (VStr (str "v")))))].
Proof. vm_compute. reflexivity. Qed.

Lemma loop2_reached : reached no_strtod 34 21 loop2.
Proof. apply (reached_turn no_strtod 0 11 loop1 None [event2] 21 loop2 loop1_reached turn2_ok). by vm_compute. Qed.

(** ** Timers of the session *)

Lemma no_deadlines s A l T : loop_rep s A l T → hs_arr (sv_heap (el_srv s)) = [] → as_ttl A = ∅.
Proof. intros Hs E. pose proof (heap_top_ttl _ _ (lr_srv _ _ _ _ Hs)) as H. by rewrite E in H. Qed.

(** The connection of [loop1] was active last at 10. *)
Lemma loop1_earliest A l : loop_rep loop1 A l 11 → earliest loop1 A l 5010.
Proof.
  intros Hs. pose proof (no_deadlines _ _ _ _ Hs eq_refl) as HA.
  assert (∀ a, a ∈ l → a = 2%positive) as Hl.
  { intros a Ha. apply (lr_conns _ _ _ _ Hs) in Ha as [c Hc].
    assert (el_conns loop1 = {[2%positive := mkConn 4 true false false [] [] 10]}) as E by by vm_compute.
    rewrite E in Hc. by apply lookup_singleton_Some in Hc as [<- _]. }
  split_and!.
  - left. exists 2%positive. split; [|by vm_compute]. apply (lr_conns _ _ _ _ Hs). by eexists.
  - by intros a ->%Hl.
  - rewrite HA. intros key t Ht. by rewrite lookup_empty in Ht.
Qed.

(** From [loop1]: the client sets a key to expire in 2^32 + 1000 ms; then it hangs up. *)
Definition expire_k : list Byte.byte :=
  le_bytes 4 34 ++ encode_req [str "pexpire"; str "k"; str "4294968296"].
Definition event5 : revent := read_event 20 (set_k ++ expire_k) (λ len, IoOk len).
Definition event6 : revent := read_event 30 [] (λ _, IoAgain).
Definition loop5 : evloop := state_of (loop_turn no_strtod None [event5] 21) loop1.
Definition loop6 : evloop := state_of (loop_turn no_strtod None [event6] 31) loop5.

Lemma read_turn_ok s t t' T buf wv :
  (4, true, false) ∈ poll_args s → write_ok wv → T ≤ t ≤ t' → t' < 2 ^ 63 →
  turn_ok s T None [read_event t buf wv] t'.
Proof.
  intros Hp Hw Ht Ht'. split; [done| |apply NoDup_singleton|done|done].
  intros e ->%list_elem_of_singleton. by split; [exists true, false| |].
Qed.

Lemma loop6_reached : ∃ k, reached no_strtod k 31 loop6 ∧ Z.of_nat k < cnt_max.
Proof.
  eexists. split.
  - eapply (reached_turn no_strtod _ 21 loop5 None [event6] 31).
    + eapply (reached_turn no_strtod _ 11 loop1 None [event5] 21); [apply loop1_reached| |by vm_compute].
      apply read_turn_ok; [apply list_elem_of_In; vm_compute; by left|by intros len n ? [= <-]|lia..].
    + apply read_turn_ok; [apply list_elem_of_In; vm_compute; by left|done|lia..].
    + by vm_compute.
  - by vm_compute.
Qed.

Lemma loop6_rep : ∃ A l, loop_rep loop6 A l 31.
Proof.
  destruct loop6_reached as (k & Hr & Hk).
  destruct (reached_rep no_strtod k 31 loop6 Hr Hk) as (A & l & n & Hs & _). by exists A, l.
Qed.

Lemma loop6_earliest A l : loop_rep loop6 A l 31 → earliest loop6 A l 4294968316.
Proof.
  intros Hs. pose proof (heap_top_ttl _ _ (lr_srv _ _ _ _ Hs)) as H.
  assert (he_val <$> head (hs_arr (sv_heap (el_srv loop6))) = Some 4294968316) as E by by vm_compute.
  destruct (hs_arr _) as [|top rest]; [done|]. injection E as E'. rewrite E' in H. destruct H as [H1 H2].
  split; [by right|]. split; [|done].
  intros a [c Hc]%(lr_conns _ _ _ _ Hs). assert (el_conns loop6 = ∅) as E2 by by vm_compute.
  rewrite E2, lookup_empty in Hc. discriminate Hc.
Qed.

(** * Witnesses *)

Lemma program_refines_witness :
  ∃ A, server_abs (el_srv loop2) A ∧
    net_steps no_strtod (mkNet astate_init ∅)
      [NAccept 4; NRecv 4 (set_k ++ take 9 get_k); NSent 4 (response (encode VNil))]
      (mkNet A (chan_of <$> el_conns loop2)).
Proof. apply (program_refines no_strtod 34 21 loop2 loop2_reached). done. Defined.

Lemma loop_never_faults_witness :
  ∃ s', turn2 loop1 = Some (Running, s') ∧ reached no_strtod 34 21 s'.
Proof. apply (loop_never_faults no_strtod 0 11 loop1 None [event2] 21 loop1_reached turn2_ok). done. Defined.

Lemma loop_invariant_witness :
  ∃ l, ring (el_nodes loop1) idle_head l ∧ (∀ a, a ∈ l ↔ is_Some (el_conns loop1 !! a)) ∧
    StronglySorted (λ a b, last_active (el_conns loop1) a ≤ last_active (el_conns loop1) b) l ∧
    (∀ fd a, lookupZ (el_fd2conn loop1) fd = Some (Some a) ↔
      ∃ c, el_conns loop1 !! a = Some c ∧ c_fd c = fd) ∧
    (∀ a c, el_conns loop1 !! a = Some c → c_want_close c = false ∧
      c_want_read c = negb (c_want_write c) ∧ (c_want_write c = true ↔ c_outgoing c ≠ []) ∧
      next_frame (c_incoming c) = FMore).
Proof. apply (loop_invariant no_strtod 0 11 loop1 loop1_reached). done. Defined.

Lemma idle_timers_correct_witness :
  ∃ s', process_timers 6000 loop1 = Some (tt, s') ∧
    ∀ a c, el_conns s' !! a = Some c ↔
      el_conns loop1 !! a = Some c ∧ 6000 ≤ c_last_active_ms c + k_idle_timeout_ms.
Proof.
  destruct loop1_rep as (A & l & n & Hs & Hb & Hn).
  apply (idle_timers_correct loop1 A l 11 n 6000 Hs); [done|done|]. unfold cnt_max. lia.
Defined.

(** Without timers; with the idle timer of the connection; and with one key that expires in
    2^32 + 1000 ms: the timeout is 990 ms, 49.7 days too early. *)
Lemma next_timer_correct_witness :
  (next_timer_ms 5 loop_init = Some (2 ^ 32 - 1, loop_init) ∧ i32 (2 ^ 32 - 1) = -1) ∧
  (next_timer_ms 15 loop1 = Some (4995, loop1) ∧ i32 4995 = 5010 - 15) ∧
  (next_timer_ms 30 loop6 = Some (990, loop6) ∧ i32 990 = (4294968316 - 30 + 2 ^ 31) mod 2 ^ 32 - 2 ^ 31).
Proof.
  split; [|split].
  - apply (next_timer_correct loop_init astate_init [] 0 5 loop_init_rep); done.
  - destruct loop1_rep as (A & l & n & Hs & _).
    destruct (next_timer_correct loop1 A l 11 15 Hs) as [_ H]; [done..|].
    destruct (H 5010 (loop1_earliest A l Hs)) as (E & H1 & _); [done|].
    split; [exact E|by apply H1].
  - destruct loop6_rep as (A & l & Hs).
    destruct (next_timer_correct loop6 A l 31 30 Hs) as [_ H]; [done..|].
    destruct (H 4294968316 (loop6_earliest A l Hs)) as (E & _ & _ & H1 & _); [done|].
    split; [exact E|by apply H1].
Defined.

Lemma srv1_abs : server_abs (el_srv loop1) astate_init.
Proof. apply server_init_abs. Qed.

Lemma bounded_init : bounded 0 astate_init.
Proof. split; [done|]. intros k ds Hk. discriminate Hk. Qed.

Lemma handle_read_pipelines_witness :
  ∃ srv A' vs rest bad c' wr,
    handle_read no_strtod (λ _, 20) (IoOk (set_k ++ take 9 get_k)) (λ len, IoOk len) (Some 2%positive) loop1 =
      Some (tt, with_conn (emits (NRecv 4 (set_k ++ take 9 get_k) :: wr) loop1) srv 2 c') ∧
    serves no_strtod (λ _, 20) (set_k ++ take 9 get_k) astate_init vs rest bad A' ∧ server_abs srv A' ∧
    c_incoming c' = rest ∧ responses vs = sent wr ++ c_outgoing c' ∧
    (c_want_close c' = false → conn_ok c' ∧ bad = false).
Proof.
  destruct event2_conn as (_ & Hc & _).
  apply (handle_read_pipelines no_strtod (λ _, 20) loop1 2 (mkConn 4 true false false [] [] 10) astate_init 0
    (Zbyte 21) (tail (set_k ++ take 9 get_k)) (λ len, IoOk len) Hc srv1_abs bounded_init); [|split; done|done|done].
  by intros len n Hl [= <-].
Defined.

Lemma stream_split_equiv_witness :
  ∃ s2, receive no_strtod (λ _, 20) (drop 9 get_k) (Some 2%positive)
      (state_of (receive no_strtod (λ _, 20) (set_k ++ take 9 get_k) (Some 2%positive)) loop1) = Some (tt, s2) ∧
    receive no_strtod (λ _, 20) ((set_k ++ take 9 get_k) ++ drop 9 get_k) (Some 2%positive) loop1 = Some (tt, s2).
Proof.
  destruct event2_conn as (_ & Hc & _).
  eapply (stream_split_equiv no_strtod loop1 2 (mkConn 4 true false false [] [] 10) astate_init 0 20
    (set_k ++ take 9 get_k) (drop 9 get_k) _ _ Hc srv1_abs bounded_init);
    [done|by vm_compute|by vm_compute|done].
Defined.
