(* ===== verification/NetStreams.v ===== *)
(** What one client sees of the abstract server of Network.v, and so of the program: the
    stream it receives is the stream of the answers to the requests in the stream it sent. *)
From S2P Require Import Prelude Common AvlRep DList HashTable Heap Buffer Request.
From S2P Require Import Server ServerSpec ServerRep ServerCmd ServerTheorems ServerTrace.
From S2P Require Import EventLoop ConnSpec Network ConnStream ConnIo LoopRep LoopConn LoopTurn LoopTheorems.
From S2P Require Import LoopExamples.

Section streams.
Context (strtod : list Byte.byte → Z * nat).
Implicit Types (A : astate) (C : gmap positive chan) (a b : positive) (fd : Z) (tr evs : list netev).
Implicit Types (data : list Byte.byte) (cmds : list (list (list Byte.byte))) (vs : list value).

(** * The two streams of a connection *)

(** The bytes received and sent on [fd] since it was accepted last. *)
Definition stream_step fd (st : list Byte.byte * list Byte.byte) (ev : netev) : list Byte.byte * list Byte.byte :=
  match ev with
  | NAccept fd' => if fd' =? fd then ([], []) else st
  | NRecv fd' data => if fd' =? fd then (st.1 ++ data, st.2) else st
  | NSent fd' data => if fd' =? fd then (st.1, st.2 ++ data) else st
  | NClose _ => st
  end.
Definition streams fd tr : list Byte.byte * list Byte.byte := foldl (stream_step fd) ([], []) tr.

Lemma streams_app fd tr evs : streams fd (tr ++ evs) = foldl (stream_step fd) (streams fd tr) evs.
Proof. apply foldl_app. Qed.

(** A stream, cut into the requests it starts with and the bytes after them. *)
Inductive splits : list Byte.byte → list (list (list Byte.byte)) → list Byte.byte → Prop :=
| sp_nil data : splits data [] data
| sp_cons data cmd rest cmds rest' :
    next_frame data = FCmd cmd rest → splits rest cmds rest' → splits data (cmd :: cmds) rest'.

Lemma splits_app data cmds rest more : splits data cmds rest → splits (data ++ more) cmds (rest ++ more).
Proof.
  induction 1 as [|data cmd rest cmds rest' Hf _ IH]; [constructor|].
  eapply sp_cons; [by apply next_frame_app|exact IH].
Qed.

Lemma splits_snoc data cmds rest cmd rest' :
  splits data cmds rest → next_frame rest = FCmd cmd rest' → splits data (cmds ++ [cmd]) rest'.
Proof.
  induction 1 as [|data cmd' rest cmds rest1 Hf _ IH]; intros Hr.
  - eapply sp_cons; [exact Hr|constructor].
  - simpl. eapply sp_cons; [exact Hf|by apply IH].
Qed.

(** * The invariant of a run *)

(** [v] answers [cmd] on some state of the key space. *)
Definition answers (cmd : list (list Byte.byte)) (v : value) : Prop :=
  ∃ now A A', spec_request strtod now cmd A A' v.

Definition chan_ok tr (ch : chan) : Prop :=
  ∃ cmds vs, splits (streams (ch_fd ch) tr).1 cmds (ch_in ch) ∧ Forall2 answers cmds vs ∧
    (streams (ch_fd ch) tr).2 ++ ch_out ch = responses vs.

Definition fds_distinct C : Prop :=
  ∀ a b ch ch', C !! a = Some ch → C !! b = Some ch' → ch_fd ch = ch_fd ch' → a = b.

Definition run_ok tr (N : netstate) : Prop :=
  fds_distinct (ns_chans N) ∧ ∀ a ch, ns_chans N !! a = Some ch → chan_ok tr ch.

Lemma fds_insert C a ch ch' :
  fds_distinct C → C !! a = Some ch → ch_fd ch' = ch_fd ch → fds_distinct (<[a:=ch']> C).
Proof.
  intros Hd Ha E b1 b2 c1 c2 H1 H2 Ef.
  apply lookup_insert_Some in H1 as [[<- <-]|[Hn1 H1]], H2 as [[<- <-]|[Hn2 H2]]; try done.
  - rewrite E in Ef. by eapply Hd.
  - rewrite E in Ef. by eapply Hd.
  - by eapply Hd.
Qed.

(** An exchange on one connection leaves the streams of the others alone. *)
Lemma run_ok_update tr evs A A' C a ch ch' :
  run_ok tr (mkNet A C) → C !! a = Some ch → ch_fd ch' = ch_fd ch →
  (∀ fd st, fd ≠ ch_fd ch → foldl (stream_step fd) st evs = st) →
  chan_ok (tr ++ evs) ch' → run_ok (tr ++ evs) (mkNet A' (<[a:=ch']> C)).
Proof.
  intros [Hd Hok] Ha E Hother Hch. split; simpl in *; [by eapply fds_insert|].
  intros b chb [[<- <-]|[Hne Hb]]%lookup_insert_Some; [done|].
  destruct (Hok b chb Hb) as (cmds & vs & H). exists cmds, vs.
  rewrite streams_app, Hother; [done|]. intros Ef. apply Hne. by eapply Hd.
Qed.

Lemma net_step_ok tr N evs N' : run_ok tr N → net_step strtod N evs N' → run_ok (tr ++ evs) N'.
Proof.
  intros Hr Hs. destruct Hs as [A C a fd Ha Hfree|A C a fd i data Ha|A C a fd i o now cmd rest A' v Ha Hf Hv|
    A C a fd i data o Ha|A C a ch Ha|A C now ks A' _].
  - destruct Hr as [Hd Hok]. split; simpl in *.
    + intros b1 b2 c1 c2 H1 H2 Ef.
      apply lookup_insert_Some in H1 as [[<- <-]|[Hn1 H1]], H2 as [[<- <-]|[Hn2 H2]]; try done.
      * by destruct (Hfree _ _ H2).
      * by destruct (Hfree _ _ H1).
      * by eapply Hd.
    + intros b chb [[<- <-]|[Hne Hb]]%lookup_insert_Some.
      * exists [], []. rewrite streams_app. simpl. rewrite Z.eqb_refl. split_and!; [constructor|done|done].
      * destruct (Hok b chb Hb) as (cmds & vs & H). exists cmds, vs. rewrite streams_app. simpl.
        destruct (Z.eqb_spec fd (ch_fd chb)) as [E|_]; [by destruct (Hfree _ _ Hb)|done].
  - pose proof (proj2 Hr _ _ Ha) as (cmds & vs & H1 & H2 & H3).
    eapply run_ok_update; [exact Hr|exact Ha|done| |].
    + intros fd' st Hne. simpl in *. by destruct (Z.eqb_spec fd fd').
    + exists cmds, vs. rewrite streams_app. simpl in *. rewrite Z.eqb_refl. simpl.
      split_and!; [by apply splits_app|done|done].
  - pose proof (proj2 Hr _ _ Ha) as (cmds & vs & H1 & H2 & H3).
    eapply run_ok_update; [exact Hr|exact Ha|done|done|].
    exists (cmds ++ [cmd]), (vs ++ [v]). rewrite app_nil_r. simpl in *.
    split_and!; [by eapply splits_snoc|apply Forall2_app; [done|]; constructor; [by exists now, A, A'|done]|].
    unfold responses in *. rewrite fmap_app, concat_app, <- H3, app_assoc. simpl. by rewrite app_nil_r.
  - pose proof (proj2 Hr _ _ Ha) as (cmds & vs & H1 & H2 & H3).
    eapply run_ok_update; [exact Hr|exact Ha|done| |].
    + intros fd' st Hne. simpl in *. by destruct (Z.eqb_spec fd fd').
    + exists cmds, vs. rewrite streams_app. simpl in *. rewrite Z.eqb_refl. simpl.
      split_and!; [done|done|by rewrite <- app_assoc].
  - destruct Hr as [Hd Hok]. split; simpl in *.
    + intros b1 b2 c1 c2 [_ H1]%lookup_delete_Some [_ H2]%lookup_delete_Some. by apply Hd.
    + intros b chb [_ Hb]%lookup_delete_Some. destruct (Hok b chb Hb) as (cmds & vs & H).
      exists cmds, vs. by rewrite streams_app.
  - by rewrite app_nil_r.
Qed.

Lemma net_steps_ok tr N evs N' : run_ok tr N → net_steps strtod N evs N' → run_ok (tr ++ evs) N'.
Proof.
  intros Hr Hs. revert tr Hr. induction Hs as [N|N evs N1 evs' N2 Hstep _ IH]; intros tr Hr; [by rewrite app_nil_r|].
  rewrite app_assoc. apply IH. by eapply net_step_ok.
Qed.

(** C3. What a client sees: for every open connection of every reachable state, the bytes
    received on its descriptor since it was accepted are whole requests followed by what
    waits in [incoming]; and the bytes sent on it, followed by what waits in [outgoing],
    are one response for each of those requests, in order, each with an answer that the
    key space specifies.  Nothing of another connection, present or past, gets in. *)
Theorem client_streams k T s a c :
  reached strtod k T s → Z.of_nat k < cnt_max → el_conns s !! a = Some c →
  ∃ cmds vs, splits (streams (c_fd c) (el_net s)).1 cmds (c_incoming c) ∧ Forall2 answers cmds vs ∧
    (streams (c_fd c) (el_net s)).2 ++ c_outgoing c = responses vs.
Proof.
  intros Hr Hk Hc. destruct (reached_rep strtod k T s Hr Hk) as (A & l & n & _ & _ & _ & evs & E & Hsteps).
  assert (run_ok [] (view loop_init astate_init)) as H0 by (split; [intros ? ? ? ? E1|intros ? ? E1]; discriminate E1).
  destruct (net_steps_ok [] _ _ _ H0 Hsteps) as [_ Hok]. simpl in E, Hok. rewrite <- E in Hok.
  apply (Hok a (chan_of c)). by rewrite lookup_fmap, Hc.
Qed.
End streams.

(** After the second turn of the session: SET has been answered, half of GET has arrived. *)
Lemma client_streams_witness :
  ∃ cmds vs, splits (set_k ++ take 9 get_k) cmds (take 9 get_k) ∧ Forall2 (answers no_strtod) cmds vs ∧
    response (encode VNil) ++ [] = responses vs.
Proof.
  apply (client_streams no_strtod 34 21 loop2 2 (mkConn 4 true false false (take 9 get_k) [] 20) loop2_reached);
    [done|by vm_compute].
Defined.
