(* ===== verification/Main.v ===== *)
(** [main] of server/main.cc: the listening socket, the event loop around [poll], and
    the ways the program ends. *)
From S2P Require Import Prelude Common AvlRep DList HashTable Heap Buffer Request.
From S2P Require Import Server ServerSpec ServerRep ServerCmd ServerTheorems ServerTrace.
From S2P Require Import EventLoop ConnSpec Network ConnIo LoopRep LoopConn LoopTurn LoopTheorems LoopInputs LoopExamples.

(** * The code *)

(** The clock in milliseconds, from the result of [clock_gettime]. *)
Definition get_monotonic_msec (tv_sec tv_nsec : Z) : Z := u64 (u64 (tv_sec * 1000) + tv_nsec / 1000 / 1000).

(** The results of [socket], [bind], [fcntl] and [listen]. *)
Record setup : Type := mkSetup {
  su_fd : Z;
  su_bind : Z;
  su_nb1 : Z;
  su_nb2 : Z;
  su_listen : Z;
}.

Definition server_setup (su : setup) : ending :=
  if su_fd su <? 0 then Died (str "socket()")
  else if negb (su_bind su =? 0) then Died (str "bind()")
  else
    match fd_set_nb (su_nb1 su) (su_nb2 su) with
    | Died m => Died m
    | Running => if negb (su_listen su =? 0) then Died (str "listen()") else Running
    end.

Definition EINTR : Z := 4.

(** A call of [poll]: the descriptors with [POLLIN] and [POLLOUT], and the timeout. *)
Record poll_call : Type := mkPoll {
  pc_args : list (Z * bool * bool);
  pc_timeout : Z;
}.

(** What [poll] answers: an error, or the listening socket (if it is ready, what
    [handle_accept] gets) and the connections that are ready. *)
Inductive poll_result : Type :=
| PollError (errno : Z)
| PollReady (acc : option accept_result) (es : list revent).

(** One round: the clock for the timeout, the answer of [poll], the clock for the timers. *)
Record round : Type := mkRound {
  rd_clock : Z;
  rd_poll : poll_result;
  rd_now : Z;
}.

Section main.
Context (strtod : list Byte.byte → Z * nat).

(** The loop of [main], for the rounds that it makes, on the listening socket [fd]: how it ends,
    and its calls of [poll]. *)
Fixpoint event_loop (fd : Z) (rounds : list round) : M evloop (ending * list poll_call) :=
  match rounds with
  | [] => mret (Running, [])
  | r :: rounds =>
      s ← get;
      let args := (fd, true, false) :: poll_args s in
      timeout_ms ← next_timer_ms (rd_clock r);
      let call := mkPoll args (i32 timeout_ms) in
      match rd_poll r with
      | PollError errno =>
          if errno =? EINTR then
            x ← event_loop fd rounds;
            mret ((x : ending * list poll_call).1, call :: x.2)
          else mret (Died (str "poll"), [call])
      | PollReady acc es =>
          e ← loop_turn strtod acc es (rd_now r);
          match e with
          | Died m => mret (Died m, [call])
          | Running =>
              x ← event_loop fd rounds;
              mret ((x : ending * list poll_call).1, call :: x.2)
          end
      end
  end.

Definition server_main (su : setup) (rounds : list round) : M evloop (ending * list poll_call) :=
  match server_setup su with
  | Died m => mret (Died m, [])
  | Running => event_loop (su_fd su) rounds
  end.

(** * The contract of the system calls, along a run *)


(** * What the rounds say of the run *)






(** * Rounds *)






End main.

(** The clock counts milliseconds, and does not run backwards if its parts do not. *)
Lemma get_monotonic_msec_mono sec nsec sec' nsec' :
  0 ≤ sec → 0 ≤ nsec < 10 ^ 9 → 0 ≤ nsec' < 10 ^ 9 → sec' * 1000 + 1000 ≤ 2 ^ 64 →
  sec < sec' ∨ (sec = sec' ∧ nsec ≤ nsec') →
  get_monotonic_msec sec nsec ≤ get_monotonic_msec sec' nsec'.
Proof.
  intros Hs Hn Hn' Hmax Hle. unfold get_monotonic_msec.
  rewrite !Z.div_div by lia. change (1000 * 1000) with (10 ^ 6).
  assert (0 ≤ nsec / 10 ^ 6 < 1000) by (split; [apply Z.div_pos; lia|apply Z.div_lt_upper_bound; lia]).
  assert (0 ≤ nsec' / 10 ^ 6 < 1000) by (split; [apply Z.div_pos; lia|apply Z.div_lt_upper_bound; lia]).
  rewrite !u64_small; try lia; rewrite ?u64_small; try lia.
  destruct Hle as [?|[-> Hle]]; [lia|]. pose proof (Z.div_le_mono nsec nsec' (10 ^ 6) ltac:(lia) Hle). lia.
Qed.

(** The first two turns of the session, with an interrupted [poll] in between, and a failure. *)
Definition session_rounds : list round :=
  [mkRound 1 (PollReady (Some accept4) []) 11; mkRound 12 (PollError EINTR) 0;
   mkRound 13 (PollReady None [event2]) 21; mkRound 22 (PollError 22) 0].


(** The calls of [poll] of that session, and one in which [fcntl] fails. *)
Example session_calls :
  (λ x : ending * list poll_call * evloop, x.1) <$>
    server_main no_strtod (mkSetup 3 0 0 0 0) session_rounds loop_init =
  Some (Died (str "poll"), [mkPoll [(3, true, false)] (-1);
    mkPoll [(3, true, false); (4, true, false)] 4998;
    mkPoll [(3, true, false); (4, true, false)] 4997;
    mkPoll [(3, true, false); (4, true, false)] 4998]).
Proof. vm_compute. reflexivity. Qed.

Example session_dies :
  (λ x : ending * list poll_call * evloop, x.1) <$>
    server_main no_strtod (mkSetup 3 0 0 0 0)
      [mkRound 1 (PollReady (Some (mkAccept 4 0 9 10)) []) 11; mkRound 12 (PollError EINTR) 0] loop_init =
  Some (Died (str "fcntl error"), [mkPoll [(3, true, false)] (-1)]).
Proof. vm_compute. reflexivity. Qed.


