(* ===== verification/ThreadPool.v ===== *)
(** The thread pool of container/thread_pool.h, as a labelled step function: the steps
    of the workers and of the thread that owns the pool interleave freely.

    A critical section under [queue_mutex] is one step.  Waiting on the condition
    variable releases the mutex; a waiting worker may wake without a notification
    (a spurious wakeup), checks its predicate again, and may go back to sleep. *)
From S2P Require Import Prelude.

(** * The constructor *)

(** The number of workers, for [std::thread::hardware_concurrency()] and the argument. *)
Definition pool_size (core_count num_threads : Z) : Z :=
  let core_count := if core_count =? 0 then 2 else core_count in
  if num_threads <=? 0 then core_count else Z.min core_count (u32 num_threads).

Section pool.
Context {T : Type}.

(** ** State *)

Inductive worker : Type :=
| WCheck           (* at the head of its loop, or woken: about to take the mutex *)
| WWait            (* asleep in [queue_condition.wait] *)
| WRun (task : T)  (* has taken a task, runs it without the mutex *)
| WDone.           (* has returned *)

(** The thread that owns the pool. *)
Inductive owner : Type :=
| OIdle
| ONotify            (* in [enqueue], after the critical section *)
| OStopped           (* in the destructor, after [stop = true] *)
| OJoin (n : nat)    (* about to join the n-th worker *)
| OGone.             (* the pool is destroyed *)

#[global] Instance owner_eq_dec : EqDecision owner.
Proof. solve_decision. Defined.

Record pool : Type := mkPool {
  tp_stop : bool;
  tp_tasks : list T;
  tp_workers : list worker;
  tp_owner : owner;
}.

Definition pool_init (n : nat) : pool := mkPool false [] (replicate n WCheck) OIdle.

(** ** Steps *)

Inductive action : Type :=
| Enqueue (task : T)
| NotifyOne (w : option nat)
| Stop
| NotifyAll
| Join
| Attempt (i : nat)
| Wake (i : nat)
| Finish (i : nat).

(** The critical section of [enqueue]; [None] is the exception. *)
Definition enqueue (task : T) (p : pool) : option pool :=
  if tp_stop p then None
  else Some (mkPool (tp_stop p) (tp_tasks p ++ [task]) (tp_workers p) ONotify).

Definition is_waiting (w : worker) : bool := match w with WWait => true | _ => false end.
Definition is_checking (w : worker) : bool := match w with WCheck => true | _ => false end.
Definition is_empty (l : list T) : bool := match l with [] => true | _ => false end.

(** [notify_one] wakes one of the waiting workers, if there is one. *)
Definition notify_one (w : option nat) (p : pool) : option pool :=
  match w with
  | Some i =>
      match tp_workers p !! i with
      | Some WWait => Some (mkPool (tp_stop p) (tp_tasks p) (<[i:=WCheck]> (tp_workers p)) OIdle)
      | _ => None
      end
  | None =>
      if existsb is_waiting (tp_workers p) then None
      else Some (mkPool (tp_stop p) (tp_tasks p) (tp_workers p) OIdle)
  end.

Definition wake (w : worker) : worker := if is_waiting w then WCheck else w.

Definition notify_all (p : pool) : pool :=
  mkPool (tp_stop p) (tp_tasks p) (wake <$> tp_workers p) (OJoin 0).

(** The critical section of a worker: the predicate of [wait], then the end or a task.
    [None] is [tasks.front()] of an empty queue. *)
Definition worker_check (p : pool) : option (worker * list T) :=
  if negb (tp_stop p || negb (is_empty (tp_tasks p))) then Some (WWait, tp_tasks p)
  else if tp_stop p && is_empty (tp_tasks p) then Some (WDone, tp_tasks p)
  else
    match tp_tasks p with
    | [] => None
    | task :: tasks => Some (WRun task, tasks)
    end.

Definition pool_step (a : action) (p : pool) : option pool :=
  match a, tp_owner p with
  | Enqueue task, OIdle => enqueue task p
  | NotifyOne w, ONotify => notify_one w p
  | Stop, OIdle => Some (mkPool true (tp_tasks p) (tp_workers p) OStopped)
  | NotifyAll, OStopped => Some (notify_all p)
  | Join, OJoin n =>
      match tp_workers p !! n with
      | Some WDone => Some (mkPool (tp_stop p) (tp_tasks p) (tp_workers p) (OJoin (S n)))
      | Some _ => None
      | None => Some (mkPool (tp_stop p) (tp_tasks p) (tp_workers p) OGone)
      end
  | Attempt i, _ =>
      match tp_workers p !! i with
      | Some WCheck =>
          r ← worker_check p;
          Some (mkPool (tp_stop p) r.2 (<[i:=r.1]> (tp_workers p)) (tp_owner p))
      | _ => None
      end
  | Wake i, _ =>
      match tp_workers p !! i with
      | Some WWait => Some (mkPool (tp_stop p) (tp_tasks p) (<[i:=WCheck]> (tp_workers p)) (tp_owner p))
      | _ => None
      end
  | Finish i, _ =>
      match tp_workers p !! i with
      | Some (WRun _) => Some (mkPool (tp_stop p) (tp_tasks p) (<[i:=WCheck]> (tp_workers p)) (tp_owner p))
      | _ => None
      end
  | _, _ => None
  end.

(** The task that a step enqueues, or finishes. *)
Definition enqueued (a : action) : list T := match a with Enqueue t => [t] | _ => [] end.
Definition finished (a : action) (p : pool) : list T :=
  match a with
  | Finish i => match tp_workers p !! i with Some (WRun t) => [t] | _ => [] end
  | _ => []
  end.
Definition started (a : action) (p : pool) : list T :=
  match a with
  | Attempt i => match worker_check p with Some (WRun t, _) => [t] | _ => [] end
  | _ => []
  end.

(** The states that a pool of [n] workers reaches, with the tasks enqueued, started and
    finished so far, in order. *)
Inductive pool_reached (n : nat) : list T → list T → list T → pool → Prop :=
| pr_init : pool_reached n [] [] [] (pool_init n)
| pr_step enq sta fin p a p' :
    pool_reached n enq sta fin p → pool_step a p = Some p' →
    pool_reached n (enq ++ enqueued a) (sta ++ started a p) (fin ++ finished a p) p'.

(** * Invariants *)

(** The tasks that workers are running. *)
Definition running (ws : list worker) : list T :=
  omap (λ w, match w with WRun t => Some t | _ => None end) ws.

Lemma running_app ws ws' : running (ws ++ ws') = running ws ++ running ws'.
Proof. apply omap_app. Qed.

(** A worker changes: the tasks that run lose its old one and gain its new one. *)
Lemma running_insert ws i w w' :
  ws !! i = Some w → running [w] ++ running (<[i:=w']> ws) ≡ₚ running [w'] ++ running ws.
Proof.
  intros Hi. rewrite (insert_take_drop ws i w') by (by eapply lookup_lt_Some).
  rewrite <- (take_drop_middle ws i w Hi) at 3.
  rewrite !running_app. change (w :: drop (S i) ws) with ([w] ++ drop (S i) ws).
  change (w' :: drop (S i) ws) with ([w'] ++ drop (S i) ws). rewrite !running_app.
  rewrite !(app_assoc _ (running (take i ws))), !app_assoc.
  f_equiv. rewrite (Permutation_app_comm (running [w]) (running (take i ws))).
  rewrite <- !app_assoc. rewrite (Permutation_app_comm (running [w']) (running (take i ws) ++ running [w])).
  by rewrite <- !app_assoc.
Qed.

Lemma running_done ws : (∀ i, (i < length ws)%nat → ws !! i = Some WDone) → running ws = [].
Proof.
  induction ws as [|w ws IH]; intros Hd; [done|].
  pose proof (Hd 0%nat ltac:(simpl; lia)) as [= ->]. apply IH. intros i Hi. apply (Hd (S i)). simpl. lia.
Qed.

Lemma running_wake ws : running (wake <$> ws) = running ws.
Proof. induction ws as [|w ws IH]; [done|]. destruct w; cbn; [exact IH..| |exact IH]. f_equal. exact IH. Qed.

(** The tasks enqueued are those started, in the same order, and those in the queue;
    the tasks started are those that run and those finished. *)
Lemma pool_tasks n enq sta fin p :
  pool_reached n enq sta fin p →
  enq = sta ++ tp_tasks p ∧ sta ≡ₚ fin ++ running (tp_workers p).
Proof.
  induction 1 as [|enq sta fin p a p' Hr [IH1 IH2] E].
  { split; [done|]. simpl. induction n as [|n IH]; [done|exact IH]. }
  assert (∀ i w w', tp_workers p !! i = Some w → running [w] = [] → running [w'] = [] →
    running (<[i:=w']> (tp_workers p)) ≡ₚ running (tp_workers p)) as Hsame.
  { intros i w w' Hi Hw Hw'. pose proof (running_insert _ i w w' Hi) as Hp. by rewrite Hw, Hw' in Hp. }
  destruct a as [t|w| | | |i|i|i]; simpl in E; cbn [enqueued started finished]; rewrite ?app_nil_r.
  - destruct (tp_owner p); try done. unfold enqueue in E. destruct (tp_stop p); [done|].
    injection E as <-. simpl. by rewrite IH1, <- app_assoc.
  - destruct (tp_owner p); try done. unfold notify_one in E. destruct w as [i|].
    + destruct (tp_workers p !! i) as [[]|] eqn:Ei; try done. injection E as <-. simpl.
      split; [done|]. by rewrite (Hsame i WWait).
    + destruct (existsb _ _); [done|]. by injection E as <-.
  - destruct (tp_owner p); try done. by injection E as <-.
  - destruct (tp_owner p); try done. injection E as <-. simpl. by rewrite running_wake.
  - destruct (tp_owner p); try done. destruct (tp_workers p !! n0) as [[]|]; try done; by injection E as <-.
  - destruct (tp_workers p !! i) as [[]|] eqn:Ei; try done. unfold worker_check in *.
    destruct (tp_tasks p) as [|t tasks]; destruct (tp_stop p); simpl in E; injection E as <-;
      simpl; rewrite ?app_nil_r in *; try by rewrite (Hsame i WCheck).
    all: split; [by rewrite IH1, <- app_assoc|].
    all: pose proof (running_insert _ i _ (WRun t) Ei) as Hp; simpl in Hp.
    all: by rewrite Hp, IH2, <- app_assoc, (Permutation_app_comm _ [t]).
  - destruct (tp_workers p !! i) as [[]|] eqn:Ei; try done. injection E as <-. simpl.
    split; [done|]. by rewrite (Hsame i WWait).
  - destruct (tp_workers p !! i) as [[| |t|]|] eqn:Ei; try done. injection E as <-. simpl.
    split; [done|]. pose proof (running_insert _ i _ WCheck Ei) as Hp. simpl in Hp.
    by rewrite IH2, <- Hp, <- app_assoc.
Qed.

(** ** Counting workers *)

Definition sleeping : list worker → nat := sum_list_with (λ w, if is_waiting w then 1 else 0)%nat.
Definition ready : list worker → nat := sum_list_with (λ w, if is_checking w then 1 else 0)%nat.

(** What is left of the shutdown: the tasks, the workers on their way out, the joins. *)
Definition worker_work (w : worker) : nat :=
  match w with WCheck | WWait => 1 | WRun _ => 2 | WDone => 0 end%nat.
Definition shutdown_work (p : pool) : nat :=
  2 * length (tp_tasks p) + sum_list_with worker_work (tp_workers p) +
  match tp_owner p with
  | OJoin n => S (length (tp_workers p) - n)
  | _ => 0
  end.

Lemma sum_insert (f : worker → nat) ws i w w' :
  ws !! i = Some w → (sum_list_with f (<[i:=w']> ws) + f w = sum_list_with f ws + f w')%nat.
Proof.
  revert i. induction ws as [|x ws IH]; intros [|i]; try done; simpl.
  - intros [= ->]. lia.
  - intros Hi%IH. lia.
Qed.

(** How the two counts change with a worker. *)
Lemma counts_insert ws i w w' :
  ws !! i = Some w →
  (sleeping (<[i:=w']> ws) + (if is_waiting w then 1 else 0) = sleeping ws + (if is_waiting w' then 1 else 0) ∧
   ready (<[i:=w']> ws) + (if is_checking w then 1 else 0) = ready ws + (if is_checking w' then 1 else 0))%nat.
Proof. intros Hi. split; [exact (sum_insert (λ w, if is_waiting w then 1 else 0)%nat _ _ _ _ Hi)|].
  exact (sum_insert (λ w, if is_checking w then 1 else 0)%nat _ _ _ _ Hi). Qed.

Lemma sleeping_wake ws : sleeping (wake <$> ws) = 0%nat.
Proof. induction ws as [|w ws IH]; [done|]. by destruct w. Qed.
Lemma sleeping_lookup ws i : ws !! i = Some WWait → (0 < sleeping ws)%nat.
Proof.
  revert i. induction ws as [|w ws IH]; intros [|i]; try done; simpl.
  - intros [= ->]. simpl. lia.
  - intros Hi%IH. unfold sleeping in *. lia.
Qed.
Lemma sleeping_none ws : existsb is_waiting ws = false → sleeping ws = 0%nat.
Proof. induction ws as [|w ws IH]; [done|]. by destruct w; simpl. Qed.

(** What holds of a pool in use: sleeping workers leave no task behind, a worker that
    has returned leaves an empty queue, and the workers in a destroyed pool returned. *)
Record pool_ok (n : nat) (p : pool) : Prop := mkPoolOk {
  po_workers : length (tp_workers p) = n;
  po_awake : sleeping (tp_workers p) = 0%nat ∨
    (length (tp_tasks p) ≤ ready (tp_workers p) + match tp_owner p with ONotify => 1 | _ => 0 end)%nat;
  po_done : WDone ∈ tp_workers p → tp_stop p = true ∧ tp_tasks p = [];
  po_owner :
    match tp_owner p with
    | OIdle | ONotify => tp_stop p = false
    | OStopped => tp_stop p = true
    | OJoin k => tp_stop p = true ∧ sleeping (tp_workers p) = 0%nat ∧
        (k ≤ n)%nat ∧ ∀ i, (i < k)%nat → tp_workers p !! i = Some WDone
    | OGone => ∀ i, (i < n)%nat → tp_workers p !! i = Some WDone
    end;
}.

Lemma pool_init_ok n : pool_ok n (pool_init n).
Proof.
  split; simpl; [apply length_replicate|right; lia| |done].
  intros Hd%elem_of_replicate. by destruct Hd.
Qed.

(** A step of a worker that has not returned, and of [notify_one]. *)
Lemma pool_ok_worker n p i w w' ts o :
  pool_ok n p → tp_workers p !! i = Some w → w ≠ WDone →
  (o = tp_owner p ∨ (tp_owner p = ONotify ∧ o = OIdle)) →
  (w' = WDone → tp_stop p = true ∧ ts = []) → (tp_tasks p = [] → ts = []) →
  (w' = WWait → tp_stop p = false) →
  (let ws := <[i:=w']> (tp_workers p) in
   sleeping ws = 0%nat ∨ (length ts ≤ ready ws + match o with ONotify => 1 | _ => 0 end)%nat) →
  pool_ok n (mkPool (tp_stop p) ts (<[i:=w']> (tp_workers p)) o).
Proof.
  intros [Hn Ha Hd Ho] Hi Hw Eo Hwd Hts Hww Hs. split; cbn [tp_workers tp_tasks tp_stop tp_owner].
  - by rewrite length_insert.
  - exact Hs.
  - intros [j Hj]%list_elem_of_lookup. destruct (decide (i = j)) as [<-|Hij].
    + rewrite list_lookup_insert_eq in Hj by (by eapply lookup_lt_Some). apply Hwd. congruence.
    + rewrite list_lookup_insert_ne in Hj by done. apply list_elem_of_lookup_2, Hd in Hj.
      destruct Hj as [? Hj%Hts]. done.
  - destruct Eo as [->|[E ->]]; [|by rewrite E in Ho].
    assert (∀ k, (∀ j, (j < k)%nat → tp_workers p !! j = Some WDone) →
      ∀ j, (j < k)%nat → <[i:=w']> (tp_workers p) !! j = Some WDone) as Hk.
    { intros k Hk j Hj. rewrite list_lookup_insert_ne; [by apply Hk|]. intros ->.
      rewrite (Hk j Hj) in Hi. congruence. }
    destruct (tp_owner p) as [| | |k|]; try done; [|by apply Hk].
    destruct Ho as (Hstop & Hsl & Hkn & Hdone). split_and!; auto; [|by apply Hk].
    destruct (counts_insert _ i w w' Hi) as [Hsum _]. destruct w'; simpl in *; try lia.
    by rewrite Hww in Hstop.
Qed.

Lemma pool_step_ok n p a p' : pool_ok n p → pool_step a p = Some p' → pool_ok n p'.
Proof.
  intros Hp E. pose proof Hp as [Hn Ha Hd Ho].
  destruct a as [t|w| | | |i|i|i]; simpl in E.
  - destruct (tp_owner p) eqn:Eo; try done. unfold enqueue in E. rewrite Ho in E. injection E as <-.
    split; simpl; [done| |intros []%Hd; congruence|done].
    rewrite length_app; simpl. destruct Ha; [by left|right; lia].
  - destruct (tp_owner p) eqn:Eo; try done. unfold notify_one in E. destruct w as [i|].
    + destruct (tp_workers p !! i) as [[]|] eqn:Ei; try done. injection E as <-.
      eapply pool_ok_worker; eauto; try done.
      destruct (counts_insert _ i _ WCheck Ei). simpl in *. lia.
    + destruct (existsb _ _) eqn:Ee; [done|]. injection E as <-. apply sleeping_none in Ee.
      split; simpl; auto.
  - destruct (tp_owner p) eqn:Eo; try done. injection E as <-. split; simpl; auto.
    intros Hx. split; [done|]. by apply Hd.
  - destruct (tp_owner p) eqn:Eo; try done. injection E as <-.
    split; simpl; [by rewrite length_fmap|left; apply sleeping_wake| |].
    + intros [w [E Hw]]%list_elem_of_fmap. apply Hd. by destruct w.
    + split_and!; [done|apply sleeping_wake|lia|lia].
  - destruct (tp_owner p) as [| | |k|] eqn:Eo; try done. destruct Ho as (Hstop & Hsl & Hk & Hdone).
    destruct (tp_workers p !! k) as [w|] eqn:Ek.
    + destruct w; try done. injection E as <-. split; simpl; auto. split_and!; auto.
      * apply lookup_lt_Some in Ek. lia.
      * intros j Hj. destruct (decide (j = k)) as [->|]; [done|]. apply Hdone. lia.
    + injection E as <-. split; simpl; auto. intros j Hj. apply Hdone. apply lookup_ge_None in Ek. lia.
  - destruct (tp_workers p !! i) as [[]|] eqn:Ei; try done. unfold worker_check in E.
    destruct (tp_tasks p) as [|t ts] eqn:Et; destruct (tp_stop p) eqn:Es; simpl in E; injection E as <-;
      rewrite <- Es; eapply pool_ok_worker; eauto; try done; try congruence; simpl; try lia.
    all: destruct (counts_insert _ i _ (WRun t) Ei); simpl in *; lia.
  - destruct (tp_workers p !! i) as [[]|] eqn:Ei; try done. injection E as <-.
    eapply pool_ok_worker; eauto; try done. destruct (counts_insert _ i _ WCheck Ei); simpl in *; lia.
  - destruct (tp_workers p !! i) as [[| |t|]|] eqn:Ei; try done. injection E as <-.
    eapply pool_ok_worker; eauto; try done. destruct (counts_insert _ i _ WCheck Ei); simpl in *; lia.
Qed.

Lemma pool_reached_ok n enq sta fin p : pool_reached n enq sta fin p → pool_ok n p.
Proof. induction 1; [apply pool_init_ok|by eapply pool_step_ok]. Qed.

(** A worker that is neither asleep nor gone has a step. *)
Lemma worker_enabled p i w :
  tp_workers p !! i = Some w → w ≠ WWait → w ≠ WDone →
  ∃ p', pool_step (match w with WRun _ => Finish i | _ => Attempt i end) p = Some p'.
Proof.
  intros Hi Hw Hd. destruct w as [| |t|]; try done; simpl; rewrite Hi; [|by eexists].
  unfold worker_check. destruct (tp_tasks p); destruct (tp_stop p); simpl; by eexists.
Qed.

Lemma worker_cases w : w = WWait ∨ w = WDone ∨ (w ≠ WWait ∧ w ≠ WDone).
Proof. destruct w; auto. Qed.

(** Some worker is ready if the count says so. *)
Lemma ready_lookup ws : (0 < ready ws)%nat → ∃ i, ws !! i = Some WCheck.
Proof.
  induction ws as [|w ws IH]; simpl; [lia|]. destruct w; simpl; [by exists 0%nat|..];
    intros [i Hi]%IH; by exists (S i).
Qed.

(** ** Runs *)

Fixpoint pool_run (acts : list action) (p : pool) : option pool :=
  match acts with
  | [] => Some p
  | a :: acts => p' ← pool_step a p; pool_run acts p'
  end.

(** A step of the pool itself: not a new task, not the start of the shutdown, and not a
    wakeup that nobody sent. *)
Definition is_progress (a : action) : bool :=
  match a with Enqueue _ | Stop | Wake _ => false | _ => true end.

Lemma pool_ok_run n p acts p' : pool_ok n p → pool_run acts p = Some p' → pool_ok n p'.
Proof.
  revert p. induction acts as [|a acts IH]; simpl; intros p Hp E; [by injection E as <-|].
  destruct (pool_step a p) as [p1|] eqn:E1; [|done]. eauto using pool_step_ok.
Qed.

Lemma shutdown_over n p : pool_ok n p → tp_owner p = OGone → ∀ a, pool_step a p = None.
Proof.
  intros [Hn _ _ Ho] Eo a. rewrite Eo in Ho.
  assert (∀ i w, tp_workers p !! i = Some w → w = WDone) as Hd.
  { intros i w Hi. rewrite Ho in Hi; [congruence|]. rewrite <- Hn. by eapply lookup_lt_Some. }
  destruct a as [| | | | |i|i|i]; simpl; rewrite ?Eo; try done;
    destruct (tp_workers p !! i) as [w|] eqn:Ei; try done; by rewrite (Hd _ _ Ei).
Qed.

(** While the destructor joins, every step takes the shutdown forward. *)
Lemma shutdown_decreases n p k a p' :
  pool_ok n p → tp_owner p = OJoin k → pool_step a p = Some p' →
  (shutdown_work p' < shutdown_work p)%nat ∧ (tp_owner p' = OGone ∨ ∃ k', tp_owner p' = OJoin k').
Proof.
  intros [Hn _ _ Ho] Eo E. rewrite Eo in Ho. destruct Ho as (Hstop & Hsl & Hk & Hdone).
  unfold shutdown_work. rewrite Eo.
  destruct a as [| | | | |i|i|i]; simpl in E; rewrite ?Eo in E; try done.
  - destruct (tp_workers p !! k) as [[]|] eqn:Ek; try done; injection E as <-; simpl.
    + apply lookup_lt_Some in Ek. split; [lia|eauto].
    + apply lookup_ge_None in Ek. split; [lia|eauto].
  - destruct (tp_workers p !! i) as [[]|] eqn:Ei; try done. unfold worker_check in E.
    rewrite Hstop in E. destruct (tp_tasks p) as [|t ts] eqn:Et; simpl in E; injection E as <-;
      simpl; rewrite ?Eo, length_insert; (split; [|eauto]).
    + pose proof (sum_insert worker_work _ i _ WDone Ei). simpl in *. lia.
    + pose proof (sum_insert worker_work _ i _ (WRun t) Ei). simpl in *. lia.
  - destruct (tp_workers p !! i) as [[]|] eqn:Ei; try done.
    apply sleeping_lookup in Ei. lia.
  - destruct (tp_workers p !! i) as [[| |t|]|] eqn:Ei; try done. injection E as <-.
    simpl. rewrite length_insert. split; [|eauto].
    pose proof (sum_insert worker_work _ i _ WCheck Ei). simpl in *. lia.
Qed.

(** While the destructor joins, there is a step. *)
Lemma shutdown_enabled n p k : pool_ok n p → tp_owner p = OJoin k → ∃ a p', pool_step a p = Some p'.
Proof.
  intros [Hn _ _ Ho] Eo. rewrite Eo in Ho. destruct Ho as (Hstop & Hsl & Hk & Hdone).
  destruct (tp_workers p !! k) as [w|] eqn:Ek.
  - destruct (worker_cases w) as [->|[->|[]]]; [apply sleeping_lookup in Ek; lia| |].
    + exists Join. simpl. rewrite Eo, Ek. by eexists.
    + eexists. by eapply worker_enabled.
  - exists Join. simpl. rewrite Eo, Ek. by eexists.
Qed.

(** * Theorems *)

(** C13. The pool runs every task once: however the steps of the workers and of the owner
    interleave, the tasks enqueued are those that were started, in the order of [enqueue],
    followed by those in the queue; the started tasks are those finished and those that
    run now; and when a pool with a worker is destroyed every enqueued task is finished. *)
Theorem pool_tasks_exactly_once n enq sta fin p :
  pool_reached n enq sta fin p →
  enq = sta ++ tp_tasks p ∧ sta ≡ₚ fin ++ running (tp_workers p) ∧
  (tp_owner p = OGone → (0 < n)%nat → fin ≡ₚ enq).
Proof.
  intros Hr. pose proof (pool_tasks _ _ _ _ _ Hr) as [H1 H2]. split_and!; [done..|].
  intros Eo Hpos. apply pool_reached_ok in Hr as [Hn _ Hd Ho]. rewrite Eo in Ho.
  destruct (Hd (list_elem_of_lookup_2 _ _ _ (Ho 0%nat Hpos))) as [_ Et].
  assert (running (tp_workers p) = []) as Er by (apply running_done; by rewrite Hn).
  rewrite Er, app_nil_r in H2. rewrite H1, Et, app_nil_r. by symmetry.
Qed.

(** C26. No wakeup is lost: once [enqueue] has notified, either no worker sleeps or every
    task of the queue has a worker on its way to the queue; and while a pool with a worker
    has a task in its queue, some step of the pool is enabled without a spurious wakeup. *)
Theorem pool_no_lost_wakeup n enq sta fin p :
  pool_reached n enq sta fin p →
  (tp_owner p ≠ ONotify → sleeping (tp_workers p) = 0%nat ∨
     (length (tp_tasks p) ≤ ready (tp_workers p))%nat) ∧
  ((0 < n)%nat → tp_tasks p ≠ [] → ∃ a p', is_progress a = true ∧ pool_step a p = Some p').
Proof.
  intros Hr%pool_reached_ok. pose proof Hr as [Hn Ha Hd Ho]. split.
  { intros Hne. destruct (tp_owner p); try done; (destruct Ha; [by left|right; lia]). }
  intros Hpos Hts. assert (∃ w, tp_workers p !! 0%nat = Some w) as [w Hw].
  { apply lookup_lt_is_Some. lia. }
  assert (w ≠ WDone) as Hwd.
  { intros ->. by apply list_elem_of_lookup_2, Hd in Hw as [_ ?]. }
  destruct (worker_cases w) as [->|[->|[Hww _]]]; [|done|].
  2:{ destruct (worker_enabled p 0 w Hw Hww Hwd) as [p' E]. destruct w; try done; eexists _, _; (split; [|exact E]); done. }
  destruct (decide (tp_owner p = ONotify)) as [Eo|Eo].
  { exists (NotifyOne (Some 0%nat)). simpl. rewrite Eo. unfold notify_one. rewrite Hw. by eexists. }
  pose proof (sleeping_lookup _ _ Hw).
  destruct (ready_lookup (tp_workers p)) as [i Hi].
  { destruct (tp_tasks p); [done|]. simpl in Ha. destruct (tp_owner p); try done; lia. }
  destruct (worker_enabled p i WCheck Hi) as [p' E]; [done..|]. by exists (Attempt i), p'.
Qed.

(** C27. The destructor returns: from the moment it starts to join, every run of the pool
    has at most [shutdown_work] steps, whatever the interleaving, and the only state
    in which nothing can happen is the one where it has joined every worker. *)
Theorem pool_shutdown_terminates n enq sta fin p k acts p' :
  pool_reached n enq sta fin p → tp_owner p = OJoin k → pool_run acts p = Some p' →
  (length acts ≤ shutdown_work p)%nat ∧ ((∀ a, pool_step a p' = None) ↔ tp_owner p' = OGone).
Proof.
  intros Hr%pool_reached_ok. revert p k Hr. induction acts as [|a acts IH]; intros p k Hr Eo E.
  { injection E as <-. split; [simpl; lia|]. split; [|by apply (shutdown_over n)].
    intros Hno. destruct (shutdown_enabled n p k Hr Eo) as (a & p' & Ea). by rewrite Hno in Ea. }
  simpl in E. destruct (pool_step a p) as [p1|] eqn:E1; [|done].
  pose proof (pool_step_ok _ _ _ _ Hr E1) as Hr1.
  destruct (shutdown_decreases n p k a p1 Hr Eo E1) as [Hlt [Eg|[k' Ek]]].
  - destruct acts as [|a' acts]; simpl in *.
    + injection E as <-. split; [lia|]. split; [done|by apply (shutdown_over n)].
    + by rewrite (shutdown_over n p1 Hr1 Eg) in E.
  - destruct (IH p1 k' Hr1 Ek E). simpl. split; [lia|done].
Qed.

(** A pool without workers starts nothing. *)
Lemma pool_without_workers enq sta fin p : pool_reached 0 enq sta fin p → sta = [].
Proof.
  induction 1 as [|enq sta fin p a p' Hr IH E]; [done|].
  rewrite IH. apply pool_reached_ok in Hr as [Hn _ _ _]. apply nil_length_inv in Hn.
  destruct a; simpl in E |- *; try done. by rewrite Hn in E.
Qed.

(** A run from a reached state, with its tasks. *)
Fixpoint pool_exec (acts : list action) (st : list T * list T * list T * pool) : option (list T * list T * list T * pool) :=
  match acts with
  | [] => Some st
  | a :: acts =>
      let '(enq, sta, fin, p) := st in
      p' ← pool_step a p; pool_exec acts (enq ++ enqueued a, sta ++ started a p, fin ++ finished a p, p')
  end.

Lemma pool_exec_reached n acts enq sta fin p enq' sta' fin' p' :
  pool_reached n enq sta fin p → pool_exec acts (enq, sta, fin, p) = Some (enq', sta', fin', p') →
  pool_reached n enq' sta' fin' p'.
Proof.
  revert enq sta fin p. induction acts as [|a acts IH]; simpl; intros enq sta fin p Hr E.
  { by injection E as <- <- <- <-. }
  destruct (pool_step a p) as [p1|] eqn:E1; [|done]. eapply IH; [|exact E]. by econstructor.
Qed.
End pool.
Arguments worker : clear implicits.
Arguments action : clear implicits.
Arguments pool : clear implicits.

(** ** The number of workers *)

(** [core_count] and [num_threads] are an [unsigned int] and a [size_t]: the pool has at
    most one worker for each core (two if their number is unknown), as many as it was asked
    for if that is fewer, and none exactly if it was asked for a multiple of 2^32 other
    than 0, which the cast to [unsigned int] makes 0. *)
Theorem pool_size_bounds core_count num_threads :
  0 <= core_count < 2 ^ 32 → 0 <= num_threads < 2 ^ 64 →
  let cores := if core_count =? 0 then 2 else core_count in
  0 <= pool_size core_count num_threads <= cores ∧
  (num_threads = 0 → pool_size core_count num_threads = cores) ∧
  (0 < num_threads < 2 ^ 32 → pool_size core_count num_threads = Z.min cores num_threads) ∧
  (pool_size core_count num_threads = 0 ↔ num_threads ≠ 0 ∧ (2 ^ 32 | num_threads)).
Proof.
  intros Hc Hn cores. unfold pool_size, u32. fold cores.
  assert (0 < cores) by (subst cores; case_match; lia).
  rewrite <- (Z.mod_divide num_threads (2 ^ 32)) by done.
  pose proof (Z.mod_pos_bound num_threads (2 ^ 32) ltac:(lia)).
  destruct (Z.leb_spec num_threads 0); [split_and!; lia|].
  split_and!; try lia. intros. by rewrite Z.mod_small by lia.
Qed.

(** * Examples *)

(** Two workers and three tasks: a sleeping worker is notified, the pool is destroyed with
    a task in its queue, and the destructor waits for it. *)
Definition pool_session : list (action nat) :=
  [Attempt 0; Enqueue 1; NotifyOne (Some 0); Attempt 0; Enqueue 2; NotifyOne None; Stop; NotifyAll]%nat.
Definition pool_shutdown_session : list (action nat) :=
  [Attempt 1; Finish 1; Finish 0; Attempt 0; Attempt 1; Join; Join; Join]%nat.
Definition pool_used : pool nat :=
  mkPool true [2%nat] [WRun 1%nat; WCheck] (OJoin 0).
Definition pool_gone : pool nat := mkPool true [] [WDone; WDone] OGone.

Lemma pool_used_reached : pool_reached 2 [1; 2]%nat [1]%nat [] pool_used.
Proof.
  apply (pool_exec_reached 2 pool_session [] [] [] (pool_init 2)); [constructor|reflexivity].
Qed.
Lemma pool_gone_reached : pool_reached 2 [1; 2]%nat [1; 2]%nat [2; 1]%nat pool_gone.
Proof.
  apply (pool_exec_reached 2 pool_shutdown_session [1; 2]%nat [1]%nat [] pool_used); [|reflexivity].
  apply pool_used_reached.
Qed.

Lemma pool_tasks_exactly_once_witness :
  pool_reached 2 [1; 2]%nat [1; 2]%nat [2; 1]%nat pool_gone ∧ [2; 1]%nat ≡ₚ [1; 2]%nat.
Proof.
  split; [apply pool_gone_reached|].
  apply (pool_tasks_exactly_once 2 _ _ _ _ pool_gone_reached); [reflexivity|lia].
Defined.

Lemma pool_no_lost_wakeup_witness :
  tp_tasks pool_used ≠ [] ∧ ∃ a p', is_progress a = true ∧ pool_step a pool_used = Some p'.
Proof.
  split; [done|]. apply (pool_no_lost_wakeup 2 _ _ _ _ pool_used_reached); [lia|done].
Defined.

Lemma pool_shutdown_terminates_witness :
  pool_run pool_shutdown_session pool_used = Some pool_gone ∧ (length pool_shutdown_session ≤ 8)%nat.
Proof.
  split; [reflexivity|].
  apply (pool_shutdown_terminates 2 _ _ _ pool_used 0 pool_shutdown_session pool_gone pool_used_reached);
    reflexivity.
Defined.

Lemma pool_size_bounds_witness : pool_size 8 (2 ^ 32) = 0 ∧ pool_size 8 3 = 3.
Proof. split; [apply (pool_size_bounds 8 (2 ^ 32))|apply (pool_size_bounds 8 3)]; try lia. split; [lia|by exists 1]. Defined.
