(* ===== verification/Lru.v ===== *)
(** The cache of container/lru.h: a [std::list] of pairs, most recently used first, and
    an [unordered_map] from keys to iterators into the list, refined to a list of pairs
    and to the history of the keys used. *)
From S2P Require Import Prelude.

Section lru.
Context {K V : Type} `{Countable K}.
Implicit Types (k : K) (v : V) (it : nat).

(** * The code *)

(** A node of the [std::list]; an iterator names its node, and stays valid when the
    node moves. *)
Record entry : Type := mkEntry { e_it : nat; e_key : K; e_val : V }.

(** [class lru]; [next_it] names the node that [emplace_front] allocates. *)
Record lru : Type := mkLru {
  m_cache : list entry;
  m_map : gmap K nat;
  m_capacity : Z;
  next_it : nat;
}.

Definition lru_new (capacity : Z) : lru := mkLru [] ∅ capacity 0.
Definition lru_size (c : lru) : Z := Z.of_nat (length (m_cache c)).

(** ** [std::list] *)

(** The node of an iterator and the other nodes; an iterator that is not in the list is
    undefined behaviour. *)
Fixpoint list_take (it : nat) (l : list entry) : option (entry * list entry) :=
  match l with
  | [] => None
  | e :: l =>
      if bool_decide (e_it e = it) then Some (e, l)
      else '(x, l') ← list_take it l; Some (x, e :: l')
  end.

Definition list_deref (it : nat) (l : list entry) : option entry := fst <$> list_take it l.

(** [splice(begin(), l, it)]. *)
Definition list_splice_front (it : nat) (l : list entry) : option (list entry) :=
  '(e, l') ← list_take it l; Some (e :: l').

(** [it->second = v]. *)
Fixpoint list_assign (it : nat) (v : V) (l : list entry) : option (list entry) :=
  match l with
  | [] => None
  | e :: l =>
      if bool_decide (e_it e = it) then Some (mkEntry (e_it e) (e_key e) v :: l)
      else cons e <$> list_assign it v l
  end.

Definition of_option {A} (x : option A) : M lru A := match x with Some a => mret a | None => fault end.

(** ** [get] and [put] *)

Definition lru_get (key : K) : M lru (option V) :=
  c ← get;
  match m_map c !! key with
  | None => mret None
  | Some it =>
      cache ← of_option (list_splice_front it (m_cache c));
      _ ← put (mkLru cache (m_map c) (m_capacity c) (next_it c));
      e ← of_option (list_deref it cache);
      mret (Some (e_val e))
  end.

Definition lru_evict : M lru unit :=
  c ← get;
  if lru_size c =? m_capacity c then
    last ← of_option (last (m_cache c));
    put (mkLru (removelast (m_cache c)) (delete (e_key last) (m_map c)) (m_capacity c) (next_it c))
  else mret tt.

Definition lru_put (key : K) (value : V) : M lru unit :=
  c ← get;
  match m_map c !! key with
  | None =>
      _ ← lru_evict;
      c ← get;
      let cache := mkEntry (next_it c) key value :: m_cache c in
      put (mkLru cache (<[key:=next_it c]> (m_map c)) (m_capacity c) (S (next_it c)))
  | Some it =>
      cache ← of_option (list_assign it value (m_cache c));
      it ← of_option (m_map c !! key);
      cache ← of_option (list_splice_front it cache);
      put (mkLru cache (m_map c) (m_capacity c) (next_it c))
  end.

(** * The specification: the pairs, most recently used first *)

Definition others k (l : list (K * V)) : list (K * V) := filter (λ x, x.1 ≠ k) l.
Definition find k (l : list (K * V)) : option V := list_to_map (M := gmap K V) l !! k.

Definition spec_get k (l : list (K * V)) : option V * list (K * V) :=
  match find k l with
  | Some v => (Some v, (k, v) :: others k l)
  | None => (None, l)
  end.

Definition spec_put (cap : nat) k v (l : list (K * V)) : list (K * V) :=
  match find k l with
  | Some _ => (k, v) :: others k l
  | None => (k, v) :: take (cap - 1) l
  end.

Definition pair_of (e : entry) : K * V := (e_key e, e_val e).
Definition slot_of (e : entry) : K * nat := (e_key e, e_it e).

(** A cache holds the pairs [l]: no key and no node twice, and the map sends each key to
    its node. *)
Record lru_rep (c : lru) (l : list (K * V)) : Prop := mkLruRep {
  lr_cache : pair_of <$> m_cache c = l;
  lr_keys : NoDup (e_key <$> m_cache c);
  lr_its : NoDup (e_it <$> m_cache c);
  lr_map : m_map c = list_to_map (slot_of <$> m_cache c);
  lr_next : Forall (λ e, (e_it e < next_it c)%nat) (m_cache c);
  lr_cap : lru_size c ≤ m_capacity c;
}.

(** * Lemmas *)

Lemma keys_pairs (es : list entry) : (pair_of <$> es).*1 = e_key <$> es.
Proof. rewrite <- list_fmap_compose. by apply list_fmap_ext. Qed.
Lemma keys_slots (es : list entry) : (slot_of <$> es).*1 = e_key <$> es.
Proof. rewrite <- list_fmap_compose. by apply list_fmap_ext. Qed.

(** A key is in the map if and only if it is in the list. *)
Lemma lru_find_map c l k :
  lru_rep c l → (find k l = None ↔ m_map c !! k = None).
Proof.
  intros [<- _ _ -> _ _]. unfold find. rewrite <- !not_elem_of_list_to_map. by rewrite keys_pairs, keys_slots.
Qed.

(** The node of a key, and where it is in the list. *)
Lemma lru_find_node c l k it :
  lru_rep c l → m_map c !! k = Some it →
  ∃ es1 e es2, m_cache c = es1 ++ e :: es2 ∧ e_key e = k ∧ e_it e = it ∧
    find k l = Some (e_val e) ∧ others k l = (pair_of <$> es1) ++ (pair_of <$> es2).
Proof.
  intros [<- Hk _ -> _ _] Hm. apply elem_of_list_to_map_2 in Hm.
  apply list_elem_of_fmap in Hm as (e & [= -> ->] & He). apply list_elem_of_split in He as (es1 & es2 & E).
  exists es1, e, es2. rewrite E in Hk |- *. rewrite fmap_app, fmap_cons in Hk. rewrite !fmap_app, !fmap_cons. split_and!; try done.
  - apply elem_of_list_to_map_1; [|by apply elem_of_app; right; left].
    by rewrite fmap_app, fmap_cons, !keys_pairs.
  - apply NoDup_middle in Hk as [Hk _]. unfold others.
    assert (∀ es : list entry, e_key e ∉ e_key <$> es → filter (λ x, x.1 ≠ e_key e) (pair_of <$> es) = pair_of <$> es) as Hf.
    { intros es. induction es as [|x es IH]; [done|]. intros [Hx Hes]%not_elem_of_cons.
      rewrite fmap_cons, filter_cons_True by (simpl; congruence). by rewrite IH. }
    apply not_elem_of_app in Hk as []. rewrite filter_app, filter_cons_False by (intros Hx; by apply Hx).
    by rewrite !Hf.
Qed.

Lemma list_take_middle es1 e es2 :
  NoDup (e_it <$> es1 ++ e :: es2) → list_take (e_it e) (es1 ++ e :: es2) = Some (e, es1 ++ es2).
Proof.
  induction es1 as [|x es1 IH]; simpl; intros Hnd.
  - by rewrite bool_decide_eq_true_2.
  - apply NoDup_cons in Hnd as [Hx Hnd]. rewrite bool_decide_eq_false_2, IH; [done..|].
    intros E. apply Hx. rewrite E, fmap_app, fmap_cons. apply elem_of_app. right. left.
Qed.

Lemma list_assign_middle es1 e es2 v :
  NoDup (e_it <$> es1 ++ e :: es2) →
  list_assign (e_it e) v (es1 ++ e :: es2) = Some (es1 ++ mkEntry (e_it e) (e_key e) v :: es2).
Proof.
  induction es1 as [|x es1 IH]; simpl; intros Hnd.
  - by rewrite bool_decide_eq_true_2.
  - apply NoDup_cons in Hnd as [Hx Hnd]. rewrite bool_decide_eq_false_2, IH; [done..|].
    intros E. apply Hx. rewrite E, fmap_app, fmap_cons. apply elem_of_app. right. left.
Qed.

(** A node, with a new value, moves to the front. *)
Lemma lru_rep_front c l es1 e es2 v :
  lru_rep c l → m_cache c = es1 ++ e :: es2 →
  lru_rep (mkLru (mkEntry (e_it e) (e_key e) v :: es1 ++ es2) (m_map c) (m_capacity c) (next_it c))
    ((e_key e, v) :: (pair_of <$> es1) ++ (pair_of <$> es2)).
Proof.
  intros [<- Hk Hi Hm Hn Hc] E. unfold lru_size in Hc. rewrite E in Hk, Hi, Hm, Hn, Hc.
  assert (∀ {A} (f : entry → A), f (mkEntry (e_it e) (e_key e) v) = f e →
    f <$> mkEntry (e_it e) (e_key e) v :: es1 ++ es2 ≡ₚ f <$> es1 ++ e :: es2) as Hp.
  { intros A f Ef. rewrite !fmap_app, !fmap_cons, fmap_app, Ef. by rewrite Permutation_middle. }
  split; cbn [m_cache m_map m_capacity next_it].
  - by rewrite fmap_cons, fmap_app.
  - by rewrite (Hp K e_key).
  - by rewrite (Hp nat e_it).
  - rewrite Hm. apply list_to_map_proper; [by rewrite keys_slots|]. symmetry. by apply (Hp _ slot_of).
  - apply Forall_app in Hn as [Hn1 [Hne Hn2]%Forall_cons]. apply Forall_cons; split; [done|by apply Forall_app].
  - unfold lru_size. cbn [m_cache]. rewrite length_app in Hc. simpl in *. rewrite length_app. lia.
Qed.

(** A new node comes to the front of a cache that has room. *)
Lemma lru_rep_new c l k v :
  lru_rep c l → find k l = None → lru_size c < m_capacity c →
  lru_rep (mkLru (mkEntry (next_it c) k v :: m_cache c) (<[k:=next_it c]> (m_map c)) (m_capacity c) (S (next_it c)))
    ((k, v) :: l).
Proof.
  intros [<- Hk Hi Hm Hn _] Hf Hroom. split; cbn [m_cache m_map m_capacity next_it].
  - done.
  - apply NoDup_cons. split; [|done]. unfold find in Hf. by rewrite <- not_elem_of_list_to_map, keys_pairs in Hf.
  - apply NoDup_cons. split; [|done]. intros (e & E & He)%list_elem_of_fmap.
    rewrite Forall_forall in Hn. apply Hn in He. simpl in E. lia.
  - by rewrite Hm.
  - apply Forall_cons. split; [simpl; lia|]. eapply Forall_impl; [exact Hn|]. simpl. lia.
  - unfold lru_size in *. simpl. lia.
Qed.

Lemma elem_of_take_elem {A} (x : A) n l : x ∈ take n l → x ∈ l.
Proof. intros (i & Hi & _)%elem_of_take. by eapply list_elem_of_lookup_2. Qed.

(** Eviction leaves room for one more pair: it drops the last one of a full cache. *)
Lemma wp_lru_evict c l :
  lru_rep c l → 0 < m_capacity c →
  wp lru_evict c (λ _ c', lru_rep c' (take (Z.to_nat (m_capacity c) - 1) l) ∧
    m_capacity c' = m_capacity c ∧ lru_size c' < m_capacity c).
Proof.
  intros Hr Hcap. pose proof Hr as [El Hk Hi Hm Hn Hc]. unfold lru_evict. wp_step. wp_step.
  assert (length (m_cache c) = length l) as Elen by (by rewrite <- El, length_fmap).
  unfold lru_size in *. destruct (Z.eqb_spec (Z.of_nat (length (m_cache c))) (m_capacity c)) as [E|E].
  2:{ wp_step. rewrite take_ge by lia. split_and!; [done..|lia]. }
  destruct (m_cache c) as [|e es _] eqn:Ec using rev_ind; [simpl in E; lia|].
  rewrite last_snoc. wp_step. simpl. wp_step. rewrite removelast_last.
  rewrite length_app in *. simpl in *.
  rewrite !fmap_app in *. simpl in *.
  split; [|split; [done|unfold lru_size; simpl; lia]]. split; cbn [m_cache m_map m_capacity next_it].
  - rewrite <- El, take_app_length'; [done|]. rewrite length_fmap. lia.
  - by apply NoDup_app in Hk as [? _].
  - by apply NoDup_app in Hi as [? _].
  - rewrite Hm. rewrite (list_to_map_proper ((slot_of <$> es) ++ [slot_of e]) (slot_of e :: (slot_of <$> es))).
    + simpl. rewrite delete_insert_id; [done|]. apply not_elem_of_list_to_map_1. rewrite keys_slots.
      apply NoDup_app in Hk as (_ & Hk & _). intros He. by apply (Hk _ He), list_elem_of_singleton.
    + by rewrite fmap_app, keys_slots.
    + by rewrite Permutation_app_comm.
  - by apply Forall_app in Hn as [? _].
  - unfold lru_size. simpl. lia.
Qed.

Lemma wp_lru_get c l k :
  lru_rep c l →
  wp (lru_get k) c (λ r c', r = (spec_get k l).1 ∧ lru_rep c' (spec_get k l).2 ∧ m_capacity c' = m_capacity c).
Proof.
  intros Hr. unfold lru_get, spec_get. wp_step. wp_step.
  destruct (m_map c !! k) as [it|] eqn:Em.
  2:{ wp_step. by rewrite (proj2 (lru_find_map c l k Hr) Em). }
  destruct (lru_find_node c l k it Hr Em) as (es1 & e & es2 & Ec & <- & <- & -> & ->).
  assert (list_take (e_it e) (m_cache c) = Some (e, es1 ++ es2)) as Et.
  { rewrite Ec. apply list_take_middle. rewrite <- Ec. apply Hr. }
  unfold list_splice_front. rewrite Et. wp_step. simpl. wp_step. wp_step. wp_step. wp_step.
  unfold list_deref. cbn [list_take]. rewrite bool_decide_eq_true_2 by done. simpl.
  split_and!; [done| |done]. pose proof (lru_rep_front c l es1 e es2 (e_val e) Hr Ec) as Hf.
  by destruct e.
Qed.

Lemma wp_lru_put c l k v :
  lru_rep c l → 0 < m_capacity c →
  wp (lru_put k v) c (λ _ c', lru_rep c' (spec_put (Z.to_nat (m_capacity c)) k v l) ∧ m_capacity c' = m_capacity c).
Proof.
  intros Hr Hcap. unfold lru_put, spec_put. wp_step. wp_step.
  destruct (m_map c !! k) as [it|] eqn:Em.
  - destruct (lru_find_node c l k it Hr Em) as (es1 & e & es2 & Ec & <- & <- & -> & ->).
    pose proof (lr_its _ _ Hr) as Hi. rewrite Ec in Hi |- *.
    rewrite list_assign_middle by done. wp_step. simpl. wp_step. wp_step. wp_step. wp_step.
    unfold list_splice_front. set (e' := mkEntry (e_it e) (e_key e) v).
    assert (list_take (e_it e) (es1 ++ e' :: es2) = Some (e', es1 ++ es2)) as ->.
    { apply (list_take_middle es1 e' es2). rewrite fmap_app in Hi |- *. exact Hi. }
    simpl. wp_step. wp_step. split; [|done]. by apply (lru_rep_front c l).
  - pose proof (proj2 (lru_find_map c l k Hr) Em) as Hf. rewrite Hf.
    wp_step. eapply wp_mono; [by apply wp_lru_evict|]. cbv beta. intros _ c' (Hr' & Ecap & Hs).
    wp_step. wp_step. wp_step. split; [|done]. apply lru_rep_new; [done| |lia].
    unfold find in *. apply not_elem_of_list_to_map in Hf. apply not_elem_of_list_to_map.
    intros Hin. apply Hf. rewrite fmap_take in Hin. by eapply elem_of_take_elem.
Qed.

(** ** Runs *)

Inductive lru_op : Type :=
| Get (k : K)
| Put (k : K) (v : V).

Fixpoint lru_run (ops : list lru_op) : M lru (list (option V)) :=
  match ops with
  | [] => mret []
  | Get k :: ops => r ← lru_get k; rs ← lru_run ops; mret (r :: rs)
  | Put k v :: ops => _ ← lru_put k v; lru_run ops
  end.

Fixpoint spec_run (cap : nat) (ops : list lru_op) (l : list (K * V)) : list (option V) * list (K * V) :=
  match ops with
  | [] => ([], l)
  | Get k :: ops => let r := spec_run cap ops (spec_get k l).2 in ((spec_get k l).1 :: r.1, r.2)
  | Put k v :: ops => spec_run cap ops (spec_put cap k v l)
  end.

Lemma wp_lru_run ops c l :
  lru_rep c l → 0 < m_capacity c →
  wp (lru_run ops) c (λ rs c', let r := spec_run (Z.to_nat (m_capacity c)) ops l in
    rs = r.1 ∧ lru_rep c' r.2 ∧ m_capacity c' = m_capacity c).
Proof.
  revert c l. induction ops as [|[k|k v] ops IH]; intros c l Hr Hcap; simpl; [by wp_step| |].
  - wp_step. eapply wp_mono; [by apply wp_lru_get|]. cbv beta. intros r c1 (-> & Hr1 & E1).
    wp_step. eapply wp_mono; [apply IH; [done|lia]|]. cbv beta. intros rs c2 (-> & Hr2 & E2).
    wp_step. rewrite E1 in *. done.
  - wp_step. eapply wp_mono; [by apply wp_lru_put|]. cbv beta. intros _ c1 (Hr1 & E1).
    eapply wp_mono; [apply IH; [done|lia]|]. cbv beta. rewrite E1. done.
Qed.

Lemma lru_new_rep cap : 0 < cap → lru_rep (lru_new cap) [].
Proof. split; try done; try constructor. unfold lru_size. simpl. lia. Qed.

(** ** The history *)

(** The distinct keys of a history, the most recent first. *)
Fixpoint recent (h : list K) : list K :=
  match h with
  | [] => []
  | k :: h => k :: filter (λ k', k' ≠ k) (recent h)
  end.

(** The ideal cache remembers every key used and every value put; a [get] finds a key
    exactly if it is among the [cap] keys used most recently. *)
Fixpoint ideal_run (cap : nat) (ops : list lru_op) (h : list K) (m : gmap K V) : list (option V) * list K :=
  match ops with
  | [] => ([], h)
  | Get k :: ops =>
      if decide (k ∈ take cap (recent h)) then
        let r := ideal_run cap ops (k :: h) m in (m !! k :: r.1, r.2)
      else
        let r := ideal_run cap ops h m in (None :: r.1, r.2)
  | Put k v :: ops => ideal_run cap ops (k :: h) (<[k:=v]> m)
  end.

Lemma recent_NoDup h : NoDup (recent h).
Proof.
  induction h as [|k h IH]; simpl; [constructor|]. apply NoDup_cons. split; [|by apply NoDup_filter].
  intros [Hk _]%list_elem_of_filter. done.
Qed.

Lemma filter_other_id k (l : list K) : k ∉ l → filter (λ k', k' ≠ k) l = l.
Proof.
  induction l as [|x l IH]; [done|]. intros [Hx Hl]%not_elem_of_cons.
  rewrite filter_cons_True by congruence. by rewrite IH.
Qed.

(** To use a key of the first [n] moves it to the front of them; to use another one drops
    the last of them. *)
Lemma take_use_hit k (d : list K) n :
  NoDup d → k ∈ take (S n) d → filter (λ k', k' ≠ k) (take (S n) d) = take n (filter (λ k', k' ≠ k) d).
Proof.
  revert n. induction d as [|x d IH]; intros n; [by destruct n|]. intros [Hx Hd]%NoDup_cons Hk.
  cbn [take] in *. destruct (decide (x = k)) as [->|Hne].
  - rewrite !filter_cons_False by (intros Hc; by apply Hc).
    rewrite !filter_other_id; [done|done|]. intros Hin. apply Hx. by eapply elem_of_take_elem.
  - rewrite !filter_cons_True by done. apply elem_of_cons in Hk as [->|Hk]; [done|].
    destruct n as [|n]; [by apply elem_of_nil in Hk|]. simpl. by rewrite <- IH.
Qed.
Lemma take_use_miss k (d : list K) n :
  k ∉ take n d → take n d = take n (filter (λ k', k' ≠ k) d).
Proof.
  revert n. induction d as [|x d IH]; intros [|n] Hk; try done.
  simpl in Hk. apply not_elem_of_cons in Hk as [Hx Hk].
  rewrite filter_cons_True by congruence. simpl. by rewrite <- IH.
Qed.

(** The pairs of a cache, for a history. *)
Definition ideal_rep (cap : nat) (h : list K) (m : gmap K V) (l : list (K * V)) : Prop :=
  l.*1 = take cap (recent h) ∧ ∀ k v, (k, v) ∈ l → m !! k = Some v.

Lemma keys_others k (l : list (K * V)) : (others k l).*1 = filter (λ k', k' ≠ k) l.*1.
Proof.
  unfold others. induction l as [|x l IH]; [done|]. rewrite fmap_cons. destruct (decide (x.1 = k)) as [E|E].
  - rewrite !filter_cons_False by tauto. done.
  - rewrite !filter_cons_True by done. by rewrite fmap_cons, IH.
Qed.

Lemma ideal_rep_NoDup cap h m l : ideal_rep cap h m l → NoDup l.*1.
Proof. intros [-> _]. eapply sublist_NoDup; [apply recent_NoDup|apply sublist_take]. Qed.

(** A [get] finds the keys used recently, with what was put last. *)
Lemma ideal_find cap h m l k :
  ideal_rep cap h m l → find k l = if decide (k ∈ take cap (recent h)) then m !! k else None.
Proof.
  intros Hi. pose proof (ideal_rep_NoDup _ _ _ _ Hi) as Hnd. destruct Hi as [Ek Hm]. rewrite <- Ek.
  unfold find. destruct (decide (k ∈ l.*1)) as [Hk|Hk]; [|by apply not_elem_of_list_to_map].
  apply list_elem_of_fmap in Hk as ([k' v] & -> & Hkv). simpl. rewrite (Hm _ _ Hkv).
  by apply elem_of_list_to_map_1.
Qed.

(** The use of a key of the cache. *)
Lemma ideal_rep_hit cap h m l k v :
  0 < Z.of_nat cap → ideal_rep cap h m l → k ∈ take cap (recent h) →
  ideal_rep cap (k :: h) (<[k:=v]> m) ((k, v) :: others k l).
Proof.
  intros Hcap [Ek Hm] Hk. destruct cap as [|n]; [lia|]. split.
  - rewrite fmap_cons, keys_others, Ek. simpl. f_equal. apply take_use_hit; [apply recent_NoDup|done].
  - intros k' v' [[= -> ->]|[Hne Hin]%list_elem_of_filter]%elem_of_cons; [by rewrite lookup_insert_eq|].
    simpl in Hne. rewrite lookup_insert_ne by done. by apply Hm.
Qed.

(** The first use of a key, or of one that was evicted. *)
Lemma ideal_rep_miss cap h m l k v :
  0 < Z.of_nat cap → ideal_rep cap h m l → k ∉ take cap (recent h) →
  ideal_rep cap (k :: h) (<[k:=v]> m) ((k, v) :: take (cap - 1) l).
Proof.
  intros Hcap [Ek Hm] Hk. destruct cap as [|n]; [lia|]. replace (S n - 1)%nat with n by lia. split.
  - rewrite fmap_cons, fmap_take, Ek, take_take. simpl. f_equal. replace (n `min` S n)%nat with n by lia.
    apply take_use_miss. intros Hin. apply Hk. apply elem_of_take in Hin as (i & Hi & Hlt).
    apply elem_of_take. exists i. split; [done|lia].
  - assert (k ∉ l.*1) as Hkl by (by rewrite Ek).
    intros k' v' [[= -> ->]|Hin%elem_of_take_elem]%elem_of_cons; [by rewrite lookup_insert_eq|].
    rewrite lookup_insert_ne; [by apply Hm|]. intros ->. apply Hkl. apply list_elem_of_fmap. by exists (k', v').
Qed.

Lemma spec_run_ideal cap ops h m l :
  0 < Z.of_nat cap → ideal_rep cap h m l →
  (spec_run cap ops l).1 = (ideal_run cap ops h m).1 ∧
  (spec_run cap ops l).2.*1 = take cap (recent (ideal_run cap ops h m).2).
Proof.
  intros Hcap. revert h m l. induction ops as [|[k|k v] ops IH]; intros h m l Hi; simpl.
  - split; [done|]. apply Hi.
  - unfold spec_get. rewrite (ideal_find cap h m l k Hi). destruct (decide _) as [Hk|Hk]; simpl.
    2:{ destruct (IH h m l Hi) as [-> ->]. done. }
    pose proof (ideal_find cap h m l k Hi) as Hf. rewrite decide_True in Hf by done.
    destruct (m !! k) as [v|] eqn:Em; simpl.
    + pose proof (ideal_rep_hit cap h m l k v Hcap Hi Hk) as Hi'. rewrite insert_id in Hi' by done.
      destruct (IH _ _ _ Hi') as [-> ->]. done.
    + unfold find in Hf. apply not_elem_of_list_to_map in Hf. destruct Hf. by rewrite (proj1 Hi).
  - unfold spec_put. rewrite (ideal_find cap h m l k Hi).
    pose proof (ideal_find cap h m l k Hi) as Hf. unfold find in Hf.
    destruct (decide _) as [Hk|Hk]; [destruct (m !! k) as [v'|] eqn:Em|]; apply IH.
    + by apply ideal_rep_hit.
    + apply not_elem_of_list_to_map in Hf. destruct Hf. by rewrite (proj1 Hi).
    + by apply ideal_rep_miss.
Qed.

(** * Theorems *)

(** C25. Any calls of [get] and [put] on a cache of a positive capacity run without fault
    and return what the ideal cache returns, which forgets nothing but answers only for
    the [capacity] keys used most recently; the keys in the list are those keys, most
    recent first, so there are never more of them than the capacity. *)
Theorem lru_runs_refine capacity ops :
  0 < capacity →
  wp (lru_run ops) (lru_new capacity) (λ rs c,
    let r := ideal_run (Z.to_nat capacity) ops [] ∅ in
    rs = r.1 ∧ e_key <$> m_cache c = take (Z.to_nat capacity) (recent r.2) ∧ lru_size c ≤ capacity).
Proof.
  intros Hcap. eapply wp_mono; [apply (wp_lru_run _ _ []); [by apply lru_new_rep|done]|].
  cbv beta zeta. cbn [m_capacity lru_new]. intros rs c (-> & Hr & Ecap).
  destruct (spec_run_ideal (Z.to_nat capacity) ops [] ∅ []) as [E1 E2]; [lia| |].
  { split; [by destruct (Z.to_nat capacity)|]. by intros ? ? ?%elem_of_nil. }
  split_and!; [done| |rewrite <- Ecap; apply Hr].
  rewrite <- E2, <- (lr_cache _ _ Hr). by rewrite keys_pairs.
Qed.

(** [put] on a cache of capacity 0 reads the last pair of an empty list. *)
Lemma lru_zero_capacity k v : lru_put k v (lru_new 0) = None.
Proof. unfold lru_put, wp, mbind, M_bind. simpl. by rewrite lookup_empty. Qed.
End lru.
Arguments lru_op : clear implicits.

Definition lru_session : list (lru_op Z Z) := [Put 1 10; Put 2 20; Get 1; Put 3 30; Get 2; Get 1; Put 1 11; Get 1].
Lemma lru_runs_refine_witness :
  wp (lru_run lru_session) (lru_new 2) (λ rs c,
    rs = [Some 10; None; Some 10; Some 11] ∧ e_key <$> m_cache c = [1; 3] ∧ lru_size c ≤ 2).
Proof. exact (lru_runs_refine 2 lru_session ltac:(lia)). Defined.
