(* ===== verification/ClientIo.v ===== *)
(** The client program (client/main.cc): [read_full], [write_all], [send_req],
    [read_res] and [main], on a socket whose system calls may transfer fewer bytes than
    they are asked for.  [send_req]'s buffer is in [Request], [print_response] in [Reply]. *)
From S2P Require Import Prelude Common Buffer Request Reply.

(** * The socket *)

(** The result of [read(fd, buf, n)]; no bytes is the end of the stream. *)
Inductive read_result : Type :=
| ReadOk (data : bytes)
| ReadErr (errno : Z).

Inductive write_result : Type :=
| WriteOk (rv : Z)
| WriteErr (errno : Z).

(** The system calls, on the kernel's state of a connected socket. *)
Class Socket (S : Type) : Type := {
  sys_read : Z → S → read_result * S;
  sys_write : bytes → S → write_result * S;
}.

(** A connection that is up: [sk_in] is what the peer sends before it closes, [sk_out]
    what was written.  A call transfers at least one byte, if there is one. *)
Class SocketLaws (S : Type) `{!Socket S} : Type := {
  sk_in : S → bytes;
  sk_out : S → bytes;
  sys_read_law n s : 0 < n → sk_in s ≠ [] →
    ∃ x data s', sys_read n s = (ReadOk (x :: data), s') ∧ Z.of_nat (length (x :: data)) ≤ n ∧
      sk_in s = (x :: data) ++ sk_in s' ∧ sk_out s' = sk_out s;
  sys_read_eof n s : sk_in s = [] → sys_read n s = (ReadOk [], s);
  sys_write_law data s : data ≠ [] →
    ∃ k s', sys_write data s = (WriteOk (Z.of_nat k), s') ∧ (1 ≤ k ≤ length data)%nat ∧
      sk_in s' = sk_in s ∧ sk_out s' = sk_out s ++ take k data;
}.

(** * The code *)

(** A line of the output: of [msg], or of [print_response]. *)
Inductive line : Type :=
| LMsg (m : bytes)
| LDie (errno : Z) (m : bytes)
| LPrint (p : print).

Section client.
Context {S : Type} `{!Socket S}.

Record client : Type := mkClient {
  cl_sock : S;
  cl_errno : Z;
  cl_lines : list line;
}.

Definition c_read (n : Z) : M client read_result := λ c,
  let r := sys_read n (cl_sock c) in
  Some (r.1, mkClient r.2 (match r.1 with ReadErr e => e | _ => cl_errno c end) (cl_lines c)).
Definition c_write (data : bytes) : M client write_result := λ c,
  let r := sys_write data (cl_sock c) in
  Some (r.1, mkClient r.2 (match r.1 with WriteErr e => e | _ => cl_errno c end) (cl_lines c)).
Definition get_errno : M client Z := λ c, Some (cl_errno c, c).
Definition set_errno (e : Z) : M client unit := λ c, Some (tt, mkClient (cl_sock c) e (cl_lines c)).
Definition output (ls : list line) : M client unit := λ c,
  Some (tt, mkClient (cl_sock c) (cl_errno c) (cl_lines c ++ ls)).

Definition msg (m : bytes) : M client unit := output [LMsg m].

(** The bytes read into [buf]; [None] is the result -1. *)
Fixpoint read_full (fuel : nat) (n : Z) : M client (option bytes) :=
  match fuel with
  | O => fault
  | Datatypes.S fuel =>
      if 0 <? n then
        r ← c_read n;
        match r with
        | ReadErr _ | ReadOk [] => mret None
        | ReadOk data =>
            assert (Z.of_nat (length data) <=? n);;
            rest ← read_full fuel (n - Z.of_nat (length data));
            mret (app data <$> rest)
        end
      else mret (Some [])
  end.

Fixpoint write_all (fuel : nat) (buf : bytes) : M client Z :=
  match fuel with
  | O => fault
  | Datatypes.S fuel =>
      if 0 <? Z.of_nat (length buf) then
        r ← c_write buf;
        match r with
        | WriteErr _ => mret (-1)
        | WriteOk rv =>
            if rv <=? 0 then mret (-1)
            else
              assert (rv <=? Z.of_nat (length buf));;
              write_all fuel (drop (Z.to_nat rv) buf)
        end
      else mret 0
  end.

(** [wbuf0] is what the uninitialised array holds. *)
Definition send_req (wbuf0 : bytes) (cmd : list bytes) : M client Z :=
  match Client.send_req wbuf0 cmd with
  | None => fault
  | Some None => mret (-1)
  | Some (Some data) => write_all (Datatypes.S (length data)) data
  end.

(** The output of [print_response]. *)
Definition print_reply (data : bytes) : M client Z :=
  match print_response (Datatypes.S (length data)) data with
  | None => fault
  | Some (rv, ps) => output (LPrint <$> ps);; mret rv
  end.

Definition read_res : M client Z :=
  set_errno 0;;
  header ← read_full 5 4;
  match header with
  | None =>
      errno ← get_errno;
      (if errno =? 0 then msg (str "EOF") else msg (str "read() error"));;
      mret (-1)
  | Some header =>
      let len := le_num header in
      if Client.k_max_msg <? len then msg (str "too long");; mret (-1)
      else
        body ← read_full (Datatypes.S (Z.to_nat len)) len;
        match body with
        | None => msg (str "read() error");; mret (-1)
        | Some body =>
            rv ← print_reply body;
            if (0 <? rv) && negb (u32 rv =? len) then msg (str "bad response");; mret (-1)
            else mret rv
        end
  end.

(** How the program ends. *)
Inductive ending : Type := Aborted | Exited (status : Z).

Definition die (m : bytes) : M client ending :=
  err ← get_errno; output [LDie err m];; mret Aborted.

(** [fd] and [rv] are the results of [socket] and [connect]. *)
Definition client_main (fd rv : Z) (wbuf0 : bytes) (argv : list bytes) : M client ending :=
  if fd <? 0 then die (str "socket()")
  else if negb (rv =? 0) then die (str "connect")
  else
    let cmd := drop 1 argv in
    err ← send_req wbuf0 cmd;
    if negb (err =? 0) then mret (Exited 0)
    else _ ← read_res; mret (Exited 0).

(** * Reading and writing whole messages *)

Context `{!SocketLaws S}.

Lemma wp_read_full fuel n c (Q : option bytes → client → Prop) :
  (Z.to_nat n < fuel)%nat →
  (∀ s', 0 ≤ n → (Z.to_nat n ≤ length (sk_in (cl_sock c)))%nat →
     sk_in s' = drop (Z.to_nat n) (sk_in (cl_sock c)) → sk_out s' = sk_out (cl_sock c) →
     Q (Some (take (Z.to_nat n) (sk_in (cl_sock c)))) (mkClient s' (cl_errno c) (cl_lines c))) →
  (∀ s', (length (sk_in (cl_sock c)) < Z.to_nat n)%nat → sk_out s' = sk_out (cl_sock c) →
     Q None (mkClient s' (cl_errno c) (cl_lines c))) →
  0 ≤ n → wp (read_full fuel n) c Q.
Proof.
  revert n c Q. induction fuel as [|fuel IH]; intros n c Q Hf Hok Heof Hn; [lia|].
  cbn [read_full]. destruct (Z.ltb_spec 0 n) as [Hpos|Hz].
  2:{ apply wp_ret. assert (n = 0) as -> by lia. specialize (Hok (cl_sock c)). simpl in Hok.
      destruct c. apply Hok; try done; lia. }
  wp_step. unfold c_read, wp at 1. destruct (decide (sk_in (cl_sock c) = [])) as [E|E].
  - rewrite sys_read_eof by done. simpl. apply Heof; [rewrite E; simpl; lia|done].
  - destruct (sys_read_law n (cl_sock c) Hpos E) as (x & data & s' & -> & Hlen & Ein & Eout).
    cbn [fst snd]. wp_step. wp_step; [by apply Z.leb_le|]. wp_step.
    assert (Z.to_nat n = length (x :: data) + Z.to_nat (n - Z.of_nat (length (x :: data))))%nat as En
      by (simpl in *; lia).
    rewrite Ein in Hok, Heof. rewrite En in Hok, Heof. rewrite length_app in Hok, Heof.
    apply IH; [simpl in *; lia|..|simpl in *; lia]; cbn [cl_sock cl_errno cl_lines].
    + intros s2 _ Hle Ein2 Eout2. wp_step. cbn [fmap option_fmap option_map].
      specialize (Hok s2). rewrite drop_app_add, take_app_add in Hok.
      rewrite Eout2, Eout, Ein2 in Hok. apply Hok; [lia|lia|done|done].
    + intros s2 Hlt Eout2. wp_step. apply Heof; [lia|by rewrite Eout2].
Qed.

Lemma wp_write_all fuel buf c (Q : Z → client → Prop) :
  (length buf < fuel)%nat →
  (∀ s', sk_in s' = sk_in (cl_sock c) → sk_out s' = sk_out (cl_sock c) ++ buf →
     Q 0 (mkClient s' (cl_errno c) (cl_lines c))) →
  wp (write_all fuel buf) c Q.
Proof.
  revert buf c. induction fuel as [|fuel IH]; intros buf c Hf HQ; [lia|].
  cbn [write_all]. destruct (Z.ltb_spec 0 (Z.of_nat (length buf))) as [Hpos|Hz].
  2:{ destruct buf; [|simpl in Hz; lia]. apply wp_ret. specialize (HQ (cl_sock c)).
      rewrite app_nil_r in HQ. destruct c. by apply HQ. }
  wp_step. unfold c_write, wp at 1.
  destruct (sys_write_law buf (cl_sock c)) as (k & s' & -> & Hk & Ein & Eout).
  { intros ->. simpl in Hpos. lia. }
  cbn [fst snd]. destruct (Z.leb_spec (Z.of_nat k) 0); [lia|]. wp_step. wp_step; [apply Z.leb_le; lia|].
  rewrite Nat2Z.id. apply IH; [rewrite length_drop; lia|]. cbn [cl_sock cl_errno cl_lines].
  intros s2 Ein2 Eout2. apply HQ; [congruence|]. by rewrite Eout2, Eout, <- app_assoc, take_drop.
Qed.

Lemma wp_output ls c (Q : unit → client → Prop) :
  Q tt (mkClient (cl_sock c) (cl_errno c) (cl_lines c ++ ls)) → wp (output ls) c Q.
Proof. done. Qed.

(** * What the client prints for a stream of responses *)

(** The result and the lines of [read_res], as a function of the bytes of the stream;
    [None] when [print_response] reads past the end of the response. *)
Definition read_view (bs : bytes) : option (Z * list line) :=
  if (length bs <? 4)%nat then Some (-1, [LMsg (str "EOF")])
  else
    let len := Z.to_nat (le_num (take 4 bs)) in
    let bs := drop 4 bs in
    if Client.k_max_msg <? Z.of_nat len then Some (-1, [LMsg (str "too long")])
    else if (length bs <? len)%nat then Some (-1, [LMsg (str "read() error")])
    else
      '(rv, ps) ← print_response (Datatypes.S len) (take len bs);
      if (0 <? rv) && negb (u32 rv =? Z.of_nat len) then Some (-1, (LPrint <$> ps) ++ [LMsg (str "bad response")])
      else Some (rv, LPrint <$> ps).

Lemma wp_read_res c rv ls :
  read_view (sk_in (cl_sock c)) = Some (rv, ls) →
  wp read_res c (λ r c', r = rv ∧ cl_lines c' = cl_lines c ++ ls ∧ sk_out (cl_sock c') = sk_out (cl_sock c)).
Proof.
  unfold read_view, read_res. intros E. wp_step. unfold set_errno, wp at 1. wp_step.
  apply wp_read_full; [lia|..|lia]; cbn [cl_sock cl_errno cl_lines]; change (Z.to_nat 4) with 4%nat.
  2:{ intros s' Hlt Eo. rewrite (proj2 (Nat.ltb_lt _ _) Hlt) in E. injection E as <- <-. cbv beta.
      wp_step. unfold get_errno, wp at 1. cbn [cl_errno]. wp_step. done. }
  intros s1 _ Hle Ei Eo. cbv beta. rewrite (proj2 (Nat.ltb_ge _ _) Hle) in E. cbv zeta in E.
  set (len := le_num (take 4 (sk_in (cl_sock c)))) in *. cbv zeta.
  assert (0 ≤ len) as Hlen by (apply le_num_bounds). rewrite Z2Nat.id in E by done.
  destruct (Client.k_max_msg <? len); [injection E as <- <-; by wp_step|].
  wp_step. apply wp_read_full; [lia|..|lia]; cbn [cl_sock cl_errno cl_lines]; rewrite ?Ei.
  2:{ intros s' Hlt Eo'. rewrite (proj2 (Nat.ltb_lt _ _) Hlt) in E. injection E as <- <-. cbv beta.
      wp_step. apply wp_output. wp_step. split_and!; [done|done|simpl; congruence]. }
  intros s2 _ Hle2 Ei2 Eo2. cbv beta. rewrite (proj2 (Nat.ltb_ge _ _) Hle2) in E.
  wp_step. unfold print_reply. rewrite length_take_le by done.
  destruct (print_response _ _) as [[rv' ps]|]; [|done]. cbn [mbind option_bind] in E.
  wp_step. apply wp_output. cbn [cl_sock cl_errno cl_lines]. wp_step.
  destruct ((0 <? rv') && negb (u32 rv' =? len)); injection E as <- <-; wp_step.
  - apply wp_output. wp_step. split_and!; [done|simpl; by rewrite app_assoc|simpl; congruence].
  - split_and!; [done|done|simpl; congruence].
Qed.
End client.
