(* ===== verification/ClientSession.v ===== *)
(** One run of the client against the server: the request it writes, and what it prints
    for the server's answer, however the kernel cuts the two streams. *)
From S2P Require Import Prelude Common Buffer Request Reply ServerSpec EventLoop ConnSpec ClientIo.

(** * The request is one frame of the server *)

Lemma next_frame_request cmd rest :
  req_ok cmd → Z.of_nat (length (encode_req cmd)) ≤ Buffer.k_max_msg →
  next_frame (request_frame cmd ++ rest) = FCmd cmd rest.
Proof.
  change Buffer.k_max_msg with 33554432. intros Hok Hmax. unfold next_frame, request_frame, buf_size.
  change k_max_msg with 33554432.
  rewrite <- app_assoc, take_app_length', drop_app_length' by (by rewrite le_bytes_length).
  rewrite !length_app, le_bytes_length, le_num_bytes, Z.mod_small by lia. cbv zeta.
  destruct (Z.ltb_spec (Z.of_nat (4 + (length (encode_req cmd) + length rest))) 4); [lia|].
  destruct (Z.ltb_spec 33554432 (Z.of_nat (length (encode_req cmd)))); [lia|].
  destruct (Z.ltb_spec (Z.of_nat (4 + (length (encode_req cmd) + length rest)))
    (4 + Z.of_nat (length (encode_req cmd)))); [lia|].
  rewrite Nat2Z.id, take_app_length, parse_req_encode by done. f_equal.
  rewrite app_assoc, drop_app_length'; [done|]. rewrite length_app, le_bytes_length. lia.
Qed.

(** The server answers it with one reply. *)
Lemma serves_request strtod clock cmd A vs rest bad A' :
  req_ok cmd → Z.of_nat (length (encode_req cmd)) ≤ Buffer.k_max_msg →
  serves strtod clock (request_frame cmd) A vs rest bad A' →
  ∃ v, vs = [v] ∧ rest = [] ∧ bad = false ∧ spec_request strtod (clock 0%nat) cmd A A' v.
Proof.
  intros Hok Hmax Hs. pose proof (next_frame_request cmd [] Hok Hmax) as E. rewrite app_nil_r in E.
  inversion Hs as [? ? ? E'|? ? ? E'|? ? ? ? ? A1 v vs' ? ? ? E' Hr Hs']; subst; try congruence.
  rewrite E in E'. injection E' as <- <-. exists v.
  inversion Hs' as [? ? ? E2|? ? ? E2|? ? ? ? ? ? ? ? ? ? ? E2 _ _]; subst; try done.
Qed.

(** * The response is printed *)

Lemma depth_le_length v : (depth v ≤ length (encode v))%nat.
Proof.
  induction v as [|c m|s|z|d|l IH] using value_ind'; try (simpl; lia).
  cbn [depth encode length]. rewrite length_app, le_bytes_length.
  enough (foldr (λ v n, depth v `max` n) 0 l ≤ length (concat (encode <$> l)))%nat by lia.
  induction l as [|v l IHl]; [simpl; lia|]. apply Forall_cons in IH as [Hv IH].
  cbn [foldr fmap list_fmap concat]. rewrite length_app. specialize (IHl IH). lia.
Qed.

(** What the client prints for a reply. *)
Definition reply_lines (v : value) : list line :=
  if Client.k_max_msg <? Z.of_nat (length (encode v)) then [LMsg (str "too long")] else LPrint <$> prints v.

Lemma response_small v :
  Z.of_nat (length (encode v)) ≤ 33554432 →
  response (encode v) = le_bytes 4 (Z.of_nat (length (encode v))) ++ encode v.
Proof.
  intros Hmax. unfold response.
  destruct (capped_small (encode v)) as (E & Eu & _); [unfold buf_size; lia|].
  change (k_max_msg) with 33554432 in E. unfold buf_size in *.
  destruct (Z.ltb_spec 33554432 (Z.of_nat (length (encode v)))); [lia|]. rewrite E in Eu |- *. by rewrite Eu.
Qed.

Lemma read_view_response v rest :
  value_ok v → Z.of_nat (length (encode v)) ≤ Buffer.k_max_msg →
  ∃ rv, read_view (response (encode v) ++ rest) = Some (rv, reply_lines v).
Proof.
  change Buffer.k_max_msg with 33554432. intros Hok Hmax. rewrite response_small by done.
  unfold read_view, reply_lines. rewrite <- app_assoc.
  rewrite take_app_length', drop_app_length' by (by rewrite le_bytes_length).
  rewrite !length_app, le_bytes_length, le_num_bytes, Z.mod_small by lia. cbv zeta. rewrite Nat2Z.id.
  destruct (Nat.ltb_spec (4 + (length (encode v) + length rest)) 4); [lia|].
  destruct (Client.k_max_msg <? Z.of_nat (length (encode v))) eqn:Ek; [by eexists|].
  destruct (Nat.ltb_spec (length (encode v) + length rest) (length (encode v))); [lia|].
  rewrite take_app_length.
  pose proof (print_front v (S (length (encode v))) Hok) as Hp. unfold prints_front in Hp.
  specialize (Hp ltac:(pose proof (depth_le_length v); lia) ltac:(lia) []). rewrite app_nil_r in Hp.
  rewrite Hp. cbn [mbind option_bind]. rewrite u32_small by lia. rewrite Z.eqb_refl, andb_false_r. by eexists.
Qed.

Lemma read_view_truncated v n :
  Z.of_nat (length (encode v)) ≤ Client.k_max_msg → (n < length (response (encode v)))%nat →
  read_view (take n (response (encode v))) =
    Some (-1, [LMsg (str (if (n <? 4)%nat then "EOF" else "read() error"))]).
Proof.
  unfold Client.k_max_msg. intros Hmax Hn. rewrite response_small in Hn |- * by lia.
  rewrite length_app, le_bytes_length in Hn. unfold read_view.
  rewrite length_take, length_app, le_bytes_length.
  destruct (Nat.ltb_spec n 4) as [Hs|Hs].
  { by destruct (Nat.ltb_spec (n `min` (4 + length (encode v))) 4); [|lia]. }
  destruct (Nat.ltb_spec (n `min` (4 + length (encode v))) 4); [lia|].
  rewrite take_take, Nat.min_l by done. rewrite skipn_firstn_comm.
  rewrite take_app_length', drop_app_length' by (by rewrite le_bytes_length).
  rewrite le_num_bytes, Z.mod_small by lia. cbv zeta. rewrite Nat2Z.id.
  destruct (Z.ltb_spec Client.k_max_msg (Z.of_nat (length (encode v)))) as [Hb|_];
    [unfold Client.k_max_msg in Hb; lia|].
  rewrite length_take. by destruct (Nat.ltb_spec ((n - 4) `min` length (encode v)) (length (encode v))); [|lia].
Qed.

(** * A session *)

Section session.
Context {S : Type} `{!Socket S} `{!SocketLaws S}.

(** C6. A run of the client against the server: the client writes exactly the message of
    its command and, if the peer sends what the server answers to those bytes, prints the reply
    that the abstract key space gives to the command (or "too long" for a reply beyond
    the client's 4096 bytes) and exits; how [read] and [write] cut the streams does not
    matter. *)
Theorem client_session strtod clock A A' vs rest bad fd wbuf0 argv (sock : S) errno later :
  let cmd := drop 1 argv in
  length wbuf0 = 4100%nat → 0 ≤ fd →
  Z.of_nat (length (encode_req cmd)) ≤ Client.k_max_msg →
  serves strtod clock (request_frame cmd) A vs rest bad A' →
  Forall (λ v, value_ok v ∧ Z.of_nat (length (encode v)) ≤ Buffer.k_max_msg) vs →
  sk_in sock = responses vs ++ later →
  ∃ v, spec_request strtod (clock 0%nat) cmd A A' v ∧
    wp (client_main fd 0 wbuf0 argv) (mkClient sock errno []) (λ r c,
      r = Exited 0 ∧ sk_out (cl_sock c) = sk_out sock ++ request_frame cmd ∧ cl_lines c = reply_lines v).
Proof.
  intros cmd Hw Hfd Hmax Hs Hok Hin. pose proof (req_ok_small cmd Hmax) as Hreq.
  apply serves_request in Hs as (v & -> & _ & _ & Hspec); [|done|].
  2:{ unfold Client.k_max_msg in Hmax. change Buffer.k_max_msg with 33554432. lia. }
  exists v. split; [done|]. apply Forall_singleton in Hok as [Hok Hlen].
  destruct (read_view_response v later Hok Hlen) as [rv Hview].
  unfold responses in Hin. cbn [fmap list_fmap concat] in Hin. rewrite app_nil_r in Hin.
  unfold client_main. destruct (Z.ltb_spec fd 0); [lia|]. cbn [Z.eqb negb]. fold cmd.
  wp_step. unfold send_req. rewrite send_req_frame by done. apply wp_write_all; [lia|].
  cbn [cl_sock cl_errno cl_lines]. intros s1 Ein1 Eout1. cbn [Z.eqb negb]. wp_step.
  eapply wp_mono; [apply (wp_read_res _ rv (reply_lines v))|].
  { cbn [cl_sock]. by rewrite Ein1, Hin. }
  cbv beta. cbn [cl_sock cl_lines]. intros _ c (_ & El & Eo). wp_step. rewrite Eo, El. done.
Qed.

(** C39. A response that is cut off is never shown in part: if the stream ends before the
    response does, the client prints "EOF" (within the header) or "read() error" (within
    the body) and nothing else. *)
Theorem client_truncated wbuf0 argv (sock : S) fd errno v n :
  let cmd := drop 1 argv in
  length wbuf0 = 4100%nat → 0 ≤ fd →
  Z.of_nat (length (encode_req cmd)) ≤ Client.k_max_msg →
  Z.of_nat (length (encode v)) ≤ Client.k_max_msg →
  (n < length (response (encode v)))%nat → sk_in sock = take n (response (encode v)) →
  wp (client_main fd 0 wbuf0 argv) (mkClient sock errno []) (λ r c,
    r = Exited 0 ∧ cl_lines c = [LMsg (str (if (n <? 4)%nat then "EOF" else "read() error"))]).
Proof.
  intros cmd Hw Hfd Hmax Hlen Hn Hin.
  unfold client_main. destruct (Z.ltb_spec fd 0); [lia|]. cbn [Z.eqb negb]. fold cmd.
  wp_step. unfold send_req. rewrite send_req_frame by done. apply wp_write_all; [lia|].
  cbn [cl_sock cl_errno cl_lines]. intros s1 Ein1 Eout1. cbn [Z.eqb negb]. wp_step.
  eapply wp_mono; [apply (wp_read_res _ (-1) [LMsg (str (if (n <? 4)%nat then "EOF" else "read() error"))])|].
  { cbn [cl_sock]. rewrite Ein1, Hin. by apply read_view_truncated. }
  cbv beta. cbn [cl_sock cl_lines]. intros _ c (_ & El & Eo). wp_step. by rewrite El.
Qed.
End session.

(** * A socket that cuts its streams *)

(** A pipe in both directions; each call transfers at most the next number of
    [p_cuts] (and at least one byte). *)
Record pipe : Type := mkPipe {
  p_in : bytes;
  p_out : bytes;
  p_cuts : list nat;
}.

(** How many of [n] bytes the next call transfers. *)
Definition cut (p : pipe) (n : nat) : nat :=
  match p_cuts p with [] => n | k :: _ => Nat.max 1 k `min` n end.

#[export] Instance pipe_socket : Socket pipe := {|
  sys_read n p :=
    let k := cut p (Z.to_nat n) in
    (ReadOk (take k (p_in p)), mkPipe (drop k (p_in p)) (p_out p) (if p_in p is [] then p_cuts p else tail (p_cuts p)));
  sys_write data p :=
    let k := cut p (length data) in
    (WriteOk (Z.of_nat k), mkPipe (p_in p) (p_out p ++ take k data) (tail (p_cuts p)));
|}.

Lemma cut_bounds p n : (0 < n)%nat → (1 ≤ cut p n ≤ n)%nat.
Proof. unfold cut. destruct (p_cuts p); lia. Qed.

#[export] Program Instance pipe_laws : SocketLaws pipe := {| sk_in := p_in; sk_out := p_out |}.
Next Obligation.
  intros n [[|x data] out cuts] Hn Hin; [done|]. simpl. unfold sys_read, pipe_socket. cbn [p_in p_out p_cuts].
  pose proof (cut_bounds (mkPipe (x :: data) out cuts) (Z.to_nat n) ltac:(lia)) as Hk.
  destruct (cut _ _) as [|k]; [lia|]. eexists x, (take k data), _. split; [done|]. simpl.
  rewrite length_take, take_drop. split_and!; [lia|done|done].
Qed.
Next Obligation. intros n [data out cuts] Hin. simpl in *. subst. by destruct (cut _ _). Qed.
Next Obligation.
  intros data [i o cuts] Hd. simpl.
  pose proof (cut_bounds (mkPipe i o cuts) (length data)) as Hk.
  eexists _, _. split; [done|]. split; [|done]. apply Hk. destruct data; [done|simpl; lia].
Qed.

(** The key "k" holds a string; the response comes in pieces of 3, 1, 2, ... bytes. *)
Definition session_store : astate := mkA {[ str "k" := AStr (str "hello") ]} ∅.
Definition session_argv : list bytes := [str "client"; str "get"; str "k"].
Definition session_pipe (r : bytes) : pipe := mkPipe r [] [5; 0; 100; 3; 1; 2; 4]%nat.

Lemma session_serves strtod clock :
  serves strtod clock (request_frame [str "get"; str "k"]) session_store [VStr (str "hello")] [] false session_store.
Proof.
  eapply (sv_cmd strtod clock _ session_store [str "get"; str "k"] []); [reflexivity| |by apply sv_more].
  simpl. by split.
Qed.

Lemma client_session_witness :
  wp (client_main 3 0 (replicate 4100 Byte.x00) session_argv)
    (mkClient (session_pipe (responses [VStr (str "hello")])) 0 []) (λ r c,
      r = Exited 0 ∧ sk_out (cl_sock c) = request_frame [str "get"; str "k"] ∧
      cl_lines c = [LPrint (PStr (str "hello"))]).
Proof.
  destruct (client_session (λ _, (0, 0%nat)) (λ _, 0) session_store session_store [VStr (str "hello")] [] false
    3 (replicate 4100 Byte.x00) session_argv (session_pipe (responses [VStr (str "hello")])) 0 [])
    as (v & [_ ->] & H).
  - reflexivity.
  - lia.
  - by vm_compute.
  - apply session_serves.
  - apply Forall_singleton. split; [done|by vm_compute].
  - reflexivity.
  - exact H.
Defined.

Lemma client_truncated_witness :
  wp (client_main 3 0 (replicate 4100 Byte.x00) session_argv)
    (mkClient (session_pipe (take 7 (response (encode (VStr (str "hello")))))) 0 []) (λ r c,
      r = Exited 0 ∧ cl_lines c = [LMsg (str "read() error")]).
Proof.
  apply (client_truncated (replicate 4100 Byte.x00) session_argv
    (session_pipe (take 7 (response (encode (VStr (str "hello")))))) 3 0 (VStr (str "hello")) 7);
    try reflexivity; try lia; vm_compute; first [done|lia].
Defined.
